(* ===== verification/_CoqProject ===== *)
-Q . S2P
Prelude.v
CfiTable.v
EhFrame.v
Leb128.v
TableBuilder.v
EhFrameFacts.v
CfiProgram.v
CfiRecord.v
CfiSection.v
CfiLookup.v
TableFacts.v
CfiRules.v
AbsState.v
AbsStateTests.v
AbsStateFacts.v
JoinFacts.v
StateFacts.v
Zydis.v
ZydisSample.v
InsnSemantics.v
InsnSemanticsTests.v
Subprocess.v
InsnFacts.v
BoundFacts.v
ElfImage.v
ElfImageFacts.v
ElfOpen.v
FixtureImage.v
Lsda.v
LsdaFacts.v
RowCheck.v
FdeChecker.v
Sample.v
SinkFacts.v
RowFacts.v
Machine.v
TransferFacts.v
WalkFacts.v
VerdictFacts.v
RunFacts.v
CheckerFacts.v
Diagnostics.v
DiagnosticsFacts.v
Inspect.v
Symbolizer.v
SymbolizerFacts.v
LightChecker.v
LightFacts.v
Coverage.v
CoverageFacts.v
Driver.v
DriverFacts.v
Report.v
ReportFacts.v
Fixtures.v
FixtureTests.v
LightCheckerTests.v
CfiTableTests.v
ElfImageTests.v
CoverageTests.v
FixtureRun.v
Main.v
ProgramFacts.v
Cli.v
