(* ===== verification/Prelude.v ===== *)
(** * unwind-check: a verification development

    unwind-check reads the [.eh_frame] section of an x86-64 ELF binary and
    checks the unwind tables against the machine code: for every FDE it runs
    a forward dataflow over the instructions of the FDE's range and compares
    the state it derives at every address (where the CFA, the return address
    and the callee-saved registers are) with the CFI row the FDE declares
    there.  The verdict of an FDE is BLESSED, REVIEW or MISMATCH.

    ** The parts of the program and the files that model them

    The declared side, what the tables say:
    - [EhFrame]: [eh-frame-reader.h], [eh-frame-reader.cc] and
      [dwarf-constants.h]: the decoder over byte slices (LEB128, encoded
      pointers, CIE and FDE headers, the CFI opcode loop calling a visitor),
      [EnumerateFDEs] and the binary search of [.eh_frame_hdr].
    - [CfiTable], [TableBuilder]: [cfi-table.h] and [cfi-table.cc]: rules,
      rows, [CFI::RowAt], and the visitor that builds the rows of an FDE.
    - [Lsda]: [lsda-reader.cc]: the call-site table of a C++ function.
    - [ElfImage]: [elf-image.cc]: segments, sections, symbols, [Open] on a
      file's bytes; [ElfOpen] adds the system calls and the destructor, over
      the class [FileSystem].

    The derived side, what the code does:
    - [Zydis]: [disasm.cc] over the disassembler library, which is a class
      [ZydisApi] of operations with the documented laws [ZydisLaws]
      ([ZydisSample] is an instance for the witnesses).
    - [AbsState]: [abs-state.h] and [abs-state.cc]: the CFI lattice, the
      switch-table lattice, the state at a program point, [Join].
    - [InsnSemantics]: [insn-semantics.cc]: [Transfer] and [TransferEdge].

    The comparison:
    - [RowCheck]: the first part of [fde-checker.cc]: [FindingSink], the row
      check, the fall-through test and the exit-state test.
    - [FdeChecker]: [class FDEChecker], [Check] and [CheckWithGuessing]: the
      walk ([Propagate], [Drain]), jump tables, the verification pass, the
      coverage gaps and the verdict.
    - [LightChecker]: [light-checker.cc], the one-pass check.
    - [Coverage]: [coverage-check.cc], symbols no FDE covers.
    - [Driver]: the parts of [Run] in [unwind-check.cc] (reading the FDEs,
      the structural checks, the loop over the checkable ones, the exit
      code) and the decisions of [report.cc].

    The output and the program:
    - [Diagnostics]: [diagnostics.cc], the listing of an FDE and the context
      of a finding; [Inspect]: the pipeline of [--inspect], with its
      annotations, its child process and the writes to it (class [Writer]).
    - [Subprocess]: [subprocess.cc] over a table of file descriptors; the
      kernel is the class [OS], and [Spawner] with [SpawnerSpec] is the
      contract its clients rely on.
    - [Symbolizer]: [symbolizer.cc], names and source lines, over [Spawner].
    - [Report]: [report.cc] and [--dump_cfi], as the lines printed.
    - [Main]: [Run] from the image to the exit code, composed of the above;
      [Cli]: [main] from the parsed flags on, which opens and closes the image.

    The program's own tests are evaluated on the model, every one of them:
    [AbsStateTests], [InsnSemanticsTests], [CfiTableTests], [FixtureTests],
    [LightCheckerTests], [ElfImageTests] and [CoverageTests], after the
    [.cc] files of those names.  Those that need the fixture binary run on
    [FixtureImage.libfixtures], an ELF file linked from
    [testdata/fixtures.S]: the model opens it, reads its [.eh_frame], decodes
    its code with a table of the encodings in it ([Fixtures]) and reaches the
    verdicts the tests expect.  [FixtureRun] applies the soundness theorem
    to the functions it blesses.  [Machine] is not part of the program: it is
    the processor the soundness theorems are about.

    A component's state is a Record with the members of the C++ class
    ([Walk], [TableBuilder], [FindingSink], [AbsState]); a method that
    mutates it takes and returns the record.  A function that throws
    [EHFrameError] or returns a [StatusOr] returns [res]; one that returns
    [std::optional] or a null pointer returns [option].  Machine integers
    are [Z] with the conversions [u8] .. [s64] written where C++ converts.

    ** The theorems

    - The reader ([Leb128], [EhFrameFacts], [CfiProgram], [CfiRecord],
      [CfiSection], [CfiLookup], [TableFacts], [CfiRules]): LEB128 decoding
      is exact and inverts encoding; the opcode loop refines an abstract
      instruction machine; a section of encoded CIEs and FDEs is walked and
      decoded to exactly what was encoded, and the binary search table finds
      the right FDE; decoding always returns or throws; the rows of an FDE
      are sorted.  [CfiRules]: the row [RowAt] finds at an address holds exactly
      the rules the CIE's and FDE's programs put in force there.
    - The lattices ([AbsStateFacts], [JoinFacts], [StateFacts]): [Join] is a
      pointwise meet with an exact changed flag and exact conflicts.
    - The transfer functions ([InsnFacts], [BoundFacts], [TransferFacts]):
      states stay well formed; the bounds that size jump tables are upper
      bounds of the registers; what a state says of the CFA, of entry values
      and of stack slots stays true when the processor executes an
      instruction.
    - The checks ([SinkFacts], [RowFacts], [WalkFacts], [VerdictFacts],
      [RunFacts], [CheckerFacts]): the sink accounts for every finding; a
      row that passes unwinds correctly; a drained walk is a post-fixpoint
      and has decoded everything it reached; BLESSED certifies the states of
      the walk, and every execution that follows them unwinds correctly at
      every address.
    - The light checker ([LightFacts]): what its BLESSED means.
    - The binary ([ElfImageFacts], [ElfOpen], [LsdaFacts]): on a well laid
      out file every file-backed address reads the file's byte; opening
      leaks no descriptor and no mapping; the call-site reader inverts the
      compiler's encoding and always ends.
    - The rest of the run ([CoverageFacts], [DriverFacts], [ReportFacts],
      [Subprocess], [SymbolizerFacts], [DiagnosticsFacts], [Inspect]):
      uncovered bytes, the structural checks and the exit code; what the
      report lists and counts; no descriptor leaks; every address is shown
      with the answers given for it; the listing is what the checker decodes
      and a finding's context the slice of it around the finding; the helper
      of [--inspect] is sent every byte or the run fails.
    - The whole program ([Main], [ProgramFacts], [Cli]): every invocation
      ends with a documented exit code ([main_returns]); exit code 0 means
      every FDE was decoded and blessed ([Run_blessed]) and, with the strict
      flags of the full checker, that every execution of the code those FDEs
      cover unwinds correctly ([Run_unwinds]).

    ** Fuel and bounds

    [EhFrame]'s loops consume at least one byte a turn and take the length
    of the slice (plus one) as fuel; [TableFacts.ReadFDE_terminates] proves
    [OutOfFuel] is never the result.  LEB128 readers stop at ten groups as
    the source does.  [Drain]'s fuel is [max_iterations], the source's own
    cap; the coverage scan's is the length of the FDE, which every turn
    shortens.  The call-site loop's is the length of its table, enough on an
    image without a file byte at the last address
    ([LsdaFacts.ReadLSDACallSites_returns]).  The writes to the helper and
    the wait for it may be interrupted up to [patience] times in a row, a
    parameter ([Inspect.HelperLaws]).  [std::sort] is stdpp's
    [merge_sort] (the order of equal elements is unspecified) and
    [std::stable_sort] the [stable_sort] below.

    ** Not modelled

    The Zydis library, the C++ regular expressions, the demangler, abseil's
    flag and hex parsers, the runfiles library and the kernel are parameters.
    The JSON text the script of [--inspect] is given is a parameter too, and
    what the script prints is left out, as are SIGPIPE, counters that only
    feed the log, and the Ruby scripts.  The lines of the C++ files that no
    definition translates are comments, includes, forward declarations,
    class and namespace frames, and the wrappers that print to a stream. *)

From stdpp Require Export base numbers list strings gmap sorting pretty.

Declare Scope uw_scope.
Delimit Scope uw_scope with uw.
#[global] Open Scope Z_scope.

(** ** Machine integers

    [uint64_t]/[uintptr_t] values are kept as [Z] in [[0, 2^64)], [int64_t]
    values as [Z] in [[-2^63, 2^63)].  The conversions below are the C++
    [static_cast]s; unsigned arithmetic is written as [u64 (a + b)]. *)

Definition wrapu (w x : Z) : Z := x mod 2 ^ w.
Definition wraps (w x : Z) : Z := (x + 2 ^ (w - 1)) mod 2 ^ w - 2 ^ (w - 1).

Definition u8 (x : Z) : Z := wrapu 8 x.
Definition u32 (x : Z) : Z := wrapu 32 x.
Definition u64 (x : Z) : Z := wrapu 64 x.
Definition s8 (x : Z) : Z := wraps 8 x.
Definition s32 (x : Z) : Z := wraps 32 x.
Definition s64 (x : Z) : Z := wraps 64 x.

Definition is_u8 (x : Z) : Prop := 0 <= x < 256.
Definition is_u64 (x : Z) : Prop := 0 <= x < 18446744073709551616.
Definition is_s64 (x : Z) : Prop := - 9223372036854775808 <= x < 9223372036854775808.

#[export] Instance is_u8_dec x : Decision (is_u8 x).
Proof. unfold is_u8. apply _. Defined.
#[export] Instance is_u64_dec x : Decision (is_u64 x).
Proof. unfold is_u64. apply _. Defined.
#[export] Instance is_s64_dec x : Decision (is_s64 x).
Proof. unfold is_s64. apply _. Defined.

(** [mach] decides linear goals about the fixed-width conversions: it writes
    the powers of two out and replaces every [mod]/[div] by its Euclidean
    equations. *)
Ltac mach_unfold :=
  unfold is_u8, is_u64, is_s64, u8, u32, u64, s8, s32, s64, wrapu, wraps in *;
  change (2 ^ 64) with 18446744073709551616 in *;
  change (2 ^ (64 - 1)) with 9223372036854775808 in *;
  change (2 ^ 63) with 9223372036854775808 in *;
  change (2 ^ 32) with 4294967296 in *;
  change (2 ^ (32 - 1)) with 2147483648 in *;
  change (2 ^ 31) with 2147483648 in *;
  change (2 ^ 8) with 256 in *;
  change (2 ^ (8 - 1)) with 128 in *.
Ltac mach := mach_unfold; Z.to_euclidean_division_equations; lia.

Create HintDb uw.
Create Rewrite HintDb uw_rw.

Lemma u64_range x : is_u64 (u64 x).
Proof. mach. Qed.
Lemma s64_range x : is_s64 (s64 x).
Proof. mach. Qed.
Lemma u8_range x : is_u8 (u8 x).
Proof. mach. Qed.
Lemma u64_id x : is_u64 x → u64 x = x.
Proof. mach. Qed.
Lemma s64_id x : is_s64 x → s64 x = x.
Proof. mach. Qed.
Lemma u8_id x : is_u8 x → u8 x = x.
Proof. mach. Qed.
Lemma s64_u64 x : s64 (u64 x) = s64 x.
Proof. mach. Qed.
Lemma u64_s64 x : u64 (s64 x) = u64 x.
Proof. mach. Qed.
Lemma u64_u64 x : u64 (u64 x) = u64 x.
Proof. mach. Qed.
Lemma u64_add_l x y : u64 (u64 x + y) = u64 (x + y).
Proof. mach. Qed.
Lemma u64_add_r x y : u64 (x + u64 y) = u64 (x + y).
Proof. mach. Qed.
Lemma s64_add_u64 x y : s64 (u64 x + u64 y) = s64 (x + y).
Proof. mach. Qed.
Lemma u64_inj_range x y : is_u64 x → is_u64 y → u64 x = u64 y → x = y.
Proof. mach. Qed.

#[export] Hint Resolve u64_range s64_range u8_range : uw.
#[export] Hint Rewrite u64_u64 s64_u64 u64_s64 u64_add_l u64_add_r : uw_rw.

(** ** Results

    The readers signal malformed input by throwing [EHFrameError]; a function
    that may throw returns [res].  [OutOfFuel] is not a value the program
    produces: it marks the exhaustion of a model's fuel, and every component
    proves that it never appears. *)

Inductive error :=
  | EHFrameError (msg : string)
  | OutOfFuel.

Inductive res (A : Type) :=
  | Ok (a : A)
  | Throw (e : error).
Arguments Ok {A} a.
Arguments Throw {A} e.

#[export] Instance res_ret : MRet res := fun _ a => Ok a.
#[export] Instance res_bind : MBind res := fun _ _ f m =>
  match m with Ok a => f a | Throw e => Throw e end.

Definition fail {A} (msg : string) : res A := Throw (EHFrameError msg).

(** [no_fuel r] : the model did not run out of fuel. *)
Definition no_fuel {A} (r : res A) : Prop := r ≠ Throw OutOfFuel.

Lemma no_fuel_ok {A} (a : A) : no_fuel (Ok a).
Proof. discriminate. Qed.
Lemma no_fuel_fail {A} msg : no_fuel (fail msg : res A).
Proof. discriminate. Qed.
Lemma no_fuel_bind {A B} (m : res A) (f : A → res B) :
  no_fuel m → (∀ a, m = Ok a → no_fuel (f a)) → no_fuel (m ≫= f).
Proof. destruct m; cbn; [|intros H _ Heq; by injection Heq as ->]. eauto. Qed.
Lemma bind_ok {A B} (m : res A) (f : A → res B) b :
  m ≫= f = Ok b → ∃ a, m = Ok a ∧ f a = Ok b.
Proof. destruct m; cbn; [eauto|discriminate]. Qed.

#[export] Hint Resolve no_fuel_ok no_fuel_fail : uw.

(** Inverts every [m ≫= f = Ok b] hypothesis. *)
Ltac inv_ok :=
  repeat match goal with
  | H : (_ ≫= _) = Ok _ |- _ =>
      let a := fresh "a" in let Ha := fresh "Ha" in
      apply bind_ok in H as (a & Ha & H)
  | H : Ok _ = Ok _ |- _ => injection H as H; subst
  | H : mret _ = Ok _ |- _ => injection H as H; subst
  | H : fail _ = Ok _ |- _ => discriminate H
  | H : Throw _ = Ok _ |- _ => discriminate H
  end.

(** Case analysis on the first [if]/[match] in the goal, recording the
    equation. *)
Ltac split_match :=
  match goal with
  | |- context [match ?x with _ => _ end] => destruct x eqn:?
  end.

(** ** Binary search

    [absl::c_upper_bound]/[c_lower_bound] are [std::upper_bound] and
    [std::lower_bound], the halving search of the C++ standard library: it
    keeps a window [[first, first+len)], probes the middle and goes left when
    the probe [p] holds.  [upper_bound v] probes [v < key e], [lower_bound]
    probes [not (comp e v)].  The result is an index (an iterator). *)

Section partition_point.
Context {A : Type} (p : A → bool) (l : list A).

Definition probe (i : nat) : bool :=
  match l !! i with Some x => p x | None => false end.

Fixpoint pp_loop (fuel first len : nat) : nat :=
  match fuel with
  | O => first
  | S fuel =>
      if bool_decide (len = 0)%nat then first
      else
        let half := (len / 2)%nat in
        let mid := (first + half)%nat in
        if probe mid then pp_loop fuel first half
        else pp_loop fuel (mid + 1) (len - half - 1)
  end.

Definition partition_point : nat := pp_loop (length l) 0 (length l).

(** The left neighbour of the window was probed false, its right end true. *)
Definition pp_inv (first len : nat) : Prop :=
  (first + len ≤ length l)%nat ∧
  (first = 0%nat ∨ probe (first - 1) = false) ∧
  (first + len = length l ∨ probe (first + len) = true)%nat.

Lemma pp_loop_inv fuel first len :
  (len ≤ fuel)%nat → pp_inv first len → pp_inv (pp_loop fuel first len) 0.
Proof.
  revert first len. induction fuel as [|fuel IH]; intros first len Hf Hinv;
    cbn [pp_loop].
  { replace len with 0%nat in Hinv by lia. done. }
  case_bool_decide as Hlen; [by subst|].
  pose proof (Nat.div_lt len 2).
  destruct Hinv as (H1 & H2 & H3). cbv zeta.
  destruct (probe (first + len / 2)) eqn:Hp.
  - apply IH; [lia|]. repeat split; [lia|done|]. auto.
  - apply IH; [lia|]. split; [lia|]. split.
    + right. by replace (_ + 1 - 1)%nat with (first + len / 2)%nat by lia.
    + by replace (first + len / 2 + 1 + (len - len / 2 - 1))%nat
        with (first + len)%nat by lia.
Qed.

(** What the search establishes whether or not the range is sorted: the
    element before the result fails the probe, the one at it satisfies it. *)
Lemma partition_point_boundary :
  (partition_point ≤ length l)%nat ∧
  (partition_point = 0%nat ∨ probe (partition_point - 1) = false) ∧
  (partition_point = length l ∨ probe partition_point = true).
Proof.
  pose proof (pp_loop_inv (length l) 0 (length l)) as H.
  destruct H as (H1 & H2 & H3); [lia| |].
  { repeat split; [lia|by left|by left]. }
  rewrite !Nat.add_0_r in *. done.
Qed.

(** On a partitioned range it is the partition point. *)
Lemma partition_point_spec :
  (∀ i j x y, (i ≤ j)%nat → l !! i = Some x → l !! j = Some y → p x → p y) →
  ∀ i x, l !! i = Some x → p x = bool_decide (partition_point ≤ i)%nat.
Proof.
  intros Hmono i x Hi.
  destruct partition_point_boundary as (Hle & Hl & Hr).
  case_bool_decide as Hk.
  - destruct Hr as [Hr|Hr].
    { apply lookup_lt_Some in Hi. lia. }
    unfold probe in Hr. destruct (l !! partition_point) eqn:E; [|done].
    apply Is_true_true. eapply (Hmono partition_point i); eauto.
  - destruct Hl as [Hl|Hl]; [lia|].
    destruct (p x) eqn:Hp; [|done]. unfold probe in Hl.
    destruct (lookup_lt_is_Some_2 l (partition_point - 1)) as [y Hy].
    { apply lookup_lt_Some in Hi. lia. }
    rewrite Hy in Hl. exfalso.
    assert (p y) as Hpy
      by (eapply (Hmono i (partition_point - 1)%nat); eauto; lia).
    apply Is_true_true in Hpy. congruence.
Qed.
End partition_point.

(** ** Stable sorting

    [std::stable_sort]: stdpp's [merge_sort] permutes elements that compare
    equal, an insertion sort does not. *)

Section stable_sort.
Context {A} (R : relation A) `{!RelDecision R}.

Fixpoint insert_before (x : A) (l : list A) : list A :=
  match l with
  | [] => [x]
  | y :: l' => if decide (R x y) then x :: l else y :: insert_before x l'
  end.
Definition stable_sort (l : list A) : list A := foldr insert_before [] l.

Lemma insert_before_Permutation x l : insert_before x l ≡ₚ x :: l.
Proof. induction l as [|y l IH]; cbn; [done|]. case_decide; [done|]. rewrite IH. constructor. Qed.
Lemma stable_sort_Permutation l : stable_sort l ≡ₚ l.
Proof. induction l as [|x l IH]; cbn; [done|]. by rewrite insert_before_Permutation, IH. Qed.

Lemma stable_sort_sorted `{!Total R} `{!Transitive R} l : StronglySorted R (stable_sort l).
Proof.
  induction l as [|x l IH]; cbn; [constructor|]. fold (stable_sort l). revert IH. generalize (stable_sort l).
  clear l. intros l. induction 1 as [|y l Hl IH Hy]; cbn; [repeat constructor|]. case_decide as Hxy.
  - constructor; [by constructor|]. constructor; [done|]. eapply Forall_impl; [exact Hy|]. intros z. by transitivity y.
  - constructor; [done|]. rewrite insert_before_Permutation. constructor; [|done].
    by destruct (total R x y).
Qed.

(** Elements that compare equal keep their order. *)
Lemma stable_sort_stable (P : A → Prop) `{!∀ x, Decision (P x)} l :
  (∀ x y, P x → P y → R x y) → filter P (stable_sort l) = filter P l.
Proof.
  intros HP. induction l as [|x l IH]; cbn [stable_sort foldr]; [done|].
  rewrite filter_cons, <- IH. fold (stable_sort l). generalize (stable_sort l) as k. clear l IH.
  intros l. induction l as [|y l IH]; cbn [insert_before]; [done|]. destruct (decide (R x y)) as [Hxy|Hxy]; [by rewrite (filter_cons _ x)|].
  rewrite !(filter_cons _ y), IH. repeat case_decide; try done. exfalso. eauto.
Qed.
End stable_sort.

(** ** Byte strings, little endian *)

Fixpoint le_value (bs : list Z) : Z :=
  match bs with [] => 0 | b :: bs => b + 256 * le_value bs end.

Fixpoint le_split (n : nat) (z : Z) : list Z :=
  match n with O => [] | S n => z mod 256 :: le_split n (z / 256) end.

Lemma length_le_split n z : length (le_split n z) = n.
Proof. revert z; induction n; cbn; auto. Qed.

Lemma le_value_range bs : Forall is_u8 bs → 0 <= le_value bs < 256 ^ Z.of_nat (length bs).
Proof.
  induction 1 as [|b bs Hb _ IH]; [done|]. cbn [le_value length].
  rewrite Nat2Z.inj_succ, Z.pow_succ_r by lia. unfold is_u8 in Hb. lia.
Qed.

Lemma le_value_split n z : 0 <= z < 256 ^ Z.of_nat n → le_value (le_split n z) = z.
Proof.
  revert z; induction n as [|n IH]; intros z Hz; cbn [le_split le_value].
  { change (256 ^ Z.of_nat 0) with 1 in Hz. lia. }
  rewrite Nat2Z.inj_succ, Z.pow_succ_r in Hz by lia.
  rewrite IH; [pose proof (Z.div_mod z 256); lia|].
  split; [apply Z.div_pos; lia|apply Z.div_lt_upper_bound; lia].
Qed.

Lemma le_split_u8 n z : Forall is_u8 (le_split n z).
Proof.
  revert z; induction n; intros z; cbn; constructor; [|done].
  unfold is_u8. apply Z.mod_pos_bound. lia.
Qed.

(** ** Text

    [absl::StrFormat]'s conversions, as far as the program uses them. *)

Definition fmt_d (x : Z) : string := pretty x.                     (* %d *)
Definition fmt_plus_d (x : Z) : string :=                          (* %+d *)
  if 0 <=? x then "+" +:+ pretty x else pretty x.

Definition hex_digit (d : Z) : Ascii.ascii :=
  Ascii.ascii_of_N (Z.to_N (if d <? 10 then 48 + d else 87 + d)).

Fixpoint hex_go (fuel : nat) (x : Z) (acc : string) : string :=
  match fuel with
  | O => acc
  | S fuel =>
      let acc := String (hex_digit (x mod 16)) acc in
      if x / 16 =? 0 then acc else hex_go fuel (x / 16) acc
  end.

(** [%x] of an unsigned 64-bit value: at most sixteen digits. *)
Definition fmt_x (x : Z) : string := hex_go 16 x "".

Fixpoint zeros (n : nat) : string :=
  match n with O => "" | S n => "0" +:+ zeros n end.

(** [%0<w>x]. *)
Definition fmt_0x (w : nat) (x : Z) : string :=
  let s := fmt_x x in zeros (w - String.length s) +:+ s.

Definition fmt_c (b : Z) : string := String (Ascii.ascii_of_N (Z.to_N b)) "".

(** [static_cast<int>] before printing. *)
Definition fmt_plus_int (x : Z) : string := fmt_plus_d (s32 x).
