(* ===== verification/CfiTable.v ===== *)
(** * The declared side: CFI rules, rows and tables

    Models [src/cfi-table.h] and the lookups of [src/cfi-table.cc]: the CFA
    rule, the register rules, one row of an FDE's unwind table, the decoded
    FDE itself and [CFI::RowAt], the binary search that finds the row in
    force at a PC.  (The visitor that fills a table is in [TableBuilder].) *)

From S2P Require Import Prelude.

(** ** Register numbers *)

Definition kNumGPRs : Z := 16.
Definition kDWARFRip : Z := 16.
Definition kNumDWARFRegs : Z := 17.

Definition kDWARFRax : Z := 0.
Definition kDWARFRdx : Z := 1.
Definition kDWARFRcx : Z := 2.
Definition kDWARFRbx : Z := 3.
Definition kDWARFRsi : Z := 4.
Definition kDWARFRdi : Z := 5.
Definition kDWARFRbp : Z := 6.
Definition kDWARFRsp : Z := 7.

Definition kRegNames : list string :=
  ["rax"; "rdx"; "rcx"; "rbx"; "rsi"; "rdi"; "rbp"; "rsp"; "r8";
   "r9"; "r10"; "r11"; "r12"; "r13"; "r14"; "r15"; "ra"].

Definition DWARFRegName (reg : Z) : string :=
  if (reg <? 0) || (kNumDWARFRegs <=? reg) then "r{" +:+ fmt_d reg +:+ "}"
  else default "" (kRegNames !! Z.to_nat reg).

(** ** Rules *)

Inductive CFAKind := CFA_Undefined | CFA_RegOffset | CFA_Expression.
#[export] Instance CFAKind_eq_dec : EqDecision CFAKind.
Proof. solve_decision. Defined.

(** The three fields are independent in the source (a handler may change
    [kind] and [reg] and leave [offset] alone), so this is a record. *)
Record CFARule := mkCFA { cfa_kind : CFAKind; cfa_reg : Z; cfa_offset : Z }.
#[export] Instance CFARule_eq_dec : EqDecision CFARule.
Proof. solve_decision. Defined.

Definition CFARule_default : CFARule := mkCFA CFA_Undefined 0 0.
Definition CFARule_RegOffset (reg offset : Z) : CFARule := mkCFA CFA_RegOffset reg offset.

Definition CFARule_str (r : CFARule) : string :=
  match cfa_kind r with
  | CFA_Undefined => "<no CFA rule>"
  | CFA_RegOffset => DWARFRegName (cfa_reg r) +:+ fmt_plus_int (cfa_offset r)
  | CFA_Expression => "<DWARF expression>"
  end.

Inductive RegRule :=
  | RR_Unset
  | RR_Undefined
  | RR_SameValue
  | RR_AtCFAOffset (offset : Z)
  | RR_ValOffset (offset : Z)
  | RR_InRegister (reg : Z)
  | RR_Expression
  | RR_ValExpression.
#[export] Instance RegRule_eq_dec : EqDecision RegRule.
Proof. solve_decision. Defined.

Definition RegRule_str (r : RegRule) : string :=
  match r with
  | RR_Unset => "<no rule>"
  | RR_Undefined => "undefined"
  | RR_SameValue => "same_value"
  | RR_AtCFAOffset o => "[CFA" +:+ fmt_plus_int o +:+ "]"
  | RR_ValOffset o => "CFA" +:+ fmt_plus_int o
  | RR_InRegister g => "in " +:+ DWARFRegName g
  | RR_Expression => "<DWARF expression>"
  | RR_ValExpression => "<DWARF val expression>"
  end.

(** ** Rows *)

Record CFIRow := mkRow {
  pc_start : Z;
  row_cfa : CFARule;
  row_regs : list RegRule   (* indexed by DWARF register, 17 entries *)
}.
#[export] Instance CFIRow_eq_dec : EqDecision CFIRow.
Proof. solve_decision. Defined.

Definition no_rules : list RegRule := replicate 17 RR_Unset.

(** [row.regs[r]] for [0 <= r < 17]. *)
Definition row_reg (row : CFIRow) (r : Z) : RegRule :=
  default RR_Unset (row_regs row !! Z.to_nat r).

(** The register indices [0 .. n-1] a C++ [for] loop runs over. *)
Definition range0 (n : Z) : list Z := seqZ 0 n.

Definition IsCanonicalEntry (row : CFIRow) : bool :=
  bool_decide (cfa_kind (row_cfa row) = CFA_RegOffset) &&
  (cfa_reg (row_cfa row) =? kDWARFRsp) && (cfa_offset (row_cfa row) =? 8) &&
  match row_reg row kDWARFRip with
  | RR_AtCFAOffset o => o =? -8
  | _ => false
  end.

Definition CFIRow_str (row : CFIRow) : string :=
  "cfa=" +:+ CFARule_str (row_cfa row) +:+
  String.concat "" (map (fun r =>
    match row_reg row r with
    | RR_Unset => ""
    | rule => " " +:+ DWARFRegName r +:+ "=" +:+ RegRule_str rule
    end) (range0 kNumDWARFRegs)).

(** ** One decoded FDE *)

Record CFI := mkCFI {
  fde_addr : Z;
  pc_begin : Z;
  pc_end : Z;
  return_reg : Z;
  signal_frame : bool;
  lsda_addr : Z;
  has_exotic_regs : bool;
  rows : list CFIRow
}.

(** The comparator of [RowAt]'s [c_upper_bound]. *)
Definition starts_after (pc : Z) (row : CFIRow) : bool := pc <? pc_start row.

(** [CFI::RowAt]: the source returns a pointer into [rows]; the model returns
    the index, so that pointer equality is equality of indices. *)
Definition RowAt (c : CFI) (pc : Z) : option nat :=
  if (pc <? pc_begin c) || (pc_end c <=? pc) || bool_decide (rows c = []) then None
  else
    match partition_point (starts_after pc) (rows c) with
    | O => None
    | S i => Some i
    end.

Definition row_at (c : CFI) (pc : Z) : option CFIRow :=
  i ← RowAt c pc; rows c !! i.

(** ** Well-formed rows

    The ranges of the C++ field types ([int64_t] offsets, [uint8_t] register
    numbers), and the 17 entries of [regs]. *)

Definition rule_ok (r : RegRule) : Prop :=
  match r with
  | RR_AtCFAOffset o | RR_ValOffset o => is_s64 o
  | RR_InRegister g => is_u8 g
  | _ => True
  end.
Definition rules_shape (l : list RegRule) : Prop := length l = 17%nat ∧ Forall rule_ok l.
Definition cfa_shape (c : CFARule) : Prop := is_u8 (cfa_reg c) ∧ is_s64 (cfa_offset c).
Definition row_shape (r : CFIRow) : Prop := rules_shape (row_regs r) ∧ cfa_shape (row_cfa r).

(** ** Well-formed tables

    What [cfi-table.h] says of [rows]: sorted by [pc_start], the first row
    starting at [pc_begin]. *)

Record wf_cfi (c : CFI) : Prop := {
  wf_first : ∃ r0, rows c !! 0%nat = Some r0 ∧ pc_start r0 = pc_begin c;
  wf_sorted : ∀ i j a b, (i < j)%nat →
    rows c !! i = Some a → rows c !! j = Some b → pc_start a < pc_start b
}.

Section RowAt.
Context (c : CFI).

Lemma RowAt_in_range pc i : RowAt c pc = Some i → pc_begin c <= pc < pc_end c.
Proof. unfold RowAt. repeat split_match; try done. intros _. rewrite !orb_false_iff in *. lia. Qed.

Lemma RowAt_lookup pc i : RowAt c pc = Some i → is_Some (rows c !! i).
Proof.
  unfold RowAt. repeat split_match; try done. intros [= <-].
  apply lookup_lt_is_Some.
  pose proof (partition_point_boundary (starts_after pc) (rows c)). lia.
Qed.

(** Even when the rows are out of order, a table whose first row does not
    start after [pc] answers every lookup inside the FDE's range. *)
Lemma RowAt_total pc r0 :
  rows c !! 0%nat = Some r0 → pc_start r0 <= pc →
  pc_begin c <= pc < pc_end c → is_Some (RowAt c pc).
Proof.
  intros H0 Hle Hr. unfold RowAt.
  rewrite (proj2 (Z.ltb_ge _ _)) by lia. rewrite (proj2 (Z.leb_gt _ _)) by lia. cbn.
  rewrite bool_decide_eq_false_2 by (intros E; by rewrite E in H0).
  destruct (partition_point _ _) as [|i] eqn:E; [|done].
  destruct (partition_point_boundary (starts_after pc) (rows c)) as (_ & _ & Hb).
  rewrite E in Hb. unfold probe, starts_after in Hb. rewrite H0 in Hb.
  apply lookup_lt_Some in H0. destruct Hb as [Hb|Hb]; lia.
Qed.

Lemma RowAt_wf_spec pc i row :
  wf_cfi c → rows c !! i = Some row → pc_begin c <= pc < pc_end c →
  RowAt c pc = Some i ↔
    pc_start row <= pc ∧ (∀ row', rows c !! S i = Some row' → pc < pc_start row').
Proof.
  intros Hwf Hi Hr.
  assert (∀ i x, rows c !! i = Some x → starts_after pc x =
    bool_decide (partition_point (starts_after pc) (rows c) ≤ i)%nat) as Hpp.
  { apply partition_point_spec. intros i1 j1 x y Hij Hx Hy.
    destruct (decide (i1 = j1)) as [->|]; [by simplify_eq|].
    assert (pc_start x < pc_start y) by (eapply (wf_sorted _ Hwf i1 j1); eauto; lia).
    unfold starts_after. rewrite !Is_true_true. lia. }
  destruct (RowAt c pc) as [k|] eqn:E.
  2:{ destruct (wf_first _ Hwf) as (r0 & H0 & Hb).
      destruct (RowAt_total pc r0) as [? ?]; [done|lia|lia|congruence]. }
  assert (partition_point (starts_after pc) (rows c) = S k) as Hk.
  { revert E. unfold RowAt. repeat split_match; try done. intros [= <-]. done. }
  rewrite Hk in Hpp. unfold starts_after in Hpp. pose proof (Hpp _ _ Hi) as Hpi. split.
  - intros [= ->]. split.
    + rewrite bool_decide_eq_false_2 in Hpi by lia. lia.
    + intros row' Hr'. specialize (Hpp _ _ Hr').
      rewrite bool_decide_eq_true_2 in Hpp by lia. lia.
  - intros [H1 H2]. f_equal.
    assert (¬ S k ≤ i)%nat as Hn.
    { rewrite <-bool_decide_eq_false, <-Hpi. lia. }
    destruct (decide (i = k)) as [|Hne]; [done|].
    destruct (rows c !! S i) as [row'|] eqn:E'.
    + specialize (H2 _ eq_refl). specialize (Hpp _ _ E').
      assert (S k ≤ S i)%nat; [|lia]. rewrite <-bool_decide_eq_true, <-Hpp. lia.
    + apply lookup_ge_None in E'. destruct (RowAt_lookup _ _ E) as [? Hx].
      apply lookup_lt_Some in Hx. lia.
Qed.
End RowAt.
