(* ===== verification/EhFrame.v ===== *)
(** * The .eh_frame reader

    Models [src/eh-frame-reader.h] (the [Decoder] template: byte slices,
    LEB128, encoded pointers, CIE/FDE headers, the CFI opcode stream, the
    [.eh_frame_hdr] binary search) and [src/eh-frame-reader.cc]
    ([EnumerateFDEs]).  The constants are those of [src/dwarf-constants.h].

    The decoder works on live pointers.  A [slice] is a pointer together
    with the bytes it may read; the memory behind the pointers is the
    argument [mem] of [MakeSlice].  The visitor [V] of the template is the
    type class [UnwindVisitor]; a handler returns its [bool] and the new
    visitor, or throws. *)

From S2P Require Import Prelude.

(** ** Constants ([dwarf-constants.h]) *)

Definition DW_EH_PE_absptr : Z := 0x00.
Definition DW_EH_PE_omitted : Z := 0xff.
Definition DW_EH_PE_uleb128 : Z := 0x01.
Definition DW_EH_PE_udata2 : Z := 0x02.
Definition DW_EH_PE_udata4 : Z := 0x03.
Definition DW_EH_PE_udata8 : Z := 0x04.
Definition DW_EH_PE_sdata4 : Z := 0x0B.
Definition DW_EH_PE_sdata8 : Z := 0x0C.
Definition DW_EH_PE_pcrel : Z := 0x10.
Definition DW_EH_PE_datarel : Z := 0x30.

Definition DW_CFA_advance_loc : Z := 0x40.
Definition DW_CFA_offset : Z := 0x80.
Definition DW_CFA_restore : Z := 0xC0.
Definition DW_CFA_nop : Z := 0.
Definition DW_CFA_set_loc : Z := 0x01.
Definition DW_CFA_advance_loc1 : Z := 0x02.
Definition DW_CFA_advance_loc2 : Z := 0x03.
Definition DW_CFA_advance_loc4 : Z := 0x04.
Definition DW_CFA_offset_extended : Z := 0x05.
Definition DW_CFA_restore_extended : Z := 0x06.
Definition DW_CFA_undefined : Z := 0x07.
Definition DW_CFA_same_value : Z := 0x08.
Definition DW_CFA_register : Z := 0x09.
Definition DW_CFA_remember_state : Z := 0x0a.
Definition DW_CFA_restore_state : Z := 0x0b.
Definition DW_CFA_def_cfa : Z := 0x0c.
Definition DW_CFA_def_cfa_register : Z := 0x0d.
Definition DW_CFA_def_cfa_offset : Z := 0x0e.
Definition DW_CFA_def_cfa_expression : Z := 0x0f.
Definition DW_CFA_expression : Z := 0x10.
Definition DW_CFA_offset_extended_sf : Z := 0x11.
Definition DW_CFA_def_cfa_sf : Z := 0x12.
Definition DW_CFA_def_cfa_offset_sf : Z := 0x13.
Definition DW_CFA_val_offset : Z := 0x14.
Definition DW_CFA_val_offset_sf : Z := 0x15.
Definition DW_CFA_val_expression : Z := 0x16.
Definition DW_CFA_AARCH64_negate_ra_state : Z := 0x2d.
Definition DW_CFA_GNU_args_size : Z := 0x2e.

(** ** Byte slices *)

Record slice := mkSlice { sl_addr : Z; sl_bytes : list Z }.

Definition subspan (n : nat) (s : slice) : slice :=
  mkSlice (sl_addr s + Z.of_nat n) (drop n (sl_bytes s)).

Definition truncated {A} : res A := fail "eh_frame read error: truncated data".

(** [ReadObject<T>] for an unsigned [T] of [n] bytes. *)
Definition ReadObject (n : nat) (s : slice) : res (Z * slice) :=
  if bool_decide (length (sl_bytes s) < n)%nat then truncated
  else mret (le_value (take n (sl_bytes s)), subspan n s).

(** [ReadSubslice<uint8_t>]: alignment 1, so only the size is checked. *)
Definition ReadSubslice (n : Z) (s : slice) : res (slice * slice) :=
  if Z.of_nat (length (sl_bytes s)) <? n then truncated
  else mret (mkSlice (sl_addr s) (take (Z.to_nat n) (sl_bytes s)), subspan (Z.to_nat n) s).

Definition TruncateSlice (s : slice) (size : Z) : res slice :=
  if Z.of_nat (length (sl_bytes s)) <? size then
    fail "eh_frame read error: truncated data in TruncateSlice"
  else mret (mkSlice (sl_addr s) (take (Z.to_nat size) (sl_bytes s))).

(** ** LEB128 *)

Definition uleb_overflow {A} : res A := fail "eh_frame read error: uleb128 overflow".
Definition sleb_overflow {A} : res A := fail "eh_frame read error: sleb128 overflow".

Fixpoint uleb_loop (bs : list Z) (addr shift result : Z) : res (Z * slice) :=
  if 64 <=? shift then uleb_overflow
  else match bs with
  | [] => truncated
  | byte :: bs =>
      if (64 - 7 <? shift) && negb (Z.shiftr (Z.land byte 0x7f) (64 - shift) =? 0) then
        uleb_overflow
      else
        let result := Z.lor result (u64 (Z.shiftl (Z.land byte 0x7f) shift)) in
        if Z.land byte 0x80 =? 0 then mret (result, mkSlice (addr + 1) bs)
        else uleb_loop bs (addr + 1) (shift + 7) result
  end.

Definition ReadUleb128 (s : slice) : res (Z * slice) :=
  uleb_loop (sl_bytes s) (sl_addr s) 0 0.

Definition sleb_bad_tail (byte shift : Z) : bool :=
  let payload := Z.land byte 0x7f in
  let sign_bit := Z.land (Z.shiftr payload (64 - shift - 1)) 1 in
  let extra_bits := Z.shiftr payload (64 - shift) in
  let expected_extra := if sign_bit =? 0 then 0 else u8 (Z.shiftl 1 (7 - (64 - shift)) - 1) in
  negb (extra_bits =? expected_extra).

Fixpoint sleb_loop (bs : list Z) (addr shift result : Z) : res (Z * slice) :=
  if 64 <=? shift then sleb_overflow
  else match bs with
  | [] => truncated
  | byte :: bs =>
      if (64 - 7 <? shift) && sleb_bad_tail byte shift then sleb_overflow
      else
        let result := Z.lor result (u64 (Z.shiftl (Z.land byte 0x7f) shift)) in
        let shift := shift + 7 in
        if Z.land byte 0x80 =? 0 then
          let result :=
            if (shift <? 64) && negb (Z.land byte 0x40 =? 0)
            then Z.lor result (u64 (Z.shiftl (u64 (-1)) shift)) else result in
          mret (s64 result, mkSlice (addr + 1) bs)
        else sleb_loop bs (addr + 1) shift result
  end.

Definition ReadSleb128 (s : slice) : res (Z * slice) :=
  sleb_loop (sl_bytes s) (sl_addr s) 0 0.

(** ** Encoded pointers and strings *)

Definition bad_encoding {A} (encoding : Z) : res A :=
  fail ("eh_frame read error: reading unsupported pointer format: 0x" +:+ fmt_0x 2 encoding).

Definition ReadEncodedPtr (s : slice) (encoding : Z) : res (Z * slice) :=
  let lo := Z.land encoding 0x0f in
  let hi := Z.land encoding 0xf0 in
  if negb (hi =? DW_EH_PE_pcrel) && negb (hi =? 0) then bad_encoding encoding
  else
    let pcrel_base := if hi =? DW_EH_PE_pcrel then sl_addr s else 0 in
    if lo =? DW_EH_PE_sdata4 then
      '(v, s) ← ReadObject 4 s; mret (u64 (pcrel_base + s32 v), s)
    else if lo =? DW_EH_PE_udata4 then
      '(v, s) ← ReadObject 4 s; mret (u64 (pcrel_base + v), s)
    else if (lo =? DW_EH_PE_udata8) || (lo =? DW_EH_PE_sdata8) || (lo =? DW_EH_PE_absptr) then
      '(v, s) ← ReadObject 8 s; mret (u64 (pcrel_base + v), s)
    else bad_encoding encoding.

(** [memchr(start, 0, n)]: the bytes before the first NUL of the first [n]. *)
Fixpoint memchr0 (n : nat) (bs : list Z) : option (list Z) :=
  match n, bs with
  | S n, b :: bs => if b =? 0 then Some [] else cons b <$> memchr0 n bs
  | _, _ => None
  end.

Definition ReadASCIIZ (s : slice) (max_size : nat) : res (list Z * slice) :=
  match memchr0 (max_size `min` length (sl_bytes s)) (sl_bytes s) with
  | None => fail "eh_frame read error: truncated data while reading asciiz string"
  | Some str => mret (str, subspan (length str + 1) s)
  end.

(** ** The visitor interface ([struct UnwindVisitor]) *)

Class UnwindVisitor (V : Type) := {
  StartFDE : Z → Z → Z → V → res (bool * V);   (* return_reg pc_start pc_end *)
  HandleAugS : V → res (bool * V);
  AfterCIE : V → res (bool * V);
  HandleLSDA : Z → V → res (bool * V);
  HandleSetLoc : Z → V → res (bool * V);
  HandleDefCFA : Z → Z → V → res (bool * V);
  HandleDefCFAReg : Z → V → res (bool * V);
  HandleDefCFAOffset : Z → V → res (bool * V);
  HandleDefCFAExpression : list Z → V → res (bool * V);
  HandleOffset : Z → Z → V → res (bool * V);
  HandleRegister : Z → Z → V → res (bool * V);
  HandleRestore : Z → V → res (bool * V);
  HandleSameValue : Z → V → res (bool * V);
  HandleUndefined : Z → V → res (bool * V);
  HandleValOffset : Z → Z → V → res (bool * V);
  HandleExpression : Z → list Z → V → res (bool * V);
  HandleValExpression : Z → list Z → V → res (bool * V);
  HandleRememberState : V → res (bool * V);
  HandleRestoreState : V → res (bool * V)
}.

Record EHReaderInputs := mkInputs {
  lookup_pc : Z;
  eh_frame_hdr : Z;
  in_eh_frame_start : Z;
  in_eh_frame_end : Z
}.

Record EHReaderState := mkState {
  current_loc : Z;
  function_end : Z;
  code_align : Z;
  data_align : Z;
  fde_ptr_enc : Z
}.

Definition set_current_loc (loc : Z) (st : EHReaderState) : EHReaderState :=
  mkState loc (function_end st) (code_align st) (data_align st) (fde_ptr_enc st).

Definition MakeSlice (mem : Z → Z) (inp : EHReaderInputs) (start_addr : Z) : res slice :=
  if negb ((in_eh_frame_start inp <=? start_addr) && (start_addr <=? in_eh_frame_end inp)) then
    fail ("out of bounds address 0x" +:+ fmt_0x 16 start_addr +:+ " vs (0x" +:+
          fmt_0x 16 (in_eh_frame_start inp) +:+ ", 0x" +:+ fmt_0x 16 (in_eh_frame_end inp) +:+ ")")
  else mret (mkSlice start_addr (mem <$> seqZ start_addr (in_eh_frame_end inp - start_addr))).

(** ** The CFI opcode stream *)

Section Decoder.
Context {V : Type} `{UnwindVisitor V}.

(** What one opcode leaves behind: whether to go on, the rest of the
    stream, the reader's state and the visitor. *)
Definition outcome : Type := bool * slice * EHReaderState * V.

Definition DoSetLoc (new_loc : Z) (is_cie : bool) (st : EHReaderState) (v : V) :
    res (bool * EHReaderState * V) :=
  if is_cie then fail "CIE initial instruction cannot advance"
  else '(b, v) ← HandleSetLoc new_loc v; mret (b, set_current_loc new_loc st, v).

(** [current_loc + uintptr_t{delta} * code_align()]. *)
Definition advanced (st : EHReaderState) (delta : Z) : Z :=
  u64 (current_loc st + delta * code_align st).

(** A signed operand times the data alignment factor, passed as [uintptr_t]. *)
Definition scaled (st : EHReaderState) (offset : Z) : Z := u64 (offset * data_align st).

Definition locate (new_loc : Z) (is_cie : bool) (s : slice) (st : EHReaderState) (v : V) :
    res outcome :=
  '(b, st, v) ← DoSetLoc new_loc is_cie st v; mret (b, s, st, v).

Definition visit (r : res (bool * V)) (s : slice) (st : EHReaderState) : res outcome :=
  '(b, v) ← r; mret (b, s, st, v).

(** The three opcodes that carry an operand in their low six bits. *)
Definition run_primary (opcode : Z) (is_cie : bool) (s : slice) (st : EHReaderState) (v : V) :
    option (res outcome) :=
  let operand := Z.land opcode 0x3f in
  let hi := Z.land opcode 0xc0 in
  if hi =? DW_CFA_advance_loc then Some (locate (advanced st operand) is_cie s st v)
  else if hi =? DW_CFA_offset then
    Some ('(offset, s) ← ReadUleb128 s;
          visit (HandleOffset operand (scaled st (s64 offset)) v) s st)
  else if hi =? DW_CFA_restore then Some (visit (HandleRestore operand v) s st)
  else None.

(** [DW_CFA_nop], [DW_CFA_set_loc] and the [advance_loc]s. *)
Definition run_loc (opcode : Z) (is_cie : bool) (s : slice) (st : EHReaderState) (v : V) :
    option (res outcome) :=
  if opcode =? DW_CFA_nop then Some (mret (true, s, st, v))
  else if opcode =? DW_CFA_set_loc then
    Some ('(new_loc, s) ← ReadEncodedPtr s (fde_ptr_enc st);
          if new_loc <? current_loc st then fail "set_loc backward move"
          else locate new_loc is_cie s st v)
  else if opcode =? DW_CFA_advance_loc1 then
    Some ('(d, s) ← ReadObject 1 s; locate (advanced st d) is_cie s st v)
  else if opcode =? DW_CFA_advance_loc2 then
    Some ('(d, s) ← ReadObject 2 s; locate (advanced st d) is_cie s st v)
  else if opcode =? DW_CFA_advance_loc4 then
    Some ('(d, s) ← ReadObject 4 s; locate (advanced st d) is_cie s st v)
  else None.

(** [offset_extended]{,[_sf]} and [restore_extended]. *)
Definition run_saved (opcode : Z) (s : slice) (st : EHReaderState) (v : V) :
    option (res outcome) :=
  if opcode =? DW_CFA_offset_extended then
    Some ('(reg, s) ← ReadUleb128 s; '(offset, s) ← ReadUleb128 s;
          visit (HandleOffset reg (scaled st (s64 offset)) v) s st)
  else if opcode =? DW_CFA_offset_extended_sf then
    Some ('(reg, s) ← ReadUleb128 s; '(offset, s) ← ReadSleb128 s;
          visit (HandleOffset reg (scaled st offset) v) s st)
  else if opcode =? DW_CFA_restore_extended then
    Some ('(reg, s) ← ReadUleb128 s; visit (HandleRestore reg v) s st)
  else None.

(** The CFA definitions.  [def_cfa] and [def_cfa_offset] are not scaled. *)
Definition run_def_cfa (opcode : Z) (s : slice) (st : EHReaderState) (v : V) :
    option (res outcome) :=
  if opcode =? DW_CFA_def_cfa then
    Some ('(reg, s) ← ReadUleb128 s; '(offset, s) ← ReadUleb128 s;
          visit (HandleDefCFA reg offset v) s st)
  else if opcode =? DW_CFA_def_cfa_sf then
    Some ('(reg, s) ← ReadUleb128 s; '(offset, s) ← ReadSleb128 s;
          visit (HandleDefCFA reg (scaled st offset) v) s st)
  else if opcode =? DW_CFA_def_cfa_register then
    Some ('(reg, s) ← ReadUleb128 s; visit (HandleDefCFAReg reg v) s st)
  else if opcode =? DW_CFA_def_cfa_offset then
    Some ('(offset, s) ← ReadUleb128 s; visit (HandleDefCFAOffset offset v) s st)
  else if opcode =? DW_CFA_def_cfa_offset_sf then
    Some ('(offset, s) ← ReadSleb128 s; visit (HandleDefCFAOffset (scaled st offset) v) s st)
  else if opcode =? DW_CFA_def_cfa_expression then
    Some ('(len, s) ← ReadUleb128 s; '(expr, s) ← ReadSubslice len s;
          visit (HandleDefCFAExpression (sl_bytes expr) v) s st)
  else None.

(** The remaining register rules, [remember]/[restore_state] and the
    opcodes that are read and ignored. *)
Definition run_rule (opcode : Z) (s : slice) (st : EHReaderState) (v : V) :
    option (res outcome) :=
  if opcode =? DW_CFA_expression then
    Some ('(reg, s) ← ReadUleb128 s; '(len, s) ← ReadUleb128 s;
          '(expr, s) ← ReadSubslice len s;
          visit (HandleExpression reg (sl_bytes expr) v) s st)
  else if opcode =? DW_CFA_val_expression then
    Some ('(reg, s) ← ReadUleb128 s; '(len, s) ← ReadUleb128 s;
          '(expr, s) ← ReadSubslice len s;
          visit (HandleValExpression reg (sl_bytes expr) v) s st)
  else if opcode =? DW_CFA_undefined then
    Some ('(reg, s) ← ReadUleb128 s; visit (HandleUndefined reg v) s st)
  else if opcode =? DW_CFA_same_value then
    Some ('(reg, s) ← ReadUleb128 s; visit (HandleSameValue reg v) s st)
  else if opcode =? DW_CFA_register then
    Some ('(reg1, s) ← ReadUleb128 s; '(reg2, s) ← ReadUleb128 s;
          visit (HandleRegister reg1 reg2 v) s st)
  else if opcode =? DW_CFA_remember_state then Some (visit (HandleRememberState v) s st)
  else if opcode =? DW_CFA_restore_state then Some (visit (HandleRestoreState v) s st)
  else if opcode =? DW_CFA_val_offset then
    Some ('(reg, s) ← ReadUleb128 s; '(offset, s) ← ReadUleb128 s;
          visit (HandleValOffset reg (scaled st (s64 offset)) v) s st)
  else if opcode =? DW_CFA_val_offset_sf then
    Some ('(reg, s) ← ReadUleb128 s; '(offset, s) ← ReadSleb128 s;
          visit (HandleValOffset reg (scaled st offset) v) s st)
  else if opcode =? DW_CFA_AARCH64_negate_ra_state then Some (mret (true, s, st, v))
  else if opcode =? DW_CFA_GNU_args_size then
    Some ('(_, s) ← ReadUleb128 s; mret (true, s, st, v))
  else None.

Definition first_some {A} (a b : option A) : option A :=
  match a with Some x => Some x | None => b end.

(** One turn of [RunInstructions]' loop. *)
Definition run_opcode (is_cie : bool) (s : slice) (st : EHReaderState) (v : V) : res outcome :=
  '(opcode, s) ← ReadObject 1 s;
  match first_some (run_primary opcode is_cie s st v)
       (first_some (run_loc opcode is_cie s st v)
       (first_some (run_saved opcode s st v)
       (first_some (run_def_cfa opcode s st v)
                   (run_rule opcode s st v)))) with
  | Some r => r
  | None => fail ("unknown opcode: 0x" +:+ fmt_x opcode)
  end.

Fixpoint run_loop (fuel : nat) (is_cie : bool) (s : slice) (st : EHReaderState) (v : V) :
    res (bool * EHReaderState * V) :=
  if bool_decide (sl_bytes s = []) then
    if is_cie then mret (true, st, v) else DoSetLoc (function_end st) false st v
  else match fuel with
  | O => Throw OutOfFuel
  | S fuel =>
      '(go, s, st, v) ← run_opcode is_cie s st v;
      if (go : bool) then run_loop fuel is_cie s st v else mret (false, st, v)
  end.

(** Every turn consumes at least one byte, so the stream's length is fuel
    enough ([run_loop_no_fuel] below). *)
Definition RunInstructions (s : slice) (is_cie : bool) (st : EHReaderState) (v : V) :
    res (bool * EHReaderState * V) :=
  run_loop (length (sl_bytes s)) is_cie s st v.

(** ** CIE and FDE headers *)

Record cie_info := mkCie {
  cie_rest : slice;          (* the CIE's initial instructions, after the aug data *)
  cie_aug_str : list Z;
  cie_code_align : Z;
  cie_data_align : Z;
  cie_return_reg : Z
}.

(** The fixed part of a CIE, up to the return address register. *)
Definition ParseCIE (cie : slice) : res cie_info :=
  '(cie_len, cie) ← ReadObject 4 cie;
  if cie_len =? 0xffffffff then fail "64-bit DWARF length in CIE is not supported"
  else
    cie ← TruncateSlice cie cie_len;
    '(cie_id, cie) ← ReadObject 4 cie;
    if negb (cie_id =? 0) then fail ("Wrong cie_id field: " +:+ fmt_x cie_id)
    else
      '(version, cie) ← ReadObject 1 cie;
      if negb (version =? 1) then fail ("unsupported CIE version: " +:+ fmt_d version)
      else
        '(aug_str, cie) ← ReadASCIIZ cie 16;
        '(code_align, cie) ← ReadUleb128 cie;
        '(data_align, cie) ← ReadSleb128 cie;
        if code_align =? 0 then fail "zero code alignment factor in CIE"
        else
          '(return_reg, cie) ← ReadObject 1 cie;
          mret (mkCie cie aug_str code_align data_align return_reg).

(** The walk over the augmentation string after its leading ['z']:
    [inl] carries (fde_ptr_enc, lsda_ptr_enc, visitor), [inr] is the early
    return after a visitor said stop. *)
Fixpoint aug_loop (chars : list Z) (aug_data : slice) (fde_enc lsda_enc : Z) (v : V) :
    res ((Z * Z * V) + V) :=
  match chars with
  | [] => mret (inl (fde_enc, lsda_enc, v))
  | ch :: chars =>
      if ch =? 82 (* 'R' *) then
        '(fde_enc, _) ← ReadObject 1 aug_data; mret (inl (fde_enc, lsda_enc, v))
      else if ch =? 76 (* 'L' *) then
        '(lsda_enc, aug_data) ← ReadObject 1 aug_data;
        aug_loop chars aug_data fde_enc lsda_enc v
      else if ch =? 83 (* 'S' *) then
        '(b, v) ← HandleAugS v;
        if (b : bool) then aug_loop chars aug_data fde_enc lsda_enc v else mret (inr v)
      else if ch =? 66 (* 'B' *) then aug_loop chars aug_data fde_enc lsda_enc v
      else if ch =? 80 (* 'P' *) then
        '(enc, aug_data) ← ReadObject 1 aug_data;
        '(_, aug_data) ← ReadEncodedPtr aug_data (Z.land enc 0x7f);
        aug_loop chars aug_data fde_enc lsda_enc v
      else fail ("Unknown aug string character: " +:+ fmt_c ch +:+ " (0x" +:+ fmt_0x 2 ch +:+ ")")
  end.

(** The optional augmentation section of the CIE. *)
Definition ParseAug (aug_str : list Z) (cie : slice) (v : V) :
    res ((Z * Z * V * slice) + V) :=
  match aug_str with
  | [] => mret (inl (DW_EH_PE_absptr, DW_EH_PE_omitted, v, cie))
  | z :: chars =>
      if negb (z =? 122 (* 'z' *)) then
        fail ("Aug string without leading 'z'. Got: " +:+ fmt_c z)
      else
        '(aug_len, cie) ← ReadUleb128 cie;
        '(aug_data, cie) ← ReadSubslice aug_len cie;
        r ← aug_loop chars aug_data DW_EH_PE_absptr DW_EH_PE_omitted v;
        match r with
        | inl (fde_enc, lsda_enc, v) => mret (inl (fde_enc, lsda_enc, v, cie))
        | inr v => mret (inr v)
        end
  end.

(** The FDE's own augmentation data: the LSDA pointer, if any. *)
Definition ParseFDEAug (aug_str : list Z) (lsda_enc : Z) (fde : slice) (v : V) :
    res (bool * slice * V) :=
  if bool_decide (head aug_str = Some 122 (* 'z' *)) then
    '(aug_len, fde) ← ReadUleb128 fde;
    '(fde_aug, fde) ← ReadSubslice aug_len fde;
    if negb (lsda_enc =? DW_EH_PE_omitted) then
      '(lsda_ptr, _) ← ReadEncodedPtr fde_aug lsda_enc;
      '(b, v) ← HandleLSDA lsda_ptr v;
      mret (b, fde, v)
    else mret (true, fde, v)
  else mret (true, fde, v).

(** From the PC range on: StartFDE, the CIE's instructions, the FDE's
    augmentation, AfterCIE, the FDE's instructions. *)
Definition DecodeBody (inp : EHReaderInputs) (match_all : bool) (ci : cie_info)
    (fde_enc lsda_enc : Z) (cie fde : slice) (v : V) : res V :=
  '(pc_start, fde) ← ReadEncodedPtr fde fde_enc;
  '(pc_range, fde) ← ReadEncodedPtr fde (Z.land fde_enc 0x0f);
  let pc_end := u64 (pc_start + pc_range) in
  if negb match_all && negb ((pc_start <=? lookup_pc inp) && (lookup_pc inp <? pc_end)) then
    mret v
  else
    let st := mkState pc_start pc_end (cie_code_align ci) (cie_data_align ci) fde_enc in
    '(b, v) ← StartFDE (cie_return_reg ci) pc_start pc_end v;
    if negb b then mret v else
    '(b, st, v) ← RunInstructions cie true st v;
    if negb b then mret v else
    '(b, fde, v) ← ParseFDEAug (cie_aug_str ci) lsda_enc fde v;
    if negb b then mret v else
    '(b, v) ← AfterCIE v;
    if negb b then mret v else
    '(_, _, v) ← RunInstructions fde false st v;
    mret v.

Definition ParseFDE (mem : Z → Z) (inp : EHReaderInputs) (match_all : bool)
    (raw_fde_ptr : Z) (v : V) : res V :=
  fde ← MakeSlice mem inp raw_fde_ptr;
  '(len, fde) ← ReadObject 4 fde;
  if len =? 0xffffffff then fail "64-bit DWARF length in FDE is not supported"
  else if len =? 0 then fail "empty FDE"
  else
    fde ← TruncateSlice fde len;
    '(cie_offset, fde) ← ReadObject 4 fde;
    cie ← MakeSlice mem inp (u64 (sl_addr fde - 4 - cie_offset));
    ci ← ParseCIE cie;
    r ← ParseAug (cie_aug_str ci) (cie_rest ci) v;
    match r with
    | inr v => mret v
    | inl (fde_enc, lsda_enc, v, cie) =>
        DecodeBody inp match_all ci fde_enc lsda_enc cie fde v
    end.

Definition DecodeFDEAt (mem : Z → Z) (inp : EHReaderInputs) (fde_addr : Z) (v : V) : res V :=
  ParseFDE mem inp true fde_addr v.
End Decoder.
Arguments cie_info : clear implicits.

(** ** The .eh_frame_hdr binary search ([Decoder::FindFDE]) *)

Record EHFrameHdrEntry := mkEntry { start_ip_offset : Z; fde_ptr_offset : Z }.

Definition entry_of (bs : list Z) : EHFrameHdrEntry :=
  mkEntry (s32 (le_value (take 4 bs))) (s32 (le_value (take 4 (drop 4 bs)))).

(** [ReadSubslice<EHFrameHdrEntry>]: four-byte alignment, eight bytes each. *)
Definition ReadEntries (s : slice) (n : Z) : res (list EHFrameHdrEntry) :=
  if negb (Z.land (sl_addr s) 3 =? 0) then
    fail ("eh_frame read error: insufficient alignment. Align needed: 4, address: 0x"
          +:+ fmt_x (sl_addr s))
  else if 2 ^ 64 <=? n * 8 then
    fail ("eh_frame read error: ReadSubslice overflow. n * sizeof(T) = "
          +:+ fmt_d (s64 n) +:+ " * 8")
  else if Z.of_nat (length (sl_bytes s)) <? n * 8 then truncated
  else mret ((fun i => entry_of (drop (8 * Z.to_nat i) (sl_bytes s))) <$> seqZ 0 n).

(** [start_pc] of an entry, and the search loop over [[low, high)]. *)
Definition entry_pc (hdr : Z) (e : EHFrameHdrEntry) : Z := u64 (hdr + start_ip_offset e).

Fixpoint find_loop (fuel : nat) (pc hdr : Z) (entries : list EHFrameHdrEntry) (low high : nat) :
    nat :=
  match fuel with
  | O => low
  | S fuel =>
      if bool_decide (low < high)%nat then
        let mid := ((low + high) / 2)%nat in
        match entries !! mid with
        | Some e =>
            if pc <? entry_pc hdr e then find_loop fuel pc hdr entries low mid
            else find_loop fuel pc hdr entries (mid + 1) high
        | None => low
        end
      else low
  end.

Definition FindFDE (mem : Z → Z) (inp : EHReaderInputs) : res Z :=
  s ← MakeSlice mem inp (eh_frame_hdr inp);
  '(hdr, s) ← ReadSubslice 4 s;
  let field (i : nat) := default 0 (sl_bytes hdr !! i) in
  if negb (field 0%nat =? 1) then fail ("bad eh_frame_hdr version: " +:+ fmt_d (field 0%nat))
  else
    '(_, s) ← ReadEncodedPtr s (field 1%nat);
    '(fde_count, s) ← ReadEncodedPtr s (field 2%nat);
    if (fde_count =? 0) || (field 3%nat =? DW_EH_PE_omitted) then
      fail "no binary search table for fdes"
    else if negb (field 3%nat =? Z.lor DW_EH_PE_datarel DW_EH_PE_sdata4) then
      fail ("unsupported table encoding: " +:+ fmt_x (field 3%nat))
    else
      entries ← ReadEntries s fde_count;
      let low := find_loop (length entries) (lookup_pc inp) (eh_frame_hdr inp) entries
                   0 (length entries) in
      mret (match low with
            | O => 0
            | S i => match entries !! i with
                     | Some e => u64 (eh_frame_hdr inp + fde_ptr_offset e)
                     | None => 0
                     end
            end).

Definition FindAndDecode {V} `{UnwindVisitor V} (mem : Z → Z) (inp : EHReaderInputs) (v : V) :
    res V :=
  fde ← FindFDE mem inp;
  if fde =? 0 then mret v else ParseFDE mem inp false fde v.

(** ** Linear enumeration ([EnumerateFDEs]) *)

Definition read_mem (mem : Z → Z) (addr : Z) (n : nat) : Z :=
  le_value (mem <$> seqZ addr (Z.of_nat n)).

Definition ReadU32 (mem : Z → Z) (addr end_ : Z) (what : string) : res Z :=
  if (end_ <? u64 (addr + 4)) || (u64 (addr + 4) <? addr) then
    fail ("truncated .eh_frame while reading " +:+ what +:+ " at 0x" +:+ fmt_0x 16 addr)
  else mret (read_mem mem addr 4).

(** The addresses the callback saw, and the exception that ended the walk,
    if one did.  The caller keeps what was reported before the throw. *)
Fixpoint enum_loop (fuel : nat) (mem : Z → Z) (pos end_ : Z) : list Z * option error :=
  match fuel with
  | O => ([], Some OutOfFuel)
  | S fuel =>
      if negb (u64 (pos + 8) <=? end_) then ([], None)
      else match ReadU32 mem pos end_ "record length" with
      | Throw e => ([], Some e)
      | Ok len =>
          if len =? 0 then ([], None)
          else if len =? 0xffffffff then
            ([], Some (EHFrameError ("64-bit DWARF length at 0x" +:+ fmt_0x 16 pos
                                     +:+ " is not supported")))
          else
            let payload := u64 (pos + 4) in
            let next := u64 (payload + len) in
            if (next <=? pos) || (end_ <? next) then
              ([], Some (EHFrameError ("record at 0x" +:+ fmt_0x 16 pos +:+ " claims length "
                                       +:+ fmt_d len +:+ ", overrunning the section")))
            else match ReadU32 mem payload end_ "CIE id" with
            | Throw e => ([], Some e)
            | Ok id =>
                let '(addrs, err) := enum_loop fuel mem next end_ in
                (if id =? 0 then addrs else pos :: addrs, err)
            end
      end
  end.

Definition EnumerateFDEs (mem : Z → Z) (start end_ : Z) : list Z * option error :=
  enum_loop (S (Z.to_nat (end_ - start))) mem start end_.
