(* ===== verification/Leb128.v ===== *)
(** * LEB128: what the reader's two decoders compute

    [ReadUleb128] and [ReadSleb128] of [EhFrame] against the mathematical
    meaning of a LEB128 group sequence: they accept exactly the encodings of
    at most ten groups whose value fits the 64-bit type, and return that
    value.  The encoders below are the specification's, for the round trips. *)

From S2P Require Import Prelude EhFrame.

(** ** The meaning of a group sequence *)

Definition payload (b : Z) : Z := b mod 128.
Definition continues (b : Z) : bool := negb (Z.land b 0x80 =? 0).
Definition sign_set (b : Z) : bool := negb (Z.land b 0x40 =? 0).

(** All groups but the last carry the continuation bit. *)
Fixpoint leb_groups (enc : list Z) : Prop :=
  match enc with
  | [] => False
  | [b] => continues b = false
  | b :: enc => continues b = true ∧ leb_groups enc
  end.

Fixpoint uleb_value (enc : list Z) : Z :=
  match enc with [] => 0 | b :: enc => payload b + 128 * uleb_value enc end.

Fixpoint last_sign (enc : list Z) : bool :=
  match enc with [] => false | [b] => sign_set b | _ :: enc => last_sign enc end.

Definition sleb_value (enc : list Z) : Z :=
  uleb_value enc - (if last_sign enc then 128 ^ Z.of_nat (length enc) else 0).

(** The canonical encoders. *)
Fixpoint uleb_enc (fuel : nat) (x : Z) : list Z :=
  match fuel with
  | O => []
  | S fuel => if x <? 128 then [x] else (x mod 128 + 128) :: uleb_enc fuel (x / 128)
  end.
Definition uleb128 (x : Z) : list Z := uleb_enc 10 x.

Fixpoint sleb_enc (fuel : nat) (x : Z) : list Z :=
  match fuel with
  | O => []
  | S fuel =>
      if (-64 <=? x) && (x <? 64) then [x mod 128]
      else (x mod 128 + 128) :: sleb_enc fuel (x / 128)
  end.
Definition sleb128 (x : Z) : list Z := sleb_enc 10 x.

(** ** Bits *)

Lemma land_127 b : Z.land b 0x7f = payload b.
Proof. change 0x7f with (Z.ones 7). by rewrite Z.land_ones. Qed.

Lemma payload_range b : 0 <= payload b < 128.
Proof. apply Z.mod_pos_bound. lia. Qed.

(** Or-ing a fresh group in above the bits read so far is addition. *)
Lemma lor_shiftl_add r x s :
  0 <= s → 0 <= r < 2 ^ s → 0 <= x → Z.lor r (Z.shiftl x s) = r + x * 2 ^ s.
Proof.
  intros Hs Hr Hx. rewrite <-Z.shiftl_mul_pow2 by lia. symmetry. apply Z.add_nocarry_lor.
  apply Z.bits_inj'. intros n Hn. rewrite Z.land_spec, Z.bits_0.
  destruct (decide (n < s)).
  - rewrite Z.shiftl_spec_low by lia. apply andb_false_r.
  - rewrite <-(Z.mod_small r (2 ^ s)), Z.mod_pow2_bits_high by lia. done.
Qed.

Lemma shiftl_u64_fits x s : 0 <= s → 0 <= x → x * 2 ^ s < 2 ^ 64 → u64 (Z.shiftl x s) = Z.shiftl x s.
Proof.
  intros. rewrite Z.shiftl_mul_pow2 by lia. apply u64_id. unfold is_u64.
  change 18446744073709551616 with (2 ^ 64). nia.
Qed.

(** The position after [k] groups. *)
Lemma shift_cases k : 0 <= k → (64 <=? 7 * k) = false → (57 <? 7 * k) = false ∧ k <= 8 ∨ k = 9.
Proof. lia. Qed.

Lemma land_bit_high b n : 0 <= n → (Z.land b (2 ^ n) =? 0) = negb (Z.testbit b n).
Proof.
  intros Hn. destruct (Z.testbit b n) eqn:E; cbn.
  - apply Z.eqb_neq. intros H. apply (f_equal (fun z => Z.testbit z n)) in H.
    rewrite Z.land_spec, Z.pow2_bits_true, E, Z.bits_0 in H by lia. done.
  - apply Z.eqb_eq, Z.bits_inj'. intros m Hm. rewrite Z.land_spec, Z.bits_0.
    destruct (decide (n = m)) as [->|]; [by rewrite E|].
    rewrite Z.pow2_bits_false by lia. apply andb_false_r.
Qed.

Lemma sign_set_payload b : sign_set b = (64 <=? payload b).
Proof.
  unfold sign_set, payload. change 0x40 with (2 ^ 6). rewrite land_bit_high by lia.
  rewrite negb_involutive, <-(Z.mod_pow2_bits_low b 7 6) by lia. change (2 ^ 7) with 128.
  pose proof (Z.mod_pos_bound b 128). generalize dependent (b mod 128). intros x Hx.
  rewrite Z.testbit_eqb by lia. change (2 ^ 6) with 64.
  Z.to_euclidean_division_equations. lia.
Qed.

Lemma continues_small b : 0 <= b < 128 → continues b = false.
Proof.
  intros. unfold continues. change 0x80 with (2 ^ 7). rewrite land_bit_high by lia.
  rewrite negb_involutive, Z.testbit_eqb by lia. change (2 ^ 7) with 128.
  rewrite Z.div_small by lia. done.
Qed.
Lemma continues_big b : 0 <= b < 128 → continues (b + 128) = true.
Proof.
  intros. unfold continues. change 0x80 with (2 ^ 7). rewrite land_bit_high by lia.
  rewrite negb_involutive, Z.testbit_eqb by lia. change (2 ^ 7) with 128.
  replace ((b + 128) / 128) with 1 by (Z.to_euclidean_division_equations; lia). done.
Qed.

Lemma pow_7_succ k : 0 <= k → 2 ^ (7 * (k + 1)) = 128 * 2 ^ (7 * k).
Proof. intros. replace (7 * (k + 1)) with (7 + 7 * k) by lia. rewrite Z.pow_add_r by lia. done. Qed.

Lemma uleb_value_range enc : 0 <= uleb_value enc < 128 ^ Z.of_nat (length enc).
Proof.
  induction enc as [|b enc IH]; [done|]. cbn [uleb_value length].
  rewrite Nat2Z.inj_succ, Z.pow_succ_r by lia. pose proof (payload_range b). lia.
Qed.

Lemma leb_groups_cons b enc :
  leb_groups (b :: enc) ↔ (continues b = false ∧ enc = []) ∨ (continues b = true ∧ leb_groups enc).
Proof.
  destruct enc as [|b' enc]; cbn; [|intuition congruence]. intuition.
Qed.

(** ** Reading a group sequence

    [leb_reads value ok bs addr k r v s'] : after [k] groups worth [r], the
    stream [bs] at address [addr] holds one more sequence of groups, within
    the ten-group limit; the total value is [v], of which [ok] holds, and [s']
    is what follows.  Both decoders are shown to compute this relation. *)

Section leb_reads.
Context (value : list Z → Z) (ok : Z → Prop).
Hypothesis value_cons : ∀ b b' enc,
  value (b :: b' :: enc) = payload b + 128 * value (b' :: enc).

Definition leb_reads (bs : list Z) (addr k r v : Z) (s' : slice) : Prop :=
  ∃ enc rest, bs = enc ++ rest ∧ s' = mkSlice (addr + Z.of_nat (length enc)) rest ∧
    leb_groups enc ∧ k + Z.of_nat (length enc) <= 10 ∧
    v = r + 2 ^ (7 * k) * value enc ∧ ok v.

Lemma leb_reads_nil addr k r v s' : ¬ leb_reads [] addr k r v s'.
Proof. intros ([|? ?] & ? & ? & _ & Hg & _); simplify_list_eq; done. Qed.

Lemma leb_reads_limit bs addr k r v s' : 10 <= k → ¬ leb_reads bs addr k r v s'.
Proof.
  intros Hk ([|? enc] & ? & ? & _ & Hg & Hl & _); [done|]. cbn [length] in Hl. lia.
Qed.

Lemma leb_reads_last b bs addr k r v s' :
  continues b = false →
  leb_reads (b :: bs) addr k r v s' ↔
    v = r + 2 ^ (7 * k) * value [b] ∧ s' = mkSlice (addr + 1) bs ∧ k <= 9 ∧ ok v.
Proof.
  intros Hc. split.
  - intros ([|b' enc] & rest & ? & -> & Hg & Hl & -> & Hok); [done|]. simplify_list_eq.
    apply leb_groups_cons in Hg as [[_ ->]|[? _]]; [|congruence].
    cbn [length app] in *. split_and!; [done|done|lia|done].
  - intros (-> & -> & Hk & Hok). exists [b], bs. cbn [length app].
    split_and!; [done|done|done|lia|done|done].
Qed.

Lemma leb_reads_cons b bs addr k r v s' :
  0 <= k → continues b = true →
  leb_reads (b :: bs) addr k r v s' ↔
  leb_reads bs (addr + 1) (k + 1) (r + payload b * 2 ^ (7 * k)) v s'.
Proof.
  intros Hk Hc. unfold leb_reads. rewrite pow_7_succ by lia. split.
  - intros ([|b' enc] & rest & ? & -> & Hg & Hl & -> & Hok); [done|]. simplify_list_eq.
    apply leb_groups_cons in Hg as [[? _]|[_ Hg]]; [congruence|].
    destruct enc as [|b1 enc]; [done|]. rewrite value_cons in *.
    exists (b1 :: enc), rest. cbn [length] in *.
    split_and!; [done|f_equal; lia|done|lia|lia|done].
  - intros (enc & rest & -> & -> & Hg & Hl & Hv & Hok). exists (b :: enc), rest.
    destruct enc as [|b1 enc]; [done|]. rewrite leb_groups_cons, value_cons. cbn [app].
    cbn [length] in *.
    split_and!; [done|f_equal; lia|by right|lia|lia|done].
Qed.

(** The value read is at least what the first groups are worth. *)
Lemma leb_reads_ge b bs addr k r v s' :
  (∀ enc, payload b <= value (b :: enc)) →
  leb_reads (b :: bs) addr k r v s' → r + 2 ^ (7 * k) * payload b <= v.
Proof.
  intros Hge ([|b' enc] & rest & ? & _ & Hg & _ & -> & _); [done|]. simplify_list_eq.
  specialize (Hge enc). pose proof (Z.pow_nonneg 2 (7 * k)). nia.
Qed.
End leb_reads.

(** ** Unsigned *)

Definition uleb_guard (b shift : Z) : bool :=
  (64 - 7 <? shift) && negb (Z.shiftr (Z.land b 0x7f) (64 - shift) =? 0).

(** The overflow test fires exactly when the group does not fit. *)
Lemma uleb_guard_spec b k :
  0 <= k <= 9 → uleb_guard b (7 * k) = (2 ^ 64 <=? payload b * 2 ^ (7 * k)).
Proof.
  intros Hk. unfold uleb_guard. rewrite land_127. pose proof (payload_range b) as Hp.
  destruct (decide (k = 9)) as [->|].
  - change (64 - 7 <? 7 * 9) with true. change (64 - 7 * 9) with 1. change (2 ^ (7 * 9)) with (2 ^ 63).
    cbn [andb]. rewrite Z.shiftr_div_pow2 by lia. change (2 ^ 1) with 2.
    change (2 ^ 64) with (2 * 2 ^ 63). Z.to_euclidean_division_equations. lia.
  - rewrite (proj2 (Z.ltb_ge _ _)) by lia. cbn [andb]. symmetry. apply Z.leb_gt.
    assert (2 ^ (7 * k) <= 2 ^ 56) by (apply Z.pow_le_mono_r; lia).
    change (2 ^ 64) with (256 * 2 ^ 56). nia.
Qed.

Lemma uleb_step_value b k r :
  0 <= k → 0 <= r < 2 ^ (7 * k) → payload b * 2 ^ (7 * k) < 2 ^ 64 →
  Z.lor r (u64 (Z.shiftl (Z.land b 0x7f) (7 * k))) = r + payload b * 2 ^ (7 * k).
Proof.
  intros Hk Hr Hf. pose proof (payload_range b). rewrite land_127, shiftl_u64_fits by lia.
  apply lor_shiftl_add; lia.
Qed.

Lemma step_range b k r :
  0 <= k → 0 <= r < 2 ^ (7 * k) → 0 <= r + payload b * 2 ^ (7 * k) < 2 ^ (7 * (k + 1)).
Proof.
  intros. rewrite pow_7_succ by lia. pose proof (payload_range b).
  pose proof (Z.pow_pos_nonneg 2 (7 * k)). nia.
Qed.

Lemma last_group_fits b k r :
  0 <= k <= 9 → 0 <= r < 2 ^ (7 * k) → payload b * 2 ^ (7 * k) < 2 ^ 64 →
  r + payload b * 2 ^ (7 * k) < 2 ^ 64.
Proof.
  intros Hk Hr Hf. destruct (decide (k = 9)) as [->|].
  - change (2 ^ (7 * 9)) with (2 ^ 63) in *. change (2 ^ 64) with (2 * 2 ^ 63) in *. nia.
  - pose proof (step_range b k r). assert (2 ^ (7 * (k + 1)) <= 2 ^ 63) by (apply Z.pow_le_mono_r; lia).
    change (2 ^ 64) with (2 * 2 ^ 63). lia.
Qed.

Lemma uleb_value_cons b b' enc :
  uleb_value (b :: b' :: enc) = payload b + 128 * uleb_value (b' :: enc).
Proof. done. Qed.

Lemma uleb_loop_spec bs addr k r v s' :
  0 <= k → 0 <= r < 2 ^ (7 * k) →
  uleb_loop bs addr (7 * k) r = Ok (v, s') ↔
    leb_reads uleb_value (fun v => v < 2 ^ 64) bs addr k r v s'.
Proof.
  revert addr k r. induction bs as [|b bs IH]; intros addr k r Hk Hr; cbn [uleb_loop].
  { pose proof (leb_reads_nil uleb_value (fun v => v < 2 ^ 64) addr k r v s').
    split; [by destruct (64 <=? 7 * k)|done]. }
  destruct (64 <=? 7 * k) eqn:E64.
  { pose proof (leb_reads_limit uleb_value (fun v => v < 2 ^ 64) (b :: bs) addr k r v s').
    split; [done|]. intros Hrd. exfalso. apply H; [lia|exact Hrd]. }
  change ((64 - 7 <? 7 * k) && negb (Z.shiftr (Z.land b 0x7f) (64 - 7 * k) =? 0))
    with (uleb_guard b (7 * k)). rewrite uleb_guard_spec by lia.
  destruct (Z.leb_spec (2 ^ 64) (payload b * 2 ^ (7 * k))) as [Hbig|Hfit].
  { split; [done|]. intros Hrd. apply leb_reads_ge in Hrd as Hge.
    - destruct Hrd as (? & ? & _ & _ & _ & _ & _ & Hok). lia.
    - intros enc. cbn [uleb_value]. pose proof (uleb_value_range enc). lia. }
  cbv zeta. rewrite uleb_step_value by lia. replace (7 * k + 7) with (7 * (k + 1)) by lia.
  destruct (Z.land b 0x80 =? 0) eqn:Hc.
  - rewrite leb_reads_last by (unfold continues; by rewrite Hc).
    pose proof (last_group_fits b k r). cbn [uleb_value]. split.
    + intros [= <- <-]. split_and!; [lia|done|lia|lia].
    + intros (-> & -> & _ & _). do 3 f_equal. lia.
  - rewrite leb_reads_cons by (done || apply uleb_value_cons || (unfold continues; by rewrite Hc)).
    apply IH; [lia|apply step_range; lia].
Qed.

(** ** Signed *)

Lemma sleb_value_one b : sleb_value [b] = payload b - (if sign_set b then 128 else 0).
Proof. unfold sleb_value. cbn. destruct (sign_set b); lia. Qed.

Lemma sleb_value_cons b b' enc :
  sleb_value (b :: b' :: enc) = payload b + 128 * sleb_value (b' :: enc).
Proof.
  unfold sleb_value. change (last_sign (b :: b' :: enc)) with (last_sign (b' :: enc)).
  change (uleb_value (b :: b' :: enc)) with (payload b + 128 * uleb_value (b' :: enc)).
  change (length (b :: b' :: enc)) with (S (length (b' :: enc))).
  rewrite Nat2Z.inj_succ, Z.pow_succ_r by lia. destruct (last_sign _); lia.
Qed.

(** The tenth group may only repeat the sign bit. *)
Lemma sleb_bad_tail_spec b :
  sleb_bad_tail b 63 = negb ((payload b =? 0) || (payload b =? 127)).
Proof.
  unfold sleb_bad_tail. rewrite land_127. pose proof (payload_range b).
  change (64 - 63 - 1) with 0. change (64 - 63) with 1. change (Z.shiftl 1 (7 - 1) - 1) with 63.
  change (u8 63) with 63. rewrite Z.shiftr_0_r, Z.shiftr_div_pow2 by lia.
  change (Z.land (payload b) 1) with (Z.land (payload b) (Z.ones 1)).
  rewrite Z.land_ones by lia. change (2 ^ 1) with 2. f_equal.
  destruct (Z.eqb_spec (payload b mod 2) 0); Z.to_euclidean_division_equations; lia.
Qed.

(** Sign extension: or-ing the high ones in below bit 64. *)
Lemma sign_extend r s :
  0 <= s < 64 → 0 <= r < 2 ^ s →
  Z.lor r (u64 (Z.shiftl (u64 (-1)) s)) = r + 2 ^ 64 - 2 ^ s.
Proof.
  intros Hs Hr.
  assert (2 ^ 64 = 2 ^ (64 - s) * 2 ^ s) as H64
    by (rewrite <-Z.pow_add_r by lia; f_equal; lia).
  assert (0 < 2 ^ s ∧ 0 < 2 ^ (64 - s)) by (split; apply Z.pow_pos_nonneg; lia).
  assert (u64 (Z.shiftl (u64 (-1)) s) = Z.shiftl (2 ^ (64 - s) - 1) s) as ->.
  { change (u64 (-1)) with (2 ^ 64 - 1). rewrite !Z.shiftl_mul_pow2 by lia.
    unfold u64, wrapu. symmetry. apply (Z.mod_unique _ _ (2 ^ s - 1)); [left; nia|nia]. }
  rewrite lor_shiftl_add by lia. nia.
Qed.

(** What the last group contributes, at each position. *)
Lemma sleb_last b k r :
  0 <= k <= 9 → 0 <= r < 2 ^ (7 * k) → (57 <? 7 * k) && sleb_bad_tail b (7 * k) = false →
  let r' := Z.lor r (u64 (Z.shiftl (Z.land b 0x7f) (7 * k))) in
  s64 (if (7 * k + 7 <? 64) && sign_set b
       then Z.lor r' (u64 (Z.shiftl (u64 (-1)) (7 * k + 7))) else r') =
    r + 2 ^ (7 * k) * sleb_value [b] ∧ is_s64 (r + 2 ^ (7 * k) * sleb_value [b]).
Proof.
  intros Hk Hr Hg r'. rewrite sleb_value_one, sign_set_payload.
  pose proof (payload_range b) as Hp. destruct (decide (k = 9)) as [->|Hne].
  - change (7 * 9) with 63 in *. change (63 + 7 <? 64) with false. cbn [andb].
    change (57 <? 63) with true in Hg. cbn [andb] in Hg. rewrite sleb_bad_tail_spec in Hg.
    subst r'. rewrite land_127. assert (payload b = 0 ∨ payload b = 127) as [E|E] by lia; rewrite E.
    + change (u64 (Z.shiftl 0 63)) with 0. rewrite Z.lor_0_r. change (64 <=? 0) with false. mach.
    + change (u64 (Z.shiftl 127 63)) with (Z.shiftl 1 63). rewrite lor_shiftl_add by lia.
      change (64 <=? 127) with true. mach.
  - assert (2 ^ (7 * k) <= 2 ^ 56) by (apply Z.pow_le_mono_r; lia).
    subst r'. rewrite uleb_step_value by (try lia; change (2 ^ 64) with (256 * 2 ^ 56); nia).
    pose proof (step_range b k r ltac:(lia) Hr) as Hr'.
    replace (7 * k + 7) with (7 * (k + 1)) by lia.
    rewrite (proj2 (Z.ltb_lt _ _)) by lia. cbn [andb].
    destruct (Z.leb_spec 64 (payload b)).
    + rewrite sign_extend by lia. rewrite pow_7_succ in * by lia.
      split; [|unfold is_s64; change 9223372036854775808 with (128 * 2 ^ 56); nia].
      unfold s64, wraps. change (2 ^ (64 - 1)) with (128 * 2 ^ 56).
      change (2 ^ 64) with (256 * 2 ^ 56).
      match goal with |- ?a mod _ - _ = ?w =>
        rewrite <-(Z.mod_unique a (256 * 2 ^ 56) 1 (w + 128 * 2 ^ 56)); [lia|left; nia|lia] end.
    + rewrite pow_7_succ in * by lia. rewrite Z.sub_0_r. split; [|unfold is_s64; nia].
      rewrite s64_id; [lia|]. unfold is_s64. nia.
Qed.

Lemma sleb_guard_low b k : 0 <= k <= 8 → (64 - 7 <? 7 * k) && sleb_bad_tail b (7 * k) = false.
Proof. intros. by rewrite (proj2 (Z.ltb_ge _ _)) by lia. Qed.

Lemma sleb_bad_tail_range b r :
  0 <= r < 2 ^ 63 → sleb_bad_tail b 63 = true → ¬ is_s64 (r + 2 ^ 63 * sleb_value [b]).
Proof.
  rewrite sleb_bad_tail_spec, sleb_value_one, sign_set_payload. intros Hr Hb.
  pose proof (payload_range b). unfold is_s64.
  change 9223372036854775808 with (2 ^ 63).
  destruct (Z.leb_spec 64 (payload b)); nia.
Qed.

Lemma sleb_loop_spec bs addr k r v s' :
  0 <= k → 0 <= r < 2 ^ (7 * k) →
  sleb_loop bs addr (7 * k) r = Ok (v, s') ↔ leb_reads sleb_value is_s64 bs addr k r v s'.
Proof.
  revert addr k r. induction bs as [|b bs IH]; intros addr k r Hk Hr; cbn [sleb_loop].
  { pose proof (leb_reads_nil sleb_value is_s64 addr k r v s').
    split; [by destruct (64 <=? 7 * k)|done]. }
  destruct (64 <=? 7 * k) eqn:E64.
  { pose proof (leb_reads_limit sleb_value is_s64 (b :: bs) addr k r v s').
    split; [done|]. intros Hrd. exfalso. apply H; [lia|exact Hrd]. }
  assert (k = 9 ∨ k <= 8) as [->|Hk8] by lia.
  - change (7 * 9) with 63 in *. change (64 - 7 <? 63) with true. cbn [andb].
    destruct (sleb_bad_tail b 63) eqn:Hbad.
    { split; [done|]. intros Hrd. destruct (continues b) eqn:Hc.
      - apply leb_reads_cons in Hrd; [|apply sleb_value_cons|lia|done].
        exfalso. by eapply leb_reads_limit, Hrd.
      - apply leb_reads_last in Hrd as (-> & _ & _ & Hs); [|done].
        exfalso. by eapply sleb_bad_tail_range. }
    destruct (Z.land b 0x80 =? 0) eqn:Hc; cbv zeta.
    + rewrite leb_reads_last by (unfold continues; by rewrite Hc).
      destruct (sleb_last b 9 r) as [Hlast Hrange]; [lia|done|exact Hbad|].
      cbv zeta in Hlast. unfold sign_set in Hlast. change (7 * 9) with 63 in *. rewrite Hlast.
      split; [intros [= <- <-]; done|by intros (-> & -> & _)].
    + rewrite leb_reads_cons by (done || apply sleb_value_cons || (unfold continues; by rewrite Hc)).
      change (63 + 7) with (7 * (9 + 1)). split; [by destruct bs|].
      intros Hrd. exfalso. by eapply leb_reads_limit, Hrd.
  - rewrite sleb_guard_low by lia. cbv zeta.
    destruct (Z.land b 0x80 =? 0) eqn:Hc.
    + rewrite leb_reads_last by (unfold continues; by rewrite Hc).
      destruct (sleb_last b k r) as [Hlast Hrange]; [lia|done|by apply sleb_guard_low|].
      cbv zeta in Hlast. unfold sign_set in Hlast. rewrite Hlast.
      split; [intros [= <- <-]; split_and!; auto with lia|by intros (-> & -> & _)].
    + rewrite leb_reads_cons by (done || apply sleb_value_cons || (unfold continues; by rewrite Hc)).
      assert (2 ^ (7 * k) <= 2 ^ 56) by (apply Z.pow_le_mono_r; lia). pose proof (payload_range b).
      rewrite uleb_step_value by (try lia; change (2 ^ 64) with (256 * 2 ^ 56); nia).
      replace (7 * k + 7) with (7 * (k + 1)) by lia. apply IH; [lia|apply step_range; lia].
Qed.

(** ** The decoders' contracts *)

Lemma leb_reads_top value ok s v s' :
  leb_reads value ok (sl_bytes s) (sl_addr s) 0 0 v s' ↔
  ∃ enc rest, sl_bytes s = enc ++ rest ∧
    s' = mkSlice (sl_addr s + Z.of_nat (length enc)) rest ∧
    leb_groups enc ∧ (length enc ≤ 10)%nat ∧ v = value enc ∧ ok v.
Proof.
  unfold leb_reads. change (2 ^ (7 * 0)) with 1.
  split; intros (enc & rest & ? & ? & ? & ? & ? & ?); exists enc, rest;
    (split_and!; [done|done|done|lia|lia|done]).
Qed.

Lemma ReadUleb128_reads s v s' :
  ReadUleb128 s = Ok (v, s') ↔
  leb_reads uleb_value (fun v => v < 2 ^ 64) (sl_bytes s) (sl_addr s) 0 0 v s'.
Proof. apply (uleb_loop_spec _ _ 0 0 v s'); cbn; lia. Qed.

Lemma ReadSleb128_reads s v s' :
  ReadSleb128 s = Ok (v, s') ↔ leb_reads sleb_value is_s64 (sl_bytes s) (sl_addr s) 0 0 v s'.
Proof. apply (sleb_loop_spec _ _ 0 0 v s'); cbn; lia. Qed.

(** A successful read leaves a proper suffix. *)
Lemma leb_reads_shorter value ok bs addr k r v s' :
  leb_reads value ok bs addr k r v s' → (length (sl_bytes s') < length bs)%nat.
Proof.
  intros (enc & rest & -> & -> & Hg & _). rewrite length_app. destruct enc; [done|]. cbn. lia.
Qed.

(** [Decoder::ReadUleb128] accepts exactly a sequence of at most ten
    7-bit groups (all but the last with the continuation bit) whose value
    fits in [uintptr_t]; it returns that value and leaves the slice right
    behind the last group.  Everything else (truncation, an eleventh group,
    bits lost beyond bit 63) throws. *)
Lemma ReadUleb128_spec s v s' :
  ReadUleb128 s = Ok (v, s') ↔
  ∃ enc rest, sl_bytes s = enc ++ rest ∧
    s' = mkSlice (sl_addr s + Z.of_nat (length enc)) rest ∧
    leb_groups enc ∧ (length enc ≤ 10)%nat ∧ v = uleb_value enc ∧ v < 2 ^ 64.
Proof.
  rewrite <-(leb_reads_top uleb_value (fun v => v < 2 ^ 64)). apply ReadUleb128_reads.
Qed.

(** [Decoder::ReadSleb128] accepts exactly a sequence of at most ten
    groups whose two's-complement value (the last group's bit 6 is the sign)
    fits in [intptr_t], and returns that value. *)
Lemma ReadSleb128_spec s v s' :
  ReadSleb128 s = Ok (v, s') ↔
  ∃ enc rest, sl_bytes s = enc ++ rest ∧
    s' = mkSlice (sl_addr s + Z.of_nat (length enc)) rest ∧
    leb_groups enc ∧ (length enc ≤ 10)%nat ∧ v = sleb_value enc ∧ is_s64 v.
Proof.
  rewrite <-(leb_reads_top sleb_value is_s64). apply ReadSleb128_reads.
Qed.

(** ** Encoders *)

Lemma payload_small x : 0 <= x < 128 → payload x = x.
Proof. intros. by apply Z.mod_small. Qed.
Lemma payload_big x : payload (x mod 128 + 128) = x mod 128.
Proof. unfold payload. Z.to_euclidean_division_equations. lia. Qed.

Lemma leb_groups_big x enc : leb_groups enc → leb_groups ((x mod 128 + 128) :: enc).
Proof.
  intros. apply leb_groups_cons. right. split; [|done].
  apply continues_big, Z.mod_pos_bound. lia.
Qed.

Lemma uleb_enc_spec n x :
  0 <= x < 128 ^ Z.of_nat n → (0 < n)%nat →
  leb_groups (uleb_enc n x) ∧ (length (uleb_enc n x) ≤ n)%nat ∧ uleb_value (uleb_enc n x) = x.
Proof.
  revert x. induction n as [|n IH]; intros x Hx Hn; [lia|]. cbn [uleb_enc].
  destruct (Z.ltb_spec x 128).
  { cbn. rewrite continues_small, payload_small by lia. split_and!; [done|lia|lia]. }
  rewrite Nat2Z.inj_succ, Z.pow_succ_r in Hx by lia.
  destruct (IH (x / 128)) as (Hg & Hl & Hv).
  { split; [apply Z.div_pos; lia|apply Z.div_lt_upper_bound; lia]. }
  { destruct n; [|lia]. change (128 ^ Z.of_nat 0) with 1 in Hx. lia. }
  cbn [uleb_value length]. rewrite payload_big, Hv.
  split_and!; [by apply leb_groups_big|lia|pose proof (Z.div_mod x 128); lia].
Qed.

Lemma sleb_enc_last x :
  -64 <= x < 64 →
  leb_groups [x mod 128] ∧ sleb_value [x mod 128] = x.
Proof.
  intros. pose proof (Z.mod_pos_bound x 128). split; [cbn; apply continues_small; lia|].
  rewrite sleb_value_one, sign_set_payload, payload_small by lia.
  destruct (Z.leb_spec 64 (x mod 128)); Z.to_euclidean_division_equations; lia.
Qed.

Lemma sleb_enc_S n x :
  sleb_enc (S n) x = if (-64 <=? x) && (x <? 64) then [x mod 128]
                     else (x mod 128 + 128) :: sleb_enc n (x / 128).
Proof. done. Qed.

Lemma sleb_enc_spec n x :
  - (64 * 128 ^ Z.of_nat n) <= x < 64 * 128 ^ Z.of_nat n →
  leb_groups (sleb_enc (S n) x) ∧ (length (sleb_enc (S n) x) ≤ S n)%nat ∧
  sleb_value (sleb_enc (S n) x) = x.
Proof.
  revert x. induction n as [|n IH]; intros x Hx; rewrite sleb_enc_S;
    destruct ((-64 <=? x) && (x <? 64)) eqn:E.
  1,3: destruct (sleb_enc_last x) as (? & ?); [lia|]; split_and!; [done|cbn; lia|done].
  { change (128 ^ Z.of_nat 0) with 1 in Hx. lia. }
  rewrite Nat2Z.inj_succ, Z.pow_succ_r in Hx by lia.
  destruct (IH (x / 128)) as (Hg & Hl & Hv).
  { split; [apply Z.div_le_lower_bound; lia|apply Z.div_lt_upper_bound; lia]. }
  destruct (sleb_enc (S n) (x / 128)) as [|b1 enc] eqn:Henc; [done|].
  split_and!; [by apply leb_groups_big|cbn in *; lia|].
  rewrite sleb_value_cons, payload_big, Hv. pose proof (Z.div_mod x 128). lia.
Qed.

Lemma ReadUleb128_enc a x rest :
  is_u64 x → ReadUleb128 (mkSlice a (uleb128 x ++ rest)) =
             Ok (x, mkSlice (a + Z.of_nat (length (uleb128 x))) rest).
Proof.
  intros Hx. destruct (uleb_enc_spec 10 x) as (Hg & Hl & Hv);
    [unfold is_u64 in Hx; lia|lia|].
  apply ReadUleb128_reads, leb_reads_top.
  exists (uleb128 x), rest. unfold is_u64 in Hx. split_and!; [done|done|done|done|by symmetry|lia].
Qed.

Lemma ReadSleb128_enc a x rest :
  is_s64 x → ReadSleb128 (mkSlice a (sleb128 x ++ rest)) =
             Ok (x, mkSlice (a + Z.of_nat (length (sleb128 x))) rest).
Proof.
  intros Hx. destruct (sleb_enc_spec 9 x) as (Hg & Hl & Hv); [unfold is_s64 in Hx; lia|].
  apply ReadSleb128_reads, leb_reads_top.
  exists (sleb128 x), rest. split_and!; [done|done|done|done|by symmetry|done].
Qed.

(** C21: LEB128 round trips: reading the canonical encoding of any [uintptr_t]
    (of any [intptr_t]) returns that value and leaves the cursor right behind
    it, whatever follows. *)
Theorem leb128_roundtrip :
  (∀ a x rest, is_u64 x → ReadUleb128 (mkSlice a (uleb128 x ++ rest)) =
     Ok (x, mkSlice (a + Z.of_nat (length (uleb128 x))) rest)) ∧
  (∀ a x rest, is_s64 x → ReadSleb128 (mkSlice a (sleb128 x ++ rest)) =
     Ok (x, mkSlice (a + Z.of_nat (length (sleb128 x))) rest)).
Proof. split; [exact ReadUleb128_enc|exact ReadSleb128_enc]. Qed.
