(* ===== verification/TableBuilder.v ===== *)
(** * From opcode stream to row table

    Models [class TableBuilder] and [ReadFDE] of [src/cfi-table.cc]: the
    visitor that turns the decoder's callbacks into a [CFI].  The builder's
    vector [stack_] is a list whose head is [stack_.back()]. *)

From S2P Require Import Prelude CfiTable EhFrame.

Record Saved := mkSaved { saved_cfa : CFARule; saved_regs : list RegRule }.

Record TableBuilder := mkBuilder {
  result_ : CFI;
  bias_ : Z;
  row_pc_ : Z;
  cur_cfa_ : CFARule;
  cur_regs_ : list RegRule;
  cie_regs_ : list RegRule;
  stack_ : list Saved
}.

Definition empty_cfi (fde_vaddr : Z) : CFI :=
  mkCFI fde_vaddr 0 0 kDWARFRip false 0 false [].

(** The constructor, then [set_bias]. *)
Definition new_builder (fde_vaddr bias : Z) : TableBuilder :=
  mkBuilder (empty_cfi fde_vaddr) bias 0 CFARule_default no_rules no_rules [].

(** ** Field updates *)

Definition with_result (f : CFI → CFI) (b : TableBuilder) : TableBuilder :=
  mkBuilder (f (result_ b)) (bias_ b) (row_pc_ b) (cur_cfa_ b) (cur_regs_ b) (cie_regs_ b) (stack_ b).
Definition with_row_pc (pc : Z) (b : TableBuilder) : TableBuilder :=
  mkBuilder (result_ b) (bias_ b) pc (cur_cfa_ b) (cur_regs_ b) (cie_regs_ b) (stack_ b).
Definition with_cfa (c : CFARule) (b : TableBuilder) : TableBuilder :=
  mkBuilder (result_ b) (bias_ b) (row_pc_ b) c (cur_regs_ b) (cie_regs_ b) (stack_ b).
Definition with_regs (rs : list RegRule) (b : TableBuilder) : TableBuilder :=
  mkBuilder (result_ b) (bias_ b) (row_pc_ b) (cur_cfa_ b) rs (cie_regs_ b) (stack_ b).
Definition with_cie_regs (rs : list RegRule) (b : TableBuilder) : TableBuilder :=
  mkBuilder (result_ b) (bias_ b) (row_pc_ b) (cur_cfa_ b) (cur_regs_ b) rs (stack_ b).
Definition with_stack (st : list Saved) (b : TableBuilder) : TableBuilder :=
  mkBuilder (result_ b) (bias_ b) (row_pc_ b) (cur_cfa_ b) (cur_regs_ b) (cie_regs_ b) st.

Definition cfi_started (rr b e : Z) (c : CFI) : CFI :=
  mkCFI (fde_addr c) b e rr (signal_frame c) (lsda_addr c) (has_exotic_regs c) (rows c).
Definition cfi_signal (c : CFI) : CFI :=
  mkCFI (fde_addr c) (pc_begin c) (pc_end c) (return_reg c) true (lsda_addr c)
        (has_exotic_regs c) (rows c).
Definition cfi_lsda (a : Z) (c : CFI) : CFI :=
  mkCFI (fde_addr c) (pc_begin c) (pc_end c) (return_reg c) (signal_frame c) a
        (has_exotic_regs c) (rows c).
Definition cfi_exotic (c : CFI) : CFI :=
  mkCFI (fde_addr c) (pc_begin c) (pc_end c) (return_reg c) (signal_frame c) (lsda_addr c)
        true (rows c).
Definition cfi_push_row (r : CFIRow) (c : CFI) : CFI :=
  mkCFI (fde_addr c) (pc_begin c) (pc_end c) (return_reg c) (signal_frame c) (lsda_addr c)
        (has_exotic_regs c) (rows c ++ [r]).

(** ** Handlers *)

Definition go_on (b : TableBuilder) : res (bool * TableBuilder) := mret (true, b).

Definition tb_StartFDE (return_reg pc_start pc_end : Z) (b : TableBuilder) :=
  let pb := u64 (pc_start - bias_ b) in
  let pe := u64 (pc_end - bias_ b) in
  go_on (with_row_pc pb (with_result (cfi_started (s32 return_reg) pb pe) b)).

Definition tb_HandleAugS (b : TableBuilder) := go_on (with_result cfi_signal b).

Definition tb_HandleLSDA (lsda_ptr : Z) (b : TableBuilder) :=
  go_on (if lsda_ptr =? 0 then b else with_result (cfi_lsda (u64 (lsda_ptr - bias_ b))) b).

Definition tb_AfterCIE (b : TableBuilder) := go_on (with_cie_regs (cur_regs_ b) b).

Definition tb_HandleSetLoc (new_pc : Z) (b : TableBuilder) :=
  let pc := u64 (new_pc - bias_ b) in
  let b' := if row_pc_ b <? pc
            then with_result (cfi_push_row (mkRow (row_pc_ b) (cur_cfa_ b) (cur_regs_ b))) b
            else b in
  go_on (with_row_pc pc b').

Definition tb_HandleDefCFA (reg offset : Z) (b : TableBuilder) :=
  go_on (with_cfa (mkCFA CFA_RegOffset (u8 reg) (s64 offset)) b).
Definition tb_HandleDefCFAReg (reg : Z) (b : TableBuilder) :=
  go_on (with_cfa (mkCFA CFA_RegOffset (u8 reg) (cfa_offset (cur_cfa_ b))) b).
Definition tb_HandleDefCFAOffset (offset : Z) (b : TableBuilder) :=
  go_on (with_cfa (mkCFA CFA_RegOffset (cfa_reg (cur_cfa_ b)) (s64 offset)) b).
Definition tb_HandleDefCFAExpression (expr : list Z) (b : TableBuilder) :=
  go_on (with_cfa (mkCFA CFA_Expression 0 0) b).

(** [SetRule]: registers outside 0..16 are noted and otherwise ignored. *)
Definition SetRule (reg : Z) (rule : RegRule) (b : TableBuilder) :=
  go_on (if kNumDWARFRegs <=? reg then with_result cfi_exotic b
         else with_regs (<[Z.to_nat reg := rule]> (cur_regs_ b)) b).

Definition tb_HandleOffset (reg new_offset : Z) := SetRule reg (RR_AtCFAOffset (s64 new_offset)).
Definition tb_HandleRegister (reg stored_in_reg : Z) := SetRule reg (RR_InRegister (u8 stored_in_reg)).
Definition tb_HandleSameValue (reg : Z) := SetRule reg RR_SameValue.
Definition tb_HandleUndefined (reg : Z) := SetRule reg RR_Undefined.
Definition tb_HandleValOffset (reg offset : Z) := SetRule reg (RR_ValOffset (s64 offset)).
Definition tb_HandleExpression (reg : Z) (expr : list Z) := SetRule reg RR_Expression.
Definition tb_HandleValExpression (reg : Z) (expr : list Z) := SetRule reg RR_ValExpression.

Definition tb_HandleRestore (reg : Z) (b : TableBuilder) :=
  go_on (if kNumDWARFRegs <=? reg then with_result cfi_exotic b
         else with_regs (<[Z.to_nat reg := default RR_Unset (cie_regs_ b !! Z.to_nat reg)]>
                           (cur_regs_ b)) b).

Definition tb_HandleRememberState (b : TableBuilder) : res (bool * TableBuilder) :=
  if bool_decide (32 ≤ length (stack_ b))%nat then
    fail "DW_CFA_remember_state nested deeper than 32 levels"
  else go_on (with_stack (mkSaved (cur_cfa_ b) (cur_regs_ b) :: stack_ b) b).

Definition tb_HandleRestoreState (b : TableBuilder) : res (bool * TableBuilder) :=
  match stack_ b with
  | [] => fail "DW_CFA_restore_state with nothing remembered"
  | s :: rest => go_on (with_stack rest (with_regs (saved_regs s) (with_cfa (saved_cfa s) b)))
  end.

#[export] Instance TableBuilder_visitor : UnwindVisitor TableBuilder := {
  StartFDE := tb_StartFDE;
  HandleAugS := tb_HandleAugS;
  AfterCIE := tb_AfterCIE;
  HandleLSDA := tb_HandleLSDA;
  HandleSetLoc := tb_HandleSetLoc;
  HandleDefCFA := tb_HandleDefCFA;
  HandleDefCFAReg := tb_HandleDefCFAReg;
  HandleDefCFAOffset := tb_HandleDefCFAOffset;
  HandleDefCFAExpression := tb_HandleDefCFAExpression;
  HandleOffset := tb_HandleOffset;
  HandleRegister := tb_HandleRegister;
  HandleRestore := tb_HandleRestore;
  HandleSameValue := tb_HandleSameValue;
  HandleUndefined := tb_HandleUndefined;
  HandleValOffset := tb_HandleValOffset;
  HandleExpression := tb_HandleExpression;
  HandleValExpression := tb_HandleValExpression;
  HandleRememberState := tb_HandleRememberState;
  HandleRestoreState := tb_HandleRestoreState
}.

(** ** [ReadFDE] *)

Definition ReadFDE (mem : Z → Z) (fde_vaddr eh_frame_start eh_frame_end bias : Z) : res CFI :=
  let inp := mkInputs 0 0 (u64 (eh_frame_start + bias)) (u64 (eh_frame_end + bias)) in
  b ← DecodeFDEAt mem inp (u64 (fde_vaddr + bias)) (new_builder fde_vaddr bias);
  let result := result_ b in
  if bool_decide (rows result = []) && (pc_begin result <? pc_end result) then
    fail ("FDE at 0x" +:+ fmt_0x 16 fde_vaddr +:+ " produced no rows")
  else mret result.
