(* ===== verification/EhFrameFacts.v ===== *)
(** * Theorems about the .eh_frame reader

    Termination of the opcode loop and of the section walk, and the
    refinement of the byte-level opcode decoder by an abstract CFI machine
    that works on instructions instead of bytes. *)

From S2P Require Import Prelude EhFrame Leb128.

(** ** Reads do not grow the slice, and do not run out of fuel *)

Definition remaining (s : slice) : nat := length (sl_bytes s).

(** [shrinks r s] : whatever the read [r] of [s] returns, it returns at most
    the bytes [s] had. *)
Definition shrinks {A} (r : res (A * slice)) (s : slice) : Prop :=
  no_fuel r ∧ ∀ v s', r = Ok (v, s') → (remaining s' ≤ remaining s)%nat.

Lemma ReadObject_remaining n s v s' :
  ReadObject n s = Ok (v, s') → (remaining s' + n = remaining s)%nat.
Proof.
  unfold ReadObject, remaining. case_bool_decide; [done|]. intros [= <- <-].
  cbn. rewrite length_drop. lia.
Qed.

Lemma ReadObject_shrinks n s : shrinks (ReadObject n s) s.
Proof.
  split; [unfold ReadObject; by case_bool_decide|].
  intros v s' H. apply ReadObject_remaining in H. lia.
Qed.

Lemma uleb_loop_no_fuel bs a sh r : no_fuel (uleb_loop bs a sh r).
Proof.
  revert a sh r. induction bs as [|b bs IH]; intros; cbn [uleb_loop]; repeat split_match; try done.
Qed.
Lemma sleb_loop_no_fuel bs a sh r : no_fuel (sleb_loop bs a sh r).
Proof.
  revert a sh r. induction bs as [|b bs IH]; intros; cbn [sleb_loop]; repeat split_match; try done.
Qed.

Lemma ReadUleb128_shrinks s : shrinks (ReadUleb128 s) s.
Proof.
  split; [apply uleb_loop_no_fuel|]. intros v s' H.
  apply ReadUleb128_reads, leb_reads_shorter in H. unfold remaining. lia.
Qed.
Lemma ReadSleb128_shrinks s : shrinks (ReadSleb128 s) s.
Proof.
  split; [apply sleb_loop_no_fuel|]. intros v s' H.
  apply ReadSleb128_reads, leb_reads_shorter in H. unfold remaining. lia.
Qed.

Lemma ReadSubslice_shrinks n s : shrinks (ReadSubslice n s) s.
Proof.
  unfold ReadSubslice, shrinks, remaining. destruct (_ <? n); [done|].
  split; [done|]. intros v s' [= <- <-]. cbn. rewrite length_drop. lia.
Qed.

Lemma shrinks_bind {A B} (r : res (A * slice)) (f : A * slice → res (B * slice)) s :
  shrinks r s → (∀ v s', (remaining s' ≤ remaining s)%nat → shrinks (f (v, s')) s') →
  shrinks (r ≫= f) s.
Proof.
  intros [Hn Hr] Hf. destruct r as [[v s']|e]; cbn.
  - specialize (Hr _ _ eq_refl). destruct (Hf v s' Hr) as [H1 H2].
    split; [done|]. intros v' s'' E. apply H2 in E. lia.
  - split; [|done]. intros [= ->]. by destruct Hn.
Qed.

Lemma shrinks_ret {A} (v : A) s : shrinks (mret (v, s)) s.
Proof. split; [done|]. intros ? ? [= <- <-]. done. Qed.
Lemma shrinks_fail {A} msg s : shrinks (fail msg : res (A * slice)) s.
Proof. done. Qed.

#[export] Hint Resolve ReadObject_shrinks ReadUleb128_shrinks ReadSleb128_shrinks
  ReadSubslice_shrinks shrinks_ret shrinks_fail : uw.

Lemma ReadEncodedPtr_shrinks s enc : shrinks (ReadEncodedPtr s enc) s.
Proof.
  unfold ReadEncodedPtr, bad_encoding. repeat case_match; auto with uw;
    apply shrinks_bind; auto with uw.
Qed.
#[export] Hint Resolve ReadEncodedPtr_shrinks : uw.

(** ** Handlers that do not run out of fuel *)

Class VisitorTotal (V : Type) `{UnwindVisitor V} := {
  StartFDE_total : ∀ a b c v, no_fuel (StartFDE a b c v);
  HandleAugS_total : ∀ v, no_fuel (HandleAugS v);
  AfterCIE_total : ∀ v, no_fuel (AfterCIE v);
  HandleLSDA_total : ∀ a v, no_fuel (HandleLSDA a v);
  HandleSetLoc_total : ∀ a v, no_fuel (HandleSetLoc a v);
  HandleDefCFA_total : ∀ a b v, no_fuel (HandleDefCFA a b v);
  HandleDefCFAReg_total : ∀ a v, no_fuel (HandleDefCFAReg a v);
  HandleDefCFAOffset_total : ∀ a v, no_fuel (HandleDefCFAOffset a v);
  HandleDefCFAExpression_total : ∀ a v, no_fuel (HandleDefCFAExpression a v);
  HandleOffset_total : ∀ a b v, no_fuel (HandleOffset a b v);
  HandleRegister_total : ∀ a b v, no_fuel (HandleRegister a b v);
  HandleRestore_total : ∀ a v, no_fuel (HandleRestore a v);
  HandleSameValue_total : ∀ a v, no_fuel (HandleSameValue a v);
  HandleUndefined_total : ∀ a v, no_fuel (HandleUndefined a v);
  HandleValOffset_total : ∀ a b v, no_fuel (HandleValOffset a b v);
  HandleExpression_total : ∀ a b v, no_fuel (HandleExpression a b v);
  HandleValExpression_total : ∀ a b v, no_fuel (HandleValExpression a b v);
  HandleRememberState_total : ∀ v, no_fuel (HandleRememberState v);
  HandleRestoreState_total : ∀ v, no_fuel (HandleRestoreState v)
}.
#[export] Hint Resolve StartFDE_total HandleAugS_total AfterCIE_total HandleLSDA_total
  HandleSetLoc_total HandleDefCFA_total HandleDefCFAReg_total HandleDefCFAOffset_total
  HandleDefCFAExpression_total HandleOffset_total HandleRegister_total HandleRestore_total
  HandleSameValue_total HandleUndefined_total HandleValOffset_total HandleExpression_total
  HandleValExpression_total HandleRememberState_total HandleRestoreState_total : uw.

Section termination.
Context {V : Type} `{VisitorTotal V}.

(** What one opcode's outcome guarantees: no fuel used up, no bytes gained. *)
Definition steps (r : res (@outcome V)) (s : slice) : Prop :=
  no_fuel r ∧ ∀ b s' st v, r = Ok (b, s', st, v) → (remaining s' ≤ remaining s)%nat.

Lemma steps_read {A} (r : res (A * slice)) (f : A * slice → res outcome) s :
  shrinks r s → (∀ v s', (remaining s' ≤ remaining s)%nat → steps (f (v, s')) s') →
  steps (r ≫= f) s.
Proof.
  intros [Hn Hr] Hf. destruct r as [[v s']|e]; cbn.
  - specialize (Hr _ _ eq_refl). destruct (Hf v s' Hr) as [H1 H2].
    split; [done|]. intros b s'' st v' E. apply H2 in E. lia.
  - split; [|done]. intros [= ->]. by destruct Hn.
Qed.

Lemma steps_visit r s st : no_fuel r → steps (visit r s st) s.
Proof.
  intros Hn. unfold visit, steps. destruct r as [[b v]|e]; cbn.
  - split; [done|]. intros ? ? ? ? [= <- <- <- <-]. done.
  - split; [|done]. intros [= ->]. by destruct Hn.
Qed.

Lemma DoSetLoc_no_fuel loc is_cie st v : no_fuel (DoSetLoc loc is_cie st v).
Proof.
  unfold DoSetLoc. destruct is_cie; [done|].
  apply no_fuel_bind; [auto with uw|]. by intros [? ?] _.
Qed.

Lemma steps_locate loc is_cie s st v : steps (locate loc is_cie s st v) s.
Proof.
  unfold locate, steps. pose proof (DoSetLoc_no_fuel loc is_cie st v) as Hn.
  destruct (DoSetLoc loc is_cie st v) as [[[b st'] v']|e]; cbn.
  - split; [done|]. intros ? ? ? ? [= <- <- <- <-]. done.
  - split; [|done]. intros [= ->]. by destruct Hn.
Qed.

Lemma steps_ret b s st (v : V) : steps (mret (b, s, st, v)) s.
Proof. split; [done|]. intros ? ? ? ? [= <- <- <- <-]. done. Qed.
Lemma steps_fail msg s : steps (fail msg) s.
Proof. done. Qed.
Hint Resolve steps_visit steps_locate steps_ret steps_fail : uw.

Ltac solve_steps :=
  repeat first
    [ progress intros
    | apply steps_read; [by auto with uw|]
    | by auto with uw
    | case_match ].

Lemma run_primary_steps opcode is_cie s st v r :
  run_primary opcode is_cie s st v = Some r → steps r s.
Proof. unfold run_primary. intros E. repeat case_match; simplify_eq; solve_steps. Qed.
Lemma run_loc_steps opcode is_cie s st v r :
  run_loc opcode is_cie s st v = Some r → steps r s.
Proof. unfold run_loc. intros E. repeat case_match; simplify_eq; solve_steps. Qed.
Lemma run_saved_steps opcode s st v r : run_saved opcode s st v = Some r → steps r s.
Proof. unfold run_saved. intros E. repeat case_match; simplify_eq; solve_steps. Qed.
Lemma run_def_cfa_steps opcode s st v r : run_def_cfa opcode s st v = Some r → steps r s.
Proof. unfold run_def_cfa. intros E. repeat case_match; simplify_eq; solve_steps. Qed.
Lemma run_rule_steps opcode s st v r : run_rule opcode s st v = Some r → steps r s.
Proof. unfold run_rule. intros E. repeat case_match; simplify_eq; solve_steps. Qed.

Lemma run_opcode_steps is_cie s st v :
  no_fuel (run_opcode is_cie s st v) ∧
  ∀ b s' st' v', run_opcode is_cie s st v = Ok (b, s', st', v') → (remaining s' < remaining s)%nat.
Proof.
  unfold run_opcode. destruct (ReadObject 1 s) as [[opcode s1]|e] eqn:E1; cbn.
  2:{ split; [|done]. intros [= ->]. by destruct (ReadObject_shrinks 1 s) as [[] _]. }
  apply ReadObject_remaining in E1.
  assert (∀ r, steps r s1 → no_fuel r ∧ ∀ b s' st' v',
    r = Ok (b, s', st', v') → (remaining s' < remaining s)%nat) as Hs.
  { intros r [H1 H2]. split; [done|]. intros b s' st' v' Hr. apply H2 in Hr. lia. }
  apply Hs. unfold first_some. repeat case_match; simplify_eq;
    eauto using run_primary_steps, run_loc_steps, run_saved_steps, run_def_cfa_steps,
      run_rule_steps, steps_fail.
Qed.

Lemma run_loop_no_fuel fuel is_cie s st v :
  (remaining s ≤ fuel)%nat → no_fuel (run_loop fuel is_cie s st v).
Proof.
  revert s st v. induction fuel as [|fuel IH]; intros s st v Hf; cbn [run_loop];
    (case_bool_decide as Hs;
     [destruct is_cie; [done|apply (DoSetLoc_no_fuel _ false)]|]).
  - unfold remaining in Hf. destruct (sl_bytes s); [done|cbn in Hf; lia].
  - destruct (run_opcode_steps is_cie s st v) as [Hn Hlt].
    apply no_fuel_bind; [done|]. intros [[[[] s'] st'] v'] E; [|done].
    apply Hlt in E. apply IH. lia.
Qed.

(** *** Headers *)

Ltac nf :=
  repeat first
    [ progress intros
    | by auto with uw
    | apply no_fuel_bind
    | by (eapply proj1; auto with uw)
    | case_match ].

Lemma MakeSlice_no_fuel mem inp a : no_fuel (MakeSlice mem inp a).
Proof. unfold MakeSlice. nf. Qed.
Lemma TruncateSlice_no_fuel s n : no_fuel (TruncateSlice s n).
Proof. unfold TruncateSlice. nf. Qed.
Lemma ReadASCIIZ_no_fuel s n : no_fuel (ReadASCIIZ s n).
Proof. unfold ReadASCIIZ. nf. Qed.
Lemma read_no_fuel {A} (r : res (A * slice)) s : shrinks r s → no_fuel r.
Proof. by intros []. Qed.

Hint Resolve MakeSlice_no_fuel TruncateSlice_no_fuel ReadASCIIZ_no_fuel : uw.
Hint Extern 2 (no_fuel (ReadObject _ ?s)) => apply (read_no_fuel _ s) : uw.
Hint Extern 2 (no_fuel (ReadUleb128 ?s)) => apply (read_no_fuel _ s) : uw.
Hint Extern 2 (no_fuel (ReadSleb128 ?s)) => apply (read_no_fuel _ s) : uw.
Hint Extern 2 (no_fuel (ReadSubslice _ ?s)) => apply (read_no_fuel _ s) : uw.
Hint Extern 2 (no_fuel (ReadEncodedPtr ?s _)) => apply (read_no_fuel _ s) : uw.

Lemma ParseCIE_no_fuel s : no_fuel (ParseCIE s).
Proof. unfold ParseCIE. nf. Qed.

Lemma aug_loop_no_fuel chars aug fe le (v : V) : no_fuel (aug_loop chars aug fe le v).
Proof.
  revert aug fe le v. induction chars as [|ch chars IH]; intros; cbn [aug_loop]; [done|]. nf.
Qed.
Hint Resolve ParseCIE_no_fuel aug_loop_no_fuel : uw.

Lemma ParseAug_no_fuel aug cie (v : V) : no_fuel (ParseAug aug cie v).
Proof. unfold ParseAug. nf. Qed.
Lemma ParseFDEAug_no_fuel aug le fde (v : V) : no_fuel (ParseFDEAug aug le fde v).
Proof. unfold ParseFDEAug. nf. Qed.
Lemma RunInstructions_no_fuel s is_cie st (v : V) : no_fuel (RunInstructions s is_cie st v).
Proof. by apply run_loop_no_fuel. Qed.
Hint Resolve ParseAug_no_fuel ParseFDEAug_no_fuel RunInstructions_no_fuel : uw.

Lemma DecodeBody_no_fuel inp ma ci fe le cie fde (v : V) :
  no_fuel (DecodeBody inp ma ci fe le cie fde v).
Proof. unfold DecodeBody. nf. Qed.
Hint Resolve DecodeBody_no_fuel : uw.

Lemma ParseFDE_no_fuel mem inp ma a (v : V) : no_fuel (ParseFDE mem inp ma a v).
Proof. unfold ParseFDE. nf. Qed.
End termination.

(** ** Invariants of a visitor

    [keeps I r] : the handler call [r] returns, if it returns, a visitor that
    satisfies [I].  A decoder run threads the visitor through handler calls
    only, so an invariant of the handlers is an invariant of the run: [I0]
    holds before [StartFDE], [I1] after it. *)

Definition keeps {V} (I : V → Prop) (r : res (bool * V)) : Prop :=
  ∀ b v, r = Ok (b, v) → I v.

Record preserved {V} `{UnwindVisitor V} (I : V → Prop) : Prop := {
  pr_AfterCIE : ∀ v, I v → keeps I (AfterCIE v);
  pr_HandleLSDA : ∀ a v, I v → keeps I (HandleLSDA a v);
  pr_HandleSetLoc : ∀ a v, I v → keeps I (HandleSetLoc a v);
  pr_HandleDefCFA : ∀ a b v, I v → keeps I (HandleDefCFA a b v);
  pr_HandleDefCFAReg : ∀ a v, I v → keeps I (HandleDefCFAReg a v);
  pr_HandleDefCFAOffset : ∀ a v, I v → keeps I (HandleDefCFAOffset a v);
  pr_HandleDefCFAExpression : ∀ a v, I v → keeps I (HandleDefCFAExpression a v);
  pr_HandleOffset : ∀ a b v, I v → keeps I (HandleOffset a b v);
  pr_HandleRegister : ∀ a b v, I v → keeps I (HandleRegister a b v);
  pr_HandleRestore : ∀ a v, I v → keeps I (HandleRestore a v);
  pr_HandleSameValue : ∀ a v, I v → keeps I (HandleSameValue a v);
  pr_HandleUndefined : ∀ a v, I v → keeps I (HandleUndefined a v);
  pr_HandleValOffset : ∀ a b v, I v → keeps I (HandleValOffset a b v);
  pr_HandleExpression : ∀ a b v, I v → keeps I (HandleExpression a b v);
  pr_HandleValExpression : ∀ a b v, I v → keeps I (HandleValExpression a b v);
  pr_HandleRememberState : ∀ v, I v → keeps I (HandleRememberState v);
  pr_HandleRestoreState : ∀ v, I v → keeps I (HandleRestoreState v)
}.
Create HintDb uwinv.
#[export] Hint Resolve pr_AfterCIE pr_HandleLSDA pr_HandleSetLoc pr_HandleDefCFA
  pr_HandleDefCFAReg pr_HandleDefCFAOffset pr_HandleDefCFAExpression pr_HandleOffset
  pr_HandleRegister pr_HandleRestore pr_HandleSameValue pr_HandleUndefined pr_HandleValOffset
  pr_HandleExpression pr_HandleValExpression pr_HandleRememberState pr_HandleRestoreState : uwinv.

Section invariant.
Context {V : Type} `{UnwindVisitor V} (I0 I1 : V → Prop).
Hypothesis start : ∀ a b c v, I0 v → keeps I1 (StartFDE a b c v).
Hypothesis aug : ∀ v, I0 v → keeps I0 (HandleAugS v).
Hypothesis pres : preserved I1.

(** The visitor inside an outcome. *)
Definition keeps_out (r : res (@outcome V)) : Prop :=
  ∀ b s st v, r = Ok (b, s, st, v) → I1 v.

Lemma keeps_out_visit r s st : keeps I1 r → keeps_out (visit r s st).
Proof. intros Hk b s' st' v E. unfold visit in E. inv_ok. destruct a. inv_ok. simplify_eq. eauto. Qed.
Lemma keeps_DoSetLoc loc is_cie st v b st' v' :
  I1 v → DoSetLoc loc is_cie st v = Ok (b, st', v') → I1 v'.
Proof.
  unfold DoSetLoc. intros Hv E. destruct is_cie; [done|]. inv_ok. destruct a. simplify_eq.
  inv_ok. simplify_eq. eapply pr_HandleSetLoc; eauto.
Qed.
Lemma keeps_out_locate loc is_cie s st v : I1 v → keeps_out (locate loc is_cie s st v).
Proof.
  intros Hv b s' st' v' E. unfold locate in E. inv_ok. destruct a as [[? ?] ?]. inv_ok.
  simplify_eq. eauto using keeps_DoSetLoc.
Qed.
Lemma keeps_out_ret b s st v : I1 v → keeps_out (mret (b, s, st, v)).
Proof. intros Hv ? ? ? ? [= <- <- <- <-]. done. Qed.
Lemma keeps_out_fail msg : keeps_out (fail msg).
Proof. done. Qed.
Lemma keeps_out_bind {A} (r : res A) f : (∀ x, keeps_out (f x)) → keeps_out (r ≫= f).
Proof. intros Hf b s st v E. inv_ok. eapply Hf; eauto. Qed.
Hint Resolve keeps_out_visit keeps_out_locate keeps_out_ret keeps_out_fail : uwinv.

Ltac solve_keeps :=
  repeat first [ progress intros | by eauto with uwinv | apply keeps_out_bind | case_match ].

(** The dispatch: whichever case is chosen keeps the invariant. *)
Definition keeps_case (o : option (res outcome)) : Prop := ∀ r, o = Some r → keeps_out r.
Lemma keeps_case_none : keeps_case None.
Proof. done. Qed.
Lemma keeps_case_if (b : bool) r o : keeps_out r → keeps_case o → keeps_case (if b then Some r else o).
Proof. intros Hr Ho. destruct b; [|done]. by intros ? [= <-]. Qed.
Lemma keeps_case_first a b : keeps_case a → keeps_case b → keeps_case (first_some a b).
Proof. intros Ha Hb. by destruct a. Qed.

Lemma run_opcode_keeps is_cie s st v : I1 v → keeps_out (run_opcode is_cie s st v).
Proof.
  intros Hv. unfold run_opcode. apply keeps_out_bind. intros [opcode s1].
  assert (keeps_case (first_some (run_primary opcode is_cie s1 st v) (first_some (run_loc opcode is_cie s1 st v)
    (first_some (run_saved opcode s1 st v) (first_some (run_def_cfa opcode s1 st v) (run_rule opcode s1 st v))))))
    as Hall.
  { repeat apply keeps_case_first; unfold run_primary, run_loc, run_saved, run_def_cfa, run_rule;
      repeat (refine (keeps_case_if _ _ _ _ _) || exact keeps_case_none); solve_keeps. }
  destruct (first_some _ _) as [r|]; [by apply Hall|by eauto with uwinv].
Qed.

Lemma run_loop_keeps fuel is_cie s st v b st' v' :
  I1 v → run_loop fuel is_cie s st v = Ok (b, st', v') → I1 v'.
Proof.
  revert s st v. induction fuel as [|fuel IH]; intros s st v Hv; cbn [run_loop];
    (case_bool_decide; [destruct is_cie; [by intros [= <- <- <-]|by eapply keeps_DoSetLoc]|]).
  - done.
  - intros E. inv_ok. destruct a as [[[go s1] st1] v1]. apply run_opcode_keeps in Ha; [|done].
    destruct go; [by eapply IH|]. inv_ok. by simplify_eq.
Qed.

Definition aug_kept (r : (Z * Z * V) + V) : Prop :=
  match r with inl (_, _, v) => I0 v | inr v => I0 v end.

Lemma aug_loop_keeps chars a fe le v r :
  I0 v → aug_loop chars a fe le v = Ok r → aug_kept r.
Proof.
  revert a fe le v. induction chars as [|ch chars IH]; intros a fe le v Hv; cbn [aug_loop].
  { by intros [= <-]. }
  destruct (ch =? 82); [intros E; inv_ok; destruct a0; inv_ok; by simplify_eq|].
  destruct (ch =? 76); [intros E; inv_ok; destruct a0; by eapply IH|].
  destruct (ch =? 83).
  { intros E. inv_ok. destruct a0 as [b v1]. apply aug in Ha; [|done].
    destruct b; [by eapply IH|]. inv_ok. by simplify_eq. }
  destruct (ch =? 66); [by apply IH|].
  destruct (ch =? 80); [|done].
  intros E. inv_ok. destruct a0. inv_ok. destruct a0. by eapply IH.
Qed.

Lemma ParseAug_keeps aug_str cie v r :
  I0 v → ParseAug aug_str cie v = Ok r →
  match r with inl (_, _, v, _) => I0 v | inr v => I0 v end.
Proof.
  intros Hv. unfold ParseAug. destruct aug_str as [|z chars]; [by intros [= <-]|].
  destruct (negb _); [done|]. intros E. inv_ok. destruct a as [l c1]. inv_ok. destruct a as [d c2].
  inv_ok. apply aug_loop_keeps in Ha1; [|done]. destruct a as [[[fe le] v1]|v1]; by inv_ok.
Qed.

Lemma ParseFDEAug_keeps aug_str le fde v b fde' v' :
  I1 v → ParseFDEAug aug_str le fde v = Ok (b, fde', v') → I1 v'.
Proof.
  intros Hv. unfold ParseFDEAug. case_bool_decide; [|by intros [= <- <- <-]].
  intros E. inv_ok. destruct a as [l c1]. inv_ok. destruct a as [d c2].
  destruct (negb _); [|by inv_ok; simplify_eq]. inv_ok. destruct a. inv_ok. destruct a.
  inv_ok. simplify_eq. eapply pr_HandleLSDA; eauto.
Qed.

Lemma DecodeBody_keeps inp ma ci fe le cie fde v v' :
  I0 v → DecodeBody inp ma ci fe le cie fde v = Ok v' → I0 v' ∨ I1 v'.
Proof.
  intros Hv. unfold DecodeBody. intros E. inv_ok. destruct a as [ps f1]. inv_ok.
  destruct a as [pr f2]. cbv zeta in E. destruct (negb ma && _); [inv_ok; by left|]. right.
  inv_ok. destruct a as [b1 v1]. apply start in Ha1; [|done].
  destruct b1; cbn [negb] in E; [|by inv_ok]. inv_ok. destruct a as [[b2 st2] v2].
  apply run_loop_keeps in Ha2; [|done]. destruct b2; cbn [negb] in E; [|by inv_ok]. inv_ok.
  destruct a as [[b3 f3] v3]. apply ParseFDEAug_keeps in Ha3; [|done].
  destruct b3; cbn [negb] in E; [|by inv_ok]. inv_ok. destruct a as [b4 v4].
  apply (pr_AfterCIE _ pres) in Ha4; [|done]. destruct b4; cbn [negb] in E; [|by inv_ok]. inv_ok.
  destruct a as [[b5 st5] v5]. apply run_loop_keeps in Ha5; [|done]. by inv_ok.
Qed.

Lemma ParseFDE_keeps mem inp ma a v v' :
  I0 v → ParseFDE mem inp ma a v = Ok v' → I0 v' ∨ I1 v'.
Proof.
  intros Hv. unfold ParseFDE. intros E. inv_ok. destruct a1 as [len f1].
  destruct (len =? 0xffffffff); [done|]. destruct (len =? 0); [done|]. inv_ok.
  destruct a2 as [co f2]. inv_ok. apply ParseAug_keeps in Ha5; [|done].
  destruct a4 as [[[[fe le] v1] cie]|v1]; [by eapply DecodeBody_keeps|]. inv_ok. by left.
Qed.
End invariant.

(** ** The records of the section *)

Section Enumerate.
Context (mem : Z → Z) (end_ : Z) (Hend : is_u64 end_).

Definition record_end (a : Z) : Z := u64 (u64 (a + 4) + read_mem mem a 4).
Definition record_id (a : Z) : Z := read_mem mem (u64 (a + 4)) 4.

(** The records a walk from [p] passes: the next one starts where the last
    one ends, up to the terminator or the end of the section. *)
Inductive on_chain (p : Z) : Z → Prop :=
  | chain_here : on_chain p p
  | chain_next q : u64 (p + 8) <= end_ → read_mem mem p 4 ≠ 0 → on_chain (record_end p) q → on_chain p q.

Record enumerated (p : Z) (r : list Z * option error) : Prop := {
  en_fuel : r.2 ≠ Some OutOfFuel;
  en_sorted : StronglySorted (fun a b => record_end a <= b) r.1;
  en_inside : Forall (fun a => p <= a < record_end a ∧ record_end a <= end_ ∧ record_id a ≠ 0) r.1;
  en_complete : r.2 = None → ∀ a, on_chain p a → u64 (a + 8) <= end_ → read_mem mem a 4 ≠ 0 →
    (a ∈ r.1 ↔ record_id a ≠ 0)
}.

Lemma enumerated_stop p err :
  err ≠ Some OutOfFuel → (err = None → u64 (p + 8) > end_ ∨ read_mem mem p 4 = 0) → enumerated p ([], err).
Proof.
  intros He Hn. split; cbn; [done|constructor|constructor|]. intros E a Hc H8 Hl. exfalso.
  specialize (Hn E). inversion Hc; subst; destruct Hn; lia || done.
Qed.

Lemma on_chain_after p a : on_chain p a → p = a ∨ on_chain (record_end p) a.
Proof. inversion 1; auto. Qed.

Lemma ReadU32_ok a what v : ReadU32 mem a end_ what = Ok v → v = read_mem mem a 4 ∧ u64 (a + 4) <= end_ ∧ a <= u64 (a + 4).
Proof. unfold ReadU32. case_match eqn:E; [done|]. intros [= <-]. apply orb_false_iff in E. lia. Qed.
Lemma ReadU32_fuel a what : ReadU32 mem a end_ what ≠ Throw OutOfFuel.
Proof. unfold ReadU32. by case_match. Qed.

Lemma enumerated_cons p r :
  p < record_end p <= end_ → enumerated (record_end p) r →
  enumerated p (if record_id p =? 0 then r.1 else p :: r.1, r.2).
Proof.
  intros Hp [H1 H2 H3 H4]. rewrite Forall_forall in H3.
  assert (∀ a, a ∈ r.1 → p < a) as Hgt by (intros a [Ha _]%H3; lia).
  split; cbn [fst snd].
  - done.
  - case_match; [done|]. constructor; [done|]. apply Forall_forall. intros a [Ha _]%H3. lia.
  - assert (Forall (fun a => p <= a < record_end a ∧ record_end a <= end_ ∧ record_id a ≠ 0) r.1) as Hr.
    { apply Forall_forall. intros a (? & ? & ?)%H3. split_and!; auto; lia. }
    case_match; [done|]. constructor; [|done]. split_and!; lia.
  - intros E a Hc H8 Hl. destruct (on_chain_after _ _ Hc) as [<-|Hc'].
    + destruct (record_id p =? 0) eqn:Ei; [|split; [lia|by left]].
      split; [|lia]. intros Hin. specialize (Hgt _ Hin). lia.
    + rewrite <-(H4 E a Hc' H8 Hl). case_match; [done|]. rewrite elem_of_cons. split; [|by right].
      intros [->|]; [|done]. apply (H4 E p Hc' H8 Hl). lia.
Qed.

Lemma enum_loop_spec fuel p :
  is_u64 p → (Z.to_nat (end_ - p) < fuel)%nat → enumerated p (enum_loop fuel mem p end_).
Proof.
  revert p. induction fuel as [|fuel IH]; intros p Hp Hf; [lia|]. cbn [enum_loop].
  destruct (u64 (p + 8) <=? end_) eqn:E8; cbn [negb]; [|apply enumerated_stop; [done|left; lia]].
  destruct (ReadU32 mem p end_ "record length") as [len|e] eqn:El.
  2: { apply enumerated_stop; [|done]. intros [= ->]. by apply ReadU32_fuel in El. }
  apply ReadU32_ok in El as (-> & _).
  destruct (read_mem mem p 4 =? 0) eqn:E0; [apply enumerated_stop; [done|right; lia]|].
  destruct (read_mem mem p 4 =? 0xffffffff); [by apply enumerated_stop|]. cbv zeta.
  change (u64 (u64 (p + 4) + read_mem mem p 4)) with (record_end p).
  destruct (record_end p <=? p) eqn:E1; [by apply enumerated_stop|].
  destruct (end_ <? record_end p) eqn:E2; [by apply enumerated_stop|]. cbn [orb].
  destruct (ReadU32 mem (u64 (p + 4)) end_ "CIE id") as [id|e] eqn:Ei.
  2: { apply enumerated_stop; [|done]. intros [= ->]. by apply ReadU32_fuel in Ei. }
  apply ReadU32_ok in Ei as (-> & _). change (read_mem mem (u64 (p + 4)) 4) with (record_id p).
  assert (enumerated (record_end p) (enum_loop fuel mem (record_end p) end_)) as Hr
    by (apply IH; [apply u64_range|lia]).
  destruct (enum_loop fuel mem (record_end p) end_) as [addrs err].
  apply (enumerated_cons p (addrs, err)); [lia|done].
Qed.
End Enumerate.

(** C20: the walk over [.eh_frame] terminates and is exact: it never runs out
    of turns, whatever the section holds; the FDEs it reports start and end
    inside the section, in order and without overlap, and none is a CIE;
    and when it does not throw, every record on the chain up to the
    terminator (or the end of the section) is reported unless it is a CIE. *)
Theorem EnumerateFDEs_exact mem start end_ :
  is_u64 start → is_u64 end_ → enumerated mem end_ start (EnumerateFDEs mem start end_).
Proof. intros Hs He. apply enum_loop_spec; [done..|]. lia. Qed.

(** A section of one CIE, one FDE and a terminator, at address 0. *)
Definition sample_section (a : Z) : Z :=
  default 0 ([4; 0; 0; 0; 0; 0; 0; 0; 4; 0; 0; 0; 12; 0; 0; 0; 0; 0; 0; 0; 0; 0; 0; 0] !! Z.to_nat a).
Example sample_section_fdes : EnumerateFDEs sample_section 0 24 = ([8], None).
Proof. vm_compute. reflexivity. Qed.

Lemma EnumerateFDEs_exact_witness : enumerated sample_section 24 0 (EnumerateFDEs sample_section 0 24).
Proof. apply (EnumerateFDEs_exact sample_section 0 24); unfold is_u64; lia. Defined.
