(* ===== verification/CfiProgram.v ===== *)
(** * CFI programs: the opcode decoder refines an instruction machine

    [RunInstructions] of [EhFrame] works on bytes.  This file states what it
    promises a visitor: a CFI program is a list of DWARF call-frame
    instructions, [encode] is their byte encoding, [exec] says which callback
    each one makes with which (already scaled) operands, and the decoder run
    on the encoding of a program makes exactly the program's calls, in order,
    stopping where a callback stops or throws. *)

From S2P Require Import Prelude EhFrame Leb128 EhFrameFacts.

(** ** Abstract syntax *)

Inductive cfa_insn :=
  | I_nop
  | I_set_loc (loc : Z)
  | I_advance (delta : Z)
  | I_advance1 (delta : Z)
  | I_advance2 (delta : Z)
  | I_advance4 (delta : Z)
  | I_offset (reg off : Z)
  | I_offset_ext (reg off : Z)
  | I_offset_ext_sf (reg off : Z)
  | I_restore (reg : Z)
  | I_restore_ext (reg : Z)
  | I_def_cfa (reg off : Z)
  | I_def_cfa_sf (reg off : Z)
  | I_def_cfa_register (reg : Z)
  | I_def_cfa_offset (off : Z)
  | I_def_cfa_offset_sf (off : Z)
  | I_def_cfa_expression (expr : list Z)
  | I_expression (reg : Z) (expr : list Z)
  | I_val_expression (reg : Z) (expr : list Z)
  | I_undefined (reg : Z)
  | I_same_value (reg : Z)
  | I_register (reg1 reg2 : Z)
  | I_remember_state
  | I_restore_state
  | I_val_offset (reg off : Z)
  | I_val_offset_sf (reg off : Z)
  | I_negate_ra_state
  | I_args_size (n : Z).

(** Operand ranges of each instruction's encoding. *)
Definition expr_ok (e : list Z) : Prop := is_u64 (Z.of_nat (length e)).
Definition insn_ok (i : cfa_insn) : Prop :=
  match i with
  | I_nop | I_remember_state | I_restore_state | I_negate_ra_state => True
  | I_set_loc l => is_u64 l
  | I_advance d => 0 <= d < 64
  | I_advance1 d => is_u8 d
  | I_advance2 d => 0 <= d < 65536
  | I_advance4 d => 0 <= d < 4294967296
  | I_offset r o => 0 <= r < 64 ∧ is_u64 o
  | I_restore r => 0 <= r < 64
  | I_offset_ext r o | I_def_cfa r o | I_val_offset r o | I_register r o => is_u64 r ∧ is_u64 o
  | I_offset_ext_sf r o | I_def_cfa_sf r o | I_val_offset_sf r o => is_u64 r ∧ is_s64 o
  | I_restore_ext r | I_def_cfa_register r | I_def_cfa_offset r | I_undefined r | I_same_value r
  | I_args_size r => is_u64 r
  | I_def_cfa_offset_sf o => is_s64 o
  | I_def_cfa_expression e => expr_ok e
  | I_expression r e | I_val_expression r e => is_u64 r ∧ expr_ok e
  end.

(** ** Encoding *)

Definition with_len (e : list Z) : list Z := uleb128 (Z.of_nat (length e)) ++ e.

Definition encode (i : cfa_insn) : list Z :=
  match i with
  | I_nop => [DW_CFA_nop]
  | I_set_loc l => DW_CFA_set_loc :: le_split 8 l
  | I_advance d => [DW_CFA_advance_loc + d]
  | I_advance1 d => DW_CFA_advance_loc1 :: le_split 1 d
  | I_advance2 d => DW_CFA_advance_loc2 :: le_split 2 d
  | I_advance4 d => DW_CFA_advance_loc4 :: le_split 4 d
  | I_offset r o => DW_CFA_offset + r :: uleb128 o
  | I_offset_ext r o => DW_CFA_offset_extended :: uleb128 r ++ uleb128 o
  | I_offset_ext_sf r o => DW_CFA_offset_extended_sf :: uleb128 r ++ sleb128 o
  | I_restore r => [DW_CFA_restore + r]
  | I_restore_ext r => DW_CFA_restore_extended :: uleb128 r
  | I_def_cfa r o => DW_CFA_def_cfa :: uleb128 r ++ uleb128 o
  | I_def_cfa_sf r o => DW_CFA_def_cfa_sf :: uleb128 r ++ sleb128 o
  | I_def_cfa_register r => DW_CFA_def_cfa_register :: uleb128 r
  | I_def_cfa_offset o => DW_CFA_def_cfa_offset :: uleb128 o
  | I_def_cfa_offset_sf o => DW_CFA_def_cfa_offset_sf :: sleb128 o
  | I_def_cfa_expression e => DW_CFA_def_cfa_expression :: with_len e
  | I_expression r e => DW_CFA_expression :: uleb128 r ++ with_len e
  | I_val_expression r e => DW_CFA_val_expression :: uleb128 r ++ with_len e
  | I_undefined r => DW_CFA_undefined :: uleb128 r
  | I_same_value r => DW_CFA_same_value :: uleb128 r
  | I_register r1 r2 => DW_CFA_register :: uleb128 r1 ++ uleb128 r2
  | I_remember_state => [DW_CFA_remember_state]
  | I_restore_state => [DW_CFA_restore_state]
  | I_val_offset r o => DW_CFA_val_offset :: uleb128 r ++ uleb128 o
  | I_val_offset_sf r o => DW_CFA_val_offset_sf :: uleb128 r ++ sleb128 o
  | I_negate_ra_state => [DW_CFA_AARCH64_negate_ra_state]
  | I_args_size n => DW_CFA_GNU_args_size :: uleb128 n
  end.

Definition encode_program (p : list cfa_insn) : list Z := concat (encode <$> p).

(** ** Meaning *)

Section exec.
Context {V : Type} `{UnwindVisitor V}.

Definition keep (st : EHReaderState) (r : res (bool * V)) : res (bool * EHReaderState * V) :=
  '(b, v) ← r; mret (b, st, v).

Lemma keep_ok st r go st' v : keep st r = Ok (go, st', v) → r = Ok (go, v) ∧ st' = st.
Proof. destruct r as [[? ?]|]; [|done]. by intros [= <- <- <-]. Qed.

(** Unsigned factored offsets are reinterpreted as signed before scaling;
    [def_cfa]'s and [def_cfa_offset]'s are not scaled at all. *)
Definition exec (is_cie : bool) (i : cfa_insn) (st : EHReaderState) (v : V) :
    res (bool * EHReaderState * V) :=
  match i with
  | I_nop | I_negate_ra_state | I_args_size _ => mret (true, st, v)
  | I_set_loc l =>
      if l <? current_loc st then fail "set_loc backward move" else DoSetLoc l is_cie st v
  | I_advance d | I_advance1 d | I_advance2 d | I_advance4 d =>
      DoSetLoc (advanced st d) is_cie st v
  | I_offset r o | I_offset_ext r o => keep st (HandleOffset r (scaled st (s64 o)) v)
  | I_offset_ext_sf r o => keep st (HandleOffset r (scaled st o) v)
  | I_restore r | I_restore_ext r => keep st (HandleRestore r v)
  | I_def_cfa r o => keep st (HandleDefCFA r o v)
  | I_def_cfa_sf r o => keep st (HandleDefCFA r (scaled st o) v)
  | I_def_cfa_register r => keep st (HandleDefCFAReg r v)
  | I_def_cfa_offset o => keep st (HandleDefCFAOffset o v)
  | I_def_cfa_offset_sf o => keep st (HandleDefCFAOffset (scaled st o) v)
  | I_def_cfa_expression e => keep st (HandleDefCFAExpression e v)
  | I_expression r e => keep st (HandleExpression r e v)
  | I_val_expression r e => keep st (HandleValExpression r e v)
  | I_undefined r => keep st (HandleUndefined r v)
  | I_same_value r => keep st (HandleSameValue r v)
  | I_register r1 r2 => keep st (HandleRegister r1 r2 v)
  | I_remember_state => keep st (HandleRememberState v)
  | I_restore_state => keep st (HandleRestoreState v)
  | I_val_offset r o => keep st (HandleValOffset r (scaled st (s64 o)) v)
  | I_val_offset_sf r o => keep st (HandleValOffset r (scaled st o) v)
  end.

(** A CIE program just ends; an FDE program ends by closing its last row at
    the end of the function. *)
Fixpoint exec_program (is_cie : bool) (p : list cfa_insn) (st : EHReaderState) (v : V) :
    res (bool * EHReaderState * V) :=
  match p with
  | [] => if is_cie then mret (true, st, v) else DoSetLoc (function_end st) false st v
  | i :: p =>
      '(go, st, v) ← exec is_cie i st v;
      if (go : bool) then exec_program is_cie p st v else mret (false, st, v)
  end.
End exec.

(** ** Reading back what was encoded *)

Lemma ReadObject_app n a z rest :
  0 <= z < 256 ^ Z.of_nat n →
  ReadObject n (mkSlice a (le_split n z ++ rest)) = Ok (z, mkSlice (a + Z.of_nat n) rest).
Proof.
  intros Hz. unfold ReadObject, subspan. cbn [sl_bytes sl_addr].
  rewrite bool_decide_eq_false_2 by (rewrite length_app, length_le_split; lia).
  rewrite take_app_length', drop_app_length' by (by rewrite length_le_split).
  by rewrite le_value_split.
Qed.

Lemma ReadObject_1 a b rest : ReadObject 1 (mkSlice a (b :: rest)) = Ok (b, mkSlice (a + 1) rest).
Proof. unfold ReadObject. cbn. by rewrite Z.add_0_r. Qed.

Lemma ReadSubslice_app a e rest :
  ReadSubslice (Z.of_nat (length e)) (mkSlice a (e ++ rest)) =
    Ok (mkSlice a e, mkSlice (a + Z.of_nat (length e)) rest).
Proof.
  unfold ReadSubslice, subspan. cbn [sl_bytes sl_addr].
  rewrite length_app, (proj2 (Z.ltb_ge _ _)), Nat2Z.id by lia.
  by rewrite take_app_length, drop_app_length.
Qed.

Lemma ReadEncodedPtr_abs a l rest :
  is_u64 l →
  ReadEncodedPtr (mkSlice a (le_split 8 l ++ rest)) DW_EH_PE_absptr =
    Ok (l, mkSlice (a + 8) rest).
Proof.
  intros Hl. unfold ReadEncodedPtr. cbn -[ReadObject u64 le_split Z.add].
  rewrite ReadObject_app by (change (256 ^ Z.of_nat 8) with 18446744073709551616; done).
  cbn -[u64 Z.add]. by rewrite u64_id.
Qed.

(** The two top bits select a primary opcode, the low six are its operand. *)
Lemma primary_bits d :
  0 <= d < 64 →
  Z.land (DW_CFA_advance_loc + d) 0x3f = d ∧ Z.land (DW_CFA_advance_loc + d) 0xc0 = DW_CFA_advance_loc ∧
  Z.land (DW_CFA_offset + d) 0x3f = d ∧ Z.land (DW_CFA_offset + d) 0xc0 = DW_CFA_offset ∧
  Z.land (DW_CFA_restore + d) 0x3f = d ∧ Z.land (DW_CFA_restore + d) 0xc0 = DW_CFA_restore.
Proof.
  intros Hd.
  assert (Forall (fun d =>
    Z.land (DW_CFA_advance_loc + d) 0x3f = d ∧ Z.land (DW_CFA_advance_loc + d) 0xc0 = DW_CFA_advance_loc ∧
    Z.land (DW_CFA_offset + d) 0x3f = d ∧ Z.land (DW_CFA_offset + d) 0xc0 = DW_CFA_offset ∧
    Z.land (DW_CFA_restore + d) 0x3f = d ∧ Z.land (DW_CFA_restore + d) 0xc0 = DW_CFA_restore)
    (seqZ 0 64)) as Hall by (apply (bool_decide_unpack _); vm_compute; exact I).
  rewrite Forall_forall in Hall. apply Hall, elem_of_seqZ. lia.
Qed.

Section refinement.
Context {V : Type} `{UnwindVisitor V}.

(** The abstract step, with the bytes after the instruction as the rest. *)
Definition exec_outcome (is_cie : bool) (i : cfa_insn) (a' : Z) (rest : list Z)
    (st : EHReaderState) (v : V) : res outcome :=
  '(b, st, v) ← exec is_cie i st v; mret (b, mkSlice a' rest, st, v).

Lemma visit_exec (r : res (bool * V)) a' rest st :
  visit r (mkSlice a' rest) st =
  '(b, st, v) ← keep st r; mret (b, mkSlice a' rest, st, v).
Proof. unfold visit, keep. by destruct r as [[b v]|e]. Qed.

(** An instruction whose opcode carries its operand. *)
Lemma run_primary_encode is_cie s st (v : V) d :
  0 <= d < 64 →
  run_primary (DW_CFA_advance_loc + d) is_cie s st v =
    Some (locate (advanced st d) is_cie s st v) ∧
  run_primary (DW_CFA_offset + d) is_cie s st v =
    Some ('(o, s) ← ReadUleb128 s; visit (HandleOffset d (scaled st (s64 o)) v) s st) ∧
  run_primary (DW_CFA_restore + d) is_cie s st v = Some (visit (HandleRestore d v) s st).
Proof.
  intros Hd. destruct (primary_bits d Hd) as (E1 & E2 & E3 & E4 & E5 & E6).
  unfold run_primary. by rewrite E1, E2, E3, E4, E5, E6.
Qed.

(** [DW_CFA_set_loc] reads an address in the CIE's encoding; [encode] gives it
    the plain one.  (Compilers do not emit it.) *)
Definition no_set_loc (i : cfa_insn) : Prop := match i with I_set_loc _ => False | _ => True end.
Definition encodable (st : EHReaderState) (p : list cfa_insn) : Prop :=
  fde_ptr_enc st = DW_EH_PE_absptr ∨ Forall no_set_loc p.

(** Evaluates the dispatch on a constant opcode, keeping the readers. *)
Ltac dispatch :=
  cbn -[visit locate ReadUleb128 ReadSleb128 ReadSubslice ReadEncodedPtr ReadObject scaled
        advanced with_len uleb128 sleb128 le_split DoSetLoc keep].
(** Reads the operands back. *)
Ltac read_back :=
  unfold with_len; rewrite <-?app_assoc;
  rewrite ?ReadUleb128_enc by done; cbn [mbind res_bind];
  rewrite ?ReadUleb128_enc, ?ReadSleb128_enc by done; cbn [mbind res_bind];
  rewrite ?ReadSubslice_app; cbn [mbind res_bind sl_bytes];
  rewrite ?ReadObject_app by (unfold is_u8 in *; cbn; lia); cbn [mbind res_bind].

Lemma run_opcode_encode is_cie i a rest st (v : V) :
  insn_ok i → fde_ptr_enc st = DW_EH_PE_absptr ∨ no_set_loc i →
  ∃ a', run_opcode is_cie (mkSlice a (encode i ++ rest)) st v =
        exec_outcome is_cie i a' rest st v.
Proof.
  intros Hok Henc. unfold run_opcode, exec_outcome.
  destruct i; cbn [insn_ok] in Hok; unfold expr_ok in Hok; destruct_and?;
    cbn [encode app]; rewrite ReadObject_1; cbn [mbind res_bind];
    try (rewrite (proj1 (run_primary_encode _ _ _ _ delta ltac:(lia))); by eexists);
    try (rewrite (proj2 (proj2 (run_primary_encode _ _ _ _ reg ltac:(lia))));
         eexists; apply visit_exec).
  6:{ (* offset *)
    rewrite (proj1 (proj2 (run_primary_encode _ _ _ _ reg ltac:(lia)))). cbn [first_some].
    rewrite ReadUleb128_enc by done. eexists. apply visit_exec. }
  2:{ (* set_loc *)
    destruct Henc as [Henc|[]]. dispatch. rewrite Henc, ReadEncodedPtr_abs by done. cbn [mbind res_bind].
    eexists. by destruct (loc <? current_loc st). }
  all: dispatch; read_back; eexists; first [reflexivity|apply visit_exec].
Qed.

Lemma exec_keeps_enc is_cie i st (v : V) b st' v' :
  exec is_cie i st v = Ok (b, st', v') → fde_ptr_enc st' = fde_ptr_enc st.
Proof.
  assert (∀ r, keep st r = Ok (b, st', v') → fde_ptr_enc st' = fde_ptr_enc st) as Hk.
  { intros [[? ?]|?]; cbn; [|done]. by intros [= _ <- _]. }
  assert (∀ l, DoSetLoc l is_cie st v = Ok (b, st', v') → fde_ptr_enc st' = fde_ptr_enc st) as Hl.
  { intros l. unfold DoSetLoc. destruct is_cie; [done|].
    destruct (HandleSetLoc l v) as [[? ?]|?]; cbn; [|done]. by intros [= _ <- _]. }
  destruct i; cbn [exec]; try apply Hk; try apply Hl; try (by intros [= _ <- _]).
  destruct (loc <? current_loc st); [done|apply Hl].
Qed.

Lemma run_loop_encode fuel is_cie p a st (v : V) :
  Forall insn_ok p → encodable st p →
  (length (encode_program p) ≤ fuel)%nat →
  run_loop fuel is_cie (mkSlice a (encode_program p)) st v = exec_program is_cie p st v.
Proof.
  intros Hok. revert fuel a st v. induction Hok as [|i p Hi _ IH]; intros fuel a st v Henc Hf.
  { by destruct fuel. }
  change (encode_program (i :: p)) with (encode i ++ encode_program p) in *.
  destruct (run_opcode_encode is_cie i a (encode_program p) st v) as [a' Hrun]; [done|by destruct Henc as [?|[??]%Forall_cons]; auto|].
  assert (1 ≤ length (encode i))%nat by (destruct i; cbn; lia).
  rewrite length_app in Hf. destruct fuel as [|fuel]; [lia|]. cbn [run_loop].
  rewrite bool_decide_eq_false_2
    by (cbn [sl_bytes]; intros E; apply (f_equal length) in E; rewrite length_app in E; cbn in E; lia).
  rewrite Hrun. unfold exec_outcome. cbn [exec_program].
  destruct (exec is_cie i st v) as [[[b st'] v']|e] eqn:E; cbn [mbind res_bind]; [|done].
  destruct b; cbn; [|done]. apply IH; [|lia]. apply exec_keeps_enc in E. unfold encodable. rewrite E.
  destruct Henc as [?|[??]%Forall_cons]; auto.
Qed.
End refinement.
