(* ===== verification/CfiRecord.v ===== *)
(** * The records a compiler emits

    A CIE and an FDE of [.eh_frame] as data, their layout as bytes
    ([encode_cie], [encode_fde]), and what decoding the FDE means: the calls
    of [struct UnwindVisitor] in order, with the two CFI programs run by the
    instruction machine of [CfiProgram].  [DecodeFDEAt_encoded]: on memory
    that holds the two records, [DecodeFDEAt] of [src/eh-frame-reader.h] does
    exactly that, for every visitor.  [CfiSection] composes it with the walk
    over the section. *)

From S2P Require Import Prelude EhFrame Leb128 EhFrameFacts CfiProgram.

(** ** Data *)

(** Pointers are 32-bit distances from the field that holds them, the only
    encoding that compilers for x86-64 use in shared code; the personality
    routine is reached through a pointer, and its value is ignored. *)
Record cie_desc := mkCieDesc {
  cd_code_align : Z;
  cd_data_align : Z;
  cd_return_reg : Z;
  cd_personality : option Z;
  cd_has_lsda : bool;
  cd_program : list cfa_insn
}.

Record fde_desc := mkFdeDesc {
  fd_start : Z;               (* from the field *)
  fd_size : Z;
  fd_lsda : Z;                (* from the field *)
  fd_program : list cfa_insn
}.

Definition is_s32 (x : Z) : Prop := - 2 ^ 31 <= x < 2 ^ 31.
Record cie_ok (cd : cie_desc) : Prop := {
  ok_code_align : is_u64 (cd_code_align cd) ∧ cd_code_align cd ≠ 0;
  ok_data_align : is_s64 (cd_data_align cd);
  ok_return_reg : is_u8 (cd_return_reg cd);
  ok_cie_program : Forall insn_ok (cd_program cd) ∧ Forall no_set_loc (cd_program cd)
}.
Record fde_ok (fd : fde_desc) : Prop := {
  ok_start : is_s32 (fd_start fd);
  ok_size : 0 <= fd_size fd < 2 ^ 31;
  ok_lsda : is_s32 (fd_lsda fd);
  ok_fde_program : Forall insn_ok (fd_program fd) ∧ Forall no_set_loc (fd_program fd)
}.

(** ** Layout *)

Definition enc_pcrel_sdata4 : Z := Z.lor DW_EH_PE_pcrel DW_EH_PE_sdata4.
Definition enc_indirect : Z := 0x80.

Definition sdata4 (x : Z) : list Z := le_split 4 (u32 x).
Definition with_length (body : list Z) : list Z := le_split 4 (Z.of_nat (length body)) ++ body.

Definition aug_string (cd : cie_desc) : list Z :=
  match cd_personality cd with Some _ => [80] | None => [] end ++ (if cd_has_lsda cd then [76] else []) ++ [82].
Definition aug_data (cd : cie_desc) : list Z :=
  match cd_personality cd with
  | Some p => Z.lor enc_indirect enc_pcrel_sdata4 :: sdata4 p
  | None => []
  end ++ (if cd_has_lsda cd then [enc_pcrel_sdata4] else []) ++ [enc_pcrel_sdata4].

(** After the record's length and CIE id. *)
Definition cie_payload (cd : cie_desc) : list Z :=
  1 :: (122 :: aug_string cd) ++ 0 :: uleb128 (cd_code_align cd) ++ sleb128 (cd_data_align cd)
    ++ cd_return_reg cd :: with_len (aug_data cd) ++ encode_program (cd_program cd).
Definition encode_cie (cd : cie_desc) : list Z := with_length (le_split 4 0 ++ cie_payload cd).

(** [cie_distance]: from the field after the length back to the CIE. *)
Definition fde_payload (cd : cie_desc) (fd : fde_desc) : list Z :=
  sdata4 (fd_start fd) ++ le_split 4 (fd_size fd)
    ++ with_len (if cd_has_lsda cd then sdata4 (fd_lsda fd) else []) ++ encode_program (fd_program fd).
Definition encode_fde (cd : cie_desc) (fd : fde_desc) (cie_distance : Z) : list Z :=
  with_length (le_split 4 cie_distance ++ fde_payload cd fd).

(** ** Meaning *)

Section meaning.
Context {V : Type} `{UnwindVisitor V}.

(** A call of the visitor that ends the walk when it says so. *)
Definition unless_stopped (r : res (bool * V)) (k : V → res V) : res V :=
  '(b, v) ← r; if negb b then mret v else k v.

(** Where the function starts, and where its LSDA is, given the address of
    the record's pc field and of its LSDA field. *)
Definition decode_fde (cd : cie_desc) (fd : fde_desc) (pc_field lsda_field : Z) (v : V) : res V :=
  let start := u64 (pc_field + fd_start fd) in
  let end_ := u64 (start + fd_size fd) in
  unless_stopped (StartFDE (cd_return_reg cd) start end_ v) (fun v =>
    '(b, st, v) ← exec_program true (cd_program cd)
                    (mkState start end_ (cd_code_align cd) (cd_data_align cd) enc_pcrel_sdata4) v;
    if negb b then mret v else
    unless_stopped (if cd_has_lsda cd then HandleLSDA (u64 (lsda_field + fd_lsda fd)) v else mret (true, v)) (fun v =>
      unless_stopped (AfterCIE v) (fun v =>
        '(_, _, v) ← exec_program false (fd_program fd) st v; mret v))).
End meaning.

(** ** Reading the pieces back *)

(** The memory at [a] holds the bytes [bs], inside the section. *)
Definition holds (mem : Z → Z) (inp : EHReaderInputs) (a : Z) (bs : list Z) : Prop :=
  in_eh_frame_start inp <= a ∧ a + Z.of_nat (length bs) <= in_eh_frame_end inp
  ∧ mem <$> seqZ a (Z.of_nat (length bs)) = bs.

Lemma MakeSlice_holds mem inp a bs :
  holds mem inp a bs → ∃ rest, MakeSlice mem inp a = Ok (mkSlice a (bs ++ rest)).
Proof.
  intros (Hs & He & Hb). unfold MakeSlice. rewrite (proj2 (Z.leb_le _ _) Hs), (proj2 (Z.leb_le a _)) by lia. cbn.
  exists (mem <$> seqZ (a + Z.of_nat (length bs)) (in_eh_frame_end inp - a - Z.of_nat (length bs))).
  replace (in_eh_frame_end inp - a)
    with (Z.of_nat (length bs) + (in_eh_frame_end inp - a - Z.of_nat (length bs))) at 1 by lia.
  by rewrite seqZ_app, fmap_app, Hb by lia.
Qed.

Lemma TruncateSlice_app a e rest :
  TruncateSlice (mkSlice a (e ++ rest)) (Z.of_nat (length e)) = Ok (mkSlice a e).
Proof.
  unfold TruncateSlice. cbn [sl_bytes sl_addr].
  by rewrite length_app, (proj2 (Z.ltb_ge _ _)), Nat2Z.id, take_app_length by lia.
Qed.

Lemma memchr0_app n str rest :
  (length str < n)%nat → Forall (fun c => c ≠ 0) str → memchr0 n (str ++ 0 :: rest) = Some str.
Proof.
  intros Hn Hs. revert n Hn. induction Hs as [|c str Hc Hs IH]; intros [|n] Hn; cbn in *; try lia; [done|].
  rewrite (proj2 (Z.eqb_neq _ _) Hc), IH by lia. done.
Qed.

Lemma ReadASCIIZ_app a str rest n :
  (length str < n)%nat → Forall (fun c => c ≠ 0) str →
  ReadASCIIZ (mkSlice a (str ++ 0 :: rest)) n = Ok (str, mkSlice (a + Z.of_nat (length str + 1)) rest).
Proof.
  intros Hn Hs. unfold ReadASCIIZ. cbn [sl_bytes]. rewrite memchr0_app; [|rewrite length_app; cbn; lia|done].
  unfold subspan. cbn [sl_bytes sl_addr]. by rewrite Nat.add_1_r, cons_middle, app_assoc, drop_app_length'
    by (rewrite length_app; cbn; lia).
Qed.

Lemma s32_u32 x : is_s32 x → s32 (u32 x) = x.
Proof. unfold is_s32. mach. Qed.
Lemma u32_range x : 0 <= u32 x < 256 ^ Z.of_nat 4.
Proof. change (256 ^ Z.of_nat 4) with (2 ^ 32). apply Z.mod_pos_bound. lia. Qed.

Lemma ReadEncodedPtr_pcrel a x rest :
  is_s32 x → ReadEncodedPtr (mkSlice a (sdata4 x ++ rest)) enc_pcrel_sdata4 = Ok (u64 (a + x), mkSlice (a + 4) rest).
Proof.
  intros Hx. unfold ReadEncodedPtr, sdata4. cbn -[ReadObject u64 s32 u32 le_split Z.add].
  rewrite ReadObject_app by apply u32_range. cbn -[u64 s32 u32 Z.add]. by rewrite s32_u32.
Qed.

Lemma ReadEncodedPtr_size a x rest :
  0 <= x < 2 ^ 31 →
  ReadEncodedPtr (mkSlice a (le_split 4 x ++ rest)) (Z.land enc_pcrel_sdata4 0x0f) = Ok (x, mkSlice (a + 4) rest).
Proof.
  intros Hx. unfold ReadEncodedPtr. cbn -[ReadObject u64 s32 le_split Z.add].
  rewrite ReadObject_app by (change (256 ^ Z.of_nat 4) with (2 ^ 32); lia). cbn -[u64 s32 Z.add].
  assert (s32 x = x) as -> by (change (2 ^ 31) with 2147483648 in Hx; mach). rewrite Z.add_0_l.
  rewrite u64_id; [done|]. unfold is_u64. lia.
Qed.

(** A record up to the field after its length. *)
Lemma read_record a body rest id more :
  body = le_split 4 id ++ more → 0 <= id < 2 ^ 32 → Z.of_nat (length body) < 0xffffffff →
  ∃ l, ReadObject 4 (mkSlice a (with_length body ++ rest)) = Ok (l, mkSlice (a + 4) (body ++ rest))
    ∧ l ≠ 0 ∧ l ≠ 0xffffffff
    ∧ TruncateSlice (mkSlice (a + 4) (body ++ rest)) l = Ok (mkSlice (a + 4) body)
    ∧ ReadObject 4 (mkSlice (a + 4) body) = Ok (id, mkSlice (a + 8) more).
Proof.
  intros Hb Hid Hl. exists (Z.of_nat (length body)).
  assert (4 <= Z.of_nat (length body)) by (rewrite Hb, length_app, length_le_split; lia).
  unfold with_length. rewrite <- app_assoc, ReadObject_app by (change (256 ^ Z.of_nat 4) with (2 ^ 32); lia).
  split_and!; [done|lia|lia|apply TruncateSlice_app|]. rewrite Hb, ReadObject_app; [|done].
  by rewrite <- Z.add_assoc.
Qed.

(** ** The CIE *)

Definition parsed_cie (cd : cie_desc) (s : slice) : cie_info :=
  mkCie s (122 :: aug_string cd) (cd_code_align cd) (cd_data_align cd) (cd_return_reg cd).
Definition cie_tail (cd : cie_desc) : list Z := with_len (aug_data cd) ++ encode_program (cd_program cd).

Lemma aug_string_short cd :
  (length (122%Z :: aug_string cd) < 16)%nat ∧ Forall (fun c => c ≠ 0) (122 :: aug_string cd).
Proof. unfold aug_string. destruct (cd_personality cd), (cd_has_lsda cd); cbn; split; try lia; by repeat constructor. Qed.

Lemma ParseCIE_encoded cd a rest :
  cie_ok cd → Z.of_nat (length (le_split 4 0 ++ cie_payload cd)) < 0xffffffff →
  ∃ a', ParseCIE (mkSlice a (encode_cie cd ++ rest)) = Ok (parsed_cie cd (mkSlice a' (cie_tail cd))).
Proof.
  intros [[Hc Hc0] Hd Hr _] Hl. unfold ParseCIE, encode_cie.
  destruct (read_record a _ rest 0 _ eq_refl ltac:(lia) Hl) as (l & -> & _ & Hne & Ht & Hid). cbn [mbind res_bind].
  rewrite (proj2 (Z.eqb_neq _ _) Hne), Ht. cbn [mbind res_bind]. rewrite Hid. cbn [mbind res_bind Z.eqb negb].
  unfold cie_payload. rewrite ReadObject_1. cbn [mbind res_bind Z.eqb Pos.eqb negb].
  destruct (aug_string_short cd). rewrite ReadASCIIZ_app by done. cbn [mbind res_bind].
  rewrite ReadUleb128_enc by done. cbn [mbind res_bind].
  rewrite ReadSleb128_enc by done. cbn [mbind res_bind].
  rewrite (proj2 (Z.eqb_neq _ _) Hc0), ReadObject_1. cbn [mbind res_bind]. by eexists.
Qed.

Definition lsda_encoding (cd : cie_desc) : Z := if cd_has_lsda cd then enc_pcrel_sdata4 else DW_EH_PE_omitted.

Lemma aug_data_length cd : is_u64 (Z.of_nat (length (aug_data cd))).
Proof.
  assert (length (aug_data cd) ≤ 7)%nat; [|unfold is_u64; lia].
  unfold aug_data, sdata4. destruct (cd_personality cd), (cd_has_lsda cd); cbn; lia.
Qed.

(** The walk over the string consumes the data it announces. *)
Lemma aug_loop_encoded {V} `{UnwindVisitor V} cd a (v : V) :
  aug_loop (aug_string cd) (mkSlice a (aug_data cd)) DW_EH_PE_absptr DW_EH_PE_omitted v
  = Ok (inl (enc_pcrel_sdata4, lsda_encoding cd, v)).
Proof.
  unfold aug_string, aug_data, lsda_encoding. destruct (cd_personality cd) as [p|], (cd_has_lsda cd);
    cbn [app aug_loop Z.eqb Pos.eqb]; rewrite ReadObject_1; cbn [mbind res_bind]; try done.
Qed.

Lemma ParseAug_encoded {V} `{UnwindVisitor V} cd a (v : V) :
  ∃ a', ParseAug (122 :: aug_string cd) (mkSlice a (cie_tail cd)) v
        = Ok (inl (enc_pcrel_sdata4, lsda_encoding cd, v, mkSlice a' (encode_program (cd_program cd)))).
Proof.
  unfold ParseAug, cie_tail, with_len. cbn [Z.eqb Pos.eqb negb]. rewrite <- app_assoc.
  rewrite ReadUleb128_enc by apply aug_data_length. cbn [mbind res_bind].
  rewrite ReadSubslice_app. cbn [mbind res_bind]. rewrite aug_loop_encoded. by eexists.
Qed.

(** ** The FDE *)

Section body.
Context {V : Type} `{UnwindVisitor V}.

Lemma ParseFDEAug_encoded cd fd a (v : V) :
  fde_ok fd →
  ∃ a', ParseFDEAug (122 :: aug_string cd) (lsda_encoding cd)
          (mkSlice a (with_len (if cd_has_lsda cd then sdata4 (fd_lsda fd) else []) ++ encode_program (fd_program fd))) v
        = '(b, v) ← (if cd_has_lsda cd then HandleLSDA (u64 (a + 1 + fd_lsda fd)) v else mret (true, v));
          mret (b, mkSlice a' (encode_program (fd_program fd)), v).
Proof.
  intros Hfd. unfold ParseFDEAug, with_len, lsda_encoding. rewrite bool_decide_eq_true_2 by done.
  rewrite <- app_assoc. destruct (cd_has_lsda cd).
  - rewrite ReadUleb128_enc by (unfold sdata4; rewrite length_le_split; done). cbn [mbind res_bind].
    rewrite ReadSubslice_app. cbn [mbind res_bind].
    change (negb (enc_pcrel_sdata4 =? DW_EH_PE_omitted)) with true. cbv iota.
    rewrite <- (app_nil_r (sdata4 (fd_lsda fd))). rewrite ReadEncodedPtr_pcrel by apply Hfd.
    cbn [mbind res_bind]. eexists. reflexivity.
  - rewrite ReadUleb128_enc by done. cbn [mbind res_bind]. rewrite ReadSubslice_app. cbn [mbind res_bind].
    eexists. reflexivity.
Qed.

Lemma RunInstructions_encoded is_cie p a st (v : V) :
  Forall insn_ok p ∧ Forall no_set_loc p →
  RunInstructions (mkSlice a (encode_program p)) is_cie st v = exec_program is_cie p st v.
Proof. intros [Hp Hn]. by apply run_loop_encode; [|right|]. Qed.

(** Whether a lookup of an address looks at this FDE. *)
Definition looked_at (inp : EHReaderInputs) (match_all : bool) (fd : fde_desc) (pc_field : Z) : bool :=
  let start := u64 (pc_field + fd_start fd) in
  match_all || ((start <=? lookup_pc inp) && (lookup_pc inp <? u64 (start + fd_size fd))).

Lemma DecodeBody_encoded inp match_all cd fd s a a' (v : V) :
  cie_ok cd → fde_ok fd →
  DecodeBody inp match_all (parsed_cie cd s) enc_pcrel_sdata4 (lsda_encoding cd)
    (mkSlice a' (encode_program (cd_program cd))) (mkSlice a (fde_payload cd fd)) v
  = if looked_at inp match_all fd a then decode_fde cd fd a (a + 9) v else mret v.
Proof.
  intros Hcd Hfd. unfold DecodeBody, fde_payload, decode_fde, unless_stopped, looked_at.
  rewrite ReadEncodedPtr_pcrel by apply Hfd. cbn [mbind res_bind].
  rewrite ReadEncodedPtr_size by apply Hfd. cbn [mbind res_bind]. rewrite <- negb_orb.
  destruct (match_all || _); cbn [negb]; [|done].
  cbn [parsed_cie cie_return_reg cie_code_align cie_data_align cie_aug_str].
  destruct (StartFDE _ _ _ v) as [[[] v1]|e]; cbn [mbind res_bind negb]; [|done..].
  rewrite RunInstructions_encoded by apply Hcd.
  destruct (exec_program true _ _ v1) as [[[[] st] v2]|e]; cbn [mbind res_bind negb]; [|done..].
  destruct (ParseFDEAug_encoded cd fd (a + 4 + 4) v2 Hfd) as (a2 & ->).
  replace (a + 4 + 4 + 1) with (a + 9) by lia.
  destruct (if cd_has_lsda cd then _ else _) as [[[] v3]|e]; cbn [mbind res_bind mret res_ret negb]; [|done..].
  destruct (AfterCIE v3) as [[[] v4]|e]; cbn [mbind res_bind mret res_ret negb]; [|done..].
  by rewrite RunInstructions_encoded by apply Hfd.
Qed.
End body.

(** ** The round trip *)

Definition fits (bs : list Z) : Prop := Z.of_nat (length bs) < 0xffffffff.

(** The memory holds the encoding of a CIE and, anywhere after it within 32
    bits, that of an FDE which refers to it. *)
Record encoded_at (mem : Z → Z) (inp : EHReaderInputs) (cd : cie_desc) (fd : fde_desc) (cie_addr fde_addr : Z) : Prop := {
  ea_cie : cie_ok cd;
  ea_fde : fde_ok fd;
  ea_addr : is_u64 cie_addr;
  ea_distance : 0 <= fde_addr + 4 - cie_addr < 2 ^ 32;
  ea_cie_fits : fits (le_split 4 0 ++ cie_payload cd);
  ea_fde_fits : fits (le_split 4 (fde_addr + 4 - cie_addr) ++ fde_payload cd fd);
  ea_cie_held : holds mem inp cie_addr (encode_cie cd);
  ea_fde_held : holds mem inp fde_addr (encode_fde cd fd (fde_addr + 4 - cie_addr))
}.

(** Decoding reads back what a compiler wrote: the calls the two records
    describe, or none when the lookup is for another function. *)
Lemma ParseFDE_encoded {V} `{UnwindVisitor V} mem inp match_all cd fd cie_addr fde_addr (v : V) :
  encoded_at mem inp cd fd cie_addr fde_addr →
  ParseFDE mem inp match_all fde_addr v
  = if looked_at inp match_all fd (fde_addr + 8) then decode_fde cd fd (fde_addr + 8) (fde_addr + 17) v else mret v.
Proof.
  intros [Hcd Hfd Ha Hd Hfc Hff Hc Hf]. unfold ParseFDE.
  apply MakeSlice_holds in Hc as (crest & Hc), Hf as (frest & ->). cbn [mbind res_bind]. unfold encode_fde.
  destruct (read_record fde_addr _ frest _ _ eq_refl Hd Hff) as (l & -> & Hl0 & Hlm & Ht & Hid).
  cbn [mbind res_bind]. rewrite (proj2 (Z.eqb_neq _ _) Hlm), (proj2 (Z.eqb_neq _ _) Hl0), Ht.
  cbn [mbind res_bind]. rewrite Hid. cbn [mbind res_bind sl_addr].
  replace (fde_addr + 8 - 4 - (fde_addr + 4 - cie_addr)) with cie_addr by lia.
  rewrite u64_id, Hc by done. cbn [mbind res_bind].
  destruct (ParseCIE_encoded cd cie_addr crest Hcd Hfc) as (a' & ->). cbn [mbind res_bind].
  destruct (ParseAug_encoded cd a' v) as (a2 & Haug). cbn [parsed_cie cie_aug_str cie_rest]. rewrite Haug.
  cbn [mbind res_bind]. rewrite (DecodeBody_encoded inp match_all cd fd) by done. by rewrite <- Z.add_assoc.
Qed.

Lemma DecodeFDEAt_encoded {V} `{UnwindVisitor V} mem inp cd fd cie_addr fde_addr (v : V) :
  encoded_at mem inp cd fd cie_addr fde_addr →
  DecodeFDEAt mem inp fde_addr v = decode_fde cd fd (fde_addr + 8) (fde_addr + 17) v.
Proof. intros. unfold DecodeFDEAt. by rewrite (ParseFDE_encoded mem inp true cd fd cie_addr). Qed.

(** ** A function with a personality routine and an LSDA *)

From S2P Require Import CfiTable TableBuilder.

Definition sample_cd : cie_desc :=
  mkCieDesc 1 (-8) 16 (Some 0x3000) true [I_def_cfa 7 8; I_offset 16 1; I_nop].
Definition sample_fd : fde_desc :=
  mkFdeDesc (- 0x1000) 64 0x500
    [I_advance 1; I_def_cfa_offset 16; I_offset 6 2; I_advance 3; I_def_cfa_register 6; I_advance1 59; I_def_cfa 7 8].
Definition sample_cie_addr : Z := 0x10000.
Definition sample_record_addr : Z := sample_cie_addr + Z.of_nat (length (encode_cie sample_cd)).
Definition sample_records : list Z := Eval vm_compute in
  encode_cie sample_cd ++ encode_fde sample_cd sample_fd (sample_record_addr + 4 - sample_cie_addr).
Definition sample_records_mem (a : Z) : Z := default 0 (sample_records !! Z.to_nat (a - sample_cie_addr)).
Definition sample_inputs : EHReaderInputs := mkInputs 0 0 sample_cie_addr 0x11000.

Lemma sample_cd_ok : cie_ok sample_cd.
Proof. split; [split; done|done..|split; repeat constructor; vm_compute; done]. Qed.
Lemma sample_fd_ok : fde_ok sample_fd.
Proof. split; [done..|split; repeat constructor; vm_compute; done]. Qed.

Lemma sample_encoded :
  encoded_at sample_records_mem sample_inputs sample_cd sample_fd sample_cie_addr sample_record_addr.
Proof. split; [apply sample_cd_ok|apply sample_fd_ok|..]; repeat split; vm_compute; (reflexivity || discriminate). Qed.

(** The table that comes out: four rows, at the function's start and after
    each advance. *)
Example sample_decoded :
  (fun b => (pc_begin (result_ b), pc_end (result_ b), pc_start <$> rows (result_ b), CFARule_str ∘ row_cfa <$> rows (result_ b)))
    <$> (match DecodeFDEAt sample_records_mem sample_inputs sample_record_addr (new_builder sample_record_addr 0) with
         | Ok b => Some b | Throw _ => None end)
  = Some (0xF027, 0xF067, [0xF027; 0xF028; 0xF02B; 0xF066], ["rsp+8"; "rsp+16"; "rbp+16"; "rsp+8"]).
Proof. vm_compute. reflexivity. Qed.
