(* ===== verification/CfiSection.v ===== *)
(** * An [.eh_frame] section

    The section a linker leaves: for each unit a CIE and the FDEs that refer
    to it, then the terminator.  [eh_frame_roundtrip] composes the walk
    ([EnumerateFDEs]) with the decoder ([DecodeFDEAt]): the walk finds
    exactly the section's FDEs, and each decodes to what was encoded. *)

From S2P Require Import Prelude EhFrame Leb128 EhFrameFacts CfiProgram CfiRecord.

(** ** Layout *)

Definition unit_desc : Type := cie_desc * list fde_desc.

(** An FDE of the section, with its address and its CIE's. *)
Record placed := mkPlaced { pl_addr : Z; pl_cie_addr : Z; pl_cie : cie_desc; pl_fde : fde_desc }.

Definition placed_bytes (x : placed) : list Z :=
  encode_fde (pl_cie x) (pl_fde x) (pl_addr x + 4 - pl_cie_addr x).

(** The FDEs of a unit from [addr] on, and the bytes up to the next unit. *)
Fixpoint place_fdes (cd : cie_desc) (cie_addr addr : Z) (fds : list fde_desc) : list placed * list Z :=
  match fds with
  | [] => ([], [])
  | fd :: fds =>
      let x := mkPlaced addr cie_addr cd fd in
      let '(xs, bytes) := place_fdes cd cie_addr (addr + Z.of_nat (length (placed_bytes x))) fds in
      (x :: xs, placed_bytes x ++ bytes)
  end.
Definition place_unit (addr : Z) (u : unit_desc) : list placed * list Z :=
  let cie := encode_cie u.1 in
  let '(xs, bytes) := place_fdes u.1 addr (addr + Z.of_nat (length cie)) u.2 in (xs, cie ++ bytes).
Fixpoint place_section (addr : Z) (units : list unit_desc) : list placed * list Z :=
  match units with
  | [] => ([], le_split 4 0)
  | u :: units =>
      let '(xs, bytes) := place_unit addr u in
      let '(ys, rest) := place_section (addr + Z.of_nat (length bytes)) units in (xs ++ ys, bytes ++ rest)
  end.

Definition unit_ok (u : unit_desc) : Prop := cie_ok u.1 ∧ Forall fde_ok u.2.

(** ** Memory *)

Definition mem_bytes (mem : Z → Z) (a : Z) (bs : list Z) : Prop := mem <$> seqZ a (Z.of_nat (length bs)) = bs.

Lemma mem_bytes_app mem a bs cs :
  mem_bytes mem a (bs ++ cs) → mem_bytes mem a bs ∧ mem_bytes mem (a + Z.of_nat (length bs)) cs.
Proof.
  unfold mem_bytes. rewrite length_app, Nat2Z.inj_add, seqZ_app, fmap_app by lia.
  intros E. apply app_inj_1 in E; [done|]. rewrite length_fmap, length_seqZ. lia.
Qed.

Lemma read_mem_split mem a n z bs :
  0 <= z < 256 ^ Z.of_nat n → mem_bytes mem a (le_split n z ++ bs) → read_mem mem a n = z.
Proof.
  intros Hz [Hm _]%mem_bytes_app. unfold mem_bytes in Hm. rewrite length_le_split in Hm.
  unfold read_mem. by rewrite Hm, le_value_split.
Qed.

(** ** The walk *)

Section Walk.
Context (mem : Z → Z) (end_ : Z).

Lemma ReadU32_inside a what :
  0 <= a → a + 4 <= end_ < 2 ^ 64 → ReadU32 mem a end_ what = Ok (read_mem mem a 4).
Proof.
  intros Ha He. unfold ReadU32. rewrite u64_id by (unfold is_u64; lia).
  by rewrite (proj2 (Z.ltb_ge end_ _)), (proj2 (Z.ltb_ge (a + 4) a)) by lia.
Qed.

(** One turn of the walk, at a record with the given id. *)
Lemma enum_record fuel p id payload rest :
  let record := with_length (le_split 4 id ++ payload) in
  0 <= p → p + Z.of_nat (length record) + 4 <= end_ < 2 ^ 64 - 8 → fits (le_split 4 id ++ payload) → 0 <= id < 2 ^ 32 →
  mem_bytes mem p (record ++ rest) →
  enum_loop (S fuel) mem p end_
  = (let r := enum_loop fuel mem (p + Z.of_nat (length record)) end_ in (if id =? 0 then r.1 else p :: r.1, r.2)).
Proof.
  intros record Hp Hend Hfits Hid Hm. unfold fits in Hfits. unfold record, with_length in *.
  set (body := le_split 4 id ++ payload) in *.
  assert (4 <= Z.of_nat (length body)) as Hbody by (unfold body; rewrite length_app, length_le_split; lia).
  assert (Z.of_nat (length (le_split 4 (Z.of_nat (length body)) ++ body)) = 4 + Z.of_nat (length body)) as Hlen
    by (rewrite length_app, length_le_split; lia).
  rewrite Hlen in *. rewrite <- app_assoc in Hm. pose proof Hm as Hm'.
  apply read_mem_split in Hm; [|change (256 ^ Z.of_nat 4) with (2 ^ 32); lia].
  apply mem_bytes_app in Hm' as [_ Hid']. rewrite length_le_split in Hid'. unfold body in Hid' at 1.
  rewrite <- app_assoc in Hid'. apply read_mem_split in Hid'; [|done].
  change (Z.of_nat 4) with 4 in Hid'. cbn [enum_loop]. rewrite (u64_id (p + 8)) by (unfold is_u64; lia).
  rewrite (proj2 (Z.leb_le (p + 8) end_)) by lia. cbn [negb]. rewrite !ReadU32_inside by lia. rewrite Hm.
  rewrite (proj2 (Z.eqb_neq (Z.of_nat (length body)) 0)), (proj2 (Z.eqb_neq (Z.of_nat (length body)) 0xffffffff)) by lia.
  rewrite !(u64_id (p + 4)) by (unfold is_u64; lia). rewrite (u64_id (p + 4 + _)) by (unfold is_u64; lia).
  cbv zeta. rewrite (proj2 (Z.leb_gt _ p)), (proj2 (Z.ltb_ge end_ _)) by lia. cbn [orb].
  rewrite !ReadU32_inside by lia. rewrite Hid', <- Z.add_assoc.
  by destruct (enum_loop fuel mem _ end_).
Qed.

(** A short section: every record and every distance fits in 32 bits. *)
Context (start : Z) (Hstart : 0 <= start) (Hsize : end_ - start < 0xffffffff) (Hend : end_ < 2 ^ 64 - 8).

Lemma with_length_length body : Z.of_nat (length (with_length body)) = 4 + Z.of_nat (length body).
Proof. unfold with_length. rewrite length_app, length_le_split. lia. Qed.

(** What the walk needs of an FDE, and its decoding. *)
Definition placed_ok (x : placed) : Prop :=
  start <= pl_cie_addr x < pl_addr x ∧ pl_addr x + Z.of_nat (length (placed_bytes x)) + 4 <= end_
  ∧ pl_cie_addr x + Z.of_nat (length (encode_cie (pl_cie x))) <= end_
  ∧ cie_ok (pl_cie x) ∧ fde_ok (pl_fde x)
  ∧ mem_bytes mem (pl_cie_addr x) (encode_cie (pl_cie x)) ∧ mem_bytes mem (pl_addr x) (placed_bytes x).

Lemma place_fdes_ok cd cie_addr addr fds rest :
  cie_ok cd → Forall fde_ok fds → start <= cie_addr < addr →
  cie_addr + Z.of_nat (length (encode_cie cd)) <= end_ → mem_bytes mem cie_addr (encode_cie cd) →
  let '(xs, bytes) := place_fdes cd cie_addr addr fds in
  addr + Z.of_nat (length bytes) + 4 <= end_ → mem_bytes mem addr (bytes ++ rest) →
  Forall placed_ok xs
  ∧ ∀ fuel, enum_loop (length fds + fuel) mem addr end_
      = (let r := enum_loop fuel mem (addr + Z.of_nat (length bytes)) end_ in ((pl_addr <$> xs) ++ r.1, r.2)).
Proof.
  intros Hcd Hfds Haddr Hcie Hmc. revert addr Haddr. induction Hfds as [|fd fds Hfd _ IH]; intros addr Haddr; cbn [place_fdes].
  { intros _ _. split; [constructor|]. intros fuel. cbn. rewrite Z.add_0_r. by destruct (enum_loop fuel mem addr end_). }
  set (x := mkPlaced addr cie_addr cd fd). specialize (IH (addr + Z.of_nat (length (placed_bytes x))) ltac:(lia)).
  destruct (place_fdes cd cie_addr _ fds) as [xs bytes]. intros He Hm.
  rewrite length_app, Nat2Z.inj_add in He. rewrite <- app_assoc in Hm. pose proof Hm as [Hx Hrest]%mem_bytes_app.
  destruct (IH ltac:(lia) Hrest) as [Hok Hwalk]. split.
  - constructor; [|done]. unfold placed_ok. change (pl_addr x) with addr. change (pl_cie_addr x) with cie_addr.
    split_and!; done || lia.
  - intros fuel. cbn [length Nat.add]. unfold placed_bytes, encode_fde in *. cbn [pl_cie pl_fde pl_addr pl_cie_addr x] in *.
    rewrite (enum_record _ _ (addr + 4 - cie_addr) (fde_payload cd fd) (bytes ++ rest)); [|lia|lia| |lia|done].
    2:{ unfold fits. rewrite with_length_length in He. lia. }
    rewrite (proj2 (Z.eqb_neq (addr + 4 - cie_addr) 0)) by lia. cbv zeta. rewrite Hwalk. cbv zeta.
    rewrite length_app, Nat2Z.inj_add, Z.add_assoc. done.
Qed.
End Walk.

Section Whole.
Context (mem : Z → Z) (end_ start : Z).
Context (Hstart : 0 <= start) (Hsize : end_ - start < 0xffffffff) (Hend : end_ < 2 ^ 64 - 8).

Lemma place_fdes_length cd cie_addr addr fds :
  (length fds ≤ length (place_fdes cd cie_addr addr fds).2)%nat.
Proof.
  revert addr. induction fds as [|fd fds IH]; intros addr; cbn [place_fdes]; [cbn; lia|].
  match goal with |- context [place_fdes cd cie_addr ?a fds] => specialize (IH a) end.
  destruct (place_fdes _ _ _ fds) as [xs bytes]. cbn [fst snd length] in *. rewrite length_app.
  pose proof (with_length_length (le_split 4 (addr + 4 - cie_addr) ++ fde_payload cd fd)).
  unfold placed_bytes, encode_fde. cbn [pl_addr pl_cie_addr pl_cie pl_fde]. lia.
Qed.

Lemma place_section_length addr units : (4 ≤ length (place_section addr units).2)%nat.
Proof.
  destruct units as [|u units]; cbn [place_section]; [done|].
  assert (4 ≤ length (place_unit addr u).2)%nat as Hu.
  { unfold place_unit. destruct (place_fdes _ _ _ _) as [xs bytes]. cbn [snd]. rewrite length_app.
    pose proof (with_length_length (le_split 4 0 ++ cie_payload u.1)). unfold encode_cie. lia. }
  destruct (place_unit addr u) as [xs bytes], (place_section _ units) as [ys rest]. cbn [snd] in *.
  rewrite length_app. lia.
Qed.

Lemma place_section_ok units addr :
  Forall unit_ok units → start <= addr →
  let '(xs, bytes) := place_section addr units in
  addr + Z.of_nat (length bytes) = end_ → mem_bytes mem addr bytes →
  Forall (placed_ok mem end_ start) xs
  ∧ ∃ records, (records ≤ length bytes)%nat ∧ ∀ fuel, enum_loop (records + S fuel) mem addr end_ = (pl_addr <$> xs, None).
Proof.
  intros Hu. revert addr. induction Hu as [|[cd fds] units [Hcd Hfds] _ IH]; intros addr Haddr; cbn [place_section].
  { intros He _. split; [constructor|]. exists 0%nat. split; [lia|]. intros fuel. cbn [Nat.add enum_loop].
    rewrite length_le_split in He. rewrite u64_id, (proj2 (Z.leb_gt _ _)) by (unfold is_u64; lia). done. }
  unfold place_unit. cbn [fst snd] in *. set (fdes := addr + Z.of_nat (length (encode_cie cd))).
  assert (fdes = addr + Z.of_nat (length (encode_cie cd))) as Efdes by done.
  pose proof (place_fdes_ok mem end_ start Hstart Hsize Hend cd addr fdes fds) as Hplace.
  specialize (IH (addr + Z.of_nat (length (encode_cie cd ++ (place_fdes cd addr fdes fds).2))) ltac:(lia)).
  pose proof (place_fdes_length cd addr fdes fds) as Hlen.
  destruct (place_fdes cd addr fdes fds) as [xs bytes]. cbn [fst snd] in Hlen.
  pose proof (place_section_length (addr + Z.of_nat (length (encode_cie cd ++ bytes))) units) as Hterm.
  destruct (place_section _ units) as [ys rest]. intros He Hm. cbn [snd] in Hterm.
  rewrite !length_app, !Nat2Z.inj_add in *. rewrite <- app_assoc in Hm. pose proof Hm as [Hc Hf]%mem_bytes_app.
  pose proof (mem_bytes_app _ _ _ _ Hf) as [_ Hrest]. fold fdes in Hf, Hrest.
  assert (4 <= Z.of_nat (length (encode_cie cd))) as Hcie by (unfold encode_cie; rewrite with_length_length; lia).
  destruct (Hplace rest) as [Hok Hwalk]; [done|done|lia|lia|done|lia|done|].
  cbn [snd] in IH. rewrite Z.add_assoc in IH. fold fdes in IH.
  destruct IH as (Hok' & records & Hr & Hwalk'); [lia|done|].
  split; [by apply Forall_app|]. exists (S (length fds + records)). split; [lia|]. intros fuel.
  cbn [Nat.add]. unfold encode_cie in Hm.
  rewrite (enum_record _ _ _ _ 0 (cie_payload cd) (bytes ++ rest)); [|lia| | |lia|done].
  2: fold (encode_cie cd); lia.
  2: unfold fits; unfold encode_cie in *; rewrite with_length_length in *; lia.
  fold (encode_cie cd) fdes. cbn [Z.eqb]. rewrite <- Nat.add_assoc, Hwalk. cbv zeta.
  rewrite Hwalk'. cbn [fst snd]. by rewrite fmap_app.
Qed.
End Whole.

(** C24: a whole [.eh_frame] section reads back as it was written.  Of a
    section that holds the encoding of any units, [EnumerateFDEs] reports
    exactly the addresses of their FDEs, in order and without an error, and
    [DecodeFDEAt] at each of them makes exactly the calls its CIE and FDE
    describe, on every visitor: [StartFDE] with the range, the CIE's
    program, [HandleLSDA] with the LSDA's address when the CIE announces one,
    [AfterCIE], the FDE's program; it stops where the visitor stops and
    throws where the visitor throws. *)
Theorem eh_frame_roundtrip mem inp start units :
  let '(fdes, bytes) := place_section start units in
  let end_ := start + Z.of_nat (length bytes) in
  Forall unit_ok units → 0 <= start → end_ < 2 ^ 64 - 8 → fits bytes → mem_bytes mem start bytes →
  in_eh_frame_start inp = start → in_eh_frame_end inp = end_ →
  EnumerateFDEs mem start end_ = (pl_addr <$> fdes, None)
  ∧ ∀ (V : Type) (visitor : UnwindVisitor V) (v : V) x, x ∈ fdes →
      DecodeFDEAt mem inp (pl_addr x) v = decode_fde (pl_cie x) (pl_fde x) (pl_addr x + 8) (pl_addr x + 17) v.
Proof.
  pose proof (fun mem end_ H1 H2 H3 => place_section_ok mem end_ start H1 H2 H3 units start) as Hok.
  destruct (place_section start units) as [fdes bytes]. intros end_ Hu Hs He Hf Hm Es Ee. unfold fits in Hf.
  destruct (Hok mem end_ Hs ltac:(lia) He Hu (Z.le_refl _) eq_refl Hm) as [Hp (records & Hr & Hwalk)]. split.
  - unfold EnumerateFDEs. replace (Z.to_nat (end_ - start)) with (length bytes) by lia.
    replace (S (length bytes)) with (records + S (length bytes - records))%nat by lia. apply Hwalk.
  - intros V visitor v x Hx. rewrite Forall_forall in Hp. destruct (Hp x Hx) as (Ha & Hend & Hcend & Hcd & Hfd & Hmc & Hmf).
    unfold placed_bytes, encode_fde in *. rewrite with_length_length in Hend.
    apply (DecodeFDEAt_encoded mem inp _ _ (pl_cie_addr x)). split; try done; unfold is_u64, fits, holds, encode_fde; try lia.
    + unfold encode_cie in Hcend. rewrite with_length_length in Hcend. lia.
    + rewrite Es, Ee. split_and!; [lia..|done].
    + rewrite Es, Ee, with_length_length. split_and!; [lia..|]. unfold mem_bytes in Hmf. by rewrite with_length_length in Hmf.
Qed.

(** ** A section with two units *)

From S2P Require Import CfiTable TableBuilder.

Definition plain_cd : cie_desc := mkCieDesc 1 (-8) 16 None false [I_def_cfa 7 8; I_offset 16 1; I_nop; I_nop].
Definition plain_fd (start : Z) : fde_desc := mkFdeDesc start 32 0 [I_advance 4; I_def_cfa_offset 24; I_nop].
Definition sample_units : list unit_desc :=
  [(sample_cd, [sample_fd]); (plain_cd, [plain_fd (-0x2000); plain_fd (-0x1800)])].
Definition sample_layout : list placed * list Z := place_section 0x10000 sample_units.
Definition sample_layout_mem (a : Z) : Z := default 0 (sample_layout.2 !! Z.to_nat (a - 0x10000)).
Definition sample_layout_end : Z := 0x10000 + Z.of_nat (length sample_layout.2).
Definition sample_layout_inputs : EHReaderInputs := mkInputs 0 0 0x10000 sample_layout_end.

Lemma sample_units_ok : Forall unit_ok sample_units.
Proof.
  assert (cie_ok plain_cd) as Hp by (split; [split; done|done..|split; repeat constructor; vm_compute; done]).
  assert (∀ a, is_s32 a → fde_ok (plain_fd a)) as Hf
    by (intros a Ha; split; [done..|split; repeat constructor; vm_compute; done]).
  repeat constructor; try apply sample_cd_ok; try apply sample_fd_ok; try apply Hp; by apply Hf.
Qed.

Lemma eh_frame_roundtrip_witness :
  length sample_layout.1 = 3%nat ∧
  EnumerateFDEs sample_layout_mem 0x10000 sample_layout_end = (pl_addr <$> sample_layout.1, None)
  ∧ ∀ (V : Type) (visitor : UnwindVisitor V) (v : V) x, x ∈ sample_layout.1 →
      DecodeFDEAt sample_layout_mem sample_layout_inputs (pl_addr x) v
      = decode_fde (pl_cie x) (pl_fde x) (pl_addr x + 8) (pl_addr x + 17) v.
Proof.
  split; [vm_compute; reflexivity|].
  refine (eh_frame_roundtrip sample_layout_mem sample_layout_inputs 0x10000 sample_units sample_units_ok _ _ _ _ _ _);
    vm_compute; done.
Defined.
