(* ===== verification/CfiLookup.v ===== *)
(** * The binary search table

    [.eh_frame_hdr] as a linker writes it, and what [FindFDE] of
    [src/eh-frame-reader.h] makes of it: the FDE of the last entry that
    starts at or below the address ([FindFDE_finds]), which
    [FindAndDecodeFDE] then decodes if the address is in its range. *)

From S2P Require Import Prelude EhFrame Leb128 EhFrameFacts CfiProgram CfiRecord.

(** ** The search *)

Lemma filter_true {A} (P : A → Prop) `{∀ x, Decision (P x)} l : Forall P l → filter P l = l.
Proof. induction 1 as [|x l Hx Hl IH]; [done|]. by rewrite filter_cons_True, IH by done. Qed.
Lemma filter_false {A} (P : A → Prop) `{∀ x, Decision (P x)} l : Forall (fun x => ¬ P x) l → filter P l = [].
Proof. induction 1 as [|x l Hx Hl IH]; [done|]. by rewrite filter_cons_False, IH by done. Qed.

Section Search.
Context (pc hdr : Z) (entries : list EHFrameHdrEntry).

(** Sorted by the address an entry starts at. *)
Definition entries_sorted : Prop :=
  ∀ i j a b, (i ≤ j)%nat → entries !! i = Some a → entries !! j = Some b → entry_pc hdr a <= entry_pc hdr b.

(** Everything before [low] starts at or below [pc], everything from [high]
    on above it; the loop closes the gap. *)
Definition below (n : nat) : Prop := ∀ i e, (i < n)%nat → entries !! i = Some e → entry_pc hdr e <= pc.
Definition above (n : nat) : Prop := ∀ i e, (n ≤ i)%nat → entries !! i = Some e → pc < entry_pc hdr e.

Lemma find_loop_splits fuel low high :
  entries_sorted → (low ≤ high ≤ length entries)%nat → (high - low ≤ fuel)%nat → below low → above high →
  below (find_loop fuel pc hdr entries low high) ∧ above (find_loop fuel pc hdr entries low high)
  ∧ (find_loop fuel pc hdr entries low high ≤ length entries)%nat.
Proof.
  intros Hs. revert low high. induction fuel as [|fuel IH]; intros low high Hr Hf Hb Ha; cbn [find_loop].
  { assert (low = high) as -> by lia. split_and!; done || lia. }
  case_bool_decide as Hlt; [|assert (low = high) as -> by lia; split_and!; done || lia].
  set (mid := ((low + high) / 2)%nat).
  assert (low ≤ mid < high)%nat as Hmid.
  { split; [apply Nat.div_le_lower_bound; lia|apply Nat.Div0.div_lt_upper_bound; lia]. }
  destruct (lookup_lt_is_Some_2 entries mid) as [e He]; [lia|]. rewrite He.
  destruct (Z.ltb_spec pc (entry_pc hdr e)).
  - apply IH; [lia|lia|done|]. intros i e' Hi He'. pose proof (Hs _ _ _ _ Hi He He'). lia.
  - apply IH; [lia|lia| |done]. intros i e' Hi He'. pose proof (Hs i mid e' e ltac:(lia) He' He). lia.
Qed.

(** The entry in front of the split is the last that starts at or below. *)
Lemma split_last n :
  below n → above n → (n ≤ length entries)%nat →
  last (filter (fun e => entry_pc hdr e <= pc) entries) = match n with O => None | S i => entries !! i end.
Proof.
  intros Hb Ha Hn. rewrite <- (take_drop n entries) at 1. rewrite filter_app.
  rewrite (filter_true _ (take n entries)), (filter_false _ (drop n entries)).
  - rewrite app_nil_r. destruct n as [|i]; [done|].
    destruct (lookup_lt_is_Some_2 entries i) as [e He]; [lia|]. by rewrite (take_S_r _ _ _ He), last_snoc.
  - apply Forall_forall. intros e [i Hi]%list_elem_of_lookup. rewrite lookup_drop in Hi.
    pose proof (Ha (n + i)%nat e ltac:(lia) Hi). lia.
  - apply Forall_forall. intros e [i Hi]%list_elem_of_lookup.
    apply lookup_take_Some in Hi as [Hi Hlt]. by apply (Hb i).
Qed.
End Search.

(** ** The section *)

Definition encode_entry (e : EHFrameHdrEntry) : list Z := sdata4 (start_ip_offset e) ++ sdata4 (fde_ptr_offset e).
Definition entry_ok (e : EHFrameHdrEntry) : Prop := is_s32 (start_ip_offset e) ∧ is_s32 (fde_ptr_offset e).

(** [eh_frame]: the distance to [.eh_frame], which the search skips. *)
Definition encode_hdr (eh_frame : Z) (entries : list EHFrameHdrEntry) : list Z :=
  [1; enc_pcrel_sdata4; DW_EH_PE_udata4; Z.lor DW_EH_PE_datarel DW_EH_PE_sdata4]
    ++ sdata4 eh_frame ++ le_split 4 (Z.of_nat (length entries)) ++ concat (encode_entry <$> entries).

Lemma length_encode_entry e : length (encode_entry e) = 8%nat.
Proof. unfold encode_entry, sdata4. by rewrite length_app, !length_le_split. Qed.

Lemma entry_of_encoded e rest : entry_ok e → entry_of (encode_entry e ++ rest) = e.
Proof.
  intros [H1 H2]. unfold entry_of, encode_entry. rewrite <- app_assoc.
  rewrite (take_app_length' (sdata4 _)), (drop_app_length' (sdata4 _)) by (unfold sdata4; by rewrite length_le_split).
  rewrite take_app_length' by (unfold sdata4; by rewrite length_le_split). unfold sdata4.
  rewrite !le_value_split by apply u32_range. rewrite !s32_u32 by done. by destruct e.
Qed.

Lemma drop_entries entries rest i e :
  entries !! i = Some e →
  ∃ rest', drop (8 * i) (concat (encode_entry <$> entries) ++ rest) = encode_entry e ++ rest'.
Proof.
  revert i. induction entries as [|e0 entries IH]; intros [|i] Hi; try done; cbn [fmap list_fmap concat].
  - injection Hi as ->. rewrite <- app_assoc. by eexists.
  - destruct (IH i Hi) as [rest' Hr]. exists rest'. rewrite <- Hr, <- app_assoc.
    replace (8 * S i)%nat with (length (encode_entry e0) + 8 * i)%nat by (rewrite length_encode_entry; lia).
    by rewrite <- drop_drop, drop_app_length.
Qed.

Lemma length_entries entries : length (concat (encode_entry <$> entries)) = (8 * length entries)%nat.
Proof. induction entries as [|e l IH]; [done|]. cbn [fmap list_fmap concat length]. rewrite length_app, length_encode_entry, IH. lia. Qed.

Lemma ReadEntries_encoded a entries rest :
  Z.land a 3 = 0 → Z.of_nat (length entries) < 2 ^ 32 → Forall entry_ok entries →
  ReadEntries (mkSlice a (concat (encode_entry <$> entries) ++ rest)) (Z.of_nat (length entries)) = Ok entries.
Proof.
  intros Ha Hn Hok. unfold ReadEntries. cbn [sl_addr sl_bytes]. rewrite Ha. cbn [Z.eqb negb].
  rewrite (proj2 (Z.leb_gt (2 ^ 64) _)) by lia.
  rewrite length_app, length_entries. rewrite (proj2 (Z.ltb_ge (Z.of_nat _) _)) by lia.
  cbv [mret res_ret]. f_equal. apply list_eq. intros i. rewrite list_lookup_fmap.
  destruct (entries !! i) as [e|] eqn:E.
  - pose proof (lookup_lt_Some _ _ _ E). rewrite lookup_seqZ_lt by lia. cbn [fmap option_fmap option_map].
    rewrite Z.add_0_l, Nat2Z.id.
    destruct (drop_entries entries rest i e E) as [rest' ->].
    f_equal. apply entry_of_encoded. by eapply Forall_lookup_1.
  - apply lookup_ge_None in E. by rewrite lookup_seqZ_ge by lia.
Qed.

Lemma ReadEncodedPtr_udata4 a x rest :
  0 <= x < 2 ^ 32 → ReadEncodedPtr (mkSlice a (le_split 4 x ++ rest)) DW_EH_PE_udata4 = Ok (x, mkSlice (a + 4) rest).
Proof.
  intros Hx. unfold ReadEncodedPtr. cbn -[ReadObject u64 s32 le_split Z.add].
  rewrite ReadObject_app by (change (256 ^ Z.of_nat 4) with (2 ^ 32); lia). cbn -[u64 s32 Z.add].
  transitivity (Ok (u64 (0 + x), mkSlice (a + 4) rest)); [done|]. rewrite Z.add_0_l, u64_id; [done|].
  unfold is_u64. lia.
Qed.

(** ** The lookup *)

Lemma aligned_12 a : Z.land a 3 = 0 → Z.land (a + Z.of_nat 4 + 4 + 4) 3 = 0.
Proof.
  change 3 with (Z.ones 2). rewrite !Z.land_ones by lia. change (2 ^ 2) with 4. intros Ha.
  Z.to_euclidean_division_equations. lia.
Qed.

(** The FDE the table gives for an address: that of the last entry which
    starts at or below it, or none. *)
Definition fde_for (hdr pc : Z) (entries : list EHFrameHdrEntry) : Z :=
  match last (filter (fun e => entry_pc hdr e <= pc) entries) with
  | Some e => u64 (hdr + fde_ptr_offset e)
  | None => 0
  end.

Lemma FindFDE_encoded mem inp eh_frame entries :
  let hdr := eh_frame_hdr inp in
  holds mem inp hdr (encode_hdr eh_frame entries) → Z.land hdr 3 = 0 → is_s32 eh_frame →
  entries ≠ [] → Z.of_nat (length entries) < 2 ^ 32 → Forall entry_ok entries → entries_sorted hdr entries →
  FindFDE mem inp = Ok (fde_for hdr (lookup_pc inp) entries).
Proof.
  intros hdr Hm Ha Hptr Hne Hn Hok Hs. unfold FindFDE. fold hdr. apply MakeSlice_holds in Hm as (rest & ->).
  cbn [mbind res_bind]. unfold encode_hdr. rewrite <- !app_assoc.
  rewrite (ReadSubslice_app hdr [1; _; _; _] _ : ReadSubslice 4 _ = _).
  cbn [mbind res_bind sl_bytes]. cbn [lookup list_lookup default from_option id Z.eqb Pos.eqb negb].
  rewrite ReadEncodedPtr_pcrel by done. cbn [mbind res_bind].
  rewrite ReadEncodedPtr_udata4 by lia. cbn [mbind res_bind].
  assert (0 < length entries)%nat by (destruct entries; [done|cbn; lia]).
  rewrite (proj2 (Z.eqb_neq (Z.of_nat _) 0)) by lia.
  change (Z.lor DW_EH_PE_datarel DW_EH_PE_sdata4 =? DW_EH_PE_omitted) with false.
  rewrite Z.eqb_refl. cbn [orb negb].
  rewrite ReadEntries_encoded; [|by apply aligned_12|done..]. cbn [mbind res_bind].
  destruct (find_loop_splits (lookup_pc inp) hdr entries (length entries) 0 (length entries)) as (Hb & Hab & Hl); [done|lia|lia| | |].
  - intros i e Hi. lia.
  - intros i e Hi He. apply lookup_lt_Some in He. lia.
  - unfold fde_for. rewrite (split_last _ _ _ _ Hb Hab Hl). by destruct (find_loop _ _ _ _ _ _).
Qed.

(** The table a linker writes: aligned, sorted, its pointers in range. *)
Record table_at (mem : Z → Z) (inp : EHReaderInputs) (eh_frame : Z) (entries : list EHFrameHdrEntry) : Prop := {
  ta_held : holds mem inp (eh_frame_hdr inp) (encode_hdr eh_frame entries);
  ta_aligned : Z.land (eh_frame_hdr inp) 3 = 0;
  ta_pointer : is_s32 eh_frame;
  ta_some : entries ≠ [];
  ta_count : Z.of_nat (length entries) < 2 ^ 32;
  ta_entries : Forall entry_ok entries;
  ta_sorted : entries_sorted (eh_frame_hdr inp) entries
}.

(** C25: looking an address up through the binary search table.  [FindFDE]
    gives the FDE of the last entry that starts at or below the address, and
    0 when there is none.  [FindAndDecodeFDE] then calls the visitor exactly
    as that FDE and its CIE describe if the address is in the FDE's range,
    and not at all if it is not or there is no such entry. *)
Theorem FindFDE_finds {V} `{UnwindVisitor V} mem inp eh_frame entries (v : V) :
  table_at mem inp eh_frame entries →
  let fde_addr := fde_for (eh_frame_hdr inp) (lookup_pc inp) entries in
  FindFDE mem inp = Ok fde_addr
  ∧ (fde_addr = 0 → FindAndDecode mem inp v = Ok v)
  ∧ ∀ cd fd cie_addr, fde_addr ≠ 0 → encoded_at mem inp cd fd cie_addr fde_addr →
      let start := u64 (fde_addr + 8 + fd_start fd) in
      FindAndDecode mem inp v
      = if (start <=? lookup_pc inp) && (lookup_pc inp <? u64 (start + fd_size fd))
        then decode_fde cd fd (fde_addr + 8) (fde_addr + 17) v else Ok v.
Proof.
  intros [Hm Ha Hp Hne Hn Hok Hs] fde_addr.
  assert (FindFDE mem inp = Ok fde_addr) as Hf by (by apply (FindFDE_encoded _ _ eh_frame)).
  split_and!; [done| |]; unfold FindAndDecode; rewrite Hf; cbn [mbind res_bind].
  - by intros ->.
  - intros cd fd cie_addr Hnz Henc. rewrite (proj2 (Z.eqb_neq _ _) Hnz).
    by rewrite (ParseFDE_encoded mem inp false cd fd cie_addr).
Qed.

(** ** A table over the sample records *)

From S2P Require Import CfiTable TableBuilder.

(** At 0x10200, behind the two records: an entry for the sample function
    and one for a function after it. *)
Definition sample_entries : list EHFrameHdrEntry :=
  [mkEntry (0xF027 - 0x10200) (sample_record_addr - 0x10200); mkEntry (0xF100 - 0x10200) 0].
Definition sample_hdr_bytes : list Z := Eval vm_compute in encode_hdr (-0x204) sample_entries.
Definition sample_hdr_mem (a : Z) : Z :=
  if a <? 0x10200 then sample_records_mem a else default 0 (sample_hdr_bytes !! Z.to_nat (a - 0x10200)).
Definition sample_lookup (pc : Z) : EHReaderInputs := mkInputs pc 0x10200 sample_cie_addr 0x11000.

Example sample_lookups :
  (fun pc => match FindFDE sample_hdr_mem (sample_lookup pc) with Ok a => Some a | Throw _ => None end)
    <$> [0xF026; 0xF027; 0xF0FF; 0xF100]
  = [Some 0; Some sample_record_addr; Some sample_record_addr; Some 0x10200].
Proof. vm_compute. reflexivity. Qed.

Lemma sample_table pc : table_at sample_hdr_mem (sample_lookup pc) (-0x204) sample_entries.
Proof.
  split; [|done|split; vm_compute; done|done|done| |].
  - repeat split; vm_compute; (reflexivity || discriminate).
  - repeat constructor; vm_compute; done.
  - intros [|[|i]] [|[|j]] a b Hij; cbn [lookup list_lookup sample_entries]; try lia;
      intros [= <-] [= <-]; vm_compute; discriminate.
Qed.

Lemma sample_found :
  fde_for (eh_frame_hdr (sample_lookup 0xF030)) (lookup_pc (sample_lookup 0xF030)) sample_entries = sample_record_addr.
Proof. vm_compute. reflexivity. Qed.
Lemma sample_found_encoded :
  encoded_at sample_hdr_mem (sample_lookup 0xF030) sample_cd sample_fd sample_cie_addr sample_record_addr.
Proof. split; [apply sample_cd_ok|apply sample_fd_ok|..]; repeat split; vm_compute; (reflexivity || discriminate). Qed.
Lemma sample_covered :
  (u64 (sample_record_addr + 8 + fd_start sample_fd) <=? lookup_pc (sample_lookup 0xF030))
  && (lookup_pc (sample_lookup 0xF030) <? u64 (u64 (sample_record_addr + 8 + fd_start sample_fd) + fd_size sample_fd)) = true.
Proof. vm_compute. reflexivity. Qed.

Lemma FindFDE_finds_witness :
  FindAndDecode sample_hdr_mem (sample_lookup 0xF030) (new_builder sample_record_addr 0)
  = decode_fde sample_cd sample_fd (sample_record_addr + 8) (sample_record_addr + 17) (new_builder sample_record_addr 0).
Proof.
  destruct (FindFDE_finds sample_hdr_mem (sample_lookup 0xF030) (-0x204) sample_entries (new_builder sample_record_addr 0)
              (sample_table 0xF030)) as (_ & _ & Hd). rewrite sample_found in Hd.
  rewrite (Hd sample_cd sample_fd sample_cie_addr ltac:(discriminate) sample_found_encoded).
  rewrite sample_covered. reflexivity.
Defined.
