(* ===== verification/TableFacts.v ===== *)
(** * Theorems about decoded tables

    [ReadFDE] end to end: it always returns or throws, the table it returns
    is well shaped, its rows are in order for every program whose advances
    do not wrap, and [remember_state]/[restore_state] are inverse. *)

From S2P Require Import Prelude CfiTable EhFrame Leb128 EhFrameFacts TableBuilder CfiProgram.

#[export] Instance TableBuilder_total : VisitorTotal TableBuilder.
Proof.
  split; intros; cbn; try done;
    unfold tb_HandleRememberState, tb_HandleRestoreState; by repeat case_match.
Qed.

(** C26: decoding an FDE always comes to an end: for every section contents,
    every address and every bias, [ReadFDE] returns a table or throws
    [EHFrameError]; the fuel of the opcode loop is never exhausted. *)
Theorem ReadFDE_terminates mem fde_vaddr eh_frame_start eh_frame_end bias :
  (∃ c, ReadFDE mem fde_vaddr eh_frame_start eh_frame_end bias = Ok c) ∨
  (∃ msg, ReadFDE mem fde_vaddr eh_frame_start eh_frame_end bias = Throw (EHFrameError msg)).
Proof.
  unfold ReadFDE, DecodeFDEAt.
  destruct (ParseFDE _ _ _ _ _) as [b|[msg|]] eqn:E; cbn; [|eauto|].
  - case_match; [right|left]; eauto.
  - exfalso. by eapply ParseFDE_no_fuel.
Qed.

(** Run on the bytes of a CFI program, the opcode loop makes exactly the
    program's callbacks: the same visitor, reader state and verdict, or the
    same exception.  (Only [set_loc] depends on the pointer encoding.) *)
Lemma RunInstructions_refines {V} `{UnwindVisitor V} is_cie p a st (v : V) :
  Forall insn_ok p → encodable st p →
  RunInstructions (mkSlice a (encode_program p)) is_cie st v = exec_program is_cie p st v.
Proof. intros. by apply run_loop_encode. Qed.

(** ** The builder's shape *)

Lemma rules_shape_set r rule l : rules_shape l → rule_ok rule → rules_shape (<[r := rule]> l).
Proof. intros [Hl Hf] Hr. split; [by rewrite length_insert|by apply Forall_insert]. Qed.
Lemma rules_shape_get i l : rules_shape l → rule_ok (default RR_Unset (l !! i)).
Proof. intros [_ Hf]. destruct (l !! i) eqn:E; [by eapply Forall_lookup_1|done]. Qed.

Record tb_shape (b : TableBuilder) : Prop := {
  sh_rows : Forall row_shape (rows (result_ b));
  sh_cfa : cfa_shape (cur_cfa_ b);
  sh_regs : rules_shape (cur_regs_ b);
  sh_cie : rules_shape (cie_regs_ b);
  sh_stack : (length (stack_ b) ≤ 32)%nat;
  sh_saved : Forall (fun s => rules_shape (saved_regs s) ∧ cfa_shape (saved_cfa s)) (stack_ b)
}.

(** Before any row was pushed, and what the first row's start is afterwards. *)
Definition tb_first (b : TableBuilder) : Prop :=
  match rows (result_ b) with
  | [] => row_pc_ b <= pc_begin (result_ b)
  | r :: _ => pc_start r <= pc_begin (result_ b)
  end.

Definition tb_inv (b : TableBuilder) : Prop := tb_shape b ∧ tb_first b.
Definition tb_fresh (b : TableBuilder) : Prop := tb_shape b ∧ rows (result_ b) = [].

Lemma cfa_shape_mk k r o : cfa_shape (mkCFA k (u8 r) (s64 o)).
Proof. split; cbn; auto with uw. Qed.
Lemma cfa_shape_zero k : cfa_shape (mkCFA k 0 0).
Proof. split; cbn; mach. Qed.

Lemma SetRule_keeps reg rule b : tb_inv b → rule_ok rule → keeps tb_inv (SetRule reg rule b).
Proof.
  intros [[] Hf] Hr ? v [= <- <-]. split; [|unfold tb_first in *; by destruct (_ <=? _)].
  destruct (_ <=? _); split; cbn; try done. by apply rules_shape_set.
Qed.

Lemma go_on_keeps (I : TableBuilder → Prop) b : I b → keeps I (go_on b).
Proof. by intros ? ? v [= <- <-]. Qed.

(** A change of the CFA rule alone. *)
Lemma with_cfa_inv c b : tb_inv b → cfa_shape c → tb_inv (with_cfa c b).
Proof. intros [[] Hf] Hc. split; [|done]. by split. Qed.

Lemma SetLoc_inv pc b : tb_inv b → keeps tb_inv (tb_HandleSetLoc pc b).
Proof.
  intros [[? ? ? ? ? ?] Hf]. apply go_on_keeps. unfold tb_first in Hf. set (p := u64 _).
  destruct (Z.ltb_spec (row_pc_ b) p) as [Hlt|Hge]; (split; [split; cbn; try done|]).
  - apply Forall_app. split; [done|]. apply Forall_singleton. by split.
  - unfold tb_first. cbn. by destruct (rows (result_ b)).
  - unfold tb_first. cbn. destruct (rows (result_ b)); [lia|done].
Qed.

#[local] Arguments keeps : simpl never.
Lemma tb_inv_preserved : preserved tb_inv.
Proof.
  split; cbn; intros;
    try (apply SetRule_keeps; [done|]; first [ apply s64_range | apply u8_range | done ]); try (by apply SetLoc_inv);
    try (apply go_on_keeps, with_cfa_inv; [done|];
         first [ apply cfa_shape_mk | apply cfa_shape_zero ]; done).
  - apply go_on_keeps. destruct H as [[] ?]. by split; [split|].
  - apply go_on_keeps. destruct H as [[] ?]. destruct (a =? 0); by split; [split|].
  - apply go_on_keeps, with_cfa_inv; [done|]. destruct H as [[? [? ?] ? ? ? ?] _].
    split; cbn; [apply u8_range|done].
  - apply go_on_keeps, with_cfa_inv; [done|]. destruct H as [[? [? ?] ? ? ? ?] _].
    split; cbn; [done|apply s64_range].
  - apply SetRule_keeps; [done|]. apply rules_shape_get. by destruct H as [[] _].
  - unfold tb_HandleRememberState. case_bool_decide; [done|]. apply go_on_keeps.
    destruct H as [[] Hf]. split; [split; cbn; try done|done]. { lia. }
    by constructor.
  - unfold tb_HandleRestoreState. destruct (stack_ v) as [|s rest] eqn:E; [done|]. apply go_on_keeps.
    destruct H as [[? ? ? ? Hs Hv] Hf]. rewrite E in Hs, Hv. cbn in Hs.
    apply Forall_cons in Hv as [[? ?] ?]. split; [split; cbn; try done; lia|done].
Qed.

Lemma tb_fresh_start a b c v : tb_fresh v → keeps tb_inv (StartFDE a b c v).
Proof.
  intros [[] Hr]. apply go_on_keeps. split; [split; cbn; try done; by rewrite ?Hr|].
  unfold tb_first. cbn. by rewrite Hr.
Qed.

Lemma new_builder_fresh a bias : tb_fresh (new_builder a bias).
Proof.
  assert (rules_shape no_rules) by (split; [done|by apply Forall_replicate]).
  split; [|done]. split; cbn; try done; try lia; split; cbn; mach.
Qed.

Lemma ReadFDE_inv mem a s e bias c :
  ReadFDE mem a s e bias = Ok c →
  Forall row_shape (rows c) ∧
  (pc_begin c < pc_end c → ∃ r0, rows c !! 0%nat = Some r0 ∧ pc_start r0 <= pc_begin c).
Proof.
  unfold ReadFDE, DecodeFDEAt. intros E. inv_ok. rename a0 into b.
  eapply (ParseFDE_keeps tb_fresh tb_inv) in Ha; eauto using tb_fresh_start, tb_inv_preserved, new_builder_fresh.
  2:{ intros v [[] Hr]. apply go_on_keeps. by split; [split|]. }
  destruct (bool_decide (rows _ = [])) eqn:Hb; cbn in E.
  - destruct (_ <? _) eqn:Hlt; [done|]. inv_ok. simplify_eq.
    apply bool_decide_eq_true in Hb. rewrite Hb. split; [done|lia].
  - inv_ok. simplify_eq. apply bool_decide_eq_false in Hb.
    destruct Ha as [[Hs Hr]|[Hs Hf]]; [by rewrite Hr in Hb|]. split; [by destruct Hs|].
    intros _. unfold tb_first in Hf. destruct (rows (result_ b)) as [|r0 l]; [done|]. by exists r0.
Qed.

(** The range of a decoded table is in the address space. *)
Definition range_u64 (b : TableBuilder) : Prop := is_u64 (pc_begin (result_ b)) ∧ is_u64 (pc_end (result_ b)).

Lemma SetRule_range reg rule b : range_u64 b → keeps range_u64 (SetRule reg rule b).
Proof. intros Hb. apply go_on_keeps. by destruct (_ <=? _). Qed.

Lemma range_u64_preserved : preserved range_u64.
Proof.
  split; cbn; intros; try (by apply SetRule_range); try (by apply go_on_keeps).
  all: first [ apply go_on_keeps; by case_match
             | unfold tb_HandleRememberState; case_bool_decide; [done|by apply go_on_keeps]
             | unfold tb_HandleRestoreState; case_match; [done|by apply go_on_keeps] ].
Qed.

Lemma range_u64_start a b c v : range_u64 v → keeps range_u64 (StartFDE a b c v).
Proof. intros _. apply go_on_keeps. split; apply u64_range. Qed.

Lemma ReadFDE_range mem a s e bias c :
  ReadFDE mem a s e bias = Ok c → is_u64 (pc_begin c) ∧ is_u64 (pc_end c).
Proof.
  unfold ReadFDE, DecodeFDEAt. intros E. inv_ok. rename a0 into b.
  eapply (ParseFDE_keeps range_u64 range_u64) in Ha;
    eauto using range_u64_start, range_u64_preserved.
  - destruct (_ && _); [done|]. inv_ok. simplify_eq. by destruct Ha.
  - intros v Hv. by apply go_on_keeps.
  - cbn. split; cbn; unfold is_u64; lia.
Qed.

(** ** Order of the rows *)

(** The program's locations never pass [hi]: no advance goes beyond the end
    of the function. *)
Fixpoint advances_within (hi ca loc : Z) (p : list cfa_insn) : Prop :=
  loc <= hi ∧
  match p with
  | [] => True
  | I_set_loc l :: p => advances_within hi ca l p
  | I_advance d :: p | I_advance1 d :: p | I_advance2 d :: p | I_advance4 d :: p =>
      advances_within hi ca (loc + d * ca) p
  | _ :: p => advances_within hi ca loc p
  end.

Section sorted.
Context (bias pb : Z).

(** The rows pushed so far are in strict order, below the row being built,
    which starts at the (unbiased) current location. *)
Record sorted_to (loc : Z) (b : TableBuilder) : Prop := {
  so_range : 0 <= bias <= loc;
  so_bias : bias_ b = bias;
  so_begin : pc_begin (result_ b) = pb;
  so_loc : row_pc_ b = loc - bias;
  so_head : match rows (result_ b) with
            | [] => row_pc_ b = pb
            | r0 :: _ => pc_start r0 = pb
            end;
  so_below : Forall (fun r => pc_start r < row_pc_ b) (rows (result_ b));
  so_sorted : ∀ i j x y, (i < j)%nat → rows (result_ b) !! i = Some x →
    rows (result_ b) !! j = Some y → pc_start x < pc_start y
}.

Lemma SetLoc_sorted loc loc' b go b' :
  sorted_to loc b → loc <= loc' < 2 ^ 64 → tb_HandleSetLoc loc' b = Ok (go, b') →
  go = true ∧ sorted_to loc' b'.
Proof.
  intros [Hb Hbi Hpb Hl Hh Hf Hs] Hr [= <- <-]. rewrite Hbi, (u64_id (loc' - bias)) by mach.
  split; [done|]. destruct (Z.ltb_spec (row_pc_ b) (loc' - bias)).
  - split; cbn; try done.
    + lia.
    + by destruct (rows (result_ b)).
    + apply Forall_app. split; [|apply Forall_singleton; cbn; lia].
      eapply Forall_impl; [done|]. cbn. lia.
    + intros i j x y Hij Hx Hy. assert (i < length (rows (result_ b)))%nat as Hi.
      { apply lookup_lt_Some in Hy. rewrite length_app in Hy. cbn in Hy. lia. }
      rewrite lookup_app_l in Hx by done.
      apply lookup_app_Some in Hy as [Hy|[_ Hy]]; [by apply (Hs i j)|].
      apply list_lookup_singleton_Some in Hy as [_ <-]. by apply (Forall_lookup_1 _ _ _ _ Hf Hx).
  - assert (loc' = loc) by lia. subst loc'. rewrite <-Hl. split; cbn; done.
Qed.

Lemma DoSetLoc_sorted loc is_cie st b go st' b' :
  sorted_to (current_loc st) b → current_loc st <= loc < 2 ^ 64 →
  DoSetLoc loc is_cie st b = Ok (go, st', b') →
  go = true ∧ sorted_to loc b' ∧ st' = set_current_loc loc st.
Proof.
  intros Hs Hl. unfold DoSetLoc. destruct is_cie; [done|]. intros E. inv_ok. destruct a as [b1 v1].
  inv_ok. simplify_eq. eapply SetLoc_sorted in Ha as (? & ?); eauto.
Qed.

(** An instruction that is not a location leaves rows and location alone. *)
Definition is_loc (i : cfa_insn) : bool :=
  match i with
  | I_set_loc _ | I_advance _ | I_advance1 _ | I_advance2 _ | I_advance4 _ => true
  | _ => false
  end.

Lemma exec_not_loc is_cie i st b go st' b' :
  is_loc i = false → exec is_cie i st b = Ok (go, st', b') →
  go = true ∧ st' = st ∧ rows (result_ b') = rows (result_ b) ∧
  pc_begin (result_ b') = pc_begin (result_ b) ∧ pc_end (result_ b') = pc_end (result_ b) ∧
  bias_ b' = bias_ b ∧ row_pc_ b' = row_pc_ b.
Proof.
  intros Hi E. destruct i; try done; first
    [ apply keep_ok in E as [E ->];
      cbn in E; unfold tb_HandleRememberState, tb_HandleRestoreState in E;
      repeat case_match; try done; injection E as <- <-; by repeat case_match
    | by injection E as <- <- <- ].
Qed.

(** One location instruction that stays within the function. *)
Lemma exec_loc_sorted hi is_cie i p st b go st' b' :
  is_loc i = true → insn_ok i → 0 <= code_align st → sorted_to (current_loc st) b → hi < 2 ^ 64 →
  advances_within hi (code_align st) (current_loc st) (i :: p) →
  exec is_cie i st b = Ok (go, st', b') →
  ∃ loc, go = true ∧ st' = set_current_loc loc st ∧ sorted_to loc b' ∧
    advances_within hi (code_align st) loc p.
Proof.
  intros Hl Hi Hca Hs Hhi [Hle Hw] E. destruct (so_range _ _ Hs) as [Hb0 Hb1].
  assert (∀ loc', current_loc st <= loc' < 2 ^ 64 →
    DoSetLoc loc' is_cie st b = Ok (go, st', b') → advances_within hi (code_align st) loc' p →
    ∃ loc, go = true ∧ st' = set_current_loc loc st ∧ sorted_to loc b' ∧
      advances_within hi (code_align st) loc p) as Hgo.
  { intros loc' Hr E' Hw'. apply DoSetLoc_sorted in E' as (-> & ? & ->); eauto. }
  destruct i; try done.
  { cbn in E. destruct (Z.ltb_spec loc (current_loc st)); [done|].
    apply (Hgo loc); [unfold insn_ok, is_u64 in Hi; lia|done|done]. }
  all: assert (0 <= delta * code_align st) by (unfold insn_ok, is_u8 in Hi; nia).
  all: assert (current_loc st + delta * code_align st <= hi) by (by destruct p, Hw).
  all: assert (advanced st delta = current_loc st + delta * code_align st) as Ha
         by (apply u64_id; mach).
  all: cbn in E; rewrite Ha in E; refine (Hgo _ _ E Hw); lia.
Qed.

Lemma exec_program_sorted hi p st b go st' b' :
  Forall insn_ok p → 0 <= code_align st → function_end st = hi → hi < 2 ^ 64 →
  advances_within hi (code_align st) (current_loc st) p → sorted_to (current_loc st) b →
  exec_program false p st b = Ok (go, st', b') → sorted_to hi b'.
Proof.
  intros Hp. revert st b.
  induction Hp as [|i p Hi Hp IH]; intros st b Hca Hfe Hhi Hw Hs; cbn [exec_program].
  { intros E. apply DoSetLoc_sorted in E as (_ & ? & _); [by subst|done|].
    destruct Hw. lia. }
  intros E. inv_ok. destruct a as [[go1 st1] b1]. destruct (is_loc i) eqn:Hl.
  - eapply exec_loc_sorted in Ha as (loc & -> & -> & Hs1 & Hw1); eauto.
    by apply (IH (set_current_loc loc st) b1).
  - apply exec_not_loc in Ha as (-> & -> & Hr & Hb1 & _ & Hbi & Hpc); [|done].
    apply (IH st b1); try done.
    + destruct i; try done; by destruct Hw.
    + destruct Hs. split; by rewrite ?Hr, ?Hb1, ?Hbi, ?Hpc.
Qed.
End sorted.

(** C27: for every FDE program that stays inside its function, the decoder and
    the builder leave a well-formed table: its first row starts at
    [pc_begin] and its rows are in strict order, so [RowAt]'s binary search
    is well defined. *)
Theorem decoded_rows_sorted p a st b go st' b' :
  Forall insn_ok p → encodable st p → 0 <= code_align st →
  0 <= bias_ b <= current_loc st → row_pc_ b = current_loc st - bias_ b →
  rows (result_ b) = [] → pc_begin (result_ b) = row_pc_ b →
  current_loc st < function_end st < 2 ^ 64 →
  advances_within (function_end st) (code_align st) (current_loc st) p →
  RunInstructions (mkSlice a (encode_program p)) false st b = Ok (go, st', b') →
  wf_cfi (result_ b').
Proof.
  intros Hp He Hca Hb Hrp Hr Hpb [Hlt Hhi] Hw E. unfold RunInstructions in E.
  rewrite run_loop_encode in E by done.
  eapply (exec_program_sorted (bias_ b) (row_pc_ b)) in E; try done.
  2:{ split; try done; by rewrite Hr. }
  destruct E as [Hb' Hbi Hpb' Hl Hh Hf Hs].
  split; [|done]. destruct (rows (result_ b')) as [|r0 l]; [lia|]. exists r0. split; [done|congruence].
Qed.

(** ** A concrete section

    [push %rbp; ...; pop %rbp; ret] at [[0x1000, 0x1010)], with a CIE as gcc
    emits it and an augmentation string chosen by the caller. *)

Definition record (body : list Z) : list Z := le_split 4 (Z.of_nat (length body)) ++ body.

Definition sample_cie (aug : list Z) : list Z :=
  record ([0; 0; 0; 0; 1] ++ aug ++ [0; 1; 0x78; 16; 1; DW_EH_PE_absptr]
          ++ encode_program [I_def_cfa 7 8; I_offset 16 1]).

Definition sample_program : list cfa_insn :=
  [I_advance 1; I_def_cfa_offset 16; I_offset 6 2; I_advance 9; I_remember_state;
   I_def_cfa 7 8; I_restore 6; I_advance 1; I_restore_state].

Definition sample_fde (cie : list Z) (code : list Z) : list Z :=
  record (le_split 4 (Z.of_nat (length cie) + 4) ++ le_split 8 0x1000 ++ le_split 8 0x10 ++ [0]
          ++ code).

Definition section_mem (base : Z) (bs : list Z) (a : Z) : Z := default 0 (bs !! Z.to_nat (a - base)).

(** The section at 0x4000 holds the CIE and then the FDE. *)
Definition sample_section (aug code : list Z) : list Z :=
  let cie := sample_cie aug in cie ++ sample_fde cie code.
Definition sample_mem (aug code : list Z) : Z → Z := section_mem 0x4000 (sample_section aug code).
Definition sample_fde_addr (aug : list Z) : Z := 0x4000 + Z.of_nat (length (sample_cie aug)).
Definition sample_end (aug code : list Z) : Z :=
  0x4000 + Z.of_nat (length (sample_section aug code)).

Definition aug_zR : list Z := [122; 82].
Definition aug_zRS : list Z := [122; 82; 83].
Definition aug_zSR : list Z := [122; 83; 82].

Definition read_sample (aug : list Z) (p : list cfa_insn) : res CFI :=
  ReadFDE (sample_mem aug (encode_program p)) (sample_fde_addr aug) 0x4000
    (sample_end aug (encode_program p)) 0.

Definition sample_cfi : CFI := Eval vm_compute in
  match read_sample aug_zR sample_program with Ok c => c | Throw _ => empty_cfi 0 end.

Lemma sample_cfi_ok :
  ReadFDE (sample_mem aug_zR (encode_program sample_program)) (sample_fde_addr aug_zR) 0x4000
    (sample_end aug_zR (encode_program sample_program)) 0 = Ok sample_cfi.
Proof. vm_compute. reflexivity. Qed.

Definition sample_row (pc off : Z) (rbp : RegRule) : CFIRow :=
  mkRow pc (mkCFA CFA_RegOffset 7 off)
    (<[6%nat := rbp]> (<[16%nat := RR_AtCFAOffset (-8)]> no_rules)).

Example sample_rows :
  rows sample_cfi =
    [sample_row 0x1000 8 RR_Unset; sample_row 0x1001 16 (RR_AtCFAOffset (-16));
     sample_row 0x100a 8 RR_Unset; sample_row 0x100b 16 (RR_AtCFAOffset (-16))].
Proof. vm_compute. reflexivity. Qed.

(** [RowAt] on a decoded table, shared by the theorem below and the driver's. *)
Lemma decoded_row_at mem a s e bias c pc :
  ReadFDE mem a s e bias = Ok c → pc_begin c <= pc < pc_end c →
  ∃ row, row_at c pc = Some row ∧ row ∈ rows c ∧ row_shape row.
Proof.
  intros E Hpc. apply ReadFDE_inv in E as [Hsh Hr0]. destruct Hr0 as (r0 & H0 & Hle); [lia|].
  destruct (RowAt_total c pc r0 H0) as [i Hi]; [lia|done|].
  destruct (RowAt_lookup c pc i Hi) as [row Hrow]. exists row.
  unfold row_at. rewrite Hi. split; [done|].
  split; [by eapply list_elem_of_lookup_2|by eapply Forall_lookup_1].
Qed.

(** C28: [RowAt] never misses inside a decoded FDE: a table [ReadFDE] returned
    has a row in force at every PC of [[pc_begin, pc_end)], in order or not,
    so the callers' checks that the row exists cannot fire; every row is
    well shaped (17 rules, an 8-bit CFA register, a 64-bit offset). *)
Theorem ReadFDE_row_at mem a s e bias c pc :
  ReadFDE mem a s e bias = Ok c → pc_begin c <= pc < pc_end c →
  ∃ row, row_at c pc = Some row ∧ row ∈ rows c ∧ row_shape row.
Proof. apply decoded_row_at. Qed.

Lemma ReadFDE_row_at_witness :
  ∃ row, row_at sample_cfi 0x100f = Some row ∧ row ∈ rows sample_cfi ∧ row_shape row.
Proof.
  apply (ReadFDE_row_at _ _ _ _ _ _ _ sample_cfi_ok).
  change (0x1000 <= 0x100f < 0x1010). lia.
Defined.

(** The reader's and builder's state after [StartFDE] and the CIE program. *)
Definition sample_state : EHReaderState := mkState 0x1000 0x1010 1 (-8) DW_EH_PE_absptr.
Definition sample_started : TableBuilder :=
  mkBuilder (cfi_started 16 0x1000 0x1010 (empty_cfi 0)) 0 0x1000 (mkCFA CFA_RegOffset 7 8)
    (<[16%nat := RR_AtCFAOffset (-8)]> no_rules) (<[16%nat := RR_AtCFAOffset (-8)]> no_rules) [].

Lemma sample_program_ok : Forall insn_ok sample_program.
Proof. repeat constructor; vm_compute; done. Qed.

Lemma RunInstructions_refines_witness :
  RunInstructions (mkSlice 0 (encode_program sample_program)) false sample_state sample_started =
  exec_program false sample_program sample_state sample_started.
Proof. apply RunInstructions_refines; [exact sample_program_ok|left; reflexivity]. Defined.

Definition sample_final : TableBuilder := Eval vm_compute in
  match exec_program false sample_program sample_state sample_started with
  | Ok (_, _, b) => b
  | Throw _ => sample_started
  end.

Lemma sample_run :
  RunInstructions (mkSlice 0 (encode_program sample_program)) false sample_state sample_started =
  Ok (true, mkState 0x1010 0x1010 1 (-8) DW_EH_PE_absptr, sample_final).
Proof. vm_compute. reflexivity. Qed.

Lemma decoded_rows_sorted_witness : wf_cfi (result_ sample_final).
Proof.
  refine (decoded_rows_sorted _ _ _ _ _ _ _ sample_program_ok _ _ _ _ _ _ _ _ sample_run);
    try reflexivity; try (left; reflexivity); cbn; lia.
Defined.

(** ** [remember_state] and [restore_state] *)

(** Programs in which every [restore_state] closes a [remember_state]. *)
Inductive balanced : list cfa_insn → Prop :=
  | bal_nil : balanced []
  | bal_insn i p : i ≠ I_remember_state → i ≠ I_restore_state → balanced p → balanced (i :: p)
  | bal_pair p q : balanced p → balanced q →
      balanced (I_remember_state :: p ++ I_restore_state :: q).

(** Running instructions only, without closing the last row. *)
Fixpoint exec_seq (is_cie : bool) (p : list cfa_insn) (st : EHReaderState) (b : TableBuilder) :
    res (EHReaderState * TableBuilder) :=
  match p with
  | [] => mret (st, b)
  | i :: p => '(_, st, b) ← exec is_cie i st b; exec_seq is_cie p st b
  end.

Lemma exec_go is_cie i st b go st' b' :
  exec is_cie i st b = Ok (go, st', b') → go = true.
Proof.
  destruct (is_loc i) eqn:Hl; [|by intros E; apply exec_not_loc in E as [-> _]].
  destruct i; try done; cbn; unfold DoSetLoc; repeat case_match; try done;
    by intros [= <- _ _].
Qed.

(** Running a program is running its instructions and then closing the row. *)
Lemma exec_program_seq is_cie p q st b :
  exec_program is_cie (p ++ q) st b =
  '(st, b) ← exec_seq is_cie p st b; exec_program is_cie q st b.
Proof.
  revert st b. induction p as [|i p IH]; intros st b; [done|]. cbn.
  destruct (exec is_cie i st b) as [[[go st1] b1]|] eqn:E; [|done]. cbn.
  by rewrite (exec_go _ _ _ _ _ _ _ E), IH.
Qed.

Lemma exec_seq_app is_cie p q st b :
  exec_seq is_cie (p ++ q) st b = '(st, b) ← exec_seq is_cie p st b; exec_seq is_cie q st b.
Proof.
  revert st b. induction p as [|i p IH]; intros st b; [done|]. cbn.
  destruct (exec is_cie i st b) as [[[go st1] b1]|] eqn:E; [|done]. cbn. by rewrite IH.
Qed.

Lemma exec_stack is_cie i st b go st' b' :
  i ≠ I_remember_state → i ≠ I_restore_state →
  exec is_cie i st b = Ok (go, st', b') → stack_ b' = stack_ b.
Proof.
  intros H1 H2 E. destruct i; try done; cbn in E; unfold DoSetLoc in E; repeat case_match; try done;
    injection E as <- <- <-; by repeat case_match.
Qed.

Lemma balanced_stack is_cie p st b st' b' :
  balanced p → exec_seq is_cie p st b = Ok (st', b') → stack_ b' = stack_ b.
Proof.
  intros Hp. revert st b st' b'.
  induction Hp as [|i p H1 H2 Hp IH|p q Hp IHp Hq IHq]; intros st b st' b'; cbn [exec_seq].
  - by intros [= <- <-].
  - intros E. inv_ok. destruct a as [[? st1] b1]. apply IH in E. rewrite E. by eapply exec_stack.
  - intros E. inv_ok. destruct a as [[? st1] b1]. rewrite exec_seq_app in E. inv_ok.
    destruct a as [st2 b2]. apply IHp in Ha0. cbn [exec_seq] in E. inv_ok.
    destruct a as [[? st3] b3]. apply IHq in E. rewrite E.
    cbn in Ha, Ha1. unfold tb_HandleRememberState in Ha. case_bool_decide; [done|].
    injection Ha as <- <- <-. unfold tb_HandleRestoreState in Ha1. rewrite Ha0 in Ha1. cbn in Ha1.
    by injection Ha1 as <- <- <-.
Qed.

Lemma remember_restore_seq is_cie p st b st' b' :
  balanced p → exec_seq is_cie (I_remember_state :: p ++ [I_restore_state]) st b = Ok (st', b') →
  cur_cfa_ b' = cur_cfa_ b ∧ cur_regs_ b' = cur_regs_ b ∧ stack_ b' = stack_ b.
Proof.
  intros Hp E. cbn [exec_seq] in E. inv_ok. destruct a as [[? st1] b1]. rewrite exec_seq_app in E.
  inv_ok. destruct a as [st2 b2]. apply balanced_stack in Ha0; [|done]. cbn [exec_seq] in E. inv_ok.
  destruct a as [[? st3] b3]. cbn in Ha, Ha1. unfold tb_HandleRememberState in Ha.
  case_bool_decide; [done|]. injection Ha as <- <- <-. unfold tb_HandleRestoreState in Ha1.
  rewrite Ha0 in Ha1. cbn in Ha1. injection Ha1 as <- <- <-. by injection E as <- <-.
Qed.

Lemma exec_end is_cie st b go st' b' :
  exec_program is_cie [] st b = Ok (go, st', b') →
  cur_cfa_ b' = cur_cfa_ b ∧ cur_regs_ b' = cur_regs_ b ∧ stack_ b' = stack_ b.
Proof.
  cbn. destruct is_cie; [by intros [= <- <- <-]|]. intros [= <- <- <-]. by repeat case_match.
Qed.

(** [DW_CFA_restore_state] undoes everything since the matching
    [DW_CFA_remember_state]: after remember, any balanced program and
    restore, the CFA rule, all register rules and the stack are what they
    were (the rows and the location are not rolled back). *)
Lemma remember_restore_roundtrip is_cie p a st b go st' b' :
  balanced p → Forall insn_ok p → fde_ptr_enc st = DW_EH_PE_absptr →
  RunInstructions (mkSlice a (encode_program (I_remember_state :: p ++ [I_restore_state])))
    is_cie st b = Ok (go, st', b') →
  cur_cfa_ b' = cur_cfa_ b ∧ cur_regs_ b' = cur_regs_ b ∧ stack_ b' = stack_ b.
Proof.
  intros Hb Hp He. unfold RunInstructions. rewrite run_loop_encode;
    [|by constructor; [done|]; apply Forall_app; repeat constructor|by left|done].
  rewrite <-(app_nil_r (I_remember_state :: p ++ [I_restore_state])), exec_program_seq.
  intros E. inv_ok. destruct a0 as [st1 b1].
  apply remember_restore_seq in Ha as (<- & <- & <-); [|done]. by eapply exec_end.
Qed.

Definition sample_scope : list cfa_insn := [I_def_cfa 6 16; I_advance 4; I_offset 3 3].

Lemma remember_restore_roundtrip_witness :
  ∃ go st' b',
    RunInstructions (mkSlice 0 (encode_program (I_remember_state :: sample_scope ++ [I_restore_state])))
      false sample_state sample_started = Ok (go, st', b') ∧
    cur_cfa_ b' = cur_cfa_ sample_started ∧ cur_regs_ b' = cur_regs_ sample_started ∧
    stack_ b' = stack_ sample_started.
Proof.
  do 3 eexists.
  assert (RunInstructions (mkSlice 0 (encode_program (I_remember_state :: sample_scope ++ [I_restore_state])))
      false sample_state sample_started = Ok _) as E by (vm_compute; reflexivity).
  split; [exact E|]. refine (remember_restore_roundtrip _ _ _ _ _ _ _ _ _ _ _ E).
  - repeat (constructor; try discriminate).
  - repeat constructor; vm_compute; done.
  - reflexivity.
Defined.

(** ** What the code does beside its documentation *)

(** The augmentation walk stops at ['R'], so the ['S'] (signal frame) of
    the usual string "zRS" is never seen, whatever follows; the same section
    with "zSR" is recognised. *)
Lemma aug_zRS_misses_signal_frame :
  (∀ rest aug_data fe le (b : TableBuilder),
     aug_loop (82 :: rest) aug_data fe le b = aug_loop [82] aug_data fe le b) ∧
  signal_frame <$> (match read_sample aug_zRS sample_program with Ok c => Some c | _ => None end)
    = Some false ∧
  signal_frame <$> (match read_sample aug_zSR sample_program with Ok c => Some c | _ => None end)
    = Some true.
Proof. split; [done|]. split; vm_compute; reflexivity. Qed.

(** Without the bound of [decoded_rows_sorted] the rows can be out of
    order: advances of a CIE whose code alignment is 2^63 wrap around the
    address space, and the table gets two rows for one address. *)
Lemma wrapping_advances_unsorted :
  let st := mkState 0x1000 0x1010 (2 ^ 63) (-8) DW_EH_PE_absptr in
  ∃ st' b',
    RunInstructions (mkSlice 0 (encode_program [I_advance 1; I_advance 1])) false st sample_started
      = Ok (true, st', b') ∧
    pc_start <$> rows (result_ b') = [0x1000; 0x1000] ∧ ¬ wf_cfi (result_ b').
Proof.
  do 2 eexists. split; [vm_compute; reflexivity|]. split; [reflexivity|].
  intros [_ Hs]. specialize (Hs 0%nat 1%nat _ _ ltac:(lia) eq_refl eq_refl). cbn in Hs. lia.
Qed.
