(* ===== verification/CfiRules.v ===== *)
(** * The rules in force at an address

    What DWARF says a CFI program means, without bytes, tables and searches:
    a program transforms a pair of rules and remembered rules, and the rules
    in force at an address are those reached before the first advance beyond
    it.  [ReadFDE_rules]: on memory that holds a CIE and an FDE, looking an
    address up in the table [ReadFDE] of [src/cfi-table.cc] builds gives the
    rules in force there. *)

From stdpp Require Import list.
From S2P Require Import Prelude CfiTable EhFrame TableBuilder Leb128 EhFrameFacts CfiProgram CfiRecord TableFacts.

(** ** The reference *)

(** The current rules and the remembered ones. *)
Definition rules : Type := Saved * list Saved.

Definition set_reg (r : Z) (rule : RegRule) (s : rules) : rules :=
  if kNumDWARFRegs <=? r then s else (mkSaved (saved_cfa s.1) (<[Z.to_nat r := rule]> (saved_regs s.1)), s.2).
Definition set_cfa (c : CFARule) (s : rules) : rules := (mkSaved c (saved_regs s.1), s.2).

(** The location an instruction moves to, if it is an advance. *)
Definition advance (ca loc : Z) (i : cfa_insn) : option Z :=
  match i with
  | I_set_loc l => Some l
  | I_advance d | I_advance1 d | I_advance2 d | I_advance4 d => Some (loc + d * ca)
  | _ => None
  end.

(** One instruction that is not an advance.  [cie] are the rules the CIE
    leaves, which [restore] goes back to; [da] is the data alignment. *)
Definition rule_step (cie : list RegRule) (da : Z) (i : cfa_insn) (s : rules) : option rules :=
  match i with
  | I_offset r o | I_offset_ext r o => Some (set_reg r (RR_AtCFAOffset (s64 (s64 o * da))) s)
  | I_offset_ext_sf r o => Some (set_reg r (RR_AtCFAOffset (s64 (o * da))) s)
  | I_val_offset r o => Some (set_reg r (RR_ValOffset (s64 (s64 o * da))) s)
  | I_val_offset_sf r o => Some (set_reg r (RR_ValOffset (s64 (o * da))) s)
  | I_restore r | I_restore_ext r => Some (set_reg r (default RR_Unset (cie !! Z.to_nat r)) s)
  | I_undefined r => Some (set_reg r RR_Undefined s)
  | I_same_value r => Some (set_reg r RR_SameValue s)
  | I_register r1 r2 => Some (set_reg r1 (RR_InRegister (u8 r2)) s)
  | I_expression r _ => Some (set_reg r RR_Expression s)
  | I_val_expression r _ => Some (set_reg r RR_ValExpression s)
  | I_def_cfa r o => Some (set_cfa (mkCFA CFA_RegOffset (u8 r) (s64 o)) s)
  | I_def_cfa_sf r o => Some (set_cfa (mkCFA CFA_RegOffset (u8 r) (s64 (o * da))) s)
  | I_def_cfa_register r => Some (set_cfa (mkCFA CFA_RegOffset (u8 r) (cfa_offset (saved_cfa s.1))) s)
  | I_def_cfa_offset o => Some (set_cfa (mkCFA CFA_RegOffset (cfa_reg (saved_cfa s.1)) (s64 o)) s)
  | I_def_cfa_offset_sf o => Some (set_cfa (mkCFA CFA_RegOffset (cfa_reg (saved_cfa s.1)) (s64 (o * da))) s)
  | I_def_cfa_expression _ => Some (set_cfa (mkCFA CFA_Expression 0 0) s)
  | I_remember_state => if bool_decide (32 ≤ length s.2)%nat then None else Some (s.1, s.1 :: s.2)
  | I_restore_state => match s.2 with [] => None | r :: rest => Some (r, rest) end
  | I_nop | I_negate_ra_state | I_args_size _ => Some s
  | I_set_loc _ | I_advance _ | I_advance1 _ | I_advance2 _ | I_advance4 _ => None
  end.

(** The rules a CIE's program leaves: it starts from none, and cannot
    advance. *)
Fixpoint run_rules (cie : list RegRule) (da : Z) (p : list cfa_insn) (s : rules) : option rules :=
  match p with
  | [] => Some s
  | i :: p => s ← rule_step cie da i s; run_rules cie da p s
  end.
Definition cie_rules (cd : cie_desc) : option rules :=
  run_rules no_rules (cd_data_align cd) (cd_program cd) (mkSaved CFARule_default no_rules, []).

(** The rules in force at [pc]. *)
Fixpoint in_force (cie : list RegRule) (ca da pc loc : Z) (p : list cfa_insn) (s : rules) : option Saved :=
  match p with
  | [] => Some s.1
  | i :: p =>
      match advance ca loc i with
      | Some loc => if pc <? loc then Some s.1 else in_force cie ca da pc loc p s
      | None => s ← rule_step cie da i s; in_force cie ca da pc loc p s
      end
  end.

Definition rules_at (cd : cie_desc) (fd : fde_desc) (start pc : Z) : option Saved :=
  s ← cie_rules cd;
  in_force (saved_regs s.1) (cd_code_align cd) (cd_data_align cd) pc start (fd_program fd) s.

(** ** The builder runs the reference *)

Definition rules_of (b : TableBuilder) : rules := (mkSaved (cur_cfa_ b) (cur_regs_ b), stack_ b).

Lemma s64_scaled st o : s64 (scaled st o) = s64 (o * data_align st).
Proof. unfold scaled. mach. Qed.

(** A rule that is set, or noted as out of range. *)
Lemma rules_of_set reg rule b :
  let b' := if kNumDWARFRegs <=? reg then with_result cfi_exotic b
            else with_regs (<[Z.to_nat reg := rule]> (cur_regs_ b)) b in
  set_reg reg rule (rules_of b) = rules_of b' ∧ cie_regs_ b' = cie_regs_ b.
Proof. cbv zeta. unfold set_reg. by destruct (_ <=? _). Qed.

Lemma exec_rules is_cie i st b go st' b' :
  is_loc i = false → exec is_cie i st b = Ok (go, st', b') →
  rule_step (cie_regs_ b) (data_align st) i (rules_of b) = Some (rules_of b') ∧ cie_regs_ b' = cie_regs_ b.
Proof.
  intros Hi E. destruct i; try done; cbn [exec] in E; try (by injection E as <- <- <-);
    apply keep_ok in E as [E _]; cbn in E;
    unfold tb_HandleRememberState, tb_HandleRestoreState, tb_HandleOffset, tb_HandleRegister, tb_HandleSameValue,
      tb_HandleUndefined, tb_HandleValOffset, tb_HandleExpression, tb_HandleValExpression, tb_HandleRestore,
      SetRule, go_on in E; cbn [rule_step rules_of fst snd saved_cfa saved_regs].
  all: try (injection E as <- <-; rewrite ?s64_scaled;
            match goal with |- context [set_reg ?r ?x _] => pose proof (rules_of_set r x b) as [-> ->] end; done).
  all: try (injection E as <- <-; rewrite ?s64_scaled; done).
  - destruct (bool_decide _); [done|]. by injection E as <- <-.
  - destruct (stack_ b) as [|[c r] rest]; [done|]. by injection E as <- <-.
Qed.

(** ** The rows of a program *)

Lemma advance_is_loc ca loc i : is_Some (advance ca loc i) ↔ is_loc i = true.
Proof. destruct i; cbn; split; try done; try (by intros []); by eexists. Qed.

(** An advance inside the function moves the location there, or throws. *)
Lemma exec_advance hi i p st (b : TableBuilder) loc go st' b' :
  advance (code_align st) (current_loc st) i = Some loc → insn_ok i → 0 <= code_align st → 0 <= current_loc st →
  advances_within hi (code_align st) (current_loc st) (i :: p) → hi < 2 ^ 64 →
  exec false i st b = Ok (go, st', b') →
  current_loc st <= loc ∧ advances_within hi (code_align st) loc p ∧ DoSetLoc loc false st b = Ok (go, st', b').
Proof.
  intros Ha Hi Hca Hl [Hle Hw] Hhi E. destruct i; try done; injection Ha as <-; cbn in Hi.
  { cbn in E. destruct (Z.ltb_spec loc0 (current_loc st)); done. }
  all: assert (0 <= delta * code_align st) by (unfold is_u8 in Hi; nia).
  all: assert (current_loc st + delta * code_align st <= hi) by (by destruct p, Hw).
  all: assert (advanced st delta = current_loc st + delta * code_align st) as Had by (apply u64_id; unfold is_u64; lia).
  all: cbn in E; rewrite Had in E; split_and!; [lia|done|done].
Qed.

Lemma advances_skip hi ca loc i p :
  is_loc i = false → advances_within hi ca loc (i :: p) → advances_within hi ca loc p.
Proof. destruct i; try done; by intros _ []. Qed.

(** The row in force among new ones that start at [first]. *)
Definition row_for (new : list CFIRow) (pc : Z) (r : Saved) : Prop :=
  ∃ k row, new !! k = Some row ∧ pc_start row <= pc ∧ (∀ row', new !! S k = Some row' → pc < pc_start row')
    ∧ r = mkSaved (row_cfa row) (row_regs row).
Definition first_at (new : list CFIRow) (first : Z) : Prop := ∀ row, head new = Some row → pc_start row = first.

Lemma row_for_here new first next pc c r :
  first_at new next → first <= pc < next → row_for (mkRow first c r :: new) pc (mkSaved c r).
Proof.
  intros Hn Hpc. exists 0%nat, (mkRow first c r). split_and!; [done|cbn; lia| |done].
  intros row' Hr. rewrite (Hn row'); [lia|]. by destruct new.
Qed.
Lemma row_for_later new row pc r : row_for new pc r → row_for (row :: new) pc r.
Proof. intros (k & row' & ?). by exists (S k), row'. Qed.

(** What a move of the location does to the builder. *)
Lemma SetLoc_rows bias loc st (b : TableBuilder) go st' b' :
  bias_ b = bias → 0 <= bias <= current_loc st → row_pc_ b = current_loc st - bias → current_loc st <= loc < 2 ^ 64 →
  DoSetLoc loc false st b = Ok (go, st', b') →
  go = true ∧ st' = set_current_loc loc st ∧ rules_of b' = rules_of b ∧ cie_regs_ b' = cie_regs_ b
  ∧ bias_ b' = bias ∧ row_pc_ b' = loc - bias
  ∧ pc_begin (result_ b') = pc_begin (result_ b) ∧ pc_end (result_ b') = pc_end (result_ b)
  ∧ rows (result_ b') = rows (result_ b) ++
      (if current_loc st <? loc then [mkRow (current_loc st - bias) (cur_cfa_ b) (cur_regs_ b)] else []).
Proof.
  intros Hb Hr Hrp Hl E. cbn in E. unfold tb_HandleSetLoc, go_on in E.
  rewrite Hb, (u64_id (loc - bias)), Hrp in E by (unfold is_u64; lia). injection E as <- <- <-.
  destruct (Z.ltb_spec (current_loc st - bias) (loc - bias)), (Z.ltb_spec (current_loc st) loc); try lia;
    cbn; rewrite ?app_nil_r; split_and!; done.
Qed.

(** The rows a program adds, from its first location to its last. *)
Lemma exec_program_rules bias hi p st (b : TableBuilder) go st' b' :
  Forall insn_ok p → 0 <= code_align st → function_end st = hi → hi < 2 ^ 64 →
  bias_ b = bias → 0 <= bias <= current_loc st → row_pc_ b = current_loc st - bias →
  advances_within hi (code_align st) (current_loc st) p →
  exec_program false p st b = Ok (go, st', b') →
  ∃ new, rows (result_ b') = rows (result_ b) ++ new ∧ first_at new (current_loc st - bias)
    ∧ pc_begin (result_ b') = pc_begin (result_ b) ∧ pc_end (result_ b') = pc_end (result_ b)
    ∧ ∀ pc, current_loc st <= pc < hi → ∃ r,
        in_force (cie_regs_ b) (code_align st) (data_align st) pc (current_loc st) p (rules_of b) = Some r
        ∧ row_for new (pc - bias) r.
Proof.
  intros Hp. revert st b. induction Hp as [|i p Hi Hp IH]; intros st b Hca Hfe Hhi Hb Hbl Hrp Hw E; cbn [exec_program] in E.
  { rewrite Hfe in E.
    eapply (SetLoc_rows bias hi) in E as (-> & -> & Hru & Hcr & Hb1 & Hrp1 & H1 & H2 & H3); [|done..|destruct Hw; lia].
    eexists. split_and!; [exact H3|by case_match; intros ? [= <-]|done|done|].
    intros pc Hpc. exists (rules_of b).1. split; [done|]. rewrite (proj2 (Z.ltb_lt _ _)) by lia.
    apply (row_for_here [] _ (hi - bias)); [done|lia]. }
  inv_ok. destruct a as [[go1 st1] b1]. destruct (advance (code_align st) (current_loc st) i) as [loc|] eqn:Ei.
  - eapply exec_advance in Ha as (Hle & Hw1 & Ha); [|done..|lia|done|done].
    assert (loc <= hi) by (destruct p; apply Hw1).
    eapply (SetLoc_rows bias) in Ha as (-> & -> & Hru & Hcr & Hb1 & Hrp1 & H1 & H2 & H3); [|done..|lia].
    edestruct (IH (set_current_loc loc st) b1) as (new & Hrows & Hfirst & K1 & K2 & Hat); [done..|cbn; lia|done|done|exact E|].
    cbn [current_loc set_current_loc code_align data_align] in Hfirst, Hat.
    eexists. split_and!; [by rewrite Hrows, H3, <- app_assoc| |congruence|congruence|].
    + destruct (Z.ltb_spec (current_loc st) loc); [by intros ? [= <-]|]. by replace (current_loc st) with loc by lia.
    + intros pc Hpc. cbn [in_force]. rewrite Ei. destruct (Z.ltb_spec pc loc).
      * eexists. split; [done|]. rewrite (proj2 (Z.ltb_lt _ _)) by lia. eapply row_for_here; [done|lia].
      * destruct (Hat pc) as (r & Hr & Hrow); [lia|]. rewrite Hru, Hcr in Hr. exists r. split; [done|].
        destruct (_ <? loc); [by apply row_for_later|done].
  - assert (is_loc i = false) as Hl.
    { destruct (is_loc i) eqn:Hl; [|done]. apply advance_is_loc with (ca := code_align st) (loc := current_loc st) in Hl.
      rewrite Ei in Hl. by destruct Hl. }
    pose proof (exec_rules _ _ _ _ _ _ _ Hl Ha) as [Hstep Hcr].
    apply exec_not_loc in Ha as (-> & -> & Hr1 & Hb1 & Hend & Hbi & Hpc1); [|done].
    destruct (IH st b1) as (new & Hrows & Hfirst & K1 & K2 & Hat);
      [done..|congruence|done|congruence|by eapply advances_skip|exact E|].
    exists new. split_and!; [congruence|done|congruence|congruence|].
    intros pc Hpc. cbn [in_force]. rewrite Ei, Hstep. cbn [mbind option_bind]. rewrite <- Hcr. by apply Hat.
Qed.

(** ** Programs that do not throw *)

(** The whole program's rule changes, whatever it advances over. *)
Fixpoint run_all (cie : list RegRule) (da : Z) (p : list cfa_insn) (s : rules) : option rules :=
  match p with
  | [] => Some s
  | i :: p => if is_loc i then run_all cie da p s else s ← rule_step cie da i s; run_all cie da p s
  end.

Lemma exec_total is_cie i st (b : TableBuilder) s :
  rule_step (cie_regs_ b) (data_align st) i (rules_of b) = Some s → ∃ b', exec is_cie i st b = Ok (true, st, b').
Proof.
  intros E. destruct i; try done; cbn in E |- *; try (by eexists).
  - unfold tb_HandleRememberState. destruct (bool_decide _); [done|]. by eexists.
  - unfold tb_HandleRestoreState. destruct (stack_ b); [done|]. by eexists.
Qed.

Lemma exec_advance_total i st (b : TableBuilder) :
  is_loc i = true → no_set_loc i →
  ∃ loc b', exec false i st b = Ok (true, set_current_loc loc st, b') ∧ rules_of b' = rules_of b ∧ cie_regs_ b' = cie_regs_ b.
Proof.
  intros Hl Hn. destruct i; try done; cbn; unfold tb_HandleSetLoc, go_on;
    eexists _, _; (split; [reflexivity|]); by destruct (_ <? _).
Qed.

Lemma exec_program_total p st (b : TableBuilder) s :
  Forall no_set_loc p → run_all (cie_regs_ b) (data_align st) p (rules_of b) = Some s →
  ∃ st' b', exec_program false p st b = Ok (true, st', b').
Proof.
  intros Hp. revert st b. induction Hp as [|i p Hi Hp IH]; intros st b E; cbn [run_all exec_program] in *.
  { cbn. by eexists _, _. }
  destruct (is_loc i) eqn:Hl.
  - destruct (exec_advance_total i st b Hl Hi) as (loc & b1 & -> & Hr & Hc). cbn [mbind res_bind].
    apply IH. by rewrite Hr, Hc.
  - destruct (rule_step _ _ _ _) as [s1|] eqn:Es; [|done]. cbn in E.
    destruct (exec_total false _ _ _ _ Es) as (b1 & Eb). rewrite Eb. cbn [mbind res_bind].
    apply exec_rules in Eb as [Hr Hc]; [|done]. rewrite Es in Hr. injection Hr as ->. apply IH. by rewrite Hc.
Qed.

(** A CIE's program changes the rules only. *)
Lemma exec_cie_rules p st (b : TableBuilder) s :
  run_rules (cie_regs_ b) (data_align st) p (rules_of b) = Some s →
  ∃ b', exec_program true p st b = Ok (true, st, b') ∧ rules_of b' = s ∧ bias_ b' = bias_ b ∧ row_pc_ b' = row_pc_ b
    ∧ rows (result_ b') = rows (result_ b) ∧ pc_begin (result_ b') = pc_begin (result_ b)
    ∧ pc_end (result_ b') = pc_end (result_ b).
Proof.
  revert b. induction p as [|i p IH]; intros b E; cbn [run_rules exec_program] in *.
  { injection E as <-. by exists b. }
  destruct (rule_step _ _ _ _) as [s1|] eqn:Es; [|done]. cbn in E.
  assert (is_loc i = false) as Hl by (by destruct i).
  destruct (exec_total true _ _ _ _ Es) as (b1 & Eb). rewrite Eb. cbn [mbind res_bind].
  pose proof (exec_rules _ _ _ _ _ _ _ Hl Eb) as [Hr Hc].
  rewrite Es in Hr. injection Hr as ->. apply exec_not_loc in Eb as (_ & _ & ? & ? & ? & ? & ?); [|done].
  rewrite <- Hc in E. destruct (IH b1 E) as (b2 & ? & ? & ? & ? & ? & ? & ?). exists b2. split_and!; done || congruence.
Qed.

(** ** The table of an FDE *)

(** Every instruction of the CIE and of the FDE has a meaning: no advance in
    the CIE, no [restore_state] without its [remember_state], no nesting
    beyond the builder's 32 levels. *)
Definition defined_rules (cd : cie_desc) (fd : fde_desc) : Prop :=
  is_Some (s ← cie_rules cd; run_all (saved_regs s.1) (cd_data_align cd) (fd_program fd) s).

(** The search in a sorted table whose rows a program added. *)
Lemma row_for_row_at c pc r :
  wf_cfi c → pc_begin c <= pc < pc_end c → row_for (rows c) pc r →
  ∃ row, row_at c pc = Some row ∧ r = mkSaved (row_cfa row) (row_regs row).
Proof.
  intros Hwf Hpc (k & row & Hk & Hle & Hnext & ->). exists row. split; [|done].
  unfold row_at. by rewrite (proj2 (RowAt_wf_spec c pc k row Hwf Hk Hpc)).
Qed.

Section decoded.
Context (cd : cie_desc) (fd : fde_desc) (Hcd : cie_ok cd) (Hfd : fde_ok fd).
Context (bias start : Z) (Hbias : 0 <= bias <= start) (Hend : start + fd_size fd < 2 ^ 64) (Hsize : 0 < fd_size fd).
Context (Hdef : defined_rules cd fd)
        (Hwithin : advances_within (start + fd_size fd) (cd_code_align cd) start (fd_program fd)).

(** The FDE's program, on a builder that the CIE's program has left. *)
Lemma fde_program_rules st (b : TableBuilder) s :
  current_loc st = start → function_end st = start + fd_size fd → code_align st = cd_code_align cd →
  data_align st = cd_data_align cd →
  bias_ b = bias → row_pc_ b = start - bias → rows (result_ b) = [] →
  pc_begin (result_ b) = start - bias → pc_end (result_ b) = start + fd_size fd - bias →
  rules_of b = s → cie_regs_ b = saved_regs s.1 →
  is_Some (run_all (saved_regs s.1) (cd_data_align cd) (fd_program fd) s) →
  ∃ go st' b', exec_program false (fd_program fd) st b = Ok (go, st', b')
    ∧ pc_begin (result_ b') = start - bias ∧ pc_end (result_ b') = start + fd_size fd - bias ∧ rows (result_ b') ≠ []
    ∧ ∀ pc, start <= pc < start + fd_size fd → ∃ row, row_at (result_ b') (pc - bias) = Some row
        ∧ in_force (saved_regs s.1) (cd_code_align cd) (cd_data_align cd) pc start (fd_program fd) s
          = Some (mkSaved (row_cfa row) (row_regs row)).
Proof.
  intros Hloc Hfe Hca Hda Hb Hrp Hr Hbeg He Hs Hcie (s' & Hrun). destruct (ok_fde_program _ Hfd) as [Hok Hno].
  destruct (exec_program_total (fd_program fd) st b s') as (st' & b' & E); [done|by rewrite Hcie, Hda, Hs|].
  exists true, st', b'. split; [done|].
  assert (0 <= code_align st) as Hca0 by (rewrite Hca; apply Hcd).
  assert (advances_within (start + fd_size fd) (code_align st) (current_loc st) (fd_program fd)) as Hw by congruence.
  destruct (exec_program_rules bias (start + fd_size fd) (fd_program fd) st b true st' b')
    as (new & Hnew & _ & Hb' & He' & Hat); [done..|lia|lia|done|done|].
  rewrite Hloc, Hcie, Hca, Hda, Hs in Hat. rewrite Hr in Hnew. cbn in Hnew.
  assert (sorted_to bias (start - bias) (start + fd_size fd) b') as Hso.
  { eapply exec_program_sorted; [exact Hok|exact Hca0|exact Hfe|lia|exact Hw| |exact E].
    split; try done; try lia; rewrite ?Hr; try done; lia. }
  assert (rows (result_ b') ≠ []) as Hne.
  { destruct (Hat start ltac:(lia)) as (r & _ & k & row & Hk & _). rewrite Hnew. by intros ->. }
  split_and!; [congruence|congruence|done|]. intros pc Hpc. destruct (Hat pc Hpc) as (r & Hr' & Hrow).
  rewrite <- Hnew in Hrow. apply row_for_row_at in Hrow as (row & Hrow & ->); [by exists row| |].
  - split; [|apply Hso]. pose proof (so_head _ _ _ _ Hso) as Hh.
    destruct (rows (result_ b')) as [|r0 l]; [done|]. exists r0. split; [done|congruence].
  - rewrite Hb', He'. lia.
Qed.

(** The builder's table, from [StartFDE] to the end of the program. *)
Lemma decode_fde_rules vaddr pc_field lsda_field :
  u64 (pc_field + fd_start fd) = start →
  ∃ b, decode_fde cd fd pc_field lsda_field (new_builder vaddr bias) = Ok b
    ∧ pc_begin (result_ b) = start - bias ∧ pc_end (result_ b) = start + fd_size fd - bias ∧ rows (result_ b) ≠ []
    ∧ ∀ pc, start <= pc < start + fd_size fd → ∃ row, row_at (result_ b) (pc - bias) = Some row
        ∧ rules_at cd fd start pc = Some (mkSaved (row_cfa row) (row_regs row)).
Proof.
  intros Hst. destruct Hdef as (s2 & Hs). unfold rules_at. destruct (cie_rules cd) as [s|] eqn:Es; [|done]. cbn in Hs.
  unfold decode_fde, unless_stopped. rewrite Hst.
  rewrite (u64_id (start + fd_size fd)) by (unfold is_u64; lia). cbn [StartFDE TableBuilder_visitor].
  unfold tb_StartFDE, go_on. cbn [mbind res_bind mret res_ret negb].
  cbn [bias_ new_builder].
  rewrite (u64_id (start - bias)), (u64_id (start + fd_size fd - bias)) by (unfold is_u64; lia).
  set (st := mkState _ _ _ _ _). set (b1 := with_row_pc _ _).
  destruct (exec_cie_rules (cd_program cd) st b1 s) as (b2 & Eb2 & Hr2 & Hb2 & Hp2 & Hrows2 & Hbeg2 & Hend2); [exact Es|].
  rewrite Eb2. cbn [mbind res_bind negb].
  assert (∃ b3, (if cd_has_lsda cd then HandleLSDA (u64 (lsda_field + fd_lsda fd)) b2 else mret (true, b2)) = Ok (true, b3)
    ∧ rules_of b3 = s ∧ bias_ b3 = bias ∧ row_pc_ b3 = start - bias ∧ rows (result_ b3) = []
    ∧ pc_begin (result_ b3) = start - bias ∧ pc_end (result_ b3) = start + fd_size fd - bias)
    as (b3 & -> & Hr3 & Hb3 & Hp3 & Hrows3 & Hbeg3 & Hend3).
  { destruct (cd_has_lsda cd); [|by exists b2]. cbn. unfold tb_HandleLSDA, go_on.
    destruct (_ =? 0); [by exists b2|]. eexists. split; [reflexivity|]. by split_and!. }
  cbn [mbind res_bind negb AfterCIE TableBuilder_visitor]. unfold tb_AfterCIE, go_on. cbn [mbind res_bind mret res_ret negb].
  destruct (fde_program_rules st (with_cie_regs (cur_regs_ b3) b3) s) as (go & st' & b' & E & H1 & H2 & H3 & H4); try done.
  { rewrite <- Hr3. done. }
  rewrite E. cbn. exists b'. by split_and!.
Qed.
End decoded.

(** C6: the table of an FDE is what its program means.  When the memory holds
    a CIE and an FDE that refers to it, the function they describe lies in
    the address space, and their programs stay inside it and are meaningful,
    [ReadFDE] returns a table for exactly that function, and [RowAt] finds at
    each of its addresses a row with exactly the CFA rule and the register
    rules that are in force there. *)
Theorem ReadFDE_rules mem cd fd cie_addr fde_vaddr sec_start sec_end bias :
  let inp := mkInputs 0 0 (u64 (sec_start + bias)) (u64 (sec_end + bias)) in
  let fde_addr := u64 (fde_vaddr + bias) in
  let start := u64 (fde_addr + 8 + fd_start fd) in
  encoded_at mem inp cd fd cie_addr fde_addr →
  0 <= bias <= start → start + fd_size fd < 2 ^ 64 → 0 < fd_size fd → defined_rules cd fd →
  advances_within (start + fd_size fd) (cd_code_align cd) start (fd_program fd) →
  ∃ c, ReadFDE mem fde_vaddr sec_start sec_end bias = Ok c
    ∧ pc_begin c = start - bias ∧ pc_end c = start + fd_size fd - bias
    ∧ ∀ pc, start <= pc < start + fd_size fd → ∃ row, row_at c (pc - bias) = Some row
        ∧ rules_at cd fd start pc = Some (mkSaved (row_cfa row) (row_regs row)).
Proof.
  intros inp fde_addr start Henc Hb He Hs Hdef Hw.
  destruct (decode_fde_rules cd fd (ea_cie _ _ _ _ _ _ Henc) (ea_fde _ _ _ _ _ _ Henc) bias start Hb He Hs Hdef Hw fde_vaddr (fde_addr + 8) (fde_addr + 17) eq_refl)
    as (b & Eb & H1 & H2 & H3 & H4).
  exists (result_ b). split_and!; [|done..]. unfold ReadFDE. fold inp fde_addr.
  rewrite (DecodeFDEAt_encoded mem inp cd fd cie_addr fde_addr) by done. rewrite Eb. cbn [mbind res_bind].
  by rewrite bool_decide_eq_false_2.
Qed.

(** ** The sample function *)

Example sample_rules :
  (fun pc => saved_cfa <$> rules_at sample_cd sample_fd 0xF027 pc) <$> [0xF027; 0xF028; 0xF02B; 0xF066]
  = [Some (mkCFA CFA_RegOffset 7 8); Some (mkCFA CFA_RegOffset 7 16); Some (mkCFA CFA_RegOffset 6 16);
     Some (mkCFA CFA_RegOffset 7 8)].
Proof. vm_compute. reflexivity. Qed.

Lemma ReadFDE_rules_witness :
  ∃ c, ReadFDE sample_records_mem sample_record_addr sample_cie_addr 0x11000 0 = Ok c
    ∧ pc_begin c = 0xF027 ∧ pc_end c = 0xF067
    ∧ ∀ pc, 0xF027 <= pc < 0xF067 → ∃ row, row_at c (pc - 0) = Some row
        ∧ rules_at sample_cd sample_fd 0xF027 pc = Some (mkSaved (row_cfa row) (row_regs row)).
Proof.
  refine (ReadFDE_rules sample_records_mem sample_cd sample_fd sample_cie_addr sample_record_addr sample_cie_addr
            0x11000 0 sample_encoded _ _ _ _ _);
    first [by eexists; vm_compute; reflexivity|repeat split; vm_compute; (reflexivity || discriminate)].
Defined.
