(* ===== verification/AbsState.v ===== *)
(** * The derived side: abstract values and states

    Models [src/abs-state.h] and [src/abs-state.cc]: the CFI lattice
    ([AbsVal]), the switch-table lattice ([TableVal]), the state at one
    program point, and [Join].  The register arrays are lists of 16, the
    btree of stack slots is a finite map from CFA offsets.  A C++ [assert]ed
    register number is a precondition; out of range the model writes nothing. *)

From stdpp Require Import gmap fin_maps sorting.
From S2P Require Import Prelude CfiTable.

(** ** The CFI lattice *)

Inductive AbsVal :=
  | Top
  | Bottom
  | CFARel (delta : Z)
  | OrigReg (reg : Z)
  | Other.
#[export] Instance AbsVal_eq_dec : EqDecision AbsVal.
Proof. solve_decision. Defined.

(** The [delta] field, which is 0 except for [kCFARel]. *)
Definition av_delta (v : AbsVal) : Z := match v with CFARel d => d | _ => 0 end.

Definition is_top (v : AbsVal) : bool := match v with Top => true | _ => false end.
Definition is_bottom (v : AbsVal) : bool := match v with Bottom => true | _ => false end.
Definition is_unknown (v : AbsVal) : bool := is_top v || is_bottom v.
Definition IsCFARel (v : AbsVal) (d : Z) : bool :=
  match v with CFARel d' => d' =? d | _ => false end.
Definition IsOrigReg (v : AbsVal) (r : Z) : bool :=
  match v with OrigReg r' => r' =? r | _ => false end.

Definition AbsVal_str (v : AbsVal) : string :=
  match v with
  | Top => "unknown"
  | Bottom => "conflict"
  | CFARel d => "CFA" +:+ fmt_plus_d d
  | OrigReg r => "entry " +:+ DWARFRegName r
  | Other => "an unrelated value"
  end.

(** ** The table lattice *)

Definition kBoundTop : Z := 2 ^ 64 - 1.
Definition WidthBound (bits : Z) : Z := if 64 <=? bits then kBoundTop else 2 ^ bits - 1.

(** [TableVal::Kind] with the fields that kind uses; the other fields are
    zero in every value the code builds. *)
Inductive TableId :=
  | T_None
  | T_Conflict
  | T_Const (value : Z)
  | T_TableEntry (table_addr index_reg base_const : Z)
  | T_JumpTarget (table_addr index_reg : Z).
#[export] Instance TableId_eq_dec : EqDecision TableId.
Proof. solve_decision. Defined.

Record TableVal := mkTable { tv_id : TableId; value_bound : Z; table_bound : Z }.
#[export] Instance TableVal_eq_dec : EqDecision TableVal.
Proof. solve_decision. Defined.

Definition TableNone : TableVal := mkTable T_None kBoundTop kBoundTop.
Definition TableConflict : TableVal := mkTable T_Conflict kBoundTop kBoundTop.
Definition TableConst (value : Z) : TableVal := mkTable (T_Const value) kBoundTop kBoundTop.
Definition TableEntry (table_addr index_reg base_const index_bound : Z) : TableVal :=
  mkTable (T_TableEntry table_addr index_reg base_const) kBoundTop index_bound.
Definition JumpTarget (table_addr index_reg index_bound : Z) : TableVal :=
  mkTable (T_JumpTarget table_addr index_reg) kBoundTop index_bound.

Definition is_none (t : TableVal) : bool := match tv_id t with T_None => true | _ => false end.
Definition is_conflict (t : TableVal) : bool :=
  match tv_id t with T_Conflict => true | _ => false end.
Definition IsConst (t : TableVal) : bool := match tv_id t with T_Const _ => true | _ => false end.
Definition ConstValue (t : TableVal) : Z := match tv_id t with T_Const v => v | _ => 0 end.
Definition IsTableEntry (t : TableVal) : bool :=
  match tv_id t with T_TableEntry _ _ _ => true | _ => false end.
Definition IsJumpTarget (t : TableVal) : bool :=
  match tv_id t with T_JumpTarget _ _ => true | _ => false end.
Definition TableAddr (t : TableVal) : Z :=
  match tv_id t with T_TableEntry a _ _ | T_JumpTarget a _ => u64 a | _ => 0 end.
Definition IndexReg (t : TableVal) : Z :=
  match tv_id t with T_TableEntry _ r _ | T_JumpTarget _ r => r | _ => 0 end.
Definition TableBaseConst (t : TableVal) : Z :=
  match tv_id t with T_TableEntry _ _ b => b | _ => 0 end.
Definition HasTableBound (t : TableVal) : bool := negb (table_bound t =? kBoundTop).
Definition tv_ApplyGuardBound (b : Z) (t : TableVal) : TableVal :=
  mkTable (tv_id t) (Z.min (value_bound t) b) (Z.min (table_bound t) b).
Definition tv_ApplyValueBound (b : Z) (t : TableVal) : TableVal :=
  mkTable (tv_id t) (Z.min (value_bound t) b) (table_bound t).
Definition tv_ClearBounds (t : TableVal) : TableVal := mkTable (tv_id t) kBoundTop kBoundTop.
Definition SameIdentity (a b : TableVal) : bool := bool_decide (tv_id a = tv_id b).

Definition TableVal_str (t : TableVal) : string :=
  match tv_id t with
  | T_None => "nothing table-related"
  | T_Conflict => "conflicting table values"
  | T_Const v => "const 0x" +:+ fmt_x (u64 v)
  | T_TableEntry a r _ =>
      "table[" +:+ DWARFRegName r +:+ "] entry (table@0x" +:+ fmt_x (u64 a) +:+ ")"
  | T_JumpTarget a r =>
      "jump target table@0x" +:+ fmt_x (u64 a) +:+ "[" +:+ DWARFRegName r +:+ "]"
  end.

(** ** The state at a program point *)

Record FlagsGuard := mkGuard {
  fg_reg : Z;
  fg_width_bits : Z;
  fg_imm : Z;
  fg_proven_bound : Z
}.
#[export] Instance FlagsGuard_eq_dec : EqDecision FlagsGuard.
Proof. solve_decision. Defined.
Definition proven (g : FlagsGuard) : bool := negb (fg_proven_bound g =? kBoundTop).

Record AbsState := mkAbs {
  gpr : list AbsVal;
  slots : gmap Z AbsVal;
  tbl : list TableVal;
  last_cmp : option FlagsGuard
}.
#[export] Instance AbsState_eq_dec : EqDecision AbsState.
Proof. solve_decision. Defined.

Definition in_gprs (r : Z) : bool := (0 <=? r) && (r <? kNumGPRs).

Definition reg (s : AbsState) (r : Z) : AbsVal :=
  if in_gprs r then default Bottom (gpr s !! Z.to_nat r) else Bottom.
Definition table (s : AbsState) (r : Z) : TableVal :=
  if in_gprs r then default TableNone (tbl s !! Z.to_nat r) else TableNone.

Definition with_gpr (g : list AbsVal) (s : AbsState) : AbsState :=
  mkAbs g (slots s) (tbl s) (last_cmp s).
Definition with_slots (m : gmap Z AbsVal) (s : AbsState) : AbsState :=
  mkAbs (gpr s) m (tbl s) (last_cmp s).
Definition with_tbl (t : list TableVal) (s : AbsState) : AbsState :=
  mkAbs (gpr s) (slots s) t (last_cmp s).
Definition with_last_cmp (c : option FlagsGuard) (s : AbsState) : AbsState :=
  mkAbs (gpr s) (slots s) (tbl s) c.

Definition ApplyGuardBound (r b : Z) (s : AbsState) : AbsState :=
  if in_gprs r then with_tbl (alter (tv_ApplyGuardBound b) (Z.to_nat r) (tbl s)) s else s.
Definition ApplyValueBound (r b : Z) (s : AbsState) : AbsState :=
  if in_gprs r then with_tbl (alter (tv_ApplyValueBound b) (Z.to_nat r) (tbl s)) s else s.
Definition ClearBounds (r : Z) (s : AbsState) : AbsState :=
  with_tbl (alter tv_ClearBounds (Z.to_nat r) (tbl s)) s.

(** *** Stack slots *)

Definition Slot (s : AbsState) (offset : Z) : AbsVal := default Top (slots s !! offset).

Definition SetSlot (offset : Z) (v : AbsVal) (s : AbsState) : AbsState :=
  if is_top v then with_slots (delete offset (slots s)) s
  else with_slots (<[offset := v]> (slots s)) s.

Definition DropSlotsBelow (rsp_delta : Z) (s : AbsState) : AbsState :=
  with_slots (filter (fun kv => rsp_delta <= kv.1) (slots s)) s.

Definition kRedZoneBytes : Z := 128.

Definition DropDeadSlots (rsp_delta : Z) (s : AbsState) : AbsState :=
  DropSlotsBelow (s64 (rsp_delta - kRedZoneBytes)) s.

(** *** Register writes *)

Definition InvalidateLastCmpFor (r : Z) (s : AbsState) : AbsState :=
  match last_cmp s with
  | Some g => if fg_reg g =? r then with_last_cmp None s else s
  | None => s
  end.

Definition SetReg (r : Z) (v : AbsVal) (t : TableVal) (s : AbsState) : AbsState :=
  let s := with_gpr (<[Z.to_nat r := v]> (gpr s)) s in
  let s := with_tbl (<[Z.to_nat r := t]> (tbl s)) s in
  let s := InvalidateLastCmpFor r s in
  match v with
  | CFARel d => if r =? kDWARFRsp then DropDeadSlots d s else s
  | _ => s
  end.
Definition SetReg1 (r : Z) (v : AbsVal) (s : AbsState) : AbsState := SetReg r v TableNone s.
Definition SetTableReg (r : Z) (t : TableVal) (s : AbsState) : AbsState := SetReg r Other t s.
Definition CopyReg (dst src : Z) (s : AbsState) : AbsState :=
  SetReg dst (reg s src) (table s src) s.
Definition ClobberReg (r : Z) (s : AbsState) : AbsState := SetReg r Top TableNone s.

(** *** Initial states *)

Definition blank : AbsState := mkAbs (replicate 16 Top) ∅ (replicate 16 TableNone) None.
Definition orig_regs : list AbsVal := OrigReg <$> range0 kNumGPRs.

Definition Entry : AbsState :=
  mkAbs (<[Z.to_nat kDWARFRsp := CFARel (-8)]> orig_regs)
        {[ (-8) := OrigReg kDWARFRip ]} (replicate 16 TableNone) None.

Definition set_gpr (r : Z) (v : AbsVal) (s : AbsState) : AbsState :=
  if r <? kNumGPRs then with_gpr (<[Z.to_nat r := v]> (gpr s)) s else s.

(** One turn of [SeedFromRow]'s loop, for DWARF register [r]. *)
Definition seed_reg (row : CFIRow) (at_function_entry : bool) (s : AbsState) (r : Z) : AbsState :=
  match row_reg row r with
  | RR_Unset => if negb at_function_entry then set_gpr r Top s else s
  | RR_SameValue => s
  | RR_AtCFAOffset o => with_slots (<[o := OrigReg r]> (slots s)) s
  | RR_InRegister g => set_gpr g (OrigReg r) s
  | RR_ValOffset o => set_gpr r (CFARel o) s
  | RR_Undefined | RR_Expression | RR_ValExpression => set_gpr r Top s
  end.

Definition SeedFromRow (row : CFIRow) (at_function_entry : bool) : AbsState :=
  let s := with_gpr orig_regs blank in
  let s := foldl (seed_reg row at_function_entry) s (range0 kNumDWARFRegs) in
  let s := set_gpr kDWARFRsp Top s in
  match cfa_kind (row_cfa row) with
  | CFA_RegOffset => set_gpr (cfa_reg (row_cfa row)) (CFARel (s64 (- cfa_offset (row_cfa row)))) s
  | _ => s
  end.

(** ** Join *)

Record JoinValueResult := mkJVR { jv_value : AbsVal; jv_changed : bool; jv_conflict : bool }.

Definition JoinValue (current incoming : AbsVal) : JoinValueResult :=
  if bool_decide (current = incoming) then mkJVR current false false
  else if is_bottom current then mkJVR current false false
  else if is_bottom incoming then mkJVR Bottom true false
  else if is_top current then mkJVR incoming true false
  else if is_top incoming then mkJVR current false false
  else mkJVR Bottom true true.

Definition JoinTableValue (current incoming : TableVal) : TableVal :=
  let merged :=
    if is_conflict current || is_conflict incoming then TableConflict
    else if SameIdentity current incoming then current
    else if is_none current then incoming
    else if is_none incoming then current
    else TableConflict in
  mkTable (tv_id merged) (Z.max (value_bound current) (value_bound incoming))
          (Z.max (table_bound current) (table_bound incoming)).

Definition kSlotConflict : Z := -1.
Record JoinConflict := mkConflict { jc_reg : Z; jc_offset : Z; jc_lhs : AbsVal; jc_rhs : AbsVal }.
#[export] Instance JoinConflict_eq_dec : EqDecision JoinConflict.
Proof. solve_decision. Defined.

Definition Describe (c : JoinConflict) : string :=
  if jc_reg c =? kSlotConflict then
    "stack slot CFA" +:+ fmt_plus_d (s32 (jc_offset c)) +:+ " is " +:+ AbsVal_str (jc_lhs c)
      +:+ " on one path and " +:+ AbsVal_str (jc_rhs c) +:+ " on another"
  else
    DWARFRegName (jc_reg c) +:+ " is " +:+ AbsVal_str (jc_lhs c)
      +:+ " on one path and " +:+ AbsVal_str (jc_rhs c) +:+ " on another".

(** What the loops of [Join] thread through: the state being updated, the
    [changed] flag and the conflicts reported so far. *)
Record join_acc := mkAcc { ja_state : AbsState; ja_changed : bool; ja_conflicts : list JoinConflict }.

(** One turn of the register loop. *)
Definition join_reg (incoming : AbsState) (acc : join_acc) (r : Z) : join_acc :=
  let s := ja_state acc in
  let result := JoinValue (reg s r) (reg incoming r) in
  let conflicts :=
    if jv_conflict result
    then ja_conflicts acc ++ [mkConflict r 0 (reg s r) (reg incoming r)] else ja_conflicts acc in
  let s1 := if jv_changed result
            then with_gpr (<[Z.to_nat r := jv_value result]> (gpr s)) s else s in
  let merged := JoinTableValue (table s r) (table incoming r) in
  let table_changed := negb (bool_decide (merged = table s r)) in
  let s2 := if table_changed then with_tbl (<[Z.to_nat r := merged]> (tbl s1)) s1 else s1 in
  mkAcc s2 (ja_changed acc || jv_changed result || table_changed) conflicts.

(** The keys of a slot map in the btree's order. *)
Definition slot_keys (m : gmap Z AbsVal) : list Z := merge_sort Z.le (elements (dom m)).

(** One turn of the loop over the state's own slots. *)
Definition join_slot (incoming : AbsState) (acc : join_acc) (offset : Z) : join_acc :=
  let s := ja_state acc in
  match slots s !! offset, slots incoming !! offset with
  | Some cur, Some inc =>
      if is_bottom cur then acc
      else
        let result := JoinValue cur inc in
        mkAcc (if jv_changed result
               then with_slots (<[offset := jv_value result]> (slots s)) s else s)
              (ja_changed acc || jv_changed result)
              (if jv_conflict result
               then ja_conflicts acc ++ [mkConflict kSlotConflict offset cur inc]
               else ja_conflicts acc)
  | _, _ => acc
  end.

(** One turn of the loop over the incoming slots. *)
Definition adopt_slot (incoming : AbsState) (acc : join_acc) (offset : Z) : join_acc :=
  let s := ja_state acc in
  match slots s !! offset, slots incoming !! offset with
  | None, Some v =>
      mkAcc (with_slots (<[offset := v]> (slots s)) s) true (ja_conflicts acc)
  | _, _ => acc
  end.

Definition join_last_cmp (incoming : AbsState) (acc : join_acc) : join_acc :=
  let s := ja_state acc in
  match last_cmp s with
  | Some _ =>
      if bool_decide (last_cmp s = last_cmp incoming) then acc
      else mkAcc (with_last_cmp None s) true (ja_conflicts acc)
  | None => acc
  end.

(** [Join(incoming, &state, &conflicts)]: the new state, whether it changed,
    and the conflicts pushed. *)
Definition Join (incoming state : AbsState) : AbsState * bool * list JoinConflict :=
  let acc := mkAcc state false [] in
  let acc := foldl (join_reg incoming) acc (range0 kNumGPRs) in
  let acc := foldl (join_slot incoming) acc (slot_keys (slots (ja_state acc))) in
  let acc := foldl (adopt_slot incoming) acc (slot_keys (slots incoming)) in
  let acc := join_last_cmp incoming acc in
  (ja_state acc, ja_changed acc, ja_conflicts acc).

Definition joined (incoming state : AbsState) : AbsState := (Join incoming state).1.1.
