(* ===== verification/AbsStateTests.v ===== *)
(** * The unit tests of the abstract state

    Models [src/abs-state-test.cc]: one boolean per [TEST], its expectations
    in order, evaluated on the definitions of [AbsState].  [AbsState s;] is
    [blank]; [EXPECT_TRUE(Join(b, &a, &conflicts))] is the changed flag of
    [Join b a], whose state replaces [a].  [abs_state_tests_pass] runs all of
    them, which checks the model against the behaviour the authors wrote
    down. *)

From stdpp Require Import gmap strings.
From S2P Require Import Prelude CfiTable AbsState.

#[local] Notation "x == y" := (bool_decide (x = y)) (at level 70).
#[local] Notation "x != y" := (negb (bool_decide (x = y))) (at level 70).

Definition joined_state (j : AbsState * bool * list JoinConflict) : AbsState := j.1.1.
Definition changed (j : AbsState * bool * list JoinConflict) : bool := j.1.2.
Definition conflicts (j : AbsState * bool * list JoinConflict) : list JoinConflict := j.2.

(** [testing::HasSubstr]. *)
Fixpoint has_substr (needle hay : string) : bool :=
  String.prefix needle hay || match hay with String _ hay => has_substr needle hay | EmptyString => false end.

(** A guard no branch has used yet. *)
Definition cmp_guard (r width imm : Z) : FlagsGuard := mkGuard r width imm kBoundTop.

(** A row with these rules and no others. *)
Definition test_row (cfa : CFARule) (rules : list (Z * RegRule)) : CFIRow :=
  mkRow 0 cfa (foldl (fun rs r => <[Z.to_nat r.1 := r.2]> rs) no_rules rules).
Definition reg_offset (r off : Z) : CFARule := mkCFA CFA_RegOffset r off.

(** ** AbsVal *)

Definition t_TopIsTheDefaultAndIsNeitherBottomNorConcrete : bool :=
  let v := Top in
  is_top v && is_unknown v && negb (is_bottom v) && negb (IsCFARel v 0) && negb (IsOrigReg v 0) && (v == Top).

Definition t_BottomIsUnknownButDistinctFromTop : bool :=
  let v := Bottom in is_bottom v && is_unknown v && negb (is_top v) && (v != Top).

Definition t_CFARelAndOrigRegAreConcreteNotUnknown : bool :=
  let cfa := CFARel (-16) in
  let orig := OrigReg kDWARFRbx in
  IsCFARel cfa (-16) && negb (IsCFARel cfa (-8)) && negb (is_unknown cfa)
  && IsOrigReg orig kDWARFRbx && negb (IsOrigReg orig kDWARFRax) && negb (is_unknown orig).

Definition t_EqualityDistinguishesEveryKind : bool :=
  (Top != Bottom) && (Top != CFARel 0) && (Bottom != CFARel 0) && (CFARel 8 != CFARel (-8))
  && (OrigReg kDWARFRax != OrigReg kDWARFRbx) && (CFARel 0 != OrigReg kDWARFRax) && (Bottom == Bottom).

Definition t_StringifyNamesTopAndBottomDistinctly : bool :=
  (AbsVal_str Top == "unknown") && (AbsVal_str Bottom == "conflict") && (AbsVal_str (CFARel 8) == "CFA+8")
  && (AbsVal_str (CFARel (-16)) == "CFA-16") && (AbsVal_str (OrigReg kDWARFRbx) == "entry rbx")
  && (AbsVal_str Other == "an unrelated value").

(** ** Entry *)

Definition t_EntryStateIsTheCanonicalCallFrame : bool :=
  let s := Entry in
  IsCFARel (reg s kDWARFRsp) (-8) && IsOrigReg (reg s kDWARFRbx) kDWARFRbx
  && IsOrigReg (Slot s (-8)) kDWARFRip && is_unknown (Slot s (-16)).

Definition t_EntryStateGivesEveryOtherGprItsOwnOriginalValue : bool :=
  forallb (fun r => (r =? kDWARFRsp) || IsOrigReg (reg Entry r) r) (range0 kNumGPRs).

(** ** Slots *)

Definition t_SlotDefaultsToTopWhenNeverSet : bool := is_top (Slot blank (-8)).

Definition t_SetSlotStoresAConcreteValueAndReadsItBack : bool :=
  IsOrigReg (Slot (SetSlot (-16) (OrigReg kDWARFRbx) blank) (-16)) kDWARFRbx.

Definition t_SetSlotWithTopErasesRatherThanStoring : bool :=
  let s := SetSlot (-16) (OrigReg kDWARFRbx) blank in
  let s := SetSlot (-16) Top s in
  is_top (Slot s (-16)) && (slots s !! (-16) == None).

Definition t_SetSlotWithBottomIsStoredExplicitly : bool :=
  let s := SetSlot (-16) Bottom blank in
  is_bottom (Slot s (-16)) && (slots s !! (-16) != None).

Definition t_ClobberRegDropsToTop : bool := is_top (reg (ClobberReg kDWARFRax Entry) kDWARFRax).

Definition t_DroppingDeadSlotsSparesTheRedZone : bool :=
  let s := SetSlot (-16) (OrigReg kDWARFRbx) Entry in
  let s := SetSlot (-400) (OrigReg kDWARFRbp) s in
  let s := DropDeadSlots (-8) s in
  IsOrigReg (Slot s (-16)) kDWARFRbx && is_top (Slot s (-400)).

Definition t_DropSlotsBelowIsExactForCalls : bool :=
  let s := SetSlot (-16) (OrigReg kDWARFRbx) Entry in
  is_top (Slot (DropSlotsBelow (-8) s) (-16)).

Definition t_DropSlotsBelowKeepsTheBoundarySlot : bool :=
  let s := SetSlot (-8) (OrigReg kDWARFRbx) blank in
  let s := SetSlot (-16) (OrigReg kDWARFRbp) s in
  let s := DropSlotsBelow (-8) s in
  IsOrigReg (Slot s (-8)) kDWARFRbx && is_top (Slot s (-16)).

Definition t_DropDeadSlotsKeepsTheRedZoneBoundarySlot : bool :=
  let s := SetSlot (-8 - kRedZoneBytes) (OrigReg kDWARFRbx) blank in
  let s := SetSlot (-9 - kRedZoneBytes) (OrigReg kDWARFRbp) s in
  let s := DropDeadSlots (-8) s in
  IsOrigReg (Slot s (-8 - kRedZoneBytes)) kDWARFRbx && is_top (Slot s (-9 - kRedZoneBytes)).

Definition t_SetRegRspAutomaticallyDropsDeadSlots : bool :=
  let s := SetSlot (-16) (OrigReg kDWARFRbx) Entry in
  let s := SetSlot (-400) (OrigReg kDWARFRbp) s in
  let s := SetReg1 kDWARFRsp (CFARel (-8)) s in
  IsOrigReg (Slot s (-16)) kDWARFRbx && is_top (Slot s (-400)).

(** ** Join: registers *)

(** One conflict, about register [r]. *)
Definition one_conflict (r : Z) (j : AbsState * bool * list JoinConflict) : bool :=
  match conflicts j with [c] => jc_reg c =? r | _ => false end.
Definition no_conflict (j : AbsState * bool * list JoinConflict) : bool := conflicts j == [].

Definition t_JoinKeepsAgreementAndDropsDisagreement : bool :=
  let a := Entry in
  let b := SetReg1 kDWARFRbx (CFARel (-32)) Entry in
  let j := Join b a in
  let a := joined_state j in
  changed j && is_bottom (reg a kDWARFRbx) && IsCFARel (reg a kDWARFRsp) (-8) && one_conflict kDWARFRbx j.

Definition t_JoinReportsRatherThanSilentlyWidening : bool :=
  let a := SetReg1 kDWARFRsp (CFARel (-16)) Entry in
  let b := SetReg1 kDWARFRsp (CFARel (-24)) Entry in
  let j := Join b a in
  one_conflict kDWARFRsp j
  && forallb (fun c => has_substr "CFA-16" (Describe c) && has_substr "CFA-24" (Describe c)) (conflicts j).

Definition t_JoinIsIdempotentOnceWidened : bool :=
  let a := Entry in
  let b := SetReg1 kDWARFRbx (CFARel (-32)) Entry in
  let j := Join b a in
  changed j && negb (changed (Join b (joined_state j))).

Definition t_JoinTopIsTheIdentityElementForRegisters : bool :=
  let j := Join (SetReg1 kDWARFRax (CFARel 8) blank) blank in
  changed j && IsCFARel (reg (joined_state j) kDWARFRax) 8 && no_conflict j.

Definition t_JoinLeavesAConcreteRegisterAloneWhenIncomingIsTop : bool :=
  let j := Join blank (SetReg1 kDWARFRax (CFARel 8) blank) in
  negb (changed j) && IsCFARel (reg (joined_state j) kDWARFRax) 8 && no_conflict j.

Definition t_JoinBottomRegisterAbsorbsAnIncomingTop : bool :=
  let j := Join blank (SetReg1 kDWARFRax Bottom blank) in
  negb (changed j) && is_bottom (reg (joined_state j) kDWARFRax) && no_conflict j.

Definition t_JoinBottomRegisterAbsorbsAnIncomingConcreteValue : bool :=
  let j := Join (SetReg1 kDWARFRax (CFARel 8) blank) (SetReg1 kDWARFRax Bottom blank) in
  negb (changed j) && is_bottom (reg (joined_state j) kDWARFRax) && no_conflict j.

Definition t_JoinPropagatesAnIncomingBottomRegisterWithoutReReporting : bool :=
  let j := Join (SetReg1 kDWARFRax Bottom blank) (SetReg1 kDWARFRax (CFARel 8) blank) in
  changed j && is_bottom (reg (joined_state j) kDWARFRax) && no_conflict j.

Definition t_JoinDoesNotReReportAFreshDisagreementAfterGoingBottom : bool :=
  let a := SetReg1 kDWARFRax (CFARel 8) blank in
  let b := SetReg1 kDWARFRax (CFARel 16) blank in
  let j := Join b a in
  let a := joined_state j in
  let c := SetReg1 kDWARFRax (CFARel 24) blank in
  let j' := Join c a in
  changed j && one_conflict kDWARFRax j && is_bottom (reg a kDWARFRax)
  && negb (changed j') && is_bottom (reg (joined_state j') kDWARFRax) && no_conflict j'.

(** ** Join: slots *)

Definition rbx_slot : AbsState := SetSlot (-16) (OrigReg kDWARFRbx) blank.
Definition bottom_slot : AbsState := SetSlot (-16) Bottom blank.

Definition t_JoinSlotsAgreeAndSurvive : bool :=
  let j := Join rbx_slot rbx_slot in
  negb (changed j) && IsOrigReg (Slot (joined_state j) (-16)) kDWARFRbx && no_conflict j.

Definition t_JoinKeepsASlotOnlyStateNames : bool :=
  let j := Join blank (SetSlot (-24) (OrigReg kDWARFRbp) blank) in
  negb (changed j) && IsOrigReg (Slot (joined_state j) (-24)) kDWARFRbp.

Definition t_JoinImportsASlotOnlyIncomingNames : bool :=
  let j := Join (SetSlot (-24) (OrigReg kDWARFRbp) blank) blank in
  changed j && IsOrigReg (Slot (joined_state j) (-24)) kDWARFRbp.

Definition t_JoinSlotsDisagreeAndDropToBottom : bool :=
  let j := Join (SetSlot (-16) (OrigReg kDWARFRbp) blank) rbx_slot in
  changed j && is_bottom (Slot (joined_state j) (-16)) && one_conflict kSlotConflict j
  && forallb (fun c => (jc_offset c =? -16) && has_substr "stack slot" (Describe c)
                       && has_substr "CFA-16" (Describe c)) (conflicts j).

Definition t_JoinBottomSlotAbsorbsAnIncomingConcreteValue : bool :=
  let j := Join rbx_slot bottom_slot in
  negb (changed j) && is_bottom (Slot (joined_state j) (-16)) && no_conflict j.

Definition t_JoinBottomSlotSurvivesEvenWhenIncomingLacksIt : bool :=
  let j := Join blank bottom_slot in negb (changed j) && is_bottom (Slot (joined_state j) (-16)).

Definition t_JoinPropagatesAnIncomingBottomSlotWithoutReReporting : bool :=
  let j := Join bottom_slot rbx_slot in
  changed j && is_bottom (Slot (joined_state j) (-16)) && no_conflict j.

Definition t_JoinImportsABottomSlotOnlyIncomingNames : bool :=
  let j := Join bottom_slot blank in
  changed j && is_bottom (Slot (joined_state j) (-16)) && no_conflict j.

(** ** Join: order independence *)

Definition t_JoinOrderDoesNotMatterForRegisters : bool :=
  let a := SetReg1 kDWARFRax (CFARel 8) blank in
  let a := SetReg1 kDWARFRbx Bottom a in
  let a := SetReg1 kDWARFRcx (OrigReg kDWARFRcx) a in
  let a := SetReg1 kDWARFRdx (CFARel (-16)) a in
  let b := SetReg1 kDWARFRbx (CFARel 0) blank in
  let b := SetReg1 kDWARFRcx (OrigReg kDWARFRcx) b in
  let b := SetReg1 kDWARFRdx (CFARel (-24)) b in
  let b := SetReg1 kDWARFRsi (CFARel 32) b in
  (joined_state (Join a b) == joined_state (Join b a))
  && (length (conflicts (Join a b)) == length (conflicts (Join b a))).

Definition t_JoinOrderDoesNotMatterForSlots : bool :=
  let a := SetSlot (-8) (OrigReg kDWARFRbx) blank in
  let a := SetSlot (-16) Bottom a in
  let a := SetSlot (-24) (OrigReg kDWARFRbp) a in
  let a := SetSlot (-32) (CFARel (-40)) a in
  let b := SetSlot (-16) (OrigReg kDWARFRbx) blank in
  let b := SetSlot (-24) (OrigReg kDWARFRbp) b in
  let b := SetSlot (-32) (CFARel (-48)) b in
  let b := SetSlot (-40) (OrigReg 12) b in
  (joined_state (Join a b) == joined_state (Join b a))
  && (length (conflicts (Join a b)) == length (conflicts (Join b a))).

(** ** SeedFromRow *)

Definition t_SeedFromRowReproducesEntryForACanonicalRow : bool :=
  SeedFromRow (test_row (reg_offset kDWARFRsp 8) [(kDWARFRip, RR_AtCFAOffset (-8))]) true == Entry.

Definition t_SeedFromRowHandlesAFragmentStartingMidFrame : bool :=
  let row := test_row (reg_offset kDWARFRsp 32)
               [(kDWARFRip, RR_AtCFAOffset (-8)); (kDWARFRbx, RR_AtCFAOffset (-24))] in
  let s := SeedFromRow row false in
  IsCFARel (reg s kDWARFRsp) (-32) && IsOrigReg (Slot s (-24)) kDWARFRbx
  && IsOrigReg (Slot s (-8)) kDWARFRip && is_top (reg s kDWARFRax).

Definition t_SeedFromRowAtEntryTrustsUnmentionedRegistersAsOriginal : bool :=
  let s := SeedFromRow (test_row (reg_offset kDWARFRsp 8) [(kDWARFRip, RR_AtCFAOffset (-8))]) true in
  IsOrigReg (reg s kDWARFRax) kDWARFRax && IsOrigReg (reg s kDWARFRbx) kDWARFRbx.

Definition t_SeedFromRowAwayFromEntryTrustsAnExplicitSameValueRule : bool :=
  let s := SeedFromRow (test_row (reg_offset kDWARFRsp 32) [(kDWARFRbx, RR_SameValue)]) false in
  IsOrigReg (reg s kDWARFRbx) kDWARFRbx && is_top (reg s kDWARFRax).

Definition t_SeedFromRowHandlesAValOffsetRule : bool :=
  let s := SeedFromRow (test_row (reg_offset kDWARFRsp 16) [(kDWARFRax, RR_ValOffset (-16))]) false in
  IsCFARel (reg s kDWARFRax) (-16).

Definition t_SeedFromRowHandlesAnInRegisterRule : bool :=
  let s := SeedFromRow (test_row (reg_offset kDWARFRsp 16) [(kDWARFRbp, RR_InRegister kDWARFRax)]) false in
  IsOrigReg (reg s kDWARFRax) kDWARFRbp.

Definition t_SeedFromRowTreatsUndefinedAndExpressionRulesAsTopRegardlessOfEntry : bool :=
  forallb (fun at_entry =>
    let row := test_row (reg_offset kDWARFRsp 16)
                 [(kDWARFRax, RR_Undefined); (kDWARFRbx, RR_Expression); (kDWARFRcx, RR_ValExpression)] in
    let s := SeedFromRow row at_entry in
    is_top (reg s kDWARFRax) && is_top (reg s kDWARFRbx) && is_top (reg s kDWARFRcx)) [true; false].

Definition t_SeedFromRowLetsTheCFARuleOverrideAnUnmentionedRegister : bool :=
  IsCFARel (reg (SeedFromRow (test_row (reg_offset kDWARFRbp 16) []) false) kDWARFRbp) (-16).

Definition t_SeedFromRowLeavesRspTopWhenTheCFAIsNotRspBased : bool :=
  is_top (reg (SeedFromRow (test_row (reg_offset kDWARFRbp 16) []) false) kDWARFRsp).

Definition t_SeedFromRowRefusesToGuessWhenTheCFAIsAnExpression : bool :=
  is_top (reg (SeedFromRow (test_row (mkCFA CFA_Expression 0 0) []) true) kDWARFRsp).

(** ** The table lattice *)

Definition rax_table (t : TableVal) : AbsState := SetTableReg kDWARFRax t blank.
Definition rax_guard (b : Z) : AbsState := ApplyGuardBound kDWARFRax b blank.

Definition t_JoinOfDifferingTableValuesGivesUpWithoutAConflict : bool :=
  let j := Join (rax_table (TableConst 0x2000)) (rax_table (TableConst 0x1000)) in
  let a := joined_state j in
  changed j && (reg a kDWARFRax == Other) && is_conflict (table a kDWARFRax) && no_conflict j.

Definition t_JoinOfATableEntryAndAJumpTargetAlsoGivesUpWithoutAConflict : bool :=
  let a := rax_table (TableEntry 0x1000 kDWARFRcx 0x1000 kBoundTop) in
  let b := rax_table (JumpTarget 0x2000 kDWARFRcx kBoundTop) in
  let j := Join b a in
  changed j && is_conflict (table (joined_state j) kDWARFRax) && no_conflict j.

Definition t_ATableValueSurvivesAPathThatKnowsNothingAboutIt : bool :=
  let a := rax_table (JumpTarget 0x1000 kDWARFRcx 9) in
  let b := SetReg1 kDWARFRax Other blank in
  let j := Join b a in
  let t := table (joined_state j) kDWARFRax in
  IsJumpTarget t && (table_bound t =? kBoundTop) && no_conflict j.

Definition t_ATableValueGivenUpOnIsNotResurrectedByAThirdPredecessor : bool :=
  let j := Join (rax_table (TableConst 0x2000)) (rax_table (TableConst 0x1000)) in
  let a := joined_state j in
  let j' := Join (rax_table (TableConst 0x3000)) a in
  changed j && is_conflict (table a kDWARFRax)
  && negb (changed j') && is_conflict (table (joined_state j') kDWARFRax) && no_conflict j && no_conflict j'.

Definition t_JoinOfATableValueAndAnUnrelatedConcreteValueStillConflicts : bool :=
  let j := Join (SetReg1 kDWARFRax (CFARel (-8)) blank) (rax_table (TableConst 0x1000)) in
  changed j && is_bottom (reg (joined_state j) kDWARFRax) && one_conflict kDWARFRax j.

Definition t_JoinOfTwoJumpTargetsWithTheSameIdentityMergesJustTheBound : bool :=
  let a := rax_table (JumpTarget 0x1000 kDWARFRcx 9) in
  let b := rax_table (JumpTarget 0x1000 kDWARFRcx kBoundTop) in
  let j := Join b a in
  let t := table (joined_state j) kDWARFRax in
  changed j && IsJumpTarget t && (TableAddr t =? 0x1000) && negb (HasTableBound t) && no_conflict j.

Definition t_ATableHalfChangeAloneStillReportsTheJoinAsChanged : bool :=
  let j := Join blank (rax_guard 4) in
  changed j && (value_bound (table (joined_state j) kDWARFRax) =? kBoundTop).

Definition t_WritingARegisterClearsItsTableHalf : bool :=
  let a := ApplyGuardBound kDWARFRax 4 (rax_table (TableConst 0x1000)) in
  let a := SetReg1 kDWARFRax (CFARel (-8)) a in
  is_none (table a kDWARFRax) && (value_bound (table a kDWARFRax) =? kBoundTop).

Definition t_CopyRegCarriesBothHalves : bool :=
  let a := ApplyGuardBound kDWARFRax 4 (rax_table (TableConst 0x1000)) in
  let a := CopyReg kDWARFRcx kDWARFRax a in
  (reg a kDWARFRcx == Other) && IsConst (table a kDWARFRcx) && (table_bound (table a kDWARFRcx) =? 4).

(** ** Bounds *)

Definition t_JoinKeepsABoundBothSidesAgreeOn : bool :=
  let j := Join (rax_guard 4) (rax_guard 4) in
  let t := table (joined_state j) kDWARFRax in
  negb (changed j) && (table_bound t =? 4) && (value_bound t =? 4).

Definition t_JoinTakesTheWeakerOfTwoDisagreeingBoundsWithoutReportingAConflict : bool :=
  let j := Join (rax_guard 7) (rax_guard 4) in
  changed j && (table_bound (table (joined_state j) kDWARFRax) =? 7) && no_conflict j.

Definition t_JoinDropsABoundOnlyOneSideRecorded : bool :=
  let j := Join blank (rax_guard 4) in
  let t := table (joined_state j) kDWARFRax in
  changed j && negb (HasTableBound t) && (value_bound t =? kBoundTop).

Definition t_JoinReportsNoChangeWhenTwoBoundedTopsAlreadyAgreeOnTop : bool :=
  let j := Join (ApplyValueBound kDWARFRax 4 blank) blank in
  negb (changed j) && (value_bound (table (joined_state j) kDWARFRax) =? kBoundTop).

Definition spilled_const (v : Z) : AbsState :=
  let s := rax_table (TableConst v) in
  let s := SetSlot (-24) (reg s kDWARFRax) s in ClobberReg kDWARFRax s.
Definition t_TwoDifferentSpilledTableValuesDoNotConflictInASlot : bool :=
  let j := Join (spilled_const 0x2000) (spilled_const 0x1000) in
  negb (changed j) && (Slot (joined_state j) (-24) == Other) && no_conflict j.

Definition t_ClobberRegClearsAPreviouslySetBound : bool :=
  let t := table (ClobberReg kDWARFRax (rax_guard 4)) kDWARFRax in
  negb (HasTableBound t) && (value_bound t =? kBoundTop).

(** ** The recorded comparison *)

Definition rax_compared (imm : Z) : AbsState := with_last_cmp (Some (cmp_guard kDWARFRax 32 imm)) blank.
Definition cmp_imm (s : AbsState) : option Z := fg_imm <$> last_cmp s.

Definition t_WritingTheComparedRegisterInvalidatesLastCmp : bool :=
  (last_cmp (SetReg1 kDWARFRax (CFARel (-8)) (rax_compared 5)) == None)
  && (last_cmp (ClobberReg kDWARFRax (rax_compared 5)) == None).

Definition t_WritingAnUnrelatedRegisterLeavesLastCmpAlone : bool :=
  cmp_imm (SetReg1 kDWARFRcx (CFARel (-8)) (rax_compared 5)) == Some 5.

Definition t_ApplyingABoundDoesNotInvalidateLastCmp : bool :=
  last_cmp (ApplyGuardBound kDWARFRax 5 (rax_compared 5)) != None.

Definition t_JoinKeepsLastCmpOnlyWhenBothSidesAgree : bool :=
  let j := Join (rax_compared 9) (rax_compared 9) in
  negb (changed j) && (fg_width_bits <$> last_cmp (joined_state j) == Some 32)
  && (cmp_imm (joined_state j) == Some 9).

Definition t_JoinDropsADisagreeingLastCmp : bool :=
  let j := Join blank (rax_compared 9) in changed j && (last_cmp (joined_state j) == None).

Definition t_JoinNeverResurrectsAnAlreadyClearedLastCmp : bool :=
  let j := Join blank (rax_compared 9) in
  let j' := Join (rax_compared 9) (joined_state j) in
  changed j && (last_cmp (joined_state j) == None) && negb (changed j') && (last_cmp (joined_state j') == None).

(** ** All of them *)

Definition abs_state_tests : list bool :=
  [t_TopIsTheDefaultAndIsNeitherBottomNorConcrete;
   t_BottomIsUnknownButDistinctFromTop;
   t_CFARelAndOrigRegAreConcreteNotUnknown;
   t_EqualityDistinguishesEveryKind;
   t_StringifyNamesTopAndBottomDistinctly;
   t_EntryStateIsTheCanonicalCallFrame;
   t_EntryStateGivesEveryOtherGprItsOwnOriginalValue;
   t_SlotDefaultsToTopWhenNeverSet;
   t_SetSlotStoresAConcreteValueAndReadsItBack;
   t_SetSlotWithTopErasesRatherThanStoring;
   t_SetSlotWithBottomIsStoredExplicitly;
   t_ClobberRegDropsToTop;
   t_DroppingDeadSlotsSparesTheRedZone;
   t_DropSlotsBelowIsExactForCalls;
   t_DropSlotsBelowKeepsTheBoundarySlot;
   t_DropDeadSlotsKeepsTheRedZoneBoundarySlot;
   t_SetRegRspAutomaticallyDropsDeadSlots;
   t_JoinKeepsAgreementAndDropsDisagreement;
   t_JoinReportsRatherThanSilentlyWidening;
   t_JoinIsIdempotentOnceWidened;
   t_JoinTopIsTheIdentityElementForRegisters;
   t_JoinLeavesAConcreteRegisterAloneWhenIncomingIsTop;
   t_JoinBottomRegisterAbsorbsAnIncomingTop;
   t_JoinBottomRegisterAbsorbsAnIncomingConcreteValue;
   t_JoinPropagatesAnIncomingBottomRegisterWithoutReReporting;
   t_JoinDoesNotReReportAFreshDisagreementAfterGoingBottom;
   t_JoinSlotsAgreeAndSurvive;
   t_JoinKeepsASlotOnlyStateNames;
   t_JoinImportsASlotOnlyIncomingNames;
   t_JoinSlotsDisagreeAndDropToBottom;
   t_JoinBottomSlotAbsorbsAnIncomingConcreteValue;
   t_JoinBottomSlotSurvivesEvenWhenIncomingLacksIt;
   t_JoinPropagatesAnIncomingBottomSlotWithoutReReporting;
   t_JoinImportsABottomSlotOnlyIncomingNames;
   t_JoinOrderDoesNotMatterForRegisters;
   t_JoinOrderDoesNotMatterForSlots;
   t_SeedFromRowReproducesEntryForACanonicalRow;
   t_SeedFromRowHandlesAFragmentStartingMidFrame;
   t_SeedFromRowAtEntryTrustsUnmentionedRegistersAsOriginal;
   t_SeedFromRowAwayFromEntryTrustsAnExplicitSameValueRule;
   t_SeedFromRowHandlesAValOffsetRule;
   t_SeedFromRowHandlesAnInRegisterRule;
   t_SeedFromRowTreatsUndefinedAndExpressionRulesAsTopRegardlessOfEntry;
   t_SeedFromRowLetsTheCFARuleOverrideAnUnmentionedRegister;
   t_SeedFromRowLeavesRspTopWhenTheCFAIsNotRspBased;
   t_SeedFromRowRefusesToGuessWhenTheCFAIsAnExpression;
   t_JoinOfDifferingTableValuesGivesUpWithoutAConflict;
   t_JoinOfATableEntryAndAJumpTargetAlsoGivesUpWithoutAConflict;
   t_ATableValueSurvivesAPathThatKnowsNothingAboutIt;
   t_ATableValueGivenUpOnIsNotResurrectedByAThirdPredecessor;
   t_JoinOfATableValueAndAnUnrelatedConcreteValueStillConflicts;
   t_JoinOfTwoJumpTargetsWithTheSameIdentityMergesJustTheBound;
   t_ATableHalfChangeAloneStillReportsTheJoinAsChanged;
   t_WritingARegisterClearsItsTableHalf;
   t_CopyRegCarriesBothHalves;
   t_JoinKeepsABoundBothSidesAgreeOn;
   t_JoinTakesTheWeakerOfTwoDisagreeingBoundsWithoutReportingAConflict;
   t_JoinDropsABoundOnlyOneSideRecorded;
   t_JoinReportsNoChangeWhenTwoBoundedTopsAlreadyAgreeOnTop;
   t_TwoDifferentSpilledTableValuesDoNotConflictInASlot;
   t_ClobberRegClearsAPreviouslySetBound;
   t_WritingTheComparedRegisterInvalidatesLastCmp;
   t_WritingAnUnrelatedRegisterLeavesLastCmpAlone;
   t_ApplyingABoundDoesNotInvalidateLastCmp;
   t_JoinKeepsLastCmpOnlyWhenBothSidesAgree;
   t_JoinDropsADisagreeingLastCmp;
   t_JoinNeverResurrectsAnAlreadyClearedLastCmp].

Example abs_state_tests_pass : forallb id abs_state_tests = true.
Proof. vm_compute. reflexivity. Qed.
