(* ===== verification/AbsStateFacts.v ===== *)
(** * The lattices of the abstract state

    The per-value joins of [AbsState] and their pointwise lifting to states
    are semilattices on well-formed values; the order they induce. *)

From stdpp Require Import gmap fin_maps sorting.
From S2P Require Import Prelude CfiTable AbsState.

(** ** Semilattices *)

(** [op] is idempotent, commutative and associative on the values that
    satisfy [P], and stays among them. *)
Class Semilattice {A} (P : A → Prop) (op : A → A → A) : Prop := {
  sl_closed : ∀ x y, P x → P y → P (op x y);
  sl_idem : ∀ x, P x → op x x = x;
  sl_comm : ∀ x y, P x → P y → op x y = op y x;
  sl_assoc : ∀ x y z, P x → P y → P z → op x (op y z) = op (op x y) z
}.

(** The order a semilattice induces: [x ≤ y] when meeting [y] adds nothing. *)
Definition below {A} (op : A → A → A) (x y : A) : Prop := op x y = x.

Section below.
Context {A} (P : A → Prop) (op : A → A → A) `{!Semilattice P op}.

Lemma below_refl x : P x → below op x x.
Proof. apply sl_idem. Qed.
Lemma below_antisym x y : P x → P y → below op x y → below op y x → x = y.
Proof.
  unfold below. intros Hx Hy H1 H2. transitivity (op x y); [done|]. by rewrite sl_comm.
Qed.
Lemma below_trans x y z : P x → P y → P z → below op x y → below op y z → below op x z.
Proof.
  unfold below. intros Hx Hy Hz H1 H2. rewrite <-H1 at 1. rewrite <-sl_assoc by done. by rewrite H2.
Qed.
Lemma below_l x y : P x → P y → below op (op x y) x.
Proof.
  unfold below. intros Hx Hy. rewrite (sl_comm x y) by done. rewrite <-sl_assoc by done.
  by rewrite sl_idem.
Qed.
Lemma below_r x y : P x → P y → below op (op x y) y.
Proof. unfold below. intros Hx Hy. rewrite <-sl_assoc by done. by rewrite sl_idem. Qed.
Lemma below_glb x y z : P x → P y → P z → below op z x → below op z y → below op z (op x y).
Proof. unfold below. intros Hx Hy Hz H1 H2. rewrite sl_assoc by done. by rewrite H1. Qed.
End below.

(** ** Values *)

Definition av_ok (v : AbsVal) : Prop :=
  match v with
  | CFARel d => is_s64 d
  | OrigReg r => 0 <= r < kNumDWARFRegs
  | _ => True
  end.
Definition tv_ok (t : TableVal) : Prop :=
  is_u64 (value_bound t) ∧ is_u64 (table_bound t) ∧
  match tv_id t with
  | T_TableEntry _ r _ | T_JumpTarget _ r => 0 <= r < kNumGPRs
  | _ => True
  end.

Definition meetv (a b : AbsVal) : AbsVal := jv_value (JoinValue a b).

(** Both sides name a value, and not the same one. *)
Definition conflicting (a b : AbsVal) : bool :=
  negb (is_unknown a) && negb (is_unknown b) && negb (bool_decide (a = b)).

Ltac join_cases :=
  unfold meetv, JoinValue, conflicting, is_unknown, is_top, is_bottom;
  repeat (case_bool_decide || case_match); simplify_eq/=; try done; try congruence.

Lemma JoinValue_changed a b : jv_changed (JoinValue a b) = negb (bool_decide (meetv a b = a)).
Proof. destruct a, b; join_cases. Qed.
Lemma JoinValue_conflict a b : jv_conflict (JoinValue a b) = conflicting a b.
Proof. destruct a, b; join_cases. Qed.
Lemma conflicting_Bottom a b : conflicting a b = true → meetv a b = Bottom.
Proof. destruct a, b; join_cases. Qed.

#[export] Instance meetv_semilattice : Semilattice av_ok meetv.
Proof.
  split.
  - intros [] [] Hx Hy; join_cases.
  - intros [] _; join_cases.
  - intros [] [] _ _; join_cases.
  - intros [] [] [] _ _ _; unfold meetv, JoinValue; cbn; repeat case_bool_decide; simplify_eq/=; try done;
      repeat case_bool_decide; simplify_eq/=; done.
Qed.

Definition meet_id (a b : TableId) : TableId :=
  if bool_decide (a = b) then a
  else match a, b with
  | T_None, _ => b
  | _, T_None => a
  | _, _ => T_Conflict
  end.

Lemma JoinTableValue_id a b :
  JoinTableValue a b =
  mkTable (meet_id (tv_id a) (tv_id b)) (Z.max (value_bound a) (value_bound b))
          (Z.max (table_bound a) (table_bound b)).
Proof.
  unfold JoinTableValue, meet_id, SameIdentity, is_conflict, is_none. f_equal.
  destruct a as [ia ? ?], b as [ib ? ?]; cbn. destruct ia, ib; cbn; repeat case_bool_decide; done.
Qed.

#[export] Instance JoinTableValue_semilattice : Semilattice tv_ok JoinTableValue.
Proof.
  split.
  - intros [ia ? ?] [ib ? ?] (? & ? & Ha) (? & ? & Hb). rewrite JoinTableValue_id.
    unfold tv_ok; cbn in *. split; [mach|]. split; [mach|].
    destruct ia, ib; unfold meet_id; case_bool_decide; simplify_eq/=; done.
  - intros [ia ? ?] _. rewrite JoinTableValue_id. cbn. f_equal; [|lia|lia].
    unfold meet_id. by rewrite bool_decide_eq_true_2.
  - intros [ia ? ?] [ib ? ?] _ _. rewrite !JoinTableValue_id. cbn. f_equal; [|lia|lia].
    destruct ia, ib; unfold meet_id; repeat case_bool_decide; simplify_eq/=; done.
  - intros [ia ? ?] [ib ? ?] [ic ? ?] _ _ _. rewrite !JoinTableValue_id. cbn. f_equal; [|lia|lia].
    destruct ia, ib, ic; unfold meet_id; repeat case_bool_decide; simplify_eq/=; try done;
      repeat case_bool_decide; simplify_eq/=; done.
Qed.

(** ** States *)

Definition slot_ok (v : AbsVal) : Prop := v ≠ Top ∧ av_ok v.

Record wf_state (s : AbsState) : Prop := {
  wf_gpr : length (gpr s) = 16%nat;
  wf_tbl : length (tbl s) = 16%nat;
  wf_gpr_ok : Forall av_ok (gpr s);
  wf_tbl_ok : Forall tv_ok (tbl s);
  wf_slots : map_Forall (fun _ v => slot_ok v) (slots s)
}.

Definition meet_cmp (a b : option FlagsGuard) : option FlagsGuard :=
  if bool_decide (a = b) then a else None.
Definition meet_slots (m1 m2 : gmap Z AbsVal) : gmap Z AbsVal :=
  union_with (fun a b => Some (meetv a b)) m1 m2.

(** The reference definition: the componentwise meet. *)
Definition meet (s1 s2 : AbsState) : AbsState :=
  mkAbs (zip_with meetv (gpr s1) (gpr s2)) (meet_slots (slots s1) (slots s2))
        (zip_with JoinTableValue (tbl s1) (tbl s2)) (meet_cmp (last_cmp s1) (last_cmp s2)).

Lemma meet_cmp_semilattice : Semilattice (fun _ => True) meet_cmp.
Proof.
  split; [done| | |]; unfold meet_cmp; intros; repeat case_bool_decide; simplify_eq/=; congruence.
Qed.

Lemma slot_ok_meet a b : slot_ok a → slot_ok b → slot_ok (meetv a b).
Proof.
  intros [H1 H2] [H3 H4]. split; [|by apply sl_closed].
  destruct a, b; unfold meetv, JoinValue; cbn; repeat case_bool_decide; simplify_eq/=; done.
Qed.

#[export] Instance meet_slots_semilattice :
  Semilattice (map_Forall (fun _ v => slot_ok v)) meet_slots.
Proof.
  assert (∀ (m : gmap Z AbsVal) i v, map_Forall (fun _ v => slot_ok v) m → m !! i = Some v → av_ok v) as Hok.
  { intros m i v H E. by destruct (H i v E). }
  split.
  - intros m1 m2 H1 H2 i v. unfold meet_slots. rewrite lookup_union_with.
    destruct (m1 !! i) eqn:E1, (m2 !! i) eqn:E2; cbn; intros; simplify_eq; eauto using slot_ok_meet.
  - intros m H. apply map_eq. intros i. unfold meet_slots. rewrite lookup_union_with.
    destruct (m !! i) eqn:E; cbn; [|done]. f_equal. apply sl_idem. eauto.
  - intros m1 m2 H1 H2. apply map_eq. intros i. unfold meet_slots. rewrite !lookup_union_with.
    destruct (m1 !! i) eqn:E1, (m2 !! i) eqn:E2; cbn; try done. f_equal. apply sl_comm; eauto.
  - intros m1 m2 m3 H1 H2 H3. apply map_eq. intros i. unfold meet_slots. rewrite !lookup_union_with.
    destruct (m1 !! i) eqn:E1, (m2 !! i) eqn:E2, (m3 !! i) eqn:E3; cbn; try done.
    f_equal. apply sl_assoc; eauto.
Qed.

(** Lists of equal length, componentwise. *)
Lemma zip_with_semilattice {A} (P : A → Prop) op (n : nat) `{!Semilattice P op} :
  Semilattice (fun l => length l = n ∧ Forall P l) (zip_with op).
Proof.
  split.
  - intros x y [Hx Px] [Hy Py]. split; [rewrite length_zip_with; lia|].
    revert y n Hx Hy Py. induction Px; intros [|? ?] n Hx Hy Py; constructor.
    + apply sl_closed; [done|by inversion Py].
    + destruct n; [done|]. inversion Py. eapply (IHPx _ n); naive_solver.
  - intros x [_ Px]. induction Px; [done|]. cbn. f_equal; [by apply sl_idem|done].
  - intros x y [Hx Px] [Hy Py]. revert y n Hx Hy Py. induction Px; intros [|? ?] n Hx Hy Py; try done.
    cbn. inversion Py. destruct n; [done|]. f_equal; [by apply sl_comm|]. eapply (IHPx _ n); naive_solver.
  - intros x y z [Hx Px] [Hy Py] [Hz Pz]. revert y z n Hx Hy Py Hz Pz.
    induction Px; intros [|? ?] [|? ?] n Hx Hy Py Hz Pz; try done.
    cbn. inversion Py. inversion Pz. destruct n; [done|]. f_equal; [by apply sl_assoc|].
    eapply (IHPx _ _ n); naive_solver.
Qed.
#[export] Instance meet_gprs_semilattice :
  Semilattice (fun l => length l = 16%nat ∧ Forall av_ok l) (zip_with meetv) :=
  zip_with_semilattice av_ok meetv 16.
#[export] Instance meet_tbls_semilattice :
  Semilattice (fun l => length l = 16%nat ∧ Forall tv_ok l) (zip_with JoinTableValue) :=
  zip_with_semilattice tv_ok JoinTableValue 16.

#[export] Instance meet_semilattice : Semilattice wf_state meet.
Proof.
  destruct meet_gprs_semilattice, meet_tbls_semilattice, meet_slots_semilattice, meet_cmp_semilattice.
  split.
  - intros x y [] []. destruct (sl_closed0 (gpr x) (gpr y)); [done|done|].
    destruct (sl_closed1 (tbl x) (tbl y)); [done|done|]. split; cbn; auto.
  - intros [] []. unfold meet. cbn in *. by rewrite sl_idem0, sl_idem1, sl_idem2, sl_idem3.
  - intros [] [] [] []. unfold meet. cbn in *. f_equal; auto.
  - intros [] [] [] [] [] []. unfold meet. cbn in *. f_equal; auto.
Qed.
