(* ===== verification/JoinFacts.v ===== *)
(** * [Join] computes the meet

    [Join]'s loops, with their [changed] flag and their list of conflicts,
    against the pointwise reference definition [meet]: the result is the
    meet, [changed] is exact, and the conflicts reported are exactly the
    components on which both sides name a value and the values differ. *)

From stdpp Require Import gmap fin_maps sorting.
From S2P Require Import Prelude CfiTable AbsState AbsStateFacts.

(** ** [Join]'s loops compute the meet *)

Lemma reg_lookup s r : length (gpr s) = 16%nat → 0 <= r < 16 → gpr s !! Z.to_nat r = Some (reg s r).
Proof.
  intros Hl Hr. unfold reg, in_gprs, kNumGPRs. rewrite (proj2 (Z.leb_le _ _)), (proj2 (Z.ltb_lt _ _)) by lia.
  cbn. destruct (lookup_lt_is_Some_2 (gpr s) (Z.to_nat r)) as [v ->]; [lia|done].
Qed.
Lemma table_lookup s r : length (tbl s) = 16%nat → 0 <= r < 16 → tbl s !! Z.to_nat r = Some (table s r).
Proof.
  intros Hl Hr. unfold table, in_gprs, kNumGPRs. rewrite (proj2 (Z.leb_le _ _)), (proj2 (Z.ltb_lt _ _)) by lia.
  cbn. destruct (lookup_lt_is_Some_2 (tbl s) (Z.to_nat r)) as [v ->]; [lia|done].
Qed.

Lemma existsb_ext {A} (f g : A → bool) l : (∀ x, x ∈ l → f x = g x) → existsb f l = existsb g l.
Proof.
  induction l as [|x l IH]; intros H; [done|]. cbn. rewrite (H x) by left. f_equal. apply IH.
  intros y Hy. apply H. by right.
Qed.
Lemma bind_list_ext {A B} (f g : A → list B) l : (∀ x, x ∈ l → f x = g x) → l ≫= f = l ≫= g.
Proof.
  induction l as [|x l IH]; intros H; [done|]. cbn. rewrite (H x) by left. f_equal. apply IH.
  intros y Hy. apply H. by right.
Qed.

Section join_loops.
Context (inc : AbsState).

Definition reg_conflict (s : AbsState) (r : Z) : list JoinConflict :=
  if conflicting (reg s r) (reg inc r) then [mkConflict r 0 (reg s r) (reg inc r)] else [].
Definition reg_differs (s : AbsState) (r : Z) : bool :=
  negb (bool_decide (meetv (reg s r) (reg inc r) = reg s r)) ||
  negb (bool_decide (JoinTableValue (table s r) (table inc r) = table s r)).

Definition put_reg (r : Z) (s : AbsState) : AbsState :=
  mkAbs (<[Z.to_nat r := meetv (reg s r) (reg inc r)]> (gpr s)) (slots s)
        (<[Z.to_nat r := JoinTableValue (table s r) (table inc r)]> (tbl s)) (last_cmp s).

Lemma join_reg_put acc r :
  length (gpr (ja_state acc)) = 16%nat → length (tbl (ja_state acc)) = 16%nat → 0 <= r < 16 →
  join_reg inc acc r =
  mkAcc (put_reg r (ja_state acc)) (ja_changed acc || reg_differs (ja_state acc) r)
        (ja_conflicts acc ++ reg_conflict (ja_state acc) r).
Proof.
  destruct acc as [s ch cf]. cbn. intros Hg Ht Hr.
  unfold join_reg. cbn [ja_state ja_changed ja_conflicts].
  rewrite JoinValue_changed, JoinValue_conflict. fold (meetv (reg s r) (reg inc r)).
  f_equal.
  - unfold put_reg. destruct s as [g sl t lc]. cbn [gpr slots tbl last_cmp with_gpr].
    case_bool_decide as E1; case_bool_decide as E2; unfold with_tbl, with_gpr; cbn.
    all: rewrite ?E1, ?E2; f_equal; symmetry; try done; apply list_insert_id.
    all: first [by apply (reg_lookup (mkAbs g sl t lc))|by apply (table_lookup (mkAbs g sl t lc))].
  - unfold reg_differs. by rewrite orb_assoc.
  - unfold reg_conflict. case_match; [done|by rewrite app_nil_r].
Qed.

Lemma put_reg_ne r q s : 0 <= r < 16 → 0 <= q < 16 → q ≠ r →
  reg (put_reg r s) q = reg s q ∧ table (put_reg r s) q = table s q.
Proof.
  intros. unfold reg, table, put_reg. cbn. rewrite !list_lookup_insert_ne by lia. done.
Qed.

(** The register loop over any set of distinct registers. *)
Lemma join_regs l acc :
  length (gpr (ja_state acc)) = 16%nat → length (tbl (ja_state acc)) = 16%nat →
  NoDup l → Forall (fun r => 0 <= r < 16) l →
  foldl (join_reg inc) acc l =
  mkAcc (foldl (fun s r => put_reg r s) (ja_state acc) l)
        (ja_changed acc || existsb (reg_differs (ja_state acc)) l)
        (ja_conflicts acc ++ (l ≫= reg_conflict (ja_state acc))).
Proof.
  revert acc. induction l as [|r l IH]; intros acc Hg Ht Hnd Hall; cbn.
  { rewrite orb_false_r, app_nil_r. by destruct acc. }
  apply Forall_cons in Hall as [Hr Hall]. apply NoDup_cons in Hnd as [Hni Hnd].
  assert (∀ q, q ∈ l → reg (put_reg r (ja_state acc)) q = reg (ja_state acc) q ∧
                   table (put_reg r (ja_state acc)) q = table (ja_state acc) q) as Hne.
  { intros q Hq. apply put_reg_ne; [done|by rewrite Forall_forall in Hall; apply Hall|]. by intros ->. }
  rewrite join_reg_put by done. rewrite IH; cbn; rewrite ?length_insert; try done.
  rewrite <-orb_assoc, <-app_assoc. f_equal.
  - f_equal. f_equal. apply existsb_ext. intros q Hq. destruct (Hne q Hq) as [E1 E2].
    unfold reg_differs. by rewrite E1, E2.
  - f_equal. f_equal. apply bind_list_ext. intros q Hq. destruct (Hne q Hq) as [E1 E2].
    unfold reg_conflict. by rewrite E1.
Qed.

Lemma put_reg_eq r s : length (gpr s) = 16%nat → length (tbl s) = 16%nat → 0 <= r < 16 →
  reg (put_reg r s) r = meetv (reg s r) (reg inc r) ∧
  table (put_reg r s) r = JoinTableValue (table s r) (table inc r).
Proof.
  intros Hg Ht Hr. unfold reg at 1, table at 1, put_reg, in_gprs, kNumGPRs. cbn.
  rewrite (proj2 (Z.leb_le _ _)), (proj2 (Z.ltb_lt _ _)) by lia. cbn.
  by rewrite !list_lookup_insert_eq by lia.
Qed.

Definition put_regs (l : list Z) (s : AbsState) : AbsState := foldl (fun s r => put_reg r s) s l.

Lemma put_regs_spec l s :
  length (gpr s) = 16%nat → length (tbl s) = 16%nat → NoDup l → Forall (fun r => 0 <= r < 16) l →
  length (gpr (put_regs l s)) = 16%nat ∧ length (tbl (put_regs l s)) = 16%nat ∧
  slots (put_regs l s) = slots s ∧ last_cmp (put_regs l s) = last_cmp s ∧
  (∀ q, q ∈ l → reg (put_regs l s) q = meetv (reg s q) (reg inc q) ∧
     table (put_regs l s) q = JoinTableValue (table s q) (table inc q)) ∧
  (∀ q, 0 <= q < 16 → q ∉ l → reg (put_regs l s) q = reg s q ∧ table (put_regs l s) q = table s q).
Proof.
  unfold put_regs. revert s. induction l as [|r l IH]; intros s Hg Ht Hnd Hall; cbn.
  { split_and!; try done. set_solver. }
  apply Forall_cons in Hall as [Hr Hall]. apply NoDup_cons in Hnd as [Hni Hnd].
  destruct (IH (put_reg r s)) as (H1 & H2 & H3 & H4 & H5 & H6); cbn; rewrite ?length_insert; try done.
  split_and!; try done.
  - intros q [->|Hq]%elem_of_cons.
    + destruct (H6 r Hr Hni) as [-> ->]. by apply put_reg_eq.
    + destruct (H5 q Hq) as [-> ->]. rewrite Forall_forall in Hall.
      destruct (put_reg_ne r q s) as [-> ->]; auto. by intros ->.
  - intros q Hq Hn. apply not_elem_of_cons in Hn as [Hn1 Hn2].
    destruct (H6 q Hq Hn2) as [-> ->]. by apply put_reg_ne.
Qed.
End join_loops.

Lemma range16 : range0 kNumGPRs = seqZ 0 16.
Proof. done. Qed.
Lemma elem_range16 q : q ∈ range0 kNumGPRs ↔ 0 <= q < 16.
Proof. rewrite range16, elem_of_seqZ. lia. Qed.
Lemma range16_nodup : NoDup (range0 kNumGPRs).
Proof. apply NoDup_seqZ. Qed.
Lemma range16_all : Forall (fun r => 0 <= r < 16) (range0 kNumGPRs).
Proof. apply Forall_forall. intros q. apply elem_range16. Qed.

(** Two register files agree when they agree on every register number. *)
Lemma gpr_ext l1 l2 s : gpr s = l1 → length l1 = 16%nat → length l2 = 16%nat →
  (∀ r, 0 <= r < 16 → l2 !! Z.to_nat r = Some (reg s r)) → l1 = l2.
Proof.
  intros <- H1 H2 H. apply list_eq. intros i. destruct (decide (i < 16)%nat) as [Hi|Hi].
  - specialize (H (Z.of_nat i)). rewrite Nat2Z.id in H. rewrite H by lia.
    rewrite <-(reg_lookup s (Z.of_nat i)) by lia. by rewrite Nat2Z.id.
  - by rewrite !lookup_ge_None_2 by lia.
Qed.
Lemma tbl_ext l1 l2 s : tbl s = l1 → length l1 = 16%nat → length l2 = 16%nat →
  (∀ r, 0 <= r < 16 → l2 !! Z.to_nat r = Some (table s r)) → l1 = l2.
Proof.
  intros <- H1 H2 H. apply list_eq. intros i. destruct (decide (i < 16)%nat) as [Hi|Hi].
  - specialize (H (Z.of_nat i)). rewrite Nat2Z.id in H. rewrite H by lia.
    rewrite <-(table_lookup s (Z.of_nat i)) by lia. by rewrite Nat2Z.id.
  - by rewrite !lookup_ge_None_2 by lia.
Qed.

Lemma put_regs_meet inc s :
  length (gpr inc) = 16%nat → length (tbl inc) = 16%nat →
  length (gpr s) = 16%nat → length (tbl s) = 16%nat →
  put_regs inc (range0 kNumGPRs) s =
  mkAbs (zip_with meetv (gpr s) (gpr inc)) (slots s) (zip_with JoinTableValue (tbl s) (tbl inc))
        (last_cmp s).
Proof.
  intros Hig Hit Hg Ht.
  destruct (put_regs_spec inc (range0 kNumGPRs) s) as (H1 & H2 & H3 & H4 & H5 & _);
    auto using range16_nodup, range16_all.
  destruct (put_regs _ _ _) as [g sl t lc] eqn:E. cbn in *. subst sl lc. f_equal.
  - apply (gpr_ext _ _ (mkAbs g (slots s) t (last_cmp s))); [done|done|rewrite length_zip_with; lia|].
    intros r Hr. destruct (H5 r) as [-> _]; [by apply elem_range16|].
    rewrite lookup_zip_with, !reg_lookup by done. done.
  - apply (tbl_ext _ _ (mkAbs g (slots s) t (last_cmp s))); [done|done|rewrite length_zip_with; lia|].
    intros r Hr. destruct (H5 r) as [_ ->]; [by apply elem_range16|].
    rewrite lookup_zip_with, !table_lookup by done. done.
Qed.

(** ** The slot loops *)

Lemma elem_slot_keys (m : gmap Z AbsVal) k : k ∈ slot_keys m ↔ is_Some (m !! k).
Proof.
  unfold slot_keys. rewrite (merge_sort_Permutation Z.le). rewrite elem_of_elements.
  apply elem_of_dom.
Qed.
Lemma slot_keys_nodup m : NoDup (slot_keys m).
Proof. unfold slot_keys. rewrite (merge_sort_Permutation Z.le). apply NoDup_elements. Qed.

Section slot_loops.
Context (inc : AbsState).

Definition slot_conflict (m : gmap Z AbsVal) (k : Z) : list JoinConflict :=
  match m !! k, slots inc !! k with
  | Some a, Some b => if conflicting a b then [mkConflict kSlotConflict k a b] else []
  | _, _ => []
  end.
Definition slot_differs (m : gmap Z AbsVal) (k : Z) : bool :=
  match m !! k, slots inc !! k with
  | Some a, Some b => negb (bool_decide (meetv a b = a))
  | _, _ => false
  end.
Definition put_slot (m : gmap Z AbsVal) (k : Z) : gmap Z AbsVal :=
  match m !! k, slots inc !! k with
  | Some a, Some b => <[k := meetv a b]> m
  | _, _ => m
  end.

Lemma join_slot_put acc k :
  join_slot inc acc k =
  mkAcc (with_slots (put_slot (slots (ja_state acc)) k) (ja_state acc))
        (ja_changed acc || slot_differs (slots (ja_state acc)) k)
        (ja_conflicts acc ++ slot_conflict (slots (ja_state acc)) k).
Proof.
  destruct acc as [[g m t lc] ch cf]. unfold join_slot, put_slot, slot_differs, slot_conflict. cbn.
  destruct (m !! k) as [a|] eqn:Ea; [|by rewrite orb_false_r, app_nil_r].
  destruct (slots inc !! k) as [b|]; [|by rewrite orb_false_r, app_nil_r].
  rewrite JoinValue_changed, JoinValue_conflict. fold (meetv a b).
  destruct (is_bottom a) eqn:Hb.
  - destruct a; try done. replace (meetv Bottom b) with Bottom by (by destruct b).
    rewrite bool_decide_eq_true_2 by done. cbn. rewrite orb_false_r, app_nil_r.
    by rewrite insert_id.
  - case_bool_decide as E; cbn; f_equal.
    + by rewrite E, insert_id.
    + by case_match; rewrite ?app_nil_r.
    + by case_match; rewrite ?app_nil_r.
Qed.

Lemma put_slot_ne m k q : q ≠ k → put_slot m k !! q = m !! q.
Proof. intros. unfold put_slot. repeat case_match; by rewrite ?lookup_insert_ne. Qed.

Lemma join_slots l acc :
  NoDup l →
  foldl (join_slot inc) acc l =
  mkAcc (with_slots (foldl put_slot (slots (ja_state acc)) l) (ja_state acc))
        (ja_changed acc || existsb (slot_differs (slots (ja_state acc))) l)
        (ja_conflicts acc ++ (l ≫= slot_conflict (slots (ja_state acc)))).
Proof.
  revert acc. induction l as [|k l IH]; intros acc Hnd; cbn.
  { rewrite orb_false_r, app_nil_r. by destruct acc as [[] ? ?]. }
  apply NoDup_cons in Hnd as [Hni Hnd].
  assert (∀ q, q ∈ l → put_slot (slots (ja_state acc)) k !! q = slots (ja_state acc) !! q) as Hne.
  { intros q Hq. apply put_slot_ne. by intros ->. }
  rewrite join_slot_put, IH by done. cbn. rewrite <-orb_assoc, <-app_assoc. f_equal.
  - f_equal. f_equal. apply existsb_ext. intros q Hq. unfold slot_differs. by rewrite Hne.
  - f_equal. f_equal. apply bind_list_ext. intros q Hq. unfold slot_conflict. by rewrite Hne.
Qed.

Lemma put_slots_lookup l m q :
  NoDup l →
  foldl put_slot m l !! q =
  if bool_decide (q ∈ l) then
    match m !! q, slots inc !! q with Some a, Some b => Some (meetv a b) | x, _ => x end
  else m !! q.
Proof.
  revert m. induction l as [|k l IH]; intros m Hnd; cbn.
  { by rewrite bool_decide_eq_false_2 by (apply not_elem_of_nil). }
  apply NoDup_cons in Hnd as [Hni Hnd]. rewrite IH by done.
  destruct (decide (q = k)) as [->|Hqk].
  - rewrite bool_decide_eq_false_2 by done. rewrite bool_decide_eq_true_2 by left.
    unfold put_slot. destruct (m !! k) eqn:E1; [|done].
    destruct (slots inc !! k); [by rewrite lookup_insert_eq|done].
  - rewrite put_slot_ne by done. erewrite bool_decide_ext; [done|].
    rewrite elem_of_cons. intuition congruence.
Qed.

(** The second loop: slots only the incoming side names. *)
Definition adopts (m : gmap Z AbsVal) (k : Z) : bool :=
  match m !! k, slots inc !! k with None, Some _ => true | _, _ => false end.
Definition adopt (m : gmap Z AbsVal) (k : Z) : gmap Z AbsVal :=
  match m !! k, slots inc !! k with None, Some v => <[k := v]> m | _, _ => m end.

Lemma adopt_slots l acc :
  NoDup l →
  foldl (adopt_slot inc) acc l =
  mkAcc (with_slots (foldl adopt (slots (ja_state acc)) l) (ja_state acc))
        (ja_changed acc || existsb (adopts (slots (ja_state acc))) l) (ja_conflicts acc).
Proof.
  revert acc. induction l as [|k l IH]; intros acc Hnd; cbn.
  { rewrite orb_false_r. by destruct acc as [[] ? ?]. }
  apply NoDup_cons in Hnd as [Hni Hnd].
  assert (adopt_slot inc acc k =
    mkAcc (with_slots (adopt (slots (ja_state acc)) k) (ja_state acc))
          (ja_changed acc || adopts (slots (ja_state acc)) k) (ja_conflicts acc)) as ->.
  { destruct acc as [[g m t lc] ch cf]. unfold adopt_slot, adopt, adopts. cbn.
    destruct (m !! k), (slots inc !! k); rewrite ?orb_false_r, ?orb_true_r; done. }
  rewrite IH by done. cbn. rewrite <-orb_assoc. f_equal.
  f_equal. f_equal. apply existsb_ext. intros q Hq. unfold adopts, adopt.
  assert (q ≠ k) by (by intros ->). destruct (slots (ja_state acc) !! k), (slots inc !! k);
    by rewrite ?lookup_insert_ne.
Qed.

Lemma adopt_lookup l m q :
  foldl adopt m l !! q =
  match m !! q with
  | Some v => Some v
  | None => if bool_decide (q ∈ l) then slots inc !! q else None
  end.
Proof.
  revert m. induction l as [|k l IH]; intros m; cbn.
  { rewrite bool_decide_eq_false_2 by (apply not_elem_of_nil). by destruct (m !! q). }
  rewrite IH. unfold adopt. destruct (decide (q = k)) as [->|Hqk].
  - rewrite (bool_decide_eq_true_2 (k ∈ k :: l)) by left.
    destruct (m !! k) eqn:E1; [by rewrite E1|].
    destruct (slots inc !! k) eqn:E2; [by rewrite lookup_insert_eq|].
    rewrite E1. by case_bool_decide.
  - assert ((if bool_decide (q ∈ k :: l) then slots inc !! q else None) =
            (if bool_decide (q ∈ l) then slots inc !! q else None)) as ->.
    { erewrite bool_decide_ext; [done|]. rewrite elem_of_cons. intuition congruence. }
    destruct (m !! k) eqn:E1; [done|]. destruct (slots inc !! k); [|done].
    by rewrite lookup_insert_ne.
Qed.

Lemma slots_meet m :
  foldl adopt (foldl put_slot m (slot_keys m)) (slot_keys (slots inc)) = meet_slots m (slots inc).
Proof.
  apply map_eq. intros q. rewrite adopt_lookup, put_slots_lookup by apply slot_keys_nodup.
  unfold meet_slots. rewrite lookup_union_with.
  rewrite (bool_decide_ext _ _ (elem_slot_keys m q)),
    (bool_decide_ext _ _ (elem_slot_keys (slots inc) q)).
  destruct (m !! q) eqn:E1, (slots inc !! q) eqn:E2; repeat case_bool_decide; cbn; try done;
    exfalso; eauto.
Qed.
End slot_loops.

(** ** [Join] against [meet] *)

(** The conflicts [Join] reports: registers in order, then slots in order. *)
Definition conflicts_of (s inc : AbsState) : list JoinConflict :=
  (range0 kNumGPRs ≫= reg_conflict inc s) ++ (slot_keys (slots s) ≫= slot_conflict inc (slots s)).

Definition cmp_differs (s inc : AbsState) : bool :=
  negb (bool_decide (meet_cmp (last_cmp s) (last_cmp inc) = last_cmp s)).

Definition differs (s inc : AbsState) : bool :=
  existsb (reg_differs inc s) (range0 kNumGPRs) ||
  existsb (slot_differs inc (slots s)) (slot_keys (slots s)) ||
  existsb (adopts inc (foldl (put_slot inc) (slots s) (slot_keys (slots s))))
          (slot_keys (slots inc)) ||
  cmp_differs s inc.

Lemma join_last_cmp_meet inc s ch cf :
  join_last_cmp inc (mkAcc s ch cf) =
  mkAcc (with_last_cmp (meet_cmp (last_cmp s) (last_cmp inc)) s) (ch || cmp_differs s inc) cf.
Proof.
  destruct s as [g m t lc]. unfold join_last_cmp, cmp_differs, meet_cmp. cbn.
  destruct lc as [c|]; [|by case_bool_decide; rewrite bool_decide_eq_true_2, orb_false_r].
  case_bool_decide.
  - by rewrite bool_decide_eq_true_2, orb_false_r.
  - by rewrite bool_decide_eq_false_2, orb_true_r.
Qed.

Lemma Join_unfold inc s :
  wf_state inc → wf_state s →
  Join inc s = (meet s inc, differs s inc, conflicts_of s inc).
Proof.
  intros [Hig Hit _ _ _] [Hg Ht _ _ _]. unfold Join.
  rewrite join_regs by (auto using range16_nodup, range16_all). cbn [ja_state ja_changed ja_conflicts].
  fold (put_regs inc (range0 kNumGPRs) s). rewrite put_regs_meet by done.
  rewrite join_slots by apply slot_keys_nodup. cbn.
  rewrite adopt_slots by apply slot_keys_nodup. cbn.
  rewrite join_last_cmp_meet. cbn. rewrite slots_meet. done.
Qed.

Lemma existsb_false {A} (f : A → bool) l : existsb f l = false ↔ ∀ x, x ∈ l → f x = false.
Proof.
  induction l as [|x l IH]; cbn.
  - split; [intros _ y Hy; by apply not_elem_of_nil in Hy|done].
  - rewrite orb_false_iff, IH. split.
    + intros [H1 H2] y [->|Hy]%elem_of_cons; auto.
    + intros H. split; [apply H; left|]. intros y Hy. apply H. by right.
Qed.

Lemma differs_false s inc :
  wf_state inc → wf_state s → differs s inc = false ↔ meet s inc = s.
Proof.
  intros [Hig Hit _ _ _] [Hg Ht _ _ _]. unfold differs.
  rewrite !orb_false_iff, !existsb_false. unfold cmp_differs.
  rewrite negb_false_iff, bool_decide_eq_true. split.
  - intros [[[Hr Hs] Ha] Hc]. destruct s as [g m t lc]. unfold meet. cbn in *. f_equal.
    + symmetry. apply (gpr_ext g _ (mkAbs g m t lc)); [done|done|rewrite length_zip_with; lia|].
      intros r Hr'. specialize (Hr r (proj2 (elem_range16 r) Hr')).
      unfold reg_differs in Hr. apply orb_false_iff in Hr as [Hr _].
      apply negb_false_iff, bool_decide_eq_true in Hr.
      rewrite lookup_zip_with, (reg_lookup (mkAbs g m t lc)), (reg_lookup inc) by done. cbn. by f_equal.
    + apply map_eq. intros q. unfold meet_slots. rewrite lookup_union_with.
      destruct (m !! q) as [a|] eqn:E1, (slots inc !! q) as [b|] eqn:E2; cbn; try done.
      * specialize (Hs q (proj2 (elem_slot_keys _ _) (mk_is_Some _ _ E1))).
        unfold slot_differs in Hs. rewrite E1, E2 in Hs. apply negb_false_iff, bool_decide_eq_true in Hs.
        by f_equal.
      * specialize (Ha q (proj2 (elem_slot_keys _ _) (mk_is_Some _ _ E2))). unfold adopts in Ha.
        rewrite put_slots_lookup, E1, E2 in Ha by apply slot_keys_nodup. by case_bool_decide.
    + symmetry. apply (tbl_ext t _ (mkAbs g m t lc)); [done|done|rewrite length_zip_with; lia|].
      intros r Hr'. specialize (Hr r (proj2 (elem_range16 r) Hr')).
      unfold reg_differs in Hr. apply orb_false_iff in Hr as [_ Hr].
      apply negb_false_iff, bool_decide_eq_true in Hr.
      rewrite lookup_zip_with, (table_lookup (mkAbs g m t lc)), (table_lookup inc) by done. cbn. by f_equal.
    + done.
  - intros Hm. destruct s as [g m t lc]. injection Hm as Hm1 Hm2 Hm3 Hm4. cbn in *.
    split_and!; [| | |done].
    + intros r Hr%elem_range16. unfold reg_differs. apply orb_false_iff.
      rewrite !negb_false_iff, !bool_decide_eq_true.
      pose proof (reg_lookup (mkAbs g m t lc) r Hg Hr) as E1.
      pose proof (table_lookup (mkAbs g m t lc) r Ht Hr) as E2. cbn in E1, E2.
      pose proof E1 as E1'. pose proof E2 as E2'. rewrite <-Hm1 in E1. rewrite <-Hm3 in E2.
      rewrite lookup_zip_with, E1', (reg_lookup inc) in E1 by done.
      rewrite lookup_zip_with, E2', (table_lookup inc) in E2 by done.
      cbn in E1, E2. split; congruence.
    + intros q _. unfold slot_differs. destruct (m !! q) eqn:E1; [|done].
      destruct (slots inc !! q) eqn:E2; [|done].
      assert (meet_slots m (slots inc) !! q = m !! q) as E by (by rewrite Hm2).
      unfold meet_slots in E. rewrite lookup_union_with, E1, E2 in E. cbn in E. simplify_eq.
      by rewrite E, bool_decide_eq_true_2.
    + intros q _. unfold adopts. rewrite put_slots_lookup by apply slot_keys_nodup.
      assert (meet_slots m (slots inc) !! q = m !! q) as E by (by rewrite Hm2).
      unfold meet_slots in E. rewrite lookup_union_with in E.
      destruct (m !! q) eqn:E1, (slots inc !! q) eqn:E2; cbn in E; try done; by case_bool_decide.
Qed.
