(* ===== verification/StateFacts.v ===== *)
(** * Theorems about the abstract states

    What [Join] promises the fixed point, and that every operation of
    [AbsState] keeps the well-formedness invariant. *)

From stdpp Require Import gmap fin_maps sorting.
From S2P Require Import Prelude CfiTable AbsState AbsStateFacts JoinFacts.

(** ** [Join] *)

(** C12: [Join] is the pointwise meet of the reference definition [meet];
    its [changed] flag is raised exactly when the state is not what it was;
    the conflicts it pushes are the components on which both sides name a
    value and the values differ, registers first, then slots in order. *)
Theorem Join_meet inc s :
  wf_state inc → wf_state s →
  Join inc s = (meet s inc, bool_decide (meet s inc ≠ s), conflicts_of s inc).
Proof.
  intros Hi Hs. rewrite Join_unfold by done. do 2 f_equal. apply eq_true_iff_eq.
  rewrite bool_decide_eq_true. pose proof (differs_false s inc Hi Hs).
  destruct (differs s inc); intuition congruence.
Qed.

(** C13: on well-formed states [Join] is a meet: idempotent, commutative and
    associative, and it keeps states well formed, so the state at a program
    point does not depend on the order in which its predecessors arrive. *)
Theorem Join_semilattice :
  Semilattice wf_state (fun s inc => joined inc s).
Proof.
  assert (∀ s inc, wf_state s → wf_state inc → joined inc s = meet s inc) as E.
  { intros s inc Hs Hi. unfold joined. by rewrite Join_unfold. }
  pose proof meet_semilattice as M. split.
  - intros x y Hx Hy. rewrite E by done. by apply sl_closed.
  - intros x Hx. rewrite E by done. by apply sl_idem.
  - intros x y Hx Hy. rewrite !E by done. by apply sl_comm.
  - intros x y z Hx Hy Hz. assert (wf_state (meet y z)) by (by apply sl_closed).
    assert (wf_state (meet x y)) by (by apply sl_closed). rewrite !E by (rewrite ?E; done).
    by apply sl_assoc.
Qed.

(** The order of the lattice, component by component: what a state below
    another says about a register is what the other says, or a conflict, or
    more than a state that says nothing. *)
Definition av_below (a b : AbsVal) : Prop := below meetv a b.

Lemma av_below_iff a b : av_below a b ↔ b = Top ∨ a = b ∨ a = Bottom.
Proof.
  unfold av_below, below. split.
  - destruct a, b; unfold meetv, JoinValue; cbn; repeat case_bool_decide; simplify_eq/=; auto.
  - intros [->|[->| ->]].
    + destruct a; unfold meetv, JoinValue; cbn; by repeat case_bool_decide.
    + unfold meetv, JoinValue. by rewrite bool_decide_eq_true_2.
    + unfold meetv, JoinValue. cbn. by case_bool_decide.
Qed.

Definition state_below (s1 s2 : AbsState) : Prop := below meet s1 s2.

Lemma state_below_reg s1 s2 r :
  wf_state s1 → wf_state s2 → state_below s1 s2 → 0 <= r < 16 → av_below (reg s1 r) (reg s2 r).
Proof.
  intros [H1 _ _ _ _] [H2 _ _ _ _] Hb Hr. unfold state_below, below in Hb.
  pose proof (reg_lookup s1 r H1 Hr) as E. rewrite <-Hb in E at 1. cbn in E.
  rewrite lookup_zip_with, !reg_lookup in E by done. cbn in E. by injection E.
Qed.

Lemma state_below_slot s1 s2 k :
  state_below s1 s2 → av_below (Slot s1 k) (Slot s2 k).
Proof.
  intros Hb. unfold state_below, below in Hb.
  assert (meet_slots (slots s1) (slots s2) !! k = slots s1 !! k) as E.
  { apply (f_equal slots) in Hb. by rewrite <-Hb at 2. }
  unfold meet_slots in E. rewrite lookup_union_with in E. unfold Slot.
  destruct (slots s1 !! k), (slots s2 !! k); cbn in *; simplify_eq;
    try (apply av_below_iff; by auto). by unfold av_below, below.
Qed.

Lemma joined_below_incoming inc s :
  wf_state inc → wf_state s → wf_state (joined inc s) ∧ state_below (joined inc s) inc ∧
  state_below (joined inc s) s.
Proof.
  intros Hi Hs. unfold joined. rewrite Join_unfold by done. cbn. split; [by apply sl_closed|].
  unfold state_below. split; [eapply (below_r wf_state) | eapply (below_l wf_state)]; eauto with typeclass_instances.
Qed.

Lemma joined_id_below inc s : wf_state inc → wf_state s → joined inc s = s → state_below s inc.
Proof. intros Hi Hs <-. by destruct (joined_below_incoming inc s Hi Hs) as (_ & ? & _). Qed.

(** ** Operations keep states well formed *)

Lemma u64_BoundTop : is_u64 kBoundTop.
Proof. unfold kBoundTop. mach. Qed.
#[export] Hint Resolve u64_BoundTop : uw.
Lemma tv_ok_none : tv_ok TableNone.
Proof. split_and!; cbn; auto with uw. Qed.
Lemma av_ok_reg s r : wf_state s → av_ok (reg s r).
Proof.
  intros []. unfold reg. case_match; [|done]. destruct (gpr s !! Z.to_nat r) eqn:E; [|done].
  by eapply Forall_lookup_1 in E.
Qed.
Lemma tv_ok_table s r : wf_state s → tv_ok (table s r).
Proof.
  intros []. unfold table. case_match; [|apply tv_ok_none].
  destruct (tbl s !! Z.to_nat r) eqn:E; [|apply tv_ok_none]. by eapply Forall_lookup_1 in E.
Qed.
Lemma av_ok_slot s k : wf_state s → av_ok (Slot s k).
Proof.
  intros []. unfold Slot. destruct (slots s !! k) eqn:E; [|done]. by destruct (wf_slots k _ E).
Qed.
#[export] Hint Resolve tv_ok_none av_ok_reg tv_ok_table av_ok_slot : uw.

Lemma wf_with_last_cmp c s : wf_state s → wf_state (with_last_cmp c s).
Proof. by intros []. Qed.
Lemma wf_filter_slots (f : Z * AbsVal → Prop) `{∀ x, Decision (f x)} s :
  wf_state s → wf_state (with_slots (filter f (slots s)) s).
Proof.
  intros []. split; cbn; try done. intros k v [Hk _]%map_lookup_filter_Some. by apply (wf_slots k).
Qed.
Lemma wf_DropSlotsBelow d s : wf_state s → wf_state (DropSlotsBelow d s).
Proof. apply wf_filter_slots. Qed.
Lemma wf_DropDeadSlots d s : wf_state s → wf_state (DropDeadSlots d s).
Proof. apply wf_DropSlotsBelow. Qed.
Lemma wf_InvalidateLastCmpFor r s : wf_state s → wf_state (InvalidateLastCmpFor r s).
Proof. intros. unfold InvalidateLastCmpFor. repeat case_match; auto using wf_with_last_cmp. Qed.
#[export] Hint Resolve wf_with_last_cmp wf_filter_slots wf_DropSlotsBelow wf_DropDeadSlots
  wf_InvalidateLastCmpFor : uw.

Lemma wf_SetReg r v t s : wf_state s → av_ok v → tv_ok t → wf_state (SetReg r v t s).
Proof.
  intros Hs Hv Ht.
  assert (wf_state (with_tbl (<[Z.to_nat r := t]> (tbl s)) (with_gpr (<[Z.to_nat r := v]> (gpr s)) s))).
  { destruct Hs. split; cbn; rewrite ?length_insert; auto using Forall_insert. }
  unfold SetReg. repeat case_match; auto with uw.
Qed.
Lemma wf_SetReg1 r v s : wf_state s → av_ok v → wf_state (SetReg1 r v s).
Proof. intros. apply wf_SetReg; auto with uw. Qed.
Lemma wf_SetTableReg r t s : wf_state s → tv_ok t → wf_state (SetTableReg r t s).
Proof. intros. by apply wf_SetReg. Qed.
Lemma wf_CopyReg d r s : wf_state s → wf_state (CopyReg d r s).
Proof. intros. apply wf_SetReg; auto with uw. Qed.
Lemma wf_ClobberReg r s : wf_state s → wf_state (ClobberReg r s).
Proof. intros. apply wf_SetReg; auto with uw; done. Qed.
Lemma wf_SetSlot k v s : wf_state s → av_ok v → wf_state (SetSlot k v s).
Proof.
  intros Hs Hv. unfold SetSlot. destruct (is_top v) eqn:Et; destruct Hs; split; cbn; try done.
  - by apply map_Forall_delete.
  - apply map_Forall_insert_2; [|done]. split; [by intros ->|done].
Qed.
Lemma wf_alter_tbl f i s :
  wf_state s → (∀ t, tv_ok t → tv_ok (f t)) → wf_state (with_tbl (alter f i (tbl s)) s).
Proof.
  intros [] Hf. split; cbn; rewrite ?length_alter; try done. by apply Forall_alter; auto.
Qed.
Lemma tv_ok_guard b t : is_u64 b → tv_ok t → tv_ok (tv_ApplyGuardBound b t).
Proof. intros Hb (H1 & H2 & H3). split_and!; cbn; [mach|mach|done]. Qed.
Lemma tv_ok_value b t : is_u64 b → tv_ok t → tv_ok (tv_ApplyValueBound b t).
Proof. intros Hb (H1 & H2 & H3). split_and!; cbn; [mach|done|done]. Qed.
Lemma wf_ApplyGuardBound r b s : wf_state s → is_u64 b → wf_state (ApplyGuardBound r b s).
Proof.
  intros. unfold ApplyGuardBound. case_match; [|done]. apply wf_alter_tbl; auto using tv_ok_guard.
Qed.
Lemma wf_ApplyValueBound r b s : wf_state s → is_u64 b → wf_state (ApplyValueBound r b s).
Proof.
  intros. unfold ApplyValueBound. case_match; [|done]. apply wf_alter_tbl; auto using tv_ok_value.
Qed.
Lemma wf_ClearBounds r s : wf_state s → wf_state (ClearBounds r s).
Proof.
  intros. apply wf_alter_tbl; [done|]. intros t (_ & _ & ?). split_and!; cbn; auto with uw.
Qed.
#[export] Hint Resolve wf_SetReg wf_SetReg1 wf_SetTableReg wf_CopyReg wf_ClobberReg wf_SetSlot
  wf_ApplyGuardBound wf_ApplyValueBound wf_ClearBounds : uw.

(** ** Initial states *)

Lemma av_ok_orig : Forall av_ok orig_regs.
Proof. repeat constructor; cbn; done. Qed.

Lemma tv_ok_nones : Forall tv_ok (replicate 16 TableNone).
Proof. apply Forall_replicate, tv_ok_none. Qed.

Lemma wf_Entry : wf_state Entry.
Proof.
  split; [done|done| | |].
  - repeat constructor; try done; cbn; mach.
  - exact tv_ok_nones.
  - by apply map_Forall_singleton.
Qed.

Lemma wf_set_gpr r v s : wf_state s → av_ok v → wf_state (set_gpr r v s).
Proof.
  intros [] Hv. unfold set_gpr. case_match; [|by split].
  split; cbn; rewrite ?length_insert; auto using Forall_insert.
Qed.

Lemma row_reg_ok row r : row_shape row → rule_ok (row_reg row r).
Proof.
  intros [[_ Hf] _]. unfold row_reg. destruct (_ !! _) eqn:E; [by eapply Forall_lookup_1 in E|done].
Qed.

Lemma wf_seed_reg row e s r : row_shape row → 0 <= r < 17 → wf_state s → wf_state (seed_reg row e s r).
Proof.
  intros Hrow Hr Hs. pose proof (row_reg_ok row r Hrow) as Hok. unfold seed_reg.
  destruct (row_reg row r); cbn in Hok; try done; try (by apply wf_set_gpr).
  - destruct e; [done|by apply wf_set_gpr].
  - destruct Hs. split; cbn; try done. by apply map_Forall_insert_2.
Qed.

Lemma wf_SeedFromRow row e : row_shape row → wf_state (SeedFromRow row e).
Proof.
  intros Hrow. unfold SeedFromRow.
  assert (∀ l s, Forall (fun r => 0 <= r < 17) l → wf_state s →
    wf_state (foldl (seed_reg row e) s l)) as Hfold.
  { induction l as [|r l IH]; intros s Hl Hs; [done|]. apply Forall_cons in Hl as [Hr Hl].
    cbn. apply IH; [done|]. by apply wf_seed_reg. }
  assert (wf_state (set_gpr kDWARFRsp Top
    (foldl (seed_reg row e) (with_gpr orig_regs blank) (range0 kNumDWARFRegs)))) as H1.
  { apply wf_set_gpr; [|done]. apply Hfold.
    - apply Forall_forall. intros r Hr. unfold range0, kNumDWARFRegs in Hr. apply elem_of_seqZ in Hr. lia.
    - split; cbn; [done|done|apply av_ok_orig|exact tv_ok_nones|].
      apply map_Forall_empty. }
  case_match; try done. apply wf_set_gpr; [done|]. apply s64_range.
Qed.

(** Seeding is a strict generalisation of the fixed entry state: from a
    row that is the canonical function entry (CFA = rsp+8, return address at
    CFA-8) and leaves every other register alone, [SeedFromRow] gives
    exactly [Entry()]; and every row a decoded table can hold seeds a
    well-formed state, at a function entry or not. *)
Lemma SeedFromRow_entry :
  (∀ row, IsCanonicalEntry row = true →
     (∀ r, 0 <= r < 16 → row_reg row r = RR_Unset ∨ row_reg row r = RR_SameValue) →
     SeedFromRow row true = Entry) ∧
  (∀ row at_entry, row_shape row → wf_state (SeedFromRow row at_entry)).
Proof.
  split; [|apply wf_SeedFromRow]. intros row Hc Hr.
  assert (∀ l s, Forall (fun r => 0 <= r < 16) l → foldl (seed_reg row true) s l = s) as Hnop.
  { induction l as [|r l IH]; intros s Hl; [done|]. apply Forall_cons in Hl as [Hlr Hl]. cbn.
    rewrite IH by done. unfold seed_reg. by destruct (Hr r Hlr) as [-> | ->]. }
  unfold SeedFromRow. change (range0 kNumDWARFRegs) with (range0 kNumGPRs ++ [kDWARFRip]).
  rewrite foldl_app, (Hnop (range0 kNumGPRs)) by apply range16_all. cbn [foldl].
  unfold IsCanonicalEntry in Hc. apply andb_true_iff in Hc as [[[Hk Hreg]%andb_true_iff Hoff]%andb_true_iff Hra].
  apply bool_decide_eq_true in Hk. apply Z.eqb_eq in Hreg, Hoff.
  rewrite Hk, Hreg, Hoff. unfold seed_reg at 1. destruct (row_reg row kDWARFRip); try done.
  apply Z.eqb_eq in Hra as ->. reflexivity.
Qed.

(** The row every x86-64 function starts with. *)
Definition entry_row : CFIRow :=
  mkRow 0x1000 (mkCFA CFA_RegOffset 7 8) (<[16%nat := RR_AtCFAOffset (-8)]> no_rules).

Lemma entry_row_shape : row_shape entry_row.
Proof.
  split; [|split; cbn; mach]. split; [done|]. apply Forall_insert; [by apply Forall_replicate|].
  cbn. mach.
Qed.

Lemma SeedFromRow_entry_witness :
  SeedFromRow entry_row true = Entry ∧ wf_state (SeedFromRow entry_row false).
Proof.
  split.
  - apply (proj1 SeedFromRow_entry); [reflexivity|]. intros r Hr. left.
    unfold row_reg, entry_row, row_regs. rewrite list_lookup_insert_ne by (unfold not; lia).
    unfold no_rules. rewrite lookup_replicate_2 by lia. reflexivity.
  - apply (proj2 SeedFromRow_entry), entry_row_shape.
Defined.

Lemma wf_seed_entry_row : wf_state (SeedFromRow entry_row false).
Proof. apply wf_SeedFromRow, entry_row_shape. Qed.

Lemma Join_meet_witness :
  Join (SeedFromRow entry_row false) Entry =
  (meet Entry (SeedFromRow entry_row false),
   bool_decide (meet Entry (SeedFromRow entry_row false) ≠ Entry),
   conflicts_of Entry (SeedFromRow entry_row false)).
Proof. apply Join_meet; [apply wf_seed_entry_row|apply wf_Entry]. Defined.
