(* ===== verification/Zydis.v ===== *)
(** * Decoded instructions

    Models [src/disasm.h] and [src/disasm.cc] over the Zydis disassembler,
    which is third-party code: its decoder, its register tables and its
    address calculation are the operations of the class [ZydisApi], and the
    facts of its documentation the development relies on are the class
    [ZydisLaws].  The enumerations list the members the source names; every
    other member is [.._other] with an arbitrary tag. *)

From S2P Require Import Prelude.

(** ** Enumerations *)

Inductive ZydisRegister :=
  | ZR_NONE | ZR_RIP
  | ZR_RAX | ZR_RDX | ZR_RCX | ZR_RBX | ZR_RSI | ZR_RDI | ZR_RBP | ZR_RSP
  | ZR_R8 | ZR_R9 | ZR_R10 | ZR_R11 | ZR_R12 | ZR_R13 | ZR_R14 | ZR_R15
  | ZR_other (n : Z).
#[export] Instance ZydisRegister_eq_dec : EqDecision ZydisRegister.
Proof. solve_decision. Defined.

Inductive ZydisMnemonic :=
  | M_RET | M_IRET | M_IRETD | M_IRETQ
  | M_JMP | M_JNBE | M_JNB | M_JBE | M_JB
  | M_UD0 | M_UD1 | M_UD2 | M_HLT | M_INT3
  | M_CALL | M_SYSCALL | M_SYSENTER | M_INT | M_INT1 | M_INTO | M_VMCALL | M_VMMCALL
  | M_PUSH | M_PUSHFQ | M_POP | M_POPFQ | M_LEAVE | M_LEA
  | M_MOV | M_MOVQ | M_MOVSXD | M_ADD | M_SUB | M_CMP | M_MOVZX | M_MOVSX
  | M_NOP | M_ENDBR32 | M_ENDBR64
  | M_other (n : Z).
#[export] Instance ZydisMnemonic_eq_dec : EqDecision ZydisMnemonic.
Proof. solve_decision. Defined.

Inductive ZydisCategory := C_COND_BR | C_UNCOND_BR | C_other (n : Z).
#[export] Instance ZydisCategory_eq_dec : EqDecision ZydisCategory.
Proof. solve_decision. Defined.

(** ** Operands *)

Record ZydisMem := mkMem {
  mem_base : ZydisRegister;
  mem_index : ZydisRegister;
  mem_scale : Z;
  mem_disp : Z
}.

Inductive OperandKind :=
  | OpReg (r : ZydisRegister)
  | OpMem (m : ZydisMem)
  | OpImm (value : Z)       (* [imm.value.s]; [imm.value.u] is [u64] of it *)
  | OpOther.

Record ZydisOperand := mkOp {
  op_kind : OperandKind;
  op_size : Z;              (* in bits *)
  op_writes : bool          (* [actions & ZYDIS_OPERAND_ACTION_MASK_WRITE] *)
}.
Definition op_none : ZydisOperand := mkOp OpOther 0 false.

(** [ZydisAccessedFlags]. *)
Record ZydisFlags := mkFlags { fl_modified : Z; fl_set_0 : Z; fl_set_1 : Z; fl_undefined : Z }.

(** [ZydisDecodedInstruction], the fields the source reads. *)
Record ZydisInsn := mkZInsn {
  zi_length : Z;
  zi_mnemonic : ZydisMnemonic;
  zi_operand_count : nat;
  zi_operand_count_visible : nat;
  zi_operand_width : Z;
  zi_category : ZydisCategory;
  zi_has_segment : bool;    (* [attributes & ZYDIS_ATTRIB_HAS_SEGMENT] *)
  zi_cpu_flags : option ZydisFlags
}.

(** [struct Instruction]. *)
Record Instruction := mkInsn {
  in_address : Z;
  in_size : Z;
  in_id : ZydisMnemonic;
  in_op_count : nat;
  in_operands : list ZydisOperand;
  in_insn : ZydisInsn
}.

Definition operand (insn : Instruction) (i : nat) : ZydisOperand :=
  default op_none (in_operands insn !! i).

(** ** The library *)

Class ZydisApi := {
  (* ZydisRegisterGetLargestEnclosing and ZydisRegisterGetWidth, 64-bit mode *)
  GetLargestEnclosing : ZydisRegister → ZydisRegister;
  GetWidth : ZydisRegister → Z;
  (* ZydisDecoderDecodeFull on the bytes available *)
  DecodeFull : list Z → option (ZydisInsn * list ZydisOperand);
  (* ZydisCalcAbsoluteAddress, for an operand of an instruction at an address *)
  CalcAbsoluteAddress : ZydisInsn → ZydisOperand → Z → option Z;
  (* ZydisFormatterFormatInstruction, AT&T syntax *)
  FormatInstruction : Instruction → option string
}.

(** [Disassembler::Decode]. *)
Definition Decode `{ZydisApi} (code : list Z) (address : Z) : option Instruction :=
  '(zi, ops) ← DecodeFull code;
  Some (mkInsn address (zi_length zi) (zi_mnemonic zi) (zi_operand_count_visible zi) ops zi).

(** [Disassembler::Text]: the [StatusOr] as a sum, the error message left. *)
Definition Text `{ZydisApi} (insn : Instruction) : string + string :=
  match FormatInstruction insn with
  | Some s => inr s
  | None => inl ("cannot format instruction at 0x" +:+ fmt_x (in_address insn))
  end.

(** The 64-bit GPRs, in the DWARF numbering of the psABI. *)
Definition kDwarfGprs : list ZydisRegister :=
  [ZR_RAX; ZR_RDX; ZR_RCX; ZR_RBX; ZR_RSI; ZR_RDI; ZR_RBP; ZR_RSP;
   ZR_R8; ZR_R9; ZR_R10; ZR_R11; ZR_R12; ZR_R13; ZR_R14; ZR_R15].

(** What the documentation of Zydis says and the theorems use. *)
Class ZydisLaws `{ZydisApi} : Prop := {
  enclosing_gpr : ∀ r, r ∈ kDwarfGprs → GetLargestEnclosing r = r;
  width_gpr : ∀ r, r ∈ kDwarfGprs → GetWidth r = 64;
  width_sub : ∀ r, GetLargestEnclosing r ∈ kDwarfGprs → GetWidth r ∈ [8; 16; 32; 64];
  enclosing_none : GetLargestEnclosing ZR_NONE ∉ kDwarfGprs;
  enclosing_rip : GetLargestEnclosing ZR_RIP ∉ kDwarfGprs;
  decode_length : ∀ code zi ops, DecodeFull code = Some (zi, ops) →
    1 <= zi_length zi <= 15 ∧ zi_length zi <= Z.of_nat (length code);
  decode_sizes : ∀ code zi ops, DecodeFull code = Some (zi, ops) →
    Forall (fun op => 0 <= op_size op < 65536) ops
}.
