(* ===== verification/ZydisSample.v ===== *)
(** * A sample instruction set

    An instance of [ZydisApi] that decodes a dozen encodings, used only to
    evaluate the development on concrete inputs: it shows that the laws of
    [ZydisLaws] can hold, and the theorems do not depend on it.
    [ZR_other n] stands for the sub-registers: 32-bit ones for [n < 16],
    16-bit ones for [n < 32], the low 8-bit ones for [n < 48]. *)

From S2P Require Import Prelude Zydis.

Definition sample_gpr (i : Z) : ZydisRegister := default ZR_NONE (kDwarfGprs !! Z.to_nat i).

Definition sample_enclosing (r : ZydisRegister) : ZydisRegister :=
  match r with
  | ZR_other n => if (0 <=? n) && (n <? 48) then sample_gpr (n mod 16) else ZR_NONE
  | r => r
  end.
Definition sample_width (r : ZydisRegister) : Z :=
  match r with
  | ZR_NONE => 0
  | ZR_other n => if n <? 16 then 32 else if n <? 32 then 16 else 8
  | _ => 64
  end.

Definition no_flags : option ZydisFlags := Some (mkFlags 0 0 0 0).
Definition some_flags : option ZydisFlags := Some (mkFlags 1 0 0 0).
Definition op_reg (r : ZydisRegister) (w : bool) : ZydisOperand := mkOp (OpReg r) (sample_width r) w.
Definition op_imm (v size : Z) : ZydisOperand := mkOp (OpImm v) size false.
Definition op_mem (base index : ZydisRegister) (scale disp size : Z) (w : bool) : ZydisOperand :=
  mkOp (OpMem (mkMem base index scale disp)) size w.
Definition zinsn len id (ops : list ZydisOperand) cat flags : ZydisInsn * list ZydisOperand :=
  (mkZInsn len id (length ops) (length ops) 64 cat false flags, ops).

Definition eax : ZydisRegister := ZR_other 0.
Definition ecx : ZydisRegister := ZR_other 2.
Definition cl : ZydisRegister := ZR_other 34.

(** The encodings: the opcode bytes, how many immediate bytes follow, and
    the instruction they make. *)
Record encoding := mkEnc {
  enc_opcode : list Z;
  enc_imm : nat;
  enc_id : ZydisMnemonic;
  enc_ops : list Z → list ZydisOperand;
  enc_category : ZydisCategory;
  enc_flags : option ZydisFlags
}.
Definition plain_enc (opcode : list Z) (id : ZydisMnemonic) (ops : list ZydisOperand) : encoding :=
  mkEnc opcode 0 id (fun _ => ops) (C_other 0) no_flags.
Definition rel8 (imm : list Z) : list ZydisOperand := [op_imm (s8 (le_value imm)) 8].
Definition rel32 (imm : list Z) : list ZydisOperand := [op_imm (s32 (le_value imm)) 32].

Definition encodings : list encoding :=
  [plain_enc [0x90] M_NOP [];
   plain_enc [0xC3] M_RET [];
   plain_enc [0xCC] M_INT3 [];
   plain_enc [0x55] M_PUSH [op_reg ZR_RBP false];
   plain_enc [0x5D] M_POP [op_reg ZR_RBP true];
   plain_enc [0xC9] M_LEAVE [];
   plain_enc [0x48; 0x89; 0xE5] M_MOV [op_reg ZR_RBP true; op_reg ZR_RSP false];
   plain_enc [0x0F; 0xB6; 0xC1] M_MOVZX [op_reg eax true; op_reg cl false];
   mkEnc [0x83; 0xF8] 1 M_CMP (fun i => op_reg eax false :: rel8 i) (C_other 0) some_flags;
   mkEnc [0xEB] 1 M_JMP rel8 C_UNCOND_BR no_flags;
   mkEnc [0x77] 1 M_JNBE rel8 C_COND_BR no_flags;
   mkEnc [0xE8] 4 M_CALL rel32 (C_other 0) no_flags].

Definition try_encoding (code : list Z) (e : encoding) : option (ZydisInsn * list ZydisOperand) :=
  let n := length (enc_opcode e) in
  let imm := take (enc_imm e) (drop n code) in
  if bool_decide (take n code = enc_opcode e) && bool_decide (length imm = enc_imm e)
  then Some (zinsn (Z.of_nat (n + enc_imm e)) (enc_id e) (enc_ops e imm) (enc_category e) (enc_flags e))
  else None.
Definition table_decode (table : list encoding) (code : list Z) : option (ZydisInsn * list ZydisOperand) :=
  foldr (fun e rest => match try_encoding code e with Some r => Some r | None => rest end) None table.
Definition sample_decode : list Z → option (ZydisInsn * list ZydisOperand) := table_decode encodings.

Definition sample_address (zi : ZydisInsn) (op : ZydisOperand) (address : Z) : option Z :=
  match op_kind op with
  | OpImm v => Some (u64 (address + zi_length zi + v))
  | _ => None
  end.

(** Relative to the end of the instruction, for a branch and for [%rip]. *)
Definition rip_address (zi : ZydisInsn) (op : ZydisOperand) (address : Z) : option Z :=
  match op_kind op with
  | OpMem m => if bool_decide (mem_base m = ZR_RIP)
               then Some (u64 (address + zi_length zi + mem_disp m)) else None
  | _ => sample_address zi op address
  end.

#[export] Instance sample_zydis : ZydisApi := {
  GetLargestEnclosing := sample_enclosing;
  GetWidth := sample_width;
  DecodeFull := sample_decode;
  CalcAbsoluteAddress := sample_address;
  FormatInstruction := fun _ => Some "insn"
}.

Lemma width_other n : sample_enclosing (ZR_other n) ∈ kDwarfGprs → sample_width (ZR_other n) ∈ [8; 16; 32; 64].
Proof. intros _. cbn. repeat case_match; set_solver. Qed.

Lemma try_encoding_length code e zi ops :
  (1 ≤ length (enc_opcode e) + enc_imm e ≤ 15)%nat → try_encoding code e = Some (zi, ops) →
  1 <= zi_length zi <= 15 ∧ zi_length zi <= Z.of_nat (length code).
Proof.
  unfold try_encoding. intros He. case_match eqn:E; [|done]. intros [= <- _].
  apply andb_true_iff in E as [E1%bool_decide_eq_true E2%bool_decide_eq_true].
  apply (f_equal length) in E1. rewrite length_take in E1. rewrite length_take, length_drop in E2.
  cbn. lia.
Qed.

Lemma table_decode_length table code zi ops :
  Forall (fun e => 1 ≤ length (enc_opcode e) + enc_imm e ≤ 15)%nat table →
  table_decode table code = Some (zi, ops) →
  1 <= zi_length zi <= 15 ∧ zi_length zi <= Z.of_nat (length code).
Proof.
  intros Hf. induction Hf as [|e l He Hf IH]; cbn; [done|].
  destruct (try_encoding code e) as [[zi' ops']|] eqn:E; [|done].
  intros [= <- <-]. by eapply try_encoding_length.
Qed.

Lemma table_decode_sizes table code zi ops :
  Forall (fun e => ∀ imm, Forall (fun op => 0 <= op_size op < 65536) (enc_ops e imm)) table →
  table_decode table code = Some (zi, ops) → Forall (fun op => 0 <= op_size op < 65536) ops.
Proof.
  intros Hf. induction Hf as [|e l He Hf IH]; cbn; [done|]. unfold try_encoding at 1. cbv zeta.
  destruct (_ && _); [|done]. intros [= _ <-]. apply He.
Qed.

(** The laws hold of the sample registers with any decoder that keeps the
    bounds on lengths and sizes. *)
Ltac sample_register_laws :=
  split;
  [ intros r Hr; repeat (apply elem_of_cons in Hr as [->|Hr]; [done|]); by apply elem_of_nil in Hr
  | intros r Hr; repeat (apply elem_of_cons in Hr as [->|Hr]; [done|]); by apply elem_of_nil in Hr
  | intros [] Hr; try (cbn; set_solver); by apply width_other
  | apply (bool_decide_unpack _); by vm_compute
  | apply (bool_decide_unpack _); by vm_compute
  | intros code zi ops; apply table_decode_length; apply (bool_decide_unpack _); by vm_compute
  | intros code zi ops; apply table_decode_sizes;
    repeat (constructor; [intros imm; repeat (constructor; [cbn; lia|]); constructor|]); constructor ].

#[export] Instance sample_laws : ZydisLaws.
Proof. sample_register_laws. Qed.
