(* ===== verification/InsnSemantics.v ===== *)
(** * What an instruction does to the abstract state

    Models [src/insn-semantics.h] and [src/insn-semantics.cc].  [Transfer]
    is split the way the source's switch is: one definition per group of
    cases.  A case that returns from [Transfer] is [Some]; a case that
    [break]s out of the switch, towards [ClobberWrites], is [None]. *)

From stdpp Require Import gmap fin_maps.
From S2P Require Import Prelude CfiTable AbsState Zydis.

Record TransferOutcome := mkOut {
  falls_through : bool;
  direct_target : option Z;       (* has_direct_target, direct_target *)
  indirect_branch : bool;
  is_return : bool;
  is_call : bool;
  jump_table : option (Z * Z);    (* has_jump_table, address, entries *)
  unbounded_jump_target : option Z;
  review_reason : string
}.
Definition out_default : TransferOutcome := mkOut true None false false false None None "".

Inductive BranchEdge := kFallThrough | kTaken.
#[export] Instance BranchEdge_eq_dec : EqDecision BranchEdge.
Proof. solve_decision. Defined.

(** Registers a call may destroy. *)
Definition kCallerSaved : list Z := [0; 1; 2; 4; 5; 8; 9; 10; 11].

Section InsnSemantics.
Context `{ZydisApi}.

(** ** The register table ([RegInfoTable]) *)

Fixpoint gpr_index (i : Z) (gprs : list ZydisRegister) (parent : ZydisRegister) : option Z :=
  match gprs with
  | [] => None
  | g :: gprs => if bool_decide (g = parent) then Some i else gpr_index (i + 1) gprs parent
  end.

(** The [dwarf_reg], [width_bits] and [is_full_64] entries of one register. *)
Definition reg_info (r : ZydisRegister) : Z * Z * bool :=
  let parent := GetLargestEnclosing r in
  match gpr_index 0 kDwarfGprs parent with
  | Some i => (i, u8 (GetWidth r), bool_decide (parent = r))
  | None => (-1, 0, false)
  end.

Definition DWARFRegOf (r : ZydisRegister) : Z := (reg_info r).1.1.
Definition RegWidthBits (r : ZydisRegister) : Z := (reg_info r).1.2.
Definition IsFull64 (r : ZydisRegister) : bool := (reg_info r).2.

Definition ReadReg (s : AbsState) (r : ZydisRegister) : AbsVal :=
  if IsFull64 r then reg s (DWARFRegOf r) else Top.

(** ** Memory *)

(** The CFA offset a memory operand addresses, when it can be named. *)
Definition MemSlot (s : AbsState) (insn : Instruction) (m : ZydisMem) : option Z :=
  if zi_has_segment (in_insn insn) || negb (bool_decide (mem_index m = ZR_NONE)) then None
  else if negb (IsFull64 (mem_base m)) then None
  else match reg s (DWARFRegOf (mem_base m)) with
       | CFARel d => Some (s64 (d + mem_disp m))
       | _ => None
       end.

Definition LeaValue (s : AbsState) (insn : Instruction) (m : ZydisMem) : AbsVal :=
  match MemSlot s insn m with Some slot => CFARel slot | None => Top end.

(** Erases the slots whose eight bytes overlap [[start, start + size)]. *)
Definition EraseSlots (start size : Z) (s : AbsState) : AbsState :=
  if size <=? 0 then s
  else with_slots (filter (fun kv => ¬ (start - 7 <= kv.1 < start + size)) (slots s)) s.

Definition HandleUnplacedMemWrite (s : AbsState) : AbsState := s.

(** A memory operand that is written, of [op_size] bits. *)
Definition erase_operand (slot : Z) (op : ZydisOperand) (s : AbsState) : AbsState :=
  EraseSlots slot (Z.max 1 (op_size op / 8)) s.

(** ** Flags and bounds *)

Definition WritesEflags (insn : Instruction) : bool :=
  match zi_cpu_flags (in_insn insn) with
  | None => true
  | Some f => negb (fl_modified f =? 0) || negb (fl_set_0 f =? 0) || negb (fl_set_1 f =? 0)
              || negb (fl_undefined f =? 0)
  end.

Definition WrittenRegBound (r : ZydisRegister) : Z :=
  if RegWidthBits r =? 32 then WidthBound 32 else kBoundTop.

Definition set_value_bound (r b : Z) (s : AbsState) : AbsState :=
  with_tbl (alter (fun t => mkTable (tv_id t) b (table_bound t)) (Z.to_nat r) (tbl s)) s.

Definition ClobberWrittenReg (r : ZydisRegister) (dwarf_reg : Z) (s : AbsState) : AbsState :=
  set_value_bound dwarf_reg (WrittenRegBound r) (ClobberReg dwarf_reg s).

Definition ProvenGuardBound (s : AbsState) (r read_bits : Z) : Z :=
  if r <? 0 then kBoundTop
  else match last_cmp s with
  | Some g =>
      if negb (proven g) then kBoundTop
      else if negb (fg_reg g =? r) || (fg_width_bits g <? read_bits) then kBoundTop
      else Z.min (WidthBound read_bits) (fg_proven_bound g)
  | None => kBoundTop
  end.

Definition ApplyZeroExtendedFrom (dst src : TableVal) (src_bits guard_bound : Z) : TableVal :=
  mkTable (tv_id dst) (Z.min (Z.min (WidthBound src_bits) (value_bound src)) guard_bound)
          (Z.min (table_bound src) guard_bound).

Definition ApplySignExtendedFrom (dst src : TableVal) (src_bits guard_bound : Z) : TableVal :=
  let low := Z.min (Z.min (WidthBound src_bits) (value_bound src)) guard_bound in
  if (64 <=? src_bits) || (2 ^ (src_bits - 1) <=? low) then tv_ClearBounds dst
  else mkTable (tv_id dst) low (Z.min (table_bound src) guard_bound).

Definition update_table (r : Z) (f : TableVal → TableVal) (s : AbsState) : AbsState :=
  with_tbl (alter f (Z.to_nat r) (tbl s)) s.

(** ** Branch edges *)

Inductive GuardEdge := kNoGuard | kAtMostImm | kBelowImm.

Definition InRangeEdgeOf (id : ZydisMnemonic) (edge : BranchEdge) : GuardEdge :=
  match id, edge with
  | M_JNBE, kFallThrough => kAtMostImm
  | M_JNB, kFallThrough => kBelowImm
  | M_JBE, kTaken => kAtMostImm
  | M_JB, kTaken => kBelowImm
  | _, _ => kNoGuard
  end.

Definition TransferEdge (insn : Instruction) (edge : BranchEdge) (s : AbsState) : AbsState :=
  match InRangeEdgeOf (in_id insn) edge, last_cmp s with
  | kNoGuard, _ | _, None => s
  | guard_edge, Some g =>
      if proven g then s
      else
        let below := match guard_edge with kBelowImm => true | _ => false end in
        if below && (fg_imm g =? 0) then s
        else
          let ubound := if below then fg_imm g - 1 else fg_imm g in
          let s := with_last_cmp (Some (mkGuard (fg_reg g) (fg_width_bits g) (fg_imm g) ubound)) s in
          if (64 <=? fg_width_bits g)
             || (value_bound (table s (fg_reg g)) <=? WidthBound (fg_width_bits g))
          then ApplyGuardBound (fg_reg g) ubound s else s
  end.

(** ** The generic clobber *)

Definition clobber_operand (insn : Instruction) (s : AbsState) (op : ZydisOperand) : AbsState :=
  if negb (op_writes op) then s
  else match op_kind op with
  | OpReg r => if 0 <=? DWARFRegOf r then ClobberWrittenReg r (DWARFRegOf r) s else s
  | OpMem m =>
      match MemSlot s insn m with
      | Some slot => erase_operand slot op s
      | None => HandleUnplacedMemWrite s
      end
  | _ => s
  end.

Definition ClobberWrites (insn : Instruction) (s : AbsState) : AbsState :=
  foldl (clobber_operand insn) s (take (zi_operand_count (in_insn insn)) (in_operands insn)).

(** ** Control flow *)

Definition out_stops : TransferOutcome := mkOut false None false false false None None "".
Definition out_return : TransferOutcome := mkOut false None false true false None None "".
Definition out_call : TransferOutcome := mkOut true None false false true None None "".
Definition out_review (why : string) : TransferOutcome :=
  mkOut true None false false false None None why.

Definition is_return_id (id : ZydisMnemonic) : bool :=
  match id with M_RET | M_IRET | M_IRETD | M_IRETQ => true | _ => false end.
Definition is_branch (insn : Instruction) : bool :=
  match zi_category (in_insn insn) with C_COND_BR | C_UNCOND_BR => true | _ => false end.
Definition is_stop_id (id : ZydisMnemonic) : bool :=
  match id with M_UD0 | M_UD1 | M_UD2 | M_HLT | M_INT3 => true | _ => false end.

Definition op_is_reg (op : ZydisOperand) : bool :=
  match op_kind op with OpReg _ => true | _ => false end.

Definition at_least_one (insn : Instruction) : bool := bool_decide (1 ≤ in_op_count insn)%nat.
Definition two_ops (insn : Instruction) : bool := bool_decide (in_op_count insn = 2%nat).

(** The direct target of a branch with an immediate operand. *)
Definition branch_target (insn : Instruction) : option Z :=
  if at_least_one insn then
    match op_kind (operand insn 0) with
    | OpImm _ => CalcAbsoluteAddress (in_insn insn) (operand insn 0) (in_address insn)
    | _ => None
    end
  else None.

(** A conditional or unconditional branch. *)
Definition TransferBranch (insn : Instruction) (s : AbsState) : TransferOutcome :=
  let falls := negb (bool_decide (in_id insn = M_JMP)) in
  let indirect unbounded := mkOut falls None true false false None unbounded "" in
  match branch_target insn with
  | Some target => mkOut falls (Some target) false false false None None ""
  | None =>
      match op_kind (operand insn 0) with
      | OpReg r =>
          let v := table s (DWARFRegOf r) in
          if at_least_one insn && IsJumpTarget v then
            if HasTableBound v then
              mkOut falls None false false false
                    (Some (TableAddr v, u64 (table_bound v + 1))) None ""
            else indirect (Some (TableAddr v))
          else indirect None
      | _ => indirect None
      end
  end.

(** ** The cases of the switch *)

Definition drop_below_rsp (s : AbsState) : AbsState :=
  match reg s kDWARFRsp with CFARel d => DropSlotsBelow d s | _ => s end.
Definition clobber_caller_saved (s : AbsState) : AbsState :=
  foldl (fun s r => ClobberReg r s) s kCallerSaved.

Definition TransferCall (s : AbsState) : TransferOutcome * AbsState :=
  (out_call, clobber_caller_saved (drop_below_rsp s)).
Definition TransferSyscall (s : AbsState) : TransferOutcome * AbsState :=
  (out_default, clobber_caller_saved (drop_below_rsp s)).

Definition odd_width (insn : Instruction) : bool :=
  negb (bool_decide (in_op_count insn = 1%nat)) || negb (zi_operand_width (in_insn insn) =? 64).

Definition pushed_value (insn : Instruction) (s : AbsState) : AbsVal :=
  if bool_decide (in_id insn = M_PUSH) then
    match op_kind (operand insn 0) with
    | OpReg r => ReadReg s r
    | OpMem m => match MemSlot s insn m with Some slot => Slot s slot | None => Top end
    | _ => Top
    end
  else Top.

Definition TransferPush (insn : Instruction) (s : AbsState) : TransferOutcome * AbsState :=
  if bool_decide (in_id insn = M_PUSH) && odd_width insn then
    (out_review "push with an operand size other than 8 bytes", ClobberReg kDWARFRsp s)
  else
    let pushed := pushed_value insn s in
    match reg s kDWARFRsp with
    | CFARel d =>
        let at_ := s64 (d - 8) in
        (out_default, SetSlot at_ pushed (SetReg1 kDWARFRsp (CFARel at_) s))
    | _ => (out_default, s)
    end.

(** Where a [pop] puts the popped value. *)
Definition store_popped (insn : Instruction) (popped : AbsVal) (s : AbsState) : AbsState :=
  if bool_decide (in_id insn = M_POP) then
    match op_kind (operand insn 0) with
    | OpReg r =>
        if 0 <=? DWARFRegOf r
        then SetReg1 (DWARFRegOf r) (if IsFull64 r then popped else Top) s else s
    | OpMem m => match MemSlot s insn m with Some slot => SetSlot slot popped s | None => s end
    | _ => s
    end
  else s.

Definition TransferPop (insn : Instruction) (s : AbsState) : TransferOutcome * AbsState :=
  if bool_decide (in_id insn = M_POP) && odd_width insn then
    (out_review "pop with an operand size other than 8 bytes", ClobberReg kDWARFRsp s)
  else
    match reg s kDWARFRsp with
    | CFARel d =>
        (out_default,
         store_popped insn (Slot s d) (SetReg1 kDWARFRsp (CFARel (s64 (d + 8))) s))
    | _ => (out_default, store_popped insn Top s)
    end.

Definition TransferLeave (s : AbsState) : TransferOutcome * AbsState :=
  let s := CopyReg kDWARFRsp kDWARFRbp s in
  match reg s kDWARFRsp with
  | CFARel d =>
      (out_default, SetReg1 kDWARFRsp (CFARel (s64 (d + 8))) (SetReg1 kDWARFRbp (Slot s d) s))
  | _ => (out_default, ClobberReg kDWARFRbp s)
  end.

(** [lea disp(%rip)]: the constant it loads. *)
Definition rip_constant (insn : Instruction) (m : ZydisMem) : option Z :=
  if bool_decide (mem_base m = ZR_RIP) && bool_decide (mem_index m = ZR_NONE)
  then CalcAbsoluteAddress (in_insn insn) (operand insn 1) (in_address insn) else None.

Definition TransferLea (insn : Instruction) (s : AbsState) :
    option (TransferOutcome * AbsState) :=
  match two_ops insn, op_kind (operand insn 0), op_kind (operand insn 1) with
  | true, OpReg r, OpMem m =>
      let d := DWARFRegOf r in
      if d <? 0 then None
      else if negb (IsFull64 r) then Some (out_default, ClobberWrittenReg r d s)
      else match rip_constant insn m with
      | Some target => Some (out_default, SetTableReg d (TableConst (s64 target)) s)
      | None => Some (out_default, SetReg1 d (LeaValue s insn m) s)
      end
  | _, _, _ => None
  end.

(** A [mov] to a register narrower than 64 bits. *)
Definition TransferMovNarrow (dst_reg : ZydisRegister) (d : Z) (src : ZydisOperand) (s : AbsState) :
    AbsState :=
  let sr := match op_kind src with
            | OpReg r => if RegWidthBits dst_reg =? 32 then DWARFRegOf r else -1
            | _ => -1
            end in
  let src_val := table s sr in
  let guard := if 0 <=? sr then ProvenGuardBound s sr (op_size src) else kBoundTop in
  let s := ClobberWrittenReg dst_reg d s in
  if 0 <=? sr
  then update_table d (fun t => ApplyZeroExtendedFrom t src_val (op_size src) guard) s
  else s.

(** A [mov] to a full 64-bit register. *)
Definition TransferMovFull (insn : Instruction) (d : Z) (src : ZydisOperand) (s : AbsState) :
    AbsState :=
  match op_kind src with
  | OpReg r =>
      if (0 <=? DWARFRegOf r) && IsFull64 r then CopyReg d (DWARFRegOf r) s
      else SetReg1 d Top s
  | OpMem m =>
      SetReg1 d (match MemSlot s insn m with
                 | Some slot => if op_size src =? 64 then Slot s slot else Top
                 | None => Top
                 end) s
  | _ => ClobberReg d s
  end.

Definition TransferMovStore (insn : Instruction) (m : ZydisMem) (dst src : ZydisOperand)
    (s : AbsState) : AbsState :=
  match MemSlot s insn m with
  | None => HandleUnplacedMemWrite s
  | Some slot =>
      let s1 := erase_operand slot dst s in
      match op_kind src with
      | OpReg r =>
          if (op_size dst =? 64) && IsFull64 r then SetSlot slot (ReadReg s1 r) s1 else s1
      | _ => s1
      end
  end.

Definition TransferMov (insn : Instruction) (s : AbsState) :
    option (TransferOutcome * AbsState) :=
  if negb (two_ops insn) then None
  else
    let dst := operand insn 0 in
    let src := operand insn 1 in
    match op_kind dst with
    | OpReg r =>
        let d := DWARFRegOf r in
        if d <? 0 then None
        else if negb (IsFull64 r) then Some (out_default, TransferMovNarrow r d src s)
        else Some (out_default, TransferMovFull insn d src s)
    | OpMem m => Some (out_default, TransferMovStore insn m dst src s)
    | _ => None
    end.

(** [movslq disp(%B,%I,4),%T]: the switch-table load. *)
Definition TransferTableLoad (d : Z) (m : ZydisMem) (s : AbsState) :
    option (TransferOutcome * AbsState) :=
  if bool_decide (mem_index m = ZR_NONE) || negb (mem_scale m =? 4)
     || bool_decide (mem_base m = ZR_NONE) then None
  else
    let idx_reg := DWARFRegOf (mem_index m) in
    let base_reg := DWARFRegOf (mem_base m) in
    if (idx_reg <? 0) || (base_reg <? 0) || negb (IsFull64 (mem_base m)) then None
    else
      let base_val := table s base_reg in
      if negb (IsConst base_val) then None
      else
        let table_addr := u64 (ConstValue base_val + mem_disp m) in
        let index_bound := table_bound (table s idx_reg) in
        Some (out_default,
              SetTableReg d (TableEntry (s64 table_addr) idx_reg (u64 (ConstValue base_val))
                                        index_bound) s).

Definition TransferMovsxd (insn : Instruction) (s : AbsState) :
    option (TransferOutcome * AbsState) :=
  match two_ops insn, op_kind (operand insn 0) with
  | true, OpReg r =>
      let d := DWARFRegOf r in
      if (d <? 0) || negb (IsFull64 r) then None
      else match op_kind (operand insn 1) with
      | OpReg q =>
          let sr := DWARFRegOf q in
          let src_bits := op_size (operand insn 1) in
          let src_val := table s sr in
          let guard := if 0 <=? sr then ProvenGuardBound s sr src_bits else kBoundTop in
          let s := ClobberReg d s in
          Some (out_default,
                if 0 <=? sr
                then update_table d (fun t => ApplySignExtendedFrom t src_val src_bits guard) s
                else s)
      | OpMem m => TransferTableLoad d m s
      | _ => None
      end
  | _, _ => None
  end.

(** [add %B,%T]: a table entry plus the constant it was derived from. *)
Definition resolve (base_candidate entry_candidate : TableVal) : option TableVal :=
  if IsConst base_candidate && IsTableEntry entry_candidate
     && (TableBaseConst entry_candidate =? u64 (ConstValue base_candidate))
  then Some (JumpTarget (s64 (TableAddr entry_candidate)) (u8 (IndexReg entry_candidate))
                        (table_bound entry_candidate))
  else None.

Definition dispatch_add (insn : Instruction) (s : AbsState) : option (Z * TableVal) :=
  match bool_decide (in_id insn = M_ADD) && two_ops insn,
        op_kind (operand insn 0), op_kind (operand insn 1) with
  | true, OpReg r0, OpReg r1 =>
      let d0 := DWARFRegOf r0 in
      let d1 := DWARFRegOf r1 in
      if (0 <=? d0) && (0 <=? d1) && IsFull64 r0 && IsFull64 r1 then
        match resolve (table s d0) (table s d1) with
        | Some t => Some (d0, t)
        | None => match resolve (table s d1) (table s d0) with
                  | Some t => Some (d0, t)
                  | None => None
                  end
        end
      else None
  | _, _, _ => None
  end.

Definition TransferAddSub (insn : Instruction) (s : AbsState) :
    option (TransferOutcome * AbsState) :=
  match dispatch_add insn s with
  | Some (d0, t) => Some (out_default, SetTableReg d0 t s)
  | None =>
      match two_ops insn, op_kind (operand insn 0), op_kind (operand insn 1) with
      | true, OpReg r, OpImm imm =>
          let d := DWARFRegOf r in
          if d <? 0 then None
          else match reg s d with
          | CFARel delta =>
              if IsFull64 r then
                Some (out_default,
                      SetReg1 d (CFARel (s64 (if bool_decide (in_id insn = M_ADD)
                                              then delta + imm else delta - imm))) s)
              else Some (out_default, ClobberWrittenReg r d s)
          | _ => Some (out_default, ClobberWrittenReg r d s)
          end
      | _, _, _ => None
      end
  end.

(** [cmp $imm,%reg]: records the comparison, establishes nothing. *)
Definition TransferCmp (insn : Instruction) (s : AbsState) : TransferOutcome * AbsState :=
  match two_ops insn, op_kind (operand insn 0), op_kind (operand insn 1) with
  | true, OpReg r, OpImm v =>
      if 0 <=? DWARFRegOf r then
        let width := u8 (op_size (operand insn 0)) in
        let imm := if width <? 64 then Z.land (u64 v) (2 ^ width - 1) else u64 v in
        (out_default, with_last_cmp (Some (mkGuard (DWARFRegOf r) width imm kBoundTop)) s)
      else (out_default, s)
  | _, _, _ => (out_default, s)
  end.

(** [movzx] and [movsx]. *)
Definition TransferWiden (insn : Instruction) (s : AbsState) :
    option (TransferOutcome * AbsState) :=
  let src := operand insn 1 in
  match two_ops insn, op_kind (operand insn 0) with
  | true, OpReg r =>
      let d := DWARFRegOf r in
      if d <? 0 then None
      else match op_kind src with
      | OpImm _ | OpOther => None
      | k =>
          let sr := match k with OpReg q => DWARFRegOf q | _ => -1 end in
          let src_val := table s sr in
          let guard := if 0 <=? sr then ProvenGuardBound s sr (op_size src) else kBoundTop in
          let s := ClobberWrittenReg r d s in
          if RegWidthBits r <? 32 then Some (out_default, s)
          else
            let widen := if bool_decide (in_id insn = M_MOVZX)
                         then ApplyZeroExtendedFrom else ApplySignExtendedFrom in
            let s := update_table d (fun t => widen t src_val (op_size src) guard) s in
            Some (out_default, update_table d (tv_ApplyValueBound (WrittenRegBound r)) s)
      end
  | _, _ => None
  end.

(** The switch: [None] when its case breaks out of it. *)
Definition TransferCase (insn : Instruction) (s : AbsState) :
    option (TransferOutcome * AbsState) :=
  match in_id insn with
  | M_CALL => Some (TransferCall s)
  | M_SYSCALL | M_SYSENTER | M_INT | M_INT1 | M_INT3 | M_INTO | M_VMCALL | M_VMMCALL =>
      Some (TransferSyscall s)
  | M_PUSH | M_PUSHFQ => Some (TransferPush insn s)
  | M_POP | M_POPFQ => Some (TransferPop insn s)
  | M_LEAVE => Some (TransferLeave s)
  | M_LEA => TransferLea insn s
  | M_MOV | M_MOVQ => TransferMov insn s
  | M_MOVSXD => TransferMovsxd insn s
  | M_ADD | M_SUB => TransferAddSub insn s
  | M_CMP => Some (TransferCmp insn s)
  | M_MOVZX | M_MOVSX => TransferWiden insn s
  | M_NOP | M_ENDBR32 | M_ENDBR64 => Some (out_default, s)
  | _ => None
  end.

(** An unproven guard does not survive a write to EFLAGS. *)
Definition expire_last_cmp (insn : Instruction) (s : AbsState) : AbsState :=
  if WritesEflags insn && negb (match last_cmp s with Some g => proven g | None => false end)
  then with_last_cmp None s else s.

Definition Transfer (insn : Instruction) (s : AbsState) : TransferOutcome * AbsState :=
  let s := expire_last_cmp insn s in
  if is_return_id (in_id insn) then (out_return, s)
  else if is_branch insn then (TransferBranch insn s, s)
  else if is_stop_id (in_id insn) then (out_stops, s)
  else match TransferCase insn s with
  | Some r => r
  | None => (out_default, ClobberWrites insn s)
  end.
End InsnSemantics.
