(* ===== verification/InsnSemanticsTests.v ===== *)
(** * The unit tests of the instruction semantics

    Models [src/insn-semantics-test.cc]: the fixture and one [test] per
    [TEST_F], which [insn_semantics_tests_pass] runs.  The decoder is
    third-party code; [test_zydis] is an instance that knows the encodings
    the tests use, each with the operands its comment in the source spells
    out (the destination first, as Zydis orders them).  Hidden operands, the
    flags register among them, are not listed: none is a GPR the cases
    concerned do not already handle. *)

From stdpp Require Import gmap strings.
From S2P Require Import Prelude CfiTable AbsState Zydis ZydisSample InsnSemantics.

(** ** The decoder *)

Definition ebx : ZydisRegister := ZR_other 3.
Definition esi : ZydisRegister := ZR_other 4.
Definition cx : ZydisRegister := ZR_other 18.
Definition al : ZydisRegister := ZR_other 32.
Definition sil : ZydisRegister := ZR_other 36.
Definition xmm0 : ZydisRegister := ZR_other 100.

Definition plain (id : ZydisMnemonic) (ops : list ZydisOperand) (len : Z) := zinsn len id ops (C_other 0) no_flags.
Definition arith (id : ZydisMnemonic) (ops : list ZydisOperand) (len : Z) := zinsn len id ops (C_other 0) some_flags.
Definition jump (id : ZydisMnemonic) (ops : list ZydisOperand) (len : Z) := zinsn len id ops C_UNCOND_BR no_flags.
Definition jcc (id : ZydisMnemonic) (ops : list ZydisOperand) (len : Z) := zinsn len id ops C_COND_BR no_flags.
Definition enc (code : list Z)
    (make : ZydisMnemonic → list ZydisOperand → Z → ZydisInsn * list ZydisOperand)
    (id : ZydisMnemonic) (ops : list ZydisOperand) : list Z * (ZydisInsn * list ZydisOperand) :=
  (code, make id ops (Z.of_nat (length code))).

Definition test_encodings : list (list Z * (ZydisInsn * list ZydisOperand)) :=
  [enc [0x53] plain M_PUSH [op_reg ZR_RBX false];
   enc [0x55] plain M_PUSH [op_reg ZR_RBP false];
   enc [0x5b] plain M_POP [op_reg ZR_RBX true];
   enc [0xc9] plain M_LEAVE [];
   enc [0x48; 0x83; 0xec; 0x18] arith M_SUB [op_reg ZR_RSP true; op_imm 24 8];
   enc [0x48; 0x83; 0xec; 0x20] arith M_SUB [op_reg ZR_RSP true; op_imm 32 8];
   enc [0x48; 0x83; 0xec; 0x08] arith M_SUB [op_reg ZR_RSP true; op_imm 8 8];
   enc [0x48; 0x83; 0xec; 0x80] arith M_SUB [op_reg ZR_RSP true; op_imm (-128) 8];
   enc [0x48; 0x83; 0xc4; 0x18] arith M_ADD [op_reg ZR_RSP true; op_imm 24 8];
   enc [0x48; 0x83; 0xe4; 0xf0] arith (M_other 1) [op_reg ZR_RSP true; op_imm (-16) 8];
   enc [0x83; 0xc0; 0x01] arith M_ADD [op_reg eax true; op_imm 1 8];
   enc [0x83; 0xc1; 0x01] arith M_ADD [op_reg ecx true; op_imm 1 8];
   enc [0x01; 0xc8] arith M_ADD [op_reg eax true; op_reg ecx false];
   enc [0x48; 0x01; 0xc8] arith M_ADD [op_reg ZR_RAX true; op_reg ZR_RCX false];
   enc [0x48; 0x01; 0xca] arith M_ADD [op_reg ZR_RDX true; op_reg ZR_RCX false];
   enc [0x48; 0x01; 0xda] arith M_ADD [op_reg ZR_RDX true; op_reg ZR_RBX false];
   enc [0x31; 0xdb] arith (M_other 2) [op_reg ebx true; op_reg ebx false];
   enc [0x48; 0x0f; 0xaf; 0xd8] arith (M_other 3) [op_reg ZR_RBX true; op_reg ZR_RAX false];
   enc [0x83; 0xf8; 0x09] arith M_CMP [op_reg eax false; op_imm 9 8];
   enc [0x83; 0xf8; 0x00] arith M_CMP [op_reg eax false; op_imm 0 8];
   enc [0x48; 0x83; 0xf8; 0x09] arith M_CMP [op_reg ZR_RAX false; op_imm 9 8];
   enc [0x48; 0x89; 0xe5] plain M_MOV [op_reg ZR_RBP true; op_reg ZR_RSP false];
   enc [0x48; 0x89; 0xe3] plain M_MOV [op_reg ZR_RBX true; op_reg ZR_RSP false];
   enc [0x48; 0xc7; 0xc3; 0x00; 0x10; 0x00; 0x00] plain M_MOV [op_reg ZR_RBX true; op_imm 4096 32];
   enc [0x48; 0x89; 0x5c; 0x24; 0x08]
     plain M_MOV [op_mem ZR_RSP ZR_NONE 0 8 64 true; op_reg ZR_RBX false];
   enc [0x48; 0x8b; 0x5c; 0x24; 0x08]
     plain M_MOV [op_reg ZR_RBX true; op_mem ZR_RSP ZR_NONE 0 8 64 false];
   enc [0x48; 0x8b; 0x03] plain M_MOV [op_reg ZR_RAX true; op_mem ZR_RBX ZR_NONE 0 0 64 false];
   enc [0x48; 0x89; 0x07] plain M_MOV [op_mem ZR_RDI ZR_NONE 0 0 64 true; op_reg ZR_RAX false];
   enc [0x89; 0x45; 0xf8] plain M_MOV [op_mem ZR_RBP ZR_NONE 0 (-8) 32 true; op_reg eax false];
   enc [0x89; 0xc1] plain M_MOV [op_reg ecx true; op_reg eax false];
   enc [0x89; 0xf0] plain M_MOV [op_reg eax true; op_reg esi false];
   enc [0x40; 0x88; 0xf0] plain M_MOV [op_reg al true; op_reg sil false];
   enc [0x0f; 0x29; 0x45; 0xf0]
     plain (M_other 4) [op_mem ZR_RBP ZR_NONE 0 (-16) 128 true; mkOp (OpReg xmm0) 128 false];
   enc [0xc5; 0xfd; 0x11; 0x45; 0xd8]
     plain (M_other 5) [op_mem ZR_RBP ZR_NONE 0 (-40) 256 true; mkOp (OpReg xmm0) 256 false];
   enc [0x4c; 0x8d; 0x54; 0x24; 0x08]
     plain M_LEA [op_reg ZR_R10 true; op_mem ZR_RSP ZR_NONE 0 8 64 false];
   enc [0x48; 0x8d; 0x64; 0x24; 0x20]
     plain M_LEA [op_reg ZR_RSP true; op_mem ZR_RSP ZR_NONE 0 32 64 false];
   enc [0x48; 0x8d; 0x0d; 0x10; 0x00; 0x00; 0x00]
     plain M_LEA [op_reg ZR_RCX true; op_mem ZR_RIP ZR_NONE 0 16 64 false];
   enc [0x48; 0x63; 0x14; 0x81]
     plain M_MOVSXD [op_reg ZR_RDX true; op_mem ZR_RCX ZR_RAX 4 0 32 false];
   enc [0x48; 0x63; 0xc8] plain M_MOVSXD [op_reg ZR_RCX true; op_reg eax false];
   enc [0x0f; 0xb6; 0xc0] plain M_MOVZX [op_reg eax true; op_reg al false];
   enc [0x0f; 0xb6; 0xc8] plain M_MOVZX [op_reg ecx true; op_reg al false];
   enc [0x0f; 0xb6; 0x07] plain M_MOVZX [op_reg eax true; op_mem ZR_RDI ZR_NONE 0 0 8 false];
   enc [0x66; 0x0f; 0xb6; 0xc8] plain M_MOVZX [op_reg cx true; op_reg al false];
   enc [0x0f; 0xbe; 0xc8] plain M_MOVSX [op_reg ecx true; op_reg al false];
   enc [0x0f; 0xbe; 0x07] plain M_MOVSX [op_reg eax true; op_mem ZR_RDI ZR_NONE 0 0 8 false];
   enc [0xe8; 0x00; 0x00; 0x00; 0x00] plain M_CALL [op_imm 0 32];
   enc [0xc3] plain M_RET [];
   enc [0x0f; 0x05] plain M_SYSCALL [];
   enc [0xcd; 0x80] plain M_INT [op_imm 128 8];
   enc [0xeb; 0x05] jump M_JMP [op_imm 5 8];
   enc [0xff; 0xe0] jump M_JMP [op_reg ZR_RAX false];
   enc [0xff; 0xe2] jump M_JMP [op_reg ZR_RDX false];
   enc [0x74; 0x05] jcc (M_other 6) [op_imm 5 8];
   enc [0x77; 0x10] jcc M_JNBE [op_imm 16 8];
   enc [0x73; 0x10] jcc M_JNB [op_imm 16 8];
   enc [0x76; 0x10] jcc M_JBE [op_imm 16 8];
   enc [0x72; 0x10] jcc M_JB [op_imm 16 8];
   enc [0x7e; 0x10] jcc (M_other 7) [op_imm 16 8]].

Definition test_decode (code : list Z) : option (ZydisInsn * list ZydisOperand) :=
  snd <$> head (filter (fun e => e.1 = code) test_encodings).

#[local] Instance test_zydis : ZydisApi := {
  GetLargestEnclosing := sample_enclosing;
  GetWidth := sample_width;
  DecodeFull := test_decode;
  CalcAbsoluteAddress := rip_address;
  FormatInstruction := fun _ => None
}.

(** ** The fixture *)

(** A test: a computation on [state_] that stops at a failed expectation. *)
Definition test (A : Type) : Type := AbsState → option (A * AbsState).
#[local] Instance test_ret : MRet test := fun A x s => Some (x, s).
#[local] Instance test_bind : MBind test :=
  fun A B f m s => match m s with Some (x, s') => f x s' | None => None end.

Definition get {A} (f : AbsState → A) : test A := fun s => Some (f s, s).
Definition modify (f : AbsState → AbsState) : test () := fun s => Some (tt, f s).
Definition expect (P : AbsState → bool) : test () := fun s => if P s then Some (tt, s) else None.

Definition kBase : Z := 0x1000.

(** The decoding must succeed and take all of the bytes. *)
Definition decode_one (bytes : list Z) : option Instruction :=
  insn ← Decode bytes kBase;
  if in_size insn =? Z.of_nat (length bytes) then Some insn else None.

Definition RunBytes (bytes : list Z) : test TransferOutcome := fun s =>
  insn ← decode_one bytes; Some (Transfer insn s).

Definition RunBytesEdge (bytes : list Z) (edge : BranchEdge) : test () := fun s =>
  insn ← decode_one bytes; Some (tt, TransferEdge insn edge (Transfer insn s).2).

(** [SetUp] starts every test in the state at a function's entry. *)
Definition passes (t : test ()) : bool := bool_decide (is_Some (t Entry)).

Definition has_last_cmp (s : AbsState) : bool := bool_decide (is_Some (last_cmp s)).
(** A field of [*state_.last_cmp]. *)
Definition guard {A} `{Inhabited A} (f : FlagsGuard → A) (s : AbsState) : A :=
  match last_cmp s with Some g => f g | None => inhabitant end.
Definition has_direct_target (out : TransferOutcome) : bool := bool_decide (is_Some (direct_target out)).
Definition direct_target_of (out : TransferOutcome) : Z := default 0 (direct_target out).
Definition has_jump_table (out : TransferOutcome) : bool := bool_decide (is_Some (jump_table out)).
Definition jump_table_addr (out : TransferOutcome) : Z := from_option fst 0 (jump_table out).
Definition jump_table_entries (out : TransferOutcome) : Z := from_option snd 0 (jump_table out).
Definition has_unbounded_jump_target (out : TransferOutcome) : bool :=
  bool_decide (is_Some (unbounded_jump_target out)).

(** ** The tests *)

Definition t_PushMovesTheStackPointerAndRecordsWhatWentThere : test () :=
  RunBytes [0x53] (* push %rbx *);;
  expect (fun s => IsCFARel (reg s kDWARFRsp) (-16) && IsOrigReg (Slot s (-16)) kDWARFRbx).

Definition t_PopRestoresTheRegisterItPushed : test () :=
  RunBytes [0x53] (* push %rbx *);;
  modify (ClobberReg kDWARFRbx);;
  RunBytes [0x5b] (* pop %rbx *);;
  expect (fun s => IsCFARel (reg s kDWARFRsp) (-8) && IsOrigReg (reg s kDWARFRbx) kDWARFRbx).

Definition t_SubAndAddOnRspTrackTheFrame : test () :=
  RunBytes [0x48; 0x83; 0xec; 0x18] (* sub $0x18,%rsp *);;
  expect (fun s => IsCFARel (reg s kDWARFRsp) (-32));;
  RunBytes [0x48; 0x83; 0xc4; 0x18] (* add $0x18,%rsp *);;
  expect (fun s => IsCFARel (reg s kDWARFRsp) (-8)).

Definition t_FramePointerSetupAndTeardown : test () :=
  RunBytes [0x55] (* push %rbp *);;
  RunBytes [0x48; 0x89; 0xe5] (* mov %rsp,%rbp *);;
  expect (fun s => IsCFARel (reg s kDWARFRbp) (-16));;
  RunBytes [0x48; 0x83; 0xec; 0x20] (* sub $0x20,%rsp *);;
  RunBytes [0xc9] (* leave *);;
  expect (fun s => IsCFARel (reg s kDWARFRsp) (-8) && IsOrigReg (reg s kDWARFRbp) kDWARFRbp).

Definition t_MovSpillAndReloadThroughRsp : test () :=
  RunBytes [0x48; 0x83; 0xec; 0x18] (* sub $0x18,%rsp *);;
  RunBytes [0x48; 0x89; 0x5c; 0x24; 0x08] (* mov %rbx,0x8(%rsp) *);;
  expect (fun s => IsOrigReg (Slot s (-24)) kDWARFRbx);;
  modify (ClobberReg kDWARFRbx);;
  RunBytes [0x48; 0x8b; 0x5c; 0x24; 0x08] (* mov 0x8(%rsp),%rbx *);;
  expect (fun s => IsOrigReg (reg s kDWARFRbx) kDWARFRbx).

Definition t_WideVectorStoreClobbersMultipleSlots : test () :=
  RunBytes [0x55] (* push %rbp *);;
  RunBytes [0x48; 0x89; 0xe5] (* mov %rsp,%rbp *);;
  modify (SetSlot (-24) (OrigReg kDWARFRbx));;
  modify (SetSlot (-32) (OrigReg 12));;
  modify (SetSlot (-40) (OrigReg 13));;
  modify (SetSlot (-48) (OrigReg 14));;
  modify (SetSlot (-56) (OrigReg 15));;
  RunBytes [0x0f; 0x29; 0x45; 0xf0] (* movaps %xmm0,-0x10(%rbp) *);;
  expect (fun s => is_top (Slot s (-24)) && is_top (Slot s (-32))
                   && IsOrigReg (Slot s (-40)) 13 && IsOrigReg (Slot s (-48)) 14
                   && IsOrigReg (Slot s (-56)) 15);;
  modify (SetSlot (-32) (OrigReg 12));;
  RunBytes [0xc5; 0xfd; 0x11; 0x45; 0xd8] (* vmovups %ymm0,-0x28(%rbp) *);;
  expect (fun s => is_top (Slot s (-32)) && is_top (Slot s (-40)) && is_top (Slot s (-48))
                   && is_top (Slot s (-56))).

Definition t_NarrowStoreClobbersEnclosingSlot : test () :=
  RunBytes [0x55] (* push %rbp *);;
  RunBytes [0x48; 0x89; 0xe5] (* mov %rsp,%rbp *);;
  modify (SetSlot (-24) (OrigReg kDWARFRbx));;
  RunBytes [0x89; 0x45; 0xf8] (* movl %eax,-0x8(%rbp) *);;
  expect (fun s => is_top (Slot s (-24))).

Definition t_LeaComputesAStackAddress : test () :=
  RunBytes [0x4c; 0x8d; 0x54; 0x24; 0x08] (* lea 0x8(%rsp),%r10 *);;
  expect (fun s => IsCFARel (reg s 10) 0).

Definition t_WritingASubRegisterUntracksTheWholeRegister : test () :=
  RunBytes [0x48; 0x89; 0xe3] (* mov %rsp,%rbx *);;
  expect (fun s => IsCFARel (reg s kDWARFRbx) (-8));;
  RunBytes [0x31; 0xdb] (* xor %ebx,%ebx *);;
  expect (fun s => is_unknown (reg s kDWARFRbx)).

Definition t_StackRealignmentUntracksRspWithoutGuessing : test () :=
  RunBytes [0x55] (* push %rbp *);;
  RunBytes [0x48; 0x89; 0xe5] (* mov %rsp,%rbp *);;
  RunBytes [0x48; 0x83; 0xe4; 0xf0] (* and $-16,%rsp *);;
  expect (fun s => is_unknown (reg s kDWARFRsp) && IsCFARel (reg s kDWARFRbp) (-16)).

Definition t_CallClobbersCallerSavedRegistersAndTheStackBelowRsp : test () :=
  RunBytes [0x48; 0x83; 0xec; 0x08] (* sub $8,%rsp *);;
  modify (SetSlot (-24) (OrigReg kDWARFRbx));;
  out ← RunBytes [0xe8; 0x00; 0x00; 0x00; 0x00] (* call .+0 *);
  expect (fun s => is_call out && falls_through out && IsCFARel (reg s kDWARFRsp) (-16)
                   && is_unknown (reg s kDWARFRax) && IsOrigReg (reg s kDWARFRbx) kDWARFRbx
                   && is_unknown (Slot s (-24))).

Definition t_ClassifiesControlFlow : test () :=
  out ← RunBytes [0xc3] (* ret *);
  expect (fun s => is_return out && negb (falls_through out));;
  out ← RunBytes [0xeb; 0x05] (* jmp .+7 *);
  expect (fun s => negb (falls_through out) && has_direct_target out
                   && (direct_target_of out =? kBase + 7));;
  out ← RunBytes [0x74; 0x05] (* je .+7 *);
  expect (fun s => falls_through out && has_direct_target out
                   && (direct_target_of out =? kBase + 7));;
  out ← RunBytes [0xff; 0xe0] (* jmp *%rax *);
  expect (fun s => indirect_branch out && negb (has_direct_target out)).

Definition t_UnmodelledInstructionsLoseTrackRatherThanLie : test () :=
  RunBytes [0x48; 0x89; 0xe3] (* mov %rsp,%rbx *);;
  expect (fun s => IsCFARel (reg s kDWARFRbx) (-8));;
  RunBytes [0x48; 0x0f; 0xaf; 0xd8] (* imul %rax,%rbx *);;
  expect (fun s => is_unknown (reg s kDWARFRbx) && IsCFARel (reg s kDWARFRsp) (-8)).

Definition t_RipRelativeLeaProducesAConstant : test () :=
  RunBytes [0x48; 0x8d; 0x0d; 0x10; 0x00; 0x00; 0x00] (* lea 0x10(%rip),%rcx *);;
  expect (fun s => IsConst (table s kDWARFRcx)
                   && (ConstValue (table s kDWARFRcx) =? kBase + 7 + 0x10)).

Definition t_MovslqWithScale4FromAConstantBaseProducesATableEntry : test () :=
  RunBytes [0x48; 0x8d; 0x0d; 0x10; 0x00; 0x00; 0x00] (* lea 0x10(%rip),%rcx *);;
  addr ← get (fun s => ConstValue (table s kDWARFRcx));
  RunBytes [0x48; 0x63; 0x14; 0x81] (* movslq (%rcx,%rax,4),%rdx *);;
  expect (fun s => IsTableEntry (table s kDWARFRdx) && (TableAddr (table s kDWARFRdx) =? addr)
                   && (IndexReg (table s kDWARFRdx) =? kDWARFRax)
                   && (TableBaseConst (table s kDWARFRdx) =? addr)).

Definition t_AddResolvesATableEntryToAJumpTargetRegardlessOfOperandOrder : test () :=
  RunBytes [0x48; 0x8d; 0x0d; 0x10; 0x00; 0x00; 0x00] (* lea 0x10(%rip),%rcx *);;
  addr ← get (fun s => ConstValue (table s kDWARFRcx));
  RunBytes [0x48; 0x63; 0x14; 0x81] (* movslq (%rcx,%rax,4),%rdx *);;
  RunBytes [0x48; 0x01; 0xca] (* add %rcx,%rdx *);;
  expect (fun s => IsJumpTarget (table s kDWARFRdx) && (TableAddr (table s kDWARFRdx) =? addr)
                   && (IndexReg (table s kDWARFRdx) =? kDWARFRax)).

Definition t_AddDoesNotResolveWhenTheConstantDoesNotMatchTheTablesBase : test () :=
  RunBytes [0x48; 0x8d; 0x0d; 0x10; 0x00; 0x00; 0x00] (* lea 0x10(%rip),%rcx *);;
  RunBytes [0x48; 0x63; 0x14; 0x81] (* movslq (%rcx,%rax,4),%rdx *);;
  RunBytes [0x48; 0xc7; 0xc3; 0x00; 0x10; 0x00; 0x00] (* mov $0x1000,%rbx *);;
  RunBytes [0x48; 0x01; 0xda] (* add %rbx,%rdx *);;
  expect (fun s => negb (IsJumpTarget (table s kDWARFRdx))).

Definition t_IndirectJumpThroughAJumpTargetResolvesOnlyWithAKnownBound : test () :=
  RunBytes [0x48; 0x8d; 0x0d; 0x10; 0x00; 0x00; 0x00] (* lea 0x10(%rip),%rcx *);;
  RunBytes [0x48; 0x63; 0x14; 0x81] (* movslq (%rcx,%rax,4),%rdx *);;
  RunBytes [0x48; 0x01; 0xca] (* add %rcx,%rdx *);;
  out ← RunBytes [0xff; 0xe2] (* jmp *%rdx *);
  expect (fun s => negb (has_jump_table out) && indirect_branch out).

Definition t_IndirectJumpResolvesOnceTheIndexRegisterHasAKnownBound : test () :=
  RunBytes [0x48; 0x8d; 0x0d; 0x10; 0x00; 0x00; 0x00] (* lea 0x10(%rip),%rcx *);;
  addr ← get (fun s => ConstValue (table s kDWARFRcx));
  modify (ApplyGuardBound kDWARFRax 4);;
  RunBytes [0x48; 0x63; 0x14; 0x81] (* movslq (%rcx,%rax,4),%rdx *);;
  RunBytes [0x48; 0x01; 0xca] (* add %rcx,%rdx *);;
  out ← RunBytes [0xff; 0xe2] (* jmp *%rdx *);
  expect (fun s => has_jump_table out && (jump_table_addr out =? addr)
                   && (jump_table_entries out =? 5)).

Definition t_IndirectJumpDoesNotResolveFromAWidthFactAlone : test () :=
  RunBytes [0x48; 0x8d; 0x0d; 0x10; 0x00; 0x00; 0x00] (* lea 0x10(%rip),%rcx *);;
  RunBytes [0x0f; 0xb6; 0xc0] (* movzbl %al,%eax *);;
  expect (fun s => (value_bound (table s kDWARFRax) =? 255)
                   && negb (HasTableBound (table s kDWARFRax)));;
  RunBytes [0x48; 0x63; 0x14; 0x81] (* movslq (%rcx,%rax,4),%rdx *);;
  RunBytes [0x48; 0x01; 0xca] (* add %rcx,%rdx *);;
  out ← RunBytes [0xff; 0xe2] (* jmp *%rdx *);
  expect (fun s => negb (has_jump_table out) && has_unbounded_jump_target out).

Definition t_IndirectJumpDoesNotResolveFromABoundSetAfterTheTableLoad : test () :=
  RunBytes [0x48; 0x8d; 0x0d; 0x10; 0x00; 0x00; 0x00] (* lea 0x10(%rip),%rcx *);;
  RunBytes [0x48; 0x63; 0x14; 0x81] (* movslq (%rcx,%rax,4),%rdx *);;
  RunBytes [0x48; 0x01; 0xca] (* add %rcx,%rdx *);;
  modify (ApplyGuardBound kDWARFRax 4);;
  out ← RunBytes [0xff; 0xe2] (* jmp *%rdx *);
  expect (fun s => negb (has_jump_table out)).

Definition t_CmpWithANonNegativeImmediateSetsLastCmp : test () :=
  RunBytes [0x83; 0xf8; 0x09] (* cmp $9,%eax *);;
  expect (fun s => has_last_cmp s && (guard fg_reg s =? kDWARFRax)
                   && (guard fg_width_bits s =? 32) && (guard fg_imm s =? 9)).

Definition t_CmpOnItsOwnEstablishesNoBound : test () :=
  RunBytes [0x83; 0xf8; 0x09] (* cmp $9,%eax *);;
  expect (fun s => (value_bound (table s kDWARFRax) =? kBoundTop)
                   && negb (HasTableBound (table s kDWARFRax))).

Definition t_LastCmpIsClearedByALaterFlagsWritingInstruction : test () :=
  RunBytes [0x83; 0xf8; 0x09] (* cmp $9,%eax *);;
  expect (fun s => has_last_cmp s);;
  RunBytes [0x83; 0xc0; 0x01] (* add $1,%eax *);;
  expect (fun s => negb (has_last_cmp s)).

Definition t_LastCmpIsClearedByAWriteToTheComparedRegister : test () :=
  RunBytes [0x83; 0xf8; 0x09] (* cmp $9,%eax *);;
  expect (fun s => has_last_cmp s);;
  RunBytes [0x48; 0x8b; 0x03] (* mov (%rbx),%rax *);;
  expect (fun s => negb (has_last_cmp s)).

Definition t_LastCmpSurvivesAnInstructionThatDoesNotTouchFlagsOrTheReg : test () :=
  RunBytes [0x83; 0xf8; 0x09] (* cmp $9,%eax *);;
  expect (fun s => has_last_cmp s);;
  RunBytes [0x89; 0xc1] (* mov %eax,%ecx *);;
  expect (fun s => has_last_cmp s && (guard fg_imm s =? 9)).

Definition t_AnyWriteToA32BitRegisterProvesTheFullRegisterIsZeroExtended : test () :=
  RunBytes [0x01; 0xc8] (* add %ecx,%eax *);;
  expect (fun s => (value_bound (table s kDWARFRax) =? 0xffffffff)
                   && negb (HasTableBound (table s kDWARFRax))).

Definition t_AWriteToA64BitRegisterProvesNoWidthFact : test () :=
  RunBytes [0x48; 0x01; 0xc8] (* add %rcx,%rax *);;
  expect (fun s => value_bound (table s kDWARFRax) =? kBoundTop).

Definition t_AWriteToAnEightBitRegisterProvesNothingAboutTheParent : test () :=
  modify (ApplyGuardBound kDWARFRsi 9);;
  RunBytes [0x40; 0x88; 0xf0] (* mov %sil,%al *);;
  expect (fun s => (value_bound (table s kDWARFRax) =? kBoundTop)
                   && negb (HasTableBound (table s kDWARFRax))).

Definition t_MovzxIntoASixteenBitRegisterProvesNothingAboutTheParent : test () :=
  modify (ApplyGuardBound kDWARFRax 9);;
  RunBytes [0x66; 0x0f; 0xb6; 0xc8] (* movzbw %al,%cx *);;
  expect (fun s => value_bound (table s kDWARFRcx) =? kBoundTop).

Definition t_MovzxFromMemoryProvesTheLoadWidth : test () :=
  RunBytes [0x0f; 0xb6; 0x07] (* movzbl (%rdi),%eax *);;
  expect (fun s => value_bound (table s kDWARFRax) =? 255).

Definition t_MovsxFromMemoryProvesOnlyTheDestinationWidth : test () :=
  RunBytes [0x0f; 0xbe; 0x07] (* movsbl (%rdi),%eax *);;
  expect (fun s => value_bound (table s kDWARFRax) =? 0xffffffff).

Definition t_JaProvesOnTheFallThroughEdge : test () :=
  RunBytes [0x83; 0xf8; 0x09] (* cmp $9,%eax *);;
  RunBytesEdge [0x77; 0x10] (* ja .+0x12 *) kFallThrough;;
  expect (fun s => has_last_cmp s && (guard fg_proven_bound s =? 9)).

Definition t_JaProvesNothingOnTheTakenEdge : test () :=
  RunBytes [0x83; 0xf8; 0x09] (* cmp $9,%eax *);;
  RunBytesEdge [0x77; 0x10] (* ja .+0x12 *) kTaken;;
  expect (fun s => has_last_cmp s && negb (guard proven s)
                   && (value_bound (table s kDWARFRax) =? kBoundTop)).

Definition t_JaeProvesTheStrictBoundOnTheFallThroughEdge : test () :=
  RunBytes [0x83; 0xf8; 0x09] (* cmp $9,%eax *);;
  RunBytesEdge [0x73; 0x10] (* jae .+0x12 *) kFallThrough;;
  expect (fun s => has_last_cmp s && (guard fg_proven_bound s =? 8)).

Definition t_JbeProvesOnTheTakenEdge : test () :=
  RunBytes [0x83; 0xf8; 0x09] (* cmp $9,%eax *);;
  RunBytesEdge [0x76; 0x10] (* jbe .+0x12 *) kTaken;;
  expect (fun s => has_last_cmp s && (guard fg_proven_bound s =? 9)).

Definition t_JbeProvesNothingOnTheFallThroughEdge : test () :=
  RunBytes [0x83; 0xf8; 0x09] (* cmp $9,%eax *);;
  RunBytesEdge [0x76; 0x10] (* jbe .+0x12 *) kFallThrough;;
  expect (fun s => has_last_cmp s && negb (guard proven s)).

Definition t_JbProvesTheStrictBoundOnTheTakenEdge : test () :=
  RunBytes [0x83; 0xf8; 0x09] (* cmp $9,%eax *);;
  RunBytesEdge [0x72; 0x10] (* jb .+0x12 *) kTaken;;
  expect (fun s => has_last_cmp s && (guard fg_proven_bound s =? 8)).

Definition t_JbAgainstZeroProvesNothing : test () :=
  RunBytes [0x83; 0xf8; 0x00] (* cmp $0,%eax *);;
  RunBytesEdge [0x72; 0x10] (* jb .+0x12 *) kTaken;;
  expect (fun s => has_last_cmp s && negb (guard proven s)).

Definition t_ASignedBranchIsNotAGuard : test () :=
  RunBytes [0x83; 0xf8; 0x09] (* cmp $9,%eax *);;
  RunBytesEdge [0x7e; 0x10] (* jle .+0x12 *) kFallThrough;;
  expect (fun s => has_last_cmp s && negb (guard proven s)).

Definition t_AGuardOnAFullWidthCompareIsPromotedImmediately : test () :=
  RunBytes [0x48; 0x83; 0xf8; 0x09] (* cmp $9,%rax *);;
  RunBytesEdge [0x77; 0x10] (* ja .+0x12 *) kFallThrough;;
  expect (fun s => (value_bound (table s kDWARFRax) =? 9)
                   && (table_bound (table s kDWARFRax) =? 9)).

Definition t_AGuardOnASubRegisterIsNotPromotedButIsCarried : test () :=
  RunBytes [0x83; 0xf8; 0x09] (* cmp $9,%eax *);;
  RunBytesEdge [0x77; 0x10] (* ja .+0x12 *) kFallThrough;;
  expect (fun s => (value_bound (table s kDWARFRax) =? kBoundTop) && has_last_cmp s
                   && (guard fg_proven_bound s =? 9) && (guard fg_width_bits s =? 32)).

Definition t_AnAlreadyProvenGuardIsNotReappliedByALaterBranch : test () :=
  RunBytes [0x83; 0xf8; 0x09] (* cmp $9,%eax *);;
  RunBytesEdge [0x73; 0x10] (* jae .+0x12 *) kFallThrough;;
  expect (fun s => guard fg_proven_bound s =? 8);;
  RunBytesEdge [0x73; 0x10] (* jae .+0x12 *) kFallThrough;;
  expect (fun s => guard fg_proven_bound s =? 8).

Definition t_AProvenGuardIsCashedInByAWiden : test () :=
  modify (with_last_cmp (Some (mkGuard kDWARFRax 8 9 9)));;
  RunBytes [0x0f; 0xb6; 0xc8] (* movzbl %al,%ecx *);;
  expect (fun s => (value_bound (table s kDWARFRcx) =? 9)
                   && (table_bound (table s kDWARFRcx) =? 9)).

Definition t_AProvenGuardIsCashedInWhenSourceAndDestinationAreTheSameRegister : test () :=
  modify (with_last_cmp (Some (mkGuard kDWARFRax 8 9 9)));;
  RunBytes [0x0f; 0xb6; 0xc0] (* movzbl %al,%eax *);;
  expect (fun s => (table_bound (table s kDWARFRax) =? 9) && negb (has_last_cmp s)).

Definition t_AnUnprovenGuardIsNotCashedIn : test () :=
  modify (with_last_cmp (Some (mkGuard kDWARFRax 8 9 kBoundTop)));;
  RunBytes [0x0f; 0xb6; 0xc8] (* movzbl %al,%ecx *);;
  expect (fun s => negb (HasTableBound (table s kDWARFRcx))
                   && (value_bound (table s kDWARFRcx) =? 255)).

Definition t_AProvenGuardIsNotCashedInByAWiderRead : test () :=
  modify (with_last_cmp (Some (mkGuard kDWARFRax 8 9 9)));;
  RunBytes [0x48; 0x63; 0xc8] (* movsxd %eax,%rcx *);;
  expect (fun s => negb (HasTableBound (table s kDWARFRcx))).

Definition t_AProvenGuardSurvivesAFlagsWritingInstruction : test () :=
  modify (with_last_cmp (Some (mkGuard kDWARFRax 8 9 9)));;
  RunBytes [0x83; 0xc1; 0x01] (* add $1,%ecx *);;
  expect (fun s => has_last_cmp s && guard proven s).

Definition t_AProvenGuardDoesNotSurviveAWriteToItsOwnRegister : test () :=
  modify (with_last_cmp (Some (mkGuard kDWARFRax 8 9 9)));;
  RunBytes [0x48; 0x8b; 0x03] (* mov (%rbx),%rax *);;
  expect (fun s => negb (has_last_cmp s)).

Definition t_MovzxCarriesTheSourcesBoundsAcrossATruncatingWiden : test () :=
  modify (ApplyGuardBound kDWARFRax 9);;
  RunBytes [0x0f; 0xb6; 0xc8] (* movzbl %al,%ecx *);;
  expect (fun s => is_top (reg s kDWARFRcx) && (value_bound (table s kDWARFRcx) =? 9)
                   && (table_bound (table s kDWARFRcx) =? 9)
                   && (value_bound (table s kDWARFRax) =? 9)).

Definition t_NarrowMovCarriesBoundsWhenTheDestinationIs32Bit : test () :=
  modify (ApplyGuardBound kDWARFRsi 9);;
  RunBytes [0x89; 0xf0] (* mov %esi,%eax *);;
  expect (fun s => (value_bound (table s kDWARFRax) =? 9)
                   && (table_bound (table s kDWARFRax) =? 9)).

Definition t_MovsxCarriesBoundsWhenTheSignBitIsProvenClear : test () :=
  modify (ApplyGuardBound kDWARFRax 9);;
  RunBytes [0x0f; 0xbe; 0xc8] (* movsbl %al,%ecx *);;
  expect (fun s => (value_bound (table s kDWARFRcx) =? 9)
                   && (table_bound (table s kDWARFRcx) =? 9)).

Definition t_MovsxRejectsBoundsWhenTheSignBitCanBeOne : test () :=
  modify (ApplyGuardBound kDWARFRax 200);;
  RunBytes [0x0f; 0xbe; 0xc8] (* movsbl %al,%ecx *);;
  expect (fun s => negb (HasTableBound (table s kDWARFRcx))
                   && (value_bound (table s kDWARFRcx) =? 0xffffffff)).

Definition t_MovsxdCarriesBoundsFrom32BitRegWhenNonNegative : test () :=
  modify (ApplyGuardBound kDWARFRax 9);;
  RunBytes [0x48; 0x63; 0xc8] (* movsxd %eax,%rcx *);;
  expect (fun s => (value_bound (table s kDWARFRcx) =? 9)
                   && (table_bound (table s kDWARFRcx) =? 9)).

Definition t_MovsxdRejectsBoundsWhenTheSignBitCanBeOne : test () :=
  modify (ApplyValueBound kDWARFRax 0xffffffff);;
  RunBytes [0x48; 0x63; 0xc8] (* movsxd %eax,%rcx *);;
  expect (fun s => value_bound (table s kDWARFRcx) =? kBoundTop).

Definition t_LeaOnRspDropsDeadSlotsWhenMovingUp : test () :=
  RunBytes [0x48; 0x83; 0xec; 0x80] (* sub $-128,%rsp *);;
  modify (SetSlot (-300) (OrigReg kDWARFRbx));;
  expect (fun s => IsOrigReg (Slot s (-300)) kDWARFRbx);;
  RunBytes [0x48; 0x8d; 0x64; 0x24; 0x20] (* lea 0x20(%rsp),%rsp *);;
  expect (fun s => is_top (Slot s (-300))).

Definition t_StoresThroughAnUntrackedPointerDoNotWipeTheFrame : test () :=
  RunBytes [0x53] (* push %rbx *);;
  expect (fun s => IsOrigReg (Slot s (-16)) kDWARFRbx);;
  RunBytes [0x48; 0x89; 0x07] (* mov %rax,(%rdi) *);;
  expect (fun s => IsOrigReg (Slot s (-16)) kDWARFRbx).

Definition t_SyscallClobbersCallerSavedRegistersAndRedZone : test () :=
  modify (SetSlot (-16) (OrigReg kDWARFRbx));;
  modify (SetTableReg kDWARFRax (TableConst 1));;
  modify (SetTableReg kDWARFRbx (TableConst 2));;
  modify (SetReg1 kDWARFRbp (CFARel (-8)));;
  out ← RunBytes [0x0f; 0x05] (* syscall *);
  expect (fun s => negb (is_call out) && falls_through out && IsCFARel (reg s kDWARFRsp) (-8)
                   && IsCFARel (reg s kDWARFRbp) (-8) && IsConst (table s kDWARFRbx)
                   && (ConstValue (table s kDWARFRbx) =? 2) && is_top (reg s kDWARFRax)
                   && is_none (table s kDWARFRax) && is_top (reg s kDWARFRcx)
                   && is_top (reg s kDWARFRdi) && is_top (Slot s (-16))).

Definition t_Int80ClobbersCallerSavedRegistersAndRedZone : test () :=
  modify (SetSlot (-16) (OrigReg kDWARFRbx));;
  modify (SetTableReg kDWARFRax (TableConst 1));;
  modify (SetTableReg kDWARFRbx (TableConst 2));;
  out ← RunBytes [0xcd; 0x80] (* int $0x80 *);
  expect (fun s => negb (is_call out) && falls_through out && IsCFARel (reg s kDWARFRsp) (-8)
                   && IsConst (table s kDWARFRbx) && is_top (reg s kDWARFRax)
                   && is_top (Slot s (-16))).

Definition insn_semantics_tests : list (test ()) :=
  [t_PushMovesTheStackPointerAndRecordsWhatWentThere;
   t_PopRestoresTheRegisterItPushed;
   t_SubAndAddOnRspTrackTheFrame;
   t_FramePointerSetupAndTeardown;
   t_MovSpillAndReloadThroughRsp;
   t_WideVectorStoreClobbersMultipleSlots;
   t_NarrowStoreClobbersEnclosingSlot;
   t_LeaComputesAStackAddress;
   t_WritingASubRegisterUntracksTheWholeRegister;
   t_StackRealignmentUntracksRspWithoutGuessing;
   t_CallClobbersCallerSavedRegistersAndTheStackBelowRsp;
   t_ClassifiesControlFlow;
   t_UnmodelledInstructionsLoseTrackRatherThanLie;
   t_RipRelativeLeaProducesAConstant;
   t_MovslqWithScale4FromAConstantBaseProducesATableEntry;
   t_AddResolvesATableEntryToAJumpTargetRegardlessOfOperandOrder;
   t_AddDoesNotResolveWhenTheConstantDoesNotMatchTheTablesBase;
   t_IndirectJumpThroughAJumpTargetResolvesOnlyWithAKnownBound;
   t_IndirectJumpResolvesOnceTheIndexRegisterHasAKnownBound;
   t_IndirectJumpDoesNotResolveFromAWidthFactAlone;
   t_IndirectJumpDoesNotResolveFromABoundSetAfterTheTableLoad;
   t_CmpWithANonNegativeImmediateSetsLastCmp;
   t_CmpOnItsOwnEstablishesNoBound;
   t_LastCmpIsClearedByALaterFlagsWritingInstruction;
   t_LastCmpIsClearedByAWriteToTheComparedRegister;
   t_LastCmpSurvivesAnInstructionThatDoesNotTouchFlagsOrTheReg;
   t_AnyWriteToA32BitRegisterProvesTheFullRegisterIsZeroExtended;
   t_AWriteToA64BitRegisterProvesNoWidthFact;
   t_AWriteToAnEightBitRegisterProvesNothingAboutTheParent;
   t_MovzxIntoASixteenBitRegisterProvesNothingAboutTheParent;
   t_MovzxFromMemoryProvesTheLoadWidth;
   t_MovsxFromMemoryProvesOnlyTheDestinationWidth;
   t_JaProvesOnTheFallThroughEdge;
   t_JaProvesNothingOnTheTakenEdge;
   t_JaeProvesTheStrictBoundOnTheFallThroughEdge;
   t_JbeProvesOnTheTakenEdge;
   t_JbeProvesNothingOnTheFallThroughEdge;
   t_JbProvesTheStrictBoundOnTheTakenEdge;
   t_JbAgainstZeroProvesNothing;
   t_ASignedBranchIsNotAGuard;
   t_AGuardOnAFullWidthCompareIsPromotedImmediately;
   t_AGuardOnASubRegisterIsNotPromotedButIsCarried;
   t_AnAlreadyProvenGuardIsNotReappliedByALaterBranch;
   t_AProvenGuardIsCashedInByAWiden;
   t_AProvenGuardIsCashedInWhenSourceAndDestinationAreTheSameRegister;
   t_AnUnprovenGuardIsNotCashedIn;
   t_AProvenGuardIsNotCashedInByAWiderRead;
   t_AProvenGuardSurvivesAFlagsWritingInstruction;
   t_AProvenGuardDoesNotSurviveAWriteToItsOwnRegister;
   t_MovzxCarriesTheSourcesBoundsAcrossATruncatingWiden;
   t_NarrowMovCarriesBoundsWhenTheDestinationIs32Bit;
   t_MovsxCarriesBoundsWhenTheSignBitIsProvenClear;
   t_MovsxRejectsBoundsWhenTheSignBitCanBeOne;
   t_MovsxdCarriesBoundsFrom32BitRegWhenNonNegative;
   t_MovsxdRejectsBoundsWhenTheSignBitCanBeOne;
   t_LeaOnRspDropsDeadSlotsWhenMovingUp;
   t_StoresThroughAnUntrackedPointerDoNotWipeTheFrame;
   t_SyscallClobbersCallerSavedRegistersAndRedZone;
   t_Int80ClobbersCallerSavedRegistersAndRedZone].

Example insn_semantics_tests_pass : forallb passes insn_semantics_tests = true.
Proof. vm_compute. reflexivity. Qed.
