(* ===== verification/Subprocess.v ===== *)
(** * Child processes

    Models [src/subprocess.h] and [src/subprocess.cc] over a table of file
    descriptors.  The kernel is the class [OS]: which descriptors [pipe2]
    hands out, whether [posix_spawnp] succeeds and what [waitpid] answers
    are its operations, and [OSLaws] is what POSIX promises of the new
    descriptors.  A [close] of a descriptor that is not open is recorded, so
    that a double close is visible.  [spawn_balanced] is the contract of
    [SpawnProcess] its callers rely on. *)

From stdpp Require Import gmap strings.
From S2P Require Import Prelude.

(** ** The kernel's view *)

(** An open file description: an end of the [n]-th pipe, [/dev/null], or one
    the process already had. *)
Inductive PipeEnd := ReadEnd | WriteEnd.
Inductive OpenFile := F_Pipe (n : nat) (e : PipeEnd) | F_DevNull | F_Inherited (n : nat).
#[export] Instance PipeEnd_eq_dec : EqDecision PipeEnd.
Proof. solve_decision. Defined.
#[export] Instance OpenFile_eq_dec : EqDecision OpenFile.
Proof. solve_decision. Defined.

Record Fd := mkFd { fd_file : OpenFile; fd_cloexec : bool }.
#[export] Instance Fd_eq_dec : EqDecision Fd.
Proof. solve_decision. Defined.

(** A process: its descriptors, how many pipes it has made, the descriptor
    tables its children were started with, and whether it ever closed a
    descriptor that was not open. *)
Record Proc := mkProc {
  fds : gmap Z Fd;
  pipes : nat;
  children : list (list string * gmap Z Fd);
  bad_close : bool
}.

Inductive WaitResult := W_EINTR | W_Error | W_Exited (status : Z) | W_Signalled.

(** [posix_spawn_file_actions_adddup2] and [.._addopen] of [/dev/null]. *)
Inductive FileAction := A_Dup2 (from to : Z) | A_OpenNull (to : Z).

Class OS := {
  pipe2 : gmap Z Fd → Z + Z * Z;                          (* errno, or the two ends *)
  posix_spawnp : list string → gmap Z Fd → Z + Z;         (* an error number, or the pid *)
  waitpid : Z → nat → WaitResult;                         (* the n-th call for a pid *)
  strerror : Z → string
}.

(** [pipe2] returns two new descriptors. *)
Class OSLaws `{OS} : Prop := {
  pipe2_fresh : ∀ t r w, pipe2 t = inr (r, w) →
    0 <= r ∧ 0 <= w ∧ r ≠ w ∧ t !! r = None ∧ t !! w = None
}.

Definition STDIN_FILENO : Z := 0.
Definition STDOUT_FILENO : Z := 1.
Definition STDERR_FILENO : Z := 2.

Definition with_fds (t : gmap Z Fd) (p : Proc) : Proc := mkProc t (pipes p) (children p) (bad_close p).
Definition close (fd : Z) (p : Proc) : Proc :=
  match fds p !! fd with
  | Some _ => with_fds (delete fd (fds p)) p
  | None => mkProc (fds p) (pipes p) (children p) true
  end.

(** What the child does between fork and exec, and what exec then closes. *)
Definition file_action (t : gmap Z Fd) (a : FileAction) : gmap Z Fd :=
  match a with
  | A_Dup2 from to =>
      match t !! from with Some f => <[to := mkFd (fd_file f) false]> t | None => t end
  | A_OpenNull to => <[to := mkFd F_DevNull false]> t
  end.
Definition exec_table (actions : list FileAction) (t : gmap Z Fd) : gmap Z Fd :=
  filter (fun kv => fd_cloexec kv.2 = false) (foldl file_action t actions).

(** ** The operations *)

Record SubprocessHandle := mkSubprocess { sp_pid : Z; sp_stdin_fd : Z; sp_stdout_fd : Z }.
Record SpawnOptions := mkSpawnOptions { pipe_stdin : bool; pipe_stdout : bool; discard_stderr : bool }.

Definition ClosePipe (ends : Z * Z) (p : Proc) : Proc :=
  let p := if 0 <=? ends.1 then close ends.1 p else p in
  if 0 <=? ends.2 then close ends.2 p else p.

(** The destructor of [pipe_closer]. *)
Definition pipe_closer (stdin_pipe stdout_pipe : Z * Z) (p : Proc) : Proc :=
  ClosePipe stdout_pipe (ClosePipe stdin_pipe p).

Section Subprocess.
Context `{OS}.

(** [want && pipe2(ends, O_CLOEXEC) != 0], with [ends] initialised to -1. *)
Definition open_pipe (want : bool) (p : Proc) : Z + (Z * Z) * Proc :=
  if want then
    match pipe2 (fds p) with
    | inl errno => inl errno
    | inr (r, w) =>
        let t := <[w := mkFd (F_Pipe (pipes p) WriteEnd) true]>
                   (<[r := mkFd (F_Pipe (pipes p) ReadEnd) true]> (fds p)) in
        inr ((r, w), mkProc t (S (pipes p)) (children p) (bad_close p))
    end
  else inr ((-1, -1), p).

Definition file_actions (o : SpawnOptions) (stdin_pipe stdout_pipe : Z * Z) : list FileAction :=
  (if pipe_stdin o then [A_Dup2 stdin_pipe.1 STDIN_FILENO] else [])
    ++ (if pipe_stdout o then [A_Dup2 stdout_pipe.2 STDOUT_FILENO] else [])
    ++ (if discard_stderr o then [A_OpenNull STDERR_FILENO] else []).

(** [posix_spawnp]: on success the child starts with its own table. *)
Definition spawn_child (argv : list string) (actions : list FileAction) (p : Proc) : (Z + Z) * Proc :=
  let child := exec_table actions (fds p) in
  match posix_spawnp argv child with
  | inl errno => (inl errno, p)
  | inr pid => (inr pid, mkProc (fds p) (pipes p) (children p ++ [(argv, child)]) (bad_close p))
  end.

(** From [posix_spawnp] on: the parent drops the child's ends either way. *)
Definition start_child (argv : list string) (o : SpawnOptions) (stdin_pipe stdout_pipe : Z * Z)
    (p : Proc) : (string + SubprocessHandle) * Proc :=
  let '(rc, p) := spawn_child argv (file_actions o stdin_pipe stdout_pipe) p in
  let p := if pipe_stdin o then close stdin_pipe.1 p else p in
  let stdin_pipe := if pipe_stdin o then (-1, stdin_pipe.2) else stdin_pipe in
  let p := if pipe_stdout o then close stdout_pipe.2 p else p in
  let stdout_pipe := if pipe_stdout o then (stdout_pipe.1, -1) else stdout_pipe in
  match rc with
  | inl rc => (inl ("posix_spawnp(" +:+ default "" (head argv) +:+ "): " +:+ strerror rc),
               pipe_closer stdin_pipe stdout_pipe p)
  | inr pid => (inr (mkSubprocess pid (if pipe_stdin o then stdin_pipe.2 else -1)
                                  (if pipe_stdout o then stdout_pipe.1 else -1)), p)
  end.

Definition SpawnProcess (argv : list string) (o : SpawnOptions) (p : Proc) :
    (string + SubprocessHandle) * Proc :=
  match argv with
  | [] => (inl "SpawnProcess: empty argv", p)
  | _ =>
      match open_pipe (pipe_stdin o) p with
      | inl errno => (inl ("pipe(): " +:+ strerror errno), pipe_closer (-1, -1) (-1, -1) p)
      | inr (stdin_pipe, p) =>
          match open_pipe (pipe_stdout o) p with
          | inl errno => (inl ("pipe(): " +:+ strerror errno), pipe_closer stdin_pipe (-1, -1) p)
          | inr (stdout_pipe, p) => start_child argv o stdin_pipe stdout_pipe p
          end
      end
  end.

(** The loop over [waitpid]; [None] when it was interrupted [fuel] times. *)
Fixpoint wait_loop (fuel : nat) (pid : Z) (n : nat) : option WaitResult :=
  match fuel with
  | O => None
  | S fuel => match waitpid pid n with W_EINTR => wait_loop fuel pid (S n) | r => Some r end
  end.
Definition WaitForProcess (fuel : nat) (pid : Z) : option Z :=
  r ← wait_loop fuel pid 0;
  Some (match r with W_Exited status => status | _ => -1 end).

End Subprocess.

(** ** The contract *)

(** The descriptors a child of a process with this table inherits. *)
Definition inheritable (t : gmap Z Fd) : gmap Z Fd := filter (fun kv => fd_cloexec kv.2 = false) t.

Definition insert_if {A} (b : bool) (i : Z) (x : A) (m : gmap Z A) : gmap Z A :=
  if b then <[i := x]> m else m.

(** The number of the pipe for standard output. *)
Definition stdout_pipe_no (o : SpawnOptions) (n : nat) : nat := if pipe_stdin o then S n else n.

(** What the child must see: the inheritable descriptors with the requested
    standard streams replaced, and no other end of the new pipes. *)
Definition child_table (o : SpawnOptions) (n : nat) (t : gmap Z Fd) : gmap Z Fd :=
  insert_if (discard_stderr o) STDERR_FILENO (mkFd F_DevNull false)
    (insert_if (pipe_stdout o) STDOUT_FILENO (mkFd (F_Pipe (stdout_pipe_no o n) WriteEnd) false)
       (insert_if (pipe_stdin o) STDIN_FILENO (mkFd (F_Pipe n ReadEnd) false) (inheritable t))).

(** What the parent must be left with. *)
Definition parent_table (o : SpawnOptions) (sp : SubprocessHandle) (n : nat) (t : gmap Z Fd) : gmap Z Fd :=
  insert_if (pipe_stdout o) (sp_stdout_fd sp) (mkFd (F_Pipe (stdout_pipe_no o n) ReadEnd) true)
    (insert_if (pipe_stdin o) (sp_stdin_fd sp) (mkFd (F_Pipe n WriteEnd) true) t).

Definition std_open (t : gmap Z Fd) : Prop := ∀ fd, 0 <= fd <= 2 → is_Some (t !! fd).

(** A handle names the new descriptors, and -1 where no pipe was asked for. *)
Definition handle_fresh (o : SpawnOptions) (sp : SubprocessHandle) (t : gmap Z Fd) : Prop :=
  (if pipe_stdin o then t !! sp_stdin_fd sp = None else sp_stdin_fd sp = -1)
  ∧ (if pipe_stdout o then t !! sp_stdout_fd sp = None else sp_stdout_fd sp = -1)
  ∧ (pipe_stdin o = true → pipe_stdout o = true → sp_stdin_fd sp ≠ sp_stdout_fd sp).

Lemma filter_cloexec_insert (t : gmap Z Fd) i f :
  t !! i = None → inheritable (<[i := mkFd f true]> t) = inheritable t.
Proof. intros Hi. unfold inheritable. by rewrite map_filter_insert_False, delete_id. Qed.

Lemma inheritable_insert (t : gmap Z Fd) i f :
  inheritable (<[i := mkFd f false]> t) = <[i := mkFd f false]> (inheritable t).
Proof. unfold inheritable. by rewrite map_filter_insert_True. Qed.

Lemma close_open fd p f : fds p !! fd = Some f → close fd p = with_fds (delete fd (fds p)) p.
Proof. unfold close. by intros ->. Qed.

Lemma std_ne t fd i : std_open t → t !! fd = None → 0 <= i <= 2 → fd ≠ i.
Proof. intros Hstd Hfd Hi ->. destruct (Hstd i Hi). congruence. Qed.

Section Contract.
Context `{OSLaws}.

Lemma open_pipe_fresh p r w p' :
  open_pipe true p = inr ((r, w), p') →
  0 <= r ∧ 0 <= w ∧ r ≠ w ∧ fds p !! r = None ∧ fds p !! w = None
  ∧ p' = mkProc (<[w := mkFd (F_Pipe (pipes p) WriteEnd) true]>
                   (<[r := mkFd (F_Pipe (pipes p) ReadEnd) true]> (fds p)))
                (S (pipes p)) (children p) (bad_close p).
Proof.
  unfold open_pipe. destruct (pipe2 (fds p)) as [e|[r' w']] eqn:E; [done|].
  apply pipe2_fresh in E. intros [= <- <- <-]. tauto.
Qed.

Lemma exec_file_actions o sin sout n t t2 :
  inheritable t2 = inheritable t →
  (pipe_stdin o = true → t2 !! sin.1 = Some (mkFd (F_Pipe n ReadEnd) true)) →
  (pipe_stdout o = true → t2 !! sout.2 = Some (mkFd (F_Pipe (stdout_pipe_no o n) WriteEnd) true)
                          ∧ sout.2 ≠ 0) →
  exec_table (file_actions o sin sout) t2 = child_table o n t.
Proof.
  intros Ht Hin Hout. unfold exec_table, file_actions, child_table.
  rewrite !foldl_app. fold (inheritable (foldl file_action (foldl file_action (foldl file_action t2
    (if pipe_stdin o then [A_Dup2 sin.1 STDIN_FILENO] else []))
    (if pipe_stdout o then [A_Dup2 sout.2 STDOUT_FILENO] else []))
    (if discard_stderr o then [A_OpenNull STDERR_FILENO] else []))).
  unfold stdout_pipe_no in *. destruct o as [i e d]; cbn in *.
  destruct i, e, d; cbn; repeat match goal with
  | H : true = true → _ |- _ => specialize (H eq_refl)
  | H : _ ∧ _ |- _ => destruct H
  end; unfold STDIN_FILENO, STDOUT_FILENO, STDERR_FILENO in *;
    repeat (simplify_map_eq; rewrite ?inheritable_insert); congruence.
Qed.

(** The parent's half, once its table holds the pipes. *)
Definition after_start (argv : list string) (o : SpawnOptions) (n : nat) (t : gmap Z Fd)
    (p : Proc) (res : (string + SubprocessHandle) * Proc) : Prop :=
  bad_close res.2 = bad_close p ∧
  match res.1 with
  | inl _ => fds res.2 = t ∧ children res.2 = children p
  | inr sp => fds res.2 = parent_table o sp n t ∧ handle_fresh o sp t
              ∧ children res.2 = children p ++ [(argv, child_table o n t)]
  end.


(** What remains of a spawn once the pipes are open: the kernel answers, the
    descriptors are closed one by one, and the tables agree. *)
Ltac close_steps :=
  repeat match goal with
  | |- context [close ?fd ?p] => erewrite (close_open fd p) by (cbn; simplify_map_eq; reflexivity)
  | H : 0 <= ?r |- context [0 <=? ?r] => rewrite (proj2 (Z.leb_le 0 r) H)
  end; cbn.
Ltac table_eq :=
  cbn; apply map_eq; let i := fresh in intros i;
  repeat match goal with
  | |- context [<[?k := _]> _ !! i] => destruct (decide (i = k)) as [->|]; simplify_map_eq
  | |- context [delete ?k _ !! i] => destruct (decide (i = k)) as [->|]; simplify_map_eq
  end; try congruence.
Ltac settle :=
  unfold after_start, pipe_closer, ClosePipe; cbn; close_steps; split_and!; try done; try table_eq.
Ltac start_child p :=
  cbn [open_pipe]; unfold start_child, spawn_child;
  rewrite (exec_file_actions _ _ _ (pipes p) (fds p));
  [ destruct (posix_spawnp _ _); cbn; settle
  | cbn; rewrite ?filter_cloexec_insert; simplify_map_eq; done
  | intros ?; cbn in *; simplify_map_eq; done
  | intros ?; cbn in *; simplify_map_eq; try (split; [done|by eapply (std_ne (fds p))]) ].
Ltac pipe_opened E :=
  apply open_pipe_fresh in E; cbn in E; destruct E as (? & ? & ? & ? & ? & ->);
  rewrite ?lookup_insert_None in *; destruct_and?.

(** The contract of [SpawnProcess], as equations of tables. *)
Lemma spawn_balanced argv o p :
  std_open (fds p) → after_start argv o (pipes p) (fds p) p (SpawnProcess argv o p).
Proof.
  intros Hstd. unfold SpawnProcess. destruct argv as [|a argv]; [done|].
  destruct o as [[] e d]; cbn [pipe_stdin pipe_stdout].
  - destruct (open_pipe true p) as [x|[[r0 w0] p1]] eqn:E0; [done|]. pipe_opened E0.
    destruct e; [|start_child p].
    destruct (open_pipe true _) as [x|[[r1 w1] p2]] eqn:E1; [settle|]. pipe_opened E1. start_child p.
  - cbn [open_pipe]. destruct e; [|start_child p].
    destruct (open_pipe true _) as [x|[[r1 w1] p2]] eqn:E1; [done|]. pipe_opened E1. start_child p.
Qed.

(** Every pipe end the process holds is of a pipe it made. *)
Definition known_pipes (p : Proc) : Prop :=
  ∀ fd f n e, fds p !! fd = Some f → fd_file f = F_Pipe n e → (n < pipes p)%nat.

Lemma lookup_insert_if {A} b i (x : A) m j y :
  insert_if b i x m !! j = Some y → (b = true ∧ j = i ∧ y = x) ∨ (m !! j = Some y).
Proof. unfold insert_if. destruct b; [|tauto]. rewrite lookup_insert_Some. naive_solver. Qed.

Lemma child_new_end o p fd f n e :
  known_pipes p → child_table o (pipes p) (fds p) !! fd = Some f → fd_file f = F_Pipe n e →
  (pipes p ≤ n)%nat →
  (pipe_stdin o = true ∧ fd = STDIN_FILENO ∧ n = pipes p ∧ e = ReadEnd)
  ∨ (pipe_stdout o = true ∧ fd = STDOUT_FILENO ∧ n = stdout_pipe_no o (pipes p) ∧ e = WriteEnd).
Proof.
  intros Hp Hf Hfile Hn. unfold child_table in Hf.
  apply lookup_insert_if in Hf as [(_ & _ & ->)|Hf]; [done|].
  apply lookup_insert_if in Hf as [(? & -> & ->)|Hf]; [cbn in Hfile; right; naive_solver|].
  apply lookup_insert_if in Hf as [(? & -> & ->)|Hf]; [cbn in Hfile; left; naive_solver|].
  apply map_lookup_filter_Some in Hf as [Hf _]. pose proof (Hp _ _ _ _ Hf Hfile). lia.
Qed.

(** C37: On failure [SpawnProcess] leaves the table of descriptors as it was.
    On success the parent holds in addition exactly its own ends of the
    requested pipes, at the new descriptors the handle names; the child's
    standard input and output are the other ends, and no other descriptor of
    the child is an end of a new pipe, so that closing the parent's end is
    seen as the end of the stream.  No descriptor is closed twice. *)
Theorem SpawnProcess_streams argv o p :
  std_open (fds p) → known_pipes p →
  bad_close (SpawnProcess argv o p).2 = bad_close p ∧
  match (SpawnProcess argv o p).1 with
  | inl _ => fds (SpawnProcess argv o p).2 = fds p
  | inr sp =>
      fds (SpawnProcess argv o p).2 = parent_table o sp (pipes p) (fds p) ∧ handle_fresh o sp (fds p)
      ∧ ∃ child, children (SpawnProcess argv o p).2 = children p ++ [(argv, child)]
        ∧ (pipe_stdin o = true → fd_file <$> child !! STDIN_FILENO = Some (F_Pipe (pipes p) ReadEnd))
        ∧ (pipe_stdout o = true →
           fd_file <$> child !! STDOUT_FILENO = Some (F_Pipe (stdout_pipe_no o (pipes p)) WriteEnd))
        ∧ (discard_stderr o = true → fd_file <$> child !! STDERR_FILENO = Some F_DevNull)
        ∧ ∀ fd f n e, child !! fd = Some f → fd_file f = F_Pipe n e → (pipes p ≤ n)%nat →
            (pipe_stdin o = true ∧ fd = STDIN_FILENO ∧ n = pipes p ∧ e = ReadEnd)
            ∨ (pipe_stdout o = true ∧ fd = STDOUT_FILENO ∧ n = stdout_pipe_no o (pipes p) ∧ e = WriteEnd)
  end.
Proof.
  intros Hstd Hp. pose proof (spawn_balanced argv o p Hstd) as [Hbad H1]. split; [done|].
  destruct (SpawnProcess argv o p).1 as [x|sp]; [tauto|]. destruct H1 as (Ht & Hh & Hc).
  split_and!; [done..|]. eexists. split; [exact Hc|].
  split_and!; [| | |intros *; by apply child_new_end];
    intros Hb; unfold child_table, insert_if; rewrite Hb; destruct o as [[] [] []]; by simplify_map_eq.
Qed.
End Contract.

(** ** The contract as an interface

    What a client of [SpawnProcess] may rely on; [Symbolizer] is verified
    against it. *)

Class Spawner `{OS} := spawn : list string → SpawnOptions → Proc → (string + SubprocessHandle) * Proc.
Class SpawnerSpec `{Spawner} : Prop :=
  spawn_contract argv o p :
    std_open (fds p) → after_start argv o (pipes p) (fds p) p (spawn argv o p).

#[export] Instance posix_spawner `{OS} : Spawner := SpawnProcess.
#[export] Instance posix_spawner_spec `{OSLaws} : SpawnerSpec.
Proof. exact spawn_balanced. Qed.

(** The descriptors are as they were, none closed twice on the way. *)
Definition same_fds (p p' : Proc) : Prop := fds p' = fds p ∧ bad_close p' = bad_close p.

(** A client that asks for one pipe and closes its end of it. *)
Lemma spawn_close_stdout `{SpawnerSpec} argv err p sp p1 :
  std_open (fds p) → spawn argv (mkSpawnOptions false true err) p = (inr sp, p1) →
  same_fds p (close (sp_stdout_fd sp) p1).
Proof.
  intros Hstd E. pose proof (spawn_contract argv (mkSpawnOptions false true err) p Hstd) as [Hbad Hs].
  rewrite E in Hbad, Hs. cbn in Hbad, Hs. destruct Hs as (Ht & (_ & Hfresh & _) & _). cbn in Ht, Hfresh.
  unfold same_fds. erewrite close_open by (rewrite Ht; apply lookup_insert_eq). cbn.
  rewrite Ht. by rewrite delete_insert_id.
Qed.
Lemma spawn_close_stdin `{SpawnerSpec} argv err p sp p1 :
  std_open (fds p) → spawn argv (mkSpawnOptions true false err) p = (inr sp, p1) →
  same_fds p (close (sp_stdin_fd sp) p1).
Proof.
  intros Hstd E. pose proof (spawn_contract argv (mkSpawnOptions true false err) p Hstd) as [Hbad Hs].
  rewrite E in Hbad, Hs. cbn in Hbad, Hs. destruct Hs as (Ht & (Hfresh & _) & _). cbn in Ht, Hfresh.
  unfold same_fds. erewrite close_open by (rewrite Ht; apply lookup_insert_eq). cbn.
  rewrite Ht. by rewrite delete_insert_id.
Qed.
Lemma spawn_failed `{SpawnerSpec} argv o p msg p1 :
  std_open (fds p) → spawn argv o p = (inl msg, p1) → same_fds p p1 ∧ children p1 = children p.
Proof.
  intros Hstd E. pose proof (spawn_contract argv o p Hstd) as [Hbad Hs].
  rewrite E in Hbad, Hs. cbn in Hbad, Hs. unfold same_fds. tauto.
Qed.

(** A kernel that hands out descriptors from 100 on and starts everything. *)
#[export] Instance sample_os : OS := {
  pipe2 := fun t => inr (let m := foldl Z.max 100 (elements (dom t)) in (m + 1, m + 2));
  posix_spawnp := fun _ _ => inr 1234;
  waitpid := fun _ n => match n with O => W_EINTR | _ => W_Exited 0 end;
  strerror := fun _ => "error"
}.
Lemma foldl_max_le l a x : x ∈ l ∨ x <= a → x <= foldl Z.max a l.
Proof.
  revert a. induction l as [|y l IH]; cbn; intros a [Hx|Hx]; try (by apply elem_of_nil in Hx); [| |].
  - done.
  - apply IH. apply elem_of_cons in Hx as [->|Hx]; [right; lia|by left].
  - apply IH. right. lia.
Qed.
#[export] Instance sample_os_laws : OSLaws.
Proof.
  split. intros t r w [= <- <-]. set (m := foldl Z.max 100 (elements (dom t))).
  assert (100 <= m) by (apply foldl_max_le; right; lia).
  assert (Hout : ∀ i, m < i → t !! i = None).
  { intros i Hi. apply not_elem_of_dom. intros Hd.
    assert (i <= m); [|lia]. apply foldl_max_le. left. by apply elem_of_elements. }
  split_and!; try lia; apply Hout; lia.
Qed.

(** Witness: a client that asks for both pipes and silences the child. *)
Definition sample_proc : Proc :=
  mkProc (list_to_map [(0, mkFd (F_Inherited 0) false); (1, mkFd (F_Inherited 1) false);
                       (2, mkFd (F_Inherited 2) false); (3, mkFd (F_Inherited 3) true)]) 0 [] false.
Lemma sample_std_open : std_open (fds sample_proc).
Proof.
  intros fd Hfd. assert (fd = 0 ∨ fd = 1 ∨ fd = 2) as [->|[->| ->]] by lia; by eexists.
Qed.
Lemma sample_known_pipes : known_pipes sample_proc.
Proof.
  intros fd f n e Hf Hfile. apply elem_of_list_to_map_2 in Hf. cbn in Hf. set_unfold. naive_solver.
Qed.

Lemma SpawnProcess_streams_witness :
  let r := SpawnProcess ["addr2line"; "-f"] (mkSpawnOptions true true true) sample_proc in
  r.1 = inr (mkSubprocess 1234 102 103) ∧ bad_close r.2 = false.
Proof.
  intros r. split; [vm_compute; reflexivity|].
  exact (proj1 (SpawnProcess_streams ["addr2line"; "-f"] (mkSpawnOptions true true true) sample_proc
                  sample_std_open sample_known_pipes)).
Defined.
