(* ===== verification/BoundFacts.v ===== *)
(** * The switch-table bounds are upper bounds

    A concrete register file and the two flags an unsigned comparison sets,
    and what it means for them to satisfy the bounds of an abstract state.
    [Join], [TransferEdge] and [Transfer] keep that relation; what the
    processor does to registers and flags is a named hypothesis ([effect]),
    stated as the architecture manual does. *)

From stdpp Require Import gmap fin_maps.
From S2P Require Import Prelude CfiTable AbsState AbsStateFacts JoinFacts StateFacts Zydis InsnSemantics.
From S2P Require Import InsnFacts.

(** ** Concrete machines *)

Record machine := mkMachine { m_reg : Z → Z; m_cf : bool; m_zf : bool }.

Definition in_range (r : Z) : Prop := 0 <= r < kNumGPRs.

(** A recorded comparison is either proven, and bounds the register's low
    bits, or not yet used, and the flags are the comparison's result. *)
Definition guard_holds (m : machine) (g : FlagsGuard) : Prop :=
  let x := m_reg m (fg_reg g) mod 2 ^ fg_width_bits g in
  if proven g then x <= fg_proven_bound g
  else m_cf m = (x <? fg_imm g) ∧ m_zf m = (x =? fg_imm g).

Record bounds_hold (m : machine) (s : AbsState) : Prop := {
  bh_value : ∀ r, in_range r → 0 <= m_reg m r <= value_bound (table s r);
  bh_guard : ∀ g, last_cmp s = Some g → guard_holds m g
}.

Definition upd (r x : Z) (m : machine) : machine :=
  mkMachine (fun q => if q =? r then x else m_reg m q) (m_cf m) (m_zf m).

Lemma table_in_range s r t : in_range r → tbl s !! Z.to_nat r = Some t → table s r = t.
Proof.
  intros Hr E. unfold table, in_gprs. assert ((0 <=? r) && (r <? kNumGPRs) = true) as ->.
  { unfold in_range in Hr. lia. }
  by rewrite E.
Qed.

Lemma in_gprs_true r : in_range r → in_gprs r = true.
Proof. unfold in_range, in_gprs. lia. Qed.

(** Registers that agree satisfy the same bounds. *)
Lemma bounds_hold_ext m m' s :
  state_ok s → (∀ r, in_range r → m_reg m' r = m_reg m r) → m_cf m' = m_cf m → m_zf m' = m_zf m →
  bounds_hold m s → bounds_hold m' s.
Proof.
  intros [_ Hc] Hr H1 H2 [Hv Hg]. split.
  - intros r H. rewrite Hr by done. by apply Hv.
  - intros g E. rewrite E in Hc. destruct Hc as (Hc & _). specialize (Hg g E).
    unfold guard_holds in *. by rewrite H1, H2, Hr by done.
Qed.

(** A register that is written gets a new bound; a guard about it is gone. *)
Lemma SetReg_table r v t s q :
  wf_state s → in_range r → in_range q →
  table (SetReg r v t s) q = if q =? r then t else table s q.
Proof.
  intros Hs Hr Hq.
  assert (tbl (SetReg r v t s) = <[Z.to_nat r := t]> (tbl s)) as Ht.
  { unfold SetReg, InvalidateLastCmpFor. by repeat case_match. }
  unfold table. rewrite in_gprs_true by done. rewrite Ht. destruct Hs.
  unfold in_range, kNumGPRs in *. case_match eqn:E.
  - assert (q = r) as -> by lia. by rewrite list_lookup_insert_eq by lia.
  - by rewrite list_lookup_insert_ne by lia.
Qed.

Lemma SetReg_cmp r v t s g :
  last_cmp (SetReg r v t s) = Some g → last_cmp s = Some g ∧ fg_reg g ≠ r.
Proof.
  unfold SetReg, InvalidateLastCmpFor. cbn. destruct (last_cmp s) as [g'|] eqn:E; cbn.
  - destruct (fg_reg g' =? r) eqn:Er; repeat case_match; cbn; rewrite ?E; intros; simplify_eq; lia || (split; [done|lia]).
  - repeat case_match; cbn; rewrite ?E; done.
Qed.

Lemma hold_SetReg m s r v t x :
  wf_state s → in_range r → bounds_hold m s → 0 <= x <= value_bound t →
  bounds_hold (upd r x m) (SetReg r v t s).
Proof.
  intros Hs Hr [Hv Hg] Hx. split.
  - intros q Hq. rewrite SetReg_table by done. cbn. case_match; [done|by apply Hv].
  - intros g [E Hne]%SetReg_cmp. specialize (Hg g E). unfold guard_holds in *. cbn.
    assert ((fg_reg g =? r) = false) as -> by lia. done.
Qed.

Lemma hold_update_table m s r f :
  wf_state s → in_range r → bounds_hold m s →
  m_reg m r <= value_bound (f (table s r)) → bounds_hold m (update_table r f s).
Proof.
  intros Hs Hr [Hv Hg] Hx. split; [|exact Hg]. intros q Hq. unfold table, update_table. cbn.
  rewrite in_gprs_true by done. destruct (decide (q = r)) as [->|Hne].
  - rewrite list_lookup_alter_eq. destruct Hs. unfold in_range, kNumGPRs in *.
    destruct (lookup_lt_is_Some_2 (tbl s) (Z.to_nat r)) as [t Et]; [lia|].
    rewrite (table_in_range _ _ _ Hr Et) in Hx. rewrite Et. cbn. split; [|done]. by apply Hv.
  - rewrite list_lookup_alter_ne by (unfold in_range in *; lia).
    specialize (Hv q Hq). unfold table in Hv. by rewrite in_gprs_true in Hv.
Qed.

(** ** Joins *)

Lemma JoinTableValue_bound a b : value_bound (JoinTableValue a b) = Z.max (value_bound a) (value_bound b).
Proof. by rewrite JoinTableValue_id. Qed.

Lemma table_meet s1 s2 r :
  wf_state s1 → wf_state s2 → in_range r →
  table (meet s1 s2) r = JoinTableValue (table s1 r) (table s2 r).
Proof.
  intros [] [] Hr. unfold table. rewrite in_gprs_true by done. cbn. rewrite lookup_zip_with.
  unfold in_range, kNumGPRs in *.
  destruct (lookup_lt_is_Some_2 (tbl s1) (Z.to_nat r)) as [t1 ->]; [lia|].
  destruct (lookup_lt_is_Some_2 (tbl s2) (Z.to_nat r)) as [t2 ->]; [lia|]. done.
Qed.

Lemma hold_meet m s1 s2 :
  wf_state s1 → wf_state s2 → bounds_hold m s1 ∨ bounds_hold m s2 → bounds_hold m (meet s1 s2).
Proof.
  intros H1 H2 Hm. split.
  - intros r Hr. rewrite table_meet, JoinTableValue_bound by done.
    destruct Hm as [[Hv _]|[Hv _]]; specialize (Hv r Hr); lia.
  - intros g. cbn. unfold meet_cmp. case_bool_decide as E; [|done]. intros Eg.
    destruct Hm as [[_ Hg]|[_ Hg]]; apply Hg; congruence.
Qed.

(** ** Branch edges *)

(** Whether a conditional branch on an unsigned comparison is taken. *)
Definition jcc_taken (id : ZydisMnemonic) (m : machine) : option bool :=
  match id with
  | M_JNBE => Some (negb (m_cf m) && negb (m_zf m))
  | M_JNB => Some (negb (m_cf m))
  | M_JBE => Some (m_cf m || m_zf m)
  | M_JB => Some (m_cf m)
  | _ => None
  end.

(** The machine goes along [edge]. *)
Definition follows (id : ZydisMnemonic) (edge : BranchEdge) (m : machine) : Prop :=
  match jcc_taken id m with Some b => b = bool_decide (edge = kTaken) | None => True end.

Lemma edge_bound_sound id edge imm b m x :
  edge_bound id edge imm = Some b → follows id edge m →
  m_cf m = (x <? imm) → m_zf m = (x =? imm) → x <= b.
Proof.
  unfold edge_bound, InRangeEdgeOf, follows, jcc_taken. intros E Hf Hc Hz. rewrite Hc, Hz in Hf.
  destruct id, edge; simplify_eq/=; repeat case_match; simplify_eq/=; lia.
Qed.

Lemma mod_small_width x w b : 0 <= x <= b → b <= WidthBound w → 0 <= w < 64 → x mod 2 ^ w = x.
Proof.
  intros Hx Hb Hw. unfold WidthBound in Hb. assert ((64 <=? w) = false) as E by lia. rewrite E in Hb.
  apply Z.mod_small. lia.
Qed.

Lemma mod_wide x w : is_u64 x → 64 <= w → x mod 2 ^ w = x.
Proof.
  intros Hx Hw. apply Z.mod_small. assert (2 ^ 64 <= 2 ^ w) by (apply Z.pow_le_mono_r; lia).
  unfold is_u64 in Hx. lia.
Qed.

(** A comparison of [w] bits covers the register's value. *)
Lemma covers x w b :
  0 <= x <= b → is_u64 b → 0 <= w → (64 <=? w) || (b <=? WidthBound w) = true → x mod 2 ^ w = x.
Proof.
  intros Hx Hb Hw [H|H]%orb_true_iff.
  - apply mod_wide; [|lia]. unfold is_u64 in *. lia.
  - destruct (64 <=? w) eqn:E; [|apply (mod_small_width x w b); lia].
    apply mod_wide; [|lia]. unfold is_u64 in *. lia.
Qed.

Lemma update_table_guard r b s : in_range r → ApplyGuardBound r b s = update_table r (tv_ApplyGuardBound b) s.
Proof. intros Hr. unfold ApplyGuardBound. by rewrite in_gprs_true. Qed.

Lemma hold_guarded m s g b :
  state_ok s → guard_ok g → is_u64 b → proven g = false → last_cmp s = Some g → bounds_hold m s →
  m_reg m (fg_reg g) mod 2 ^ fg_width_bits g <= b → bounds_hold m (guarded g b s).
Proof.
  intros Hs Hg Hb Hnp Ecmp Hm Hx. unfold guarded. set (s1 := with_last_cmp _ s).
  assert (bounds_hold m s1) as H1.
  { split; [apply Hm|]. intros g' [= <-]. unfold guard_holds, proven. cbn.
    destruct (b =? kBoundTop); [|done]. pose proof (bh_guard _ _ Hm _ Ecmp) as Hh.
    unfold guard_holds in Hh. by rewrite Hnp in Hh. }
  assert (wf_state s1) as Hs1 by apply wf_with_last_cmp, Hs.
  destruct (_ || _) eqn:E; [|done]. destruct Hg as (Hr & Hw & _ & _).
  rewrite update_table_guard by done. apply hold_update_table; [done|done|done|].
  cbn. pose proof (bh_value _ _ H1 _ Hr) as Hv.
  destruct (tv_ok_table s1 (fg_reg g) Hs1) as (Hu & _ & _).
  rewrite (covers _ _ _ Hv Hu Hw E) in Hx. lia.
Qed.



(** ** Instructions *)

Section Transfer.
Context `{ZydisApi}.

(** The register of an operand, in the DWARF numbering. *)
Definition op_dwarf (op : ZydisOperand) : Z :=
  match op_kind op with OpReg r => DWARFRegOf r | _ => -1 end.
Definition op_width (op : ZydisOperand) : Z :=
  match op_kind op with OpReg r => RegWidthBits r | _ => 0 end.

(** The instructions whose only register result is their first operand. *)
Definition writes_first (id : ZydisMnemonic) : bool :=
  match id with
  | M_LEA | M_MOV | M_MOVQ | M_MOVSXD | M_ADD | M_SUB | M_MOVZX | M_MOVSX => true
  | _ => false
  end.

(** The operands an instruction may write. *)
Definition written_ops (insn : Instruction) : list ZydisOperand :=
  filter (fun op => op_writes op = true) (take (zi_operand_count (in_insn insn)) (in_operands insn)).

Definition op_regs (ops : list ZydisOperand) : list Z := op_dwarf <$> ops.

(** The registers an instruction may change, of the ones whose value
    survives it otherwise (a call's are the caller-saved ones). *)
Definition written_regs (insn : Instruction) : list Z :=
  if is_return_id (in_id insn) || is_branch insn || is_stop_id (in_id insn) then []
  else match in_id insn with
  | M_CALL | M_SYSCALL | M_SYSENTER | M_INT | M_INT1 | M_INT3 | M_INTO | M_VMCALL | M_VMMCALL =>
      kCallerSaved
  | M_PUSH | M_PUSHFQ => [kDWARFRsp]
  | M_POP => [kDWARFRsp; op_dwarf (operand insn 0)]
  | M_POPFQ => [kDWARFRsp]
  | M_LEAVE => [kDWARFRbp; kDWARFRsp]
  | M_CMP | M_NOP | M_ENDBR32 | M_ENDBR64 => []
  | _ => op_regs (written_ops insn)
  end.

(** The instructions [Transfer] has a case for, with two operands, write
    their first operand and no other general register. *)
Definition one_dest (insn : Instruction) : Prop :=
  writes_first (in_id insn) = true → two_ops insn = true →
  (in_range (op_dwarf (operand insn 0)) → operand insn 0 ∈ written_ops insn) ∧
  (∀ op, op ∈ written_ops insn → in_range (op_dwarf op) → op_dwarf op = op_dwarf (operand insn 0)).

(** [mov], [movzx], [movsx] and [movsxd] from a register. *)
Definition moved_value (id : ZydisMnemonic) (dst_width src_size x : Z) : option Z :=
  match id with
  | M_MOV | M_MOVQ | M_MOVZX => Some (x mod 2 ^ src_size)
  | M_MOVSX => Some (wrapu dst_width (wraps src_size x))
  | M_MOVSXD => Some (u64 (wraps src_size x))
  | _ => None
  end.

(** What executing an instruction that does not transfer control (or, for
    a call, what the callee) does to the general registers and the two
    flags.  [m'] is the machine afterwards. *)
Record effect (insn : Instruction) (m m' : machine) : Prop := {
  (* registers are 64 bits wide *)
  ef_range : ∀ r, is_u64 (m_reg m' r);
  (* only written registers change *)
  ef_frame : ∀ r, in_range r → r ∉ written_regs insn → m_reg m' r = m_reg m r;
  (* flags that are not written do not change *)
  ef_flags : WritesEflags insn = false → m_cf m' = m_cf m ∧ m_zf m' = m_zf m;
  (* a write to a 32-bit register clears the upper half *)
  ef_zero32 : ∀ op, op ∈ written_ops insn → op_width op = 32 → in_range (op_dwarf op) →
    op_dwarf op ∈ written_regs insn → m_reg m' (op_dwarf op) < 2 ^ 32;
  (* moves from the low part of a register *)
  ef_move : ∀ x, two_ops insn = true → in_range (op_dwarf (operand insn 0)) →
    32 <= op_width (operand insn 0) → in_range (op_dwarf (operand insn 1)) →
    moved_value (in_id insn) (op_width (operand insn 0)) (op_size (operand insn 1))
      (m_reg m (op_dwarf (operand insn 1))) = Some x →
    m_reg m' (op_dwarf (operand insn 0)) = x;
  (* what a zero-extending move or load leaves *)
  ef_load : two_ops insn = true → in_id insn = M_MOVZX → in_range (op_dwarf (operand insn 0)) →
    32 <= op_width (operand insn 0) → m_reg m' (op_dwarf (operand insn 0)) < 2 ^ op_size (operand insn 1);
  (* cmp $imm,%reg (the size is at most 64, so the cast keeps it) *)
  ef_cmp : ∀ v, two_ops insn = true → in_id insn = M_CMP → in_range (op_dwarf (operand insn 0)) →
    op_kind (operand insn 1) = OpImm v →
    let w := u8 (op_size (operand insn 0)) in
    let x := m_reg m (op_dwarf (operand insn 0)) mod 2 ^ w in
    m_cf m' = (x <? u64 v mod 2 ^ w) ∧ m_zf m' = (x =? u64 v mod 2 ^ w)
}.

(** *** Following the written registers *)

Definition upds (m' : machine) (l : list Z) (m : machine) : machine :=
  foldl (fun m r => upd r (m_reg m' r) m) m l.
Definition reflagged (m m' : machine) : machine := mkMachine (m_reg m) (m_cf m') (m_zf m').

Lemma upds_reg m' l m q : m_reg (upds m' l m) q = if bool_decide (q ∈ l) then m_reg m' q else m_reg m q.
Proof.
  revert m. induction l as [|r l IH]; intros m; [done|].
  change (upds m' (r :: l) m) with (upds m' l (upd r (m_reg m' r) m)). rewrite IH. cbn.
  destruct (decide (q = r)) as [->|Hne].
  - rewrite Z.eqb_refl. rewrite (bool_decide_eq_true_2 (r ∈ r :: l)) by set_solver. by case_match.
  - assert ((q =? r) = false) as -> by lia.
    by rewrite (bool_decide_ext (q ∈ r :: l) (q ∈ l)) by set_solver.
Qed.

Lemma upds_flags m' l m : m_cf (upds m' l m) = m_cf m ∧ m_zf (upds m' l m) = m_zf m.
Proof. revert m. induction l as [|r l IH]; intros m; [done|]. cbn. by destruct (IH (upd r (m_reg m' r) m)). Qed.

Lemma hold_finish insn m m' l st :
  effect insn m m' → state_ok st → (∀ r, in_range r → r ∈ written_regs insn → r ∈ l) →
  bounds_hold (upds m' l (reflagged m m')) st → bounds_hold m' st.
Proof.
  intros He Hs Hl Hb. destruct (upds_flags m' l (reflagged m m')) as [H1 H2].
  apply (bounds_hold_ext (upds m' l (reflagged m m'))); try done.
  intros r Hr. rewrite upds_reg. case_bool_decide; [done|]. apply (ef_frame _ _ _ He); auto.
Qed.

Lemma hold_clobber m s r x :
  wf_state s → in_range r → bounds_hold m s → is_u64 x → bounds_hold (upd r x m) (ClobberReg r s).
Proof. intros. apply hold_SetReg; auto. cbn. unfold is_u64, kBoundTop in *. lia. Qed.

Lemma hold_set1 m s r v x :
  wf_state s → in_range r → bounds_hold m s → is_u64 x → bounds_hold (upd r x m) (SetReg1 r v s).
Proof. intros. apply hold_SetReg; auto. cbn. unfold is_u64, kBoundTop in *. lia. Qed.

Lemma hold_set_table m s r t x :
  wf_state s → in_range r → bounds_hold m s → is_u64 x → value_bound t = kBoundTop →
  bounds_hold (upd r x m) (SetTableReg r t s).
Proof. intros. apply hold_SetReg; auto. unfold is_u64, kBoundTop in *. lia. Qed.

Lemma table_update_eq r f s : wf_state s → in_range r → table (update_table r f s) r = f (table s r).
Proof.
  intros [] Hr. unfold table, update_table. rewrite in_gprs_true by done. cbn.
  rewrite list_lookup_alter_eq. unfold in_range, kNumGPRs in *.
  by destruct (lookup_lt_is_Some_2 (tbl s) (Z.to_nat r)) as [t ->]; [lia|].
Qed.

Lemma upd_same r x m : m_reg (upd r x m) r = x.
Proof. cbn. by rewrite Z.eqb_refl. Qed.

Lemma hold_clobber_written m s q r x :
  wf_state s → in_range r → bounds_hold m s → 0 <= x <= WrittenRegBound q → is_u64 x →
  bounds_hold (upd r x m) (ClobberWrittenReg q r s).
Proof.
  intros Hs Hr Hm Hx Hu.
  apply (hold_update_table _ _ r (fun t => mkTable (tv_id t) (WrittenRegBound q) (table_bound t)));
    [by apply wf_ClobberReg|done|by apply hold_clobber|]. rewrite upd_same. cbn. lia.
Qed.

(** Slot operations do not touch bounds. *)
Lemma hold_with_slots m s sl : bounds_hold m s → bounds_hold m (with_slots sl s).
Proof. by intros []. Qed.
Lemma hold_SetSlot m s k v : bounds_hold m s → bounds_hold m (SetSlot k v s).
Proof. intros. unfold SetSlot. case_match; by apply hold_with_slots. Qed.
Lemma hold_EraseSlots m s a n : bounds_hold m s → bounds_hold m (EraseSlots a n s).
Proof. intros. unfold EraseSlots. case_match; [done|by apply hold_with_slots]. Qed.

(** *** What the bounds say about low parts *)

Lemma mod_pow_le x a b : 0 <= a <= b → x mod 2 ^ a <= x mod 2 ^ b.
Proof.
  intros Hab. assert ((x mod 2 ^ b) mod 2 ^ a = x mod 2 ^ a) as <-.
  { apply Z.mod_mod_divide.
    exists (2 ^ (b - a)). rewrite <-Z.pow_add_r by lia. f_equal. lia. }
  apply Z.mod_le; [|apply Z.pow_pos_nonneg; lia].
  apply Z.mod_pos_bound, Z.pow_pos_nonneg; lia.
Qed.

Lemma mod_WidthBound x b : 0 <= b → is_u64 x → 0 <= x mod 2 ^ b <= WidthBound b.
Proof.
  intros Hb Hx. unfold WidthBound, kBoundTop.
  pose proof (Z.mod_pos_bound x (2 ^ b) ltac:(apply Z.pow_pos_nonneg; lia)).
  pose proof (Z.mod_le x (2 ^ b) ltac:(apply Hx) ltac:(apply Z.pow_pos_nonneg; lia)).
  unfold is_u64 in *. case_match; lia.
Qed.

Lemma guard_bounds_low m s r bits :
  state_ok s → bounds_hold m s → in_range r → is_u64 (m_reg m r) → 0 <= bits →
  m_reg m r mod 2 ^ bits <= ProvenGuardBound s r bits.
Proof.
  intros Hs Hm Hr Hu Hb. pose proof (mod_WidthBound _ _ Hb Hu) as Hw.
  pose proof (WidthBound_u64 _ Hb) as Hwu.
  unfold ProvenGuardBound. assert ((r <? 0) = false) as -> by (unfold in_range in Hr; lia).
  destruct (last_cmp s) as [g|] eqn:E; [|unfold kBoundTop, is_u64 in *; lia].
  destruct (proven g) eqn:Ep; cbn [negb]; [|unfold kBoundTop, is_u64 in *; lia].
  destruct (_ || _) eqn:Eo; [unfold kBoundTop, is_u64 in *; lia|].
  apply orb_false_iff in Eo as [E1 E2]. apply negb_false_iff, Z.eqb_eq in E1.
  pose proof (bh_guard _ _ Hm _ E) as Hg. unfold guard_holds in Hg. rewrite Ep, E1 in Hg.
  pose proof (mod_pow_le (m_reg m r) bits (fg_width_bits g) ltac:(lia)). lia.
Qed.

(** The bound a zero-extending move gives its destination. *)
Definition low_bound (s : AbsState) (r bits : Z) : Z :=
  Z.min (Z.min (WidthBound bits) (value_bound (table s r))) (ProvenGuardBound s r bits).

Lemma low_bound_holds m s r bits :
  state_ok s → bounds_hold m s → in_range r → is_u64 (m_reg m r) → 0 <= bits →
  0 <= m_reg m r mod 2 ^ bits <= low_bound s r bits.
Proof.
  intros Hs Hm Hr Hu Hb. unfold low_bound.
  pose proof (guard_bounds_low m s r bits Hs Hm Hr Hu Hb). pose proof (mod_WidthBound _ _ Hb Hu).
  pose proof (bh_value _ _ Hm r Hr).
  pose proof (Z.mod_le (m_reg m r) (2 ^ bits) ltac:(apply Hu) ltac:(apply Z.pow_pos_nonneg; lia)). lia.
Qed.

(** Sign extension keeps a value whose sign bit is known to be clear. *)
Lemma wraps_small x bits : 0 < bits → x mod 2 ^ bits < 2 ^ (bits - 1) → wraps bits x = x mod 2 ^ bits.
Proof.
  intros Hb Hx. unfold wraps.
  assert (2 ^ bits = 2 * 2 ^ (bits - 1)) as E.
  { rewrite <-Z.pow_succ_r by lia. f_equal. lia. }
  pose proof (Z.mod_pos_bound x (2 ^ bits) ltac:(apply Z.pow_pos_nonneg; lia)).
  rewrite <-(Zplus_mod_idemp_l x), (Z.mod_small (x mod 2 ^ bits + 2 ^ (bits - 1))); lia.
Qed.

Lemma sign_extended_bound dst src bits b x :
  0 <= x mod 2 ^ bits <= Z.min (Z.min (WidthBound bits) (value_bound src)) b → 0 <= bits →
  let t := ApplySignExtendedFrom dst src bits b in
  value_bound t = kBoundTop ∨ (wraps bits x = x mod 2 ^ bits ∧ x mod 2 ^ bits <= value_bound t).
Proof.
  intros Hx Hb. cbn. unfold ApplySignExtendedFrom. destruct (_ || _) eqn:E; [by left|right].
  apply orb_false_iff in E as [E1 E2]. apply Z.leb_gt in E1, E2. cbn. split; [|lia].
  destruct (decide (bits = 0)) as [->|]; [|apply wraps_small; lia].
  cbn in E2. rewrite Z.mod_1_r in Hx. lia.
Qed.

(** *** Case by case *)

Lemma reg_u64 m s r : state_ok s → bounds_hold m s → in_range r → is_u64 (m_reg m r).
Proof.
  intros [Hs _] Hm Hr. pose proof (bh_value _ _ Hm r Hr). destruct (tv_ok_table s r Hs) as (? & _).
  unfold is_u64 in *. lia.
Qed.

Lemma hold_out m s r x : state_ok s → ¬ in_range r → bounds_hold m s → bounds_hold (upd r x m) s.
Proof.
  intros Hs Hr. apply bounds_hold_ext; [done| |done|done]. intros q Hq. cbn.
  case_match; [|done]. assert (q = r) by lia. congruence.
Qed.

Lemma hold_clobbers m' l m s :
  state_ok s → (∀ r, in_range r → is_u64 (m_reg m' r)) → Forall in_range l → bounds_hold m s →
  bounds_hold (upds m' l m) (foldl (fun s r => ClobberReg r s) s l).
Proof.
  intros Hs Hu Hl. revert m s Hs. induction Hl as [|r l Hr Hl IH]; intros m s Hs Hm; [done|].
  apply IH; [by apply ok_ClobberReg|]. apply hold_clobber; auto. apply Hs.
Qed.

Lemma hold_call m' m s :
  state_ok s → (∀ r, in_range r → is_u64 (m_reg m' r)) → bounds_hold m s →
  bounds_hold (upds m' kCallerSaved m) (clobber_caller_saved (drop_below_rsp s)).
Proof.
  intros Hs Hu Hm. apply hold_clobbers; [| done | |].
  - unfold drop_below_rsp. case_match; auto with uw.
  - repeat constructor; unfold in_range, kNumGPRs; lia.
  - unfold drop_below_rsp. case_match; try done. by apply hold_with_slots.
Qed.

(** A 32-bit destination holds a 32-bit value. *)
Definition zero_extended (m' : machine) (op : ZydisOperand) : Prop :=
  op_width op = 32 → in_range (op_dwarf op) → m_reg m' (op_dwarf op) < 2 ^ 32.

Lemma written_bound m' op r :
  op_kind op = OpReg r → in_range (DWARFRegOf r) → is_u64 (m_reg m' (DWARFRegOf r)) →
  zero_extended m' op → 0 <= m_reg m' (DWARFRegOf r) <= WrittenRegBound r.
Proof.
  intros E Hr Hu Hz. unfold zero_extended, op_width, op_dwarf in Hz. rewrite E in Hz.
  unfold WrittenRegBound, is_u64, kBoundTop in *. destruct (RegWidthBits r =? 32) eqn:Ew; [|lia].
  apply Z.eqb_eq in Ew. specialize (Hz Ew Hr). change (WidthBound 32) with (2 ^ 32 - 1). lia.
Qed.

Lemma dwarf_in_range r : (0 <=? DWARFRegOf r) = true → in_range (DWARFRegOf r).
Proof. intros. pose proof (DWARFRegOf_range r). unfold in_range. lia. Qed.
Lemma dwarf_in_range' r : (DWARFRegOf r <? 0) = false → in_range (DWARFRegOf r).
Proof. intros. apply dwarf_in_range. lia. Qed.

Lemma hold_operand insn m' m s op :
  state_ok s → (∀ r, in_range r → is_u64 (m_reg m' r)) → zero_extended m' op → op_writes op = true →
  bounds_hold m s →
  bounds_hold (upd (op_dwarf op) (m_reg m' (op_dwarf op)) m) (clobber_operand insn s op).
Proof.
  intros Hs Hu Hz Hw Hm. unfold clobber_operand, op_dwarf. rewrite Hw. cbn [negb].
  destruct (op_kind op) as [r|mem| |] eqn:E.
  - destruct (0 <=? DWARFRegOf r) eqn:Ed.
    + apply dwarf_in_range in Ed. apply hold_clobber_written; auto; [apply Hs|].
      by eapply written_bound; eauto.
    + apply hold_out; [done|unfold in_range; lia|done].
  - assert (¬ in_range (-1)) by (unfold in_range; lia).
    case_match; [|by apply hold_out].
    apply hold_out; [unfold erase_operand; auto with uw|done|by apply hold_EraseSlots].
  - apply hold_out; [done|unfold in_range; lia|done].
  - apply hold_out; [done|unfold in_range; lia|done].
Qed.

Lemma clobber_operand_unwritten insn s op : op_writes op = false → clobber_operand insn s op = s.
Proof. intros E. unfold clobber_operand. by rewrite E. Qed.

Lemma hold_ClobberWrites insn m' m s :
  state_ok s → (∀ r, in_range r → is_u64 (m_reg m' r)) →
  (∀ op, op ∈ written_ops insn → zero_extended m' op) → bounds_hold m s →
  bounds_hold (upds m' (op_regs (written_ops insn)) m) (ClobberWrites insn s).
Proof.
  unfold ClobberWrites, written_ops. intros Hs Hu.
  generalize (take (zi_operand_count (in_insn insn)) (in_operands insn)). intros l Hz.
  revert m s Hs. induction l as [|op l IH]; intros m s Hs Hm; [done|].
  cbn [foldl]. rewrite filter_cons. case_decide as Hw.
  - apply IH; [|by apply ok_clobber_operand|].
    + intros op' Hop. apply Hz. rewrite filter_cons, decide_True by done. by right.
    + apply hold_operand; auto. apply Hz. rewrite filter_cons, decide_True by done. by left.
  - rewrite clobber_operand_unwritten by (by destruct (op_writes op)).
    apply IH; [|done|done]. intros op' Hop. apply Hz. by rewrite filter_cons, decide_False.
Qed.

Lemma hold_MovNarrow m s r d src x :
  state_ok s → in_range d → 0 <= x <= WrittenRegBound r → is_u64 x → 0 <= op_size src →
  bounds_hold m s →
  (∀ q, op_kind src = OpReg q → RegWidthBits r = 32 → in_range (DWARFRegOf q) →
     x = m_reg m (DWARFRegOf q) mod 2 ^ op_size src) →
  bounds_hold (upd d x m) (TransferMovNarrow r d src s).
Proof.
  intros Hs Hd Hx Hu Hsz Hm Hv. unfold TransferMovNarrow.
  set (sr := match op_kind src with OpReg _ => _ | _ => _ end).
  assert (bounds_hold (upd d x m) (ClobberWrittenReg r d s)) as Hc
    by (apply hold_clobber_written; auto; apply Hs).
  destruct (0 <=? sr) eqn:Esr; [|done].
  assert (∃ q, op_kind src = OpReg q ∧ RegWidthBits r = 32 ∧ sr = DWARFRegOf q) as (q & E1 & E2 & E3).
  { subst sr. destruct (op_kind src) as [q| | |] eqn:E; try done.
    destruct (RegWidthBits r =? 32) eqn:Ew; [|done]. exists q. split_and!; [done|lia|done]. }
  rewrite E3 in *. apply dwarf_in_range in Esr. specialize (Hv q E1 E2 Esr).
  apply hold_update_table; [apply ok_ClobberWrittenReg, Hs|done|done|]. rewrite upd_same. cbn.
  pose proof (low_bound_holds m s (DWARFRegOf q) (op_size src) Hs Hm Esr (reg_u64 _ _ _ Hs Hm Esr) Hsz) as Hl.
  unfold low_bound in Hl. lia.
Qed.

Lemma hold_MovFull insn m s d src x :
  state_ok s → in_range d → is_u64 x → bounds_hold m s →
  (∀ q, op_kind src = OpReg q → IsFull64 q = true → in_range (DWARFRegOf q) →
     x = m_reg m (DWARFRegOf q)) →
  bounds_hold (upd d x m) (TransferMovFull insn d src s).
Proof.
  intros Hs Hd Hu Hm Hv. unfold TransferMovFull. destruct (op_kind src) as [q|mem| |].
  - destruct (_ && _) eqn:E; [|apply hold_set1; auto; apply Hs].
    apply andb_true_iff in E as [E1 E2]. apply dwarf_in_range in E1.
    rewrite (Hv q eq_refl E2 E1). apply hold_SetReg; auto; [apply Hs|]. by apply (bh_value _ _ Hm).
  - apply hold_set1; auto. apply Hs.
  - apply hold_clobber; auto. apply Hs.
  - apply hold_clobber; auto. apply Hs.
Qed.

Lemma hold_MovStore insn m s mem dst src :
  bounds_hold m s → bounds_hold m (TransferMovStore insn mem dst src s).
Proof.
  intros Hm. unfold TransferMovStore. case_match; [|done].
  assert (bounds_hold m (erase_operand z dst s)) by by apply hold_EraseSlots.
  repeat case_match; auto. by apply hold_SetSlot.
Qed.

Lemma hold_signed m s s1 d src src_bits x :
  state_ok s → wf_state s1 → in_range d → in_range src → is_u64 (m_reg m src) → 0 <= src_bits →
  bounds_hold m s → is_u64 x →
  (wraps src_bits (m_reg m src) = m_reg m src mod 2 ^ src_bits → x <= m_reg m src mod 2 ^ src_bits) →
  bounds_hold (upd d x m) s1 →
  bounds_hold (upd d x m)
    (update_table d (fun t => ApplySignExtendedFrom t (table s src) src_bits
                                (ProvenGuardBound s src src_bits)) s1).
Proof.
  intros Hs Hs1 Hd Hsrc Hu Hb Hm Hx Hv H1. apply hold_update_table; auto. rewrite upd_same.
  pose proof (low_bound_holds m s src src_bits Hs Hm Hsrc Hu Hb) as Hl. unfold low_bound in Hl.
  destruct (sign_extended_bound (table s1 d) (table s src) src_bits
    (ProvenGuardBound s src src_bits) (m_reg m src) Hl Hb) as [->|[H2 H3]].
  - unfold is_u64, kBoundTop in *. lia.
  - specialize (Hv H2). lia.
Qed.

(** A case that handled its instruction, which writes only its first operand. *)
Definition holds_first (insn : Instruction) (m : machine) (x : Z)
    (r : option (TransferOutcome * AbsState)) : Prop :=
  match r with
  | Some (_, st) => two_ops insn = true ∧ bounds_hold (upd (op_dwarf (operand insn 0)) x m) st
  | None => True
  end.

Lemma hold_TransferLea insn m s x :
  state_ok s → is_u64 x → bounds_hold m s → zero_extended (upd (op_dwarf (operand insn 0)) x m) (operand insn 0) →
  holds_first insn m x (TransferLea insn s).
Proof.
  intros Hs Hu Hm Hz. unfold TransferLea, holds_first, op_dwarf. destruct (two_ops insn); [|done].
  destruct (op_kind (operand insn 0)) as [r| | |] eqn:E0; try done.
  destruct (op_kind (operand insn 1)) as [|mem| |]; try done.
  destruct (DWARFRegOf r <? 0) eqn:Ed; [done|]. apply dwarf_in_range' in Ed.
  repeat case_match; simplify_eq; (split; [done|]).
  - apply hold_clobber_written; auto; [apply Hs|].
    pose proof (written_bound _ _ _ E0 Ed ltac:(rewrite <-(upd_same (DWARFRegOf r) x m) in Hu; exact Hu)) as Hb.
    rewrite upd_same in Hb. apply Hb. revert Hz. unfold op_dwarf. by rewrite E0.
  - apply hold_set_table; auto. apply Hs.
  - apply hold_set1; auto. apply Hs.
Qed.

Lemma hold_TransferTableLoad m s d mem x out st :
  state_ok s → in_range d → is_u64 x → bounds_hold m s →
  TransferTableLoad d mem s = Some (out, st) → bounds_hold (upd d x m) st.
Proof.
  intros Hs Hd Hu Hm. unfold TransferTableLoad. repeat case_match; intros; simplify_eq.
  apply hold_set_table; auto. apply Hs.
Qed.

Lemma hold_TransferMovsxd insn m s x :
  state_ok s → insn_wf insn → is_u64 x → bounds_hold m s →
  (∀ q, op_kind (operand insn 1) = OpReg q → in_range (DWARFRegOf q) →
     two_ops insn = true → IsFull64 (match op_kind (operand insn 0) with OpReg r => r | _ => ZR_NONE end) = true →
     in_range (op_dwarf (operand insn 0)) →
     x = u64 (wraps (op_size (operand insn 1)) (m_reg m (DWARFRegOf q)))) →
  holds_first insn m x (TransferMovsxd insn s).
Proof.
  intros Hs Hi Hu Hm Hv. pose proof (operand_size insn 1 Hi) as Hsz.
  unfold TransferMovsxd, holds_first, op_dwarf in *. destruct (two_ops insn); [|done].
  destruct (op_kind (operand insn 0)) as [r| | |]; try done.
  destruct (_ || _) eqn:Ed; [done|]. apply orb_false_iff in Ed as [Ed Ef].
  apply dwarf_in_range' in Ed. apply negb_false_iff in Ef.
  destruct (op_kind (operand insn 1)) as [q|mem| |]; try done.
  - split; [done|]. assert (bounds_hold (upd (DWARFRegOf r) x m) (ClobberReg (DWARFRegOf r) s))
      by (apply hold_clobber; auto; apply Hs).
    destruct (0 <=? DWARFRegOf q) eqn:Eq; [|done]. apply dwarf_in_range in Eq.
    pose proof (reg_u64 _ _ _ Hs Hm Eq) as Hq. apply hold_signed; auto; [apply ok_ClobberReg, Hs|lia|].
    intros Hw. rewrite (Hv q eq_refl Eq eq_refl Ef Ed), Hw.
    pose proof (mod_WidthBound (m_reg m (DWARFRegOf q)) (op_size (operand insn 1)) ltac:(lia) Hq).
    apply Z.mod_le; lia.
  - case_match eqn:E; [|done]. destruct p as [o st]. split; [done|]. by eapply hold_TransferTableLoad.
Qed.

Lemma resolve_bound a b t : resolve a b = Some t → value_bound t = kBoundTop.
Proof. unfold resolve. case_match; [|done]. by intros [= <-]. Qed.

Lemma dispatch_add_spec insn s d t :
  dispatch_add insn s = Some (d, t) →
  two_ops insn = true ∧ d = op_dwarf (operand insn 0) ∧ in_range d ∧ value_bound t = kBoundTop.
Proof.
  unfold dispatch_add, op_dwarf. destruct (_ && two_ops insn) eqn:E; [|done].
  apply andb_true_iff in E as [_ ->].
  destruct (op_kind (operand insn 0)) as [r| | |]; try done.
  destruct (op_kind (operand insn 1)) as [r1| | |]; try done.
  destruct (_ && IsFull64 r1) eqn:Ed; [|done]. rewrite !andb_true_iff in Ed.
  destruct Ed as [[[Ed _] _] _]. apply dwarf_in_range in Ed.
  repeat case_match; intros; simplify_eq; eauto using resolve_bound.
Qed.

Lemma hold_TransferAddSub insn m s x :
  state_ok s → is_u64 x → bounds_hold m s →
  zero_extended (upd (op_dwarf (operand insn 0)) x m) (operand insn 0) →
  holds_first insn m x (TransferAddSub insn s).
Proof.
  intros Hs Hu Hm Hz. unfold TransferAddSub. destruct (dispatch_add insn s) as [[d t]|] eqn:Ed.
  - apply dispatch_add_spec in Ed as (E2 & -> & Hd & Hb). split; [done|]. apply hold_set_table; auto. apply Hs.
  - unfold holds_first, op_dwarf. destruct (two_ops insn); [|done].
    destruct (op_kind (operand insn 0)) as [r| | |] eqn:E0; try done.
    destruct (op_kind (operand insn 1)) as [| |imm|]; try done.
    destruct (DWARFRegOf r <? 0) eqn:Er; [done|]. apply dwarf_in_range' in Er.
    assert (bounds_hold (upd (DWARFRegOf r) x m) (ClobberWrittenReg r (DWARFRegOf r) s)).
    { apply hold_clobber_written; auto; [apply Hs|].
      pose proof (written_bound (upd (DWARFRegOf r) x m) _ _ E0 Er) as Hb. rewrite upd_same in Hb.
      apply Hb; [done|]. revert Hz. unfold op_dwarf. by rewrite E0. }
    destruct (reg s (DWARFRegOf r)); try by split.
    destruct (IsFull64 r); (split; [done|]); [|done]. apply hold_set1; auto. apply Hs.
Qed.

Lemma hold_TransferMov insn m s x :
  state_ok s → insn_wf insn → is_u64 x → bounds_hold m s →
  zero_extended (upd (op_dwarf (operand insn 0)) x m) (operand insn 0) →
  (∀ q, op_kind (operand insn 1) = OpReg q → two_ops insn = true → in_range (op_dwarf (operand insn 0)) →
     32 <= op_width (operand insn 0) → in_range (DWARFRegOf q) →
     x = m_reg m (DWARFRegOf q) mod 2 ^ op_size (operand insn 1)) →
  (∀ r, op_kind (operand insn 0) = OpReg r → IsFull64 r = true → in_range (DWARFRegOf r) → 32 <= RegWidthBits r) →
  (∀ q, op_kind (operand insn 1) = OpReg q → IsFull64 q = true → op_size (operand insn 1) = 64) →
  holds_first insn m x (TransferMov insn s).
Proof.
  intros Hs Hi Hu Hm Hz Hv Hw Hsize. pose proof (operand_size insn 1 Hi) as Hsz.
  unfold TransferMov, holds_first, op_dwarf, op_width in *. destruct (two_ops insn); [|done]. cbn [negb].
  destruct (op_kind (operand insn 0)) as [r|mem| |] eqn:E0; try done.
  - destruct (DWARFRegOf r <? 0) eqn:Ed; [done|]. apply dwarf_in_range' in Ed.
    destruct (IsFull64 r) eqn:Ef; cbn [negb]; (split; [done|]).
    + apply hold_MovFull; auto. intros q Eq Eqf Hq.
      rewrite (Hv q Eq eq_refl Ed (Hw r eq_refl Ef Ed) Hq), (Hsize q Eq Eqf).
      apply mod_wide; [|lia]. by eapply reg_u64.
    + apply hold_MovNarrow; auto; [|lia|].
      * pose proof (written_bound (upd (DWARFRegOf r) x m) _ _ E0 Ed) as Hb. rewrite upd_same in Hb.
        apply Hb; [done|]. revert Hz. unfold zero_extended, op_width, op_dwarf. by rewrite E0.
      * intros q Eq Ew Hq. apply Hv; auto. lia.
  - split; [done|]. apply hold_out; [by apply ok_TransferMovStore|unfold in_range; lia|by apply hold_MovStore].
Qed.

(** Sign extension from something that is not a register leaves no bound. *)
Lemma sign_extended_load t bits : 0 <= bits →
  value_bound (ApplySignExtendedFrom t TableNone bits kBoundTop) = kBoundTop.
Proof.
  intros Hb. unfold ApplySignExtendedFrom. cbn [value_bound TableNone].
  destruct (_ || _) eqn:E; [done|]. exfalso. apply orb_false_iff in E as [E1%Z.leb_gt E2%Z.leb_gt].
  pose proof (WidthBound_u64 bits Hb). unfold WidthBound, is_u64 in *.
  assert ((64 <=? bits) = false) as E by lia. rewrite E in *. unfold kBoundTop in *.
  destruct (decide (bits = 0)) as [->|]; [cbn in E2; lia|].
  assert (2 ^ bits = 2 * 2 ^ (bits - 1)) by (rewrite <-Z.pow_succ_r by lia; f_equal; lia).
  assert (0 < 2 ^ (bits - 1)) by (apply Z.pow_pos_nonneg; lia). lia.
Qed.

(** The destination of [movzx] ([zero] set) or [movsx], before the bound of a
    32-bit write. *)
Definition widened (zero : bool) (s : AbsState) (src bits : Z) (t : TableVal) : TableVal :=
  (if zero then ApplyZeroExtendedFrom else ApplySignExtendedFrom) t (table s src) bits
    (if 0 <=? src then ProvenGuardBound s src bits else kBoundTop).

Lemma hold_widened m s s1 (zero : bool) d src bits x :
  state_ok s → wf_state s1 → in_range d → -1 <= src < kNumGPRs → 0 <= bits → bounds_hold m s → is_u64 x →
  (in_range src → if zero then x = m_reg m src mod 2 ^ bits
                  else wraps bits (m_reg m src) = m_reg m src mod 2 ^ bits → x <= m_reg m src mod 2 ^ bits) →
  (zero = true → x < 2 ^ bits) → bounds_hold (upd d x m) s1 →
  bounds_hold (upd d x m) (update_table d (widened zero s src bits) s1).
Proof.
  intros Hs Hs1 Hd Hsrc Hb Hm Hx Hv Hz H1. unfold widened.
  destruct (0 <=? src) eqn:E.
  - assert (in_range src) as Hr by (unfold in_range; lia). specialize (Hv Hr).
    pose proof (reg_u64 _ _ _ Hs Hm Hr) as Hu.
    destruct zero; [|by apply hold_signed]. apply hold_update_table; auto. rewrite upd_same. cbn.
    pose proof (low_bound_holds m s src bits Hs Hm Hr Hu Hb) as Hl. unfold low_bound in Hl. lia.
  - assert (table s src = TableNone) as -> by (unfold table, in_gprs; by rewrite E).
    apply hold_update_table; auto. rewrite upd_same. destruct zero.
    + specialize (Hz eq_refl). cbn. unfold WidthBound, is_u64, kBoundTop in *. case_match; lia.
    + rewrite sign_extended_load by done. unfold is_u64, kBoundTop in *. lia.
Qed.

Lemma hold_TransferWiden insn m s x :
  state_ok s → insn_wf insn → is_u64 x → bounds_hold m s →
  zero_extended (upd (op_dwarf (operand insn 0)) x m) (operand insn 0) →
  (two_ops insn = true → in_range (op_dwarf (operand insn 0)) → 32 <= op_width (operand insn 0) →
     in_range (op_dwarf (operand insn 1)) →
     let y := m_reg m (op_dwarf (operand insn 1)) in
     let bits := op_size (operand insn 1) in
     if bool_decide (in_id insn = M_MOVZX) then x = y mod 2 ^ bits
     else wraps bits y = y mod 2 ^ bits → x <= y mod 2 ^ bits) →
  (two_ops insn = true → in_id insn = M_MOVZX → in_range (op_dwarf (operand insn 0)) →
     32 <= op_width (operand insn 0) → x < 2 ^ op_size (operand insn 1)) →
  holds_first insn m x (TransferWiden insn s).
Proof.
  intros Hs Hi Hu Hm Hz Hv Hl. pose proof (operand_size insn 1 Hi) as Hsz.
  unfold TransferWiden, holds_first. destruct (two_ops insn); [|done].
  unfold op_dwarf at 1 in Hv. unfold op_dwarf at 1 in Hl. unfold op_dwarf at 1 in Hz. unfold op_dwarf at 1.
  unfold op_width in *.
  destruct (op_kind (operand insn 0)) as [r| | |] eqn:E0; try done.
  destruct (DWARFRegOf r <? 0) eqn:Ed; [done|]. apply dwarf_in_range' in Ed.
  assert (0 <= x <= WrittenRegBound r) as Hx.
  { pose proof (written_bound (upd (DWARFRegOf r) x m) _ _ E0 Ed) as Hb. rewrite upd_same in Hb. by apply Hb. }
  assert (bounds_hold (upd (DWARFRegOf r) x m) (ClobberWrittenReg r (DWARFRegOf r) s)) as Hc
    by (apply hold_clobber_written; auto; apply Hs).
  assert (wf_state (ClobberWrittenReg r (DWARFRegOf r) s)) as Hc1 by apply ok_ClobberWrittenReg, Hs.
  set (src := op_dwarf (operand insn 1)) in *. set (bits := op_size (operand insn 1)) in *.
  assert (32 <= RegWidthBits r →
    bounds_hold (upd (DWARFRegOf r) x m)
      (update_table (DWARFRegOf r) (tv_ApplyValueBound (WrittenRegBound r))
        (update_table (DWARFRegOf r) (widened (bool_decide (in_id insn = M_MOVZX)) s src bits)
           (ClobberWrittenReg r (DWARFRegOf r) s)))) as Hw.
  { intros Hwd. assert (-1 <= src < kNumGPRs) as Hsrc.
    { unfold src, op_dwarf. destruct (op_kind (operand insn 1)); try (unfold kNumGPRs; lia). apply DWARFRegOf_range. }
    assert (bounds_hold (upd (DWARFRegOf r) x m)
      (update_table (DWARFRegOf r) (widened (bool_decide (in_id insn = M_MOVZX)) s src bits)
         (ClobberWrittenReg r (DWARFRegOf r) s))) as H2.
    { apply hold_widened; auto; [lia| |intros Hz1%bool_decide_eq_true; auto].
      intros Hr. specialize (Hv eq_refl Ed Hwd Hr). exact Hv. }
    apply hold_update_table; auto.
    - apply wf_alter_tbl; [done|]. intros t Ht. unfold widened.
      assert (is_u64 (if 0 <=? src then ProvenGuardBound s src bits else kBoundTop)).
      { destruct (0 <=? src); auto with uw. apply ProvenGuardBound_u64; [done|lia]. }
      destruct (bool_decide (in_id insn = M_MOVZX)).
      + apply tv_ok_zero_extended; auto with uw; lia.
      + apply tv_ok_sign_extended; auto with uw; lia.
    - pose proof (bh_value _ _ H2 _ Ed) as Hb. rewrite upd_same in *. cbn. lia. }
  assert (src = match op_kind (operand insn 1) with OpReg q => DWARFRegOf q | _ => -1 end) as Esrc by done.
  clearbody src. destruct (op_kind (operand insn 1)) as [q|mem| |] eqn:E1; try done; rewrite <-Esrc.
  all: destruct (RegWidthBits r <? 32) eqn:Ew; (split; [done|]); [exact Hc|].
  all: assert (32 <= RegWidthBits r) as Hwd by lia; specialize (Hw Hwd); unfold widened in Hw.
  all: by destruct (bool_decide (in_id insn = M_MOVZX)).
Qed.

(** *** The stack instructions *)

(** Nothing is claimed of a register: it can be changed silently. *)
Definition unclaimed (s : AbsState) (r : Z) : Prop :=
  value_bound (table s r) = kBoundTop ∧ ∀ g, last_cmp s = Some g → fg_reg g ≠ r.

(** [push], [pop] and [leave] move the stack pointer without touching its
    bounds when it is not CFA-relative; that is sound when it has none. *)
Definition stack_plain (insn : Instruction) (s : AbsState) : Prop :=
  match in_id insn with
  | M_PUSH | M_PUSHFQ | M_POP | M_POPFQ =>
      (∃ d, reg s kDWARFRsp = CFARel d) ∨ unclaimed s kDWARFRsp
  | M_LEAVE => (∃ d, reg s kDWARFRbp = CFARel d) ∨ unclaimed s kDWARFRbp
  | _ => True
  end.

Lemma rsp_in_range : in_range kDWARFRsp.
Proof. unfold in_range, kDWARFRsp, kNumGPRs. lia. Qed.
Lemma rbp_in_range : in_range kDWARFRbp.
Proof. unfold in_range, kDWARFRbp, kNumGPRs. lia. Qed.

Lemma hold_unclaimed m s r x :
  in_range r → unclaimed s r → is_u64 x → bounds_hold m s → bounds_hold (upd r x m) s.
Proof.
  intros Hr [Ht Hc] Hx [Hv Hg]. split.
  - intros q Hq. cbn. case_match; [|by apply Hv]. assert (q = r) as -> by lia.
    rewrite Ht. unfold is_u64, kBoundTop in *. lia.
  - intros g E. specialize (Hg g E). specialize (Hc g E). unfold guard_holds in *. cbn.
    assert ((fg_reg g =? r) = false) as -> by lia. done.
Qed.

Lemma reg_SetReg r v t s : wf_state s → in_range r → reg (SetReg r v t s) r = v.
Proof.
  intros [] Hr. assert (gpr (SetReg r v t s) = <[Z.to_nat r := v]> (gpr s)) as E.
  { unfold SetReg, InvalidateLastCmpFor. by repeat case_match. }
  unfold reg. rewrite in_gprs_true, E by done. unfold in_range, kNumGPRs in *.
  by rewrite list_lookup_insert_eq by lia.
Qed.

Lemma hold_TransferPush insn m s x :
  state_ok s → is_u64 x → (∃ d, reg s kDWARFRsp = CFARel d) ∨ unclaimed s kDWARFRsp →
  bounds_hold m s → bounds_hold (upd kDWARFRsp x m) (TransferPush insn s).2.
Proof.
  intros Hs Hu Hp Hm. pose proof rsp_in_range. unfold TransferPush.
  destruct (_ && _); cbn [snd]; [apply hold_clobber; auto; apply Hs|].
  destruct (reg s kDWARFRsp) eqn:E; cbn [snd].
  3: apply hold_SetSlot, hold_set1; auto; apply Hs.
  all: destruct Hp as [[? ?]|]; [congruence|apply hold_unclaimed; auto].
Qed.

Lemma hold_store_popped insn m s v x :
  state_ok s → (in_range (op_dwarf (operand insn 0)) → is_u64 x) → bounds_hold m s →
  in_id insn = M_POP → bounds_hold (upd (op_dwarf (operand insn 0)) x m) (store_popped insn v s).
Proof.
  intros Hs Hu Hm Eid. unfold store_popped, op_dwarf in *. rewrite Eid. cbn.
  assert (¬ in_range (-1)) as Hn by (unfold in_range; lia).
  destruct (op_kind (operand insn 0)) as [r|mem| |]; try by apply hold_out.
  - destruct (0 <=? DWARFRegOf r) eqn:Ed.
    + apply dwarf_in_range in Ed. apply hold_set1; auto. apply Hs.
    + apply hold_out; [done|unfold in_range; lia|done].
  - destruct (MemSlot s insn mem); [|by apply hold_out].
    assert (bounds_hold (upd (-1) x m) s) by by apply hold_out. by apply hold_SetSlot.
Qed.

Definition pop_regs (insn : Instruction) : list Z :=
  if bool_decide (in_id insn = M_POP) then [kDWARFRsp; op_dwarf (operand insn 0)] else [kDWARFRsp].

Lemma hold_TransferPop insn m m' s :
  state_ok s → (∀ r, in_range r → is_u64 (m_reg m' r)) →
  (∃ d, reg s kDWARFRsp = CFARel d) ∨ unclaimed s kDWARFRsp →
  review_reason (TransferPop insn s).1 = "" → bounds_hold m s →
  bounds_hold (upds m' (pop_regs insn) m) (TransferPop insn s).2.
Proof.
  intros Hs Hu Hp Hrev Hm. pose proof rsp_in_range as Hr. unfold TransferPop in *.
  destruct (_ && _); [done|].
  assert (∀ st v, state_ok st → bounds_hold (upd kDWARFRsp (m_reg m' kDWARFRsp) m) st →
    bounds_hold (upds m' (pop_regs insn) m) (store_popped insn v st)) as Hfin.
  { intros st v Hst Hb. unfold pop_regs. case_bool_decide as E.
    - apply (hold_store_popped insn (upd kDWARFRsp (m_reg m' kDWARFRsp) m)); auto.
    - unfold store_popped. by rewrite bool_decide_eq_false_2. }
  destruct (reg s kDWARFRsp) eqn:E; cbn [snd]; apply Hfin; auto with uw.
  3: apply hold_set1; auto; apply Hs.
  all: destruct Hp as [[? ?]|]; [congruence|apply hold_unclaimed; auto].
Qed.

Lemma hold_TransferLeave m m' s :
  state_ok s → (∀ r, in_range r → is_u64 (m_reg m' r)) →
  (∃ d, reg s kDWARFRbp = CFARel d) ∨ unclaimed s kDWARFRbp → bounds_hold m s →
  bounds_hold (upds m' [kDWARFRbp; kDWARFRsp] m) (TransferLeave s).2.
Proof.
  intros Hs Hu Hp Hm. pose proof rsp_in_range as Hr. pose proof rbp_in_range as Hb.
  unfold TransferLeave. set (s1 := CopyReg kDWARFRsp kDWARFRbp s).
  assert (state_ok s1) as Hs1 by by apply ok_CopyReg.
  assert (reg s1 kDWARFRsp = reg s kDWARFRbp) as Ereg by (apply reg_SetReg; [apply Hs|done]).
  assert (∀ st, (∃ d, st = SetReg1 kDWARFRsp (CFARel (s64 (d + 8))) (SetReg1 kDWARFRbp (Slot s1 d) s1)) →
    bounds_hold (upds m' [kDWARFRbp; kDWARFRsp] m) st) as Hcfa.
  { intros st [d ->]. assert (bounds_hold (upd kDWARFRsp (m_reg m kDWARFRbp) m) s1) as H1
      by (apply hold_SetReg; auto; [apply Hs|by apply (bh_value _ _ Hm)]).
    pose proof (hold_set1 _ s1 _ (Slot s1 d) _ (proj1 Hs1) Hb H1 (Hu _ Hb)) as H2.
    assert (state_ok (SetReg1 kDWARFRbp (Slot s1 d) s1)) as Hs2 by auto with uw.
    pose proof (hold_set1 _ _ _ (CFARel (s64 (d + 8))) _ (proj1 Hs2) Hr H2 (Hu _ Hr)) as H3.
    revert H3. apply bounds_hold_ext; auto with uw; try done. intros q _. cbn. by repeat case_match. }
  rewrite Ereg. destruct (reg s kDWARFRbp) eqn:E; cbn [snd]; try (apply Hcfa; by eexists).
  all: destruct Hp as [[? ?]|[Ht Hc]]; [congruence|].
  all: assert (bounds_hold (upd kDWARFRsp (m_reg m' kDWARFRsp) m) s1) as H1
    by (apply hold_SetReg; auto; [apply Hs|rewrite Ht; specialize (Hu _ Hr); unfold is_u64, kBoundTop in *; lia]).
  all: pose proof (hold_clobber _ s1 _ _ (proj1 Hs1) Hb H1 (Hu _ Hb)) as H2.
  all: revert H2; apply bounds_hold_ext; auto with uw; try done; intros q _; cbn;
    destruct (q =? kDWARFRbp) eqn:E1, (q =? kDWARFRsp) eqn:E2; try done; unfold kDWARFRbp, kDWARFRsp in *; lia.
Qed.

Lemma hold_TransferCmp insn m s :
  state_ok s → bounds_hold m s →
  (∀ v, two_ops insn = true → in_range (op_dwarf (operand insn 0)) → op_kind (operand insn 1) = OpImm v →
    let w := u8 (op_size (operand insn 0)) in
    let x := m_reg m (op_dwarf (operand insn 0)) mod 2 ^ w in
    m_cf m = (x <? u64 v mod 2 ^ w) ∧ m_zf m = (x =? u64 v mod 2 ^ w)) →
  bounds_hold m (TransferCmp insn s).2.
Proof.
  intros Hs Hm Hv. unfold TransferCmp, op_dwarf in *. destruct (two_ops insn); [|done].
  destruct (op_kind (operand insn 0)) as [r| | |]; try done.
  destruct (op_kind (operand insn 1)) as [| |v|]; try done.
  destruct (0 <=? DWARFRegOf r) eqn:Ed; [|done]. cbn [snd].
  specialize (Hv v eq_refl (dwarf_in_range _ Ed) eq_refl). cbv zeta in Hv.
  set (w := u8 (op_size (operand insn 0))) in *. pose proof (u8_range (op_size (operand insn 0))) as Hw.
  split; [apply Hm|]. intros g [= <-]. unfold guard_holds, proven. cbn [fg_proven_bound].
  rewrite Z.eqb_refl. cbn [negb fg_reg fg_width_bits fg_imm].
  assert ((if w <? 64 then Z.land (u64 v) (2 ^ w - 1) else u64 v) = u64 v mod 2 ^ w) as ->; [|done].
  destruct (w <? 64) eqn:E.
  - assert (2 ^ w - 1 = Z.ones w) as -> by (rewrite Z.ones_equiv; lia).
    apply Z.land_ones. unfold w, is_u8 in *; lia.
  - symmetry. apply mod_wide; [apply u64_range|lia].
Qed.

(** *** All of them *)

(** What Zydis documents about the operands of an instruction. *)
Record documented (insn : Instruction) : Prop := {
  doc_wf : insn_wf insn;
  doc_dest : one_dest insn;
  doc_size : ∀ q, op_kind (operand insn 1) = OpReg q → IsFull64 q = true → op_size (operand insn 1) = 64
}.

Lemma full_width `{!ZydisLaws} r : IsFull64 r = true → DWARFRegOf r ≠ -1 → 32 <= RegWidthBits r.
Proof.
  unfold IsFull64, DWARFRegOf, RegWidthBits, reg_info.
  destruct (gpr_index 0 kDwarfGprs (GetLargestEnclosing r)) as [i|] eqn:E; cbn; [|done].
  intros Hp%bool_decide_eq_true _. rewrite (width_gpr r); [done|]. rewrite <-Hp.
  revert E. generalize 0, kDwarfGprs. intros i0 l. revert i0.
  induction l as [|g l IH]; intros i0; cbn; [done|]. case_bool_decide; [intros; subst; by left|].
  intros. right. by eapply IH.
Qed.

Lemma hold_expire insn m m' s :
  effect insn m m' → state_ok s → bounds_hold m s →
  state_ok (expire_last_cmp insn s) ∧ bounds_hold (reflagged m m') (expire_last_cmp insn s).
Proof.
  intros He Hs Hm. unfold expire_last_cmp.
  assert (∀ g, last_cmp s = Some g → proven g = true → guard_holds (reflagged m m') g) as Hp.
  { intros g E Ep. pose proof (bh_guard _ _ Hm _ E) as Hg. unfold guard_holds in *. by rewrite Ep in *. }
  destruct (WritesEflags insn) eqn:Ew; cbn [andb].
  - destruct (last_cmp s) as [g|] eqn:Ec; cbn [negb]; [destruct (proven g) eqn:Epr; cbn [negb]|].
    + split; [done|]. split; [apply Hm|]. intros g' Eg. apply Hp; congruence.
    + split; [auto with uw|]. split; [apply Hm|done].
    + split; [auto with uw|]. split; [apply Hm|done].
  - split; [done|]. destruct (ef_flags _ _ _ He Ew) as [H1 H2].
    by apply (bounds_hold_ext m); [done| |symmetry|symmetry|].
Qed.

(** A handled two-operand instruction. *)
Lemma hold_handled insn m m' st out r :
  effect insn m m' → one_dest insn → writes_first (in_id insn) = true →
  written_regs insn = op_regs (written_ops insn) →
  state_ok st → r = Some (out, st) →
  holds_first insn (reflagged m m') (m_reg m' (op_dwarf (operand insn 0))) r →
  bounds_hold m' st.
Proof.
  intros He Hd Hw Hr Hst -> [H2 Hb]. destruct (Hd Hw H2) as [_ Hone].
  apply (hold_finish insn m m' [op_dwarf (operand insn 0)]); try done.
  intros q Hq. rewrite Hr. unfold op_regs. intros (op & -> & Hop)%list_elem_of_fmap.
  rewrite (Hone op Hop Hq). by left.
Qed.

Lemma dest_zero_extended insn m m' :
  effect insn m m' → one_dest insn → writes_first (in_id insn) = true → two_ops insn = true →
  written_regs insn = op_regs (written_ops insn) →
  zero_extended (upd (op_dwarf (operand insn 0)) (m_reg m' (op_dwarf (operand insn 0))) (reflagged m m'))
    (operand insn 0).
Proof.
  intros He Hd Hw H2 Hr Hwd Hin. rewrite upd_same. destruct (Hd Hw H2) as [Hop _]. specialize (Hop Hin).
  apply (ef_zero32 _ _ _ He); auto. rewrite Hr. by apply list_elem_of_fmap_2.
Qed.

Lemma stack_plain_expire insn s : stack_plain insn s → stack_plain insn (expire_last_cmp insn s).
Proof.
  assert (∀ r, unclaimed s r → unclaimed (expire_last_cmp insn s) r) as Hu.
  { intros r [Ht Hc]. unfold expire_last_cmp. case_match; [|by split]. by split. }
  assert (∀ r, reg (expire_last_cmp insn s) r = reg s r) as Hr.
  { intros r. unfold expire_last_cmp. by case_match. }
  unfold stack_plain. case_match; rewrite ?Hr; intuition auto.
Qed.

Lemma written_default insn :
  is_return_id (in_id insn) = false → is_branch insn = false → is_stop_id (in_id insn) = false →
  writes_first (in_id insn) = true → written_regs insn = op_regs (written_ops insn).
Proof. intros H1 H2 H3 Hw. unfold written_regs. rewrite H1, H2, H3. cbn. by destruct (in_id insn). Qed.

Lemma written_unhandled insn s :
  is_return_id (in_id insn) = false → is_branch insn = false → is_stop_id (in_id insn) = false →
  TransferCase insn s = None → written_regs insn = op_regs (written_ops insn).
Proof.
  intros H1 H2 H3 Hc. unfold written_regs, TransferCase in *. rewrite H1, H2, H3. cbn.
  by destruct (in_id insn).
Qed.

Lemma op_dwarf_reg op q : op_kind op = OpReg q → op_dwarf op = DWARFRegOf q.
Proof. unfold op_dwarf. by intros ->. Qed.

(** The cases that write their first operand. *)
Lemma hold_writes_first `{!ZydisLaws} insn m m' s :
  effect insn m m' → documented insn → state_ok s → bounds_hold (reflagged m m') s →
  writes_first (in_id insn) = true → written_regs insn = op_regs (written_ops insn) →
  holds_first insn (reflagged m m') (m_reg m' (op_dwarf (operand insn 0)))
    (TransferCase insn s).
Proof.
  intros He [Hwf Hd Hsz] Hs Hm Hw Hr.
  pose proof (ef_range _ _ _ He (op_dwarf (operand insn 0))) as Hu.
  destruct (two_ops insn) eqn:E2.
  2: { unfold TransferCase, TransferLea, TransferMov, TransferMovsxd, TransferAddSub, TransferWiden,
         dispatch_add. rewrite E2, ?andb_false_r. by destruct (in_id insn). }
  pose proof (dest_zero_extended insn m m' He Hd Hw E2 Hr) as Hz.
  pose proof (ef_move _ _ _ He) as Hmove. pose proof (ef_load _ _ _ He) as Hload.
  assert (∀ r, op_kind (operand insn 0) = OpReg r → IsFull64 r = true →
    in_range (DWARFRegOf r) → 32 <= RegWidthBits r) as Hfull.
  { intros r _ Ef Hin. apply full_width; [done|]. unfold in_range in Hin. lia. }
  unfold TransferCase. destruct (in_id insn) eqn:Eid; try done.
  - by apply hold_TransferLea.
  - apply hold_TransferMov; auto. intros q Eq. rewrite <-(op_dwarf_reg _ _ Eq). auto.
  - apply hold_TransferMov; auto. intros q Eq. rewrite <-(op_dwarf_reg _ _ Eq). auto.
  - apply hold_TransferMovsxd; auto. intros q Eq Hq _ Ef Hin. rewrite <-(op_dwarf_reg _ _ Eq) in *.
    apply Hmove; auto. unfold op_width, op_dwarf in *. destruct (op_kind (operand insn 0)) as [r| | |];
      try (unfold in_range in Hin; lia). by apply (Hfull r).
  - by apply hold_TransferAddSub.
  - by apply hold_TransferAddSub.
  - apply hold_TransferWiden; auto. rewrite Eid. cbn. intros. by apply Hmove.
  - apply hold_TransferWiden; auto; [|congruence]. rewrite Eid. cbn. intros _ Hin Hwd Hq Hy.
    rewrite (Hmove _ E2 Hin Hwd Hq eq_refl), Hy. unfold wrapu. apply Z.mod_le; [|apply Z.pow_pos_nonneg; lia].
    apply Z.mod_pos_bound, Z.pow_pos_nonneg; [lia|].
    by destruct (operand_size insn 1 Hwf).
Qed.

(** The cases that do not write their first operand. *)
Lemma hold_other_cases insn m m' s r :
  effect insn m m' → state_ok s → insn_wf insn → stack_plain insn s → bounds_hold (reflagged m m') s →
  is_return_id (in_id insn) = false → is_branch insn = false → is_stop_id (in_id insn) = false →
  writes_first (in_id insn) = false → TransferCase insn s = Some r → review_reason r.1 = "" →
  bounds_hold m' r.2.
Proof.
  intros He Hs Hwf Hst Hm H1 H2 H3 Hw Hc Hrev.
  pose proof (ok_TransferCase insn s Hs Hwf) as Hok. rewrite Hc in Hok. cbn [ok_case] in Hok.
  pose proof (ef_range _ _ _ He) as Hu.
  assert (∀ l, written_regs insn = l → bounds_hold (upds m' l (reflagged m m')) r.2 → bounds_hold m' r.2)
    as Hfin.
  { intros l Hl. apply (hold_finish insn m m' l); try done. intros q _. by rewrite Hl. }
  unfold TransferCase in Hc. unfold written_regs in Hfin. rewrite H1, H2, H3 in Hfin. cbn [orb] in Hfin.
  unfold stack_plain in Hst.
  destruct (in_id insn) eqn:Eid; try done; injection Hc as <-; eapply Hfin; try done;
    try (by apply hold_call).
  - by apply hold_TransferPush.
  - by apply hold_TransferPush.
  - apply (hold_TransferPop insn (reflagged m m') m') in Hm; auto.
    unfold pop_regs in Hm. by rewrite Eid in Hm.
  - apply (hold_TransferPop insn (reflagged m m') m') in Hm; auto.
    unfold pop_regs in Hm. by rewrite Eid in Hm.
  - by apply hold_TransferLeave.
  - apply hold_TransferCmp; auto. intros v E2 Hin Ev. by apply (ef_cmp _ _ _ He v).
Qed.
End Transfer.


(** ** Concrete instances *)

From S2P Require Import ZydisSample.

Definition sample_insn (code : list Z) : Instruction :=
  default (mkInsn 0 0 M_NOP 0 [] (mkZInsn 0 M_NOP 0 0 0 (C_other 0) false None)) (Decode code 0x1000).
Definition movzbl_cl_eax : Instruction := Eval vm_compute in sample_insn [0x0F; 0xB6; 0xC1].
Definition ja_5 : Instruction := Eval vm_compute in sample_insn [0x77; 5].

(** rcx is 0x1234 and, after [movzbl %cl,%eax], rax is 0x34. *)
Definition machine_before : machine := mkMachine (fun r => if r =? 2 then 0x1234 else 0) true false.
Definition machine_after : machine := upd 0 0x34 machine_before.

Lemma table_Entry r : table Entry r = TableNone.
Proof.
  unfold table. case_match; [|done]. cbn [tbl Entry].
  destruct (replicate 16 TableNone !! Z.to_nat r) eqn:E; [|done]. by apply lookup_replicate in E as [-> _].
Qed.

Lemma state_ok_Entry : state_ok Entry.
Proof. split; [apply wf_Entry|done]. Qed.

Lemma bounds_hold_Entry m : (∀ r, is_u64 (m_reg m r)) → bounds_hold m Entry.
Proof.
  intros Hu. split; [|done]. intros r _. rewrite table_Entry. specialize (Hu r).
  cbn. unfold is_u64, kBoundTop in *. lia.
Qed.

Lemma machine_before_u64 r : is_u64 (m_reg machine_before r).
Proof. cbn. case_match; unfold is_u64; lia. Qed.

Lemma movzbl_effect : effect movzbl_cl_eax machine_before machine_after.
Proof.
  split.
  - intros r. cbn. repeat case_match; unfold is_u64; lia.
  - intros r Hr Hn. cbn. case_match eqn:E; [|done]. exfalso. apply Hn.
    assert (r = 0) as -> by lia. apply (bool_decide_unpack _). by vm_compute.
  - done.
  - intros op Hop _ _ _. assert (written_ops movzbl_cl_eax = [op_reg eax true]) as E by by vm_compute.
    rewrite E in Hop. apply list_elem_of_singleton in Hop as ->. vm_compute. done.
  - intros x _ _ _ _ E. vm_compute in E. injection E as <-. by vm_compute.
  - intros _ _ _ _. by vm_compute.
  - intros v _ E. discriminate E.
Qed.

Lemma movzbl_documented : documented movzbl_cl_eax.
Proof.
  split.
  - repeat constructor; cbn; lia.
  - intros _ _. assert (written_ops movzbl_cl_eax = [op_reg eax true]) as -> by by vm_compute.
    split; [intros _; by left|]. intros op ->%list_elem_of_singleton _. done.
  - intros q [= <-] E. vm_compute in E. discriminate E.
Qed.


(** After [cmp $5,%eax] with rax = 3. *)
Definition compared : AbsState := with_last_cmp (Some (mkGuard 0 32 5 kBoundTop)) Entry.
Definition machine_compared : machine := mkMachine (fun r => if r =? 0 then 3 else 0) true false.

Lemma compared_ok : state_ok compared ∧ bounds_hold machine_compared compared.
Proof.
  split.
  - split; [apply wf_with_last_cmp, wf_Entry|]. cbn. split_and!; unfold is_u64, kBoundTop, kNumGPRs; cbn; lia.
  - split.
    + intros r _. change (table compared r) with (table Entry r). rewrite table_Entry. cbn.
      unfold kBoundTop. case_match; lia.
    + intros g [= <-]. split; by vm_compute.
Qed.



(** ** A bound that is not one

    A table entry's [table_bound] is the bound of the index it was loaded
    with, but a 32-bit move copies it as a bound of the moved value. *)

Definition mov_eax_ecx : Instruction :=
  mkInsn 0x1000 2 M_MOV 2 [op_reg ecx true; op_reg eax false]
    (mkZInsn 2 M_MOV 2 2 32 (C_other 0) false no_flags).
Definition loaded : AbsState := SetTableReg 0 (TableEntry 0x2000 1 0x2000 3) Entry.
Definition machine_loaded : machine := mkMachine (fun r => if r =? 0 then 0x1234 else 0) false false.

(** After a table load whose index is at most 3 and [mov %eax,%ecx], the
    state claims a compiler-declared bound of 3 for rcx, although rcx holds
    the entry (here 0x1234), which nothing bounds. *)
Lemma entry_bound_leaks :
  bounds_hold machine_loaded loaded ∧
  effect mov_eax_ecx machine_loaded (upd 2 0x1234 machine_loaded) ∧
  tv_id (table (Transfer mov_eax_ecx loaded).2 2) = T_None ∧
  table_bound (table (Transfer mov_eax_ecx loaded).2 2) = 3 ∧
  HasTableBound (table (Transfer mov_eax_ecx loaded).2 2) = true.
Proof.
  split; [|split; [|split_and!; vm_compute; reflexivity]].
  - split; [|done]. intros r Hr. unfold loaded, SetTableReg. rewrite SetReg_table; [|apply wf_Entry|done..].
    rewrite table_Entry. cbn [machine_loaded m_reg]. unfold kBoundTop.
    destruct (r =? 0); split; by vm_compute.
  - split.
    + intros r. cbn. repeat case_match; unfold is_u64; lia.
    + intros r Hr Hn. cbn. case_match eqn:E; [|done]. exfalso. apply Hn.
      assert (r = 2) as -> by lia. apply (bool_decide_unpack _). by vm_compute.
    + done.
    + intros op Hop _ _ _. assert (written_ops mov_eax_ecx = [op_reg ecx true]) as E by by vm_compute.
      rewrite E in Hop. apply list_elem_of_singleton in Hop as ->. by vm_compute.
    + intros x _ _ _ _ E. vm_compute in E. injection E as <-. by vm_compute.
    + intros _ E. discriminate E.
    + intros v _ E. discriminate E.
Qed.
