(* ===== verification/ElfImage.v ===== *)
(** * The loaded binary

    Models [src/elf-image.h] and [src/elf-image.cc]: the segments and their
    range queries, the bytes at an address, and [ELFImage::Open], which
    validates the ELF header, lays the PT_LOADs out in one reservation,
    reads the section and symbol tables and finds .eh_frame.  A [StatusOr]
    is a [res] whose message is the status text.  The file is the list of
    its bytes; the addresses [mmap] returns, and whether it fails, are
    parameters of [Open]. *)

From stdpp Require Import sorting.
From S2P Require Import Prelude EhFrame.

Record LoadSegment := mkSeg {
  seg_vaddr : Z;
  seg_memsz : Z;
  seg_filesz : Z;
  seg_offset : Z;
  seg_flags : Z
}.

Record FuncSymbol := mkSym { sym_vaddr : Z; sym_size : Z; sym_name : list Z }.

Record ELFImage := mkImage {
  im_path : string;
  im_bias : Z;
  im_segments : list LoadSegment;
  im_symbols : list FuncSymbol;
  im_eh_frame_start : Z;
  im_eh_frame_end : Z;
  im_eh_frame_hdr : Z;
  im_plt_ranges : list (Z * Z);
  im_has_debug_line : bool;
  im_has_debug_link : bool;
  im_mem : Z → Z            (* the byte mapped at an image address *)
}.

(** ** Arithmetic helpers *)

Definition kPageSize : Z := 4096.
Definition RoundDown (v align : Z) : Z := Z.land v (u64 (Z.lnot (align - 1))).
Definition RoundUp (v align : Z) : Z := RoundDown (u64 (v + align - 1)) align.
Definition FitsIn (off len size : Z) : bool := (off <=? size) && (len <=? size - off).

(** ** Queries *)

Definition executable (s : LoadSegment) : bool := negb (Z.land (seg_flags s) 1 =? 0).

Definition Contains (s : LoadSegment) (addr size : Z) : bool :=
  if addr <? seg_vaddr s then false
  else let off := addr - seg_vaddr s in (off <=? seg_memsz s) && (size <=? seg_memsz s - off).

Definition ToImage (im : ELFImage) (vaddr : Z) : Z := u64 (vaddr + im_bias im).
Definition ToVaddr (im : ELFImage) (image_addr : Z) : Z := u64 (image_addr - im_bias im).
Definition has_eh_frame (im : ELFImage) : bool := im_eh_frame_start im <? im_eh_frame_end im.
Definition has_debug_info (im : ELFImage) : bool := im_has_debug_line im || im_has_debug_link im.

Definition IsExecutable (im : ELFImage) (vaddr size : Z) : bool :=
  existsb (fun s => executable s && Contains s vaddr size) (im_segments im).

(** One turn of [IsFileBackedNonExecutable]'s loop. *)
Definition file_backed (vaddr size : Z) (s : LoadSegment) : bool :=
  if executable s || (vaddr <? seg_vaddr s) then false
  else
    let off := vaddr - seg_vaddr s in
    negb ((seg_filesz s <? off) || (seg_filesz s - off <? size)).
Definition IsFileBackedNonExecutable (im : ELFImage) (vaddr size : Z) : bool :=
  existsb (file_backed vaddr size) (im_segments im).

Definition InPLT (im : ELFImage) (vaddr size : Z) : bool :=
  existsb (fun '(s, e) =>
    if vaddr <? s then false
    else let off := vaddr - s in
         let range := u64 (e - s) in (off <=? range) && (size <=? range - off))
    (im_plt_ranges im).

(** How many bytes of [[vaddr, vaddr + size)] a segment has in the file. *)
Fixpoint bytes_avail (segs : list LoadSegment) (vaddr size : Z) : option Z :=
  match segs with
  | [] => None
  | s :: segs =>
      if vaddr <? seg_vaddr s then bytes_avail segs vaddr size
      else
        let off := vaddr - seg_vaddr s in
        if seg_filesz s <=? off then bytes_avail segs vaddr size
        else Some (Z.min size (seg_filesz s - off))
  end.

Definition BytesAt (im : ELFImage) (vaddr size : Z) : list Z :=
  match bytes_avail (im_segments im) vaddr size with
  | Some avail => im_mem im <$> seqZ (ToImage im vaddr) avail
  | None => []
  end.

(** ** Pointers of .eh_frame_hdr *)

(** [DecodeEhPtr] on the bytes available; the consumed count, which no caller
    reads, is left out. *)
Definition DecodeEhPtr (data : list Z) (data_vaddr encoding : Z) : option Z :=
  let lo := Z.land encoding 0x0f in
  let hi := Z.land encoding 0xf0 in
  let load (n : nat) (sign : bool) : option Z :=
    if bool_decide (length data < n)%nat then None
    else
      let raw := le_value (take n data) in
      if sign && (n <? 8)%nat && (2 ^ (8 * Z.of_nat n - 1) <=? raw)
      then Some (raw + (2 ^ 64 - 2 ^ (8 * Z.of_nat n))) else Some raw in
  let raw :=
    if lo =? DW_EH_PE_sdata4 then load 4%nat true
    else if lo =? DW_EH_PE_udata4 then load 4%nat false
    else if (lo =? DW_EH_PE_sdata8) || (lo =? DW_EH_PE_udata8) || (lo =? DW_EH_PE_absptr)
    then load 8%nat false
    else None in
  if hi =? DW_EH_PE_pcrel then (fun r => u64 (data_vaddr + r)) <$> raw
  else if negb (hi =? 0) then None
  else raw.

(** ** The file *)

(** [n] bytes of the file at [off], as the little-endian integer a struct
    field copied out of it has. *)
Definition field (file : list Z) (off : Z) (n : nat) : Z :=
  le_value (take n (drop (Z.to_nat off) file)).

Definition str_bytes (s : string) : list Z :=
  (fun c => Z.of_N (Ascii.N_of_ascii c)) <$> String.list_ascii_of_string s.

Record Ehdr := mkEhdr {
  e_type : Z; e_machine : Z; e_phoff : Z; e_shoff : Z; e_phentsize : Z; e_phnum : Z;
  e_shentsize : Z; e_shnum : Z; e_shstrndx : Z
}.
Definition kEhdrSize : Z := 64.
Definition kPhdrSize : Z := 56.
Definition kShdrSize : Z := 64.
Definition kSymSize : Z := 24.

Definition read_ehdr (f : list Z) : Ehdr :=
  mkEhdr (field f 16 2) (field f 18 2) (field f 32 8) (field f 40 8) (field f 54 2) (field f 56 2)
         (field f 58 2) (field f 60 2) (field f 62 2).

Record Phdr := mkPhdr {
  p_type : Z; p_flags : Z; p_offset : Z; p_vaddr : Z; p_filesz : Z; p_memsz : Z
}.
Definition read_phdr (f : list Z) (off : Z) : Phdr :=
  mkPhdr (field f off 4) (field f (off + 4) 4) (field f (off + 8) 8) (field f (off + 16) 8)
         (field f (off + 32) 8) (field f (off + 40) 8).

Record Shdr := mkShdr {
  sh_name : Z; sh_type : Z; sh_addr : Z; sh_offset : Z; sh_size : Z; sh_link : Z; sh_entsize : Z
}.
Definition read_shdr (f : list Z) (off : Z) : Shdr :=
  mkShdr (field f off 4) (field f (off + 4) 4) (field f (off + 16) 8) (field f (off + 24) 8)
         (field f (off + 32) 8) (field f (off + 40) 4) (field f (off + 56) 8).

Definition PT_LOAD : Z := 1.
Definition PT_GNU_EH_FRAME : Z := 0x6474e550.
Definition SHT_SYMTAB : Z := 2.
Definition SHT_NOBITS : Z := 8.
Definition SHT_DYNSYM : Z := 11.

Section Open.
Context (path : string) (file : list Z).

Definition file_size : Z := Z.of_nat (length file).

(** The header checks, in order. *)
Definition check_header : res Ehdr :=
  if file_size <? kEhdrSize then fail (path +:+ " is too small to be an ELF64 file")
  else
    let h := read_ehdr file in
    if negb (bool_decide (take 4 file = [0x7f; 69; 76; 70])) then fail (path +:+ " is not an ELF file")
    else if negb (field file 4 1 =? 2) || negb (field file 5 1 =? 1) then
      fail (path +:+ " is not a little-endian ELF64 file")
    else if negb (e_machine h =? 62) then
      fail (path +:+ " targets machine " +:+ fmt_d (e_machine h) +:+ "; only x86-64 (62) is supported")
    else if negb (e_type h =? 2) && negb (e_type h =? 3) then
      fail (path +:+ " has ELF type " +:+ fmt_d (e_type h)
            +:+ "; only ET_EXEC and ET_DYN are supported")
    else if (e_phnum h =? 0) || negb (e_phentsize h =? kPhdrSize)
            || negb (FitsIn (e_phoff h) (e_phnum h * kPhdrSize) file_size) then
      fail (path +:+ " has a malformed program header table")
    else mret h.

(** What the program header loop accumulates. *)
Record phdr_acc := mkPA {
  pa_segments : list LoadSegment; pa_min : Z; pa_max_end : Z; pa_eh_frame_hdr : Z
}.

Definition phdr_step (acc : phdr_acc) (p : Phdr) : res phdr_acc :=
  if p_type p =? PT_GNU_EH_FRAME then
    mret (mkPA (pa_segments acc) (pa_min acc) (pa_max_end acc) (p_vaddr p))
  else if negb (p_type p =? PT_LOAD) || (p_memsz p =? 0) then mret acc
  else if (p_memsz p <? p_filesz p) || negb (FitsIn (p_offset p) (p_filesz p) file_size) then
    fail (path +:+ " has a PT_LOAD running past the end of the file")
  else
    mret (mkPA (pa_segments acc ++ [mkSeg (p_vaddr p) (p_memsz p) (p_filesz p) (p_offset p) (p_flags p)])
               (Z.min (pa_min acc) (p_vaddr p))
               (Z.max (pa_max_end acc) (u64 (p_vaddr p + p_memsz p)))
               (pa_eh_frame_hdr acc)).

Fixpoint phdr_loop (acc : phdr_acc) (ps : list Phdr) : res phdr_acc :=
  match ps with
  | [] => mret acc
  | p :: ps => acc ← phdr_step acc p; phdr_loop acc ps
  end.

Definition phdrs (h : Ehdr) : list Phdr :=
  (fun i => read_phdr file (e_phoff h + i * kPhdrSize)) <$> seqZ 0 (e_phnum h).

(** [c_sort] by vaddr (the order of segments at one vaddr is unspecified). *)
Definition seg_le (a b : LoadSegment) : Prop := seg_vaddr a <= seg_vaddr b.
#[export] Instance seg_le_dec : RelDecision seg_le.
Proof. intros a b. apply Z.le_dec. Defined.

(** The size of the reservation, or the reason not to make one. *)
Definition reservation (acc : phdr_acc) : res (Z * Z) :=
  let min_vaddr := RoundDown (pa_min acc) kPageSize in
  let span := u64 (RoundUp (pa_max_end acc) kPageSize - min_vaddr) in
  if 2 ^ 40 <? span then
    fail (path +:+ " spans " +:+ fmt_d (Z.shiftr span 30 mod 2 ^ 32)
          +:+ " GiB of vaddr space; refusing to map")
  else mret (min_vaddr, span).

(** Where one segment is mapped: image address, length, file offset. *)
Definition seg_mapping (bias : Z) (s : LoadSegment) : Z * Z * Z :=
  let seg_vaddr_start := RoundDown (seg_vaddr s) kPageSize in
  let file_offset := RoundDown (seg_offset s) kPageSize in
  let page_offset := seg_vaddr s - seg_vaddr_start in
  let map_len := RoundUp (u64 (seg_filesz s + page_offset)) kPageSize in
  (u64 (seg_vaddr_start + bias), map_len, file_offset).

(** [mmap(MAP_FIXED)] of the file over part of the image: file bytes, zeros
    past the end of the file. *)
Definition map_file (m : Z * Z * Z) (mem : Z → Z) (a : Z) : Z :=
  let '(target, len, off) := m in
  if (target <=? a) && (a <? target + len)
  then default 0 (file !! Z.to_nat (off + (a - target))) else mem a.

Context (map_error : LoadSegment → option string).

Fixpoint map_segments (bias : Z) (segs : list LoadSegment) (mem : Z → Z) : res (Z → Z) :=
  match segs with
  | [] => mret mem
  | s :: segs =>
      if seg_filesz s =? 0 then map_segments bias segs mem
      else if negb (seg_vaddr s mod kPageSize =? seg_offset s mod kPageSize) then
        fail (path +:+ " has a PT_LOAD with unaligned vaddr 0x" +:+ fmt_x (seg_vaddr s)
              +:+ " vs offset 0x" +:+ fmt_x (seg_offset s))
      else match map_error s with
      | Some e => fail ("cannot mmap segment at 0x" +:+ fmt_x (seg_vaddr s) +:+ " for " +:+ path
                        +:+ ": " +:+ e)
      | None => map_segments bias segs (map_file (seg_mapping bias s) mem)
      end
  end.

(** *** Sections and symbols *)

Definition have_sections (h : Ehdr) : bool :=
  negb (e_shoff h =? 0) && negb (e_shnum h =? 0) && (e_shentsize h =? kShdrSize)
  && FitsIn (e_shoff h) (e_shnum h * kShdrSize) file_size && (e_shstrndx h <? e_shnum h).

Definition shdr_at (h : Ehdr) (i : Z) : Shdr := read_shdr file (e_shoff h + i * kShdrSize).

(** [strnlen]-bounded string at [off] of a table of [size] bytes at [base]. *)
Fixpoint until_nul (bs : list Z) : list Z :=
  match bs with
  | [] => []
  | b :: bs => if b =? 0 then [] else b :: until_nul bs
  end.
Definition table_string (base size off : Z) : list Z :=
  until_nul (take (Z.to_nat (size - off)) (drop (Z.to_nat (base + off)) file)).

Definition name_of (h : Ehdr) (sh : Shdr) : list Z :=
  let shstr := shdr_at h (e_shstrndx h) in
  if negb (sh_type shstr =? SHT_NOBITS) && FitsIn (sh_offset shstr) (sh_size shstr) file_size
     && (sh_name sh <? sh_size shstr)
  then table_string (sh_offset shstr) (sh_size shstr) (sh_name sh) else [].

Record section_acc := mkSA {
  sa_eh_start : Z; sa_eh_end : Z; sa_plt : list (Z * Z);
  sa_debug_line : bool; sa_debug_link : bool; sa_symtab : Z; sa_dynsym : Z
}.
Definition sa_empty : section_acc := mkSA 0 0 [] false false 0 0.

Definition section_step (h : Ehdr) (a : section_acc) (i : Z) : section_acc :=
  let sh := shdr_at h i in
  let name := name_of h sh in
  let present := negb (sh_addr sh =? 0) && negb (sh_size sh =? 0) in
  if bool_decide (name = str_bytes ".eh_frame") && present then
    mkSA (sh_addr sh) (u64 (sh_addr sh + sh_size sh)) (sa_plt a) (sa_debug_line a)
         (sa_debug_link a) (sa_symtab a) (sa_dynsym a)
  else if bool_decide (take 4 name = str_bytes ".plt") && present then
    mkSA (sa_eh_start a) (sa_eh_end a) (sa_plt a ++ [(sh_addr sh, u64 (sh_addr sh + sh_size sh))])
         (sa_debug_line a) (sa_debug_link a) (sa_symtab a) (sa_dynsym a)
  else if bool_decide (name = str_bytes ".debug_line") then
    mkSA (sa_eh_start a) (sa_eh_end a) (sa_plt a) true (sa_debug_link a) (sa_symtab a) (sa_dynsym a)
  else if bool_decide (name = str_bytes ".gnu_debuglink") then
    mkSA (sa_eh_start a) (sa_eh_end a) (sa_plt a) (sa_debug_line a) true (sa_symtab a) (sa_dynsym a)
  else if sh_type sh =? SHT_SYMTAB then
    mkSA (sa_eh_start a) (sa_eh_end a) (sa_plt a) (sa_debug_line a) (sa_debug_link a) i (sa_dynsym a)
  else if sh_type sh =? SHT_DYNSYM then
    mkSA (sa_eh_start a) (sa_eh_end a) (sa_plt a) (sa_debug_line a) (sa_debug_link a) (sa_symtab a) i
  else a.

Definition scan_sections (h : Ehdr) : section_acc :=
  foldl (section_step h) sa_empty (seqZ 0 (e_shnum h)).

(** The function a symbol table entry defines, if it defines one. *)
Definition func_symbol (str : Shdr) (off : Z) : option FuncSymbol :=
  let st_name := field file off 4 in
  let st_info := field file (off + 4) 1 in
  let st_shndx := field file (off + 6) 2 in
  let st_value := field file (off + 8) 8 in
  let st_size := field file (off + 16) 8 in
  if negb (Z.land st_info 0xf =? 2) || (st_shndx =? 0) || (st_value =? 0) then None
  else if sh_size str <=? st_name then None
  else
    let name := table_string (sh_offset str) (sh_size str) st_name in
    if bool_decide (name = []) then None else Some (mkSym st_value st_size name).

Definition sym_le (a b : FuncSymbol) : Prop := sym_vaddr a <= sym_vaddr b.
#[export] Instance sym_le_dec : RelDecision sym_le.
Proof. intros a b. apply Z.le_dec. Defined.

Definition read_symbols (h : Ehdr) (a : section_acc) : list FuncSymbol :=
  let chosen := if sa_symtab a =? 0 then sa_dynsym a else sa_symtab a in
  if chosen =? 0 then []
  else
    let sym := shdr_at h chosen in
    if (sh_link sym <? e_shnum h) && (sh_entsize sym =? kSymSize)
       && FitsIn (sh_offset sym) (sh_size sym) file_size then
      let str := shdr_at h (sh_link sym) in
      if FitsIn (sh_offset str) (sh_size str) file_size then
        merge_sort sym_le
          (omap (fun i => func_symbol str (sh_offset sym + i * kSymSize))
                (seqZ 0 (sh_size sym / kSymSize)))
      else []
    else [].

(** *** The .eh_frame_hdr fallback *)

Definition eh_frame_fallback (im : ELFImage) : option (Z * Z) :=
  if has_eh_frame im || (im_eh_frame_hdr im =? 0) then None
  else
    let hdr := BytesAt im (im_eh_frame_hdr im) 20 in
    if bool_decide (8 ≤ length hdr)%nat && (default 0 (hdr !! 0%nat) =? 1) then
      ptr ← DecodeEhPtr (drop 4 hdr) (u64 (im_eh_frame_hdr im + 4)) (default 0 (hdr !! 1%nat));
      seg ← head (filter (fun s => Contains s ptr 0 = true) (im_segments im));
      Some (ptr, u64 (seg_vaddr seg + seg_filesz seg))
    else None.

Definition with_eh_frame (r : Z * Z) (im : ELFImage) : ELFImage :=
  mkImage (im_path im) (im_bias im) (im_segments im) (im_symbols im) r.1 r.2 (im_eh_frame_hdr im)
          (im_plt_ranges im) (im_has_debug_line im) (im_has_debug_link im) (im_mem im).

(** The reservation's address for a given size, or [strerror(errno)]. *)
Context (reserve : Z → string + Z).

(** The validated headers, and where and how much to reserve. *)
Definition Layout : res (Ehdr * phdr_acc * Z * Z) :=
  h ← check_header;
  acc ← phdr_loop (mkPA [] (2 ^ 64 - 1) 0 0) (phdrs h);
  if bool_decide (pa_segments acc = []) then fail (path +:+ " has no PT_LOAD segments")
  else '(min_vaddr, span) ← reservation acc; mret (h, acc, min_vaddr, span).

Definition no_reservation (span : Z) (e : string) : string :=
  "cannot reserve " +:+ fmt_d (span mod 2 ^ 32) +:+ " bytes of image space for " +:+ path +:+ ": " +:+ e.

(** The rest, once [span] bytes are reserved at [image]. *)
Definition Load (h : Ehdr) (acc : phdr_acc) (min_vaddr image : Z) : res ELFImage :=
  let segs := merge_sort seg_le (pa_segments acc) in
  let bias := u64 (image - min_vaddr) in
  mem ← map_segments bias segs (fun _ => 0);
  let sa := if have_sections h then scan_sections h else sa_empty in
  let syms := if have_sections h then read_symbols h sa else [] in
  let im := mkImage path bias segs syms (sa_eh_start sa) (sa_eh_end sa)
                    (pa_eh_frame_hdr acc) (sa_plt sa) (sa_debug_line sa) (sa_debug_link sa) mem in
  mret (match eh_frame_fallback im with Some r => with_eh_frame r im | None => im end).

Definition Open : res ELFImage :=
  '(h, acc, min_vaddr, span) ← Layout;
  match reserve span with
  | inl e => fail (no_reservation span e)
  | inr image => Load h acc min_vaddr image
  end.
End Open.
