(* ===== verification/ElfImageFacts.v ===== *)
(** * What [ELFImage::Open] maps

    [Open_loads]: on an ELF file whose later segments do not start in the pages of
    an earlier one's file bytes, the opened image reads, at every file-backed
    address, the byte of the file the program header puts there.  [Open_sorted]: the function symbols come
    out in the order [Symbolizer::Name] searches them in. *)

From stdpp Require Import list sorting strings.
From S2P Require Import Prelude EhFrame ElfImage.

(** ** Pages *)

Lemma page_mask : u64 (Z.lnot (kPageSize - 1)) = Z.shiftl (Z.ones 52) 12.
Proof. vm_compute. reflexivity. Qed.

Lemma RoundDown_page v : is_u64 v → RoundDown v kPageSize = v - v mod kPageSize.
Proof.
  intros Hv. unfold RoundDown. rewrite page_mask.
  assert (Z.land v (Z.shiftl (Z.ones 52) 12) = Z.ldiff v (Z.ones 12)) as ->.
  { apply Z.bits_inj'. intros n Hn. rewrite Z.land_spec, Z.ldiff_spec.
    destruct (decide (n < 12)).
    - rewrite Z.shiftl_spec_low, Z.ones_spec_low by lia. cbn. by rewrite andb_false_r.
    - rewrite Z.shiftl_spec, (Z.ones_spec_high 12) by lia. cbn. rewrite andb_true_r.
      destruct (decide (n < 64)); [rewrite Z.ones_spec_low by lia; by rewrite andb_true_r|].
      rewrite (Z.bits_above_log2 v n); [done|unfold is_u64 in Hv; lia|].
      destruct (decide (v = 0)) as [->|]; [cbn; lia|].
      apply Z.log2_lt_pow2; [unfold is_u64 in Hv; lia|].
      apply Z.lt_le_trans with (2 ^ 64); [unfold is_u64 in Hv; lia|]. apply Z.pow_le_mono_r; lia. }
  rewrite Z.ldiff_ones_r, Z.shiftr_div_pow2, Z.shiftl_mul_pow2 by lia. unfold kPageSize.
  change (2 ^ 12) with 4096. pose proof (Z.div_mod v 4096). lia.
Qed.

Lemma RoundDown_bounds v : is_u64 v → v - kPageSize < RoundDown v kPageSize <= v ∧ 0 <= RoundDown v kPageSize.
Proof.
  intros Hv. rewrite RoundDown_page by done. unfold kPageSize, is_u64 in *.
  pose proof (Z.mod_pos_bound v 4096). pose proof (Z.mod_le v 4096). lia.
Qed.

Lemma RoundUp_bounds v : 0 <= v <= 2 ^ 64 - kPageSize → v <= RoundUp v kPageSize < v + kPageSize.
Proof.
  intros Hv. unfold RoundUp, kPageSize in *. rewrite u64_id by (unfold is_u64; lia).
  pose proof (RoundDown_bounds (v + 4096 - 1)) as Hb. unfold kPageSize, is_u64 in Hb. lia.
Qed.

(** ** The program header loop *)

Section Open.
Context (path : string) (file : list Z) (map_error : LoadSegment → option string) (reserve : Z → string + Z).
Context (file_bytes : Forall is_u8 file).

Lemma field_range off n : 0 <= field file off n < 256 ^ Z.of_nat n.
Proof.
  unfold field. pose proof (le_value_range (take n (drop (Z.to_nat off) file))) as Hr.
  assert (Forall is_u8 (take n (drop (Z.to_nat off) file))) as Hf by (by apply Forall_take, Forall_drop).
  specialize (Hr Hf). split; [lia|]. eapply Z.lt_le_trans; [apply Hr|].
  apply Z.pow_le_mono_r; [lia|]. rewrite length_take. lia.
Qed.

(** A segment the loop accepts: its file part is in the file and its memory
    part, whose end may wrap, in the extent recorded so far. *)
Record segment_ok (acc : phdr_acc) (s : LoadSegment) : Prop := {
  so_vaddr : is_u64 (seg_vaddr s);
  so_offset : is_u64 (seg_offset s);
  so_sizes : 0 <= seg_filesz s <= seg_memsz s;
  so_file : seg_offset s + seg_filesz s <= file_size file;
  so_min : pa_min acc <= seg_vaddr s;
  so_max : u64 (seg_vaddr s + seg_memsz s) <= pa_max_end acc
}.
Definition acc_ok (acc : phdr_acc) : Prop :=
  0 <= pa_min acc < 2 ^ 64 ∧ is_u64 (pa_max_end acc) ∧ Forall (segment_ok acc) (pa_segments acc)
  ∧ (pa_max_end acc = 0 ∨ ∃ s, s ∈ pa_segments acc ∧ pa_max_end acc = u64 (seg_vaddr s + seg_memsz s)).

Lemma segment_ok_mono acc acc' s :
  pa_min acc' <= pa_min acc → pa_max_end acc <= pa_max_end acc' → segment_ok acc s → segment_ok acc' s.
Proof. intros Hm Hx []. split; auto; lia. Qed.

Lemma phdr_step_ok acc off acc' :
  acc_ok acc → phdr_step path file acc (read_phdr file off) = Ok acc' → acc_ok acc'.
Proof.
  intros (Hmin & Hmax & Hs & Hend). unfold phdr_step.
  pose proof (field_range (off + 16) 8) as Hv. pose proof (field_range (off + 8) 8) as Ho.
  pose proof (field_range (off + 32) 8) as Hf. pose proof (field_range (off + 40) 8) as Hm.
  change (256 ^ Z.of_nat 8) with (2 ^ 64) in *.
  destruct (p_type _ =? PT_GNU_EH_FRAME).
  { intros [= <-]. split; [exact Hmin|]. split; [exact Hmax|]. split; [|exact Hend].
    eapply Forall_impl; [exact Hs|]. intros s. apply segment_ok_mono; cbn; lia. }
  destruct (negb _ || _); [by intros [= <-]|].
  destruct (_ || _) eqn:E; [done|]. intros [= <-]. cbn [read_phdr p_vaddr p_memsz p_filesz p_offset p_flags] in *.
  apply orb_false_iff in E as [E1 E2%negb_false_iff]. unfold FitsIn in E2. apply andb_true_iff in E2 as [E2 E3].
  pose proof (u64_range (field file (off + 16) 8 + field file (off + 40) 8)) as Hu.
  unfold is_u64 in *. split; [cbn; lia|]. split; [unfold is_u64; cbn; lia|]. cbn [pa_segments pa_max_end].
  split; [apply Forall_app; split|].
  - eapply Forall_impl; [exact Hs|]. intros s. apply segment_ok_mono; cbn; lia.
  - apply Forall_singleton. split; cbn; unfold is_u64; lia.
  - set (e := u64 _) in *. destruct (Z.max_spec (pa_max_end acc) e) as [[_ ->]|[_ ->]].
    + right. eexists. split; [apply elem_of_app; right; by apply list_elem_of_singleton|done].
    + destruct Hend as [?|(s & ? & ?)]; [by left|right]. exists s. split; [apply elem_of_app; by left|done].
Qed.

Lemma phdr_loop_ok l acc acc' :
  acc_ok acc → phdr_loop path file acc ((fun i => read_phdr file i) <$> l) = Ok acc' → acc_ok acc'.
Proof.
  revert acc. induction l as [|i l IH]; intros acc Hacc; cbn; [by intros [= <-]|].
  intros E. apply bind_ok in E as (acc1 & E1 & E2). eapply IH; [|exact E2]. by eapply phdr_step_ok.
Qed.

(** ** Mapping *)

Definition page_start (s : LoadSegment) : Z := RoundDown (seg_vaddr s) kPageSize.
Definition map_len (s : LoadSegment) : Z := RoundUp (u64 (seg_filesz s + (seg_vaddr s - page_start s))) kPageSize.

(** The image addresses a mapped segment covers. *)
Definition covers (bias : Z) (s : LoadSegment) (a : Z) : Prop :=
  seg_filesz s ≠ 0 ∧ u64 (page_start s + bias) <= a < u64 (page_start s + bias) + map_len s.

Lemma map_file_other bias s mem a :
  ¬ (u64 (page_start s + bias) <= a < u64 (page_start s + bias) + map_len s) →
  map_file file (seg_mapping bias s) mem a = mem a.
Proof.
  intros Hn. unfold map_file, seg_mapping. fold (page_start s). fold (map_len s).
  destruct (_ && _) eqn:E; [|done]. exfalso. apply Hn. lia.
Qed.

Lemma map_segments_other bias segs mem mem' a :
  map_segments path file map_error bias segs mem = Ok mem' →
  Forall (fun s => ¬ covers bias s a) segs → mem' a = mem a.
Proof.
  intros E Hf. revert mem E. induction Hf as [|s segs Hs _ IH]; intros mem; cbn; [by intros [= <-]|].
  destruct (seg_filesz s =? 0) eqn:E0; [apply IH|]. destruct (negb _); [done|].
  destruct (map_error s); [done|]. intros E. rewrite (IH _ E). apply map_file_other.
  intros Hc. apply Hs. split; [lia|done].
Qed.

(** The byte at an address that one segment covers and no later one. *)
Lemma map_segments_at bias l1 s l2 mem mem' a :
  map_segments path file map_error bias (l1 ++ s :: l2) mem = Ok mem' →
  covers bias s a → Forall (fun s => ¬ covers bias s a) l2 →
  seg_vaddr s mod kPageSize = seg_offset s mod kPageSize ∧
  mem' a = default 0 (file !! Z.to_nat (RoundDown (seg_offset s) kPageSize + (a - u64 (page_start s + bias)))).
Proof.
  intros E [Hz Hc] Hl2. revert mem E. induction l1 as [|s1 l1 IH]; intros mem; cbn [app map_segments].
  - rewrite (proj2 (Z.eqb_neq _ _) Hz). destruct (negb _) eqn:Em; [done|].
    destruct (map_error s); [done|]. intros E. split; [lia|].
    rewrite (map_segments_other _ _ _ _ _ E Hl2). unfold map_file, seg_mapping.
    fold (page_start s). fold (map_len s). destruct (_ && _) eqn:Ec; [done|]. lia.
  - destruct (seg_filesz s1 =? 0); [apply IH|]. destruct (negb _); [done|].
    destruct (map_error s1); [done|]. apply IH.
Qed.

(** ** [Open] *)

Lemma Open_inv im :
  Open path file map_error reserve = Ok im →
  ∃ acc image min span,
    acc_ok acc ∧ reservation path acc = Ok (min, span) ∧ reserve span = inr image
    ∧ im_segments im = merge_sort seg_le (pa_segments acc) ∧ im_bias im = u64 (image - min)
    ∧ map_segments path file map_error (im_bias im) (im_segments im) (fun _ => 0) = Ok (im_mem im)
    ∧ ∃ h sa, im_symbols im = if have_sections file h then read_symbols file h sa else [].
Proof.
  unfold Open, Layout. intros E. apply bind_ok in E as ([[[h acc] min] span] & El & E).
  apply bind_ok in El as (h' & _ & El). apply bind_ok in El as (acc' & Eacc & El).
  case_bool_decide; [done|]. apply bind_ok in El as ([min' span'] & Eres & El). injection El as -> -> -> ->.
  destruct (reserve span) as [|image] eqn:Er; [done|]. apply bind_ok in E as (mem & Emem & E).
  exists acc, image, min, span. split.
  { unfold phdrs in Eacc. change (phdr_loop path file (mkPA [] (2 ^ 64 - 1) 0 0)
      ((fun i => read_phdr file (e_phoff h + i * kPhdrSize)) <$> seqZ 0 (e_phnum h)) = Ok acc) in Eacc.
    rewrite (list_fmap_compose (fun i => e_phoff h + i * kPhdrSize) (fun i => read_phdr file i)) in Eacc.
    eapply phdr_loop_ok; [|exact Eacc]. split; [cbn; lia|]. split; [unfold is_u64; cbn; lia|].
    split; [constructor|by left]. }
  cbv zeta in E. set (im0 := mkImage _ _ _ _ _ _ _ _ _ _ _) in E. injection E as <-.
  assert (∀ r, im_segments (with_eh_frame r im0) = im_segments im0 ∧ im_bias (with_eh_frame r im0) = im_bias im0
    ∧ im_mem (with_eh_frame r im0) = im_mem im0 ∧ im_symbols (with_eh_frame r im0) = im_symbols im0) as Hw by done.
  destruct (eh_frame_fallback im0) as [r|].
  - destruct (Hw r) as (-> & -> & -> & ->). split_and!; [done..|]. eexists h, _. reflexivity.
  - split_and!; [done..|]. eexists h, _. reflexivity.
Qed.

Lemma opened_segment_ok im k s :
  Open path file map_error reserve = Ok im → im_segments im !! k = Some s → ∃ acc, segment_ok acc s.
Proof.
  intros E Hk. apply Open_inv in E as (acc & _ & _ & _ & (_ & _ & Hs & _) & _ & _ & Esegs & _).
  exists acc. apply (proj1 (Forall_forall _ _) Hs).
  rewrite <- (merge_sort_Permutation seg_le), <- Esegs. by eapply list_elem_of_lookup_2.
Qed.

(** What a linker lays out: no segment ends in the last page of the address
    space, and no segment's pages start inside the file bytes of one mapped
    before it. *)
Record laid_out (segs : list LoadSegment) : Prop := {
  lo_ends : Forall (fun s => seg_vaddr s + seg_memsz s <= 2 ^ 64 - kPageSize) segs;
  lo_pages : ∀ i j s s', segs !! i = Some s → segs !! j = Some s' → (i < j)%nat → seg_filesz s' ≠ 0 →
    seg_vaddr s + seg_filesz s <= page_start s'
}.

(** The reservation holds every segment: its page starts in it and its end is
    in it. *)
Lemma reserved acc min span s :
  acc_ok acc → reservation path acc = Ok (min, span) →
  Forall (fun s => seg_vaddr s + seg_memsz s <= 2 ^ 64 - kPageSize) (pa_segments acc) →
  s ∈ pa_segments acc →
  0 <= min <= page_start s ∧ seg_vaddr s + seg_memsz s - min <= span.
Proof.
  intros (Hmin & Hmax & Hs & Hend) E Hends Hin. unfold reservation in E.
  destruct (_ <? _); [done|]. injection E as <- <-.
  pose proof (proj1 (Forall_forall _ _) Hs s Hin) as [Hv Ho Hz Hf Hm Hx].
  pose proof (proj1 (Forall_forall _ _) Hends s Hin) as He. cbn in He.
  assert (pa_max_end acc <= 2 ^ 64 - kPageSize) as Hmax'.
  { destruct Hend as [->|(s1 & Hin1 & ->)]; [unfold kPageSize; lia|].
    pose proof (proj1 (Forall_forall _ _) Hends s1 Hin1) as He1. cbn in He1.
    pose proof (proj1 (Forall_forall _ _) Hs s1 Hin1) as [Hv1 _ Hz1 _ _ _].
    unfold is_u64, kPageSize in *. rewrite u64_id by (unfold is_u64; lia). lia. }
  rewrite u64_id in Hx by (unfold is_u64, kPageSize in *; lia).
  pose proof (RoundDown_bounds (pa_min acc) Hmin) as [Hmd Hm0].
  pose proof (RoundUp_bounds (pa_max_end acc) ltac:(unfold is_u64 in *; lia)) as Hxu.
  unfold page_start. rewrite !RoundDown_page in * by done. split.
  - split; [done|]. unfold kPageSize, is_u64 in *.
    pose proof (Z.div_mod (pa_min acc) 4096 ltac:(lia)). pose proof (Z.div_mod (seg_vaddr s) 4096 ltac:(lia)).
    pose proof (Z.div_le_mono (pa_min acc) (seg_vaddr s) 4096 ltac:(lia) Hm). lia.
  - unfold is_u64, kPageSize in *. rewrite u64_id by (unfold is_u64; lia). lia.
Qed.

(** The bias moves the reservation's vaddrs onto its addresses. *)
Lemma bias_moves min image span v :
  0 <= min → 0 <= image → image + span <= 2 ^ 64 → min <= v < min + span →
  u64 (v + u64 (image - min)) = image + (v - min).
Proof.
  intros. unfold u64, wrapu. rewrite Zplus_mod_idemp_r, Z.mod_small by lia. lia.
Qed.

Context (reserve_fits : ∀ n image, reserve n = inr image → 0 <= image ∧ image + n <= 2 ^ 64).

(** A segment of an opened image is contiguous in the reservation, and reads
    its part of the file. *)
Lemma opened_byte im k s :
  Open path file map_error reserve = Ok im → laid_out (im_segments im) → im_segments im !! k = Some s →
  ∃ base, ∀ i, 0 <= i < seg_filesz s →
    ToImage im (seg_vaddr s + i) = base + i ∧
    file !! Z.to_nat (seg_offset s + i) = Some (im_mem im (base + i)).
Proof.
  intros E [Hends Hpages] Hk.
  apply Open_inv in E as (acc & image & min & span & Hacc & Eres & Er & Esegs & Ebias & Emem & _).
  destruct (reserve_fits _ _ Er) as [Himg Hspan].
  assert (pa_segments acc ≡ₚ im_segments im) as Hperm by (rewrite Esegs; symmetry; apply merge_sort_Permutation).
  rewrite <- Hperm in Hends.
  assert (∀ j s', im_segments im !! j = Some s' →
    segment_ok acc s' ∧ 0 <= min <= page_start s' ∧ seg_vaddr s' + seg_memsz s' - min <= span) as Hin.
  { intros j s' Hj. assert (s' ∈ pa_segments acc) as Hs' by (rewrite Hperm; by eapply list_elem_of_lookup_2).
    split; [|by eapply reserved]. destruct Hacc as (_ & _ & Hs & _). exact (proj1 (Forall_forall _ _) Hs _ Hs'). }
  destruct (Hin _ _ Hk) as ([Hv Ho Hz Hf _ _] & Hmin & Hend).
  pose proof (RoundDown_bounds (seg_vaddr s) Hv) as [Hp _]. fold (page_start s) in Hp.
  assert (seg_vaddr s + seg_memsz s <= 2 ^ 64 - kPageSize) as He.
  { apply (proj1 (Forall_forall _ _) Hends). rewrite Hperm. by eapply list_elem_of_lookup_2. }
  exists (image + (seg_vaddr s - min)). intros i Hi.
  assert (u64 (page_start s + im_bias im) = image + (page_start s - min)) as Htarget
    by (rewrite Ebias; apply (bias_moves min image span); lia).
  split.
  { unfold ToImage. rewrite Ebias, (bias_moves min image span) by lia. lia. }
  replace (image + _ + i) with (image + (seg_vaddr s + i - min)) by lia.
  pose proof (list_elem_of_split_length _ _ _ Hk) as (l1 & l2 & El & Hlen).
  rewrite El in Emem. apply (map_segments_at _ _ _ _ _ _ (image + (seg_vaddr s + i - min))) in Emem as [Hal ->].
  - rewrite Htarget. rewrite (RoundDown_page (seg_offset s)) by done.
    unfold page_start at 1. rewrite (RoundDown_page (seg_vaddr s)) by done.
    match goal with |- _ = Some (default 0 (_ !! Z.to_nat ?n)) => replace n with (seg_offset s + i) by lia end.
    destruct (lookup_lt_is_Some_2 file (Z.to_nat (seg_offset s + i))) as [b Hb]; [|by rewrite Hb].
    unfold file_size, is_u64 in *. lia.
  - split; [lia|]. rewrite Htarget. unfold map_len.
    assert (0 <= seg_filesz s + (seg_vaddr s - page_start s) <= 2 ^ 64 - kPageSize) as Hl by (unfold is_u64 in *; lia).
    rewrite u64_id by (unfold is_u64, kPageSize in *; lia). pose proof (RoundUp_bounds _ Hl). lia.
  - apply Forall_forall. intros s' Hs' [Hz' Hc]. apply list_elem_of_lookup_1 in Hs' as [j Hj].
    assert (im_segments im !! (k + S j)%nat = Some s') as Hj'
      by (rewrite El, lookup_app_r by lia; replace (k + S j - length l1)%nat with (S j) by lia; done).
    destruct (Hin _ _ Hj') as (Hs1 & Hmin' & Hend').
    pose proof (Hpages _ _ _ _ Hk Hj' ltac:(lia) Hz') as Hlater.
    pose proof (RoundDown_bounds (seg_vaddr s') (so_vaddr _ _ Hs1)) as [Hp' _]. fold (page_start s') in Hp'.
    pose proof (so_sizes _ _ Hs1).
    rewrite (Ebias), (bias_moves min image span) in Hc by lia. lia.
Qed.

Lemma bytes_avail_at segs k s i n :
  segs !! k = Some s → 0 <= i < seg_filesz s →
  (∀ j s', segs !! j = Some s' → (j < k)%nat → seg_vaddr s' + seg_filesz s' <= seg_vaddr s + i) →
  bytes_avail segs (seg_vaddr s + i) n = Some (Z.min n (seg_filesz s - i)).
Proof.
  intros Hk Hi. revert k Hk. induction segs as [|s1 segs IH]; intros k Hk Hbefore; [done|]. cbn [bytes_avail].
  destruct k as [|k].
  - injection Hk as ->. destruct (_ <? seg_vaddr s) eqn:E1; [lia|]. destruct (seg_filesz s <=? _) eqn:E2; [lia|].
    f_equal. lia.
  - pose proof (Hbefore 0%nat s1 eq_refl ltac:(lia)) as H1.
    assert (bytes_avail segs (seg_vaddr s + i) n = Some (Z.min n (seg_filesz s - i))) as IH'.
    { apply (IH k Hk). intros j s' Hj Hlt. apply (Hbefore (S j) s' Hj). lia. }
    destruct (_ <? seg_vaddr s1); [done|]. destruct (seg_filesz s1 <=? _) eqn:E2; [done|]. lia.
Qed.

(** C19: On a well laid out ELF file, [ELFImage::Open] loads what the program
    headers say: at every file-backed address of every PT_LOAD,
    [ELFImage::BytesAt] returns the bytes the file has at the corresponding
    offset, as many as were asked for or as the segment has left. *)
Theorem Open_loads im s i n :
  Open path file map_error reserve = Ok im → laid_out (im_segments im) →
  s ∈ im_segments im → 0 <= i < seg_filesz s → 0 <= n →
  BytesAt im (seg_vaddr s + i) n
  = take (Z.to_nat (Z.min n (seg_filesz s - i))) (drop (Z.to_nat (seg_offset s + i)) file).
Proof.
  intros E Hlaid [k Hk]%list_elem_of_lookup_1 Hi Hn.
  destruct (opened_byte im k s E Hlaid Hk) as [base Hbase]. unfold BytesAt.
  rewrite (bytes_avail_at _ k s i n Hk Hi).
  2:{ intros j s' Hj Hlt. pose proof (lo_pages _ Hlaid _ _ _ _ Hj Hk Hlt ltac:(lia)) as Hp.
      enough (page_start s <= seg_vaddr s) by lia.
      destruct (opened_segment_ok _ _ _ E Hk) as [acc Hs]. apply RoundDown_bounds, (so_vaddr _ _ Hs). }
  rewrite (proj1 (Hbase i Hi)). apply list_eq. intros j. rewrite list_lookup_fmap.
  destruct (decide (Z.of_nat j < Z.min n (seg_filesz s - i))).
  - rewrite lookup_seqZ_lt by lia. rewrite lookup_take_lt by lia. rewrite lookup_drop. cbn.
    destruct (Hbase (i + Z.of_nat j) ltac:(lia)) as [_ Hb]. symmetry.
    replace (base + i + Z.of_nat j) with (base + (i + Z.of_nat j)) by lia. rewrite <- Hb. f_equal.
    destruct (opened_segment_ok _ _ _ E Hk) as [acc Hs]. pose proof (so_offset _ _ Hs) as [Ho _]. lia.
  - rewrite lookup_seqZ_ge by lia. rewrite lookup_take_ge by lia. done.
Qed.

(** The symbols of an opened image come in the order [Symbolizer::Name]'s
    search needs. *)
Lemma Open_sorted im : Open path file map_error reserve = Ok im → StronglySorted sym_le (im_symbols im).
Proof.
  intros E. apply Sorted_StronglySorted; [intros a b c; unfold sym_le; lia|]. revert E.
  intros E. apply Open_inv in E as (_ & _ & _ & _ & _ & _ & _ & _ & _ & _ & h & sa & ->).
  destruct (have_sections file h); [|constructor]. unfold read_symbols.
  repeat case_match; try constructor; apply Sorted_merge_sort; intros a b; unfold sym_le; lia.
Qed.
End Open.

Lemma sorted_symbols_lookup syms i j a b :
  StronglySorted sym_le syms → (i ≤ j)%nat → syms !! i = Some a → syms !! j = Some b → sym_vaddr a <= sym_vaddr b.
Proof.
  intros Hs. revert i j. induction Hs as [|x syms _ IH Hx]; intros [|i] [|j] Hij Hi Hj; try done.
  - cbn in Hi, Hj. simplify_eq. lia.
  - cbn in Hi, Hj. simplify_eq. apply (proj1 (Forall_forall _ _) Hx). by eapply list_elem_of_lookup_2.
  - lia.
  - eapply (IH i j); [lia|done..].
Qed.

(** ** A two-segment file

    ELF header, two program headers, 8 bytes of data: the headers are mapped
    at 0x400000 and the data at 0x4010b0. *)

Definition le_bytes (n : nat) (v : Z) : list Z := (fun i => Z.shiftr v (8 * Z.of_nat i) mod 256) <$> seq 0 n.
Definition load_phdr (offset vaddr filesz memsz : Z) : list Z :=
  le_bytes 4 PT_LOAD ++ le_bytes 4 5 ++ le_bytes 8 offset ++ le_bytes 8 vaddr ++ le_bytes 8 vaddr
  ++ le_bytes 8 filesz ++ le_bytes 8 memsz ++ le_bytes 8 kPageSize.
Definition two_segments : list Z :=
  [0x7f; 69; 76; 70; 2; 1; 1] ++ le_bytes 9 0 ++ le_bytes 2 2 ++ le_bytes 2 62 ++ le_bytes 4 1
  ++ le_bytes 8 0x400000 ++ le_bytes 8 kEhdrSize ++ le_bytes 8 0 ++ le_bytes 4 0 ++ le_bytes 2 64
  ++ le_bytes 2 kPhdrSize ++ le_bytes 2 2 ++ le_bytes 6 0
  ++ load_phdr 0 0x400000 0xb0 0xb0 ++ load_phdr 0xb0 0x4010b0 8 16 ++ [1; 2; 3; 4; 5; 6; 7; 8].

Lemma two_segments_bytes : Forall is_u8 two_segments.
Proof. unfold is_u8. vm_compute. repeat (constructor; [split; [discriminate|reflexivity]|]). constructor. Qed.

Definition reserve_low (n : Z) : string + Z := if n <=? 2 ^ 40 then inr 0x10000000 else inl "Cannot allocate memory".
Lemma reserve_low_fits n image : reserve_low n = inr image → 0 <= image ∧ image + n <= 2 ^ 64.
Proof. unfold reserve_low. destruct (_ <=? _) eqn:E; [intros [= <-]; lia|done]. Qed.

Lemma two_segments_laid_out : laid_out [mkSeg 0x400000 0xb0 0xb0 0 5; mkSeg 0x4010b0 16 8 0xb0 5].
Proof.
  split; [by repeat constructor|].
  intros [|[|i]] [|[|j]] s s' Hi Hj Hij Hz; cbn in Hi, Hj; simplify_eq; try lia. by vm_compute.
Qed.

Lemma Open_loads_witness :
  ∃ im, Open "two-segments" two_segments (fun _ => None) reserve_low = Ok im
        ∧ BytesAt im 0x4010b2 100 = [3; 4; 5; 6; 7; 8].
Proof.
  destruct (Open "two-segments" two_segments (fun _ => None) reserve_low) as [im|e] eqn:E.
  - exists im. split; [done|].
    assert (Hs : match Open "two-segments" two_segments (fun _ => None) reserve_low with
      | Ok im => im_segments im | Throw _ => [] end
      = [mkSeg 0x400000 0xb0 0xb0 0 5; mkSeg 0x4010b0 16 8 0xb0 5]) by (vm_compute; reflexivity).
    rewrite E in Hs.
    apply (Open_loads "two-segments" two_segments (fun _ => None) reserve_low
             two_segments_bytes ltac:(exact reserve_low_fits)
             im (mkSeg 0x4010b0 16 8 0xb0 5) 2 100 E).
    all: rewrite ?Hs.
    + exact two_segments_laid_out.
    + set_solver.
    + cbn. lia.
    + lia.
  - exfalso. assert (H : match Open "two-segments" two_segments (fun _ => None) reserve_low with
      | Ok _ => True | Throw _ => False end) by (vm_compute; exact I). by rewrite E in H.
Defined.
