(* ===== verification/ElfOpen.v ===== *)
(** * The system calls of [ELFImage::Open]

    Models the descriptors and mappings of [src/elf-image.cc]: [OpenPath] is
    [ELFImage::Open] from the path on, with the [absl::Cleanup] that closes
    the descriptor and the [unique_ptr] whose destructor unmaps what a
    failing call had mapped, and [Destroy] is [~ELFImage].  The kernel is
    the class [FileSystem]; a [close] or [munmap] of something that is not
    there is recorded.  A segment is mapped over part of the reservation,
    and goes with it.  [Open_releases]: nothing leaks and nothing is
    released twice, on any path. *)

From stdpp Require Import gmap strings.
From S2P Require Import Prelude EhFrame ElfImage ElfImageFacts.

(** The process's open descriptors and its mappings, length by address. *)
Record World := mkWorld { w_fds : gset Z; w_maps : gmap Z Z; w_bad : bool }.

(** A call answers [strerror(errno)] or its result. *)
Class FileSystem := {
  sys_open : gset Z → string → string + Z;
  sys_fstat : Z → string + Z;                                   (* st_size *)
  sys_mmap_file : gmap Z Z → Z → Z → string + Z * list Z;       (* the address, and the file's bytes *)
  sys_mmap_reserve : gmap Z Z → Z → string + Z;
  sys_mmap_fixed : Z → LoadSegment → option string
}.
(** What POSIX promises: a new descriptor and a new mapping are new. *)
Class FileSystemLaws `{FileSystem} : Prop := {
  open_fresh : ∀ t path fd, sys_open t path = inr fd → fd ∉ t;
  mmap_file_fresh : ∀ m fd n addr file, sys_mmap_file m fd n = inr (addr, file) → m !! addr = None;
  mmap_reserve_fresh : ∀ m n addr, sys_mmap_reserve m n = inr addr → m !! addr = None
}.

Definition add_fd (fd : Z) (w : World) : World := mkWorld ({[fd]} ∪ w_fds w) (w_maps w) (w_bad w).
Definition close_fd (fd : Z) (w : World) : World :=
  mkWorld (w_fds w ∖ {[fd]}) (w_maps w) (w_bad w || negb (bool_decide (fd ∈ w_fds w))).
Definition map_at (addr n : Z) (w : World) : World := mkWorld (w_fds w) (<[addr := n]> (w_maps w)) (w_bad w).
Definition munmap (addr n : Z) (w : World) : World :=
  mkWorld (w_fds w) (delete addr (w_maps w)) (w_bad w || negb (bool_decide (w_maps w !! addr = Some n))).

(** An image with the members [image_], [image_size_], [file_] and
    [file_size_]. *)
Record Loaded := mkLoaded {
  ld_image : ELFImage; ld_base : Z; ld_span : Z; ld_file : Z; ld_file_size : Z
}.

(** [~ELFImage]; [image_] is null until the reservation is made. *)
Definition Destroy (image : option (Z * Z)) (file file_size : Z) (w : World) : World :=
  let w := match image with Some (base, span) => munmap base span w | None => w end in
  munmap file file_size w.
Definition Close (ld : Loaded) : World → World :=
  Destroy (Some (ld_base ld, ld_span ld)) (ld_file ld) (ld_file_size ld).

Section OpenPath.
Context `{FileSystem} (path : string).

(** Behind the opening of the file: what [closer] is in scope of. *)
Definition load_fd (fd : Z) (w : World) : res Loaded * World :=
  match sys_fstat fd with
  | inl e => (fail ("cannot stat " +:+ path +:+ ": " +:+ e), w)
  | inr size =>
      if size <? kEhdrSize then (fail (path +:+ " is too small to be an ELF64 file"), w)
      else
        match sys_mmap_file (w_maps w) fd size with
        | inl e => (fail ("cannot mmap " +:+ path +:+ ": " +:+ e), w)
        | inr (addr, file) =>
            let w := map_at addr size w in
            match Layout path file with
            | Throw e => (Throw e, Destroy None addr size w)
            | Ok (h, acc, min_vaddr, span) =>
                match sys_mmap_reserve (w_maps w) span with
                | inl e => (fail (no_reservation path span e), Destroy None addr size w)
                | inr image =>
                    let w := map_at image span w in
                    match Load path file (sys_mmap_fixed fd) h acc min_vaddr image with
                    | Throw e => (Throw e, Destroy (Some (image, span)) addr size w)
                    | Ok im => (Ok (mkLoaded im image span addr size), w)
                    end
                end
            end
        end
  end.

Definition OpenPath (w : World) : res Loaded * World :=
  match sys_open (w_fds w) path with
  | inl e => (fail ("cannot open " +:+ path +:+ ": " +:+ e), w)
  | inr fd => let '(r, w) := load_fd fd (add_fd fd w) in (r, close_fd fd w)
  end.
End OpenPath.

(** ** Nothing leaks *)

Lemma close_add_fd fd w w' :
  fd ∉ w_fds w → w_fds w' = w_fds (add_fd fd w) → w_bad w' = w_bad w →
  w_fds (close_fd fd w') = w_fds w ∧ w_maps (close_fd fd w') = w_maps w' ∧ w_bad (close_fd fd w') = w_bad w.
Proof.
  intros Hfd Hfds Hbad. cbn in *. rewrite Hfds, Hbad. split_and!; [set_solver|done|].
  rewrite bool_decide_true by set_solver. cbn. apply orb_false_r.
Qed.

(** Unmapping what was just mapped. *)
Lemma munmap_map_at addr n w : w_maps w !! addr = None → munmap addr n (map_at addr n w) = w.
Proof.
  intros Hn. destruct w as [t m b]. unfold munmap, map_at. cbn in *.
  rewrite lookup_insert_eq, bool_decide_true by done. cbn. rewrite orb_false_r, delete_insert_id by done. done.
Qed.

Lemma Destroy_file addr n w : w_maps w !! addr = None → Destroy None addr n (map_at addr n w) = w.
Proof. apply munmap_map_at. Qed.
Lemma Destroy_both base span addr n w :
  w_maps w !! addr = None → w_maps (map_at addr n w) !! base = None →
  Destroy (Some (base, span)) addr n (map_at base span (map_at addr n w)) = w.
Proof. intros Ha Hb. unfold Destroy. rewrite munmap_map_at by done. by apply munmap_map_at. Qed.

Section Releases.
Context `{FileSystemLaws} (path : string).

(** What a call leaves behind: on success the two mappings of the image,
    which its destructor removes. *)
Definition released (w : World) (r : res Loaded) (maps : gmap Z Z) : Prop :=
  match r with
  | Throw _ => maps = w_maps w
  | Ok ld => maps = <[ld_base ld := ld_span ld]> (<[ld_file ld := ld_file_size ld]> (w_maps w))
             ∧ w_maps w !! ld_file ld = None
             ∧ <[ld_file ld := ld_file_size ld]> (w_maps w) !! ld_base ld = None
  end.

Lemma load_fd_released fd w :
  let '(r, w') := load_fd path fd w in
  w_fds w' = w_fds w ∧ w_bad w' = w_bad w ∧ released w r (w_maps w').
Proof.
  unfold load_fd. destruct (sys_fstat fd) as [e|size]; [done|]. destruct (size <? kEhdrSize); [done|].
  destruct (sys_mmap_file _ _ _) as [e|[addr file]] eqn:Ef; [done|]. apply mmap_file_fresh in Ef.
  destruct (Layout path file) as [[[[h acc] min] span]|e].
  2:{ by rewrite Destroy_file. }
  destruct (sys_mmap_reserve _ _) as [e|image] eqn:Er; [by rewrite Destroy_file|].
  apply mmap_reserve_fresh in Er. destruct (Load _ _ _ _ _ _ _) as [im|e]; [done|].
  by rewrite Destroy_both.
Qed.

Lemma OpenPath_released w :
  let '(r, w') := OpenPath path w in
  w_fds w' = w_fds w ∧ w_bad w' = w_bad w ∧ released w r (w_maps w').
Proof.
  unfold OpenPath. destruct (sys_open _ _) as [e|fd] eqn:Eo; [done|]. apply open_fresh in Eo.
  pose proof (load_fd_released fd (add_fd fd w)) as Hl. destruct (load_fd path fd _) as [r w'].
  destruct Hl as (Hfds & Hbad & Hmaps). destruct (close_add_fd fd w w' Eo Hfds Hbad) as (H1 & H2 & H3).
  split; [done|]. split; [done|]. rewrite H2. exact Hmaps.
Qed.

(** Closing what was opened gives back the process. *)
Lemma open_restores w :
  match OpenPath path w with (Throw _, w') => w' = w | (Ok ld, w') => Close ld w' = w end.
Proof.
  pose proof (OpenPath_released w) as Hr. destruct (OpenPath path w) as [r [t m b]]. cbn [w_fds w_maps w_bad] in Hr.
  destruct Hr as (-> & -> & Hr). destruct r as [ld|e]; [|destruct w; cbn in *; by subst].
  destruct Hr as (-> & Hfile & Hbase). by apply (Destroy_both _ _ _ _ w).
Qed.

End Releases.

(** ** The image is that of the file mapped *)

(** So the theorems on [Open], [Open_loads] and [Open_sorted] among them,
    are about what [OpenPath] returns. *)
Lemma OpenPath_opens `{FileSystem} path w ld w' :
  OpenPath path w = (Ok ld, w') →
  ∃ fd file maps, sys_mmap_file (w_maps w) fd (ld_file_size ld) = inr (ld_file ld, file)
    ∧ Open path file (sys_mmap_fixed fd) (sys_mmap_reserve maps) = Ok (ld_image ld).
Proof.
  unfold OpenPath. destruct (sys_open _ _) as [e|fd]; [done|]. unfold load_fd.
  destruct (sys_fstat fd) as [e|size]; [done|]. destruct (size <? kEhdrSize); [done|].
  destruct (sys_mmap_file _ _ _) as [e|[addr file]] eqn:Ef; [done|].
  destruct (Layout path file) as [[[[h acc] min] span]|e] eqn:El; [|done].
  destruct (sys_mmap_reserve _ _) as [e|image] eqn:Er; [done|].
  destruct (Load _ _ _ _ _ _ _) as [im|e] eqn:Eim; [|done]. intros [= <- <-].
  eexists fd, file, _. split; [exact Ef|]. unfold Open. rewrite El. cbn in Er |- *. rewrite Er. exact Eim.
Qed.

(** ** A kernel with one file *)

Definition one_file (file : list Z) : FileSystem := {|
  sys_open t path := if bool_decide (3 ∈ t) then inl "Too many open files" else inr 3;
  sys_fstat _ := inr (Z.of_nat (length file));
  sys_mmap_file m _ _ := if bool_decide (m !! 0x5000 = None) then inr (0x5000, file) else inl "ENOMEM";
  sys_mmap_reserve m _ := if bool_decide (m !! 0x10000000 = None) then inr 0x10000000 else inl "ENOMEM";
  sys_mmap_fixed _ _ := None
|}.
Lemma one_file_laws file : FileSystemLaws (H := one_file file).
Proof.
  split.
  - intros t path fd. cbn. case_bool_decide; [done|]. by intros [= <-].
  - intros m fd n addr contents. cbn. case_bool_decide; [by intros [= <- <-]|done].
  - intros m n addr. cbn. case_bool_decide; [by intros [= <-]|done].
Qed.

#[local] Existing Instance one_file_laws.
#[local] Instance two_segments_system : FileSystem := one_file two_segments.

Definition fresh_process : World := mkWorld ∅ ∅ false.
Example one_file_opens :
  match OpenPath "two-segments" fresh_process with
  | (Ok ld, w) => map_to_list (w_maps w) = [(0x5000, 184); (0x10000000, 8192)] ∧ Close ld w = fresh_process
  | _ => False
  end.
Proof. vm_compute. repeat split. Qed.

