(* ===== verification/FixtureImage.v ===== *)
(** * The fixture binary

    [libfixtures]: the bytes of an ELF shared object assembled and linked
    from [src/testdata/fixtures.S], 4064 of them, 48 to a line.  It is the
    concrete input the tests of [FixtureTests.v], [LightCheckerTests.v],
    [CfiTableTests.v], [ElfImageTests.v] and [CoverageTests.v] run on, as
    the [libfixtures.so] the build makes is that of the source's.  Its
    .rodata and .eh_frame are in a read-only segment and its .text in an
    executable one; there are no C runtime objects in it. *)

From stdpp Require Import strings.
From S2P Require Import Prelude.

Definition digit_value (c : Ascii.ascii) : Z :=
  let n := Z.of_N (Ascii.N_of_ascii c) in if n <? 58 then n - 48 else n - 87.
Fixpoint hex_bytes (s : string) : list Z :=
  match s with
  | String hi (String lo s) => 16 * digit_value hi + digit_value lo :: hex_bytes s
  | _ => []
  end.

Definition libfixtures_lines : list string :=
  ["7f454c4602010100000000000000000003003e00010000008c150000000000004000000000000000e00d000000000000";
   "000000004000380003004000080007000100000004000000000000000000000000000000000000000000000000000000";
   "8c050000000000008c05000000000000001000000000000001000000050000008c050000000000008c15000000000000";
   "8c1500000000000030020000000000003002000000000000001000000000000050e57464040000003001000000000000";
   "300100000000000030010000000000000c010000000000000c010000000000000400000000000000741500007b150000";
   "8215000000000000b2150000b9150000c0150000e1150000e8150000ef150000081600000f1600002916000030160000";
   "6d160000481600008616000040160000011b033b0c010000200000005c140000280100005f1400003c01000067140000";
   "5c010000781400008401000084140000a401000092140000c0010000a3140000e8010000ab14000004020000ae140000";
   "18020000b114000034020000c614000050020000d414000068020000e314000080020000ea14000094020000ee140000";
   "a8020000f3140000bc020000fa140000dc02000005150000fc0200000d15000010030000101500002803000044150000";
   "4003000054150000580300009215000070030000cd15000088030000fb150000a003000022160000b803000029160000";
   "d40300002e160000ec030000331600000004000038160000180400004216000030040000671600004804000000000000";
   "1400000000000000017a5200017810011b0c070890010000100000001c0000002c13000003000000000000001c000000";
   "300000001b1300000800000000410e108602430d06430c07080000002400000050000000031300001100000000410e10";
   "8302420e188c03440e20460e18420e10410e08001c00000078000000ec1200000c00000000410e108602430d06470c07";
   "080000001800000098000000d81200000e00000000410e1083024c0e08c3000024000000b4000000ca12000011000000";
   "00410e108302440e18480e10410e08410e10410e0800000018000000dc000000b31200000800000000450e108c02420e";
   "08cc000010000000f80000009f12000003000000000e2000180000000c0100008e1200000300000000410e108302410e";
   "08c300001800000028010000751200001500000000440e204583034b0e08c30014000000440100006e1200000e000000";
   "00440e10490e0800140000005c010000641200000f00000000440e104a0e080010000000740100005b12000007000000";
   "0000000010000000880100004e1200000400000000000000100000009c0100003e1200000500000000440e101c000000";
   "b00100002f1200000700000000410e10420e18410e10420e080000001c000000d0010000161200000b00000000410e10";
   "420e18410e10420e0800000010000000f00100000112000008000000000000001400000004020000f511000003000000";
   "00420f0277080000140000001c020000e01100003400000000440e106f0e08001400000034020000fc11000010000000";
   "00440e104b0e0800140000004c020000f41100003e00000000440e10790e080014000000640200001a1200003b000000";
   "00440e10760e0800140000007c0200003d1200002e00000000440e10690e080014000000940200005312000027000000";
   "00440e10620e080018000000ac0200006212000007000000000e108302460e08c300000014000000c80200004d120000";
   "0500000000410e108302000010000000e00200003a120000040000000000000014000000f40200002b12000005000000";
   "00410e1083020000140000000c030000181200000a000000000e10490e08000014000000240300000a12000025000000";
   "00440e10600e0800100000003c030000171200001d0000000000000089f8c3554889e589f85dc35341544883ec0889f8";
   "4883c408415c5bc3554889e54883ec1089f8c9c35385ff7407b801000000eb005bc3534883ec084883c40885ff74025b";
   "c35bc341544989f4415cc389f8c3555dc34883ec1848895c240889f8488b5c24084883c418c34883ec08e88dffffff48";
   "83c408c34883ec0885ff7402ffe64883c408c389f8e972ffffff89f8ffe64883ec08c35341545b415cc35341545b415c";
   "e957ffffff48c7c37b000000c389f8c34883ec0889f883f8027724488d0d96eaffff486314814801ca3effe2b80a0000";
   "00eb0cb814000000eb05b81e0000004883c408c34883ec08488d1d75eaffff4883c408c34883ec084080ff027607b800";
   "000000eb28400fb6c7488d0d58eaffff486314814801ca3effe2b80a000000eb0cb814000000eb05b81e0000004883c4";
   "08c34883ec0889f883f8037207b800000000eb24488d0d29eaffff486314814801ca3effe2b80a000000eb0cb8140000";
   "00eb05b81e0000004883c408c34883ec0889f883f801771e488d0d01eaffff486314814801caffe2b80a000000eb0753";
   "b8140000005b4883c408c34883ec0889f8488d0de0e9ffff486314814801caffe2b801000000eb05b8020000004883c4";
   "08c3b8010000005bc35389f8ebf489f8ebf0c35389f8ebfab8140000004883c408c34883ec0889f883f8017715488d0d";
   "9ce9ffff486314814801caffe2b80a0000004883c408c389f883f8017715488d0d83e9ffff486314814801caffe2b80a";
   "000000c3554889e589f85dc3000000000000000000000000000000000000000000000000000000000100000002000400";
   "8c1500000000000003000000000000000b00000000000200300100000000000000000000000000001e00000012000400";
   "fd160000000000002e000000000000003400000012000400db1500000000000003000000000000004d00000012000400";
   "84160000000000003e0000000000000063000000120004002a160000000000000b000000000000008400000012000400";
   "5e1700000000000004000000000000009e0000001200040004160000000000000f00000000000000b300000012000400";
   "e1150000000000001500000000000000c20000001200040097150000000000001100000000000000d400000012000400";
   "35160000000000000800000000000000f600000012000400591700000000000005000000000000001101000012000400";
   "f6150000000000000e000000000000001b01000012000400b4150000000000000e000000000000003001000012000400";
   "d31500000000000008000000000000004201000012000400631700000000000005000000000000006101000012000400";
   "c2160000000000003b000000000000007601000012000400a8150000000000000c000000000000008101000012000400";
   "741600000000000010000000000000009b010000120004008f150000000000000800000000000000ae01000012000400";
   "1e160000000000000500000000000000c9010000120004003d160000000000000300000000000000df01000012000400";
   "1a160000000000000400000000000000f701000012000400c21500000000000011000000000000000702000012000400";
   "97170000000000001d000000000000002202000012000400721700000000000025000000000000003e02000012000400";
   "b41700000000000008000000000000004f02000012000400401600000000000034000000000000006102000012000400";
   "231600000000000007000000000000007c020000120004002b1700000000000027000000000000009a02000012000400";
   "de150000000000000300000000000000b3020000120004001316000000000000070000000000000000676f6f645f6c65";
   "6166005f5f474e555f45485f4652414d455f484452006261645f7377697463685f7461626c655f636173650072657669";
   "65775f756e757375616c5f656e7472795f726f7700676f6f645f7377697463685f7461626c655f6a6265006261645f74";
   "61696c5f63616c6c5f77726f6e675f7265675f726573746f726564006261645f6a756d705f746f5f636f6c645f667261";
   "676d656e74007265766965775f696e6469726563745f6a756d7000676f6f645f6d6f765f7370696c6c00676f6f645f63";
   "616c6c65655f7361766564007265766965775f7265745f63616c6c65655f73617665645f756e747261636b656400676f";
   "6f645f6a756d705f746f5f636f6c645f667261676d656e7400676f6f645f63616c6c00676f6f645f7368617265645f65";
   "70696c6f677565006261645f6c6174655f707573685f636669007265766965775f7461696c5f63616c6c5f6e6f5f7461";
   "726765745f66646500676f6f645f7377697463685f7461626c655f6a6200676f6f645f6c65617665006261645f6c6561";
   "5f696e746f5f63616c6c65655f736176656400676f6f645f6672616d655f706f696e746572006261645f7265745f7374";
   "61636b5f6e6f745f726573746f726564007265766965775f6366615f65787072657373696f6e00676f6f645f696e6469";
   "726563745f7461696c5f63616c6c006261645f686f69737465645f616464006261645f7377697463685f7461626c655f";
   "696e746f5f636f6c6400676f6f645f7377697463685f7461626c655f696e746f5f636f6c6400756e636f76657265645f";
   "6e6f5f63666900676f6f645f7377697463685f7461626c65006261645f7265745f77726f6e675f7265675f726573746f";
   "726564007265766965775f7377697463685f7461626c655f756e67756172646564006261645f77726f6e675f72656769";
   "737465725f736176656400676f6f645f7461696c5f63616c6c00002e73796d746162002e737472746162002e73687374";
   "72746162002e726f64617461002e65685f6672616d655f686472002e65685f6672616d65002e74657874000000000000";
   "000000000000000000000000000000000000000000000000000000000000000000000000000000000000000000000000";
   "000000000000000000000000000000001b000000010000000200000000000000e800000000000000e800000000000000";
   "480000000000000000000000000000000400000000000000000000000000000023000000010000000200000000000000";
   "300100000000000030010000000000000c01000000000000000000000000000004000000000000000000000000000000";
   "31000000010000000200000000000000400200000000000040020000000000004c030000000000000000000000000000";
   "080000000000000000000000000000003b0000000100000006000000000000008c150000000000008c05000000000000";
   "300200000000000000000000000000000100000000000000000000000000000001000000020000000000000000000000";
   "0000000000000000c0070000000000001803000000000000060000000300000008000000000000001800000000000000";
   "090000000300000000000000000000000000000000000000d80a000000000000c2020000000000000000000000000000";
   "010000000000000000000000000000001100000003000000000000000000000000000000000000009a0d000000000000";
   "4100000000000000000000000000000001000000000000000000000000000000"].

Definition libfixtures : list Z := concat (hex_bytes <$> libfixtures_lines).

Example libfixtures_size : length libfixtures = 4064%nat.
Proof. vm_compute. reflexivity. Qed.
