(* ===== verification/Lsda.v ===== *)
(** * Call-site tables

    Models [src/lsda-reader.h] and [src/lsda-reader.cc]: the byte cursor over
    an LSDA and [ReadLSDACallSites].  A cursor is the address it stands at; a
    read returns the value and the new address. *)

From stdpp Require Import sorting.
From S2P Require Import Prelude EhFrame ElfImage.

Record LSDACallSite := mkCS { cs_start : Z; cs_end : Z; cs_landing_pad : Z }.

Section Cursor.
Context (im : ELFImage).

Definition ReadU8 (vaddr : Z) : res (Z * Z) :=
  match BytesAt im vaddr 1 with
  | [] => fail "gcc_except_table: read past mapped data"
  | b :: _ => mret (b, u64 (vaddr + 1))
  end.

(** At most ten bytes: the eleventh turn sees [shift >= 64] and throws. *)
Fixpoint lsda_uleb_loop (fuel : nat) (vaddr shift result : Z) : res (Z * Z) :=
  match fuel with
  | O => Throw OutOfFuel
  | S fuel =>
      if 64 <=? shift then fail "gcc_except_table: uleb128 overflow"
      else
        '(byte, vaddr) ← ReadU8 vaddr;
        let result := Z.lor result (u64 (Z.shiftl (Z.land byte 0x7f) shift)) in
        if Z.land byte 0x80 =? 0 then mret (result, vaddr)
        else lsda_uleb_loop fuel vaddr (shift + 7) result
  end.
Definition LsdaUleb128 (vaddr : Z) : res (Z * Z) := lsda_uleb_loop 11 vaddr 0 0.

Definition ReadFixed (size : nat) (is_signed pcrel : bool) (vaddr : Z) : res (Z * Z) :=
  let base := if pcrel then vaddr else 0 in
  let b := BytesAt im vaddr (Z.of_nat size) in
  if bool_decide (length b < size)%nat then fail "gcc_except_table: truncated data"
  else
    let raw := le_value b in
    let bits := 8 * Z.of_nat size in
    let raw := if is_signed && (size <? 8)%nat && (2 ^ (bits - 1) <=? raw)
               then raw + (2 ^ 64 - 2 ^ bits) else raw in
    mret (u64 (base + raw), u64 (vaddr + Z.of_nat size)).

Definition unsupported {A} (encoding : Z) : res A :=
  fail ("gcc_except_table: unsupported encoding 0x" +:+ fmt_0x 2 encoding).

Definition ReadEncoded (encoding vaddr : Z) : res (Z * Z) :=
  let lo := Z.land encoding 0x0f in
  let hi := Z.land encoding 0xf0 in
  if lo =? DW_EH_PE_uleb128 then LsdaUleb128 vaddr
  else if negb (hi =? DW_EH_PE_pcrel) && negb (hi =? 0) then unsupported encoding
  else
    let pcrel := hi =? DW_EH_PE_pcrel in
    if lo =? DW_EH_PE_udata2 then ReadFixed 2 false pcrel vaddr
    else if lo =? DW_EH_PE_sdata4 then ReadFixed 4 true pcrel vaddr
    else if lo =? DW_EH_PE_udata4 then ReadFixed 4 false pcrel vaddr
    else if (lo =? DW_EH_PE_sdata8) || (lo =? DW_EH_PE_udata8) || (lo =? DW_EH_PE_absptr)
    then ReadFixed 8 false pcrel vaddr
    else unsupported encoding.

(** One record of the call-site table. *)
Definition call_site (encoding lpstart vaddr : Z) : res (option LSDACallSite * Z) :=
  '(start_offset, vaddr) ← ReadEncoded encoding vaddr;
  '(len, vaddr) ← ReadEncoded encoding vaddr;
  '(landing_pad_offset, vaddr) ← ReadEncoded encoding vaddr;
  '(_, vaddr) ← LsdaUleb128 vaddr;
  mret (if landing_pad_offset =? 0 then None
        else Some (mkCS (u64 (lpstart + start_offset)) (u64 (lpstart + start_offset + len))
                        (u64 (lpstart + landing_pad_offset))), vaddr).

Fixpoint call_site_loop (fuel : nat) (encoding lpstart table_end vaddr : Z)
    (acc : list LSDACallSite) : res (list LSDACallSite) :=
  if vaddr <? table_end then
    match fuel with
    | O => Throw OutOfFuel
    | S fuel =>
        '(cs, vaddr) ← call_site encoding lpstart vaddr;
        call_site_loop fuel encoding lpstart table_end vaddr
          (match cs with Some c => acc ++ [c] | None => acc end)
    end
  else mret acc.

Definition cs_le (a b : LSDACallSite) : Prop := cs_start a <= cs_start b.
#[export] Instance cs_le_dec : RelDecision cs_le.
Proof. intros a b. apply Z.le_dec. Defined.

(** Every record takes at least four bytes, so the table's length is fuel
    enough. *)
Definition ReadLSDACallSites (lsda_vaddr fde_pc_begin : Z) : res (list LSDACallSite) :=
  '(start_encoding, vaddr) ← ReadU8 lsda_vaddr;
  '(lpstart, vaddr) ← (if start_encoding =? DW_EH_PE_omitted then mret (fde_pc_begin, vaddr)
                       else ReadEncoded start_encoding vaddr);
  '(type_encoding, vaddr) ← ReadU8 vaddr;
  '(_, vaddr) ← (if type_encoding =? DW_EH_PE_omitted then mret (0, vaddr)
                 else LsdaUleb128 vaddr);
  '(call_site_encoding, vaddr) ← ReadU8 vaddr;
  '(table_length, vaddr) ← LsdaUleb128 vaddr;
  let table_end := u64 (vaddr + table_length) in
  sites ← call_site_loop (Z.to_nat (table_end - vaddr)) call_site_encoding lpstart table_end vaddr [];
  mret (merge_sort cs_le sites).
End Cursor.
