(* ===== verification/LsdaFacts.v ===== *)
(** * What the call-site reader reads

    [ReadLSDACallSites_roundtrip]: from the bytes a compiler emits for a
    call-site table the reader gets the table back.  [lsda_uleb_agrees]: its
    LEB128 reader and the one of the eh-frame reader agree wherever the
    latter, which is stricter, accepts.  [ReadLSDACallSites_returns]: the
    reader ends on every image. *)

From stdpp Require Import list sorting.
From S2P Require Import Prelude EhFrame Leb128 ElfImage ElfImageFacts Lsda.

(** ** Termination *)

(** No segment has a byte in the file at the last address. *)
Definition below_top (im : ELFImage) : Prop :=
  Forall (fun s => 0 <= seg_vaddr s ∧ seg_vaddr s + seg_filesz s < 2 ^ 64) (im_segments im).

(** As is the case of every well laid out file. *)
Lemma opened_below_top path file map_error reserve im :
  Forall is_u8 file → Open path file map_error reserve = Ok im → laid_out (im_segments im) → below_top im.
Proof.
  intros Hb E [Hends _]. apply Forall_forall. intros s Hs. pose proof (proj1 (Forall_forall _ _) Hends s Hs) as He.
  apply list_elem_of_lookup_1 in Hs as [k Hk]. destruct (opened_segment_ok _ _ _ _ Hb _ _ _ E Hk) as [acc [Hv _ Hz _ _ _]].
  unfold is_u64, kPageSize in *. cbn in He. lia.
Qed.

Lemma bytes_avail_inv segs v n k :
  bytes_avail segs v n = Some k →
  ∃ s, s ∈ segs ∧ seg_vaddr s <= v < seg_vaddr s + seg_filesz s ∧ k = Z.min n (seg_filesz s - (v - seg_vaddr s)).
Proof.
  induction segs as [|s segs IH]; cbn; [done|].
  destruct (v <? seg_vaddr s) eqn:E1; [|destruct (seg_filesz s <=? _) eqn:E2].
  1,2: intros H; destruct (IH H) as (s' & ? & ?); exists s'; split; [by right|done].
  intros [= <-]. exists s. split; [by left|]. lia.
Qed.

Lemma BytesAt_below_top im v n :
  below_top im → 0 <= n → BytesAt im v n ≠ [] → 0 <= v ∧ v + Z.of_nat (length (BytesAt im v n)) < 2 ^ 64.
Proof.
  intros Hb Hn. unfold BytesAt. destruct (bytes_avail _ _ _) as [k|] eqn:E; [|done]. intros _.
  apply bytes_avail_inv in E as (s & Hs & Hv & ->). pose proof (proj1 (Forall_forall _ _) Hb s Hs) as Ht. cbn in Ht.
  rewrite length_fmap, length_seqZ. lia.
Qed.

Section Returns.
Context (im : ELFImage) (Htop : below_top im).

(** A reader that consumes: it never runs out, and moves forward. *)
Definition consumes {A} (r : res (A * Z)) (v : Z) : Prop :=
  no_fuel r ∧ ∀ x v', r = Ok (x, v') → v < v'.

Lemma ReadU8_consumes v : consumes (ReadU8 im v) v.
Proof.
  unfold ReadU8. pose proof (BytesAt_below_top im v 1 Htop ltac:(lia)) as Hb.
  destruct (BytesAt im v 1) as [|b l]; [split; done|]. split; [done|]. intros x v' [= <- <-].
  cbn [length] in Hb. rewrite u64_id; [lia|]. unfold is_u64. specialize (Hb ltac:(done)). lia.
Qed.

Lemma ReadFixed_consumes size sg pc v : (0 < size)%nat → consumes (ReadFixed im size sg pc v) v.
Proof.
  intros Hs. unfold ReadFixed. pose proof (BytesAt_below_top im v (Z.of_nat size) Htop ltac:(lia)) as Hb.
  case_bool_decide as Hl; [split; done|]. split; [done|]. intros x v' [= _ <-].
  destruct (BytesAt im v (Z.of_nat size)) as [|b l]; [cbn in Hl; lia|]. specialize (Hb ltac:(done)).
  rewrite u64_id; [lia|]. unfold is_u64. lia.
Qed.

Lemma lsda_uleb_consumes fuel v shift r :
  64 <= shift + 7 * (Z.of_nat fuel - 1) → (0 < fuel)%nat → consumes (lsda_uleb_loop im fuel v shift r) v.
Proof.
  revert v shift r. induction fuel as [|fuel IH]; intros v shift r Hf Hpos; [lia|]. cbn [lsda_uleb_loop].
  destruct (64 <=? shift) eqn:E; [split; done|]. destruct (ReadU8_consumes v) as [Hn Hv].
  destruct (ReadU8 im v) as [[b v1]|e]; [|split; [intros [= ->]; by apply Hn|done]]. cbn.
  specialize (Hv b v1 eq_refl). destruct (_ =? 0).
  - split; [done|]. intros x v' [= _ <-]. done.
  - destruct (IH v1 (shift + 7) (Z.lor r (u64 (Z.shiftl (Z.land b 127) shift)))) as [Hn' Hv']; [lia|lia|].
    split; [done|]. intros x v' E'. specialize (Hv' x v' E'). lia.
Qed.
Lemma LsdaUleb128_consumes v : consumes (LsdaUleb128 im v) v.
Proof. apply lsda_uleb_consumes; lia. Qed.

Lemma ReadEncoded_consumes enc v : consumes (ReadEncoded im enc v) v.
Proof.
  unfold ReadEncoded. repeat case_match; try (apply LsdaUleb128_consumes); try (apply ReadFixed_consumes; lia);
    split; done.
Qed.

Lemma consumes_bind {A B} (r : res (A * Z)) (f : A * Z → res (B * Z)) v :
  consumes r v → (∀ x v', v < v' → consumes (f (x, v')) v') → consumes (r ≫= f) v.
Proof.
  intros [Hn Hv] Hf. destruct r as [[x v1]|e]; [|split; [intros [= ->]; by apply Hn|done]]. cbn.
  specialize (Hv x v1 eq_refl). destruct (Hf x v1 Hv) as [Hn' Hv']. split; [done|].
  intros y v' E. specialize (Hv' y v' E). lia.
Qed.

Lemma call_site_consumes enc lp v : consumes (call_site im enc lp v) v.
Proof.
  unfold call_site. apply consumes_bind; [apply ReadEncoded_consumes|]. intros s v1 _.
  apply consumes_bind; [apply ReadEncoded_consumes|]. intros l v2 _.
  apply consumes_bind; [apply ReadEncoded_consumes|]. intros p v3 _.
  pose proof (LsdaUleb128_consumes v3) as [Hn Hv]. destruct (LsdaUleb128 im v3) as [[a v4]|e].
  - split; [done|]. intros x v' [= _ <-]. by apply (Hv a).
  - split; [intros [= ->]; by apply Hn|done].
Qed.

Lemma call_site_loop_returns fuel enc lp table_end v acc :
  table_end - v <= Z.of_nat fuel → no_fuel (call_site_loop im fuel enc lp table_end v acc).
Proof.
  revert v acc. induction fuel as [|fuel IH]; intros v acc Hf; cbn [call_site_loop].
  - destruct (v <? table_end) eqn:E; [lia|done].
  - destruct (v <? table_end) eqn:E; [|done]. destruct (call_site_consumes enc lp v) as [Hn Hv].
    destruct (call_site im enc lp v) as [[cs v1]|e]; [|intros [= ->]; by apply Hn]. cbn.
    specialize (Hv cs v1 eq_refl). apply IH. lia.
Qed.

(** Reading a call-site table always ends, with the table or an error of the
    reader's own. *)
Lemma ReadLSDACallSites_returns v pc : no_fuel (ReadLSDACallSites im v pc).
Proof.
  unfold ReadLSDACallSites. apply no_fuel_bind; [apply ReadU8_consumes|]. intros [se v1] _.
  apply no_fuel_bind; [destruct (_ =? _); [done|apply ReadEncoded_consumes]|]. intros [lp v2] _.
  apply no_fuel_bind; [apply ReadU8_consumes|]. intros [te v3] _.
  apply no_fuel_bind; [destruct (_ =? _); [done|apply LsdaUleb128_consumes]|]. intros [tt v4] _.
  apply no_fuel_bind; [apply ReadU8_consumes|]. intros [ce v5] _.
  apply no_fuel_bind; [apply LsdaUleb128_consumes|]. intros [len v6] _. cbv zeta.
  apply no_fuel_bind; [|done]. apply call_site_loop_returns. lia.
Qed.
End Returns.

(** ** The round trip *)

(** The image has the bytes [bs] in its files at [v]. *)
Definition holds_at (im : ELFImage) (v : Z) (bs : list Z) : Prop :=
  0 <= v ∧ v + Z.of_nat (length bs) < 2 ^ 64 ∧
  ∀ k b, bs !! k = Some b → BytesAt im (v + Z.of_nat k) 1 = [b].

Section Roundtrip.
Context (im : ELFImage).

Lemma holds_at_cons v b bs :
  holds_at im v (b :: bs) → ReadU8 im v = Ok (b, v + 1) ∧ holds_at im (v + 1) bs.
Proof.
  intros (Hv & Hlen & Hbs). cbn [length] in Hlen. split.
  - unfold ReadU8. pose proof (Hbs 0%nat b eq_refl) as H0. rewrite Z.add_0_r in H0. rewrite H0.
    rewrite u64_id by (unfold is_u64; lia). done.
  - split; [lia|]. split; [lia|]. intros k b' Hk. replace (v + 1 + Z.of_nat k) with (v + Z.of_nat (S k)) by lia.
    by apply Hbs.
Qed.

Lemma holds_at_app v bs bs' :
  holds_at im v (bs ++ bs') ↔ holds_at im v bs ∧ holds_at im (v + Z.of_nat (length bs)) bs'.
Proof.
  unfold holds_at. rewrite length_app. split.
  - intros (Hv & Hlen & Hbs). split; (split; [lia|]; split; [lia|]).
    + intros k b Hk. apply Hbs. by apply lookup_app_l_Some.
    + intros k b Hk. rewrite <- Z.add_assoc, <- Nat2Z.inj_add. apply Hbs.
      rewrite lookup_app_r by lia. by replace (length bs + k - length bs)%nat with k by lia.
  - intros [(Hv & Hlen & Hbs) (Hv' & Hlen' & Hbs')]. split; [lia|]. split; [lia|].
    intros k b [Hk|[Hge Hk]]%lookup_app_Some; [by apply Hbs|].
    specialize (Hbs' _ _ Hk). by replace (v + Z.of_nat (length bs) + Z.of_nat (k - length bs))
      with (v + Z.of_nat k) in Hbs' by lia.
Qed.

(** Where the eh-frame reader accepts, this one reads the same. *)
Lemma lsda_uleb_agrees fuel bs v shift r a x s :
  uleb_loop bs a shift r = Ok (x, s) → holds_at im v bs → 64 <= shift + 7 * Z.of_nat fuel →
  lsda_uleb_loop im fuel v shift r = Ok (x, v + (sl_addr s - a)).
Proof.
  revert bs v shift r a. induction fuel as [|fuel IH]; intros bs v shift r a E Hbs Hf.
  - destruct bs; cbn [uleb_loop] in E; (destruct (64 <=? shift) eqn:E1; [done|lia]).
  - cbn [lsda_uleb_loop]. destruct bs as [|b bs]; cbn [uleb_loop] in E; (destruct (64 <=? shift) eqn:E1; [done|]); [done|].
    destruct (_ && _); [done|]. apply holds_at_cons in Hbs as [-> Hbs]. cbn. cbv zeta in E.
    destruct (Z.land b 128 =? 0).
    + injection E as <- <-. cbn. do 2 f_equal. lia.
    + rewrite (IH _ _ _ _ _ E Hbs) by lia. do 2 f_equal. lia.
Qed.

Lemma LsdaUleb128_enc v x :
  is_u64 x → holds_at im v (uleb128 x) → LsdaUleb128 im v = Ok (x, v + Z.of_nat (length (uleb128 x))).
Proof.
  intros Hx Hv. pose proof (ReadUleb128_enc 0 x [] Hx) as E. rewrite app_nil_r in E.
  unfold ReadUleb128 in E. cbn [sl_bytes sl_addr] in E. unfold LsdaUleb128.
  rewrite (lsda_uleb_agrees _ _ _ _ _ _ _ _ E Hv) by lia. cbn. do 2 f_equal. lia.
Qed.

(** *** The table *)

(** A record of the call-site table: the start, the length and the landing
    pad as offsets from the function's start, and the action. *)
Record SiteRecord := mkSite { si_start : Z; si_len : Z; si_pad : Z; si_action : Z }.
Definition site_fields (s : SiteRecord) : list Z := [si_start s; si_len s; si_pad s; si_action s].
Definition encode_site (s : SiteRecord) : list Z := site_fields s ≫= uleb128.
Definition encode_sites (l : list SiteRecord) : list Z := l ≫= encode_site.

(** The LSDA a compiler emits: no landing-pad base, the type table's encoding
    and offset or none, and a call-site table of ULEB128 fields. *)
Definition encode_type_table (tt : option (Z * Z)) : list Z :=
  match tt with None => [DW_EH_PE_omitted] | Some (enc, off) => enc :: uleb128 off end.
Definition encode_lsda (tt : option (Z * Z)) (l : list SiteRecord) : list Z :=
  DW_EH_PE_omitted :: encode_type_table tt
  ++ DW_EH_PE_uleb128 :: uleb128 (Z.of_nat (length (encode_sites l))) ++ encode_sites l.

(** What the reader keeps of a record. *)
Definition site_of (pc : Z) (s : SiteRecord) : option LSDACallSite :=
  if si_pad s =? 0 then None
  else Some (mkCS (u64 (pc + si_start s)) (u64 (pc + si_start s + si_len s)) (u64 (pc + si_pad s))).

Lemma ReadEncoded_uleb v : ReadEncoded im DW_EH_PE_uleb128 v = LsdaUleb128 im v.
Proof. done. Qed.

Lemma uleb128_length x : is_u64 x → (1 ≤ length (uleb128 x))%nat.
Proof.
  intros Hx. unfold uleb128. cbn [uleb_enc]. case_match; cbn; lia.
Qed.

Lemma call_site_enc pc v s :
  Forall is_u64 (site_fields s) → holds_at im v (encode_site s) →
  call_site im DW_EH_PE_uleb128 pc v = Ok (site_of pc s, v + Z.of_nat (length (encode_site s))).
Proof.
  intros Hf Hv. unfold encode_site in *. cbn [site_fields fmap list_fmap mbind list_bind id] in *.
  repeat (apply Forall_cons in Hf as [? Hf]). rewrite !app_nil_r in *.
  apply holds_at_app in Hv as [Hv1 Hv]. apply holds_at_app in Hv as [Hv2 Hv]. apply holds_at_app in Hv as [Hv3 Hv4].
  unfold call_site. rewrite ReadEncoded_uleb, (LsdaUleb128_enc _ (si_start s)) by done. cbn [mbind res_bind].
  rewrite ReadEncoded_uleb, (LsdaUleb128_enc _ (si_len s)) by done. cbn [mbind res_bind].
  rewrite ReadEncoded_uleb, (LsdaUleb128_enc _ (si_pad s)) by done. cbn [mbind res_bind].
  rewrite (LsdaUleb128_enc _ (si_action s)) by done. cbn [mbind res_bind]. unfold site_of.
  rewrite !length_app, !Nat2Z.inj_add, !Z.add_assoc. done.
Qed.

Lemma encode_site_length s : Forall is_u64 (site_fields s) → (1 ≤ length (encode_site s))%nat.
Proof.
  intros Hf. unfold encode_site. cbn [site_fields mbind list_bind]. rewrite length_app.
  apply Forall_cons in Hf as [Hf _]. pose proof (uleb128_length _ Hf). lia.
Qed.

Lemma call_site_loop_enc pc l fuel v acc :
  Forall (fun s => Forall is_u64 (site_fields s)) l → holds_at im v (encode_sites l) → (length l ≤ fuel)%nat →
  call_site_loop im fuel DW_EH_PE_uleb128 pc (v + Z.of_nat (length (encode_sites l))) v acc
  = Ok (acc ++ omap (site_of pc) l).
Proof.
  intros Hl. revert fuel v acc. induction Hl as [|s l Hs Hl IH]; intros fuel v acc Hv Hf.
  - cbn. rewrite app_nil_r, Z.add_0_r. destruct fuel; cbn [call_site_loop]; by rewrite Z.ltb_irrefl.
  - destruct fuel as [|fuel]; [cbn in Hf; lia|]. cbn [length] in Hf.
    change (encode_sites (s :: l)) with (encode_site s ++ encode_sites l) in *.
    apply holds_at_app in Hv as [Hv1 Hv2]. rewrite length_app, Nat2Z.inj_add. cbn [call_site_loop].
    pose proof (encode_site_length s Hs). rewrite (proj2 (Z.ltb_lt _ _)) by lia.
    rewrite (call_site_enc pc v s Hs Hv1). cbn [mbind res_bind]. rewrite Z.add_assoc, IH by (done || lia).
    cbn [omap list_omap]. destruct (site_of pc s); [by rewrite <- app_assoc|done].
Qed.

Lemma encode_sites_length l :
  Forall (fun s => Forall is_u64 (site_fields s)) l → (length l ≤ length (encode_sites l))%nat.
Proof.
  induction 1 as [|s l Hs _ IH]; [done|]. change (encode_sites (s :: l)) with (encode_site s ++ encode_sites l).
  rewrite length_app. pose proof (encode_site_length s Hs). cbn [length]. lia.
Qed.

(** C22: the call-site reader inverts the compiler: from the LSDA of a
    function at [pc] with ULEB128 fields, with or without a type table, it
    returns exactly the records that have a landing pad, as the ranges and
    addresses they stand for, sorted by start. *)
Theorem ReadLSDACallSites_roundtrip v pc tt l :
  holds_at im v (encode_lsda tt l) → Forall (fun s => Forall is_u64 (site_fields s)) l →
  match tt with Some (enc, off) => enc ≠ DW_EH_PE_omitted ∧ is_u64 off | None => True end →
  ReadLSDACallSites im v pc = Ok (merge_sort cs_le (omap (site_of pc) l)).
Proof.
  intros Hv Hl Htt. unfold encode_lsda in Hv. apply holds_at_cons in Hv as [H1 Hv].
  apply holds_at_app in Hv as [Htype Hv]. apply holds_at_cons in Hv as [Hcs Hv].
  apply holds_at_app in Hv as [Hlen Hv]. pose proof Hv as (Hv0 & Hv64 & _).
  unfold ReadLSDACallSites. rewrite H1. cbn [mbind res_bind]. rewrite Z.eqb_refl. cbn [mret res_ret mbind res_bind].
  assert (∃ te, ReadU8 im (v + 1) = Ok (te, v + 1 + 1) ∧
    (if te =? DW_EH_PE_omitted then mret (0, v + 1 + 1) else LsdaUleb128 im (v + 1 + 1))
    = Ok (default 0 (snd <$> tt), v + 1 + Z.of_nat (length (encode_type_table tt)))) as (te & -> & Hte).
  { destruct tt as [[enc off]|]; cbn [encode_type_table] in Htype; apply holds_at_cons in Htype as [-> Htype].
    - exists enc. split; [done|]. destruct Htt as [He Ho]. rewrite (proj2 (Z.eqb_neq _ _) He).
      rewrite (LsdaUleb128_enc _ off Ho Htype). cbn. do 2 f_equal. lia.
    - eexists. split; [done|]. cbn. do 2 f_equal. }
  cbn [mbind res_bind]. rewrite Hte. cbn [mbind res_bind]. rewrite Hcs. cbn [mbind res_bind].
  assert (is_u64 (Z.of_nat (length (encode_sites l)))) as Hn by (unfold is_u64; lia).
  rewrite (LsdaUleb128_enc _ _ Hn Hlen). cbn [mbind res_bind]. cbv zeta.
  rewrite u64_id by (unfold is_u64; lia). rewrite call_site_loop_enc; [done|done|done|].
  pose proof (encode_sites_length l Hl). lia.
Qed.
End Roundtrip.

(** ** Concrete instance *)

Definition sample_sites : list SiteRecord := [mkSite 300 8 200 1; mkSite 16 4 0 0; mkSite 0 16 32 0].
Definition sample_lsda : list Z := encode_lsda (Some (0x9b, 21)) sample_sites.
Definition lsda_image : ELFImage :=
  mkImage "lsda" 0 [mkSeg 0x3000 64 64 0 4] [] 0 0 0 [] false false
    (fun a => default 0 (sample_lsda !! Z.to_nat (a - 0x3000))).

Lemma lsda_image_holds : holds_at lsda_image 0x3000 sample_lsda.
Proof.
  split; [lia|]. split; [vm_compute; reflexivity|]. intros k b Hk.
  assert (Forall (fun k => BytesAt lsda_image (0x3000 + Z.of_nat k) 1 = [default 0 (sample_lsda !! k)])
            (seq 0 (length sample_lsda))) as Hall by (apply (bool_decide_unpack _); vm_compute; exact I).
  rewrite Forall_forall in Hall. rewrite Hall; [by rewrite Hk|].
  apply elem_of_seq. apply lookup_lt_Some in Hk. lia.
Qed.

Lemma ReadLSDACallSites_roundtrip_witness :
  ReadLSDACallSites lsda_image 0x3000 0x1000 = Ok [mkCS 0x1000 0x1010 0x1020; mkCS 0x112c 0x1134 0x10c8].
Proof.
  rewrite (ReadLSDACallSites_roundtrip lsda_image 0x3000 0x1000 (Some (0x9b, 21)) sample_sites lsda_image_holds).
  - vm_compute. reflexivity.
  - repeat constructor; unfold is_u64; cbn; lia.
  - split; [discriminate|unfold is_u64; lia].
Defined.
