(* ===== verification/RowCheck.v ===== *)
(** * Findings, and one row against one state

    Models the first part of [src/fde-checker.cc]: [FindingSink],
    [RowChecker], [RowMatchesCleanly], [RowDependsOn], the fall-through test
    and the exit-state test, with the result types of [src/fde-checker.h].
    A [RowChecker] call is the list of the findings it makes, in order;
    [Check] adds them to a sink. *)

From stdpp Require Import gmap strings.
From S2P Require Import Prelude CfiTable AbsState Zydis InsnSemantics.

Inductive Severity := kReviewSev | kMismatchSev.
#[export] Instance Severity_eq_dec : EqDecision Severity.
Proof. solve_decision. Defined.

Inductive Verdict := kBlessed | kReviewLight | kReview | kMismatch.
#[export] Instance Verdict_eq_dec : EqDecision Verdict.
Proof. solve_decision. Defined.

Definition Verdict_str (v : Verdict) : string :=
  match v with
  | kBlessed => "BLESSED"
  | kReviewLight => "REVIEW-LIGHT"
  | kReview => "REVIEW"
  | kMismatch => "MISMATCH"
  end.

Record Finding := mkFinding { f_severity : Severity; f_pc : Z; f_message : string; f_repeats : Z }.
#[export] Instance Finding_eq_dec : EqDecision Finding.
Proof. solve_decision. Defined.

(** ** [FindingSink] *)

Record FindingSink := mkSink {
  sk_cap : nat;
  sk_truncated : Z;
  sk_findings : list Finding;
  sk_index : gmap string nat
}.

Definition new_sink (cap : nat) : FindingSink := mkSink cap 0 [] ∅.

Definition bump (f : Finding) : Finding :=
  mkFinding (f_severity f) (f_pc f) (f_message f) (f_repeats f + 1).

Definition Add (sev : Severity) (pc : Z) (msg : string) (sk : FindingSink) : FindingSink :=
  match sk_index sk !! msg with
  | Some i => mkSink (sk_cap sk) (sk_truncated sk) (alter bump i (sk_findings sk)) (sk_index sk)
  | None =>
      if bool_decide (sk_cap sk ≤ length (sk_findings sk))%nat then
        mkSink (sk_cap sk) (sk_truncated sk + 1) (sk_findings sk) (sk_index sk)
      else
        mkSink (sk_cap sk) (sk_truncated sk) (sk_findings sk ++ [mkFinding sev pc msg 0])
               (<[msg := length (sk_findings sk)]> (sk_index sk))
  end.

Definition Take (sk : FindingSink) : list Finding :=
  if 0 <? sk_truncated sk then
    sk_findings sk ++
      [mkFinding kReviewSev 0 (fmt_d (sk_truncated sk) +:+ " further distinct findings not shown") 0]
  else sk_findings sk.

(** A finding about to be added. *)
Definition issue : Type := Severity * string.
Definition review (msg : string) : list issue := [(kReviewSev, msg)].
Definition mismatch (msg : string) : list issue := [(kMismatchSev, msg)].

Definition add_issues (pc : Z) (l : list issue) (sk : FindingSink) : FindingSink :=
  foldl (fun sk '(sev, msg) => Add sev pc msg sk) sk l.

(** ** [RowChecker] *)

Definition kCalleeSaved : list Z := [kDWARFRbx; kDWARFRbp; 12; 13; 14; 15].
Definition IsCalleeSaved (r : Z) : bool := existsb (Z.eqb r) kCalleeSaved.

Definition CheckCFA (cfa : CFARule) (s : AbsState) : list issue :=
  match cfa_kind cfa with
  | CFA_Undefined => review "no CFA rule is in force here"
  | CFA_Expression =>
      review "CFA is given by a DWARF expression, which this version does not evaluate"
  | CFA_RegOffset =>
      let name := DWARFRegName (cfa_reg cfa) in
      match reg s (cfa_reg cfa) with
      | CFARel delta =>
          if negb (s64 (delta + cfa_offset cfa) =? 0) then
            mismatch ("declared CFA is " +:+ CFARule_str cfa +:+ ", but " +:+ name +:+ " is CFA"
              +:+ fmt_plus_int delta +:+ " here, so the rule yields CFA"
              +:+ fmt_plus_int (s64 (delta + cfa_offset cfa)) +:+ " (should be " +:+ name
              +:+ fmt_plus_int (s64 (- delta)) +:+ ")")
          else []
      | v =>
          review ("CFA is declared as " +:+ CFARule_str cfa +:+ ", but " +:+ name +:+ " holds "
            +:+ AbsVal_str v +:+ " here, so the rule cannot be verified")
      end
  end.

Definition CheckSameValue (r : Z) (s : AbsState) : list issue :=
  let v := reg s r in
  if is_unknown v then
    review ("CFI says " +:+ DWARFRegName r
      +:+ " still holds its entry value, but we are not tracking it here")
  else if negb (IsOrigReg v r) then
    mismatch ("CFI says " +:+ DWARFRegName r +:+ " still holds its entry value, but it holds "
      +:+ AbsVal_str v)
  else [].

(** [check_unset]: callee-saved registers without a rule are held to their
    entry value. *)
Definition CheckReg (check_unset : bool) (r : Z) (rule : RegRule) (s : AbsState) : list issue :=
  let name := DWARFRegName r in
  match rule with
  | RR_Unset => if check_unset && IsCalleeSaved r then CheckSameValue r s else []
  | RR_Undefined => []
  | RR_SameValue => CheckSameValue r s
  | RR_AtCFAOffset offset =>
      let at_ := Slot s offset in
      if is_unknown at_ then
        review ("CFI says " +:+ name +:+ " is saved at [CFA" +:+ fmt_plus_int offset
          +:+ "], but we cannot say what is stored there")
      else if negb (IsOrigReg at_ r) then
        mismatch ("CFI says " +:+ name +:+ " is saved at [CFA" +:+ fmt_plus_int offset
          +:+ "], but that slot holds " +:+ AbsVal_str at_)
      else []
  | RR_ValOffset offset =>
      let v := reg s r in
      if is_unknown v then
        review ("CFI says " +:+ name +:+ " is CFA" +:+ fmt_plus_int offset
          +:+ ", but we are not tracking it here")
      else if negb (IsCFARel v offset) then
        mismatch ("CFI says " +:+ name +:+ " is CFA" +:+ fmt_plus_int offset +:+ ", but it holds "
          +:+ AbsVal_str v)
      else []
  | RR_InRegister g =>
      let v := reg s g in
      let gname := DWARFRegName g in
      if is_unknown v then
        review ("CFI says " +:+ name +:+ " was moved into " +:+ gname +:+ ", but we are not tracking "
          +:+ gname +:+ " here")
      else if negb (IsOrigReg v r) then
        mismatch ("CFI says " +:+ name +:+ " was moved into " +:+ gname +:+ ", but " +:+ gname
          +:+ " holds " +:+ AbsVal_str v)
      else []
  | RR_Expression | RR_ValExpression =>
      review (name +:+ " is described by a DWARF expression, which this version does not evaluate")
  end.

(** All the findings of one [RowChecker::Check]. *)
Definition row_issues (check_unset : bool) (row : CFIRow) (s : AbsState) : list issue :=
  CheckCFA (row_cfa row) s ++
  (range0 kNumDWARFRegs ≫= fun r => CheckReg check_unset r (row_reg row r) s).

Definition CheckRow (check_unmentioned force : bool) (pc : Z) (row : CFIRow) (s : AbsState)
    (edge_context : string) (sk : FindingSink) : FindingSink :=
  add_issues pc ((fun '(sev, msg) => (sev, edge_context +:+ msg)) <$>
                   row_issues (check_unmentioned || force) row s) sk.

Definition RowMatchesCleanly (check_unmentioned : bool) (pc : Z) (row : CFIRow) (s : AbsState)
    (force : bool) : bool :=
  bool_decide (Take (CheckRow check_unmentioned force pc row s "" (new_sink 1)) = []).

(** ** Join conflicts a row cares about *)

Definition RowDependsOn (row : CFIRow) (c : JoinConflict) : bool :=
  if jc_reg c =? kSlotConflict then
    existsb (fun rule => match rule with
                         | RR_AtCFAOffset o => o =? jc_offset c
                         | _ => false
                         end) (row_regs row)
  else
    (bool_decide (cfa_kind (row_cfa row) = CFA_RegOffset) && (cfa_reg (row_cfa row) =? jc_reg c))
    || existsb (fun r =>
         match row_reg row r with
         | RR_InRegister g => g =? jc_reg c
         | RR_SameValue | RR_ValOffset _ => r =? jc_reg c
         | _ => false
         end) (range0 kNumDWARFRegs).

(** ** Is the fall-through real? *)

Definition CFASatisfiedBy (cfa : CFARule) (v : AbsVal) : bool :=
  match v with CFARel d => s64 (d + cfa_offset cfa) =? 0 | _ => false end.

Definition RowLooksLikeFreshBlockStart (row : CFIRow) : bool :=
  forallb (fun r => (r =? kDWARFRip) || bool_decide (row_reg row r = RR_Unset))
          (range0 kNumDWARFRegs).

(** [*p] for a row pointer; a null one is never dereferenced inside an FDE's
    range ([RowAt] does not miss there). *)
Definition deref (cfi : CFI) (p : option nat) : CFIRow :=
  default (mkRow 0 CFARule_default no_rules) (i ← p; rows cfi !! i).

Definition FallThroughIsReal (cfi : CFI) (here : option nat) (next : Z) (before : list AbsVal)
    (after : AbsState) (after_call : bool) : bool :=
  match RowAt cfi next with
  | None => true
  | Some i =>
      if bool_decide (here = Some i) then true
      else
        let row := deref cfi (Some i) in
        if after_call && RowLooksLikeFreshBlockStart row
           && negb (RowLooksLikeFreshBlockStart (deref cfi here)) then false
        else
          let cfa := row_cfa row in
          if negb (bool_decide (cfa_kind cfa = CFA_RegOffset)) || (kNumGPRs <=? cfa_reg cfa) then true
          else
            let was := default Bottom (before !! Z.to_nat (cfa_reg cfa)) in
            let now := reg after (cfa_reg cfa) in
            match was, now with
            | CFARel _, CFARel _ => CFASatisfiedBy cfa now || CFASatisfiedBy cfa was
            | _, _ => true
            end
  end.

(** ** Exit states *)

Definition IsExitState (s : AbsState) : bool :=
  IsCFARel (reg s kDWARFRsp) (-8) && forallb (fun r => IsOrigReg (reg s r) r) kCalleeSaved.

Definition exit_rsp (context : string) (is_tail_call : bool) (rsp : AbsVal) : list issue :=
  if is_unknown rsp then
    review (context +:+ " with untracked rsp (" +:+ AbsVal_str rsp +:+ ")")
  else if negb (IsCFARel rsp (-8)) then
    if is_tail_call then
      review ("unconditional jump out of FDE to an address with no covering FDE, with rsp at CFA"
        +:+ fmt_plus_int (av_delta rsp)
        +:+ " (should be CFA-8 for a tail call; could be a branch to a noreturn call, or into code with no CFI at all)")
    else mismatch ("return with rsp at CFA" +:+ fmt_plus_d (av_delta rsp) +:+ " (should be CFA-8)")
  else [].

Definition exit_callee_saved (context : string) (s : AbsState) (r : Z) : list issue :=
  let v := reg s r in
  if is_unknown v then
    review (context +:+ " with untracked callee-saved register " +:+ DWARFRegName r +:+ " ("
      +:+ AbsVal_str v +:+ ")")
  else if negb (IsOrigReg v r) then
    mismatch (context +:+ " with callee-saved register " +:+ DWARFRegName r +:+ " holding "
      +:+ AbsVal_str v +:+ " (entry value was not restored)")
  else [].

Definition exit_ra (context : string) (s : AbsState) : list issue :=
  let ra := Slot s (-8) in
  if is_unknown ra then
    review (context +:+ " with untracked return address slot at [CFA-8] (" +:+ AbsVal_str ra +:+ ")")
  else if negb (IsOrigReg ra kDWARFRip) then
    mismatch (context +:+ " with return address slot at [CFA-8] holding " +:+ AbsVal_str ra
      +:+ " (overwritten)")
  else [].

(** [CheckExitState]'s findings. *)
Definition exit_issues (is_canonical_entry is_tail_call : bool) (s : AbsState) : list issue :=
  let context := if is_tail_call then "tail call" else "return" in
  if negb is_canonical_entry then
    review (context +:+ " in an FDE that did not start at a canonical function entry")
  else
    let rsp := reg s kDWARFRsp in
    let ambiguous_tail_call := is_tail_call && negb (IsCFARel rsp (-8)) in
    exit_rsp context is_tail_call rsp ++
    (if ambiguous_tail_call then []
     else (kCalleeSaved ≫= exit_callee_saved context s) ++ exit_ra context s).
