(* ===== verification/FdeChecker.v ===== *)
(** * Checking one FDE

    Models [class FDEChecker] of [src/fde-checker.cc] and the free functions
    [Check] and [CheckWithGuessing]: the forward dataflow over the
    instructions reachable from [pc_begin] (pass 1), the comparison of every
    settled state with its CFI row (pass 2), the coverage report and the
    verdict.  The members of the class are the record [Walk]; the worklist is
    a list whose head is [worklist_.back()]. *)

From stdpp Require Import gmap strings sorting.
From S2P Require Import Prelude CfiTable AbsState Zydis InsnSemantics ElfImage Lsda RowCheck.

Record GuessedJumpTable := mkGuess { gj_pc : Z; gj_table_addr : Z; gj_targets : list Z }.

Record FDEResult := mkResult {
  r_fde_addr : Z;
  r_pc_begin : Z;
  r_pc_end : Z;
  r_signal_frame : bool;
  r_verdict : Verdict;
  r_findings : list Finding;
  r_instructions_checked : Z;
  r_guessable_jump_pc : option Z;
  r_guessed_jump_tables : list GuessedJumpTable
}.

Record FDECheckerOptions := mkOptions {
  o_image : ELFImage;
  o_check_unmentioned_callee_saved : bool;
  o_report_coverage_gaps : bool;
  o_max_findings_per_fde : nat;
  o_max_iterations : nat;
  o_all_cfis : list (Z * Z * CFI)
}.

Definition kMaxJumpTableEntries : Z := 512.
Definition kUnresolvedIndirectJumpMsg : string :=
  "unresolved indirect jump; jump tables are not resolved in this version, so the code it reaches went unchecked".

(** The mutable members; the counters that only feed the log are budget out. *)
Record Walk := mkWalk {
  in_states : gmap Z AbsState;
  insn_sizes : gmap Z Z;
  join_conflicts : gmap Z (list JoinConflict);
  worklist : list Z;
  pending_pushes : gmap Z bool;
  iterations : nat;
  hit_cap : bool;
  w_sink : FindingSink;
  instructions_checked : Z;
  unbounded_jump_count : Z;
  unbounded_jump_pc : Z;
  guessed_jump_tables : list GuessedJumpTable
}.

Definition new_walk (cap : nat) : Walk := mkWalk ∅ ∅ ∅ [] ∅ 0 false (new_sink cap) 0 0 0 [].

Definition with_sink (f : FindingSink → FindingSink) (w : Walk) : Walk :=
  mkWalk (in_states w) (insn_sizes w) (join_conflicts w) (worklist w) (pending_pushes w)
         (iterations w) (hit_cap w) (f (w_sink w)) (instructions_checked w)
         (unbounded_jump_count w) (unbounded_jump_pc w) (guessed_jump_tables w).
Definition with_flow (states : gmap Z AbsState) (conflicts : gmap Z (list JoinConflict))
    (work : list Z) (pending : gmap Z bool) (w : Walk) : Walk :=
  mkWalk states (insn_sizes w) conflicts work pending (iterations w) (hit_cap w) (w_sink w)
         (instructions_checked w) (unbounded_jump_count w) (unbounded_jump_pc w)
         (guessed_jump_tables w).
Definition with_insn_size (pc size : Z) (w : Walk) : Walk :=
  mkWalk (in_states w) (<[pc := size]> (insn_sizes w)) (join_conflicts w) (worklist w)
         (pending_pushes w) (iterations w) (hit_cap w) (w_sink w) (instructions_checked w)
         (unbounded_jump_count w) (unbounded_jump_pc w) (guessed_jump_tables w).
Definition with_iterations (n : nat) (cap : bool) (w : Walk) : Walk :=
  mkWalk (in_states w) (insn_sizes w) (join_conflicts w) (worklist w) (pending_pushes w)
         n cap (w_sink w) (instructions_checked w) (unbounded_jump_count w) (unbounded_jump_pc w)
         (guessed_jump_tables w).
Definition count_instruction (w : Walk) : Walk :=
  mkWalk (in_states w) (insn_sizes w) (join_conflicts w) (worklist w) (pending_pushes w)
         (iterations w) (hit_cap w) (w_sink w) (instructions_checked w + 1)
         (unbounded_jump_count w) (unbounded_jump_pc w) (guessed_jump_tables w).
Definition count_unbounded (pc : Z) (w : Walk) : Walk :=
  mkWalk (in_states w) (insn_sizes w) (join_conflicts w) (worklist w) (pending_pushes w)
         (iterations w) (hit_cap w) (w_sink w) (instructions_checked w)
         (unbounded_jump_count w + 1) pc (guessed_jump_tables w).
Definition add_guess (g : GuessedJumpTable) (w : Walk) : Walk :=
  mkWalk (in_states w) (insn_sizes w) (join_conflicts w) (worklist w) (pending_pushes w)
         (iterations w) (hit_cap w) (w_sink w) (instructions_checked w)
         (unbounded_jump_count w) (unbounded_jump_pc w) (guessed_jump_tables w ++ [g]).

Definition sink_review (pc : Z) (msg : string) : Walk → Walk := with_sink (Add kReviewSev pc msg).

(** ** Lookups in the FDE index *)

Definition index_after (pc : Z) (e : Z * Z * CFI) : bool := pc <? e.1.1.

Definition CFIContaining (index : list (Z * Z * CFI)) (pc : Z) : option CFI :=
  match partition_point (index_after pc) index with
  | O => None
  | S i =>
      match index !! i with
      | Some (b, e, c) => if (pc <? b) || (e <=? pc) then None else Some c
      | None => None
      end
  end.

Definition cs_after (pc : Z) (cs : LSDACallSite) : bool := pc <? cs_start cs.

Definition LandingPadForCall (sites : list LSDACallSite) (call_pc : Z) : option Z :=
  match partition_point (cs_after call_pc) sites with
  | O => None
  | S i =>
      match sites !! i with
      | Some cs => if (cs_start cs <=? call_pc) && (call_pc <? cs_end cs)
                   then Some (cs_landing_pad cs) else None
      | None => None
      end
  end.

(** ** [Propagate] *)

Definition Propagate (pc : Z) (s : AbsState) (w : Walk) : Walk :=
  match in_states w !! pc with
  | None =>
      with_flow (<[pc := s]> (in_states w)) (join_conflicts w) (pc :: worklist w)
                (<[pc := true]> (pending_pushes w)) w
  | Some old =>
      let '(new, changed, conflicts) := Join s old in
      let jc := if bool_decide (conflicts = []) then join_conflicts w
                else <[pc := default [] (join_conflicts w !! pc) ++ conflicts]> (join_conflicts w) in
      let w1 := with_flow (<[pc := new]> (in_states w)) jc (worklist w) (pending_pushes w) w in
      if (changed : bool) then
        if default false (pending_pushes w !! pc) then w1
        else with_flow (in_states w1) jc (pc :: worklist w) (<[pc := true]> (pending_pushes w)) w1
      else w1
  end.

Section FDEChecker.
Context `{ZydisApi} (opts : FDECheckerOptions) (cfi : CFI).
Context (at_function_entry guessing_enabled : bool).

Definition LandsInsideSomeFDE (addr : Z) : bool :=
  match CFIContaining (o_all_cfis opts) addr with Some _ => true | None => false end.

Definition in_fde (pc : Z) : bool := (pc_begin cfi <=? pc) && (pc <? pc_end cfi).

(** The instruction at [pc], of at most sixteen bytes inside the FDE. *)
Definition decode_at (pc : Z) : option Instruction :=
  Decode (BytesAt (o_image opts) pc (Z.min 16 (u64 (pc_end cfi - pc)))) pc.

(** ** Jump tables *)

Definition ResolveTableEntry (table_addr index : Z) : option Z :=
  let entry_addr := u64 (table_addr + index * 4) in
  if negb (IsFileBackedNonExecutable (o_image opts) entry_addr 4) then None
  else
    let bytes := BytesAt (o_image opts) entry_addr 4 in
    if negb (bool_decide (length bytes = 4%nat)) then None
    else
      let target := u64 (table_addr + s32 (le_value bytes)) in
      if negb (LandsInsideSomeFDE target) then None
      else match Decode (BytesAt (o_image opts) target 16) target with
           | Some _ => Some target
           | None => None
           end.

Definition ResolveJumpTable (table_addr entries : Z) : list Z :=
  if (entries =? 0) || (kMaxJumpTableEntries <? entries) then []
  else if negb (IsFileBackedNonExecutable (o_image opts) table_addr (entries * 4)) then []
  else default [] (mapM (ResolveTableEntry table_addr) (seqZ 0 entries)).

(** Is a probed target's declared row matched by the state at the jump? *)
Definition probe_compatible (target jmp_pc : Z) (s : AbsState) : bool :=
  let unmentioned := o_check_unmentioned_callee_saved opts in
  if in_fde target then
    match row_at cfi target with
    | Some row => RowMatchesCleanly unmentioned jmp_pc row s false
    | None => false
    end
  else match CFIContaining (o_all_cfis opts) target with
  | Some target_cfi =>
      match row_at target_cfi target with
      | Some row =>
          RowMatchesCleanly unmentioned jmp_pc row s
            ((target =? pc_begin target_cfi) && IsCanonicalEntry row)
      | None => false
      end
  | None => false
  end.

(** [budget] further entries may be guessed. *)
Fixpoint probe_loop (budget : nat) (table_addr jmp_pc : Z) (s : AbsState) (targets : list Z) :
    list Z :=
  match budget with
  | O => targets
  | S budget =>
      match ResolveTableEntry table_addr (Z.of_nat (length targets)) with
      | None => targets
      | Some target =>
          if probe_compatible target jmp_pc s
          then probe_loop budget table_addr jmp_pc s (targets ++ [target]) else targets
      end
  end.

Definition ProbeJumpTable (table_addr jmp_pc : Z) (s : AbsState) : list Z :=
  probe_loop (Z.to_nat kMaxJumpTableEntries) table_addr jmp_pc s [].

(** ** Set-up *)

Definition CheckEntryRow (is_canonical_entry : bool) (first_row : CFIRow) (w : Walk) : Walk :=
  if at_function_entry && negb is_canonical_entry then
    sink_review (pc_begin cfi)
      ("a function symbol starts here and we expect canonical entry CFI but we got: "
       +:+ CFIRow_str first_row) w
  else w.

Definition error_what (e : error) : string :=
  match e with EHFrameError msg => msg | OutOfFuel => "" end.

(** The call sites whose pads are ours, and the sink. *)
Definition SetupCallSites (w : Walk) : list LSDACallSite * Walk :=
  if lsda_addr cfi =? 0 then ([], w)
  else match ReadLSDACallSites (o_image opts) (lsda_addr cfi) (pc_begin cfi) with
  | Throw e =>
      ([], sink_review (pc_begin cfi)
             ("failed to parse this FDE's LSDA (.gcc_except_table) at 0x"
              +:+ fmt_0x 16 (lsda_addr cfi) +:+ ": " +:+ error_what e) w)
  | Ok sites => (filter (fun cs => in_fde (cs_landing_pad cs) = true) sites, w)
  end.

(** ** Pass 1 *)

Context (sites : list LSDACallSite).

Definition propagate_to_pad (pc : Z) (out : TransferOutcome) (s : AbsState) (w : Walk) : Walk :=
  if is_call out then
    match LandingPadForCall sites pc with Some lp => Propagate lp s w | None => w end
  else w.

Definition propagate_next (pc : Z) (insn : Instruction) (row : option nat) (before : list AbsVal)
    (out : TransferOutcome) (s : AbsState) (w : Walk) : Walk :=
  let next := u64 (pc + in_size insn) in
  if falls_through out && (next <? pc_end cfi)
     && FallThroughIsReal cfi row next before s (is_call out)
  then Propagate next (TransferEdge insn kFallThrough s) w else w.

Definition propagate_taken (insn : Instruction) (out : TransferOutcome) (s : AbsState) (w : Walk) :
    Walk :=
  match direct_target out with
  | Some target => if in_fde target then Propagate target (TransferEdge insn kTaken s) w else w
  | None => w
  end.

Definition propagate_targets (targets : list Z) (s : AbsState) (w : Walk) : Walk :=
  foldl (fun w target => if in_fde target then Propagate target s w else w) w targets.

Definition propagate_table (pc : Z) (out : TransferOutcome) (s : AbsState) (w : Walk) : Walk :=
  match jump_table out, unbounded_jump_target out with
  | Some (addr, entries), _ => propagate_targets (ResolveJumpTable addr entries) s w
  | None, Some addr =>
      if guessing_enabled then propagate_targets (ProbeJumpTable addr pc s) s w else w
  | None, None => w
  end.

(** One turn of [Drain]'s loop, after the cap was checked and [pc] popped. *)
Definition drain_step (pc : Z) (w : Walk) : Walk :=
  let s0 := default blank (in_states w !! pc) in
  match decode_at pc with
  | None => w
  | Some insn =>
      let row := RowAt cfi pc in
      let '(out, s) := Transfer insn s0 in
      let w := with_insn_size pc (in_size insn) w in
      let w := propagate_to_pad pc out s w in
      let w := propagate_next pc insn row (gpr s0) out s w in
      let w := propagate_taken insn out s w in
      propagate_table pc out s w
  end.

Definition pop (rest : list Z) (pc : Z) (w : Walk) : Walk :=
  with_flow (in_states w) (join_conflicts w) rest (<[pc := false]> (pending_pushes w)) w.

(** [budget]: how many more iterations [max_iterations] allows. *)
Fixpoint drain_loop (budget : nat) (w : Walk) : Walk :=
  match worklist w with
  | [] => w
  | pc :: rest =>
      match budget with
      | O => with_iterations (S (iterations w)) true w
      | S budget =>
          drain_loop budget
            (drain_step pc (pop rest pc (with_iterations (S (iterations w)) (hit_cap w) w)))
      end
  end.

Definition Drain (w : Walk) : Walk := drain_loop (o_max_iterations opts - iterations w) w.

(** ** Landing pads no call site reached *)

Fixpoint unique (l : list Z) : list Z :=
  match l with
  | x :: (y :: _) as rest => if x =? y then unique rest else x :: unique rest
  | l => l
  end.

Definition distinct_landing_pads : list Z :=
  unique (merge_sort Z.le (cs_landing_pad <$> sites)).

Definition seed_pad (acc : bool * Walk) (lp : Z) : bool * Walk :=
  let '(seeded_any, w) := acc in
  match in_states w !! lp with
  | Some _ => acc
  | None =>
      match row_at cfi lp with
      | None => acc
      | Some row =>
          (true,
           Propagate lp (SeedFromRow row false)
             (sink_review lp "this landing pad's incoming state could not be derived from any call site actually walked, so it is trusted from its own declared CFI row instead of independently checked" w))
      end
  end.

Definition SeedUnreachedLandingPads (w : Walk) : Walk :=
  let '(seeded_any, w) := foldl seed_pad (false, w) distinct_landing_pads in
  if (seeded_any : bool) then Drain w else w.

(** ** Pass 2 *)

Definition check_row_at (pc : Z) (row : CFIRow) (s : AbsState) : Walk → Walk :=
  with_sink (CheckRow (o_check_unmentioned_callee_saved opts) false pc row s "").

Definition cross_edge_context (target : Z) (target_cfi : CFI) : string :=
  "jump to 0x" +:+ fmt_x target +:+ " (FDE at 0x" +:+ fmt_x (fde_addr target_cfi) +:+ "): ".

(** [None] when no FDE's row covers the target. *)
Definition CheckCrossFDEEdge (edge_pc target : Z) (s : AbsState) (w : Walk) : option Walk :=
  target_cfi ← CFIContaining (o_all_cfis opts) target;
  target_row ← row_at target_cfi target;
  Some (with_sink
          (CheckRow (o_check_unmentioned_callee_saved opts)
             ((target =? pc_begin target_cfi) && IsCanonicalEntry target_row)
             edge_pc target_row s (cross_edge_context target target_cfi)) w).

Definition CheckExitState (is_canonical_entry : bool) (pc : Z) (s : AbsState) (is_tail_call : bool) :
    Walk → Walk :=
  with_sink (add_issues pc (exit_issues is_canonical_entry is_tail_call s)).

Definition conflict_message (c : JoinConflict) : string :=
  "paths into this address disagree: " +:+ Describe c +:+ " -- one of them must contradict the single CFI row here, unless one of them is not really reachable".

Definition report_conflicts (pc : Z) (row : option CFIRow) (w : Walk) : Walk :=
  foldl (fun w c =>
    match row with
    | Some r => if RowDependsOn r c then sink_review pc (conflict_message c) w else w
    | None => w
    end) w (default [] (join_conflicts w !! pc)).

(** The out-of-range targets of a table, [what] being "resolved" or "guessed". *)
Definition check_table_targets (what : string) (pc : Z) (targets : list Z) (s : AbsState) (w : Walk) :
    Walk :=
  foldl (fun w target =>
    if in_fde target then w
    else match CheckCrossFDEEdge pc target s w with
    | Some w => w
    | None =>
        sink_review pc (what +:+ " switch-table entry at 0x" +:+ fmt_x target
          +:+ " lands outside this FDE's range and no FDE covers it, so there is no declared row to check it against") w
    end) w targets.

Definition verify_unbounded (pc addr : Z) (s : AbsState) (w : Walk) : Walk :=
  let w := count_unbounded pc w in
  let targets := if guessing_enabled then ProbeJumpTable addr pc s else [] in
  if bool_decide (targets = []) then sink_review pc kUnresolvedIndirectJumpMsg w
  else check_table_targets "guessed" pc targets s (add_guess (mkGuess pc addr targets) w).

Definition verify_outcome (is_canonical_entry : bool) (pc : Z) (out : TransferOutcome)
    (s : AbsState) (w : Walk) : Walk :=
  match jump_table out with
  | Some (addr, entries) =>
      let targets := ResolveJumpTable addr entries in
      if bool_decide (targets = []) then sink_review pc kUnresolvedIndirectJumpMsg w
      else check_table_targets "resolved" pc targets s w
  | None =>
      match unbounded_jump_target out with
      | Some addr => verify_unbounded pc addr s w
      | None =>
          if is_return out then CheckExitState is_canonical_entry pc s false w
          else
            let indirect (w : Walk) :=
              if indirect_branch out then
                if is_canonical_entry && IsExitState s then w
                else sink_review pc kUnresolvedIndirectJumpMsg w
              else w in
            match direct_target out with
            | Some target =>
                if in_fde target then indirect w
                else match CheckCrossFDEEdge pc target s w with
                | Some w => w
                | None => CheckExitState is_canonical_entry pc s true w
                end
            | None => indirect w
            end
      end
  end.

(** Everything pass 2 does at one reached address. *)
Definition verify_at (is_canonical_entry : bool) (w : Walk) (pc : Z) : Walk :=
  let s := default blank (in_states w !! pc) in
  match decode_at pc with
  | None => sink_review pc "cannot decode the instruction at this address" w
  | Some insn =>
      if pc_end cfi <? u64 (pc + in_size insn) then
        sink_review pc "instruction runs past the end of the FDE's PC range" w
      else
        let w := count_instruction w in
        let row := row_at cfi pc in
        let w := match row with
                 | None => sink_review pc "no CFI row covers this address" w
                 | Some row => check_row_at pc row s w
                 end in
        let w := report_conflicts pc row w in
        let out := (Transfer insn s).1 in
        let w := if bool_decide (review_reason out = "") then w
                 else sink_review pc (review_reason out) w in
        verify_outcome is_canonical_entry pc out s w
  end.

Definition reached_pcs (w : Walk) : list Z := merge_sort Z.le (elements (dom (in_states w))).

(** What [trace_out] receives, when there is one. *)
Definition trace (w : Walk) : list (Z * AbsState) :=
  (fun pc => (pc, default blank (in_states w !! pc))) <$> reached_pcs w.

Definition VerifyPass (is_canonical_entry : bool) (w : Walk) : Walk :=
  foldl (verify_at is_canonical_entry) w (reached_pcs w).

(** ** Coverage *)

Definition is_padding (insn : Instruction) : bool :=
  bool_decide (in_id insn = M_NOP) || bool_decide (in_id insn = M_INT3).

(** The inner loop: to the end of a gap. *)
Fixpoint skip_gap (fuel : nat) (w : Walk) (pc : Z) (all_padding : bool) : Z * bool :=
  match fuel with
  | O => (pc, all_padding)
  | S fuel =>
      if pc <? pc_end cfi then
        match insn_sizes w !! pc with
        | Some _ => (pc, all_padding)
        | None =>
            match decode_at pc with
            | None => skip_gap fuel w (u64 (pc + 1)) false
            | Some insn =>
                skip_gap fuel w (u64 (pc + in_size insn)) (all_padding && is_padding insn)
            end
        end
      else (pc, all_padding)
  end.

Definition gap_message (n : Z) : string :=
  fmt_d n +:+ " bytes from here were not reached by the control-flow walk, so their CFI went unchecked (exception landing pads and jump-table targets look like this)".

Fixpoint gap_loop (fuel : nat) (w : Walk) (pc : Z) : Walk :=
  match fuel with
  | O => w
  | S fuel =>
      if pc <? pc_end cfi then
        match insn_sizes w !! pc with
        | Some size => gap_loop fuel w (u64 (pc + size))
        | None =>
            let '(next, all_padding) := skip_gap (Z.to_nat (pc_end cfi - pc)) w pc true in
            gap_loop fuel
              (if (all_padding : bool) then w else sink_review pc (gap_message (u64 (next - pc))) w)
              next
        end
      else w
  end.

(** Every turn of either loop advances, so the FDE's length is fuel enough. *)
Definition ReportCoverageGaps (w : Walk) : Walk :=
  if o_report_coverage_gaps opts
  then gap_loop (Z.to_nat (pc_end cfi - pc_begin cfi)) w (pc_begin cfi) else w.
End FDEChecker.

(** ** [Run], [Check] and [CheckWithGuessing] *)

Definition verdict_of (findings : list Finding) : Verdict :=
  if bool_decide (findings = []) then kBlessed
  else if existsb (fun f => bool_decide (f_severity f = kMismatchSev)) findings then kMismatch
  else kReview.

Section Check.
Context `{ZydisApi} (opts : FDECheckerOptions) (cfi : CFI) (at_function_entry : bool).

Definition result_with (v : Verdict) (fs : list Finding) (checked : Z) (guessable : option Z)
    (guessed : list GuessedJumpTable) : FDEResult :=
  mkResult (fde_addr cfi) (pc_begin cfi) (pc_end cfi) (signal_frame cfi) v fs checked guessable
           guessed.

(** The state of the walk when both passes are done. *)
Definition run_walk (guessing_enabled : bool) (first_row : CFIRow) : Walk :=
  let canonical := IsCanonicalEntry first_row in
  let w := new_walk (o_max_findings_per_fde opts) in
  let w := CheckEntryRow cfi at_function_entry canonical first_row w in
  let '(sites, w) := SetupCallSites opts cfi w in
  let w := Propagate (pc_begin cfi) (SeedFromRow first_row canonical) w in
  let w := Drain opts cfi guessing_enabled sites w in
  let w := SeedUnreachedLandingPads opts cfi guessing_enabled sites w in
  let w := if hit_cap w then
             sink_review (pc_begin cfi) ("analysis gave up after "
               +:+ fmt_d (Z.of_nat (o_max_iterations opts)) +:+ " dataflow steps") w
           else w in
  let w := VerifyPass opts cfi guessing_enabled canonical w in
  ReportCoverageGaps opts cfi w.

Definition Run (guessing_enabled : bool) : FDEResult :=
  match row_at cfi (pc_begin cfi) with
  | None =>
      let sk := Add kReviewSev (pc_begin cfi) "no CFI row covers the start of this FDE"
                    (new_sink (o_max_findings_per_fde opts)) in
      result_with kReview (Take sk) 0 None []
  | Some first_row =>
      if bool_decide (row_reg first_row kDWARFRip = RR_Undefined) then
        result_with kBlessed [] 0 None []
      else
        let w := run_walk guessing_enabled first_row in
        let findings := Take (w_sink w) in
        result_with (verdict_of findings) findings (instructions_checked w)
          (if unbounded_jump_count w =? 1 then Some (unbounded_jump_pc w) else None)
          (guessed_jump_tables w)
  end.

Definition Check (guessing_enabled : bool) : FDEResult := Run guessing_enabled.

Definition with_guess (r : FDEResult) (guessed : list GuessedJumpTable) : FDEResult :=
  mkResult (r_fde_addr r) (r_pc_begin r) (r_pc_end r) (r_signal_frame r) kReviewLight
           (r_findings r) (r_instructions_checked r) (r_guessable_jump_pc r) guessed.

Definition CheckWithGuessing : FDEResult :=
  let result := Check false in
  if negb (bool_decide (r_verdict result = kReview))
     || bool_decide (r_guessable_jump_pc result = None) then result
  else
    let retry := Check true in
    if negb (bool_decide (r_verdict retry = kBlessed)) then result
    else with_guess result (r_guessed_jump_tables retry).
End Check.
