(* ===== verification/Sample.v ===== *)
(** * A sample image and FDE

    A six-byte function in an image of one executable segment, with the CFI
    a compiler gives it: the concrete input of the walk's theorems. *)

From stdpp Require Import gmap strings.
From S2P Require Import Prelude CfiTable AbsState StateFacts Zydis ZydisSample InsnSemantics ElfImage RowCheck FdeChecker.

(** [push %rbp; mov %rsp,%rbp; pop %rbp; ret] at 0x1000. *)
Definition sample_code : list Z := [0x55; 0x48; 0x89; 0xE5; 0x5D; 0xC3].

Definition sample_image : ELFImage :=
  mkImage "sample" 0 [mkSeg 0x1000 6 6 0 5] [] 0 0 0 [] false false
    (fun a => default 0 (sample_code !! Z.to_nat (a - 0x1000))).

Definition sample_row (pc cfa_reg cfa_off : Z) (rbp : RegRule) : CFIRow :=
  mkRow pc (mkCFA CFA_RegOffset cfa_reg cfa_off)
    (<[6%nat := rbp]> (<[16%nat := RR_AtCFAOffset (-8)]> no_rules)).

Definition sample_fde_rows : list CFIRow :=
  [sample_row 0x1000 7 8 RR_Unset;
   sample_row 0x1001 7 16 (RR_AtCFAOffset (-16));
   sample_row 0x1004 6 16 (RR_AtCFAOffset (-16));
   sample_row 0x1005 7 8 RR_Unset].
Definition sample_fde : CFI := mkCFI 0x2000 0x1000 0x1006 16 false 0 false sample_fde_rows.

(** The same function whose CFI forgets the [push]. *)
Definition stale_fde : CFI :=
  mkCFI 0x2000 0x1000 0x1006 16 false 0 false [sample_row 0x1000 7 8 RR_Unset].

Definition sample_opts : FDECheckerOptions :=
  mkOptions sample_image true true 20 1000 [(0x1000, 0x1006, sample_fde)].

Example sample_blessed : r_verdict (Check sample_opts sample_fde true false) = kBlessed.
Proof. vm_compute. reflexivity. Qed.
Example stale_mismatch : r_verdict (Check sample_opts stale_fde true false) = kMismatch.
Proof. vm_compute. reflexivity. Qed.
