(* ===== verification/SinkFacts.v ===== *)
(** * Theorems about [FindingSink] and verdicts

    What the sink keeps of the findings added to it, that a clean sink means
    nothing was ever added, and what its cap can do to a verdict. *)

From stdpp Require Import gmap strings.
From S2P Require Import Prelude CfiTable AbsState Zydis InsnSemantics ElfImage RowCheck FdeChecker.

(** ** The sink's invariant *)

(** The index maps the message of every kept finding to its position. *)
Record sink_wf (sk : FindingSink) : Prop := {
  sw_index : ∀ msg i, sk_index sk !! msg = Some i ↔ f_message <$> sk_findings sk !! i = Some msg;
  sw_cap : (length (sk_findings sk) ≤ sk_cap sk)%nat;
  sw_truncated : 0 <= sk_truncated sk
}.

Lemma new_sink_wf cap : sink_wf (new_sink cap).
Proof. split; cbn; [|lia|lia]. intros msg i. by rewrite lookup_empty, lookup_nil. Qed.

Lemma lookup_bump (i j : nat) (l : list Finding) : f_message <$> alter bump i l !! j = f_message <$> l !! j.
Proof.
  destruct (decide (i = j)) as [->|].
  - rewrite list_lookup_alter_eq. by destruct (l !! j).
  - by rewrite list_lookup_alter_ne.
Qed.

Lemma Add_wf sev pc msg sk : sink_wf sk → sink_wf (Add sev pc msg sk).
Proof.
  intros [Hi Hc Ht]. unfold Add. destruct (sk_index sk !! msg) as [i|] eqn:E.
  - split; cbn; [|by rewrite length_alter|done]. intros m j. by rewrite lookup_bump.
  - case_bool_decide as Hcap; split; cbn; auto; [lia| |rewrite length_app; cbn; lia].
    intros m j. destruct (decide (m = msg)) as [->|Hm].
    + rewrite lookup_insert_eq. split.
      * intros [= <-]. by rewrite list_lookup_middle.
      * intros Hj. destruct (decide (j < length (sk_findings sk))%nat).
        -- rewrite lookup_app_l in Hj by done. apply Hi in Hj. congruence.
        -- f_equal. destruct ((sk_findings sk ++ _) !! j) eqn:Ej; [|done].
           apply lookup_lt_Some in Ej. rewrite length_app in Ej. cbn in Ej. lia.
    + rewrite lookup_insert_ne by done. rewrite Hi.
      destruct (decide (j < length (sk_findings sk))%nat); [by rewrite lookup_app_l|].
      rewrite (lookup_ge_None_2 (sk_findings sk)) by lia. split; [done|].
      destruct ((sk_findings sk ++ _) !! j) eqn:Ej; [|done].
      pose proof (lookup_lt_Some _ _ _ Ej) as Hl. rewrite length_app in Hl. cbn in Hl.
      assert (j = length (sk_findings sk)) as -> by lia. rewrite list_lookup_middle in Ej by done.
      simplify_eq/=. congruence.
Qed.

Lemma add_issues_wf pc l sk : sink_wf sk → sink_wf (add_issues pc l sk).
Proof.
  revert sk. induction l as [|[sev msg] l IH]; intros sk Hs; [done|]. cbn. by apply IH, Add_wf.
Qed.

(** ** A clean sink *)

Lemma Take_dirty sk : 0 <= sk_truncated sk → sk_findings sk ≠ [] ∨ 0 < sk_truncated sk → Take sk ≠ [].
Proof.
  intros H0 H. unfold Take. case_match; [destruct (sk_findings sk); done|].
  destruct H; [done|lia].
Qed.

Lemma Add_dirty sev pc msg sk : sink_wf sk → Take (Add sev pc msg sk) ≠ [].
Proof.
  intros [Hi Hc Ht]. apply Take_dirty; unfold Add.
  - by repeat case_match; cbn; lia.
  - destruct (sk_index sk !! msg) as [i|] eqn:E; cbn.
    + left. apply Hi in E. intros Hn%(f_equal length). rewrite length_alter in Hn.
      destruct (sk_findings sk); [by rewrite lookup_nil in E|done].
    + case_bool_decide; cbn; [right; lia|left]. by destruct (sk_findings sk).
Qed.

Lemma Add_keeps_dirty sev pc msg sk : Take sk ≠ [] → sink_wf sk → Take (Add sev pc msg sk) ≠ [].
Proof. intros _. apply Add_dirty. Qed.

Lemma add_issues_keeps_dirty pc l sk : sink_wf sk → Take sk ≠ [] → Take (add_issues pc l sk) ≠ [].
Proof.
  revert sk. induction l as [|[sev msg] l IH]; intros sk Hs Ht; [done|]. cbn.
  apply IH; [by apply Add_wf|by apply Add_dirty].
Qed.

(** Issues leave the sink clean exactly when there are none. *)
Lemma add_issues_clean pc l sk : sink_wf sk → Take (add_issues pc l sk) = [] ↔ l = [] ∧ Take sk = [].
Proof.
  intros Hs. destruct l as [|[sev msg] l]; cbn; [tauto|]. split; [|by intros [? _]].
  intros H. exfalso. revert H. apply add_issues_keeps_dirty; [by apply Add_wf|by apply Add_dirty].
Qed.

(** ** What the sink keeps *)

(** Every addition is accounted for: as a finding, as a repeat of one, or as
    truncated. *)
Definition weight (l : list Finding) : Z := foldr (fun f n => f_repeats f + 1 + n) 0 l.

Lemma weight_cons f l : weight (f :: l) = f_repeats f + 1 + weight l.
Proof. done. Qed.

Lemma weight_app l1 l2 : weight (l1 ++ l2) = weight l1 + weight l2.
Proof.
  induction l1 as [|f l IH]; [done|].
  change ((f :: l) ++ l2) with (f :: (l ++ l2)). rewrite !weight_cons, IH. lia.
Qed.

Lemma weight_bump (l : list Finding) (i : nat) : (i < length l)%nat → weight (alter bump i l) = weight l + 1.
Proof.
  revert i. induction l as [|f l IH]; intros i Hi; cbn in Hi; [lia|]. destruct i as [|i].
  - change (alter bump 0%nat (f :: l)) with (bump f :: l). rewrite !weight_cons. cbn. lia.
  - change (alter bump (S i) (f :: l)) with (f :: alter bump i l).
    rewrite !weight_cons, IH by lia. lia.
Qed.

Lemma Add_weight sev pc msg sk :
  sink_wf sk →
  weight (sk_findings (Add sev pc msg sk)) + sk_truncated (Add sev pc msg sk) =
  weight (sk_findings sk) + sk_truncated sk + 1.
Proof.
  intros [Hi Hc Ht]. unfold Add. destruct (sk_index sk !! msg) as [i|] eqn:E; cbn [sk_findings sk_truncated].
  - apply Hi in E. rewrite weight_bump; [lia|].
    apply lookup_lt_is_Some_1. by destruct (sk_findings sk !! i); [eexists|].
  - case_bool_decide; cbn [sk_findings sk_truncated]; [lia|].
    rewrite weight_app, weight_cons. cbn. lia.
Qed.

Lemma Add_cap sev pc msg sk : sk_cap (Add sev pc msg sk) = sk_cap sk.
Proof. unfold Add. by repeat case_match. Qed.

Lemma add_issues_cap pc l sk : sk_cap (add_issues pc l sk) = sk_cap sk.
Proof.
  revert sk. induction l as [|[sev msg] l IH]; intros sk; [done|].
  change (add_issues pc ((sev, msg) :: l) sk) with (add_issues pc l (Add sev pc msg sk)).
  rewrite IH. apply Add_cap.
Qed.

Lemma add_issues_weight pc l sk :
  sink_wf sk →
  weight (sk_findings (add_issues pc l sk)) + sk_truncated (add_issues pc l sk) =
  weight (sk_findings sk) + sk_truncated sk + Z.of_nat (length l).
Proof.
  revert sk. induction l as [|[sev msg] l IH]; intros sk Hs; [cbn; lia|].
  change (add_issues pc ((sev, msg) :: l) sk) with (add_issues pc l (Add sev pc msg sk)).
  rewrite IH by by apply Add_wf. rewrite Add_weight by done. cbn [length]. lia.
Qed.

Lemma sink_NoDup sk : sink_wf sk → NoDup (f_message <$> sk_findings sk).
Proof.
  intros [Hi _ _]. apply NoDup_alt. intros i j m. rewrite !list_lookup_fmap. intros H1 H2.
  apply Hi in H1, H2. congruence.
Qed.

(** C33: whatever is added to a fresh sink of capacity [cap]: at most [cap]
    findings are kept, no two with the same message; every addition is
    counted exactly once, as a finding, as a repeat of one, or as truncated;
    and [Take] is empty exactly when nothing was added. *)
Theorem FindingSink_accounts cap pc (l : list issue) :
  let sk := add_issues pc l (new_sink cap) in
  (length (sk_findings sk) ≤ cap)%nat ∧ NoDup (f_message <$> sk_findings sk) ∧
  weight (sk_findings sk) + sk_truncated sk = Z.of_nat (length l) ∧
  (Take sk = [] ↔ l = []).
Proof.
  intros sk. assert (sink_wf sk) as Hwf by apply add_issues_wf, new_sink_wf.
  split; [|split; [|split]].
  - rewrite <-(add_issues_cap pc l (new_sink cap) : _ = cap). apply Hwf.
  - by apply sink_NoDup.
  - unfold sk. rewrite add_issues_weight by apply new_sink_wf. cbn. lia.
  - unfold sk. rewrite add_issues_clean by apply new_sink_wf. split; [by intros []|done].
Qed.

(** ** Verdicts *)

Lemma verdict_blessed fs : verdict_of fs = kBlessed ↔ fs = [].
Proof. unfold verdict_of. case_bool_decide; [done|]. by case_match. Qed.

Lemma verdict_mismatch fs : verdict_of fs = kMismatch ↔ Exists (fun f => f_severity f = kMismatchSev) fs.
Proof.
  unfold verdict_of. case_bool_decide as E; [subst; split; [done|by intros ?%Exists_nil]|].
  destruct (existsb _ fs) eqn:Ex.
  - split; [|done]. intros _. apply existsb_exists in Ex as (f & Hf & Hs%bool_decide_eq_true).
    apply Exists_exists. exists f. by split; [apply list_elem_of_In|].
  - split; [done|]. intros (f & Hf & Hs)%Exists_exists. exfalso.
    assert (existsb (fun f => bool_decide (f_severity f = kMismatchSev)) fs = true) as Ht; [|congruence].
    apply existsb_exists. exists f. by split; [apply list_elem_of_In|apply bool_decide_eq_true].
Qed.

(** A full sink hides a mismatch: once [cap] distinct findings are kept,
    none of them a mismatch, a further, new mismatch is dropped and the
    verdict stays REVIEW. *)
Lemma full_sink_hides_mismatch sk pc msg :
  sink_wf sk → length (sk_findings sk) = sk_cap sk → sk_index sk !! msg = None →
  Forall (fun f => f_severity f = kReviewSev) (sk_findings sk) →
  verdict_of (Take (Add kMismatchSev pc msg sk)) = kReview.
Proof.
  intros Hwf Hfull Hnew Hrev. pose proof (Add_dirty kMismatchSev pc msg sk Hwf) as Hd.
  destruct (verdict_of _) eqn:E; try done.
  - by apply verdict_blessed in E.
  - unfold verdict_of in E. repeat case_match; done.
  - exfalso. apply verdict_mismatch in E. unfold Add in E. rewrite Hnew in E.
    rewrite bool_decide_eq_true_2 in E by lia. unfold Take in E. cbn [sk_truncated sk_findings] in E.
    destruct Hwf as [_ _ Ht]. assert ((0 <? sk_truncated sk + 1) = true) as E1 by lia. rewrite E1 in E.
    apply Exists_app in E as [E|E].
    + apply Exists_exists in E as (f & Hf & Hs). rewrite Forall_forall in Hrev.
      specialize (Hrev f Hf). congruence.
    + by apply Exists_cons in E as [|?%Exists_nil].
Qed.

Lemma full_sink_hides_mismatch_witness :
  verdict_of (Take (Add kMismatchSev 16 "b" (Add kReviewSev 8 "a" (new_sink 1)))) = kReview.
Proof.
  apply (full_sink_hides_mismatch (Add kReviewSev 8 "a" (new_sink 1)) 16 "b").
  - apply Add_wf, new_sink_wf.
  - reflexivity.
  - reflexivity.
  - repeat constructor.
Defined.
