(* ===== verification/RowFacts.v ===== *)
(** * Theorems about the row checks

    [RowChecker::Check] reports nothing exactly when a declarative predicate
    holds of the row and the state, and a row it passes unwinds correctly:
    evaluated the way an unwinder does, it gives the CFA and the caller's
    registers. *)

From stdpp Require Import gmap strings.
From S2P Require Import Prelude CfiTable AbsState AbsStateFacts JoinFacts StateFacts Zydis InsnSemantics.
From S2P Require Import ElfImage RowCheck FdeChecker SinkFacts.

(** ** The specification of a row *)

(** The CFA rule yields the CFA. *)
Definition cfa_holds (cfa : CFARule) (s : AbsState) : Prop :=
  cfa_kind cfa = CFA_RegOffset ∧
  ∃ d, reg s (cfa_reg cfa) = CFARel d ∧ s64 (d + cfa_offset cfa) = 0.

(** A register rule names a place that holds the register's entry value. *)
Definition rule_holds (check_unset : bool) (s : AbsState) (r : Z) (rule : RegRule) : Prop :=
  match rule with
  | RR_Unset => check_unset = true → IsCalleeSaved r = true → reg s r = OrigReg r
  | RR_Undefined => True
  | RR_SameValue => reg s r = OrigReg r
  | RR_AtCFAOffset o => Slot s o = OrigReg r
  | RR_ValOffset o => reg s r = CFARel o
  | RR_InRegister g => reg s g = OrigReg r
  | RR_Expression | RR_ValExpression => False
  end.

Record row_holds (check_unset : bool) (row : CFIRow) (s : AbsState) : Prop := {
  rh_cfa : cfa_holds (row_cfa row) s;
  rh_rules : ∀ r, 0 <= r < kNumDWARFRegs → rule_holds check_unset s r (row_reg row r)
}.

Lemma CheckCFA_nil cfa s : CheckCFA cfa s = [] ↔ cfa_holds cfa s.
Proof.
  unfold CheckCFA, cfa_holds, review, mismatch. destruct (cfa_kind cfa); try (split; [done|by intros []]).
  destruct (reg s (cfa_reg cfa)) as [| |d|q|] eqn:E; try (split; [done|by intros (_ & ? & ? & _)]).
  destruct (s64 (d + cfa_offset cfa) =? 0) eqn:E0; cbn.
  - split; [intros _|done]. split; [done|]. exists d. split; [done|lia].
  - split; [done|]. intros (_ & d' & [= <-] & H). lia.
Qed.

(** The shape all the register checks share. *)
Lemma check_value_nil (v : AbsVal) (m1 m2 : string) (b : bool) (P : Prop) :
  (b = true ↔ P) → (P → is_unknown v = false) →
  (if is_unknown v then review m1 else if negb b then mismatch m2 else []) = [] ↔ P.
Proof.
  intros Hb Hv. destruct (is_unknown v) eqn:E; cbn.
  - split; [done|]. intros HP. specialize (Hv HP). congruence.
  - destruct b; cbn; [tauto|]. split; [done|]. intros HP. by apply Hb in HP.
Qed.

Lemma IsOrigReg_iff v r : IsOrigReg v r = true ↔ v = OrigReg r.
Proof. destruct v; cbn; split; try done; [intros ?%Z.eqb_eq; congruence|intros [= ->]; lia]. Qed.
Lemma IsCFARel_iff v d : IsCFARel v d = true ↔ v = CFARel d.
Proof. destruct v; cbn; split; try done; [intros ?%Z.eqb_eq; congruence|intros [= ->]; lia]. Qed.

Lemma CheckSameValue_nil r s : CheckSameValue r s = [] ↔ reg s r = OrigReg r.
Proof. apply check_value_nil; [apply IsOrigReg_iff|by intros ->]. Qed.

Lemma CheckReg_nil cu r rule s : CheckReg cu r rule s = [] ↔ rule_holds cu s r rule.
Proof.
  unfold CheckReg, rule_holds. destruct rule; try (by split).
  - destruct cu, (IsCalleeSaved r); cbn; rewrite ?CheckSameValue_nil; naive_solver.
  - apply CheckSameValue_nil.
  - apply check_value_nil; [apply IsOrigReg_iff|by intros ->].
  - apply check_value_nil; [apply IsCFARel_iff|by intros ->].
  - apply check_value_nil; [apply IsOrigReg_iff|by intros ->].
Qed.

Lemma bind_nil {A B} (f : A → list B) (l : list A) : l ≫= f = [] ↔ ∀ x, x ∈ l → f x = [].
Proof.
  induction l as [|a l IH]; cbn; [split; [by intros _ x ?%elem_of_nil|done]|].
  split.
  - intros [H1 H2]%app_eq_nil x [->|Hx]%elem_of_cons; [done|]. by apply IH.
  - intros H. rewrite (H a) by by left. apply IH. intros x Hx. apply H. by right.
Qed.

Lemma row_issues_nil cu row s : row_issues cu row s = [] ↔ row_holds cu row s.
Proof.
  unfold row_issues. split.
  - intros [H1 H2]%app_eq_nil. split; [by apply CheckCFA_nil|]. intros r Hr. apply CheckReg_nil.
    apply (proj1 (bind_nil _ _) H2). unfold range0. apply elem_of_seqZ. lia.
  - intros [H1 H2]. apply CheckCFA_nil in H1 as ->. cbn. apply bind_nil. intros r Hr. apply CheckReg_nil, H2.
    unfold range0 in Hr. apply elem_of_seqZ in Hr. lia.
Qed.

Lemma CheckRow_clean unm force pc row s ctx sk :
  sink_wf sk → Take (CheckRow unm force pc row s ctx sk) = [] ↔
  row_holds (unm || force) row s ∧ Take sk = [].
Proof.
  intros Hs. unfold CheckRow. rewrite add_issues_clean by done.
  rewrite <-row_issues_nil. destruct (row_issues _ row s); naive_solver.
Qed.

(** C15: the row check is exact: [RowMatchesCleanly], and so the checks of
    the verification pass, accept a state exactly when the CFA rule yields
    the CFA and every register rule names a place that holds the register's
    entry value (with [check_unset], so do the callee-saved registers the
    row does not mention). *)
Theorem RowMatchesCleanly_iff unm pc row s force :
  RowMatchesCleanly unm pc row s force = true ↔ row_holds (unm || force) row s.
Proof.
  unfold RowMatchesCleanly. rewrite bool_decide_eq_true, CheckRow_clean by apply new_sink_wf.
  split; [by intros []|done].
Qed.

(** ** Unwinding *)

(** One activation: its CFA, the caller's registers, the current registers
    and memory (64-bit words by address). *)
Record activation := mkAct {
  ac_cfa : Z;
  ac_entry : Z → Z;
  ac_reg : Z → Z;
  ac_mem : Z → Z
}.

(** What an abstract value says of a concrete one. *)
Definition value_models (a : activation) (v : AbsVal) (x : Z) : Prop :=
  match v with
  | CFARel d => x = u64 (ac_cfa a + d)
  | OrigReg r => x = ac_entry a r
  | Top | Bottom | Other => True
  end.

Record models (a : activation) (s : AbsState) : Prop := {
  mo_cfa : is_u64 (ac_cfa a);
  mo_regs : ∀ r, 0 <= r < kNumGPRs → value_models a (reg s r) (ac_reg a r);
  mo_slots : ∀ o, value_models a (Slot s o) (ac_mem a (u64 (ac_cfa a + o)))
}.

(** The unwinder's side, as DWARF defines it: the CFA a row computes, and
    the caller's value of a register. *)
Definition unwind_cfa (a : activation) (row : CFIRow) : option Z :=
  match cfa_kind (row_cfa row) with
  | CFA_RegOffset => Some (u64 (ac_reg a (cfa_reg (row_cfa row)) + cfa_offset (row_cfa row)))
  | _ => None
  end.

Definition unwind_reg (a : activation) (cfa : Z) (rule : RegRule) (r : Z) : option Z :=
  match rule with
  | RR_AtCFAOffset o => Some (ac_mem a (u64 (cfa + o)))
  | RR_InRegister g => Some (ac_reg a g)
  | RR_ValOffset o => Some (u64 (cfa + o))
  | RR_Unset | RR_SameValue => Some (ac_reg a r)
  | RR_Undefined | RR_Expression | RR_ValExpression => None
  end.

(** The rules that claim where the caller's value is. *)
Definition claims (rule : RegRule) (r : Z) : bool :=
  match rule with
  | RR_AtCFAOffset _ | RR_InRegister _ | RR_SameValue => true
  | RR_Unset => IsCalleeSaved r
  | _ => false
  end.

Lemma reg_models a s r v :
  models a s → reg s r = v → v ≠ Bottom → value_models a v (ac_reg a r).
Proof.
  intros Hm <- Hv. unfold reg in *. destruct (in_gprs r) eqn:E; [|done].
  pose proof (mo_regs _ _ Hm r) as H. unfold reg in H. rewrite E in H. apply H.
  unfold in_gprs in E. lia.
Qed.

Lemma u64_s64_zero x d o : s64 (d + o) = 0 → is_u64 x → u64 (u64 (x + d) + o) = x.
Proof.
  intros H Hx. rewrite u64_add_l. replace (x + d + o) with (x + (d + o)) by lia.
  rewrite <-u64_add_r. assert (u64 (d + o) = 0) as ->.
  { rewrite <-u64_s64, H. done. }
  rewrite Z.add_0_r. by apply u64_id.
Qed.

Lemma row_holds_unwinds a row s :
  models a s → row_holds true row s →
  unwind_cfa a row = Some (ac_cfa a) ∧
  ∀ r, 0 <= r < kNumDWARFRegs → claims (row_reg row r) r = true →
    unwind_reg a (ac_cfa a) (row_reg row r) r = Some (ac_entry a r).
Proof.
  intros Hm [[Hk (d & Hd & H0)] Hr]. split.
  - unfold unwind_cfa. rewrite Hk. pose proof (reg_models a s _ _ Hm Hd ltac:(done)) as Hv. cbn in Hv.
    rewrite Hv. f_equal. apply u64_s64_zero; [done|apply Hm].
  - intros r Hrange Hc. specialize (Hr r Hrange).
    destruct (row_reg row r) eqn:E; cbn in *; try done; f_equal.
    + by apply (reg_models a s _ _ Hm (Hr eq_refl Hc)).
    + by apply (reg_models a s _ _ Hm Hr).
    + pose proof (mo_slots _ _ Hm offset) as Hs. by rewrite Hr in Hs.
    + by apply (reg_models a s _ _ Hm Hr).
Qed.


(** ** Exits *)

(** The state a function must be in when it returns. *)
Record exit_holds (s : AbsState) : Prop := {
  xh_rsp : reg s kDWARFRsp = CFARel (-8);
  xh_saved : ∀ r, r ∈ kCalleeSaved → reg s r = OrigReg r;
  xh_ra : Slot s (-8) = OrigReg kDWARFRip
}.

Lemma exit_rsp_nil ctx tail v : exit_rsp ctx tail v = [] ↔ v = CFARel (-8).
Proof.
  rewrite <-IsCFARel_iff. unfold exit_rsp, is_unknown. destruct v; cbn; try (by split).
  all: unfold review, mismatch; repeat case_match; cbn in *; split; intros; simplify_eq; done || lia.
Qed.

Lemma exit_callee_saved_nil ctx s r : exit_callee_saved ctx s r = [] ↔ reg s r = OrigReg r.
Proof. apply check_value_nil; [apply IsOrigReg_iff|by intros ->]. Qed.

Lemma exit_ra_nil ctx s : exit_ra ctx s = [] ↔ Slot s (-8) = OrigReg kDWARFRip.
Proof. apply check_value_nil; [apply IsOrigReg_iff|by intros ->]. Qed.

Lemma exit_issues_nil canonical tail s : exit_issues canonical tail s = [] ↔ canonical = true ∧ exit_holds s.
Proof.
  unfold exit_issues. destruct canonical; cbn [negb]; cbv zeta; [|split; [done|by intros []]].
  split.
  - intros [H1 H2]%app_eq_nil. apply exit_rsp_nil in H1. split; [done|].
    assert (IsCFARel (reg s kDWARFRsp) (-8) = true) as E by by apply IsCFARel_iff.
    rewrite E, andb_false_r in H2. apply app_eq_nil in H2 as [H2 H3]. split; [done| |].
    + intros r Hr. eapply exit_callee_saved_nil. by apply (proj1 (bind_nil _ _) H2).
    + by eapply exit_ra_nil.
  - intros [_ [H1 H2 H3]].
    assert (IsCFARel (reg s kDWARFRsp) (-8) = true) as E by by apply IsCFARel_iff.
    rewrite E, andb_false_r. apply app_nil. split; [by apply exit_rsp_nil|]. apply app_nil. split.
    + apply bind_nil. intros r Hr. apply exit_callee_saved_nil. auto.
    + by apply exit_ra_nil.
Qed.

Lemma exit_holds_returns a s :
  models a s → exit_holds s →
  ac_reg a kDWARFRsp = u64 (ac_cfa a - 8) ∧
  ac_mem a (ac_reg a kDWARFRsp) = ac_entry a kDWARFRip ∧
  ∀ r, r ∈ kCalleeSaved → ac_reg a r = ac_entry a r.
Proof.
  intros Hm [H1 H2 H3].
  pose proof (reg_models a s _ _ Hm H1 ltac:(done)) as Hrsp. cbn in Hrsp.
  split; [done|]. split.
  - rewrite Hrsp. pose proof (mo_slots _ _ Hm (-8)) as Hs. by rewrite H3 in Hs.
  - intros r Hr. by apply (reg_models a s _ _ Hm (H2 r Hr)).
Qed.

(** C23: an exit that passes the check returns to the caller: at every
    activation the state describes, rsp points at the return address, right
    below the CFA, and every callee-saved register holds the caller's
    value; and a clean exit is only possible in an FDE that started at a
    canonical entry. *)
Theorem checked_exit_returns a canonical tail s :
  models a s → exit_issues canonical tail s = [] →
  canonical = true ∧ ac_reg a kDWARFRsp = u64 (ac_cfa a - 8) ∧
  ac_mem a (ac_reg a kDWARFRsp) = ac_entry a kDWARFRip ∧
  ∀ r, r ∈ kCalleeSaved → ac_reg a r = ac_entry a r.
Proof. intros Hm [Hc He]%exit_issues_nil. split; [done|]. by apply (exit_holds_returns a s). Qed.

(** ** Concrete instances *)

(** A function entry: the return address 0x401000 is at CFA-8. *)
Definition at_entry : activation :=
  let cfa := 0x7fff0008 in
  let entry := fun r => if r =? 16 then 0x401000 else r + 1 in
  mkAct cfa entry (fun r => if r =? 7 then cfa - 8 else entry r)
        (fun addr => if addr =? cfa - 8 then 0x401000 else 0).

Lemma models_at_entry : models at_entry Entry.
Proof.
  split.
  - unfold is_u64. cbn. lia.
  - assert (Forall (fun r => value_models at_entry (reg Entry r) (ac_reg at_entry r)) (range0 kNumGPRs)) as Hf.
    { repeat (constructor; [vm_compute; done|]). constructor. }
    intros r Hr. rewrite Forall_forall in Hf. by apply Hf, elem_range16.
  - intros o. unfold Slot. cbn [slots Entry]. destruct (decide (o = -8)) as [->|Hne].
    + rewrite lookup_singleton_eq. by vm_compute.
    + by rewrite lookup_singleton_ne.
Qed.

Lemma entry_row_clean : row_issues true entry_row Entry = [].
Proof. vm_compute. reflexivity. Qed.


Lemma checked_exit_returns_witness :
  true = true ∧ ac_reg at_entry kDWARFRsp = u64 (ac_cfa at_entry - 8) ∧
  ac_mem at_entry (ac_reg at_entry kDWARFRsp) = ac_entry at_entry kDWARFRip ∧
  ∀ r, r ∈ kCalleeSaved → ac_reg at_entry r = ac_entry at_entry r.
Proof.
  apply (checked_exit_returns at_entry true false Entry models_at_entry). vm_compute. reflexivity.
Defined.

(** [DW_CFA_val_offset] for rbx, and a state in which rbx is CFA-16 now. *)
Definition val_offset_row : CFIRow :=
  mkRow 0x1000 (row_cfa entry_row) (<[3%nat := RR_ValOffset (-16)]> (row_regs entry_row)).
Definition val_offset_state : AbsState := SetReg1 3 (CFARel (-16)) Entry.
Definition val_offset_act : activation :=
  mkAct (ac_cfa at_entry) (ac_entry at_entry)
        (fun r => if r =? 3 then ac_cfa at_entry - 16 else ac_reg at_entry r) (ac_mem at_entry).

(** A [val_offset] rule is checked against the register's current value,
    although it gives the caller's: a row that says the caller's rbx is
    CFA-16 passes at an activation whose rbx was something else on entry,
    and unwinding it gives the wrong value. *)
Lemma val_offset_checks_the_current_value :
  row_issues true val_offset_row val_offset_state = [] ∧
  models val_offset_act val_offset_state ∧
  unwind_reg val_offset_act (ac_cfa val_offset_act) (row_reg val_offset_row 3) 3
    ≠ Some (ac_entry val_offset_act 3).
Proof.
  split; [by vm_compute|]. split; [|by vm_compute]. split.
  - apply models_at_entry.
  - assert (Forall (fun r => value_models val_offset_act (reg val_offset_state r) (ac_reg val_offset_act r))
              (range0 kNumGPRs)) as Hf.
    { repeat (constructor; [vm_compute; done|]). constructor. }
    intros r Hr. rewrite Forall_forall in Hf. by apply Hf, elem_range16.
  - exact (mo_slots _ _ models_at_entry).
Qed.
