(* ===== verification/Machine.v ===== *)
(** * What the processor does to an activation

    The architecture's side of the instruction semantics: how executing one
    instruction changes the general registers and the memory of an
    activation ([RowFacts.activation]).  It is a relation with one field per
    documented effect, only as precise as the analysis is: the value of a
    destination is constrained for the instructions [Transfer] interprets
    and arbitrary for the others.  [frame_assumed] spells out what
    [src/insn-semantics.cc] assumes of the program it analyses
    ([HandleUnplacedMemWrite]: a write it cannot place misses the slots it
    tracks) and where its own bookkeeping relies on the frame's layout. *)

From stdpp Require Import gmap.
From S2P Require Import Prelude CfiTable AbsState AbsStateFacts StateFacts Zydis InsnSemantics.
From S2P Require Import InsnFacts BoundFacts RowFacts.

(** ** Memory *)

(** The eight bytes at [addr] miss the [n] bytes at [b], around the end of
    the address space. *)
Definition misses (addr : Z) (w : Z * Z) : Prop :=
  8 <= u64 (w.1 - addr) ∧ u64 (w.1 - addr) + w.2 <= 2 ^ 64.
#[export] Instance misses_dec addr w : Decision (misses addr w).
Proof. unfold misses. apply _. Defined.

Definition slot_addr (a : activation) (o : Z) : Z := u64 (ac_cfa a + o).

Definition tracked (s : AbsState) (o : Z) : Prop := is_Some (slots s !! o).

Section Machine.
Context `{ZydisApi}.

(** The bytes a memory operand names. *)
Definition op_bytes (op : ZydisOperand) : Z := Z.max 1 (op_size op / 8).

Definition op_ranges (ea : ZydisMem → Z) (ops : list ZydisOperand) : list (Z * Z) :=
  ops ≫= fun op => match op_kind op with OpMem m => [(ea m, op_bytes op)] | _ => [] end.

Definition transfers (insn : Instruction) : bool :=
  is_return_id (in_id insn) || is_branch insn || is_stop_id (in_id insn).

(** Calls, and the system calls the source treats like them. *)
Definition call_id (id : ZydisMnemonic) : bool :=
  match id with
  | M_CALL | M_SYSCALL | M_SYSENTER | M_INT | M_INT1 | M_INT3 | M_INTO | M_VMCALL | M_VMMCALL => true
  | _ => false
  end.
Definition call_like (insn : Instruction) : bool := negb (transfers insn) && call_id (in_id insn).

(** The bytes an instruction that is not a call may write.  [ea] gives the
    addresses its memory operands name. *)
Definition written_mem (insn : Instruction) (ea : ZydisMem → Z) (a : activation) : list (Z * Z) :=
  if transfers insn then []
  else match in_id insn with
  | M_PUSH | M_PUSHFQ => [(u64 (ac_reg a kDWARFRsp - 8), 8)]
  | M_POP => match op_kind (operand insn 0) with OpMem m => [(ea m, 8)] | _ => [] end
  | M_POPFQ | M_LEAVE | M_CMP | M_NOP | M_ENDBR32 | M_ENDBR64 => []
  | _ => op_ranges ea (written_ops insn)
  end.

(** A memory operand of the form [disp(%base)]. *)
Definition plain_mem (insn : Instruction) (m : ZydisMem) : Prop :=
  zi_has_segment (in_insn insn) = false ∧ mem_index m = ZR_NONE ∧ IsFull64 (mem_base m) = true.

(** The base register as the address computation sees it: [pop] computes
    the address of its operand after it moved the stack pointer. *)
Definition base_value (insn : Instruction) (a : activation) (r : Z) : Z :=
  if bool_decide (in_id insn = M_POP) && (r =? kDWARFRsp) then u64 (ac_reg a r + 8) else ac_reg a r.

(** The tracked register an operand names in full. *)
Definition full_reg (op : ZydisOperand) : option Z :=
  match op_kind op with OpReg r => if IsFull64 r then Some (DWARFRegOf r) else None | _ => None end.

(** The value of a 64-bit operand that is a tracked register or memory. *)
Definition source_value (ea : ZydisMem → Z) (a : activation) (op : ZydisOperand) : option Z :=
  match op_kind op with
  | OpMem m => Some (ac_mem a (ea m))
  | _ => ac_reg a <$> full_reg op
  end.

(** ** One instruction

    For a call, [a'] is the activation when the callee has returned (or,
    when it has thrown, in the landing pad). *)
Record executes (insn : Instruction) (ea : ZydisMem → Z) (a a' : activation) : Prop := {
  (* the activation stays the same one *)
  ex_cfa : ac_cfa a' = ac_cfa a;
  ex_entry : ∀ r, ac_entry a' r = ac_entry a r;
  (* addresses *)
  ex_ea : ∀ m, plain_mem insn m → ea m = u64 (base_value insn a (DWARFRegOf (mem_base m)) + mem_disp m);
  (* registers and memory that are not written do not change *)
  ex_regs : ∀ r, in_range r → r ∉ written_regs insn → ac_reg a' r = ac_reg a r;
  ex_mem : call_like insn = false → ∀ addr, is_u64 addr → Forall (misses addr) (written_mem insn ea a) →
    ac_mem a' addr = ac_mem a addr;
  (* push and pop of eight bytes *)
  ex_push : in_id insn = M_PUSH → odd_width insn = false → ∀ x,
    source_value ea a (operand insn 0) = Some x → ac_mem a' (u64 (ac_reg a kDWARFRsp - 8)) = x;
  ex_push_rsp : in_id insn = M_PUSHFQ ∨ in_id insn = M_PUSH ∧ odd_width insn = false →
    ac_reg a' kDWARFRsp = u64 (ac_reg a kDWARFRsp - 8);
  ex_pop : in_id insn = M_POP → odd_width insn = false →
    (∀ r, full_reg (operand insn 0) = Some r → ac_reg a' r = ac_mem a (ac_reg a kDWARFRsp)) ∧
    (∀ m, op_kind (operand insn 0) = OpMem m → ac_mem a' (ea m) = ac_mem a (ac_reg a kDWARFRsp));
  ex_pop_rsp : in_id insn = M_POPFQ ∨ in_id insn = M_POP ∧ odd_width insn = false →
    op_dwarf (operand insn 0) ≠ kDWARFRsp ∨ in_id insn = M_POPFQ →
    ac_reg a' kDWARFRsp = u64 (ac_reg a kDWARFRsp + 8);
  ex_leave : in_id insn = M_LEAVE →
    ac_reg a' kDWARFRsp = u64 (ac_reg a kDWARFRbp + 8) ∧
    ac_reg a' kDWARFRbp = ac_mem a (ac_reg a kDWARFRbp);
  (* address computations, moves and additions of 64 bits *)
  ex_lea : in_id insn = M_LEA → ∀ r m, two_ops insn = true → full_reg (operand insn 0) = Some r →
    op_kind (operand insn 1) = OpMem m → plain_mem insn m → ac_reg a' r = ea m;
  ex_load : in_id insn = M_MOV ∨ in_id insn = M_MOVQ → ∀ r x, two_ops insn = true →
    full_reg (operand insn 0) = Some r → op_size (operand insn 1) = 64 →
    source_value ea a (operand insn 1) = Some x → ac_reg a' r = x;
  ex_store : in_id insn = M_MOV ∨ in_id insn = M_MOVQ → ∀ m x, two_ops insn = true →
    op_kind (operand insn 0) = OpMem m → op_size (operand insn 0) = 64 →
    ac_reg a <$> full_reg (operand insn 1) = Some x → ac_mem a' (ea m) = x;
  ex_add : ∀ r v, two_ops insn = true → full_reg (operand insn 0) = Some r →
    op_kind (operand insn 1) = OpImm v →
    (in_id insn = M_ADD → ac_reg a' r = u64 (ac_reg a r + v)) ∧
    (in_id insn = M_SUB → ac_reg a' r = u64 (ac_reg a r - v))
}.

(** ** What the analysis assumes *)

(** The state in which [pop] evaluates its operand. *)
Definition popped_rsp (s : AbsState) : AbsState :=
  match reg s kDWARFRsp with
  | CFARel d => SetReg1 kDWARFRsp (CFARel (s64 (d + 8))) s
  | _ => s
  end.

(** A write of [n] bytes at [b] that [Transfer] places in no slot, or in
    slot [k] only, misses every other tracked slot. *)
Definition write_misses (a : activation) (s : AbsState) (k : option Z) (w : Z * Z) : Prop :=
  ∀ o, tracked s o → k ≠ Some o → misses (slot_addr a o) w.

(** Sixty-two bits: stack frames are smaller than the address space. *)
Definition near (o : Z) : Prop := - 2 ^ 62 <= o <= 2 ^ 62.

Record frame_assumed (insn : Instruction) (ea : ZydisMem → Z) (a a' : activation) (s : AbsState) :
    Prop := {
  (* frame offsets are small *)
  fa_near : ∀ o, tracked s o → near o;
  fa_near_ops : ∀ op m o, op ∈ written_ops insn → op_kind op = OpMem m → MemSlot s insn m = Some o → near o;
  (* a callee writes tracked slots below the stack pointer only *)
  fa_call : call_like insn = true → ∀ o, tracked s o → (∀ d, reg s kDWARFRsp = CFARel d → d <= o) →
    ac_mem a' (slot_addr a o) = ac_mem a (slot_addr a o);
  (* the stack pointer is not an entry value when it is used as one *)
  fa_stack : match in_id insn with
             | M_PUSH | M_PUSHFQ | M_POP | M_POPFQ => ∀ r, reg s kDWARFRsp ≠ OrigReg r
             | M_LEAVE => ∀ r, reg s kDWARFRbp ≠ OrigReg r
             | _ => True
             end;
  (* pushes, and pops to memory, do not straddle a tracked slot *)
  fa_push : in_id insn = M_PUSH ∨ in_id insn = M_PUSHFQ →
    write_misses a s (match reg s kDWARFRsp with CFARel d => Some (s64 (d - 8)) | _ => None end)
      (u64 (ac_reg a kDWARFRsp - 8), 8);
  fa_pop : in_id insn = M_POP → ∀ m, op_kind (operand insn 0) = OpMem m →
    write_misses a s (MemSlot (popped_rsp s) insn m) (ea m, 8);
  (* writes that cannot be placed miss the tracked slots *)
  fa_unplaced : ∀ op m, op ∈ written_ops insn → op_kind op = OpMem m → MemSlot s insn m = None →
    write_misses a s None (ea m, op_bytes op)
}.

(** What Zydis documents about the operands of an instruction, besides
    [documented]: a two-operand instruction of [writes_first] writes no
    memory but its first operand, and no instruction writes a register
    before it writes through it. *)
Record mem_documented (insn : Instruction) : Prop := {
  md_first : writes_first (in_id insn) = true → two_ops insn = true →
    ∀ op m, op ∈ written_ops insn → op_kind op = OpMem m → op = operand insn 0;
  md_stored : writes_first (in_id insn) = true → two_ops insn = true →
    ∀ m, op_kind (operand insn 0) = OpMem m → operand insn 0 ∈ written_ops insn;
  md_base : ∀ l1 op l2 m op', take (zi_operand_count (in_insn insn)) (in_operands insn) = l1 ++ op :: l2 →
    op_writes op = true → op_kind op = OpMem m → op' ∈ l1 → op_writes op' = true →
    0 <= op_dwarf op' → op_dwarf op' ≠ DWARFRegOf (mem_base m)
}.
End Machine.
