(* ===== verification/TransferFacts.v ===== *)
(** * Instructions keep the states true

    What an abstract state says of an activation's registers and stack slots
    ([RowFacts.models]) stays true when the processor executes an instruction
    ([Machine.executes]) and the state goes through [Transfer]. *)

From stdpp Require Import gmap.
From S2P Require Import Prelude CfiTable AbsState AbsStateFacts JoinFacts StateFacts Zydis InsnSemantics.
From S2P Require Import InsnFacts BoundFacts RowFacts Machine.

(** ** Registers and slots of the updated states *)

Lemma reg_SetReg_ne r v t s q : wf_state s → in_range r → in_range q → q ≠ r → reg (SetReg r v t s) q = reg s q.
Proof.
  intros [] Hr Hq Hne. assert (gpr (SetReg r v t s) = <[Z.to_nat r := v]> (gpr s)) as E.
  { unfold SetReg, InvalidateLastCmpFor. by repeat case_match. }
  unfold reg. rewrite in_gprs_true, E by done. unfold in_range, kNumGPRs in *.
  by rewrite list_lookup_insert_ne by lia.
Qed.

Lemma reg_SetReg_or r v t s q :
  wf_state s → in_range r → in_range q → reg (SetReg r v t s) q = if q =? r then v else reg s q.
Proof.
  intros Hs Hr Hq. case_match eqn:E; [|apply reg_SetReg_ne; auto; lia].
  assert (q = r) as -> by lia. by apply reg_SetReg.
Qed.

(** Setting a register only ever drops slots. *)
Lemma slots_SetReg r v t s : slots (SetReg r v t s) ⊆ slots s.
Proof.
  unfold SetReg, InvalidateLastCmpFor. repeat case_match; cbn; try done; apply map_filter_subseteq.
Qed.
Lemma slots_SetReg_lookup r v t s o w : slots (SetReg r v t s) !! o = Some w → slots s !! o = Some w.
Proof. intros E. eapply lookup_weaken; [exact E|apply slots_SetReg]. Qed.

Lemma slots_SetReg1_lookup r v s o w : slots (SetReg1 r v s) !! o = Some w → slots s !! o = Some w.
Proof. exact (slots_SetReg_lookup r v TableNone s o w). Qed.

Lemma Slot_Some s o v : slots s !! o = Some v → Slot s o = v.
Proof. unfold Slot. by intros ->. Qed.

(** ** The two halves of [models] *)

Definition regs_true (a a' : activation) (s : AbsState) : Prop :=
  ∀ r, in_range r → value_models a (reg s r) (ac_reg a' r).
Definition slots_true (a a' : activation) (s : AbsState) : Prop :=
  ∀ o v, slots s !! o = Some v → value_models a v (ac_mem a' (slot_addr a o)).

Lemma models_intro a a' s :
  is_u64 (ac_cfa a) → ac_cfa a' = ac_cfa a → (∀ r, ac_entry a' r = ac_entry a r) →
  regs_true a a' s → slots_true a a' s → models a' s.
Proof.
  intros Hu Hc He Hr Hs.
  assert (∀ v x, value_models a v x → value_models a' v x) as Hv.
  { intros [] x; cbn; rewrite ?Hc, ?He; done. }
  split; [by rewrite Hc|intros r Hin; by apply Hv, Hr|].
  intros o. unfold Slot. destruct (slots s !! o) as [v|] eqn:E; [|done]. cbn. rewrite Hc. by apply Hv, (Hs o v E).
Qed.

Lemma models_regs a s : models a s → regs_true a a s.
Proof. intros Hm r Hr. by apply Hm. Qed.
Lemma models_slots a s : models a s → slots_true a a s.
Proof. intros Hm o v E. pose proof (mo_slots _ _ Hm o) as H. by rewrite (Slot_Some _ _ _ E) in H. Qed.

(** Writing one register, or slot. *)
Lemma regs_SetReg a a' r v t s :
  wf_state s → in_range r → value_models a v (ac_reg a' r) →
  (∀ q, in_range q → q ≠ r → value_models a (reg s q) (ac_reg a' q)) → regs_true a a' (SetReg r v t s).
Proof.
  intros Hs Hr Hv Hq q Hin. rewrite reg_SetReg_or by done. case_match eqn:E; [|apply Hq; auto; lia].
  by assert (q = r) as -> by lia.
Qed.

Lemma slots_sub a a' s s' :
  (∀ o v, slots s' !! o = Some v → slots s !! o = Some v) → slots_true a a' s → slots_true a a' s'.
Proof. intros Hsub Hs o v E. auto. Qed.

Lemma slots_SetSlot a a' k v s :
  value_models a v (ac_mem a' (slot_addr a k)) →
  (∀ o w, slots s !! o = Some w → o ≠ k → value_models a w (ac_mem a' (slot_addr a o))) →
  slots_true a a' (SetSlot k v s).
Proof.
  intros Hk Ho o w. unfold SetSlot. case_match; cbn; rewrite ?lookup_delete_Some, ?lookup_insert_Some;
    naive_solver.
Qed.

Lemma reg_with_slots m s : reg (with_slots m s) = reg s.
Proof. done. Qed.
Lemma reg_SetSlot k v s r : reg (SetSlot k v s) r = reg s r.
Proof. unfold SetSlot. by case_match. Qed.

(** ** Addresses *)

Lemma slot_addr_CFA a d o : u64 (u64 (ac_cfa a + d) + o) = slot_addr a (s64 (d + o)).
Proof. unfold slot_addr. rewrite u64_add_l, <-(u64_add_r _ (s64 (d + o))), u64_s64, u64_add_r. f_equal. lia. Qed.

(** What [EraseSlots] keeps, the write misses. *)
Lemma erased_misses a o k n :
  near o → near k → 1 <= n <= 8192 → ¬ (k - 7 <= o < k + n) → misses (slot_addr a o) (slot_addr a k, n).
Proof.
  intros Ho Hk Hn Hne. unfold misses, slot_addr, near in *. cbn [fst snd].
  assert (u64 (u64 (ac_cfa a + k) - u64 (ac_cfa a + o)) = u64 (k - o)) as ->.
  { unfold u64, wrapu. rewrite <-Zminus_mod. f_equal. lia. }
  destruct (decide (o <= k)).
  - rewrite u64_id by (unfold is_u64; lia). lia.
  - assert (u64 (k - o) = k - o + 2 ^ 64) as ->; [|lia].
    unfold u64, wrapu. rewrite <-(Z_mod_plus_full (k - o) 1), Z.mod_small; lia.
Qed.

Section Step.
Context `{!ZydisApi}.

Lemma full64_range r : IsFull64 r = true → in_range (DWARFRegOf r).
Proof.
  pose proof (DWARFRegOf_range r) as Hr. unfold in_range. unfold IsFull64, DWARFRegOf, reg_info in *.
  pose proof (gpr_index_range 0 kDwarfGprs (GetLargestEnclosing r)) as Hg. revert Hr Hg.
  generalize (gpr_index 0 kDwarfGprs (GetLargestEnclosing r)). intros [i|] Hr Hg; cbn [fst snd] in *; [|done].
  specialize (Hg i ltac:(lia) eq_refl). lia.
Qed.

Lemma full_reg_spec op r : full_reg op = Some r →
  ∃ q, op_kind op = OpReg q ∧ IsFull64 q = true ∧ r = DWARFRegOf q ∧ in_range r.
Proof.
  unfold full_reg. destruct (op_kind op) as [q| | |]; try done. destruct (IsFull64 q) eqn:E; [|done].
  intros [= <-]. exists q. split_and!; auto using full64_range.
Qed.

Lemma reg_expire insn s : reg (expire_last_cmp insn s) = reg s.
Proof. unfold expire_last_cmp. by case_match. Qed.
Lemma slots_expire insn s : slots (expire_last_cmp insn s) = slots s.
Proof. unfold expire_last_cmp. by case_match. Qed.

Lemma MemSlot_spec s insn m o :
  MemSlot s insn m = Some o ↔
  plain_mem insn m ∧ ∃ d, reg s (DWARFRegOf (mem_base m)) = CFARel d ∧ o = s64 (d + mem_disp m).
Proof.
  unfold MemSlot, plain_mem. destruct (zi_has_segment _); cbn [orb]; [naive_solver|].
  destruct (decide (mem_index m = ZR_NONE)) as [E|E];
    [rewrite (bool_decide_eq_true_2 _ E)|rewrite (bool_decide_eq_false_2 _ E)]; cbn [negb]; [|naive_solver].
  destruct (IsFull64 (mem_base m)); cbn [negb]; [|naive_solver].
  destruct (reg s (DWARFRegOf (mem_base m))); naive_solver.
Qed.
End Step.

(** ** One instruction *)

(** [models] reads the registers' CFI values and the slots only. *)
Lemma models_same a s s' : reg s' = reg s → slots s' = slots s → models a s → models a s'.
Proof. intros Hr Hs [H1 H2 H3]. split; [done| |]; unfold Slot in *; by rewrite ?Hr, ?Hs. Qed.

Lemma not_call `{ZydisApi} insn : call_id (in_id insn) = false → call_like insn = false.
Proof. unfold call_like. intros ->. apply andb_false_r. Qed.

Section Cases.
Context `{!ZydisApi} (insn : Instruction) (ea : ZydisMem → Z) (a a' : activation) (s : AbsState).
Context (Hm : models a s) (Hs : state_ok s) (He : executes insn ea a a') (Hf : frame_assumed insn ea a a' s).

Lemma wf_s : wf_state s.
Proof. apply Hs. Qed.

Lemma models_after s' : regs_true a a' s' → slots_true a a' s' → models a' s'.
Proof. intros. apply (models_intro a); auto; [apply Hm|apply He|apply He]. Qed.

Lemma reg_kept q : in_range q → q ∉ written_regs insn → value_models a (reg s q) (ac_reg a' q).
Proof. intros Hq Hn. rewrite (ex_regs _ _ _ _ He) by done. by apply (models_regs _ _ Hm). Qed.

Lemma slot_kept o v :
  call_like insn = false → slots s !! o = Some v → Forall (misses (slot_addr a o)) (written_mem insn ea a) →
  value_models a v (ac_mem a' (slot_addr a o)).
Proof.
  intros Hc E Hw. rewrite (ex_mem _ _ _ _ He) by (done || apply u64_range). by apply (models_slots _ _ Hm).
Qed.

(** A plain operand that can be placed names the slot's address. *)
Lemma ea_slot m o : in_id insn ≠ M_POP → MemSlot s insn m = Some o → ea m = slot_addr a o.
Proof.
  intros Hp [Hpl (d & Ed & ->)]%MemSlot_spec. rewrite (ex_ea _ _ _ _ He m Hpl). unfold base_value.
  rewrite bool_decide_eq_false_2 by done. cbn [andb]. destruct Hpl as (_ & _ & Hfull).
  pose proof (models_regs _ _ Hm _ (full64_range _ Hfull)) as Hv. rewrite Ed in Hv. cbn in Hv. rewrite Hv.
  apply slot_addr_CFA.
Qed.

Lemma models_unchanged : call_like insn = false → written_regs insn = [] → written_mem insn ea a = [] → models a' s.
Proof.
  intros Hc Hr Hw. apply models_after.
  - intros q Hq. apply reg_kept; [done|]. rewrite Hr. apply not_elem_of_nil.
  - intros o v E. apply slot_kept; auto. by rewrite Hw.
Qed.

(** Calls. *)
Lemma clobbers_reg l st q :
  wf_state st → Forall in_range l → in_range q →
  reg (foldl (fun s r => ClobberReg r s) st l) q = if bool_decide (q ∈ l) then Top else reg st q.
Proof.
  intros Hst Hl Hq. revert st Hst. induction Hl as [|r l Hr Hl IH]; intros st Hst; [done|]. cbn [foldl].
  rewrite IH by by apply wf_ClobberReg. unfold ClobberReg. rewrite reg_SetReg_or by done.
  destruct (q =? r) eqn:E.
  - assert (q = r) as -> by lia. rewrite (bool_decide_eq_true_2 (r ∈ r :: l)) by by left. by case_match.
  - rewrite (bool_decide_ext (q ∈ r :: l) (q ∈ l)); [done|]. rewrite elem_of_cons. naive_solver lia.
Qed.

Lemma clobbers_slots l st o v : slots (foldl (fun s r => ClobberReg r s) st l) !! o = Some v → slots st !! o = Some v.
Proof. revert st. induction l as [|r l IH]; intros st E; [done|]. apply IH in E. by apply (slots_SetReg_lookup r Top TableNone). Qed.

Lemma caller_saved_range : Forall in_range kCallerSaved.
Proof. unfold kCallerSaved, in_range, kNumGPRs. repeat constructor; lia. Qed.

Lemma wf_drop_below : wf_state (drop_below_rsp s).
Proof. unfold drop_below_rsp. case_match; try apply wf_s. apply wf_DropSlotsBelow, wf_s. Qed.

Lemma reg_drop_below q : reg (drop_below_rsp s) q = reg s q.
Proof. unfold drop_below_rsp. by case_match. Qed.

Lemma slots_drop_below o v :
  slots (drop_below_rsp s) !! o = Some v →
  slots s !! o = Some v ∧ ∀ d, reg s kDWARFRsp = CFARel d → d <= o.
Proof.
  unfold drop_below_rsp. destruct (reg s kDWARFRsp) as [| |d| |] eqn:Er; try done.
  intros [E Ho]%map_lookup_filter_Some. split; [done|]. intros d' [= <-]. done.
Qed.

Lemma models_call :
  call_like insn = true → written_regs insn = kCallerSaved →
  models a' (clobber_caller_saved (drop_below_rsp s)).
Proof.
  intros Hc Hw. unfold clobber_caller_saved. pose proof caller_saved_range as Hl.
  revert Hw Hl. generalize kCallerSaved. intros l Hw Hl. apply models_after.
  - intros q Hq. rewrite clobbers_reg by auto using wf_drop_below. case_bool_decide as Hin; [done|].
    rewrite reg_drop_below. apply reg_kept; [done|]. by rewrite Hw.
  - intros o v E. apply clobbers_slots, slots_drop_below in E as [E1 E2].
    rewrite (fa_call _ _ _ _ _ Hf Hc); [by apply (models_slots _ _ Hm)|by exists v|done].
Qed.

(** The stack pointer where the state knows it. *)
Lemma rsp_value d : reg s kDWARFRsp = CFARel d → ac_reg a kDWARFRsp = u64 (ac_cfa a + d).
Proof. intros E. pose proof (models_regs _ _ Hm _ rsp_in_range) as Hv. by rewrite E in Hv. Qed.

Lemma moved_rsp d k : ac_reg a kDWARFRsp = u64 (ac_cfa a + d) → u64 (ac_reg a kDWARFRsp + k) = slot_addr a (s64 (d + k)).
Proof. intros ->. apply slot_addr_CFA. Qed.

Lemma unclaimed_value v : (∀ d, v ≠ CFARel d) → (∀ r, v ≠ OrigReg r) → ∀ x, value_models a v x.
Proof. destruct v; naive_solver. Qed.

Lemma regs_but r :
  written_regs insn ⊆ [r] → ∀ q, in_range q → q ≠ r → value_models a (reg s q) (ac_reg a' q).
Proof. intros Hw q Hq Hne. apply reg_kept; [done|]. set_solver. Qed.

(** What [push] stores. *)
Lemma pushed_holds :
  in_id insn = M_PUSH → odd_width insn = false →
  value_models a (pushed_value insn s) (ac_mem a' (u64 (ac_reg a kDWARFRsp - 8))).
Proof.
  intros Eid Hodd. unfold pushed_value. rewrite bool_decide_eq_true_2 by done.
  pose proof (ex_push _ _ _ _ He Eid Hodd) as Hp. unfold source_value, full_reg in Hp.
  destruct (op_kind (operand insn 0)) as [r|m| |] eqn:Ek; try done.
  - unfold ReadReg. destruct (IsFull64 r) eqn:Ef; [|done]. rewrite (Hp _ eq_refl).
    by apply (models_regs _ _ Hm), full64_range.
  - destruct (MemSlot s insn m) as [o|] eqn:Eo; [|done].
    rewrite (Hp _ eq_refl). rewrite (ea_slot m o) by (done || congruence).
    apply (mo_slots _ _ Hm).
Qed.

(** A stack operation leaves a stack pointer the state does not know as it is. *)
Lemma regs_unknown r :
  written_regs insn ⊆ [r] → (∀ d, reg s r ≠ CFARel d) → (∀ q, reg s r ≠ OrigReg q) → regs_true a a' s.
Proof.
  intros Hw Hd Ho q Hq. destruct (decide (q = r)) as [->|Hne]; [by apply unclaimed_value|by apply (regs_but r)].
Qed.

Lemma is_stack_push : in_id insn = M_PUSH ∨ in_id insn = M_PUSHFQ → call_like insn = false.
Proof. intros Hid. apply not_call. by destruct Hid as [->| ->]. Qed.

Lemma models_push :
  in_id insn = M_PUSH ∨ in_id insn = M_PUSHFQ → written_regs insn = [kDWARFRsp] →
  written_mem insn ea a = [(u64 (ac_reg a kDWARFRsp - 8), 8)] →
  review_reason (TransferPush insn s).1 = "" → models a' (TransferPush insn s).2.
Proof.
  intros Hid Hw Hwm. pose proof (is_stack_push Hid) as Hc. pose proof (fa_push _ _ _ _ _ Hf Hid) as Hmiss.
  assert (∀ q, reg s kDWARFRsp ≠ OrigReg q) as Hno.
  { pose proof (fa_stack _ _ _ _ _ Hf) as Hst. by destruct Hid as [E|E]; rewrite E in Hst. }
  unfold TransferPush. destruct (_ && _) eqn:Eodd; [done|].
  assert (ac_reg a' kDWARFRsp = u64 (ac_reg a kDWARFRsp - 8)) as Hrsp.
  { apply (ex_push_rsp _ _ _ _ He). destruct Hid as [E|E]; [right|by left]. split; [done|].
    by rewrite bool_decide_eq_true_2 in Eodd. }
  assert (∀ k o v, slots s !! o = Some v → write_misses a s k (u64 (ac_reg a kDWARFRsp - 8), 8) → k ≠ Some o →
    value_models a v (ac_mem a' (slot_addr a o))) as Hkept.
  { intros k o v E Hk Hne. apply slot_kept; auto. rewrite Hwm. constructor; [|constructor]. apply Hk; [by exists v|done]. }
  cbv zeta. destruct (reg s kDWARFRsp) as [| |d| |] eqn:Er; intros _; cbn [snd].
  3: { assert (u64 (ac_reg a kDWARFRsp - 8) = slot_addr a (s64 (d - 8))) as Ea.
       { apply (moved_rsp d (-8)), rsp_value, Er. }
       apply models_after.
       - intros q Hq. rewrite reg_SetSlot. revert q Hq. apply regs_SetReg; [apply wf_s|apply rsp_in_range| |].
         + rewrite Hrsp, Ea. done.
         + apply regs_but. by rewrite Hw.
       - apply slots_SetSlot.
         + rewrite <-Ea. destruct Hid as [E|E].
           * apply pushed_holds; [done|]. by rewrite bool_decide_eq_true_2 in Eodd.
           * unfold pushed_value. by rewrite bool_decide_eq_false_2 by congruence.
         + intros o v E%slots_SetReg1_lookup Hne. eapply Hkept; [done|exact Hmiss|congruence]. }
  all: apply models_after; [apply (regs_unknown kDWARFRsp); rewrite ?Er; done || by rewrite Hw|].
  all: intros o v E; by eapply Hkept.
Qed.

(** [pop]: the stack pointer moves first. *)
Lemma wf_popped : wf_state (popped_rsp s).
Proof. unfold popped_rsp. case_match; try apply wf_s. apply wf_SetReg1; [apply wf_s|apply av_ok_cfa]. Qed.

Lemma slots_popped o v : slots (popped_rsp s) !! o = Some v → slots s !! o = Some v.
Proof. unfold popped_rsp. case_match; try done. apply slots_SetReg1_lookup. Qed.

Lemma reg_popped q :
  in_range q → reg (popped_rsp s) q =
  if q =? kDWARFRsp then match reg s kDWARFRsp with CFARel d => CFARel (s64 (d + 8)) | v => v end else reg s q.
Proof.
  intros Hq. unfold popped_rsp. destruct (reg s kDWARFRsp) as [| |d| |] eqn:E.
  3: apply reg_SetReg_or; auto using wf_s, rsp_in_range.
  all: case_match eqn:Eq; [|done]; assert (q = kDWARFRsp) as -> by lia; exact E.
Qed.

Lemma popped_rsp_value :
  (∀ q, reg s kDWARFRsp ≠ OrigReg q) →
  value_models a (reg (popped_rsp s) kDWARFRsp) (u64 (ac_reg a kDWARFRsp + 8)).
Proof.
  intros Hno. rewrite reg_popped, Z.eqb_refl by apply rsp_in_range.
  destruct (reg s kDWARFRsp) as [| |d|q|] eqn:E; try done; [|by destruct (Hno q)].
  apply moved_rsp. by apply rsp_value.
Qed.

Lemma popped_regs q dest :
  written_regs insn ⊆ [kDWARFRsp; dest] → (∀ q, reg s kDWARFRsp ≠ OrigReg q) →
  (dest ≠ kDWARFRsp → ac_reg a' kDWARFRsp = u64 (ac_reg a kDWARFRsp + 8)) →
  in_range q → q ≠ dest → value_models a (reg (popped_rsp s) q) (ac_reg a' q).
Proof.
  intros Hw Hno Hrsp Hq Hne. destruct (decide (q = kDWARFRsp)) as [->|Hq'].
  - rewrite Hrsp by congruence. by apply popped_rsp_value.
  - rewrite reg_popped by done. assert ((q =? kDWARFRsp) = false) as -> by lia. apply reg_kept; [done|]. set_solver.
Qed.

(** The address of [pop]'s memory operand. *)
Lemma ea_popped m o : in_id insn = M_POP → MemSlot (popped_rsp s) insn m = Some o → ea m = slot_addr a o.
Proof.
  intros Eid [Hpl (d & Ed & ->)]%MemSlot_spec. rewrite (ex_ea _ _ _ _ He m Hpl).
  destruct Hpl as (_ & _ & Hfull%full64_range). set (b := DWARFRegOf (mem_base m)) in *.
  assert (base_value insn a b = u64 (ac_cfa a + d)) as ->; [|apply slot_addr_CFA].
  unfold base_value. rewrite bool_decide_eq_true_2 by done. cbn [andb].
  rewrite reg_popped in Ed by done. destruct (b =? kDWARFRsp) eqn:E.
  - assert (b = kDWARFRsp) as Eb by lia. destruct (reg s kDWARFRsp) as [| |d0| |] eqn:Er; try done.
    injection Ed as <-. rewrite Eb. apply moved_rsp. by apply rsp_value.
  - pose proof (models_regs _ _ Hm _ Hfull) as Hv. by rewrite Ed in Hv.
Qed.

Lemma popped_holds d : reg s kDWARFRsp = CFARel d → value_models a (Slot s d) (ac_mem a (ac_reg a kDWARFRsp)).
Proof. intros E. rewrite (rsp_value d E). apply (mo_slots _ _ Hm). Qed.

Lemma models_store_popped v :
  in_id insn = M_POP → odd_width insn = false → written_regs insn = [kDWARFRsp; op_dwarf (operand insn 0)] →
  written_mem insn ea a = match op_kind (operand insn 0) with OpMem m => [(ea m, 8)] | _ => [] end →
  (∀ q, reg s kDWARFRsp ≠ OrigReg q) → value_models a v (ac_mem a (ac_reg a kDWARFRsp)) →
  models a' (store_popped insn v (popped_rsp s)).
Proof.
  intros Eid Hodd Hw Hwm Hno Hv. destruct (ex_pop _ _ _ _ He Eid Hodd) as [Hpr Hpm].
  assert (call_like insn = false) as Hc by (apply not_call; by rewrite Eid).
  assert (∀ q, in_range q → q ≠ op_dwarf (operand insn 0) →
    value_models a (reg (popped_rsp s) q) (ac_reg a' q)) as Hq.
  { intros q. apply popped_regs; [by rewrite Hw|done|]. intros Hne. apply (ex_pop_rsp _ _ _ _ He); auto. }
  pose proof (fa_pop _ _ _ _ _ Hf Eid) as Hmiss. unfold full_reg, op_dwarf in *.
  unfold store_popped. rewrite bool_decide_eq_true_2 by done.
  assert (∀ o w, slots (popped_rsp s) !! o = Some w → (∀ m, op_kind (operand insn 0) = OpMem m →
    MemSlot (popped_rsp s) insn m ≠ Some o) → value_models a w (ac_mem a' (slot_addr a o))) as Hkept.
  { intros o w E%slots_popped Hne. apply slot_kept; [done..|]. rewrite Hwm.
    destruct (op_kind (operand insn 0)) as [|m| |] eqn:Ek; repeat constructor;
      (eapply Hmiss; [done|by exists w|by apply Hne]). }
  destruct (op_kind (operand insn 0)) as [r|m| |] eqn:Ek.
  - destruct (0 <=? DWARFRegOf r) eqn:Er.
    + apply dwarf_in_range in Er. apply models_after.
      * apply regs_SetReg; auto using wf_popped. destruct (IsFull64 r); [|done]. by rewrite (Hpr _ eq_refl).
      * intros o w E%slots_SetReg1_lookup. by apply Hkept.
    + apply models_after; [|intros o w E; by apply Hkept]. intros q Hin. apply Hq; [done|]. unfold in_range in Hin. lia.
  - destruct (MemSlot (popped_rsp s) insn m) as [o|] eqn:Eo; (apply models_after;
      [intros q Hin; rewrite ?reg_SetSlot; apply Hq; unfold in_range in *; auto; lia|]).
    + apply slots_SetSlot.
      * rewrite <-(ea_popped m o) by done. by rewrite (Hpm _ eq_refl).
      * intros o' w E Hne. apply Hkept; [done|]. intros m' [= <-]. congruence.
    + intros o w E. apply Hkept; [done|]. intros m' [= <-]. congruence.
  - apply models_after; [|intros o w E; by apply Hkept]. intros q Hin. apply Hq; unfold in_range in *; auto; lia.
  - apply models_after; [|intros o w E; by apply Hkept]. intros q Hin. apply Hq; unfold in_range in *; auto; lia.
Qed.

Lemma store_nothing v st : in_id insn ≠ M_POP → store_popped insn v st = st.
Proof. intros Hne. unfold store_popped. by rewrite bool_decide_eq_false_2. Qed.

Lemma models_popfq :
  in_id insn = M_POPFQ → written_regs insn = [kDWARFRsp] → written_mem insn ea a = [] →
  (∀ q, reg s kDWARFRsp ≠ OrigReg q) → models a' (popped_rsp s).
Proof.
  intros Eid Hw Hwm Hno. apply models_after.
  - intros q Hq. apply (popped_regs q (-1)); [rewrite Hw; set_solver|done| |done|unfold in_range in Hq; lia].
    intros _. apply (ex_pop_rsp _ _ _ _ He); auto.
  - intros o v E%slots_popped. apply slot_kept; [apply not_call; by rewrite Eid|done|].
    rewrite Hwm. constructor.
Qed.

Lemma TransferPop_popped :
  review_reason (TransferPop insn s).1 = "" →
  ∃ v, (TransferPop insn s).2 = store_popped insn v (popped_rsp s) ∧
    value_models a v (ac_mem a (ac_reg a kDWARFRsp)) ∧ (in_id insn = M_POP → odd_width insn = false).
Proof.
  unfold TransferPop, popped_rsp. destruct (_ && _) eqn:Eodd; [done|]. intros _.
  assert (in_id insn = M_POP → odd_width insn = false) as Hodd.
  { intros E. by rewrite bool_decide_eq_true_2 in Eodd. }
  destruct (reg s kDWARFRsp) as [| |d| |] eqn:E; cbn [snd].
  3: { exists (Slot s d). split_and!; auto. by apply popped_holds. }
  all: by exists Top.
Qed.

Lemma models_pop :
  in_id insn = M_POP ∨ in_id insn = M_POPFQ →
  written_regs insn = (if bool_decide (in_id insn = M_POP) then [kDWARFRsp; op_dwarf (operand insn 0)] else [kDWARFRsp]) →
  written_mem insn ea a = (if bool_decide (in_id insn = M_POP)
    then match op_kind (operand insn 0) with OpMem m => [(ea m, 8)] | _ => [] end else []) →
  review_reason (TransferPop insn s).1 = "" → models a' (TransferPop insn s).2.
Proof.
  intros Hid Hw Hwm (v & -> & Hv & Hodd)%TransferPop_popped.
  assert (∀ q, reg s kDWARFRsp ≠ OrigReg q) as Hno.
  { pose proof (fa_stack _ _ _ _ _ Hf) as Hst. by destruct Hid as [E|E]; rewrite E in Hst. }
  destruct Hid as [E|E].
  - rewrite bool_decide_eq_true_2 in Hw, Hwm by done. apply models_store_popped; auto.
  - rewrite bool_decide_eq_false_2 in Hw, Hwm by congruence. rewrite store_nothing by congruence.
    by apply models_popfq.
Qed.

Lemma models_leave :
  in_id insn = M_LEAVE → written_regs insn = [kDWARFRbp; kDWARFRsp] → written_mem insn ea a = [] →
  models a' (TransferLeave s).2.
Proof.
  intros Eid Hw Hwm. destruct (ex_leave _ _ _ _ He Eid) as [Hrsp Hrbp].
  pose proof (fa_stack _ _ _ _ _ Hf) as Hno. rewrite Eid in Hno.
  pose proof rsp_in_range as Hr. pose proof rbp_in_range as Hb.
  unfold TransferLeave. set (s1 := CopyReg kDWARFRsp kDWARFRbp s).
  assert (wf_state s1) as W1 by (apply wf_CopyReg, wf_s).
  assert (reg s1 kDWARFRsp = reg s kDWARFRbp) as E1 by (apply reg_SetReg; [apply wf_s|done]).
  assert (∀ o v, slots s1 !! o = Some v → slots s !! o = Some v) as Hsub by (intros o v; apply slots_SetReg_lookup).
  assert (slots_true a a' s1) as Hslots.
  { intros o v E%Hsub. apply slot_kept; [apply not_call; by rewrite Eid|done|]. rewrite Hwm. constructor. }
  assert (∀ q, in_range q → q ≠ kDWARFRbp → q ≠ kDWARFRsp → value_models a (reg s1 q) (ac_reg a' q)) as Hq.
  { intros q Hin H1 H2. unfold s1, CopyReg. rewrite reg_SetReg_ne by (done || apply wf_s). apply reg_kept; [done|].
    rewrite Hw. set_solver. }
  pose proof (models_regs _ _ Hm _ Hb) as Hv. rewrite E1.
  destruct (reg s kDWARFRbp) as [| |d|q|] eqn:E; cbn [snd].
  3: { cbn in Hv. apply models_after.
       - apply regs_SetReg; [apply wf_SetReg1; [done|by apply av_ok_slot]|done| |].
         + rewrite Hrsp, Hv, slot_addr_CFA. done.
         + intros q Hin Hne. unfold SetReg1. rewrite reg_SetReg_or by done.
           case_match eqn:Eq; [|apply Hq; auto; lia]. assert (q = kDWARFRbp) as -> by lia.
           rewrite Hrbp, Hv. unfold Slot. destruct (slots s1 !! d) as [w|] eqn:Ew; [|done].
           cbn. pose proof (models_slots _ _ Hm _ _ (Hsub _ _ Ew)) as Hw'. exact Hw'.
       - apply (slots_sub _ _ s1); [|done]. intros o w Ew. by repeat apply slots_SetReg1_lookup in Ew. }
  3: by destruct (Hno q).
  all: apply models_after; [|apply (slots_sub _ _ s1); [intros o w; apply (slots_SetReg_lookup kDWARFRbp Top TableNone)|done]].
  all: apply regs_SetReg; [done..|]; intros q Hin Hne; destruct (decide (q = kDWARFRsp)) as [->|Hne'];
    [by rewrite E1|by apply Hq].
Qed.

Lemma op_ranges_Forall (P : Z * Z → Prop) ops :
  (∀ op m, op ∈ ops → op_kind op = OpMem m → P (ea m, op_bytes op)) → Forall P (op_ranges ea ops).
Proof.
  intros HP. apply Forall_forall. intros w Hw. unfold op_ranges in Hw.
  apply list_elem_of_bind in Hw as (op & Hin & Hop). destruct (op_kind op) as [|m| |] eqn:E; try by apply elem_of_nil in Hin.
  apply list_elem_of_singleton in Hin as ->. by apply HP.
Qed.

Lemma slots_erase k op st o v :
  slots (erase_operand k op st) !! o = Some v → slots st !! o = Some v ∧ ¬ (k - 7 <= o < k + op_bytes op).
Proof.
  unfold erase_operand, EraseSlots, op_bytes. assert ((Z.max 1 (op_size op / 8) <=? 0) = false) as -> by lia.
  intros [E Ho]%map_lookup_filter_Some. by split.
Qed.

Lemma reg_erase k op st : reg (erase_operand k op st) = reg st.
Proof. unfold erase_operand, EraseSlots. by case_match. Qed.

Lemma written_op_bytes op : insn_wf insn → op ∈ written_ops insn → 1 <= op_bytes op <= 8192.
Proof.
  intros Hwf [_ Hop]%list_elem_of_filter. apply elem_of_take in Hop as (i & Hi & _).
  pose proof (operand_size insn i Hwf) as Hsz. unfold operand in Hsz. rewrite Hi in Hsz. cbn in Hsz.
  unfold op_bytes. split; [lia|]. assert (op_size op / 8 < 8192); [|lia].
  apply Z.div_lt_upper_bound; lia.
Qed.

(** A written memory operand misses the slots that are tracked afterwards. *)
Lemma written_misses op m o :
  insn_wf insn → in_id insn ≠ M_POP → op ∈ written_ops insn → op_kind op = OpMem m → tracked s o →
  (∀ k, MemSlot s insn m = Some k → ¬ (k - 7 <= o < k + op_bytes op)) →
  misses (slot_addr a o) (ea m, op_bytes op).
Proof.
  intros Hwf Hp Hop Ek Ho Hk. destruct (MemSlot s insn m) as [k|] eqn:E.
  - rewrite (ea_slot m k Hp E). apply erased_misses; auto using written_op_bytes.
    + by apply (fa_near _ _ _ _ _ Hf).
    + by apply (fa_near_ops _ _ _ _ _ Hf op m).
  - by apply (fa_unplaced _ _ _ _ _ Hf op m Hop Ek E).
Qed.

(** The instructions that write their first operand. *)
Definition after (r : option (TransferOutcome * AbsState)) : Prop :=
  match r with Some (_, st) => models a' st | None => True end.

Section First.
Context (Hd : documented insn) (Hmd : mem_documented insn) (Hfirst : writes_first (in_id insn) = true).
Context (H2 : two_ops insn = true).
Context (Hw : written_regs insn = op_regs (written_ops insn)).
Context (Hwm : written_mem insn ea a = op_ranges ea (written_ops insn)).

Lemma first_not_call : call_like insn = false.
Proof. apply not_call. by destruct (in_id insn). Qed.

Lemma models_set_first r v t :
  op_kind (operand insn 0) = OpReg r → in_range (DWARFRegOf r) → value_models a v (ac_reg a' (DWARFRegOf r)) →
  models a' (SetReg (DWARFRegOf r) v t s).
Proof.
  intros Ek Hr Hv. destruct (doc_dest _ Hd Hfirst H2) as [_ Hone]. apply models_after.
  - apply regs_SetReg; [apply wf_s|done..|]. intros q Hq Hne. apply reg_kept; [done|]. rewrite Hw.
    unfold op_regs. intros (op & -> & Hop)%list_elem_of_fmap. apply Hne. rewrite (Hone op Hop Hq).
    by apply op_dwarf_reg.
  - intros o w E%slots_SetReg_lookup. apply slot_kept; [apply first_not_call|done|]. rewrite Hwm.
    assert (op_ranges ea (written_ops insn) = []) as ->; [|constructor]. apply bind_nil. intros op Hop.
    destruct (op_kind op) as [|m| |] eqn:Em; try done.
    rewrite (md_first _ Hmd Hfirst H2 op m Hop Em) in Em. congruence.
Qed.

Lemma models_clobber_first r st :
  op_kind (operand insn 0) = OpReg r → in_range (DWARFRegOf r) →
  reg st = reg (ClobberReg (DWARFRegOf r) s) → slots st = slots (ClobberReg (DWARFRegOf r) s) → models a' st.
Proof. intros Ek Hr E1 E2. eapply models_same; [exact E1|exact E2|]. by apply models_set_first. Qed.

Lemma after_lea : in_id insn = M_LEA → after (TransferLea insn s).
Proof.
  intros Eid. unfold TransferLea, after. rewrite H2. destruct (op_kind (operand insn 0)) as [r| | |] eqn:E0; try done.
  destruct (op_kind (operand insn 1)) as [|m| |] eqn:E1; try done.
  destruct (DWARFRegOf r <? 0) eqn:Ed; [done|]. apply dwarf_in_range' in Ed.
  destruct (IsFull64 r) eqn:Ef; cbn [negb]; [|by apply (models_clobber_first r)].
  destruct (rip_constant insn m); [by apply models_set_first|]. apply models_set_first; [done..|].
  unfold LeaValue. destruct (MemSlot s insn m) as [o|] eqn:Eo; [|done].
  rewrite (ex_lea _ _ _ _ He Eid (DWARFRegOf r) m H2); [|unfold full_reg; by rewrite E0, Ef|done|].
  - by rewrite (ea_slot m o) by (done || congruence).
  - by apply MemSlot_spec in Eo as [? _].
Qed.

Lemma models_mov_full r :
  in_id insn = M_MOV ∨ in_id insn = M_MOVQ → op_kind (operand insn 0) = OpReg r → IsFull64 r = true →
  models a' (TransferMovFull insn (DWARFRegOf r) (operand insn 1) s).
Proof.
  intros Hid E0 Ef. pose proof (full64_range _ Ef) as Hr.
  pose proof (ex_load _ _ _ _ He Hid (DWARFRegOf r)) as Hx. unfold full_reg at 1 in Hx. rewrite E0, Ef in Hx.
  specialize (λ x, Hx x H2 eq_refl). unfold TransferMovFull. unfold source_value, full_reg in Hx.
  destruct (op_kind (operand insn 1)) as [q|m| |] eqn:E1; try by apply models_set_first.
  - destruct (0 <=? DWARFRegOf q); cbn [andb]; [|by apply models_set_first].
    destruct (IsFull64 q) eqn:Eq; [|by apply models_set_first]. apply models_set_first; [done..|].
    rewrite (Hx _ (doc_size _ Hd _ E1 Eq) eq_refl). by apply (models_regs _ _ Hm), full64_range.
  - apply models_set_first; [done..|]. destruct (MemSlot s insn m) as [o|] eqn:Eo; [|done].
    destruct (op_size (operand insn 1) =? 64) eqn:Es; [|done].
    rewrite (Hx _ ltac:(lia) eq_refl). rewrite (ea_slot m o) by (done || destruct Hid; congruence).
    apply (mo_slots _ _ Hm).
Qed.

Lemma models_mov_store m :
  in_id insn = M_MOV ∨ in_id insn = M_MOVQ → op_kind (operand insn 0) = OpMem m →
  models a' (TransferMovStore insn m (operand insn 0) (operand insn 1) s).
Proof.
  intros Hid E0. assert (in_id insn ≠ M_POP) as Hp by (destruct Hid; congruence).
  pose proof (md_stored _ Hmd Hfirst H2 m E0) as Hin.
  assert (∀ q, in_range q → value_models a (reg s q) (ac_reg a' q)) as Hregs.
  { intros q Hq. apply reg_kept; [done|]. rewrite Hw. unfold op_regs.
    intros (op & -> & Hop)%list_elem_of_fmap. destruct (doc_dest _ Hd Hfirst H2) as [_ Hone].
    rewrite (Hone op Hop Hq) in Hq. unfold op_dwarf in Hq. rewrite E0 in Hq. unfold in_range in Hq. lia. }
  assert (∀ o v, slots s !! o = Some v →
    (∀ k, MemSlot s insn m = Some k → ¬ (k - 7 <= o < k + op_bytes (operand insn 0))) →
    value_models a v (ac_mem a' (slot_addr a o))) as Hkept.
  { intros o v E Hk. apply slot_kept; [apply first_not_call|done|]. rewrite Hwm. apply op_ranges_Forall.
    intros op m' Hop Em. assert (op = operand insn 0) as -> by by apply (md_first _ Hmd Hfirst H2 op m').
    assert (m' = m) as -> by congruence. apply written_misses; auto; [apply Hd|by exists v]. }
  unfold TransferMovStore. destruct (MemSlot s insn m) as [k|] eqn:Ek.
  2: { unfold HandleUnplacedMemWrite. apply models_after; [exact Hregs|]. intros o v E. by apply Hkept. }
  cbv zeta. set (s1 := erase_operand k (operand insn 0) s).
  assert (reg s1 = reg s) as Er by apply reg_erase.
  assert (slots_true a a' s1) as Hs1.
  { intros o v [E Ho]%slots_erase. apply Hkept; [done|]. by intros k' [= <-]. }
  assert (models a' s1) as Hm1 by (apply models_after; [intros q Hq; rewrite Er; auto|done]).
  destruct (op_kind (operand insn 1)) as [r| | |] eqn:E1; try done.
  destruct (op_size (operand insn 0) =? 64) eqn:Es; [|done]. destruct (IsFull64 r) eqn:Ef; [|done]. cbn [andb].
  apply models_after; [intros q Hq; rewrite reg_SetSlot, Er; auto|].
  apply slots_SetSlot; [|intros o w E Hne; by apply Hs1]. unfold ReadReg. rewrite Ef, Er, <-(ea_slot m k Hp Ek).
  rewrite (ex_store _ _ _ _ He Hid m (ac_reg a (DWARFRegOf r)) H2 E0 ltac:(lia)).
  - by apply (models_regs _ _ Hm), full64_range.
  - unfold full_reg. by rewrite E1, Ef.
Qed.

Lemma after_mov : in_id insn = M_MOV ∨ in_id insn = M_MOVQ → after (TransferMov insn s).
Proof.
  intros Hid. unfold TransferMov, after. rewrite H2. cbn [negb]. cbv zeta.
  destruct (op_kind (operand insn 0)) as [r|m| |] eqn:E0; try done; [|by apply models_mov_store].
  destruct (DWARFRegOf r <? 0) eqn:Ed; [done|]. apply dwarf_in_range' in Ed.
  destruct (IsFull64 r) eqn:Ef; cbn [negb]; [by apply models_mov_full|].
  unfold TransferMovNarrow. case_match; by apply (models_clobber_first r).
Qed.

Lemma after_movsxd : after (TransferMovsxd insn s).
Proof.
  unfold TransferMovsxd, after. rewrite H2. destruct (op_kind (operand insn 0)) as [r| | |] eqn:E0; try done.
  destruct (DWARFRegOf r <? 0) eqn:Ed; cbn [orb]; [done|]. apply dwarf_in_range' in Ed.
  destruct (IsFull64 r); cbn [negb]; [|done].
  destruct (op_kind (operand insn 1)) as [q|m| |]; try done.
  - cbv zeta. case_match; by apply (models_clobber_first r).
  - unfold TransferTableLoad. repeat (case_match; try done); simplify_eq; by apply models_set_first.
Qed.

Lemma after_widen : after (TransferWiden insn s).
Proof.
  unfold TransferWiden, after. rewrite H2. destruct (op_kind (operand insn 0)) as [r| | |] eqn:E0; try done.
  destruct (DWARFRegOf r <? 0) eqn:Ed; [done|]. apply dwarf_in_range' in Ed.
  destruct (op_kind (operand insn 1)) as [q|m| |]; try done; cbv zeta;
    destruct (RegWidthBits r <? 32); by apply (models_clobber_first r).
Qed.

Lemma after_addsub : in_id insn = M_ADD ∨ in_id insn = M_SUB → after (TransferAddSub insn s).
Proof.
  intros Hid. unfold TransferAddSub, after. destruct (dispatch_add insn s) as [[d0 t]|] eqn:Edisp.
  - unfold dispatch_add in Edisp. destruct (_ && two_ops insn); [|done].
    destruct (op_kind (operand insn 0)) as [r| | |] eqn:E0; try done.
    destruct (op_kind (operand insn 1)) as [q| | |]; try done. cbv zeta in Edisp.
    destruct (0 <=? DWARFRegOf r) eqn:Ed; [|done]. apply dwarf_in_range in Ed.
    repeat (case_match; try done); simplify_eq; by apply models_set_first.
  - rewrite H2. destruct (op_kind (operand insn 0)) as [r| | |] eqn:E0; try done.
    destruct (op_kind (operand insn 1)) as [| |v|] eqn:E1; try done. cbv zeta.
    destruct (DWARFRegOf r <? 0) eqn:Ed; [done|]. apply dwarf_in_range' in Ed.
    pose proof (models_regs _ _ Hm _ Ed) as Hv.
    destruct (reg s (DWARFRegOf r)) as [| |d| |]; try by apply (models_clobber_first r).
    destruct (IsFull64 r) eqn:Ef; [|by apply (models_clobber_first r)]. cbn in Hv.
    apply models_set_first; [done..|].
    destruct (ex_add _ _ _ _ He (DWARFRegOf r) v H2 ltac:(unfold full_reg; by rewrite E0, Ef) E1) as [Ha Hsub].
    destruct Hid as [E|E]; [rewrite bool_decide_eq_true_2 by done|rewrite bool_decide_eq_false_2 by congruence].
    + rewrite (Ha E), Hv. apply slot_addr_CFA.
    + rewrite (Hsub E), Hv. apply (slot_addr_CFA a d (- v)).
Qed.
End First.

(** *** The generic clobber *)

Definition writes_reg (l : list ZydisOperand) (q : Z) : Prop :=
  ∃ op, op ∈ l ∧ op_writes op = true ∧ op_dwarf op = q.

(** What the loop of [ClobberWrites] leaves after the operands [l]. *)
Record clobbered (l : list ZydisOperand) (st : AbsState) : Prop := {
  cl_ok : state_ok st;
  cl_reg : ∀ q, in_range q → (reg st q = Top ∧ writes_reg l q) ∨ (reg st q = reg s q ∧ ¬ writes_reg l q);
  cl_slots : ∀ o v, slots st !! o = Some v → slots s !! o = Some v ∧
    ∀ op m k, op ∈ l → op_writes op = true → op_kind op = OpMem m → MemSlot s insn m = Some k →
      ¬ (k - 7 <= o < k + op_bytes op)
}.

Lemma writes_reg_snoc l op q :
  writes_reg (l ++ [op]) q ↔ writes_reg l q ∨ op_writes op = true ∧ op_dwarf op = q.
Proof. unfold writes_reg. set_solver. Qed.

Lemma clobbered_same l op st :
  clobbered l st → (∀ q, in_range q → op_writes op = true → op_dwarf op ≠ q) →
  (∀ m k, op_writes op = true → op_kind op = OpMem m → MemSlot s insn m = Some k → False) →
  clobbered (l ++ [op]) st.
Proof.
  intros [H1 Hr Hsl] Hq Hk. split; [done| |].
  - intros q Hin. specialize (Hq q Hin). rewrite writes_reg_snoc. destruct (Hr q Hin); naive_solver.
  - intros o v [E Hn]%Hsl. split; [done|]. intros op' m k [Hop| ->%list_elem_of_singleton]%elem_of_app; [eauto|].
    intros Hw Em Ek. by destruct (Hk m k).
Qed.

Lemma clobbered_reg l op r st :
  clobbered l st → op_writes op = true → op_kind op = OpReg r → in_range (DWARFRegOf r) →
  clobbered (l ++ [op]) (ClobberWrittenReg r (DWARFRegOf r) st).
Proof.
  intros [H1 Hr Hsl] Hw Ek Hin. split.
  - by apply ok_ClobberWrittenReg.
  - intros q Hq. rewrite writes_reg_snoc, (op_dwarf_reg _ _ Ek).
    change (reg (ClobberWrittenReg r (DWARFRegOf r) st) q) with (reg (SetReg (DWARFRegOf r) Top TableNone st) q).
    rewrite reg_SetReg_or by (done || apply H1). case_match eqn:E.
    + left. split; [done|]. right. split; [done|lia].
    + destruct (Hr q Hq) as [[? ?]|[? ?]]; [left; auto|right]. split; [done|]. intros [?|[_ ?]]; [done|lia].
  - intros o v E. apply (slots_SetReg_lookup (DWARFRegOf r) Top TableNone), Hsl in E as [E Hn]. split; [done|].
    intros op' m k [Hop| ->%list_elem_of_singleton]%elem_of_app; [eauto|congruence].
Qed.

Lemma clobbered_mem l op m st :
  clobbered l st → op_writes op = true → op_kind op = OpMem m →
  (IsFull64 (mem_base m) = true → ¬ writes_reg l (DWARFRegOf (mem_base m))) →
  clobbered (l ++ [op]) (match MemSlot st insn m with
                         | Some k => erase_operand k op st
                         | None => HandleUnplacedMemWrite st end).
Proof.
  intros Hcl Hw Ek Hbase.
  assert (MemSlot st insn m = MemSlot s insn m) as ->.
  { unfold MemSlot. destruct (_ || _); [done|]. destruct (IsFull64 (mem_base m)) eqn:Ef; [|done]. cbn [negb].
    destruct (cl_reg _ _ Hcl _ (full64_range _ Ef)) as [[_ Hw']|[Hr _]]; [by destruct Hbase|by rewrite Hr]. }
  assert (∀ q, in_range q → op_writes op = true → op_dwarf op ≠ q) as Hno.
  { intros q Hq _. unfold op_dwarf. rewrite Ek. unfold in_range in Hq. lia. }
  destruct (MemSlot s insn m) as [k|] eqn:E; [|apply clobbered_same; [done..|]; intros m' k' _ Em Ek'; congruence].
  destruct Hcl as [H1 Hr Hsl]. split.
  - by apply ok_EraseSlots.
  - intros q Hq. rewrite reg_erase, writes_reg_snoc. specialize (Hno q Hq). destruct (Hr q Hq); naive_solver.
  - intros o v [[E' Hn]%Hsl Hk]%slots_erase. split; [done|].
    intros op' m' k' [Hop| ->%list_elem_of_singleton]%elem_of_app; [eauto|]. intros _ Em Ek'.
    assert (k' = k) as -> by congruence. exact Hk.
Qed.

Lemma clobbered_loop l1 l2 :
  mem_documented insn → take (zi_operand_count (in_insn insn)) (in_operands insn) = l1 ++ l2 →
  clobbered l1 (foldl (clobber_operand insn) s l1).
Proof.
  intros Hmd. revert l2. induction l1 as [|op l1 IH] using rev_ind; intros l2 El.
  - split; [exact Hs| |].
    + intros q _. right. split; [done|]. intros (op & Hop & _). by apply elem_of_nil in Hop.
    + intros o v E. split; [exact E|]. intros op m k Hop. by apply elem_of_nil in Hop.
  - rewrite <-app_assoc in El. specialize (IH _ El). rewrite foldl_app. cbn [foldl].
    unfold clobber_operand at 1. destruct (op_writes op) eqn:Ew; cbn [negb].
    2: { apply clobbered_same; [done|congruence..]. }
    destruct (op_kind op) as [r|m| |] eqn:Ek.
    + destruct (0 <=? DWARFRegOf r) eqn:Er; [apply clobbered_reg; auto using dwarf_in_range|].
      apply clobbered_same; [done| |congruence]. intros q Hq _. rewrite (op_dwarf_reg _ _ Ek).
      unfold in_range in Hq. lia.
    + apply clobbered_mem; auto. intros Hfull%full64_range (op' & Hop' & Hw' & Ed).
      apply (md_base _ Hmd l1 op l2 m op'); auto. unfold in_range in Hfull. lia.
    + apply clobbered_same; [done| |congruence]. intros q Hq _. unfold op_dwarf. rewrite Ek. unfold in_range in Hq. lia.
    + apply clobbered_same; [done| |congruence]. intros q Hq _. unfold op_dwarf. rewrite Ek. unfold in_range in Hq. lia.
Qed.

Lemma models_clobber :
  insn_wf insn → mem_documented insn → call_like insn = false → in_id insn ≠ M_POP →
  written_regs insn = op_regs (written_ops insn) → written_mem insn ea a = op_ranges ea (written_ops insn) →
  models a' (ClobberWrites insn s).
Proof.
  intros Hwf Hmd Hc Hp Hw Hwm.
  destruct (clobbered_loop (take (zi_operand_count (in_insn insn)) (in_operands insn)) [] Hmd) as [_ Hr Hsl];
    [by rewrite app_nil_r|]. apply models_after.
  - intros q Hq. destruct (Hr q Hq) as [[Et _]|[Er Hno]]; fold (ClobberWrites insn s) in *; rewrite ?Et, ?Er; [done|].
    apply reg_kept; [done|]. rewrite Hw. unfold op_regs. intros (op & -> & Hop)%list_elem_of_fmap. apply Hno.
    apply list_elem_of_filter in Hop as [? ?]. by exists op.
  - intros o v E. apply Hsl in E as [E Ho]. apply slot_kept; [done..|]. rewrite Hwm. apply op_ranges_Forall.
    intros op m Hop Em. apply written_misses; auto; [by exists v|]. intros k Ek.
    apply list_elem_of_filter in Hop as [? ?]. by eapply Ho.
Qed.
End Cases.

Section Transfer.
Context `{!ZydisApi}.

(** The comparison in play is no part of what a state says of the frame. *)
Lemma MemSlot_same s s' insn m : reg s' = reg s → MemSlot s' insn m = MemSlot s insn m.
Proof. intros E. unfold MemSlot. by rewrite E. Qed.

Lemma popped_expired c s : reg (popped_rsp (with_last_cmp c s)) = reg (popped_rsp s).
Proof.
  unfold popped_rsp. change (reg (with_last_cmp c s) kDWARFRsp) with (reg s kDWARFRsp).
  destruct (reg s kDWARFRsp); try done. unfold SetReg1, SetReg, InvalidateLastCmpFor. cbn.
  by repeat case_match.
Qed.

Lemma frame_assumed_cmp insn ea a a' s c :
  frame_assumed insn ea a a' s → frame_assumed insn ea a a' (with_last_cmp c s).
Proof.
  intros [H1 H2 H3 H4 H5 H6 H7]. split; try done.
  intros Eid m Em. rewrite (MemSlot_same _ _ _ _ (popped_expired c s)). by apply H6.
Qed.

Lemma frame_assumed_expire insn ea a a' s :
  frame_assumed insn ea a a' s → frame_assumed insn ea a a' (expire_last_cmp insn s).
Proof. intros Hf. unfold expire_last_cmp. case_match; [by apply frame_assumed_cmp|done]. Qed.

Lemma state_ok_expire insn s : state_ok s → state_ok (expire_last_cmp insn s).
Proof. intros Hs. unfold expire_last_cmp. case_match; auto with uw. Qed.

Lemma transfers_false insn :
  transfers insn = false →
  is_return_id (in_id insn) = false ∧ is_branch insn = false ∧ is_stop_id (in_id insn) = false.
Proof. unfold transfers. intros [[? ?]%orb_false_iff ?]%orb_false_iff. auto. Qed.

Lemma written_mem_first insn ea a :
  transfers insn = false → writes_first (in_id insn) = true → written_mem insn ea a = op_ranges ea (written_ops insn).
Proof. intros Ht Hw. unfold written_mem. rewrite Ht. by destruct (in_id insn). Qed.

Lemma TransferCmp_same insn s :
  reg (TransferCmp insn s).2 = reg s ∧ slots (TransferCmp insn s).2 = slots s.
Proof. unfold TransferCmp. by repeat case_match. Qed.

(** The cases that write their first operand. *)
Lemma models_first_case insn ea a a' s :
  models a s → state_ok s → executes insn ea a a' → frame_assumed insn ea a a' s →
  documented insn → mem_documented insn → transfers insn = false → writes_first (in_id insn) = true →
  match TransferCase insn s with
  | Some r => models a' r.2
  | None => models a' (ClobberWrites insn s)
  end.
Proof.
  intros Hm Hs He Hf Hd Hmd Ht Hw. destruct (transfers_false _ Ht) as (H1 & H2 & H3).
  pose proof (written_default insn H1 H2 H3 Hw) as Hwr. pose proof (written_mem_first insn ea a Ht Hw) as Hwm.
  assert (models a' (ClobberWrites insn s)) as Hcl.
  { apply (models_clobber insn ea a a' s); auto; [apply Hd|apply not_call|]; by destruct (in_id insn). }
  assert (∀ r, after a' r → match r with Some r => models a' r.2 | None => models a' (ClobberWrites insn s) end)
    as Hafter by by intros [[out st]|].
  destruct (two_ops insn) eqn:E2.
  - apply Hafter. unfold TransferCase. destruct (in_id insn) eqn:Eid; try done.
    + apply (after_lea insn ea a); rewrite ?Eid; auto.
    + apply (after_mov insn ea a); rewrite ?Eid; auto.
    + apply (after_mov insn ea a); rewrite ?Eid; auto.
    + apply (after_movsxd insn ea a); rewrite ?Eid; auto.
    + apply (after_addsub insn ea a); rewrite ?Eid; auto.
    + apply (after_addsub insn ea a); rewrite ?Eid; auto.
    + apply (after_widen insn ea a); rewrite ?Eid; auto.
    + apply (after_widen insn ea a); rewrite ?Eid; auto.
  - assert (TransferCase insn s = None) as ->; [|done].
    unfold TransferCase, TransferLea, TransferMov, TransferMovsxd, TransferAddSub, TransferWiden, dispatch_add.
    rewrite E2, ?andb_false_r. by destruct (in_id insn).
Qed.

(** The cases of the switch. *)
Lemma models_case insn ea a a' s :
  models a s → state_ok s → executes insn ea a a' → frame_assumed insn ea a a' s →
  documented insn → mem_documented insn → transfers insn = false →
  match TransferCase insn s with
  | Some r => review_reason r.1 = "" → models a' r.2
  | None => models a' (ClobberWrites insn s)
  end.
Proof.
  intros Hm Hs He Hf Hd Hmd Ht. destruct (writes_first (in_id insn)) eqn:Ew.
  { pose proof (models_first_case insn ea a a' s Hm Hs He Hf Hd Hmd Ht Ew) as Hc. by case_match. }
  destruct (transfers_false _ Ht) as (H1 & H2 & H3).
  pose proof (models_clobber insn ea a a' s Hm Hs He Hf (doc_wf _ Hd) Hmd) as Hcl.
  pose proof (models_call insn ea a a' s Hm Hs He Hf) as Hcall.
  pose proof (models_push insn ea a a' s Hm Hs He Hf) as Hpush.
  pose proof (models_pop insn ea a a' s Hm Hs He Hf) as Hpop.
  pose proof (models_leave insn ea a a' s Hm Hs He) as Hleave.
  pose proof (models_unchanged insn ea a a' s Hm He) as Hsame.
  unfold call_like, call_id, written_mem, written_regs in *. rewrite Ht, H1, H2, H3 in *. cbn [orb negb andb] in *.
  unfold TransferCase.
  destruct (in_id insn) eqn:Eid; cbn [snd fst]; try discriminate Ew; try (apply Hcl; (reflexivity || discriminate));
    try (intros _; by apply Hcall); try (by apply Hpush; auto); try (by apply Hpop; auto);
    try (intros _; by apply Hleave); try (intros _; by apply Hsame); try (apply Hcl; done); try done.
  intros _. destruct (TransferCmp_same insn s) as [E1 E2]. apply (models_same _ s); auto.
Qed.

Lemma transfer_models insn ea a a' s :
  models a s → state_ok s → executes insn ea a a' → frame_assumed insn ea a a' s →
  documented insn → mem_documented insn → review_reason (Transfer insn s).1 = "" →
  models a' (Transfer insn s).2.
Proof.
  intros Hm Hs He Hf Hd Hmd. unfold Transfer. cbv zeta. set (s1 := expire_last_cmp insn s).
  assert (models a s1) as Hm1 by (apply (models_same _ s); [apply reg_expire|apply slots_expire|done]).
  pose proof (state_ok_expire insn s Hs) as Hs1. pose proof (frame_assumed_expire _ _ _ _ _ Hf) as Hf1.
  fold s1 in Hs1, Hf1.
  destruct (transfers insn) eqn:Ht.
  - assert (models a' s1) as Hr.
    { apply (models_unchanged insn ea a a' s1 Hm1 He); unfold written_regs, written_mem;
        rewrite ?Ht; try done; [by unfold call_like; rewrite Ht|]. unfold transfers in Ht. by rewrite Ht. }
    unfold transfers in Ht. destruct (is_return_id _); [done|]. destruct (is_branch insn); [done|]. by destruct (is_stop_id _).
  - destruct (transfers_false _ Ht) as (-> & -> & ->).
    pose proof (models_case insn ea a a' s1 Hm1 Hs1 He Hf1 Hd Hmd Ht) as Hc. by destruct (TransferCase insn s1).
Qed.
End Transfer.


(** ** Concrete instances *)

From S2P Require Import ZydisSample.

(** [push %rbp] at a function entry. *)
Definition push_rbp : Instruction := Eval vm_compute in sample_insn [0x55].
Definition after_push : activation :=
  mkAct (ac_cfa at_entry) (ac_entry at_entry)
        (fun r => if r =? kDWARFRsp then ac_cfa at_entry - 16 else ac_reg at_entry r)
        (fun addr => if addr =? ac_cfa at_entry - 16 then ac_reg at_entry kDWARFRbp else ac_mem at_entry addr).

Lemma push_rbp_executes ea : (∀ m, plain_mem push_rbp m → ea m = u64 (base_value push_rbp at_entry (DWARFRegOf (mem_base m)) + mem_disp m)) →
  executes push_rbp ea at_entry after_push.
Proof.
  intros Hea. split; try done.
  - intros r _ Hr. cbn. case_match eqn:E; [|done]. exfalso. apply Hr.
    assert (r = 7) as -> by (unfold kDWARFRsp in E; lia). apply (bool_decide_unpack _). by vm_compute.
  - intros _ addr Ha Hm. cbn [written_mem] in Hm. apply Forall_inv in Hm. unfold misses in Hm. revert Hm.
    cbn [fst snd]. change (u64 (ac_reg at_entry kDWARFRsp - 8)) with (ac_cfa at_entry - 16).
    cbn [ac_mem after_push]. case_match eqn:E; [|done]. assert (addr = ac_cfa at_entry - 16) as -> by lia.
    intros [Hm _]. exfalso. revert Hm. rewrite Z.sub_diag. by vm_compute.
  - intros _ _ x [= <-]. by vm_compute.
  - intros [H|[H _]]; [done|]. by vm_compute.
Qed.

Lemma Entry_tracked o : tracked Entry o → o = -8.
Proof. intros [v E]. cbn in E. by apply lookup_singleton_Some in E as [<- _]. Qed.

Lemma push_rbp_assumed ea : frame_assumed push_rbp ea at_entry after_push Entry.
Proof.
  assert (written_ops push_rbp = []) as Hno by by vm_compute.
  split; try done.
  - intros o ->%Entry_tracked. unfold near. lia.
  - intros op m o Hop. rewrite Hno in Hop. by apply elem_of_nil in Hop.
  - intros _ o ->%Entry_tracked _. by vm_compute.
  - intros op m Hop. rewrite Hno in Hop. by apply elem_of_nil in Hop.
Qed.

Lemma push_rbp_documented : documented push_rbp ∧ mem_documented push_rbp.
Proof.
  split; split; try done.
  - repeat constructor; cbn; lia.
  - intros l1 op l2 m op' El Hw Ek. exfalso. change (take _ _) with (in_operands push_rbp) in El.
    destruct l1 as [|? [|]]; simplify_eq/=.
Qed.

Definition plain_ea (m : ZydisMem) : Z := u64 (ac_reg at_entry (DWARFRegOf (mem_base m)) + mem_disp m).

