(* ===== verification/WalkFacts.v ===== *)
(** * Theorems about the walk of an FDE

    [Propagate] and [Drain]: the worklist invariant, and that a walk that
    ends without hitting its cap is a post-fixpoint of the transfer
    functions. *)

From stdpp Require Import gmap strings sorting.
From S2P Require Import Prelude CfiTable AbsState AbsStateFacts JoinFacts StateFacts Zydis InsnSemantics.
From S2P Require Import InsnFacts ElfImage Lsda RowCheck FdeChecker SinkFacts.

(** ** What one instruction propagates *)

Definition flow : Type := Z * AbsState.
Definition propagate_all (fs : list flow) (w : Walk) : Walk :=
  foldl (fun w f => Propagate f.1 f.2 w) w fs.

Lemma propagate_all_app f1 f2 w : propagate_all (f1 ++ f2) w = propagate_all f2 (propagate_all f1 w).
Proof. apply foldl_app. Qed.

Section flows.
Context `{ZydisApi} (opts : FDECheckerOptions) (cfi : CFI) (guessing : bool) (sites : list LSDACallSite).

Definition pad_flows (pc : Z) (out : TransferOutcome) (s : AbsState) : list flow :=
  if is_call out then
    match LandingPadForCall sites pc with Some lp => [(lp, s)] | None => [] end
  else [].

Definition next_flows (pc : Z) (insn : Instruction) (before : list AbsVal) (out : TransferOutcome)
    (s : AbsState) : list flow :=
  let next := u64 (pc + in_size insn) in
  if falls_through out && (next <? pc_end cfi)
     && FallThroughIsReal cfi (RowAt cfi pc) next before s (is_call out)
  then [(next, TransferEdge insn kFallThrough s)] else [].

Definition taken_flows (insn : Instruction) (out : TransferOutcome) (s : AbsState) : list flow :=
  match direct_target out with
  | Some target => if in_fde cfi target then [(target, TransferEdge insn kTaken s)] else []
  | None => []
  end.

Definition target_flows (targets : list Z) (s : AbsState) : list flow :=
  (fun t => (t, s)) <$> filter (fun t => in_fde cfi t = true) targets.

Definition table_flows (pc : Z) (out : TransferOutcome) (s : AbsState) : list flow :=
  match jump_table out, unbounded_jump_target out with
  | Some (addr, entries), _ => target_flows (ResolveJumpTable opts addr entries) s
  | None, Some addr => if guessing then target_flows (ProbeJumpTable opts cfi addr pc s) s else []
  | None, None => []
  end.

(** Where control goes from [pc] in state [s], and in what state. *)
Definition flows (pc : Z) (s : AbsState) : list flow :=
  match decode_at opts cfi pc with
  | None => []
  | Some insn =>
      let '(out, s') := Transfer insn s in
      pad_flows pc out s' ++ next_flows pc insn (gpr s) out s' ++ taken_flows insn out s'
        ++ table_flows pc out s'
  end.

Lemma propagate_targets_flows targets s w :
  propagate_targets cfi targets s w = propagate_all (target_flows targets s) w.
Proof.
  unfold propagate_targets, propagate_all, target_flows. revert w.
  induction targets as [|t l IH]; intros w; [done|]. cbn [foldl]. rewrite filter_cons.
  destruct (in_fde cfi t) eqn:E; [rewrite decide_True by done|rewrite decide_False by done]; apply IH.
Qed.

Definition record_size (pc : Z) (w : Walk) : Walk :=
  match decode_at opts cfi pc with Some insn => with_insn_size pc (in_size insn) w | None => w end.

(** One turn of the loop is the recording of the instruction and the
    propagation of its flows. *)
Lemma drain_step_flows pc w :
  drain_step opts cfi guessing sites pc w =
  propagate_all (flows pc (default blank (in_states w !! pc))) (record_size pc w).
Proof.
  unfold drain_step, flows, record_size. destruct (decode_at opts cfi pc) as [insn|]; [|done].
  destruct (Transfer insn _) as [out s']. rewrite !propagate_all_app.
  unfold propagate_table, table_flows, propagate_taken, taken_flows, propagate_next, next_flows,
    propagate_to_pad, pad_flows.
  destruct (is_call out); [destruct (LandingPadForCall sites pc)|];
    destruct (falls_through out && _ && _); destruct (direct_target out) as [t|];
    try destruct (in_fde cfi t); destruct (jump_table out) as [[a n]|];
    rewrite ?propagate_targets_flows; try done;
    destruct (unbounded_jump_target out); try done; destruct guessing;
    by rewrite ?propagate_targets_flows.
Qed.
End flows.

(** ** The worklist invariant *)

Record walk_ok (w : Walk) : Prop := {
  wo_states : map_Forall (fun _ s => state_ok s) (in_states w);
  wo_pending : ∀ pc, pc ∈ worklist w ↔ pending_pushes w !! pc = Some true;
  wo_nodup : NoDup (worklist w);
  wo_dom : ∀ pc, pc ∈ worklist w → is_Some (in_states w !! pc)
}.

(** What a propagation may do to the states of a walk: lower them, and put
    every address whose state it changed on the worklist. *)
Definition lowered (w w' : Walk) : Prop :=
  (∀ pc, pc ∈ worklist w → pc ∈ worklist w') ∧
  (∀ pc s, in_states w !! pc = Some s → ∃ s', in_states w' !! pc = Some s' ∧ state_below s' s) ∧
  (∀ pc s', in_states w' !! pc = Some s' → pc ∈ worklist w' ∨ in_states w !! pc = Some s').

(** The state at [pc] takes what was propagated there into account. *)
Definition covered (w : Walk) (f : flow) : Prop :=
  ∃ s, in_states w !! f.1 = Some s ∧ state_below s f.2.

Lemma state_below_refl s : wf_state s → state_below s s.
Proof. intros. by apply (below_refl wf_state meet). Qed.
Lemma state_below_trans s1 s2 s3 :
  wf_state s1 → wf_state s2 → wf_state s3 → state_below s1 s2 → state_below s2 s3 → state_below s1 s3.
Proof. intros H1 H2 H3. by apply (below_trans wf_state meet). Qed.

Lemma lowered_refl w : walk_ok w → lowered w w.
Proof.
  intros Hw. split; [done|]. split; [|by right]. intros pc s E. exists s. split; [done|].
  apply state_below_refl. by destruct (wo_states _ Hw pc s E).
Qed.

Lemma lowered_trans w1 w2 w3 :
  walk_ok w1 → walk_ok w2 → walk_ok w3 → lowered w1 w2 → lowered w2 w3 → lowered w1 w3.
Proof.
  intros O1 O2 O3 (H1 & H2 & H2') (H3 & H4 & H4'). split; [auto|]. split.
  - intros pc s E. destruct (H2 pc s E) as (s' & E' & Hb). destruct (H4 pc s' E') as (s'' & E'' & Hb').
    exists s''. split; [done|].
    destruct (wo_states _ O1 _ _ E), (wo_states _ O2 _ _ E'), (wo_states _ O3 _ _ E'').
    by apply (state_below_trans _ s').
  - intros pc s'' E''. destruct (H4' _ _ E'') as [|E']; [by left|].
    destruct (H2' _ _ E') as [|]; [left; auto|by right].
Qed.

Lemma covered_lowered w w' f :
  walk_ok w → walk_ok w' → wf_state f.2 → lowered w w' → covered w f → covered w' f.
Proof.
  intros O O' Hf (_ & H & _) (s & E & Hb). destruct (H _ _ E) as (s' & E' & Hb').
  exists s'. split; [done|]. destruct (wo_states _ O _ _ E), (wo_states _ O' _ _ E').
  by apply (state_below_trans _ s).
Qed.

Lemma insert_pending (m : gmap Z bool) (l : list Z) pc :
  (∀ q, q ∈ l ↔ m !! q = Some true) → ∀ q, q ∈ pc :: l ↔ <[pc := true]> m !! q = Some true.
Proof.
  intros H q. rewrite elem_of_cons, H. destruct (decide (q = pc)) as [->|Hne].
  - rewrite lookup_insert_eq. naive_solver.
  - rewrite lookup_insert_ne by done. naive_solver.
Qed.

Lemma walk_ok_push states jc pc s w :
  walk_ok w → state_ok s → states = <[pc := s]> (in_states w) → pc ∉ worklist w →
  walk_ok (with_flow states jc (pc :: worklist w) (<[pc := true]> (pending_pushes w)) w).
Proof.
  intros [Hs Hp Hn Hd] Hok -> Hni. split; cbn.
  - by apply map_Forall_insert_2.
  - by apply insert_pending.
  - by constructor.
  - intros q Hq. rewrite lookup_insert_is_Some. apply elem_of_cons in Hq as [->|Hq]; [by left|].
    destruct (decide (pc = q)); [by left|right; auto].
Qed.

Lemma walk_ok_update jc pc s w :
  walk_ok w → state_ok s →
  walk_ok (with_flow (<[pc := s]> (in_states w)) jc (worklist w) (pending_pushes w) w).
Proof.
  intros [Hs Hp Hn Hd] Hok. split; cbn; auto.
  - by apply map_Forall_insert_2.
  - intros q Hq. rewrite lookup_insert_is_Some. destruct (decide (pc = q)); [by left|right; auto].
Qed.

Lemma Propagate_spec pc s w :
  walk_ok w → state_ok s →
  walk_ok (Propagate pc s w) ∧ lowered w (Propagate pc s w) ∧ covered (Propagate pc s w) (pc, s).
Proof.
  intros Ow Hs. unfold Propagate. pose proof (lowered_refl w Ow) as (_ & Hrefl & _).
  destruct (in_states w !! pc) as [old|] eqn:E.
  - destruct (wo_states _ Ow _ _ E) as [Hold Hcmp]. pose proof Hs as [Hsw _].
    rewrite Join_unfold by done.
    assert (state_ok (meet old s)) as Hnew by by apply state_ok_meet.
    destruct (joined_below_incoming s old Hsw Hold) as (_ & Hbs & Hbo).
    unfold joined in Hbs, Hbo. rewrite Join_unfold in Hbs, Hbo by done. cbn [fst] in Hbs, Hbo.
    set (jc := if bool_decide _ then _ else _).
    assert (∀ l pend, walk_ok (with_flow (<[pc := meet old s]> (in_states w)) jc l pend w) →
      (∀ q, q ∈ worklist w → q ∈ l) → (meet old s = old ∨ pc ∈ l) →
      lowered w (with_flow (<[pc := meet old s]> (in_states w)) jc l pend w) ∧
      covered (with_flow (<[pc := meet old s]> (in_states w)) jc l pend w) (pc, s)) as Hfin.
    { intros l pend _ Hl Hc. split; [split; [done|split]|].
      - intros q sq Eq. cbn. destruct (decide (q = pc)) as [->|Hne].
        + exists (meet old s). rewrite lookup_insert_eq. assert (sq = old) as -> by congruence. done.
        + rewrite lookup_insert_ne by done. by apply Hrefl.
      - intros q sq. cbn. destruct (decide (q = pc)) as [->|Hne].
        + rewrite lookup_insert_eq. intros [= <-]. destruct Hc as [->|]; [by right|by left].
        + rewrite lookup_insert_ne by done. by right.
      - exists (meet old s). cbn. by rewrite lookup_insert_eq. }
    destruct (differs old s) eqn:Ed.
    + destruct (default false (pending_pushes w !! pc)) eqn:Ep.
      * assert (pc ∈ worklist w) as Hin.
        { apply (wo_pending _ Ow). destruct (pending_pushes w !! pc) as [[]|]; done. }
        split; [by apply walk_ok_update|]. apply Hfin; [by apply walk_ok_update|done|by right].
      * assert (pc ∉ worklist w) as Hni.
        { intros Hin%(wo_pending _ Ow). by rewrite Hin in Ep. }
        change (with_flow (in_states (with_flow _ _ _ _ _)) jc (pc :: worklist w) (<[pc := true]> (pending_pushes w)) _)
          with (with_flow (<[pc := meet old s]> (in_states w)) jc (pc :: worklist w) (<[pc := true]> (pending_pushes w)) w).
        split; [by apply (walk_ok_push _ jc pc (meet old s))|].
        apply Hfin; [by apply (walk_ok_push _ jc pc (meet old s))| |right; by left].
        intros q Hq. by right.
    + apply differs_false in Ed; [|done|done].
      split; [by apply walk_ok_update|]. apply Hfin; [by apply walk_ok_update|done|by left].
  - assert (pc ∉ worklist w) as Hni.
    { intros Hin%(wo_dom _ Ow). rewrite E in Hin. by destruct Hin. }
    split; [by apply (walk_ok_push _ _ pc s)|]. split.
    + split; [intros q Hq; by right|]. split.
      * intros q sq Eq. cbn. assert (q ≠ pc) by congruence. rewrite lookup_insert_ne by done. by apply Hrefl.
      * intros q sq. cbn. destruct (decide (q = pc)) as [->|Hne]; [left; by left|].
        rewrite lookup_insert_ne by done. by right.
    + exists s. cbn. rewrite lookup_insert_eq. split; [done|]. apply state_below_refl, Hs.
Qed.

Lemma propagate_all_spec fs w :
  walk_ok w → Forall (fun f => state_ok f.2) fs →
  walk_ok (propagate_all fs w) ∧ lowered w (propagate_all fs w) ∧
  Forall (covered (propagate_all fs w)) fs.
Proof.
  intros Ow Hf. revert w Ow. induction Hf as [|[pc s] fs Hs Hf IH]; intros w Ow.
  - split; [done|]. split; [by apply lowered_refl|constructor].
  - destruct (Propagate_spec pc s w Ow Hs) as (O1 & L1 & C1).
    change (propagate_all ((pc, s) :: fs) w) with (propagate_all fs (Propagate pc s w)).
    destruct (IH _ O1) as (O2 & L2 & C2). split; [done|]. split.
    + by apply (lowered_trans _ (Propagate pc s w)).
    + constructor; [|done]. apply (covered_lowered (Propagate pc s w)); auto. apply Hs.
Qed.

(** Propagation only touches the data flow. *)
Definition same_report (w w' : Walk) : Prop :=
  w_sink w' = w_sink w ∧ hit_cap w' = hit_cap w ∧ instructions_checked w' = instructions_checked w ∧
  unbounded_jump_count w' = unbounded_jump_count w ∧ guessed_jump_tables w' = guessed_jump_tables w.

Lemma same_report_refl w : same_report w w.
Proof. done. Qed.
Lemma same_report_trans w1 w2 w3 : same_report w1 w2 → same_report w2 w3 → same_report w1 w3.
Proof. unfold same_report. intuition congruence. Qed.

Lemma Propagate_report pc s w : same_report w (Propagate pc s w).
Proof.
  unfold Propagate. destruct (in_states w !! pc) as [old|]; [|done]. destruct (Join s old) as [[new changed] c].
  destruct changed; [|done]. by destruct (default false _).
Qed.

Lemma propagate_all_report fs w : same_report w (propagate_all fs w).
Proof.
  revert w. induction fs as [|f fs IH]; intros w; [done|].
  eapply same_report_trans; [apply (Propagate_report f.1 f.2)|apply IH].
Qed.

(** ** Drain *)

Section drain.
Context `{ZydisLaws} (opts : FDECheckerOptions) (cfi : CFI) (guessing : bool) (sites : list LSDACallSite).

Notation flows := (flows opts cfi guessing sites).
Notation drain_step := (drain_step opts cfi guessing sites).
Notation drain_loop := (drain_loop opts cfi guessing sites).

Lemma flows_ok pc s : state_ok s → Forall (fun f => state_ok f.2) (flows pc s).
Proof.
  intros Hs. unfold WalkFacts.flows. destruct (decode_at opts cfi pc) as [insn|] eqn:E; [|constructor].
  pose proof (ok_Transfer insn s Hs (Decode_wf _ _ _ E)) as Hok.
  destruct (Transfer insn s) as [out s']. cbn [snd] in Hok.
  assert (∀ l, Forall (fun f => state_ok f.2) (target_flows cfi l s')) as Ht.
  { intros l. unfold target_flows. apply Forall_fmap, Forall_forall. intros x _. exact Hok. }
  repeat apply Forall_app_2.
  - unfold pad_flows. repeat case_match; rewrite ?Forall_singleton; cbn [snd]; auto using Forall_nil_2.
  - unfold next_flows. case_match; rewrite ?Forall_singleton; cbn [snd]; auto using Forall_nil_2, ok_TransferEdge.
  - unfold taken_flows. repeat case_match; rewrite ?Forall_singleton; cbn [snd]; auto using Forall_nil_2, ok_TransferEdge.
  - unfold table_flows. repeat case_match; auto.
Qed.

(** Everywhere but on the worklist, what an instruction propagates has been
    taken into account. *)
Record walk_closed (w : Walk) : Prop := {
  wc_ok : walk_ok w;
  wc_closed : ∀ pc s, in_states w !! pc = Some s → pc ∉ worklist w → Forall (covered w) (flows pc s)
}.

Lemma walk_ok_pop pc rest n cap w :
  walk_ok w → worklist w = pc :: rest → walk_ok (pop rest pc (with_iterations n cap w)).
Proof.
  intros [Hs Hp Hn Hd] Ew. rewrite Ew in *. apply NoDup_cons in Hn as [Hni Hn]. split; cbn; auto.
  - intros q. destruct (decide (q = pc)) as [->|Hne].
    + rewrite lookup_insert_eq. split; done.
    + rewrite lookup_insert_ne by done. rewrite <-Hp, elem_of_cons. naive_solver.
  - intros q Hq. apply Hd. by right.
Qed.

Lemma record_size_states pc w : in_states (record_size opts cfi pc w) = in_states w.
Proof. unfold record_size. by case_match. Qed.
Lemma record_size_work pc w : worklist (record_size opts cfi pc w) = worklist w.
Proof. unfold record_size. by case_match. Qed.
Lemma walk_ok_record pc w : walk_ok w → walk_ok (record_size opts cfi pc w).
Proof. unfold record_size. case_match; [|done]. by intros []. Qed.

Lemma drain_step_closed pc rest n cap w :
  walk_closed w → worklist w = pc :: rest →
  walk_closed (drain_step pc (pop rest pc (with_iterations n cap w))).
Proof.
  intros [Ow Hc] Ew. set (w0 := pop rest pc (with_iterations n cap w)).
  pose proof (walk_ok_pop pc rest n cap w Ow Ew) as O0. fold w0 in O0.
  destruct (wo_dom _ Ow pc) as [s0 E0]; [rewrite Ew; by left|].
  rewrite drain_step_flows. change (in_states w0) with (in_states w). rewrite E0. change (default blank (Some s0)) with s0.
  pose proof (wo_states _ Ow _ _ E0) as Hs0.
  pose proof (walk_ok_record pc w0 O0) as O1. set (w1 := record_size opts cfi pc w0) in *.
  destruct (propagate_all_spec _ w1 O1 (flows_ok pc s0 Hs0)) as (O2 & L2 & C2).
  assert (in_states w1 = in_states w) as Est by exact (record_size_states pc w0).
  assert (worklist w1 = rest) as Ework by exact (record_size_work pc w0).
  generalize dependent (propagate_all (flows pc s0) w1). intros w2 O2 L2 C2. clearbody w1.
  split; [exact O2|]. intros q s Eq Hq. pose proof L2 as (Hin & Hlow & Hnew).
  destruct (Hnew q s Eq) as [|E1]; [contradiction|]. rewrite Est in E1.
  destruct (decide (q = pc)) as [->|Hne]; [by assert (s = s0) as -> by congruence|].
  assert (q ∉ worklist w) as Hqw.
  { rewrite Ew, elem_of_cons. intros [|Hr]; [done|]. apply Hq, Hin.
    by rewrite Ework. }
  specialize (Hc q s E1 Hqw). pose proof (flows_ok q s (wo_states _ Ow _ _ E1)) as Hfo.
  rewrite Forall_forall in Hc, Hfo |- *. intros f Hf.
  apply (covered_lowered w1); auto; [by apply Hfo|].
  destruct (Hc f Hf) as (sf & Ef & Hb). exists sf. split; [|exact Hb].
  by rewrite Est.
Qed.

Lemma drain_step_report pc w : same_report w (drain_step pc w).
Proof.
  rewrite drain_step_flows. eapply same_report_trans; [|apply propagate_all_report].
  unfold record_size. by case_match.
Qed.

Lemma drain_loop_closed budget w :
  walk_closed w → hit_cap w = false → hit_cap (drain_loop budget w) = false →
  walk_closed (drain_loop budget w) ∧ worklist (drain_loop budget w) = [].
Proof.
  revert w. induction budget as [|budget IH]; intros w Hc Hcap; cbn [FdeChecker.drain_loop].
  - destruct (worklist w) eqn:E; done.
  - destruct (worklist w) as [|pc rest] eqn:E; [done|]. apply IH.
    + by apply drain_step_closed.
    + destruct (drain_step_report pc (pop rest pc (with_iterations (S (iterations w)) (hit_cap w) w)))
        as (_ & -> & _). done.
Qed.

Lemma drain_loop_lowered budget w :
  walk_ok w → walk_ok (drain_loop budget w) ∧
  (∀ pc s, in_states w !! pc = Some s →
     ∃ s', in_states (drain_loop budget w) !! pc = Some s' ∧ state_below s' s).
Proof.
  revert w. induction budget as [|budget IH]; intros w Ow; cbn [FdeChecker.drain_loop].
  - destruct (worklist w) eqn:E.
    + split; [done|]. intros pc s Es. exists s. split; [done|]. apply state_below_refl, (wo_states _ Ow _ _ Es).
    + split; [by destruct Ow|]. intros pc s Es. exists s. split; [done|].
      apply state_below_refl, (wo_states _ Ow _ _ Es).
  - destruct (worklist w) as [|pc rest] eqn:E.
    + split; [done|]. intros pc s Es. exists s. split; [done|]. apply state_below_refl, (wo_states _ Ow _ _ Es).
    + set (w0 := pop rest pc _). assert (walk_ok w0) as O0 by by apply walk_ok_pop.
      rewrite drain_step_flows. set (w1 := record_size opts cfi pc w0).
      assert (walk_ok w1) as O1 by by apply walk_ok_record.
      destruct (wo_dom _ Ow pc) as [s0 E0]; [rewrite E; by left|].
      change (in_states w0) with (in_states w). rewrite E0. change (default blank (Some s0)) with s0.
      destruct (propagate_all_spec _ w1 O1 (flows_ok pc s0 (wo_states _ Ow _ _ E0))) as (O2 & (_ & L2 & _) & _).
      destruct (IH _ O2) as [O3 L3]. split; [done|]. intros q s Eq.
      destruct (L2 q s) as (s1 & E1 & B1); [unfold w1; by rewrite record_size_states|].
      destruct (L3 q s1 E1) as (s2 & E2 & B2). exists s2. split; [done|].
      apply (state_below_trans _ s1); auto;
        [apply (wo_states _ O3 _ _ E2)|apply (wo_states _ O2 _ _ E1)|apply (wo_states _ Ow _ _ Eq)].
Qed.

Lemma drain_loop_sink budget w : w_sink (drain_loop budget w) = w_sink w.
Proof.
  revert w. induction budget as [|budget IH]; intros w; cbn [FdeChecker.drain_loop]; destruct (worklist w); try done.
  rewrite IH. by destruct (drain_step_report z (pop l z (with_iterations (S (iterations w)) (hit_cap w) w))) as (-> & _).
Qed.
(** A walk nothing was propagated in yet. *)
Definition fresh (w : Walk) : Prop :=
  in_states w = ∅ ∧ worklist w = [] ∧ pending_pushes w = ∅ ∧ hit_cap w = false.

Lemma start_closed w0 start s :
  fresh w0 → state_ok s →
  walk_closed (Propagate start s w0) ∧ covered (Propagate start s w0) (start, s) ∧
  hit_cap (Propagate start s w0) = false.
Proof.
  intros (Es & Ew & Ep & Eh) Hs. assert (walk_ok w0) as O0.
  { split; rewrite ?Es, ?Ew, ?Ep; [apply map_Forall_empty| |constructor|by intros ? ?%elem_of_nil].
    intros pc. rewrite lookup_empty, elem_of_nil. done. }
  destruct (Propagate_spec start s w0 O0 Hs) as (O1 & (_ & _ & L1) & C1).
  split; [|split; [done|]].
  - split; [done|]. intros pc st E Hn. destruct (L1 _ _ E) as [|Hl]; [contradiction|].
    by rewrite Es, lookup_empty in Hl.
  - by destruct (Propagate_report start s w0) as (_ & -> & _).
Qed.

Lemma drain_fixpoint w0 start s :
  fresh w0 → state_ok s →
  let w := Drain opts cfi guessing sites (Propagate start s w0) in
  hit_cap w = false →
  worklist w = [] ∧ covered w (start, s) ∧
  ∀ pc st, in_states w !! pc = Some st → state_ok st ∧ Forall (covered w) (flows pc st).
Proof.
  intros Hf Hs w Hcap. destruct (start_closed w0 start s Hf Hs) as (Hc & Hstart & Hcap0).
  destruct (drain_loop_closed _ _ Hc Hcap0 Hcap) as [[Ow Hcl] Hw].
  split; [exact Hw|]. split.
  - destruct Hstart as (s1 & E1 & B1).
    destruct (proj2 (drain_loop_lowered
      (o_max_iterations opts - iterations (Propagate start s w0)) _ (wc_ok _ Hc)) _ _ E1)
      as (s2 & E2 & B2).
    exists s2. split; [exact E2|]. apply (state_below_trans _ s1); auto.
    + apply (wo_states _ Ow _ _ E2).
    + apply (wo_states _ (wc_ok _ Hc) _ _ E1).
    + apply Hs.
  - intros pc st E. split; [apply (wo_states _ Ow _ _ E)|]. apply Hcl; [exact E|].
    rewrite Hw. apply not_elem_of_nil.
Qed.

(** *** Every address taken off the worklist leaves its mark *)

Definition recorded (w : Walk) (pc : Z) : Prop :=
  ∀ insn, decode_at opts cfi pc = Some insn → insn_sizes w !! pc = Some (in_size insn).
Definition all_recorded (w : Walk) : Prop :=
  ∀ pc, is_Some (in_states w !! pc) → pc ∈ worklist w ∨ recorded w pc.

Lemma Propagate_sizes pc s w :
  insn_sizes (Propagate pc s w) = insn_sizes w ∧ iterations (Propagate pc s w) = iterations w.
Proof.
  unfold Propagate. destruct (in_states w !! pc) as [old|]; [|done]. destruct (Join s old) as [[new changed] c].
  destruct changed; [|done]. by destruct (default false _).
Qed.

Lemma propagate_all_sizes fs w :
  insn_sizes (propagate_all fs w) = insn_sizes w ∧ iterations (propagate_all fs w) = iterations w.
Proof.
  revert w. induction fs as [|f fs IH]; intros w; [done|]. cbn [propagate_all foldl].
  destruct (IH (Propagate f.1 f.2 w)) as [H1 H2]. destruct (Propagate_sizes f.1 f.2 w) as [H3 H4].
  unfold propagate_all in *. split; congruence.
Qed.

(** What propagation adds to the states, it adds to the worklist. *)
Lemma all_recorded_lowered w w' :
  all_recorded w → lowered w w' → insn_sizes w' = insn_sizes w → all_recorded w'.
Proof.
  intros Hr (Hin & _ & Hnew) Es pc [s E]. destruct (Hnew _ _ E) as [|E0]; [by left|].
  destruct (Hr pc (mk_is_Some _ _ E0)) as [Hw|Hrec]; [left; auto|right]. unfold recorded. by rewrite Es.
Qed.

Lemma all_recorded_pop pc rest n cap w :
  all_recorded w → worklist w = pc :: rest →
  all_recorded (record_size opts cfi pc (pop rest pc (with_iterations n cap w))).
Proof.
  intros Hr Ew q Hq. rewrite record_size_states in Hq. rewrite record_size_work.
  change (is_Some (in_states w !! q)) in Hq. change (q ∈ rest ∨ recorded (record_size opts cfi pc
    (pop rest pc (with_iterations n cap w))) q). unfold recorded, record_size.
  destruct (decide (q = pc)) as [->|Hne].
  - right. intros insn E. rewrite E. cbn. apply lookup_insert_eq.
  - destruct (Hr q Hq) as [Hin|Hrec]; [left; rewrite Ew in Hin; set_solver|right]. intros insn E.
    rewrite <-(Hrec _ E). destruct (decode_at opts cfi pc); cbn; [by rewrite lookup_insert_ne|done].
Qed.

Lemma drain_step_recorded pc rest n cap w :
  walk_ok w → all_recorded w → worklist w = pc :: rest →
  let w' := drain_step pc (pop rest pc (with_iterations n cap w)) in all_recorded w' ∧ iterations w' = n.
Proof.
  intros Ow Hr Ew. cbv zeta. rewrite drain_step_flows. set (w0 := pop rest pc (with_iterations n cap w)).
  destruct (wo_dom _ Ow pc) as [s0 E0]; [rewrite Ew; by left|].
  change (in_states w0) with (in_states w). rewrite E0. change (default blank (Some s0)) with s0.
  pose proof (all_recorded_pop pc rest n cap w Hr Ew) as Hr0. fold w0 in Hr0.
  pose proof (walk_ok_record pc w0 (walk_ok_pop pc rest n cap w Ow Ew)) as O1.
  assert (iterations (record_size opts cfi pc w0) = n) as Hn by (unfold record_size; by case_match).
  destruct (propagate_all_spec _ _ O1 (flows_ok pc s0 (wo_states _ Ow _ _ E0))) as (_ & L2 & _).
  destruct (propagate_all_sizes (flows pc s0) (record_size opts cfi pc w0)) as [E1 E2].
  split; [by eapply all_recorded_lowered|by rewrite E2].
Qed.

Lemma drain_loop_progress budget w :
  walk_closed w → all_recorded w → hit_cap w = false →
  let w' := drain_loop budget w in
  (hit_cap w' = false ∧ worklist w' = [] ∧ (iterations w' ≤ iterations w + budget)%nat ∧
    ∀ pc, is_Some (in_states w' !! pc) → recorded w' pc) ∨
  (hit_cap w' = true ∧ worklist w' ≠ [] ∧ iterations w' = S (iterations w + budget)).
Proof.
  revert w. induction budget as [|budget IH]; intros w Hc Hr Hcap; cbn [FdeChecker.drain_loop]; cbv zeta.
  all: destruct (worklist w) as [|pc rest] eqn:E.
  1, 3: left; split_and!; [done|done|lia|]; intros pc Hpc; destruct (Hr pc Hpc) as [Hin|]; [|done];
    rewrite E in Hin; by apply elem_of_nil in Hin.
  - right. cbn. rewrite E. split_and!; [done|done|lia].
  - set (w1 := drain_step pc _). pose proof (drain_step_recorded pc rest (S (iterations w)) (hit_cap w) w (wc_ok _ Hc) Hr E) as [Hr1 Hn1].
    pose proof (drain_step_closed pc rest (S (iterations w)) (hit_cap w) w Hc E) as Hc1.
    destruct (drain_step_report pc (pop rest pc (with_iterations (S (iterations w)) (hit_cap w) w))) as (_ & Hcap1 & _).
    change (hit_cap w1 = hit_cap w) in Hcap1. fold w1 in Hr1, Hn1, Hc1. rewrite Hcap in Hcap1.
    destruct (IH w1 Hc1 Hr1 Hcap1) as [(? & ? & ? & ?)|(? & ? & ?)]; [left|right]; split_and!; auto; lia.
Qed.
End drain.

(** C9: a drained worklist is a post-fixpoint: if the walk of an FDE ends
    without hitting its iteration cap, the worklist is empty, the state at
    the start is below what it was seeded with, every state is well formed,
    and at every reached address the states cover everything the instruction
    there propagates: its fall-through, its branch targets, its landing pad
    and its jump-table entries. *)
Theorem Drain_post_fixpoint `{ZydisLaws} opts cfi guessing sites cap start s :
  state_ok s →
  let w := Drain opts cfi guessing sites (Propagate start s (new_walk cap)) in
  hit_cap w = false →
  worklist w = [] ∧ covered w (start, s) ∧
  ∀ pc st, in_states w !! pc = Some st →
    state_ok st ∧ Forall (covered w) (flows opts cfi guessing sites pc st).
Proof. intros Hs. by apply drain_fixpoint. Qed.

(** C16: the walk makes progress and finishes its work: it always ends, either
    with an empty worklist within [max_iterations] turns, and then every
    address it ever reached has been taken off the worklist and, where an
    instruction decodes, its size is recorded; or, having flagged that it
    gave up, after exactly one turn more than [max_iterations] with work
    left. *)
Theorem Drain_progress `{ZydisLaws} opts cfi guessing sites cap start s :
  state_ok s →
  let w := Drain opts cfi guessing sites (Propagate start s (new_walk cap)) in
  (hit_cap w = false ∧ worklist w = [] ∧ (iterations w ≤ o_max_iterations opts)%nat ∧
    ∀ pc, is_Some (in_states w !! pc) → recorded opts cfi w pc) ∨
  (hit_cap w = true ∧ worklist w ≠ [] ∧ iterations w = S (o_max_iterations opts)).
Proof.
  intros Hs. set (w0 := new_walk cap). assert (fresh w0) as Hf by done.
  destruct (start_closed opts cfi guessing sites w0 start s Hf Hs) as (Hc & _ & Hcap).
  assert (all_recorded opts cfi (Propagate start s w0)) as Hr.
  { assert (Propagate start s w0 = with_flow {[start := s]} ∅ [start] {[start := true]} w0) as -> by reflexivity.
    intros pc [st E]. cbn [in_states with_flow] in E. apply lookup_singleton_Some in E as [<- _]. left. by left. }
  pose proof (drain_loop_progress opts cfi guessing sites (o_max_iterations opts) _ Hc Hr Hcap) as Hp.
  destruct (Propagate_sizes start s w0) as [_ Ei]. cbv zeta in Hp. rewrite Ei in Hp. cbn [iterations w0 new_walk Nat.add] in Hp.
  unfold Drain. rewrite Ei. cbn [iterations w0 new_walk]. rewrite Nat.sub_0_r. exact Hp.
Qed.

From S2P Require Import ZydisSample Sample.

Lemma Drain_post_fixpoint_witness :
  let w := Drain sample_opts sample_fde false [] (Propagate 0x1000 Entry (new_walk 20)) in
  worklist w = [] ∧ covered w (0x1000, Entry) ∧
  ∀ pc st, in_states w !! pc = Some st →
    state_ok st ∧ Forall (covered w) (flows sample_opts sample_fde false [] pc st).
Proof.
  apply (Drain_post_fixpoint sample_opts sample_fde false [] 20 0x1000 Entry).
  - split; [apply wf_Entry|exact I].
  - vm_compute. reflexivity.
Defined.

Lemma Drain_progress_witness :
  let w := Drain sample_opts sample_fde false [] (Propagate 0x1000 Entry (new_walk 20)) in
  (hit_cap w = false ∧ worklist w = [] ∧ (iterations w ≤ o_max_iterations sample_opts)%nat ∧
    ∀ pc, is_Some (in_states w !! pc) → recorded sample_opts sample_fde w pc) ∨
  (hit_cap w = true ∧ worklist w ≠ [] ∧ iterations w = S (o_max_iterations sample_opts)).
Proof.
  apply (Drain_progress sample_opts sample_fde false [] 20 0x1000 Entry). split; [apply wf_Entry|exact I].
Defined.
