(* ===== verification/VerdictFacts.v ===== *)
(** * What a verdict means

    The verification pass only adds to the sink, so a BLESSED FDE is one
    where every check it made passed; together with the post-fixpoint of
    the walk this gives a certificate. *)

From stdpp Require Import gmap strings sorting.
From S2P Require Import Prelude CfiTable AbsState AbsStateFacts JoinFacts StateFacts Zydis InsnSemantics.
From S2P Require Import InsnFacts ElfImage Lsda RowCheck FdeChecker SinkFacts RowFacts WalkFacts.

(** ** Steps that only report *)

(** [w'] has the data flow of [w], and a clean sink only if [w] had one. *)
Record reports (w w' : Walk) : Prop := {
  rp_states : in_states w' = in_states w;
  rp_conflicts : join_conflicts w' = join_conflicts w;
  rp_sizes : insn_sizes w' = insn_sizes w;
  rp_wf : sink_wf (w_sink w) → sink_wf (w_sink w');
  rp_clean : sink_wf (w_sink w) → Take (w_sink w') = [] → Take (w_sink w) = []
}.

Definition clean (w : Walk) : Prop := Take (w_sink w) = [].

Lemma reports_refl w : reports w w.
Proof. by split. Qed.
Lemma reports_trans w1 w2 w3 : reports w1 w2 → reports w2 w3 → reports w1 w3.
Proof. intros [] []. split; intros; try congruence; auto. Qed.

Lemma sink_review_reports pc msg w : reports w (sink_review pc msg w).
Proof.
  split; cbn; auto; [apply Add_wf|]. intros Hs H. exfalso. revert H. by apply Add_dirty.
Qed.
Lemma sink_review_dirty pc msg w : sink_wf (w_sink w) → ¬ clean (sink_review pc msg w).
Proof. intros Hs. by apply Add_dirty. Qed.

Lemma issues_reports pc l w : reports w (with_sink (add_issues pc l) w).
Proof.
  split; cbn; auto; [apply add_issues_wf|]. intros Hs H. by apply add_issues_clean in H as [_ ?].
Qed.
#[export] Hint Resolve reports_refl sink_review_reports issues_reports : uw.

Lemma foldl_reports {A} (f : Walk → A → Walk) l w :
  (∀ w x, reports w (f w x)) → reports w (foldl f w l).
Proof.
  intros Hf. revert w. induction l as [|x l IH]; intros w; [apply reports_refl|].
  eapply reports_trans; [apply Hf|apply IH].
Qed.

(** In a fold of reporting steps that ends clean, every step was clean. *)
Lemma foldl_clean {A} (f : Walk → A → Walk) (P : A → Prop) l w :
  (∀ w x, reports w (f w x)) →
  (∀ w' x, reports w w' → sink_wf (w_sink w') → clean (f w' x) → P x) →
  sink_wf (w_sink w) → clean (foldl f w l) → clean w ∧ ∀ x, x ∈ l → P x.
Proof.
  intros Hf HP. 
  assert (∀ w', reports w w' → sink_wf (w_sink w') → clean (foldl f w' l) → clean w' ∧ ∀ x, x ∈ l → P x) as H.
  { induction l as [|x l IH]; intros w' Hr Hw Hc; [split; [done|by intros x ?%elem_of_nil]|].
    cbn in Hc. pose proof (Hf w' x) as Hx.
    destruct (IH (f w' x)) as [Hc' Hall]; [by eapply reports_trans|by apply Hx|done|].
    split; [by eapply rp_clean|]. intros y [->|Hy]%elem_of_cons; [|by apply Hall].
    by eapply HP. }
  intros Hw Hc. by apply H.
Qed.

(** ** The pieces of the verification pass *)

Section pass.
Context `{ZydisApi} (opts : FDECheckerOptions) (cfi : CFI) (guessing canonical : bool).

(** A jump to [t] in state [s] satisfies the row declared there. *)
Definition edge_ok (t : Z) (s : AbsState) : Prop :=
  ∃ tc row, CFIContaining (o_all_cfis opts) t = Some tc ∧ row_at tc t = Some row ∧
    row_holds (o_check_unmentioned_callee_saved opts || ((t =? pc_begin tc) && IsCanonicalEntry row)) row s.

Lemma CheckCrossFDEEdge_reports pc t s w w' :
  CheckCrossFDEEdge opts pc t s w = Some w' → reports w w'.
Proof.
  unfold CheckCrossFDEEdge. destruct (CFIContaining _ t) as [tc|]; cbn; [|done].
  destruct (row_at tc t) as [row|]; cbn; [|done]. intros [= <-]. apply issues_reports.
Qed.

Lemma CheckCrossFDEEdge_clean pc t s w w' :
  CheckCrossFDEEdge opts pc t s w = Some w' → sink_wf (w_sink w) → clean w' → edge_ok t s.
Proof.
  unfold CheckCrossFDEEdge, edge_ok. destruct (CFIContaining _ t) as [tc|]; cbn; [|done].
  destruct (row_at tc t) as [row|] eqn:E; cbn; [|done]. intros [= <-] Hs Hc.
  exists tc, row. split; [done|]. split; [done|].
  unfold clean in Hc. cbn in Hc. by apply CheckRow_clean in Hc as [? _].
Qed.

Lemma CheckCrossFDEEdge_none pc t s w :
  CheckCrossFDEEdge opts pc t s w = None →
  ∀ tc row, CFIContaining (o_all_cfis opts) t = Some tc → row_at tc t = Some row → False.
Proof. unfold CheckCrossFDEEdge. intros E tc row Ec Er. rewrite Ec in E. cbn in E. by rewrite Er in E. Qed.

Lemma check_table_targets_reports what pc ts s w : reports w (check_table_targets opts cfi what pc ts s w).
Proof.
  apply foldl_reports. intros w' t. destruct (in_fde cfi t); [apply reports_refl|].
  destruct (CheckCrossFDEEdge _ _ _ _ _) eqn:E; [by eapply CheckCrossFDEEdge_reports|auto with uw].
Qed.

Lemma check_table_targets_clean what pc ts s w :
  sink_wf (w_sink w) → clean (check_table_targets opts cfi what pc ts s w) →
  ∀ t, t ∈ ts → in_fde cfi t = true ∨ edge_ok t s.
Proof.
  intros Hs Hc. eapply (foldl_clean _ (fun t => in_fde cfi t = true ∨ edge_ok t s)); [| |exact Hs|exact Hc].
  - intros w' t. cbn beta. destruct (in_fde cfi t); [apply reports_refl|].
    destruct (CheckCrossFDEEdge _ _ _ _ _) eqn:E; [by eapply CheckCrossFDEEdge_reports|auto with uw].
  - intros w' t _ Hw'. cbn beta. destruct (in_fde cfi t); [by left|]. right.
    destruct (CheckCrossFDEEdge _ _ _ _ _) eqn:E; [by eapply CheckCrossFDEEdge_clean|].
    exfalso. by eapply sink_review_dirty.
Qed.

Lemma report_conflicts_reports pc row w : reports w (report_conflicts pc row w).
Proof.
  apply foldl_reports. intros w' c. destruct row; [|auto with uw]. case_match; auto with uw.
Qed.

Lemma report_conflicts_clean pc row w :
  sink_wf (w_sink w) → clean (report_conflicts pc (Some row) w) →
  ∀ c, c ∈ default [] (join_conflicts w !! pc) → RowDependsOn row c = false.
Proof.
  intros Hs Hc. eapply (foldl_clean _ (fun c => RowDependsOn row c = false)); [| |exact Hs|exact Hc].
  - intros w' c. cbn. destruct (RowDependsOn row c); [apply sink_review_reports|apply reports_refl].
  - intros w' c _ Hw'. cbn. destruct (RowDependsOn row c); [|done].
    intros Hd. exfalso. revert Hd. by apply sink_review_dirty.
Qed.

(** *** Outcomes *)

(** A table's targets are known, and those outside the FDE are compatible. *)
Definition targets_ok (targets : list Z) (s : AbsState) : Prop :=
  targets ≠ [] ∧ ∀ t, t ∈ targets → in_fde cfi t = true ∨ edge_ok t s.

(** What pass 2 demands of where an instruction sends control. *)
Definition outcome_ok (pc : Z) (out : TransferOutcome) (s : AbsState) : Prop :=
  match jump_table out with
  | Some (addr, entries) => targets_ok (ResolveJumpTable opts addr entries) s
  | None =>
      match unbounded_jump_target out with
      | Some addr => guessing = true ∧ targets_ok (ProbeJumpTable opts cfi addr pc s) s
      | None =>
          if is_return out then canonical = true ∧ exit_holds s
          else
            let indirect_ok := indirect_branch out = true → canonical = true ∧ IsExitState s = true in
            match direct_target out with
            | Some t => if in_fde cfi t then indirect_ok
                        else edge_ok t s ∨ (canonical = true ∧ exit_holds s)
            | None => indirect_ok
            end
      end
  end.

Lemma exit_clean pc s tail w :
  sink_wf (w_sink w) → clean (CheckExitState canonical pc s tail w) → canonical = true ∧ exit_holds s.
Proof. intros Hs Hc. apply add_issues_clean in Hc as [Hc _]; [|done]. by apply exit_issues_nil in Hc. Qed.

Lemma verify_unbounded_reports pc addr s w : reports w (verify_unbounded opts cfi guessing pc addr s w).
Proof.
  unfold verify_unbounded. eapply reports_trans with (count_unbounded pc w); [by split|].
  case_bool_decide; [apply sink_review_reports|].
  eapply reports_trans; [|apply check_table_targets_reports]. by split.
Qed.

Lemma verify_outcome_reports pc out s w : reports w (verify_outcome opts cfi guessing canonical pc out s w).
Proof.
  unfold verify_outcome. destruct (jump_table out) as [[addr n]|].
  { case_bool_decide; [apply sink_review_reports|apply check_table_targets_reports]. }
  destruct (unbounded_jump_target out); [apply verify_unbounded_reports|].
  destruct (is_return out); [apply issues_reports|].
  assert (∀ w', reports w' (if indirect_branch out then
    if canonical && IsExitState s then w' else sink_review pc kUnresolvedIndirectJumpMsg w' else w')) as Hi.
  { intros w'. repeat case_match; auto with uw. }
  destruct (direct_target out) as [t|]; [|apply Hi]. destruct (in_fde cfi t); [apply Hi|].
  destruct (CheckCrossFDEEdge _ _ _ _ _) eqn:E; [by eapply CheckCrossFDEEdge_reports|apply issues_reports].
Qed.

Lemma table_clean what pc ts s w1 w2 :
  sink_wf (w_sink w1) → sink_wf (w_sink w2) →
  clean (if bool_decide (ts = []) then sink_review pc kUnresolvedIndirectJumpMsg w1
         else check_table_targets opts cfi what pc ts s w2) → targets_ok ts s.
Proof.
  intros H1 H2. case_bool_decide; [by intros ?%sink_review_dirty|]. intros Hc. split; [done|].
  by eapply check_table_targets_clean.
Qed.

Lemma indirect_clean pc out s w :
  sink_wf (w_sink w) →
  clean (if indirect_branch out then
    if canonical && IsExitState s then w else sink_review pc kUnresolvedIndirectJumpMsg w else w) →
  indirect_branch out = true → canonical = true ∧ IsExitState s = true.
Proof.
  intros Hs Hc E. rewrite E in Hc. destruct (canonical && IsExitState s) eqn:Ec; [by apply andb_true_iff|].
  by apply sink_review_dirty in Hc.
Qed.

Lemma verify_outcome_clean pc out s w :
  sink_wf (w_sink w) → clean (verify_outcome opts cfi guessing canonical pc out s w) → outcome_ok pc out s.
Proof.
  intros Hs. unfold verify_outcome, outcome_ok. destruct (jump_table out) as [[addr n]|].
  { by apply table_clean. }
  destruct (unbounded_jump_target out) as [addr|].
  { unfold verify_unbounded. intros Hc. apply table_clean in Hc; [|done|done].
    destruct guessing; [done|]. by destruct Hc. }
  destruct (is_return out); [by apply exit_clean|].
  destruct (direct_target out) as [t|]; [|by apply indirect_clean].
  destruct (in_fde cfi t); [by apply indirect_clean|].
  destruct (CheckCrossFDEEdge _ _ _ _ _) eqn:E; intros Hc;
    [left; by eapply CheckCrossFDEEdge_clean|right; by eapply exit_clean].
Qed.

(** *** One address *)

(** What pass 2 establishes of a reached address, its state and the
    conflicts of the joins there. *)
Record pc_verified (pc : Z) (s : AbsState) (conflicts : list JoinConflict) (insn : Instruction)
    (row : CFIRow) : Prop := {
  pv_decodes : decode_at opts cfi pc = Some insn;
  pv_inside : u64 (pc + in_size insn) <= pc_end cfi;
  pv_row : row_at cfi pc = Some row;
  pv_holds : row_holds (o_check_unmentioned_callee_saved opts) row s;
  pv_conflicts : ∀ c, c ∈ conflicts → RowDependsOn row c = false;
  pv_modelled : review_reason (Transfer insn s).1 = "";
  pv_outcome : outcome_ok pc (Transfer insn s).1 s
}.

Lemma check_row_reports pc row s w : reports w (check_row_at opts pc row s w).
Proof. apply issues_reports. Qed.

Lemma review_unless_reports pc reason w :
  reports w (if bool_decide (reason = "") then w else sink_review pc reason w).
Proof. case_bool_decide; auto with uw. Qed.

Lemma count_reports w : reports w (count_instruction w).
Proof. by split. Qed.
#[local] Hint Resolve check_row_reports review_unless_reports count_reports report_conflicts_reports
  verify_outcome_reports : uw.

(** The steps of [verify_at], once the instruction is known. *)
Definition verify_steps (pc : Z) (insn : Instruction) (s : AbsState) (row : CFIRow) (w : Walk) : Walk :=
  let w := check_row_at opts pc row s (count_instruction w) in
  let w := report_conflicts pc (Some row) w in
  let out := (Transfer insn s).1 in
  let w := if bool_decide (review_reason out = "") then w else sink_review pc (review_reason out) w in
  verify_outcome opts cfi guessing canonical pc out s w.

Lemma verify_at_reports w pc : reports w (verify_at opts cfi guessing canonical w pc).
Proof.
  unfold verify_at. destruct (decode_at opts cfi pc) as [insn|]; [|auto with uw].
  destruct (_ <? _); [auto with uw|]. cbv zeta.
  eapply reports_trans; [|apply verify_outcome_reports].
  eapply reports_trans; [|apply review_unless_reports].
  eapply reports_trans; [|apply report_conflicts_reports].
  eapply reports_trans; [apply count_reports|]. destruct (row_at cfi pc); auto with uw.
Qed.

Lemma verify_steps_clean pc insn s row w :
  sink_wf (w_sink w) → clean (verify_steps pc insn s row w) →
  row_holds (o_check_unmentioned_callee_saved opts) row s ∧
  (∀ c, c ∈ default [] (join_conflicts w !! pc) → RowDependsOn row c = false) ∧
  review_reason (Transfer insn s).1 = "" ∧ outcome_ok pc (Transfer insn s).1 s.
Proof.
  intros Hs. unfold verify_steps. cbv zeta. set (w1 := check_row_at opts pc row s (count_instruction w)).
  assert (reports w w1) as R1 by (eapply reports_trans; [apply count_reports|apply check_row_reports]).
  pose proof (rp_wf _ _ R1 Hs) as S1.
  pose proof (report_conflicts_reports pc (Some row) w1) as R2.
  set (w2 := report_conflicts pc (Some row) w1) in *. pose proof (rp_wf _ _ R2 S1) as S2.
  set (reason := review_reason (Transfer insn s).1).
  pose proof (review_unless_reports pc reason w2) as R3.
  set (w3 := if bool_decide (reason = "") then w2 else _) in *. pose proof (rp_wf _ _ R3 S2) as S3.
  intros Hc. pose proof (verify_outcome_clean _ _ _ _ S3 Hc) as Hout.
  pose proof (rp_clean _ _ (verify_outcome_reports _ _ _ _) S3 Hc) as C3.
  pose proof (rp_clean _ _ R3 S2 C3) as C2. pose proof (rp_clean _ _ R2 S1 C2) as C1.
  split_and!; [| | |done].
  - unfold w1, check_row_at in C1. cbn in C1. apply CheckRow_clean in C1 as [H1 _]; [|done].
    by rewrite orb_false_r in H1.
  - rewrite <-(rp_conflicts _ _ R1). by apply report_conflicts_clean.
  - unfold w3 in C3. case_bool_decide; [done|]. by apply sink_review_dirty in C3.
Qed.

Lemma verify_at_clean w pc s :
  sink_wf (w_sink w) → in_states w !! pc = Some s → clean (verify_at opts cfi guessing canonical w pc) →
  ∃ insn row, pc_verified pc s (default [] (join_conflicts w !! pc)) insn row.
Proof.
  intros Hs E Hc. unfold verify_at in Hc. rewrite E in Hc. cbn [default] in Hc.
  change (default blank (Some s)) with s in Hc. cbv zeta in Hc.
  destruct (decode_at opts cfi pc) as [insn|] eqn:Ed; [|by apply sink_review_dirty in Hc].
  destruct (_ <? _) eqn:El; [by apply sink_review_dirty in Hc|].
  destruct (row_at cfi pc) as [row|] eqn:Er.
  - apply (verify_steps_clean pc insn s row w) in Hc as (H1 & H2 & H3 & H4); [|done].
    exists insn, row. by split; auto; lia.
  - exfalso. set (w1 := sink_review pc "no CFI row covers this address" (count_instruction w)) in Hc.
    assert (¬ clean w1) as Hd by by apply sink_review_dirty. apply Hd.
    assert (sink_wf (w_sink w1)) as S1 by by apply Add_wf.
    pose proof (report_conflicts_reports pc None w1) as R2. pose proof (rp_wf _ _ R2 S1) as S2.
    pose proof (review_unless_reports pc (review_reason (Transfer insn s).1) (report_conflicts pc None w1)) as R3.
    pose proof (rp_wf _ _ R3 S2) as S3.
    apply (rp_clean _ _ R2 S1), (rp_clean _ _ R3 S2).
    by apply (rp_clean _ _ (verify_outcome_reports _ _ _ _) S3) in Hc.
Qed.
End pass.

(** ** The whole run *)

Section run.
Context `{ZydisLaws} (opts : FDECheckerOptions) (cfi : CFI) (at_function_entry guessing : bool).

Lemma VerifyPass_reports canonical w : reports w (VerifyPass opts cfi guessing canonical w).
Proof. apply foldl_reports. intros. apply verify_at_reports. Qed.

Lemma VerifyPass_clean canonical w :
  sink_wf (w_sink w) → clean (VerifyPass opts cfi guessing canonical w) →
  clean w ∧ ∀ pc s, in_states w !! pc = Some s →
    ∃ insn row, pc_verified opts cfi guessing canonical pc s (default [] (join_conflicts w !! pc)) insn row.
Proof.
  intros Hs Hc. unfold VerifyPass in Hc.
  eapply (foldl_clean _ (fun pc => ∀ s, in_states w !! pc = Some s → ∃ insn row,
    pc_verified opts cfi guessing canonical pc s (default [] (join_conflicts w !! pc)) insn row))
    in Hc as [Hcw Hall]; [| | |done].
  - split; [done|]. intros pc s E. apply Hall; [|done]. unfold reached_pcs.
    rewrite merge_sort_Permutation. apply elem_of_elements, elem_of_dom. by eexists.
  - intros. apply verify_at_reports.
  - intros w' pc Hr Hw' Hc' s E. rewrite <-(rp_conflicts _ _ Hr).
    apply (verify_at_clean opts cfi guessing canonical w'); [done| |done]. by rewrite (rp_states _ _ Hr).
Qed.

Lemma gap_loop_reports fuel w pc : reports w (gap_loop opts cfi fuel w pc).
Proof.
  revert w pc. induction fuel as [|fuel IH]; intros w pc; cbn [gap_loop]; [auto with uw|].
  destruct (pc <? pc_end cfi); [|auto with uw]. destruct (insn_sizes w !! pc); [apply IH|].
  destruct (skip_gap _ _ _ _ _ _) as [next pad]. eapply reports_trans; [|apply IH].
  destruct pad; auto with uw.
Qed.

Lemma ReportCoverageGaps_reports w : reports w (ReportCoverageGaps opts cfi w).
Proof. unfold ReportCoverageGaps. case_match; [apply gap_loop_reports|auto with uw]. Qed.

Lemma CheckEntryRow_reports canonical row w :
  reports w (CheckEntryRow cfi at_function_entry canonical row w).
Proof. unfold CheckEntryRow. case_match; auto with uw. Qed.

Lemma CheckEntryRow_fresh canonical row w : fresh w → fresh (CheckEntryRow cfi at_function_entry canonical row w).
Proof. unfold CheckEntryRow. by case_match. Qed.

Lemma SetupCallSites_reports w : reports w (SetupCallSites opts cfi w).2.
Proof. unfold SetupCallSites. repeat case_match; cbn; auto with uw. Qed.
Lemma SetupCallSites_fresh w : fresh w → fresh (SetupCallSites opts cfi w).2.
Proof. unfold SetupCallSites. by repeat case_match. Qed.

(** Seeding a landing pad leaves a review behind. *)
Lemma seed_pad_clean lp w :
  sink_wf (w_sink w) →
  let r := seed_pad cfi (false, w) lp in
  r = (false, w) ∨ (sink_wf (w_sink r.2) ∧ ¬ clean r.2).
Proof.
  intros Hs. cbn. destruct (in_states w !! lp); [by left|]. destruct (row_at cfi lp) as [row|]; [|by left].
  right. cbn. destruct (Propagate_report lp (SeedFromRow row false)
    (sink_review lp "this landing pad's incoming state could not be derived from any call site actually walked, so it is trusted from its own declared CFI row instead of independently checked" w))
    as (E & _). unfold clean. rewrite E. split; [by apply Add_wf|by apply Add_dirty].
Qed.

Lemma seed_pads_dirty l b w :
  sink_wf (w_sink w) → ¬ clean w →
  sink_wf (w_sink (foldl (seed_pad cfi) (b, w) l).2) ∧ ¬ clean (foldl (seed_pad cfi) (b, w) l).2.
Proof.
  revert b w. induction l as [|lp l IH]; intros b w Hs Hd; [done|]. cbn [foldl].
  unfold seed_pad at 2 4. destruct (in_states w !! lp); [by apply IH|].
  destruct (row_at cfi lp) as [row|]; [|by apply IH]. apply IH;
    destruct (Propagate_report lp (SeedFromRow row false)
      (sink_review lp "this landing pad's incoming state could not be derived from any call site actually walked, so it is trusted from its own declared CFI row instead of independently checked" w))
      as (E & _); unfold clean; rewrite E; [by apply Add_wf|by apply Add_dirty].
Qed.

Lemma seed_pads_clean l w :
  sink_wf (w_sink w) →
  foldl (seed_pad cfi) (false, w) l = (false, w) ∨
  (sink_wf (w_sink (foldl (seed_pad cfi) (false, w) l).2) ∧ ¬ clean (foldl (seed_pad cfi) (false, w) l).2).
Proof.
  revert w. induction l as [|lp l IH]; intros w Hs; [by left|]. cbn [foldl].
  destruct (seed_pad_clean lp w Hs) as [->|[H1 H2]]; [by apply IH|]. right.
  destruct (seed_pad cfi (false, w) lp) as [b w']. by apply seed_pads_dirty.
Qed.

Lemma SeedUnreached_clean sites w :
  sink_wf (w_sink w) →
  sink_wf (w_sink (SeedUnreachedLandingPads opts cfi guessing sites w)) ∧
  (clean (SeedUnreachedLandingPads opts cfi guessing sites w) →
   SeedUnreachedLandingPads opts cfi guessing sites w = w).
Proof.
  intros Hs. unfold SeedUnreachedLandingPads.
  destruct (seed_pads_clean (distinct_landing_pads sites) w Hs) as [->|[H1 H2]]; [done|].
  destruct (foldl _ _ _) as [b w']. cbn in H1, H2. destruct b; [|done].
  unfold clean, Drain. rewrite drain_loop_sink. done.
Qed.

Lemma seed_reg_no_cmp row e s r : last_cmp s = None → last_cmp (seed_reg row e s r) = None.
Proof. intros H1. unfold seed_reg, set_gpr. by repeat case_match. Qed.

Lemma seed_fold_no_cmp row e l s : last_cmp s = None → last_cmp (foldl (seed_reg row e) s l) = None.
Proof.
  revert s. induction l as [|r l IH]; intros s Hs; cbn [foldl]; [exact Hs|].
  apply IH. by apply seed_reg_no_cmp.
Qed.

Lemma set_gpr_cmp r v s : last_cmp (set_gpr r v s) = last_cmp s.
Proof. unfold set_gpr. by case_match. Qed.

Lemma SeedFromRow_no_cmp row e : last_cmp (SeedFromRow row e) = None.
Proof.
  unfold SeedFromRow. pose proof (seed_fold_no_cmp row e (range0 kNumDWARFRegs) (with_gpr orig_regs blank) eq_refl) as Hf.
  revert Hf. generalize (foldl (seed_reg row e) (with_gpr orig_regs blank) (range0 kNumDWARFRegs)). intros s Hs.
  cbv zeta. destruct (cfa_kind (row_cfa row)); rewrite ?set_gpr_cmp; exact Hs.
Qed.

Lemma state_ok_seed row e : row_shape row → state_ok (SeedFromRow row e).
Proof. intros Hr. split; [by apply wf_SeedFromRow|]. by rewrite SeedFromRow_no_cmp. Qed.

(** The call sites the walk uses: the LSDA's, with pads inside the FDE. *)
Definition lsda_sites (sites : list LSDACallSite) : Prop :=
  if lsda_addr cfi =? 0 then sites = []
  else ∃ all, ReadLSDACallSites (o_image opts) (lsda_addr cfi) (pc_begin cfi) = Ok all ∧
    sites = filter (fun cs => in_fde cfi (cs_landing_pad cs) = true) all.

Lemma SetupCallSites_clean w :
  sink_wf (w_sink w) → clean (SetupCallSites opts cfi w).2 → lsda_sites (SetupCallSites opts cfi w).1.
Proof.
  intros Hs. unfold SetupCallSites, lsda_sites. destruct (lsda_addr cfi =? 0); [done|].
  destruct (ReadLSDACallSites _ _ _) as [sites|e]; cbn [fst snd]; [by exists sites|].
  by intros ?%sink_review_dirty.
Qed.

Lemma CheckEntryRow_clean canonical row w :
  sink_wf (w_sink w) → clean (CheckEntryRow cfi at_function_entry canonical row w) →
  at_function_entry = true → canonical = true.
Proof.
  intros Hs. unfold CheckEntryRow. destruct at_function_entry, canonical; try done.
  cbn. by intros ?%sink_review_dirty.
Qed.

(** The states of a walk are closed under control flow and verified. *)
Definition certified (canonical : bool) (sites : list LSDACallSite) (w : Walk) : Prop :=
  ∀ pc s, in_states w !! pc = Some s →
    state_ok s ∧ Forall (covered w) (flows opts cfi guessing sites pc s) ∧
    ∃ insn row, pc_verified opts cfi guessing canonical pc s (default [] (join_conflicts w !! pc)) insn row.

Lemma run_walk_certificate first_row :
  row_shape first_row → clean (run_walk opts cfi at_function_entry guessing first_row) →
  ∃ sites w, lsda_sites sites ∧ (at_function_entry = true → IsCanonicalEntry first_row = true) ∧
    covered w (pc_begin cfi, SeedFromRow first_row (IsCanonicalEntry first_row)) ∧
    certified (IsCanonicalEntry first_row) sites w.
Proof.
  intros Hshape. unfold run_walk. cbv zeta. set (canonical := IsCanonicalEntry first_row).
  set (w0 := new_walk _). assert (sink_wf (w_sink w0)) as S0 by apply new_sink_wf.
  set (w1 := CheckEntryRow cfi at_function_entry canonical first_row w0).
  pose proof (CheckEntryRow_reports canonical first_row w0) as R1. fold w1 in R1.
  assert (fresh w1) as F1 by by apply CheckEntryRow_fresh.
  pose proof (rp_wf _ _ R1 S0) as S1. pose proof (SetupCallSites_reports w1) as R2.
  pose proof (SetupCallSites_fresh w1 F1) as F2. pose proof (SetupCallSites_clean w1 S1) as Hsites.
  destruct (SetupCallSites opts cfi w1) as [sites w2]. cbn [fst snd] in R2, F2, Hsites.
  pose proof (rp_wf _ _ R2 S1) as S2.
  set (w4 := Drain opts cfi guessing sites (Propagate (pc_begin cfi) (SeedFromRow first_row canonical) w2)).
  assert (w_sink w4 = w_sink w2) as E4.
  { unfold w4, Drain. rewrite drain_loop_sink. by destruct (Propagate_report (pc_begin cfi) (SeedFromRow first_row canonical) w2). }
  assert (sink_wf (w_sink w4)) as S4 by by rewrite E4.
  destruct (SeedUnreached_clean sites w4 S4) as [S5 H5].
  set (w5 := SeedUnreachedLandingPads opts cfi guessing sites w4) in *.
  set (w6 := if hit_cap w5 then _ else w5).
  assert (reports w5 w6) as R6 by (unfold w6; case_match; auto with uw).
  pose proof (rp_wf _ _ R6 S5) as S6. intros Hc.
  apply (rp_clean _ _ (ReportCoverageGaps_reports _)) in Hc;
    [|by apply VerifyPass_reports]. apply VerifyPass_clean in Hc as [C6 Hv]; [|done].
  pose proof (rp_clean _ _ R6 S5 C6) as C5. specialize (H5 C5).
  assert (hit_cap w4 = false) as Hcap.
  { rewrite <-H5. unfold w6 in C6. destruct (hit_cap w5); [by apply sink_review_dirty in C6|done]. }
  assert (w6 = w4) as E6 by (unfold w6; by rewrite H5, Hcap). rewrite E6 in *.
  assert (clean w2) as C2 by (unfold clean in *; by rewrite <-E4).
  destruct (drain_fixpoint opts cfi guessing sites w2 (pc_begin cfi) (SeedFromRow first_row canonical) F2
    (state_ok_seed _ _ Hshape) Hcap) as (_ & Hstart & Hclosed).
  exists sites, w4. split_and!; auto.
  - apply (CheckEntryRow_clean canonical first_row w0 S0). by apply (rp_clean _ _ R2 S1).
  - intros pc s E. destruct (Hclosed pc s E). auto.
Qed.
End run.

Lemma blessed_walk `{ZydisLaws} opts cfi at_function_entry guessing first_row :
  row_at cfi (pc_begin cfi) = Some first_row → row_shape first_row →
  row_reg first_row kDWARFRip ≠ RR_Undefined →
  r_verdict (Check opts cfi at_function_entry guessing) = kBlessed →
  ∃ sites w, lsda_sites opts cfi sites ∧
    (at_function_entry = true → IsCanonicalEntry first_row = true) ∧
    covered w (pc_begin cfi, SeedFromRow first_row (IsCanonicalEntry first_row)) ∧
    certified opts cfi guessing (IsCanonicalEntry first_row) sites w.
Proof.
  intros Hrow Hshape Hra. unfold Check, Run. rewrite Hrow, bool_decide_eq_false_2 by done.
  cbn. rewrite verdict_blessed. intros Hc. by apply run_walk_certificate.
Qed.

(** C7: what BLESSED certifies: if an FDE whose entry row recovers the
    return address is blessed, there is a set of abstract states, one per
    reached address, that describes the entry, is closed under everything
    the instructions there propagate, and at every reached address the
    instruction decodes inside the FDE, a row is in force and holds of the
    state, no join conflict concerns it, and control leaves the FDE only to
    compatible rows or in a proper exit state; and a function entry has the
    canonical entry row. *)
Theorem blessed_certificate `{ZydisLaws} opts cfi at_function_entry guessing first_row :
  row_at cfi (pc_begin cfi) = Some first_row → row_shape first_row →
  row_reg first_row kDWARFRip ≠ RR_Undefined →
  r_verdict (Check opts cfi at_function_entry guessing) = kBlessed →
  ∃ sites w, lsda_sites opts cfi sites ∧
    (at_function_entry = true → IsCanonicalEntry first_row = true) ∧
    covered w (pc_begin cfi, SeedFromRow first_row (IsCanonicalEntry first_row)) ∧
    certified opts cfi guessing (IsCanonicalEntry first_row) sites w.
Proof. apply blessed_walk. Qed.

From S2P Require Import ZydisSample Sample.

Lemma sample_row_shape : row_shape (sample_row 0x1000 7 8 RR_Unset).
Proof.
  split; [|split; cbn; mach]. split; [done|].
  apply Forall_insert; [apply Forall_insert; [by apply Forall_replicate|]|done]. cbn. mach.
Qed.

Lemma blessed_certificate_witness :
  ∃ sites w, lsda_sites sample_opts sample_fde sites ∧
    (true = true → IsCanonicalEntry (sample_row 0x1000 7 8 RR_Unset) = true) ∧
    covered w (pc_begin sample_fde, SeedFromRow (sample_row 0x1000 7 8 RR_Unset)
                                      (IsCanonicalEntry (sample_row 0x1000 7 8 RR_Unset))) ∧
    certified sample_opts sample_fde false (IsCanonicalEntry (sample_row 0x1000 7 8 RR_Unset)) sites w.
Proof.
  apply (blessed_certificate sample_opts sample_fde true false (sample_row 0x1000 7 8 RR_Unset)).
  - vm_compute. reflexivity.
  - exact sample_row_shape.
  - vm_compute. discriminate.
  - vm_compute. reflexivity.
Defined.
