(* ===== verification/RunFacts.v ===== *)
(** * Executions of a blessed FDE

    The end-to-end guarantee: the certificate of [VerdictFacts] composed with
    the soundness of the transfer functions ([TransferFacts]) and of the row
    check ([RowFacts]).  An execution is a sequence of activations that
    follows the flows of the walk; at each of its addresses the declared row
    unwinds correctly. *)

From stdpp Require Import gmap strings.
From S2P Require Import Prelude CfiTable AbsState AbsStateFacts JoinFacts StateFacts Zydis InsnSemantics.
From S2P Require Import InsnFacts BoundFacts ElfImage Lsda RowCheck FdeChecker RowFacts WalkFacts VerdictFacts.
From S2P Require Import Machine TransferFacts.

(** ** Edges *)

(** What a value claims of the machine: [Top], a conflict and an unrelated
    value claim nothing. *)
Definition claim (v : AbsVal) : bool :=
  match v with CFARel _ | OrigReg _ => true | _ => false end.

(** Where the state [st] kept for an address makes a claim, the state [s]
    that flows there makes one too.  [Join] keeps what it has when the
    incoming value is unknown ([abs-state.h]: "the meet's identity
    element"), so the states themselves do not guarantee it. *)
Record informed (s st : AbsState) : Prop := {
  if_regs : ∀ r, in_range r → reg s r = Top → claim (reg st r) = false;
  if_slots : ∀ o, Slot s o = Top → claim (Slot st o) = false
}.

Lemma claim_models a v x : claim v = false → value_models a v x.
Proof. by destruct v. Qed.

(** Along an informed edge a claim can only get lost. *)
Lemma value_below_models a v w x :
  av_below v w → (w = Top → claim v = false) → value_models a w x → value_models a v x.
Proof. intros [->|[->| ->]]%av_below_iff Hc Hw; [|done|done]. apply claim_models. auto. Qed.

Lemma models_below a s st :
  wf_state s → wf_state st → state_below st s → informed s st → models a s → models a st.
Proof.
  intros Hs Hst Hb [Hr Hsl] Hm. split; [apply Hm| |].
  - intros r Hin. apply (value_below_models a _ (reg s r)); [by apply state_below_reg|by apply Hr|by apply Hm].
  - intros o. apply (value_below_models a _ (Slot s o)); [by apply state_below_slot|by apply Hsl|apply Hm].
Qed.

(** What an edge adds concerns the bounds only. *)
Lemma models_TransferEdge `{ZydisApi} a insn edge s : models a s → models a (TransferEdge insn edge s).
Proof.
  apply models_same; unfold TransferEdge, ApplyGuardBound; by repeat (case_match; try done).
Qed.

(** ** Executions *)

Section Run.
Context `{ZydisLaws} (opts : FDECheckerOptions) (cfi : CFI) (guessing : bool) (sites : list LSDACallSite).
Context (w : Walk).

Lemma flows_models pc s insn a f :
  decode_at opts cfi pc = Some insn → f ∈ flows opts cfi guessing sites pc s →
  models a (Transfer insn s).2 → models a f.2.
Proof.
  intros Ed. unfold flows. rewrite Ed. destruct (Transfer insn s) as [out s'] eqn:Et. cbn [snd].
  intros Hf Hm. rewrite !elem_of_app in Hf.
  assert (∀ ts, f ∈ target_flows cfi ts s' → models a f.2) as Htf.
  { intros ts (t & -> & _)%list_elem_of_fmap. done. }
  destruct Hf as [Hf|[Hf|[Hf|Hf]]].
  - unfold pad_flows in Hf. repeat (case_match; try by apply elem_of_nil in Hf).
    by apply list_elem_of_singleton in Hf as ->.
  - unfold next_flows in Hf. repeat (case_match; try by apply elem_of_nil in Hf).
    apply list_elem_of_singleton in Hf as ->. by apply models_TransferEdge.
  - unfold taken_flows in Hf. repeat (case_match; try by apply elem_of_nil in Hf).
    apply list_elem_of_singleton in Hf as ->. by apply models_TransferEdge.
  - unfold table_flows in Hf. repeat (case_match; try by apply elem_of_nil in Hf); by apply Htf in Hf.
Qed.

(** One step: the processor executes the instruction at [pc] and control
    follows one of the edges the walk propagated along. *)
Inductive run_step (pc : Z) (a : activation) (pc' : Z) (a' : activation) : Prop :=
  | run_step_intro insn ea s s' st :
      decode_at opts cfi pc = Some insn → in_states w !! pc = Some s →
      executes insn ea a a' → frame_assumed insn ea a a' s →
      (pc', s') ∈ flows opts cfi guessing sites pc s →
      in_states w !! pc' = Some st → informed s' st →
      run_step pc a pc' a'.

(** What can be reached from an activation the seed describes. *)
Inductive run (seed : AbsState) : Z → activation → Prop :=
  | run_start a st :
      models a seed → in_states w !! pc_begin cfi = Some st → informed seed st → run seed (pc_begin cfi) a
  | run_next pc a pc' a' : run seed pc a → run_step pc a pc' a' → run seed pc' a'.

(** Every reached activation is described by the state of its address. *)
Lemma run_models canonical seed pc a :
  (∀ pc insn, decode_at opts cfi pc = Some insn → documented insn ∧ mem_documented insn) →
  state_ok seed → covered w (pc_begin cfi, seed) → certified opts cfi guessing canonical sites w →
  run seed pc a → ∃ s, in_states w !! pc = Some s ∧ models a s.
Proof.
  intros Hdoc Hseed Hstart Hcert. induction 1 as [a st Hm E Hi|pc a pc' a' _ (s0 & E0 & Hm) Hstep].
  - destruct Hstart as (st' & E' & Hb). cbn [fst snd] in *. assert (st' = st) as -> by congruence.
    exists st. split; [done|]. destruct (Hcert _ _ E) as [[Hw _] _]. destruct Hseed as [Hws _].
    by apply (models_below a seed).
  - destruct Hstep as [insn ea s s' st Ed E He Hf Hflow Est Hi]. assert (s0 = s) as -> by congruence.
    destruct (Hdoc _ _ Ed) as [Hd Hmd]. destruct (Hcert _ _ E) as (Hok & Hcov & insn' & row & Hv).
    assert (insn' = insn) as -> by (pose proof (pv_decodes _ _ _ _ _ _ _ _ _ Hv); congruence).
    pose proof (transfer_models insn ea a a' s Hm Hok He Hf Hd Hmd (pv_modelled _ _ _ _ _ _ _ _ _ Hv)) as Hm'.
    pose proof (flows_models _ _ _ _ _ Ed Hflow Hm') as Hms. cbn [snd] in Hms.
    rewrite Forall_forall in Hcov. destruct (Hcov _ Hflow) as (st' & Est' & Hb). cbn [fst snd] in *.
    assert (st' = st) as -> by congruence. exists st. split; [done|].
    pose proof (flows_ok opts cfi guessing sites pc s Hok) as Hfo. rewrite Forall_forall in Hfo.
    destruct (Hfo _ Hflow) as [Hws _]. destruct (Hcert _ _ Est) as [[Hwst _] _]. by apply (models_below a' s').
Qed.
End Run.

(** Every execution from the first row, along edges the states account for,
    unwinds at each address with the row in force there, and stands at a
    return with the stack pointer at the return address and the callee-saved
    registers restored. *)
Definition unwinds_along `{ZydisApi} (opts : FDECheckerOptions) (cfi : CFI) (guessing : bool) (first_row : CFIRow) :
    Prop :=
  let seed := SeedFromRow first_row (IsCanonicalEntry first_row) in
  ∃ sites w, lsda_sites opts cfi sites ∧ covered w (pc_begin cfi, seed) ∧
    certified opts cfi guessing (IsCanonicalEntry first_row) sites w ∧
    ∀ pc a, run opts cfi guessing sites w seed pc a →
      (∃ row, row_at cfi pc = Some row ∧ unwind_cfa a row = Some (ac_cfa a) ∧
        ∀ r, 0 <= r < kNumDWARFRegs → claims (row_reg row r) r = true →
          unwind_reg a (ac_cfa a) (row_reg row r) r = Some (ac_entry a r)) ∧
      (∀ insn, decode_at opts cfi pc = Some insn → is_return_id (in_id insn) = true →
        ac_reg a kDWARFRsp = u64 (ac_cfa a - 8) ∧ ac_mem a (ac_reg a kDWARFRsp) = ac_entry a kDWARFRip ∧
        ∀ r, r ∈ kCalleeSaved → ac_reg a r = ac_entry a r).

Lemma blessed_unwinds_along `{ZydisLaws} opts cfi at_function_entry guessing first_row :
  row_at cfi (pc_begin cfi) = Some first_row → row_shape first_row →
  row_reg first_row kDWARFRip ≠ RR_Undefined → o_check_unmentioned_callee_saved opts = true →
  (∀ pc insn, decode_at opts cfi pc = Some insn → documented insn ∧ mem_documented insn) →
  r_verdict (Check opts cfi at_function_entry guessing) = kBlessed →
  unwinds_along opts cfi guessing first_row.
Proof.
  intros Hrow Hshape Hra Hunm Hdoc Hb. unfold unwinds_along. set (seed := SeedFromRow _ _).
  destruct (blessed_walk opts cfi at_function_entry guessing first_row Hrow Hshape Hra Hb)
    as (sites & w & Hsites & _ & Hstart & Hcert).
  exists sites, w. split_and!; [done..|]. intros pc a Hrun.
  destruct (run_models opts cfi guessing sites w _ seed pc a Hdoc (state_ok_seed _ _ Hshape) Hstart Hcert Hrun)
    as (s & E & Hm).
  destruct (Hcert _ _ E) as (_ & _ & insn & row & Hv). split.
  - exists row. split; [apply (pv_row _ _ _ _ _ _ _ _ _ Hv)|]. apply (row_holds_unwinds a row s Hm).
    rewrite <-Hunm. apply (pv_holds _ _ _ _ _ _ _ _ _ Hv).
  - intros insn' Ed Hret. assert (insn' = insn) as -> by (pose proof (pv_decodes _ _ _ _ _ _ _ _ _ Hv); congruence).
    pose proof (pv_outcome _ _ _ _ _ _ _ _ _ Hv) as Ho. unfold Transfer in Ho. cbv zeta in Ho. rewrite Hret in Ho.
    destruct Ho as [_ Hx]. by apply (exit_holds_returns a s).
Qed.


(** ** Concrete instances *)

From S2P Require Import ZydisSample Sample.

(** *** Decoders given by a table

    An instruction whose first operand is the only one it may write is
    documented, so a decoder whose encodings all make such instructions is. *)
Definition single_dest `{ZydisApi} (id : ZydisMnemonic) (ops : list ZydisOperand) : Prop :=
  Forall (fun op => 0 <= op_size op < 65536) ops ∧ Forall (fun op => op_writes op = false) (tail ops)
  ∧ (writes_first id = true → ∀ op, head ops = Some op → op_writes op = true)
  ∧ ∀ q, op_kind (default op_none (ops !! 1%nat)) = OpReg q → IsFull64 q = true →
         op_size (default op_none (ops !! 1%nat)) = 64.

Lemma single_dest_documented `{ZydisApi} len id ops cat flags address :
  single_dest id ops →
  let zi := (zinsn len id ops cat flags).1 in
  let insn := mkInsn address (zi_length zi) (zi_mnemonic zi) (zi_operand_count_visible zi) ops zi in
  documented insn ∧ mem_documented insn.
Proof.
  intros (Hsize & Htail & Hfirst & Hfull) zi insn.
  assert (take (zi_operand_count (in_insn insn)) (in_operands insn) = ops) as Etake by apply firstn_all.
  assert (∀ l1 op l2, ops = l1 ++ op :: l2 → op_writes op = true → l1 = []) as Honly.
  { intros [|x l1] op l2 -> Hw; [done|]. cbn in Htail. apply Forall_app in Htail as [_ Htail].
    apply Forall_cons in Htail as [Hn _]. congruence. }
  assert (∀ op, op ∈ written_ops insn → op = operand insn 0) as Hwritten.
  { unfold written_ops. rewrite Etake. intros op [Hw (l1 & l2 & E)%list_elem_of_split]%list_elem_of_filter.
    pose proof (Honly _ _ _ E Hw) as ->. unfold operand. cbn. by rewrite E. }
  assert (∀ op, ops !! 0%nat = Some op → writes_first id = true → op ∈ written_ops insn) as Hin.
  { intros op E Hw. unfold written_ops. rewrite Etake. apply list_elem_of_filter.
    split; [apply (Hfirst Hw); by destruct ops|by eapply list_elem_of_lookup_2]. }
  assert (writes_first id = true → two_ops insn = true → operand insn 0 ∈ written_ops insn) as Hdest.
  { intros Hw E%bool_decide_eq_true. destruct ops as [|op ops']; [done|]. by apply (Hin op). }
  split; split.
  - exact Hsize.
  - intros Hw E. split; [by intros _; apply Hdest|]. intros op Ho _. by rewrite (Hwritten op Ho).
  - exact Hfull.
  - intros _ _ op m Ho _. by apply Hwritten.
  - intros Hw E _ _. by apply Hdest.
  - rewrite Etake. intros l1 op l2 m op' E Hw _ Ho. rewrite (Honly _ _ _ E Hw) in Ho. by apply elem_of_nil in Ho.
Qed.

Lemma table_documented `{ZydisApi} table code address insn :
  Forall (fun e => ∀ imm, single_dest (enc_id e) (enc_ops e imm)) table →
  (∀ code, DecodeFull code = table_decode table code) →
  Decode code address = Some insn → documented insn ∧ mem_documented insn.
Proof.
  intros Hf Htable. unfold Decode. rewrite Htable. clear Htable. unfold table_decode.
  destruct (foldr _ None table) as [[zi ops]|] eqn:E; [|done]. intros [= <-]. revert E.
  induction Hf as [|e l He Hf IH]; cbn [foldr]; [done|]. unfold try_encoding at 1. cbv zeta.
  destruct (_ && _); [|exact IH]. intros [= <- <-]. apply single_dest_documented, He.
Qed.

(** Closes [single_dest] of a concrete encoding. *)
Ltac single_dest_tac :=
  split_and!;
  [ repeat (constructor; [cbn; lia|]); constructor
  | repeat (constructor; [done|]); constructor
  | intros Hw op Eop; try discriminate Hw; cbn in Eop; by simplify_eq
  | intros q Eq Hfull; cbn in Eq; first [discriminate Eq|injection Eq as <-; first [reflexivity|discriminate Hfull]] ].

Lemma sample_code_documented code address insn :
  Decode code address = Some insn → documented insn ∧ mem_documented insn.
Proof.
  apply (table_documented encodings); [|done]. repeat (constructor; [intros imm; single_dest_tac|]). constructor.
Qed.


(** ** Why the edges must be informed *)

(** An activation at a function's entry row whose rbx was overwritten. *)
Definition rbx_overwritten : activation :=
  mkAct (ac_cfa at_entry) (ac_entry at_entry)
        (fun r => if r =? 3 then 0 else ac_reg at_entry r) (ac_mem at_entry).

Lemma models_rbx_overwritten : models rbx_overwritten (ClobberReg 3 Entry).
Proof.
  destruct models_at_entry as [H1 H2 H3]. split; [exact H1| |exact H3].
  intros r Hr. unfold ClobberReg. rewrite reg_SetReg_or by (apply wf_Entry || done).
  case_match; [done|]. cbn [ac_reg rbx_overwritten]. rewrite H. by apply H2.
Qed.

(** Joining a path on which a register is unknown with one on which it
    holds its entry value keeps the claim: after a clobber of rbx on one of
    two paths, the joined state still says rbx holds the caller's value, the
    row check accepts it, and at the activation that took the clobbering
    path the row gives a wrong rbx.  (So an unmodelled instruction can cost
    correctness, not only precision, where paths meet.) *)
Lemma Join_adopts_unknown :
  joined (ClobberReg 3 Entry) Entry = Entry ∧ Join (ClobberReg 3 Entry) Entry = (Entry, false, []) ∧
  models rbx_overwritten (ClobberReg 3 Entry) ∧
  row_issues true entry_row (joined (ClobberReg 3 Entry) Entry) = [] ∧
  unwind_reg rbx_overwritten (ac_cfa rbx_overwritten) (row_reg entry_row 3) 3 ≠ Some (ac_entry rbx_overwritten 3).
Proof.
  split_and!.
  - vm_compute. reflexivity.
  - vm_compute. reflexivity.
  - exact models_rbx_overwritten.
  - vm_compute. reflexivity.
  - vm_compute. discriminate.
Qed.

(** Pushing over a tracked slot that is not aligned with the stack pointer
    leaves the slot's claim in place: rbx saved at CFA-20, then [push %rbp]
    with rsp at CFA-8 writes CFA-16 to CFA-9. *)
Lemma push_keeps_straddled_slot :
  let s := SetSlot (-20) (OrigReg 3) Entry in
  let s' := (Transfer push_rbp s).2 in
  Slot s' (-16) = OrigReg 6 ∧ Slot s' (-20) = OrigReg 3 ∧ ∀ a, ¬ misses (slot_addr a (-20)) (slot_addr a (-16), 8).
Proof.
  split_and!; [by vm_compute..|]. intros a [H _]. cbn [fst snd] in H. revert H. unfold slot_addr.
  assert (u64 (u64 (ac_cfa a + -16) - u64 (ac_cfa a + -20)) = 4) as ->; [|lia].
  unfold u64, wrapu. rewrite <-Zminus_mod. replace (_ - _) with 4 by lia. done.
Qed.
