(* ===== verification/CheckerFacts.v ===== *)
(** * Theorems about the checker's lookups, jump tables and coverage

    The binary searches over the FDE index and the call sites, jump-table
    resolution, decoding inside the FDE's range, guessing recovery and the
    coverage report. *)

From stdpp Require Import gmap strings sorting.
From S2P Require Import Prelude CfiTable AbsState Zydis InsnSemantics ElfImage Lsda RowCheck FdeChecker.
From S2P Require Import SinkFacts VerdictFacts.

(** ** Searching sorted, disjoint ranges *)

Section ranges.
Context {A : Type} (lo hi : A → Z) (l : list A).

(** In order, each range ending before the next starts. *)
Definition ranges_sorted : Prop :=
  ∀ i j a b, (i < j)%nat → l !! i = Some a → l !! j = Some b → lo a <= lo b ∧ hi a <= lo b.

(** The search the checker makes: the last range that starts at or before
    [pc], if it contains [pc]. *)
Definition find_range (pc : Z) : option A :=
  match partition_point (fun a => pc <? lo a) l with
  | O => None
  | S i => match l !! i with
           | Some a => if (lo a <=? pc) && (pc <? hi a) then Some a else None
           | None => None
           end
  end.

Lemma find_range_sound pc a : find_range pc = Some a → a ∈ l ∧ lo a <= pc < hi a.
Proof.
  unfold find_range. destruct (partition_point _ l) as [|i]; [done|].
  destruct (l !! i) as [b|] eqn:E; [|done]. destruct (_ && _) eqn:Eb; [|done]. intros [= ->].
  split; [by eapply list_elem_of_lookup_2|]. lia.
Qed.

Lemma find_range_complete pc a :
  ranges_sorted → a ∈ l → lo a <= pc < hi a → find_range pc = Some a.
Proof.
  intros Hs [i Hi]%list_elem_of_lookup Hpc. unfold find_range.
  pose proof (partition_point_spec (fun a => pc <? lo a) l) as Hpp.
  assert (∀ i j x y, (i ≤ j)%nat → l !! i = Some x → l !! j = Some y → pc <? lo x → pc <? lo y) as Hmono.
  { intros i1 j1 x y Hij Hx Hy Hp%Is_true_true. apply Is_true_true.
    destruct (decide (i1 = j1)) as [->|]; [by assert (y = x) as -> by congruence|].
    destruct (Hs i1 j1 x y ltac:(lia) Hx Hy). lia. }
  specialize (Hpp Hmono). set (k := partition_point _ l) in *.
  assert (k = S i) as ->; [|by rewrite Hi, (proj2 (Z.leb_le _ _)), (proj2 (Z.ltb_lt _ _)) by lia].
  pose proof (Hpp i a Hi) as Hpi.
  assert (¬ k ≤ i)%nat by (rewrite <-bool_decide_eq_false, <-Hpi; lia).
  destruct (decide (k ≤ S i)%nat); [lia|].
  destruct (l !! S i) as [b|] eqn:Eb.
  - specialize (Hpp _ _ Eb). destruct (Hs i (S i) a b ltac:(lia) Hi Eb).
    rewrite bool_decide_eq_false_2 in Hpp by lia. lia.
  - apply lookup_ge_None in Eb. destruct (partition_point_boundary (fun a => pc <? lo a) l) as (Hle & _ & _).
    fold k in Hle. lia.
Qed.
End ranges.

Definition fde_lo (e : Z * Z * CFI) : Z := e.1.1.
Definition fde_hi (e : Z * Z * CFI) : Z := e.1.2.

Lemma CFIContaining_find index pc : CFIContaining index pc = snd <$> find_range fde_lo fde_hi index pc.
Proof.
  unfold CFIContaining, find_range. change (index_after pc) with (fun e : Z * Z * CFI => pc <? fde_lo e).
  destruct (partition_point _ index) as [|i]; [done|]. destruct (index !! i) as [[[b e] c]|]; [|done].
  unfold fde_lo, fde_hi. cbn. destruct (pc <? b) eqn:E1, (e <=? pc) eqn:E2; cbn;
    destruct (b <=? pc) eqn:E3, (pc <? e) eqn:E4; cbn; try done; lia.
Qed.

Lemma LandingPadForCall_find sites pc :
  LandingPadForCall sites pc = cs_landing_pad <$> find_range cs_start cs_end sites pc.
Proof.
  unfold LandingPadForCall, find_range. change (cs_after pc) with (fun cs => pc <? cs_start cs).
  destruct (partition_point _ sites) as [|i]; [done|]. destruct (sites !! i) as [cs|]; [|done].
  by destruct (_ && _).
Qed.

(** The two binary searches are right: over an index of FDEs sorted by
    start whose ranges do not overlap, [CFIContaining] returns the table of
    the FDE whose range holds the address, and nothing for an address in no
    range; over sorted call sites [LandingPadForCall] returns the pad of
    the site that holds the call. *)
Lemma range_lookups_correct index sites pc :
  ranges_sorted fde_lo fde_hi index → ranges_sorted cs_start cs_end sites →
  (∀ b e c, (b, e, c) ∈ index → b <= pc < e → CFIContaining index pc = Some c) ∧
  ((∀ b e c, (b, e, c) ∈ index → ¬ b <= pc < e) → CFIContaining index pc = None) ∧
  (∀ cs, cs ∈ sites → cs_start cs <= pc < cs_end cs →
     LandingPadForCall sites pc = Some (cs_landing_pad cs)) ∧
  ((∀ cs, cs ∈ sites → ¬ cs_start cs <= pc < cs_end cs) → LandingPadForCall sites pc = None).
Proof.
  intros Hi Hs. rewrite CFIContaining_find, LandingPadForCall_find. split; [|split; [|split]].
  - intros b e c Hin Hpc. by rewrite (find_range_complete _ _ _ pc (b, e, c)).
  - intros Hn. destruct (find_range _ _ _ _) as [[[b e] c]|] eqn:E; [|done].
    apply find_range_sound in E as [Hin Hpc]. exfalso. by eapply Hn.
  - intros cs Hin Hpc. by rewrite (find_range_complete _ _ _ pc cs).
  - intros Hn. destruct (find_range cs_start _ _ _) as [cs|] eqn:E; [|done].
    apply find_range_sound in E as [Hin Hpc]. exfalso. by eapply Hn.
Qed.

(** ** Jump tables *)

Section tables.
Context `{ZydisApi} (opts : FDECheckerOptions).

(** What an accepted entry is: a 4-byte offset, read from file-backed,
    non-executable memory, to an instruction inside some FDE. *)
Definition table_entry (table_addr i target : Z) : Prop :=
  let addr := u64 (table_addr + i * 4) in
  IsFileBackedNonExecutable (o_image opts) addr 4 = true ∧
  length (BytesAt (o_image opts) addr 4) = 4%nat ∧
  target = u64 (table_addr + s32 (le_value (BytesAt (o_image opts) addr 4))) ∧
  (∃ c, CFIContaining (o_all_cfis opts) target = Some c) ∧
  is_Some (Decode (BytesAt (o_image opts) target 16) target).

Lemma ResolveTableEntry_iff table_addr i target :
  ResolveTableEntry opts table_addr i = Some target ↔ table_entry table_addr i target.
Proof.
  unfold ResolveTableEntry, table_entry, LandsInsideSomeFDE. cbv zeta.
  destruct (IsFileBackedNonExecutable _ _ _); cbn; [|naive_solver].
  case_bool_decide as El; cbn; [|naive_solver].
  set (tg := u64 (table_addr + s32 _)).
  destruct (CFIContaining (o_all_cfis opts) tg) as [c|] eqn:E1; cbn.
  - destruct (Decode _ tg) as [insn|] eqn:E2.
    + split; [intros [= <-]; naive_solver|]. by intros (_ & _ & -> & _).
    + split; [done|]. intros (_ & _ & -> & _ & [? Hd]). congruence.
  - split; [done|]. intros (_ & _ & -> & [? Hc] & _). congruence.
Qed.

(** C30: [ResolveJumpTable] is all or nothing: it returns either no target,
    or one target per entry, at most 512 of them, and then the table is
    file-backed and not executable and every entry is a genuine one. *)
Theorem ResolveJumpTable_complete table_addr entries :
  let ts := ResolveJumpTable opts table_addr entries in
  ts = [] ∨
  (0 < entries <= kMaxJumpTableEntries ∧ Z.of_nat (length ts) = entries ∧
   IsFileBackedNonExecutable (o_image opts) table_addr (entries * 4) = true ∧
   ∀ i target, ts !! i = Some target → table_entry table_addr (Z.of_nat i) target).
Proof.
  cbv zeta. unfold ResolveJumpTable.
  destruct (_ || _) eqn:E1; [by left|]. apply orb_false_iff in E1 as [E1 E2].
  destruct (negb _) eqn:E3; [by left|]. apply negb_false_iff in E3.
  destruct (mapM _ _) as [ts|] eqn:Em; [|by left].
  destruct (decide (entries < 0)) as [Hneg|Hpos].
  { left. unfold seqZ in Em. rewrite Z2Nat.nonpos in Em by lia. by injection Em as <-. }
  right. apply mapM_Some in Em. pose proof (Forall2_length _ _ _ Em) as Hlen.
  rewrite length_seqZ in Hlen. split; [lia|]. split; [cbn; lia|]. split; [done|].
  intros i target Hi. cbn in Hi. destruct (Forall2_lookup_r _ _ _ _ _ Em Hi) as (j & Hj & Hr).
  apply lookup_seqZ in Hj as [-> Hj]. rewrite Z.add_0_l in Hr. by apply ResolveTableEntry_iff.
Qed.
End tables.

(** ** Decoding stays inside the FDE *)

Lemma bytes_avail_le segs vaddr size n : bytes_avail segs vaddr size = Some n → n <= size.
Proof.
  induction segs as [|s segs IH]; cbn; [done|]. case_match; [done|]. case_match; [done|].
  intros [= <-]. lia.
Qed.

Lemma BytesAt_length im vaddr size : 0 <= size → Z.of_nat (length (BytesAt im vaddr size)) <= size.
Proof.
  intros Hs. unfold BytesAt. destruct (bytes_avail _ _ _) as [n|] eqn:E; [|cbn; lia].
  apply bytes_avail_le in E. rewrite length_fmap, length_seqZ. lia.
Qed.

Lemma Decode_size `{ZydisLaws} code pc insn :
  Decode code pc = Some insn → 1 <= in_size insn <= Z.of_nat (length code).
Proof.
  unfold Decode. destruct (DecodeFull code) as [[zi ops]|] eqn:E; [|done]. intros [= <-].
  apply decode_length in E. cbn. lia.
Qed.

Lemma decode_at_inside `{ZydisLaws} opts cfi pc insn :
  is_u64 (pc_end cfi) → 0 <= pc < pc_end cfi → decode_at opts cfi pc = Some insn →
  1 <= in_size insn ∧ pc + in_size insn <= pc_end cfi ∧ u64 (pc + in_size insn) = pc + in_size insn.
Proof.
  intros He Hpc Hd. unfold decode_at in Hd. pose proof (Decode_size _ _ _ Hd) as Hs.
  assert (u64 (pc_end cfi - pc) = pc_end cfi - pc) as Eu by (apply u64_id; unfold is_u64 in *; lia).
  rewrite Eu in Hs. pose proof (BytesAt_length (o_image opts) pc (Z.min 16 (pc_end cfi - pc)) ltac:(lia)).
  split; [lia|]. split; [lia|]. apply u64_id. unfold is_u64 in *. lia.
Qed.

(** What pass 2 does at an instruction before it looks at where it goes. *)
Definition before_outcome `{ZydisApi} (opts : FDECheckerOptions) (cfi : CFI) (pc : Z) (insn : Instruction)
    (s : AbsState) (w : Walk) : Walk :=
  let w := count_instruction w in
  let w := match row_at cfi pc with
           | None => sink_review pc "no CFI row covers this address" w
           | Some row => check_row_at opts pc row s w
           end in
  let w := report_conflicts pc (row_at cfi pc) w in
  let reason := review_reason (Transfer insn s).1 in
  if bool_decide (reason = "") then w else sink_review pc reason w.

(** A decoded instruction never runs past the FDE: it is decoded from
    the bytes up to [pc_end] only, so the verification pass's check that it
    ends inside the range cannot fire. *)
Lemma decoded_inside_fde `{ZydisLaws} opts cfi guessing canonical w pc insn :
  is_u64 (pc_end cfi) → 0 <= pc < pc_end cfi → decode_at opts cfi pc = Some insn →
  pc < u64 (pc + in_size insn) <= pc_end cfi ∧
  verify_at opts cfi guessing canonical w pc =
    verify_outcome opts cfi guessing canonical pc (Transfer insn (default blank (in_states w !! pc))).1
      (default blank (in_states w !! pc))
      (before_outcome opts cfi pc insn (default blank (in_states w !! pc)) w).
Proof.
  intros He Hpc Hd. destruct (decode_at_inside opts cfi pc insn He Hpc Hd) as (H1 & H2 & E).
  split; [lia|]. unfold verify_at. rewrite Hd, E. by rewrite (proj2 (Z.ltb_ge _ _)) by lia.
Qed.

(** ** Coverage gaps *)

Section gaps.
Context `{ZydisLaws} (opts : FDECheckerOptions) (cfi : CFI) (Hend : is_u64 (pc_end cfi)).

(** The sizes the walk recorded are those of the instructions there. *)
Definition sizes_ok (w : Walk) : Prop :=
  ∀ pc size, insn_sizes w !! pc = Some size →
    ∃ insn, decode_at opts cfi pc = Some insn ∧ size = in_size insn.

(** From [pc] on, the FDE is made of reached instructions and padding. *)
Inductive tiled (w : Walk) : Z → Prop :=
  | tiled_end pc : pc_end cfi <= pc → tiled w pc
  | tiled_insn pc size :
      pc < pc_end cfi → insn_sizes w !! pc = Some size → tiled w (u64 (pc + size)) → tiled w pc
  | tiled_pad pc insn :
      pc < pc_end cfi → insn_sizes w !! pc = None → decode_at opts cfi pc = Some insn →
      is_padding insn = true → tiled w (u64 (pc + in_size insn)) → tiled w pc.

Lemma skip_gap_false fuel w pc : (skip_gap opts cfi fuel w pc false).2 = false.
Proof.
  revert pc. induction fuel as [|fuel IH]; intros pc; cbn [skip_gap]; [done|].
  repeat case_match; auto.
Qed.

Lemma skip_gap_advances fuel w pc pad :
  0 <= pc → let next := (skip_gap opts cfi fuel w pc pad).1 in
  pc <= next ∧ (fuel ≠ 0%nat → pc < pc_end cfi → insn_sizes w !! pc = None → pc < next).
Proof.
  revert pc pad. induction fuel as [|fuel IH]; intros pc pad Hpc; cbn [skip_gap]; [by split|].
  destruct (pc <? pc_end cfi) eqn:E; [|cbn; split; lia].
  destruct (insn_sizes w !! pc) eqn:Es; [cbn; split; [lia|done]|].
  destruct (decode_at opts cfi pc) as [insn|] eqn:Ed.
  - destruct (decode_at_inside opts cfi pc insn Hend ltac:(lia) Ed) as (H1 & H2 & ->).
    destruct (IH (pc + in_size insn) (pad && is_padding insn) ltac:(lia)). split; lia.
  - assert (u64 (pc + 1) = pc + 1) as -> by (apply u64_id; unfold is_u64 in *; lia).
    destruct (IH (pc + 1) false ltac:(lia)). split; lia.
Qed.

Lemma skip_gap_tiled fuel w pc :
  0 <= pc → pc_end cfi - pc <= Z.of_nat fuel →
  tiled w pc ↔ (skip_gap opts cfi fuel w pc true).2 = true ∧ tiled w (skip_gap opts cfi fuel w pc true).1.
Proof.
  revert pc. induction fuel as [|fuel IH]; intros pc Hpc Hf; cbn [skip_gap]; [naive_solver|].
  destruct (pc <? pc_end cfi) eqn:E; [|naive_solver].
  destruct (insn_sizes w !! pc) eqn:Es; [naive_solver|].
  destruct (decode_at opts cfi pc) as [insn|] eqn:Ed.
  - destruct (decode_at_inside opts cfi pc insn Hend ltac:(lia) Ed) as (H1 & H2 & Eu). cbn [andb].
    assert (tiled w pc ↔ is_padding insn = true ∧ tiled w (u64 (pc + in_size insn))) as ->.
    { split.
      - inversion 1; simplify_eq; try done. lia.
      - intros [Hp Ht]. eapply tiled_pad; eauto. lia. }
    destruct (is_padding insn); [|rewrite skip_gap_false; naive_solver].
    rewrite Eu. rewrite IH by lia. naive_solver.
  - rewrite skip_gap_false. split; [|by intros []]. inversion 1; simplify_eq. lia.
Qed.

Lemma gap_loop_clean fuel w pc :
  sizes_ok w → sink_wf (w_sink w) → 0 <= pc → pc_end cfi - pc <= Z.of_nat fuel →
  clean (gap_loop opts cfi fuel w pc) ↔ clean w ∧ tiled w pc.
Proof.
  revert w pc. induction fuel as [|fuel IH]; intros w pc Hsz Hs Hpc Hf; cbn [gap_loop].
  { split; [|by intros []]. intros Hc. split; [done|]. apply tiled_end. lia. }
  destruct (pc <? pc_end cfi) eqn:E.
  2: { split; [|by intros []]. intros Hc. split; [done|]. apply tiled_end. lia. }
  destruct (insn_sizes w !! pc) as [size|] eqn:Es.
  - destruct (Hsz pc size Es) as (insn & Ed & ->).
    destruct (decode_at_inside opts cfi pc insn Hend ltac:(lia) Ed) as (H1 & H2 & Eu).
    rewrite Eu. rewrite IH by (done || lia). 
    assert (tiled w pc ↔ tiled w (pc + in_size insn)) as ->; [|done]. split.
    + inversion 1; simplify_eq; [lia|congruence].
    + intros Ht. eapply tiled_insn; [lia|done|]. by rewrite Eu.
  - rewrite (skip_gap_tiled (Z.to_nat (pc_end cfi - pc)) w pc) by lia.
    pose proof (skip_gap_advances (Z.to_nat (pc_end cfi - pc)) w pc true Hpc) as [_ Hadv].
    specialize (Hadv ltac:(lia) ltac:(lia) Es).
    destruct (skip_gap _ _ _ _ _ _) as [next pad]. cbn [fst snd] in *. destruct pad.
    + rewrite IH by (done || lia). naive_solver.
    + set (w' := sink_review _ _ w). rewrite (IH w') by (done || lia || by apply Add_wf).
      split; [|by intros (_ & ? & _)]. intros [Hd _]. by apply sink_review_dirty in Hd.
Qed.
End gaps.


(** ** Guessing recovery *)

Lemma Check_not_light `{ZydisApi} opts cfi at_entry guessing :
  r_verdict (Check opts cfi at_entry guessing) ≠ kReviewLight.
Proof.
  unfold Check, Run. destruct (row_at cfi (pc_begin cfi)); [|done].
  destruct (bool_decide _); [done|]. cbn [r_verdict result_with]. unfold verdict_of.
  destruct (bool_decide _); [done|]. by destruct (existsb _ (Take _)).
Qed.

(** Guessing only ever relaxes a plain REVIEW: the combined check says
    REVIEW-LIGHT exactly when the plain check says REVIEW, found exactly one
    jump it could not bound, and the check that guesses that jump's targets
    is BLESSED; in every other case it is the plain result, and the findings
    are the plain ones either way. *)
Lemma CheckWithGuessing_contract `{ZydisApi} opts cfi at_entry :
  let plain := Check opts cfi at_entry false in
  let r := CheckWithGuessing opts cfi at_entry in
  (r_verdict r = kReviewLight ↔
     r_verdict plain = kReview ∧ r_guessable_jump_pc plain ≠ None ∧
     r_verdict (Check opts cfi at_entry true) = kBlessed) ∧
  (r_verdict r ≠ kReviewLight → r = plain) ∧
  r_findings r = r_findings plain.
Proof.
  cbv zeta. unfold CheckWithGuessing. pose proof (Check_not_light opts cfi at_entry false) as Hnl.
  set (plain := Check opts cfi at_entry false) in *. set (retry := Check opts cfi at_entry true).
  destruct (_ || _) eqn:E1.
  { split; [|done]. split; [done|]. intros (H1 & H2 & _). exfalso.
    rewrite H1 in E1. rewrite bool_decide_eq_true_2, bool_decide_eq_false_2 in E1 by done. done. }
  apply orb_false_iff in E1 as [E1%negb_false_iff%bool_decide_eq_true E2%bool_decide_eq_false].
  destruct (negb _) eqn:E3.
  { split; [|done]. split; [done|]. intros (_ & _ & H3). rewrite H3 in E3. done. }
  apply negb_false_iff, bool_decide_eq_true in E3. split; [|done]. by split.
Qed.

(** ** Concrete instances *)

From S2P Require Import ZydisSample Sample.

Definition two_fdes : list (Z * Z * CFI) :=
  [(0x1000, 0x1006, sample_fde); (0x1010, 0x1020, stale_fde)].
Definition two_sites : list LSDACallSite := [mkCS 0x1000 0x1004 0x1005; mkCS 0x1005 0x1006 0x1001].

Lemma two_fdes_sorted : ranges_sorted fde_lo fde_hi two_fdes.
Proof. intros [|[|i]] [|[|j]] a b Hij Ha Hb; cbn in *; simplify_eq; try lia; cbn; lia. Qed.
Lemma two_sites_sorted : ranges_sorted cs_start cs_end two_sites.
Proof. intros [|[|i]] [|[|j]] a b Hij Ha Hb; cbn in *; simplify_eq; try lia; cbn; lia. Qed.

Lemma range_lookups_correct_witness :
  (∀ b e c, (b, e, c) ∈ two_fdes → b <= 0x1005 < e → CFIContaining two_fdes 0x1005 = Some c) ∧
  ((∀ b e c, (b, e, c) ∈ two_fdes → ¬ b <= 0x1005 < e) → CFIContaining two_fdes 0x1005 = None) ∧
  (∀ cs, cs ∈ two_sites → cs_start cs <= 0x1005 < cs_end cs →
     LandingPadForCall two_sites 0x1005 = Some (cs_landing_pad cs)) ∧
  ((∀ cs, cs ∈ two_sites → ¬ cs_start cs <= 0x1005 < cs_end cs) → LandingPadForCall two_sites 0x1005 = None).
Proof. apply range_lookups_correct; [exact two_fdes_sorted|exact two_sites_sorted]. Defined.

Definition sample_push : Instruction := Eval vm_compute in
  default (mkInsn 0 0 M_NOP 0 [] (mkZInsn 0 M_NOP 0 0 0 (C_other 0) false None))
    (decode_at sample_opts sample_fde 0x1000).
Definition empty_walk : Walk := new_walk 20.

Lemma decoded_inside_fde_witness :
  0x1000 < u64 (0x1000 + in_size sample_push) <= pc_end sample_fde ∧
  verify_at sample_opts sample_fde false true empty_walk 0x1000 =
    verify_outcome sample_opts sample_fde false true 0x1000
      (Transfer sample_push (default blank (in_states empty_walk !! 0x1000))).1
      (default blank (in_states empty_walk !! 0x1000))
      (before_outcome sample_opts sample_fde 0x1000 sample_push
         (default blank (in_states empty_walk !! 0x1000)) empty_walk).
Proof.
  apply (decoded_inside_fde sample_opts sample_fde false true empty_walk 0x1000 sample_push).
  - unfold is_u64. cbn. lia.
  - cbn. lia.
  - vm_compute. reflexivity.
Defined.

(** A walk that reached the first two instructions only. *)
Definition partial_walk : Walk := with_insn_size 0x1001 3 (with_insn_size 0x1000 1 empty_walk).

