(* ===== verification/Diagnostics.v ===== *)
(** * Listings and findings in context

    Models [src/diagnostics.h] and the first part of [src/diagnostics.cc]:
    the linear listing of an FDE, the search in it, and the context window
    around a finding.  The pipeline of [--inspect] is in [Inspect]; what
    these definitions promise is in [DiagnosticsFacts]. *)

From stdpp Require Import gmap strings sorting.
From S2P Require Import Prelude CfiTable AbsState Zydis InsnSemantics ElfImage RowCheck FdeChecker.

Record ListedInsn := mkListed {
  li_pc : Z;
  li_size : Z;
  li_text : string;
  li_row : option CFIRow;
  li_row_starts_here : bool
}.

Record DiagnosticsOptions := mkDiag { context_before : Z; context_after : Z }.
Definition DiagnosticsOptions_default : DiagnosticsOptions := mkDiag 6 4.

(** ** Text *)

Definition FormatRowCompact (row : option CFIRow) : string :=
  match row with None => "<no CFI row>" | Some r => CFIRow_str r end.

Fixpoint str_join (sep : string) (parts : list string) : string :=
  match parts with
  | [] => ""
  | [p] => p
  | p :: parts => p +:+ sep +:+ str_join sep parts
  end.

(** The registers that do not hold their own entry value, then the slots in
    the btree's order. *)
Definition state_parts (s : AbsState) : list string :=
  omap (fun r => if IsOrigReg (reg s r) r then None
                 else Some (DWARFRegName r +:+ "=" +:+ AbsVal_str (reg s r))) (range0 kNumGPRs)
  ++ ((fun o => "[CFA" +:+ fmt_plus_d o +:+ "]=" +:+ AbsVal_str (Slot s o)) <$> slot_keys (slots s)).

Definition FormatStateCompact (s : AbsState) : string :=
  match state_parts s with [] => "(matches entry state)" | parts => str_join " " parts end.

(** [%-<w>s]. *)
Fixpoint spaces (n : nat) : string := match n with O => "" | S n => " " +:+ spaces n end.
Definition pad_right (w : nat) (s : string) : string := s +:+ spaces (w - String.length s).

(** ** The listing *)

Section Listing.
Context `{ZydisApi} (im : ELFImage) (cfi : CFI).

Definition list_decode (pc : Z) : option Instruction :=
  let bytes := BytesAt im pc (Z.min 16 (u64 (pc_end cfi - pc))) in
  if bool_decide (bytes = []) then None
  else insn ← Decode bytes pc;
       if pc_end cfi <? u64 (pc + in_size insn) then None else Some insn.

Definition list_one (pc : Z) (insn : Instruction) : ListedInsn :=
  let row := row_at cfi pc in
  mkListed pc (in_size insn)
    (match Text insn with
     | inr text => text
     | inl _ => "<cannot format instruction at 0x" +:+ fmt_x pc +:+ ">"
     end)
    row (match row with Some r => pc_start r =? pc | None => false end).

Fixpoint list_loop (fuel : nat) (pc : Z) : list ListedInsn :=
  match fuel with
  | O => []
  | S fuel =>
      if pc <? pc_end cfi then
        match list_decode pc with
        | None => []
        | Some insn => list_one pc insn :: list_loop fuel (u64 (pc + in_size insn))
        end
      else []
  end.

(** Every turn advances, so the length of the range is fuel enough. *)
Definition ListInstructions : list ListedInsn :=
  list_loop (Z.to_nat (pc_end cfi - pc_begin cfi)) (pc_begin cfi).
End Listing.

(** -1 is [None]. *)
Definition FindListedInsn (listing : list ListedInsn) (pc : Z) : option nat :=
  let i := partition_point (fun li => negb (li_pc li <? pc)) listing in
  match listing !! i with
  | Some li => if li_pc li =? pc then Some i else None
  | None => None
  end.

(** ** The context window *)

Definition window (listing : list ListedInsn) (idx : nat) (opts : DiagnosticsOptions) : list Z :=
  let lo := Z.max 0 (Z.of_nat idx - context_before opts) in
  let hi := Z.min (Z.of_nat (length listing) - 1) (Z.of_nat idx + context_after opts) in
  seqZ lo (hi - lo + 1).

Definition context_line (is_finding : bool) (li : ListedInsn) : string :=
  "      " +:+ (if is_finding then "->" else "  ") +:+ " 0x" +:+ pad_right 10 (fmt_x (li_pc li))
    +:+ "  " +:+ pad_right 28 (li_text li) +:+ "  " +:+ FormatRowCompact (li_row li).

(** The lines appended; [None] is the result [false]. *)
Definition AppendFindingContext (listing : list ListedInsn) (pc : Z) (opts : DiagnosticsOptions) :
    option (list string) :=
  idx ← FindListedInsn listing pc;
  Some (omap (fun i => li ← listing !! Z.to_nat i;
                       Some (context_line (i =? Z.of_nat idx) li)) (window listing idx opts)).
