(* ===== verification/DiagnosticsFacts.v ===== *)
(** * Theorems about the listing and the context of a finding

    [ListInstructions_exact]: the listing is the sequence of the
    instructions the checker decodes, from the start of the FDE to its end
    or to the first bytes that cannot be decoded.
    [AppendFindingContext_shows]: the context of a finding is the slice of
    the listing around the instruction at its address. *)

From stdpp Require Import gmap strings sorting.
From S2P Require Import Prelude CfiTable AbsState Zydis InsnSemantics ElfImage RowCheck FdeChecker CheckerFacts Diagnostics.

(** ** The listing *)

Section Listing.
Context `{ZydisLaws} (im : ELFImage) (cfi : CFI).

(** The instruction the checker sees at an address: [decode_at] of
    [FdeChecker] on this image. *)
Definition insn_at (pc : Z) : option Instruction :=
  Decode (BytesAt im pc (Z.min 16 (pc_end cfi - pc))) pc.

(** The listing an FDE should have from an address on. *)
Inductive listing_from : Z → list ListedInsn → Prop :=
  | lf_end : listing_from (pc_end cfi) []
  | lf_stop pc : pc < pc_end cfi → insn_at pc = None → listing_from pc []
  | lf_insn pc insn l :
      pc < pc_end cfi → insn_at pc = Some insn → 1 <= in_size insn → pc + in_size insn <= pc_end cfi →
      listing_from (pc + in_size insn) l → listing_from pc (list_one cfi pc insn :: l).

(** The two extra tests of the loop never decide anything. *)
Lemma list_decode_insn_at pc :
  is_u64 (pc_end cfi) → 0 <= pc < pc_end cfi → list_decode im cfi pc = insn_at pc.
Proof.
  intros He Hpc. unfold list_decode, insn_at.
  rewrite (u64_id (pc_end cfi - pc)) by (unfold is_u64 in *; lia).
  set (bytes := BytesAt _ _ _). assert (Z.of_nat (length bytes) <= pc_end cfi - pc) as Hl
    by (unfold bytes; pose proof (BytesAt_length im pc (Z.min 16 (pc_end cfi - pc)) ltac:(lia)); lia).
  destruct (Decode bytes pc) as [insn|] eqn:E; cbn; [|by case_bool_decide].
  pose proof (Decode_size _ _ _ E) as Hs. rewrite bool_decide_false by (intros ->; cbn in *; lia).
  rewrite u64_id by (unfold is_u64 in *; lia). by destruct (Z.ltb_spec (pc_end cfi) (pc + in_size insn)); [lia|].
Qed.

Lemma insn_at_size pc insn :
  pc < pc_end cfi → insn_at pc = Some insn → 1 <= in_size insn ∧ pc + in_size insn <= pc_end cfi.
Proof.
  intros Hpc Hd. apply Decode_size in Hd.
  pose proof (BytesAt_length im pc (Z.min 16 (pc_end cfi - pc)) ltac:(lia)). lia.
Qed.

Lemma list_loop_listing fuel pc :
  is_u64 (pc_end cfi) → 0 <= pc <= pc_end cfi → pc_end cfi - pc <= Z.of_nat fuel →
  listing_from pc (list_loop im cfi fuel pc).
Proof.
  intros He. revert pc. induction fuel as [|fuel IH]; intros pc Hpc Hf; cbn [list_loop].
  { replace pc with (pc_end cfi) by lia. constructor. }
  destruct (Z.ltb_spec pc (pc_end cfi)) as [Hlt|]; [|replace pc with (pc_end cfi) by lia; constructor].
  rewrite list_decode_insn_at by (done || lia). destruct (insn_at pc) as [insn|] eqn:E; [|by constructor].
  destruct (insn_at_size _ _ Hlt E). rewrite u64_id by (unfold is_u64 in *; lia).
  econstructor; [done..|]. apply IH; lia.
Qed.

Lemma listing_head_le pc l : listing_from pc l → Forall (fun li => pc <= li_pc li) l.
Proof.
  induction 1 as [| |pc insn l Hlt Hd Hs Hin Hl IH]; [constructor..|]. constructor; [cbn; lia|].
  eapply Forall_impl; [exact IH|]. cbn. lia.
Qed.

Lemma listing_ascending pc l : listing_from pc l → StronglySorted (fun a b => li_pc a < li_pc b) l.
Proof.
  induction 1 as [| |pc insn l Hlt Hd Hs Hin Hl IH]; [constructor..|]. constructor; [done|].
  apply listing_head_le in Hl. eapply Forall_impl; [exact Hl|]. cbn. lia.
Qed.

Lemma listing_elem pc l li :
  listing_from pc l → li ∈ l →
  ∃ insn, insn_at (li_pc li) = Some insn ∧ li = list_one cfi (li_pc li) insn
          ∧ pc <= li_pc li ∧ li_pc li + li_size li <= pc_end cfi.
Proof.
  induction 1 as [| |pc insn l Hlt Hd Hs Hin Hl IH]; intros Hi; [by apply elem_of_nil in Hi..|].
  apply elem_of_cons in Hi as [->|Hi].
  - exists insn. cbn. split_and!; done || lia.
  - destruct (IH Hi) as (i & ? & ? & ? & ?). exists i. split_and!; done || lia.
Qed.
End Listing.

Definition good_range (cfi : CFI) : Prop :=
  0 <= pc_begin cfi <= pc_end cfi ∧ is_u64 (pc_end cfi).

Lemma ListInstructions_from `{ZydisLaws} im cfi :
  good_range cfi → listing_from im cfi (pc_begin cfi) (ListInstructions im cfi).
Proof. intros [Hr He]. apply list_loop_listing; [done|lia|lia]. Qed.

(** C39: [ListInstructions] lists, from the start of the FDE on and without a
    gap, the instructions the checker itself decodes there, each with its
    size, its text and the CFI row of its address; the listing ends at the
    end of the FDE or before the first address the checker cannot decode,
    and nothing in it reaches beyond the FDE. *)
Theorem ListInstructions_exact `{ZydisLaws} im cfi :
  good_range cfi →
  listing_from im cfi (pc_begin cfi) (ListInstructions im cfi)
  ∧ (∀ opts pc, o_image opts = im → pc_begin cfi <= pc < pc_end cfi → insn_at im cfi pc = decode_at opts cfi pc)
  ∧ ∀ li, li ∈ ListInstructions im cfi →
      pc_begin cfi <= li_pc li ∧ li_pc li + li_size li <= pc_end cfi
      ∧ li_row li = row_at cfi (li_pc li)
      ∧ (li_row_starts_here li = true ↔ ∃ row, li_row li = Some row ∧ pc_start row = li_pc li).
Proof.
  intros Hr. pose proof (ListInstructions_from im cfi Hr) as Hl. destruct Hr as [Hr He]. split_and!; [done| |].
  - intros opts pc <- Hpc. unfold insn_at, decode_at. by rewrite u64_id by (unfold is_u64 in *; lia).
  - intros li Hi. destruct (listing_elem _ _ _ _ _ Hl Hi) as (insn & _ & -> & ? & ?).
    split_and!; [done..|]. unfold list_one. cbn. destruct (row_at cfi (li_pc li)) as [row|]; [|naive_solver].
    rewrite Z.eqb_eq. naive_solver.
Qed.

(** ** The search *)

Lemma sorted_lookup {A} (R : A → A → Prop) l i j a b :
  StronglySorted R l → (i < j)%nat → l !! i = Some a → l !! j = Some b → R a b.
Proof.
  intros Hl. revert i j. induction Hl as [|x l Hl IH Hx]; intros i j Hij Ha Hb; [done|].
  destruct j as [|j]; [lia|]. destruct i as [|i]; cbn in *.
  - injection Ha as <-. rewrite Forall_forall in Hx. by eapply Hx, list_elem_of_lookup_2.
  - eapply IH; [|done..]. lia.
Qed.

Lemma FindListedInsn_spec listing pc i :
  StronglySorted (fun a b => li_pc a < li_pc b) listing →
  FindListedInsn listing pc = Some i ↔ ∃ li, listing !! i = Some li ∧ li_pc li = pc.
Proof.
  intros Hs. unfold FindListedInsn. set (p := fun li => negb (li_pc li <? pc)).
  pose proof (partition_point_spec p listing) as Hpp. set (k := partition_point p listing) in *. split.
  - destruct (listing !! k) as [li|] eqn:E; [|done]. destruct (Z.eqb_spec (li_pc li) pc); [|done].
    intros [= <-]. by exists li.
  - intros (li & Hi & Hpc).
    assert (∀ a b x y, (a ≤ b)%nat → listing !! a = Some x → listing !! b = Some y → p x → p y) as Hmono.
    { intros a b x y Hab Hx Hy Hpx%Is_true_true. apply Is_true_true. unfold p in *.
      destruct (decide (a = b)) as [->|]; [by assert (y = x) as -> by congruence|].
      pose proof (sorted_lookup _ _ a b x y Hs ltac:(lia) Hx Hy). cbn in *. lia. }
    specialize (Hpp Hmono). assert (k = i) as ->; [|by rewrite Hi, (proj2 (Z.eqb_eq _ _) Hpc)].
    pose proof (Hpp _ _ Hi) as Hk. unfold p in Hk. rewrite Hpc, Z.ltb_irrefl in Hk. cbn in Hk.
    symmetry in Hk. apply bool_decide_eq_true in Hk.
    destruct (lookup_lt_is_Some_2 listing k) as [x Hx]; [apply lookup_lt_Some in Hi; lia|].
    destruct (decide (k = i)) as [|Hne]; [done|].
    pose proof (sorted_lookup _ _ k i x li Hs ltac:(lia) Hx Hi) as Hlt. cbn in Hlt.
    pose proof (Hpp _ _ Hx) as Hkk. rewrite bool_decide_eq_true_2 in Hkk by lia. unfold p in Hkk. lia.
Qed.

(** ** The context *)

(** A part of the loop over the window in which every line is made alike. *)
Lemma slice_lines {A B} (f : Z → A → B) (g : A → B) l lo n :
  0 <= lo → (∀ i x, lo <= i < lo + Z.of_nat n → f i x = g x) →
  omap (fun i => x ← l !! Z.to_nat i; Some (f i x)) (seqZ lo (Z.of_nat n)) = g <$> take n (drop (Z.to_nat lo) l).
Proof.
  revert lo. induction n as [|n IH]; intros lo Hlo Hf; [done|].
  rewrite seqZ_cons by lia. replace (Z.pred (Z.of_nat (S n))) with (Z.of_nat n) by lia. cbn [omap list_omap].
  rewrite IH by (try intros; try apply Hf; lia). rewrite Z2Nat.inj_succ by done.
  destruct (l !! Z.to_nat lo) as [x|] eqn:E; cbn.
  - rewrite (drop_S _ _ _ E). cbn. by rewrite Hf by lia.
  - apply lookup_ge_None in E. by rewrite !drop_ge, take_nil by lia.
Qed.

(** The last [n] of a list. *)
Definition last_n {A} (n : nat) (l : list A) : list A := drop (length l - n) l.

Lemma window_lines before after pre li post :
  omap (fun i => x ← (pre ++ li :: post) !! Z.to_nat i; Some (context_line (i =? Z.of_nat (length pre)) x))
    (window (pre ++ li :: post) (length pre) (mkDiag (Z.of_nat before) (Z.of_nat after)))
  = (context_line false <$> last_n before pre) ++ context_line true li :: (context_line false <$> take after post).
Proof.
  unfold window. cbn [context_before context_after]. rewrite length_app. cbn [length].
  set (lo := Z.max 0 (Z.of_nat (length pre) - Z.of_nat before)).
  set (n1 := Nat.min before (length pre)). set (n2 := Nat.min after (length post)).
  replace (Z.min _ _ - lo + 1) with (Z.of_nat n1 + (Z.of_nat 1 + Z.of_nat n2)) by lia.
  rewrite !seqZ_app, !omap_app by lia.
  f_equal; [|apply (f_equal2 app (y1 := [context_line true li]))].
  - rewrite (slice_lines _ (context_line false)) by (try intros i x Hi; try (f_equal; apply Z.eqb_neq); lia).
    unfold last_n. rewrite take_drop_commute. replace (Z.to_nat lo + n1)%nat with (length pre) by lia.
    rewrite take_app_length. do 2 f_equal. lia.
  - rewrite (slice_lines _ (context_line true)) by (try intros i x Hi; try (f_equal; apply Z.eqb_eq); lia).
    replace (Z.to_nat (lo + Z.of_nat n1)) with (length pre) by lia. by rewrite drop_app_length.
  - rewrite (slice_lines _ (context_line false)) by (try intros i x Hi; try (f_equal; apply Z.eqb_neq); lia).
    replace (Z.to_nat (lo + Z.of_nat n1 + Z.of_nat 1)) with (length (pre ++ [li])) by (rewrite length_app; cbn; lia).
    rewrite (app_assoc pre [li] post : pre ++ li :: post = _), drop_app_length. unfold n2.
    f_equal. destruct (Nat.le_ge_cases after (length post)); [by rewrite Nat.min_l by done|].
    by rewrite Nat.min_r, !take_ge by lia.
Qed.

(** C40: the context of a finding: nothing when no listed instruction starts
    at its address; otherwise, around the one that does, up to
    [context_before] listed instructions before it and [context_after] after
    it, in order, and its line alone carries the arrow. *)
Theorem AppendFindingContext_shows `{ZydisLaws} im cfi pc before after :
  good_range cfi →
  let listing := ListInstructions im cfi in
  match AppendFindingContext listing pc (mkDiag (Z.of_nat before) (Z.of_nat after)) with
  | None => ∀ li, li ∈ listing → li_pc li ≠ pc
  | Some lines => ∃ pre li post, listing = pre ++ li :: post ∧ li_pc li = pc
      ∧ lines = (context_line false <$> last_n before pre) ++ context_line true li
                  :: (context_line false <$> take after post)
  end.
Proof.
  intros Hr. cbv zeta. pose proof (listing_ascending _ _ _ _ (ListInstructions_from im cfi Hr)) as Hs.
  unfold AppendFindingContext. destruct (FindListedInsn _ pc) as [i|] eqn:E; cbn [mbind option_bind].
  - apply (FindListedInsn_spec _ _ _ Hs) in E as (li & Hi & Hpc).
    exists (take i (ListInstructions im cfi)), li, (drop (S i) (ListInstructions im cfi)).
    pose proof (take_drop_middle _ _ _ Hi) as El. split_and!; [done..|].
    assert (i = length (take i (ListInstructions im cfi))) as Hlen
      by (rewrite length_take_le; [done|apply lookup_lt_Some in Hi; lia]).
    rewrite <- window_lines. rewrite El, <- Hlen. done.
  - intros li [i Hi]%list_elem_of_lookup Hpc.
    assert (FindListedInsn (ListInstructions im cfi) pc = Some i) by (apply FindListedInsn_spec; eauto).
    congruence.
Qed.

(** ** The listing of a small FDE *)

From S2P Require Import ZydisSample Sample.

Example sample_listing :
  (fun li => (li_pc li, li_size li, li_row_starts_here li)) <$> ListInstructions sample_image sample_fde
  = [(0x1000, 1, true); (0x1001, 3, true); (0x1004, 1, true); (0x1005, 1, true)].
Proof. vm_compute. reflexivity. Qed.

Lemma sample_range : good_range sample_fde.
Proof. unfold good_range, is_u64. cbn. lia. Qed.

Lemma ListInstructions_exact_witness :
  length (ListInstructions sample_image sample_fde) = 4%nat ∧
  listing_from sample_image sample_fde 0x1000 (ListInstructions sample_image sample_fde).
Proof.
  split; [vm_compute; reflexivity|].
  exact (proj1 (ListInstructions_exact sample_image sample_fde sample_range)).
Defined.

Lemma AppendFindingContext_shows_witness :
  let listing := ListInstructions sample_image sample_fde in
  match AppendFindingContext listing 0x1004 (mkDiag (Z.of_nat 1) (Z.of_nat 4)) with
  | None => ∀ li, li ∈ listing → li_pc li ≠ 0x1004
  | Some lines => ∃ pre li post, listing = pre ++ li :: post ∧ li_pc li = 0x1004
      ∧ lines = (context_line false <$> last_n 1 pre) ++ context_line true li :: (context_line false <$> take 4 post)
  end.
Proof. exact (AppendFindingContext_shows sample_image sample_fde 0x1004 1 4 sample_range). Defined.
Example sample_context :
  (fun lines => (length lines, nth 1 lines "")) <$>
    AppendFindingContext (ListInstructions sample_image sample_fde) 0x1004 (mkDiag 1 4)
  = Some (3%nat, "      -> 0x1004        insn                          cfa=rbp+16 rbp=[CFA-16] ra=[CFA-8]").
Proof. vm_compute. reflexivity. Qed.
