(* ===== verification/Symbolizer.v ===== *)
(** * Names and source lines

    Models [src/symbolizer.h] and [src/symbolizer.cc].  The environment is a
    few parameters: which paths [access] calls executable, [PATH], the C++
    demangler, and what an [addr2line] started with some arguments writes to
    its standard output.  Child processes go through the interface
    [Spawner].  [Prepare_pairs] is what a report relies on: each address gets
    the answer that was given for it. *)

From stdpp Require Import gmap sorting strings.
From S2P Require Import Prelude ElfImage Subprocess.

(** ** Strings *)

Definition c_nl : Ascii.ascii := Ascii.ascii_of_nat 10.
Definition c_nul : Ascii.ascii := Ascii.ascii_of_nat 0.
Definition c_slash : Ascii.ascii := Ascii.ascii_of_nat 47.
Definition c_colon : Ascii.ascii := Ascii.ascii_of_nat 58.
Definition nl : string := String c_nl "".

(** [absl::ascii_isspace]: blank, or 9 to 13. *)
Definition is_space (c : Ascii.ascii) : bool :=
  let n := Ascii.nat_of_ascii c in (n =? 32)%nat || ((9 <=? n) && (n <=? 13))%nat.
Fixpoint strip_left (s : string) : string :=
  match s with String c r => if is_space c then strip_left r else s | EmptyString => "" end.
Fixpoint strip_right (s : string) : string :=
  match s with
  | String c r => let r := strip_right r in
                  if bool_decide (r = "") && is_space c then "" else String c r
  | EmptyString => ""
  end.
Definition StripAsciiWhitespace (s : string) : string := strip_left (strip_right s).

(** A [char] array as a C string: up to the first NUL. *)
Fixpoint c_string (s : string) : string :=
  match s with
  | String c r => if bool_decide (c = c_nul) then "" else String c (c_string r)
  | EmptyString => ""
  end.

(** [fgets] on what is left of a stream: at most [n] characters, up to and
    with a newline; [None] at the end of the file. *)
Fixpoint fgets_go (n : nat) (s : string) : string * string :=
  match n, s with
  | S n, String c r =>
      if bool_decide (c = c_nl) then (nl, r)
      else let '(line, rest) := fgets_go n r in (String c line, rest)
  | _, _ => ("", s)
  end.
Definition fgets (size : nat) (s : string) : option (string * string) :=
  match s with EmptyString => None | _ => Some (fgets_go (size - 1) s) end.

Fixpoint contains_char (c : Ascii.ascii) (s : string) : bool :=
  match s with String d r => bool_decide (d = c) || contains_char c r | EmptyString => false end.
(** [absl::StrSplit(s, c)]. *)
Fixpoint StrSplit (c : Ascii.ascii) (s : string) : list string :=
  match s with
  | EmptyString => [""]
  | String d r =>
      if bool_decide (d = c) then "" :: StrSplit c r
      else match StrSplit c r with piece :: pieces => String d piece :: pieces | [] => [String d ""] end
  end.

(** The bytes of a symbol name. *)
Definition string_of_bytes (l : list Z) : string := String.concat "" (fmt_c <$> l).

(** ** State *)

(** The mode with the path [--addr2line] gave. *)
Inductive Addr2LineMode := kAuto | kOff | kExplicit (tool_path : string).

Record Symbolizer := mkSymbolizer {
  tool_path_ : string;
  use_addr2line : bool;
  disabled_reason : string;
  source_lines : gmap Z string;
  debug_names : gmap Z string;
  queried : gset Z
}.

Definition kBatchSize : nat := Z.to_nat 4096.
Definition line_size : nat := Z.to_nat 4096.

Section Symbolizer.
Context `{Spawner} (im : ELFImage).
Context (executable : string → bool) (PATH : option string).
Context (cxa_demangle : string → option string).
Context (child_output : list string → string).

(** ** Construction *)

Definition ToolExists (tool : string) : bool :=
  if contains_char c_slash tool then executable tool
  else match PATH with
  | None => false
  | Some path =>
      existsb (fun dir => negb (bool_decide (dir = "")) && executable (dir +:+ "/" +:+ tool))
              (StrSplit c_colon path)
  end.

Definition PickToolPath (mode : Addr2LineMode) : string :=
  let tool_path := match mode with kExplicit path => path | _ => "" end in
  if negb (bool_decide (tool_path = "")) then tool_path
  else match mode with
  | kAuto => if negb (ToolExists "llvm-addr2line") && ToolExists "addr2line"
             then "addr2line" else "llvm-addr2line"
  | _ => "llvm-addr2line"
  end.

Definition make_symbolizer (mode : Addr2LineMode) : Symbolizer :=
  let tool := PickToolPath mode in
  let make use reason := mkSymbolizer tool use reason ∅ ∅ ∅ in
  match mode with
  | kOff => make false ""
  | kAuto =>
      if negb (has_debug_info im) then make false ""
      else if negb (ToolExists tool) then make false (tool +:+ " is not on PATH")
      else make true ""
  | kExplicit _ =>
      if negb (ToolExists tool) then make false (tool +:+ " is not executable") else make true ""
  end.

(** ** Lookups *)

Definition Demangle (name : string) : string := default name (cxa_demangle name).
Definition DebugName (st : Symbolizer) (vaddr : Z) : string := default "" (debug_names st !! vaddr).
Definition SourceLine (st : Symbolizer) (vaddr : Z) : string := default "" (source_lines st !! vaddr).

(** The symbol accepted for an address: the last one not above it, if the
    address is inside it, or at it when it has no size. *)
Definition accepted_symbol (vaddr : Z) : option FuncSymbol :=
  let syms := im_symbols im in
  let it := partition_point (fun s => vaddr <? sym_vaddr s) syms in
  if bool_decide (it = 0%nat) then None
  else
    s ← syms !! (it - 1)%nat;
    if (if sym_size s =? 0 then negb (sym_vaddr s =? vaddr)
        else sym_size s <=? u64 (vaddr - sym_vaddr s)) then None else Some s.

Definition Name (st : Symbolizer) (vaddr : Z) : string :=
  match accepted_symbol vaddr with
  | None => DebugName st vaddr
  | Some s =>
      let name := Demangle (string_of_bytes (sym_name s)) in
      if vaddr =? sym_vaddr s then name
      else name +:+ "+0x" +:+ fmt_x (u32 (vaddr - sym_vaddr s))
  end.

(** ** [Prepare] *)

(** The addresses not asked for before, each once, in order. *)
Definition collect (acc : gset Z * list Z) (a : Z) : gset Z * list Z :=
  if bool_decide (a ∈ acc.1) then acc else ({[a]} ∪ acc.1, acc.2 ++ [a]).
(** [std::unique]. *)
Fixpoint unique_addresses (l : list Z) : list Z :=
  match l with
  | a :: ((b :: _) as l') => if a =? b then unique_addresses l' else a :: unique_addresses l'
  | _ => l
  end.

(** The steps of [for (start = 0; start < size; start += kBatchSize)]. *)
Fixpoint batches (fuel : nat) (l : list Z) : list (list Z) :=
  match fuel, l with
  | S fuel, _ :: _ => take kBatchSize l :: batches fuel (drop kBatchSize l)
  | _, _ => []
  end.

Definition batch_argv (tool : string) (batch : list Z) : list string :=
  [tool; "-f"; "-C"; "-e"; im_path im] ++ ((fun a => "0x" +:+ fmt_x a) <$> batch).

(** One field: the line without surrounding blanks, nothing for a ["??"]. *)
Definition field_of (line : string) : string :=
  let text := StripAsciiWhitespace (c_string line) in
  if bool_decide (text = "") || String.prefix "??" text then "" else text.
Definition read_field (out : string) : option (string * string) :=
  '(line, out) ← fgets line_size out; Some (field_of line, out).

Definition emplace (a : Z) (v : string) (m : gmap Z string) : gmap Z string :=
  match m !! a with Some _ => m | None => <[a := v]> m end.
(** What one address's two fields add to [source_lines_] and [debug_names_]. *)
Definition record_fields (a : Z) (name loc : string) (m : gmap Z string * gmap Z string) :
    gmap Z string * gmap Z string :=
  if bool_decide (loc = "") then m
  else (emplace a loc m.1, if bool_decide (name = "") then m.2 else emplace a name m.2).

(** The loop over a batch, which ends early when the output does. *)
Fixpoint read_batch (batch : list Z) (out : string) (m : gmap Z string * gmap Z string) :
    gmap Z string * gmap Z string :=
  match batch with
  | [] => m
  | a :: batch =>
      match '(name, out) ← read_field out; '(loc, out) ← read_field out; Some (name, loc, out) with
      | None => m
      | Some (name, loc, out) => read_batch batch out (record_fields a name loc m)
      end
  end.

Definition with_maps (m : gmap Z string * gmap Z string) (st : Symbolizer) : Symbolizer :=
  mkSymbolizer (tool_path_ st) (use_addr2line st) (disabled_reason st) m.1 m.2 (queried st).
Definition drop_tool (st : Symbolizer) : Symbolizer :=
  mkSymbolizer (tool_path_ st) false "could not run addr2line" (source_lines st) (debug_names st) (queried st).
Definition with_queried (q : gset Z) (st : Symbolizer) : Symbolizer :=
  mkSymbolizer (tool_path_ st) (use_addr2line st) (disabled_reason st) (source_lines st) (debug_names st) q.

(** [fclose] closes the descriptor of the pipe.  [WaitForProcess] is called
    for its effect on the child, which [Proc] does not record. *)
Fixpoint run_batches (bs : list (list Z)) (st : Symbolizer) (p : Proc) : Symbolizer * Proc :=
  match bs with
  | [] => (st, p)
  | batch :: bs =>
      let argv := batch_argv (tool_path_ st) batch in
      match spawn argv (mkSpawnOptions false true true) p with
      | (inl _, p) => (drop_tool st, p)
      | (inr sp, p) =>
          let m := read_batch batch (child_output argv) (source_lines st, debug_names st) in
          run_batches bs (with_maps m st) (close (sp_stdout_fd sp) p)
      end
  end.

Definition Prepare (addresses : list Z) (st : Symbolizer) (p : Proc) : Symbolizer * Proc :=
  if negb (use_addr2line st) || bool_decide (addresses = []) then (st, p)
  else
    let '(q, pending) := foldl collect (queried st, []) addresses in
    let pending := unique_addresses (merge_sort Z.le pending) in
    run_batches (batches (length pending) pending) (with_queried q st) p.
End Symbolizer.
