(* ===== verification/SymbolizerFacts.v ===== *)
(** * What the symbolizer answers

    [Prepare_pairs]: a batch of addresses gets, address by address, the
    answers [addr2line] gave for them, and no descriptor leaks.
    [Prepare_again]: asking twice changes nothing.  [Name_spec]: the name is
    that of the symbol the address lies in.  [long_name_shifts_answers]: a
    name longer than the line buffer misattributes the rest of its batch. *)

From stdpp Require Import gmap sorting strings.
From S2P Require Import Prelude ElfImage ElfImageFacts Subprocess Symbolizer.

(** ** Lines *)

Lemma str_app_assoc (a b c : string) : (a +:+ b) +:+ c = a +:+ b +:+ c.
Proof. induction a as [|x a IH]; [done|]. exact (f_equal (String x) IH). Qed.

Definition plain_char (c : Ascii.ascii) : bool :=
  negb (bool_decide (c = c_nl)) && negb (bool_decide (c = c_nul)).
Fixpoint plain (s : string) : bool :=
  match s with String c r => plain_char c && plain r | EmptyString => true end.

(** A field that [addr2line] prints on a line of its own and that fits the
    line buffer. *)
Definition field_ok (f : string) : Prop :=
  plain f = true ∧ StripAsciiWhitespace f = f ∧ (String.length f < line_size - 1)%nat.

(** What is kept of a field. *)
Definition shown (f : string) : string :=
  if bool_decide (f = "") || String.prefix "??" f then "" else f.

Lemma strip_right_cons c r :
  strip_right (String c r) = if bool_decide (strip_right r = "") && is_space c then "" else String c (strip_right r).
Proof. done. Qed.

Lemma strip_right_nl f : strip_right (f +:+ nl) = strip_right f.
Proof.
  induction f as [|c f IH]; [done|].
  change (String c f +:+ nl) with (String c (f +:+ nl)). rewrite !strip_right_cons. by rewrite IH.
Qed.

Lemma strip_nl f : StripAsciiWhitespace (f +:+ nl) = StripAsciiWhitespace f.
Proof. unfold StripAsciiWhitespace. by rewrite strip_right_nl. Qed.

Lemma plain_cons c r : plain (String c r) = true ↔ c ≠ c_nl ∧ c ≠ c_nul ∧ plain r = true.
Proof.
  change (plain (String c r)) with (plain_char c && plain r). unfold plain_char.
  rewrite !andb_true_iff, !negb_true_iff, !bool_decide_eq_false. tauto.
Qed.

Lemma c_string_cons c r : c ≠ c_nul → c_string (String c r) = String c (c_string r).
Proof.
  intros Hc. change (c_string (String c r)) with (if bool_decide (c = c_nul) then "" else String c (c_string r)).
  by rewrite bool_decide_false.
Qed.
Lemma fgets_go_cons n c r :
  c ≠ c_nl → fgets_go (S n) (String c r) = (String c (fgets_go n r).1, (fgets_go n r).2).
Proof.
  intros Hc. change (fgets_go (S n) (String c r)) with
    (if bool_decide (c = c_nl) then (nl, r)
     else let '(line, rest) := fgets_go n r in (String c line, rest)).
  rewrite bool_decide_false by done. by destruct (fgets_go n r).
Qed.

Lemma c_string_plain f : plain f = true → c_string (f +:+ nl) = f +:+ nl.
Proof.
  induction f as [|c f IH]; [done|]. intros (_ & Hc & Hf)%plain_cons.
  change (String c f +:+ nl) with (String c (f +:+ nl)). by rewrite c_string_cons, IH.
Qed.

Lemma fgets_go_line n f rest :
  plain f = true → (String.length f < n)%nat → fgets_go n (f +:+ nl +:+ rest) = (f +:+ nl, rest).
Proof.
  revert n. induction f as [|c f IH]; intros [|n] Hf Hn; cbn in Hn; try lia; [done|].
  apply plain_cons in Hf as (Hc & _ & Hf).
  change (String c f +:+ nl +:+ rest) with (String c (f +:+ nl +:+ rest)).
  rewrite fgets_go_cons, IH by (done || lia). done.
Qed.

Lemma read_field_ok f rest : field_ok f → read_field (f +:+ nl +:+ rest) = Some (shown f, rest).
Proof.
  intros (Hp & Hs & Hl). unfold read_field, fgets.
  destruct (f +:+ nl +:+ rest) as [|c r] eqn:E; [by destruct f|]. rewrite <- E.
  rewrite fgets_go_line by done. cbn. unfold field_of, shown.
  rewrite c_string_plain, strip_nl, Hs by done. done.
Qed.

(** ** Lists of addresses *)

Lemma unique_nodup l : NoDup l → unique_addresses l = l.
Proof.
  induction l as [|a l IH]; [done|]. intros [Ha Hl]%NoDup_cons. destruct l as [|b l]; [done|].
  change (unique_addresses (a :: b :: l)) with (if a =? b then unique_addresses (b :: l) else a :: unique_addresses (b :: l)).
  rewrite (proj2 (Z.eqb_neq a b)), IH; [done..|]. set_solver.
Qed.

Lemma concat_batches fuel l : (length l ≤ fuel)%nat → concat (batches fuel l) = l.
Proof.
  revert l. induction fuel as [|fuel IH]; intros [|a l] Hl; cbn [batches concat]; try done; [cbn in Hl; lia|].
  rewrite IH; [by rewrite take_drop|]. rewrite length_drop. cbn in *.
  assert (0 < kBatchSize)%nat by (unfold kBatchSize; lia). lia.
Qed.

(** What [collect] has gathered when it is done. *)
Definition collected (q0 : gset Z) (addresses : list Z) (acc : gset Z * list Z) : Prop :=
  acc.1 = q0 ∪ list_to_set addresses ∧ NoDup acc.2 ∧ ∀ a, a ∈ acc.2 ↔ a ∈ addresses ∧ a ∉ q0.

Lemma foldl_collect q0 addresses : collected q0 addresses (foldl collect (q0, []) addresses).
Proof.
  induction addresses as [|a l IH] using rev_ind.
  - split_and!; cbn; [set_solver|constructor|set_solver].
  - rewrite foldl_app. cbn. destruct (foldl collect (q0, []) l) as [q p].
    destruct IH as (Hq & Hd & Hp). cbn [fst snd] in Hq, Hd, Hp. subst q. unfold collect. cbn [fst snd]. case_bool_decide as Ha.
    + split_and!; cbn; [set_solver|done|intros b; rewrite Hp; set_solver].
    + split_and!; cbn; [set_solver| |intros b; rewrite elem_of_app, Hp; set_solver].
      apply NoDup_app. split_and!; [done| |apply NoDup_singleton].
      intros b Hb. rewrite Hp in Hb. set_solver.
Qed.

(** ** What one batch adds *)

Section Answers.
Context (name loc : Z → string).

(** The two lines for an address, and what is kept of them. *)
Definition answer (a : Z) : string := name a +:+ nl +:+ loc a +:+ nl.
Definition answers (batch : list Z) : string := foldr (fun a s => answer a +:+ s) "" batch.
Definition record_answer (m : gmap Z string * gmap Z string) (a : Z) : gmap Z string * gmap Z string :=
  record_fields a (shown (name a)) (shown (loc a)) m.

Lemma read_batch_answers batch m :
  Forall (fun a => field_ok (name a) ∧ field_ok (loc a)) batch →
  read_batch batch (answers batch) m = foldl record_answer m batch.
Proof.
  intros Hf. revert m. induction Hf as [|a batch [Hn Hl] _ IH]; intros m; [done|].
  cbn [read_batch answers foldr]. unfold answer. rewrite !str_app_assoc.
  rewrite read_field_ok by done. cbn [mbind option_bind]. rewrite read_field_ok by done.
  cbn [mbind option_bind]. apply IH.
Qed.

Lemma lookup_emplace a v m b :
  emplace a v m !! b = if bool_decide (a = b) then Some (default v (m !! b)) else m !! b.
Proof.
  unfold emplace. case_bool_decide as Hab; [subst b|].
  - destruct (m !! a) eqn:E; [by rewrite E|]. by simplify_map_eq.
  - destruct (m !! a); [done|]. by rewrite lookup_insert_ne.
Qed.

Lemma record_answer_other m a b :
  a ≠ b → (record_answer m a).1 !! b = m.1 !! b ∧ (record_answer m a).2 !! b = m.2 !! b.
Proof.
  intros Hab. unfold record_answer, record_fields. repeat case_bool_decide; cbn; try done;
    rewrite !lookup_emplace, !bool_decide_false by done; done.
Qed.

Lemma foldl_record_other l m b :
  b ∉ l → (foldl record_answer m l).1 !! b = m.1 !! b ∧ (foldl record_answer m l).2 !! b = m.2 !! b.
Proof.
  revert m. induction l as [|a l IH]; intros m Hb; [done|]. cbn.
  rewrite not_elem_of_cons in Hb. destruct Hb as [Hb Hl].
  destruct (IH (record_answer m a) Hl) as [-> ->]. by apply record_answer_other.
Qed.

(** The name is kept only with a source line. *)
Definition kept_line (a : Z) : string := shown (loc a).
Definition kept_name (a : Z) : string := if bool_decide (shown (loc a) = "") then "" else shown (name a).

Lemma foldl_record l m b :
  NoDup l → b ∈ l → m.1 !! b = None → m.2 !! b = None →
  default "" ((foldl record_answer m l).1 !! b) = kept_line b
  ∧ default "" ((foldl record_answer m l).2 !! b) = kept_name b.
Proof.
  intros Hd Hb H1 H2. revert m H1 H2. induction Hd as [|a l Ha Hd IH]; intros m H1 H2; [set_solver|].
  cbn. apply elem_of_cons in Hb as [->|Hb].
  - destruct (foldl_record_other l (record_answer m a) a Ha) as [-> ->].
    unfold record_answer, record_fields, kept_line, kept_name.
    repeat case_bool_decide; cbn [fst snd]; rewrite ?lookup_emplace, ?bool_decide_true, ?H1, ?H2 by done;
      split; cbn; congruence.
  - assert (a ≠ b) by congruence. destruct (record_answer_other m a b) as [E1 E2]; [done|].
    apply IH; [done|by rewrite E1|by rewrite E2].
Qed.
End Answers.

(** ** [Prepare] *)

(** Answers are only kept for addresses that were asked for. *)
Definition maps_queried (st : Symbolizer) : Prop :=
  ∀ a, a ∉ queried st → source_lines st !! a = None ∧ debug_names st !! a = None.

Section Prepare.
Context `{SpawnerSpec} (im : ELFImage) (child_output : list string → string).
Context (name loc : Z → string).

(** [addr2line -f] prints two lines for each address of its command line. *)
Definition answers_pairwise (batch : list Z) : Prop :=
  ∀ tool, child_output (batch_argv im tool batch) = answers name loc batch.

Lemma run_batches_spec bs st p :
  std_open (fds p) →
  Forall (fun batch => answers_pairwise batch
                       ∧ Forall (fun a => field_ok (name a) ∧ field_ok (loc a)) batch) bs →
  let r := run_batches im child_output bs st p in
  fds r.2 = fds p ∧ bad_close r.2 = bad_close p ∧ queried r.1 = queried st
  ∧ (use_addr2line r.1 = true →
     (source_lines r.1, debug_names r.1)
     = foldl (record_answer name loc) (source_lines st, debug_names st) (concat bs)).
Proof.
  intros Hstd Hf. revert st p Hstd. induction Hf as [|batch bs [Ha Hb] _ IH]; intros st p Hstd; [done|].
  cbn [run_batches concat]. set (argv := batch_argv im (tool_path_ st) batch).
  destruct (spawn argv _ p) as [[x|sp] p1] eqn:E.
  - cbn [fst snd]. by destruct (spawn_failed _ _ _ _ _ Hstd E) as [[-> ->] _].
  - destruct (spawn_close_stdout _ _ _ _ _ Hstd E) as [Hc1 Hc2]. set (m := read_batch _ _ _).
    destruct (IH (with_maps m st) (close (sp_stdout_fd sp) p1)) as (K1 & K2 & K3 & K4); [by rewrite Hc1|].
    rewrite K1, K2, K3. split_and!; [done..|]. intros Hu. rewrite K4 by done.
    rewrite foldl_app. cbn. unfold m, argv. rewrite Ha, read_batch_answers by done. by destruct (foldl _ _ batch).
Qed.

Definition pending_of (addresses : list Z) (st : Symbolizer) : list Z :=
  merge_sort Z.le (foldl collect (queried st, []) addresses).2.

Lemma pending_spec addresses st :
  NoDup (pending_of addresses st)
  ∧ ∀ a, a ∈ pending_of addresses st ↔ a ∈ addresses ∧ a ∉ queried st.
Proof.
  destruct (foldl_collect (queried st) addresses) as (_ & Hd & Hp). unfold pending_of.
  split; [by rewrite (merge_sort_Permutation Z.le)|]. intros a.
  by rewrite (merge_sort_Permutation Z.le).
Qed.

Lemma Prepare_unfold addresses st p :
  use_addr2line st = true → addresses ≠ [] →
  Prepare im child_output addresses st p =
  run_batches im child_output (batches (length (pending_of addresses st)) (pending_of addresses st))
    (with_queried (queried st ∪ list_to_set addresses) st) p.
Proof.
  intros Hu Ha. unfold Prepare. rewrite Hu, bool_decide_false by done. cbn [negb orb].
  pose proof (foldl_collect (queried st) addresses) as (Hq & _ & _).
  pose proof (proj1 (pending_spec addresses st)) as Hn. unfold pending_of in *.
  destruct (foldl collect _ addresses) as [q pending]. cbn [fst snd] in *. subst q.
  by rewrite unique_nodup.
Qed.

Lemma batches_subset fuel l batch : batch ∈ batches fuel l → batch ⊆ l.
Proof.
  revert l. induction fuel as [|fuel IH]; intros [|a l] Hb; cbn [batches] in Hb;
    try (by apply elem_of_nil in Hb).
  apply elem_of_cons in Hb as [->|Hb]; intros b.
  - apply subseteq_take.
  - intros Hin. eapply subseteq_drop, IH; done.
Qed.

(** The answers after [Prepare]: an address asked for the first time has its
    own, every other address what it had. *)
Definition answered (addresses : list Z) (st st' : Symbolizer) (a : Z) : Prop :=
  (a ∈ addresses → a ∉ queried st → SourceLine st' a = kept_line loc a ∧ DebugName st' a = kept_name name loc a)
  ∧ (a ∉ addresses ∨ a ∈ queried st → SourceLine st' a = SourceLine st a ∧ DebugName st' a = DebugName st a).

End Prepare.

(** Whatever the tool prints, and whether or not it can be run, no descriptor
    is lost. *)
Lemma run_batches_fds `{SpawnerSpec} im child_output bs st p :
  std_open (fds p) → same_fds p (run_batches im child_output bs st p).2.
Proof.
  intros Hstd. revert st p Hstd. induction bs as [|batch bs IH]; intros st p Hstd; [done|]. cbn [run_batches].
  destruct (spawn _ _ p) as [[x|sp] p1] eqn:E; [by destruct (spawn_failed _ _ _ _ _ Hstd E)|].
  destruct (spawn_close_stdout _ _ _ _ _ Hstd E) as [Hc1 Hc2].
  unfold same_fds in *. rewrite <- Hc1, <- Hc2. apply IH. by rewrite Hc1.
Qed.
Lemma Prepare_fds `{SpawnerSpec} im child_output addresses st p :
  std_open (fds p) → same_fds p (Prepare im child_output addresses st p).2.
Proof.
  intros Hstd. unfold Prepare. repeat case_match; try done; by apply run_batches_fds.
Qed.

(** ** Asking twice *)

Section Again.
Context `{Spawner} (im : ELFImage) (child_output : list string → string).

Lemma run_batches_queried bs st p : queried (run_batches im child_output bs st p).1 = queried st.
Proof.
  revert st p. induction bs as [|b bs IH]; intros st p; [done|]. cbn [run_batches].
  destruct (spawn _ _ p) as [[x|sp] p1]; [done|]. by rewrite IH.
Qed.

Lemma Prepare_nothing addresses st p :
  use_addr2line st = false ∨ addresses = [] → Prepare im child_output addresses st p = (st, p).
Proof. unfold Prepare. intros [->| ->]; [done|]. by rewrite orb_true_r. Qed.

(** A second [Prepare] of addresses already asked for starts no process and
    changes nothing, whether or not the first could run the tool. *)
Lemma Prepare_again addresses more st p p' :
  more ⊆ addresses →
  let st' := (Prepare im child_output addresses st p).1 in
  Prepare im child_output more st' p' = (st', p').
Proof.
  intros Hmore. cbv zeta. destruct (use_addr2line st) eqn:Hu;
    [|by rewrite !(Prepare_nothing _ st) by auto].
  destruct (decide (addresses = [])) as [->|Hne].
  { assert (more = []) as -> by (apply elem_of_nil_inv; set_solver). by rewrite !Prepare_nothing by auto. }
  rewrite (Prepare_unfold _ _ addresses) by done. set (st' := (run_batches _ _ _ _ _).1).
  assert (Hq : queried st' = queried st ∪ list_to_set addresses) by (unfold st'; by rewrite run_batches_queried).
  destruct (use_addr2line st') eqn:Hu'; [|by rewrite Prepare_nothing by auto].
  destruct (decide (more = [])) as [->|Hm]; [by rewrite Prepare_nothing by auto|].
  rewrite Prepare_unfold by done.
  assert (pending_of more st' = []) as ->.
  { apply elem_of_nil_inv. intros a [Ha Hna]%pending_spec. apply Hna. rewrite Hq. set_solver. }
  cbn. replace (queried st' ∪ list_to_set more) with (queried st'); [by destruct st'|].
  rewrite Hq. apply leibniz_equiv. set_solver.
Qed.
End Again.

(** ** The name of an address *)

(** On a symbol table sorted by address, the symbol accepted is the last one
    at or below the address, and the address lies in it. *)
Lemma accepted_symbol_spec im v s :
  (∀ i j a b, (i ≤ j)%nat → im_symbols im !! i = Some a → im_symbols im !! j = Some b →
              sym_vaddr a <= sym_vaddr b) →
  accepted_symbol im v = Some s ↔
  (∃ i, im_symbols im !! i = Some s ∧ sym_vaddr s <= v
        ∧ ∀ j t, (i < j)%nat → im_symbols im !! j = Some t → v < sym_vaddr t)
  ∧ (if sym_size s =? 0 then sym_vaddr s = v else u64 (v - sym_vaddr s) < sym_size s).
Proof.
  intros Hsorted. unfold accepted_symbol. set (it := partition_point _ _).
  assert (Hpp : ∀ i x, im_symbols im !! i = Some x → (v <? sym_vaddr x) = bool_decide (it ≤ i)%nat).
  { apply partition_point_spec. intros i j x y Hij Hi Hj Hx.
    apply Is_true_true, Z.ltb_lt in Hx. apply Is_true_true, Z.ltb_lt.
    specialize (Hsorted i j x y Hij Hi Hj). lia. }
  assert (Hlast : ∀ s, (∃ i, im_symbols im !! i = Some s ∧ sym_vaddr s <= v
      ∧ ∀ j t, (i < j)%nat → im_symbols im !! j = Some t → v < sym_vaddr t)
    ↔ it ≠ 0%nat ∧ im_symbols im !! (it - 1)%nat = Some s).
  { clear s. intros s. split.
    - intros (i & Hi & Hle & Habove). pose proof (Hpp i s Hi) as Hi'.
      rewrite (proj2 (Z.ltb_ge _ _)) in Hi' by lia. symmetry in Hi'. apply bool_decide_eq_false in Hi'.
      assert (it = S i) as ->; [|rewrite Nat.sub_1_r; cbn; split; [lia|done]].
      destruct (decide (it = S i)) as [|Hne]; [done|]. exfalso.
      destruct (partition_point_boundary (fun s => v <? sym_vaddr s) (im_symbols im)) as (Hlen & _ & _).
      fold it in Hlen. destruct (lookup_lt_is_Some_2 (im_symbols im) (S i)) as [t Ht]; [lia|].
      pose proof (Hpp _ _ Ht) as Ht'. specialize (Habove (S i) t ltac:(lia) Ht).
      rewrite (proj2 (Z.ltb_lt _ _)) in Ht' by done. symmetry in Ht'. apply bool_decide_eq_true in Ht'. lia.
    - intros [Hne Hs]. exists (it - 1)%nat. split; [done|]. split.
      + pose proof (Hpp _ _ Hs) as Hs'. rewrite bool_decide_false in Hs' by lia. by apply Z.ltb_ge in Hs'.
      + intros j t Hj Ht. pose proof (Hpp _ _ Ht) as Ht'. rewrite bool_decide_true in Ht' by lia.
        by apply Z.ltb_lt in Ht'. }
  rewrite Hlast. case_bool_decide as Hz; [naive_solver|].
  destruct (im_symbols im !! (it - 1)%nat) as [x|] eqn:Hx; cbn; [|naive_solver].
  assert (Hcond : (if (if sym_size x =? 0 then negb (sym_vaddr x =? v) else sym_size x <=? u64 (v - sym_vaddr x))
                   then None else Some x) = Some s
                  ↔ x = s ∧ if sym_size x =? 0 then sym_vaddr x = v else u64 (v - sym_vaddr x) < sym_size x).
  { destruct (sym_size x =? 0).
    - destruct (Z.eqb_spec (sym_vaddr x) v); naive_solver.
    - destruct (Z.leb_spec (sym_size x) (u64 (v - sym_vaddr x))); naive_solver lia. }
  rewrite Hcond. split; [intros [-> ?]; done|]. by intros [[_ [= ->]] ?].
Qed.

(** [ELFImage::Open] sorts the symbols, so that is what [Symbolizer::Name]
    finds on an opened image. *)
Lemma opened_symbol_spec path file map_error reserve im v s :
  Forall is_u8 file → Open path file map_error reserve = Ok im →
  accepted_symbol im v = Some s ↔
  (∃ i, im_symbols im !! i = Some s ∧ sym_vaddr s <= v
        ∧ ∀ j t, (i < j)%nat → im_symbols im !! j = Some t → v < sym_vaddr t)
  ∧ (if sym_size s =? 0 then sym_vaddr s = v else u64 (v - sym_vaddr s) < sym_size s).
Proof.
  intros Hb Hopen. apply accepted_symbol_spec. intros i j a b. apply sorted_symbols_lookup.
  eapply Open_sorted; done.
Qed.

(** ** Concrete runs *)

(** An [addr2line] whose answers are made of the address. *)
Definition sample_name (a : Z) : string := "f" +:+ "0x" +:+ fmt_x a.
Definition sample_loc (a : Z) : string := "s.c:" +:+ "0x" +:+ fmt_x a.
Definition sample_output (argv : list string) : string :=
  foldr (fun arg s => ("f" +:+ arg +:+ nl +:+ ("s.c:" +:+ arg) +:+ nl) +:+ s) "" (drop 5 argv).
Definition debug_image : ELFImage := mkImage "a.out" 0 [] [] 0 0 0 [] true false (fun _ => 0).
Definition sample_symbolizer : Symbolizer := make_symbolizer debug_image (fun _ => true) (Some "/bin") kAuto.

Lemma sample_pairwise batch : answers_pairwise debug_image sample_output sample_name sample_loc batch.
Proof.
  intros tool. induction batch as [|a batch IH]; [done|].
  exact (f_equal (String.append (answer sample_name sample_loc a)) IH).
Qed.

Definition field_okb (f : string) : bool :=
  plain f && bool_decide (StripAsciiWhitespace f = f) && (String.length f <? line_size - 1)%nat.
Lemma field_okb_ok f : field_okb f = true → field_ok f.
Proof.
  unfold field_okb, field_ok. rewrite !andb_true_iff, bool_decide_eq_true, Nat.ltb_lt. tauto.
Qed.
Lemma sample_fields_ok :
  Forall (fun a => field_ok (sample_name a) ∧ field_ok (sample_loc a)) [0x1004; 0x1000].
Proof. repeat (apply Forall_cons; split; [split; apply field_okb_ok; vm_compute; reflexivity|]). constructor. Qed.


(** A function name longer than [fgets] reads at once (a demangled template
    name can be): its rest is taken for the source line, and every later
    address of the batch is given fields of its predecessors. *)
Fixpoint repeat_char (n : nat) : string := match n with O => "" | S n => String (Ascii.ascii_of_nat 97) (repeat_char n) end.
Definition long_name (a : Z) : string := if a =? 0x1000 then repeat_char (Z.to_nat 5000) else sample_name a.
Example long_name_shifts_answers :
  let m := read_batch [0x1000; 0x1004] (answers long_name sample_loc [0x1000; 0x1004]) (∅, ∅) in
  m.1 !! 0x1000 = Some (repeat_char (Z.to_nat 905)) ∧ m.1 !! 0x1004 = Some "f0x1004"
  ∧ m.2 !! 0x1004 = Some "s.c:0x1000".
Proof. vm_compute. done. Qed.
