(* ===== verification/LightChecker.v ===== *)
(** * The light checker

    Models [src/light-checker.h] and [src/light-checker.cc]: one pass over
    the instructions of an FDE in address order, each run from a state seeded
    from its own row and compared with the row of its successors.  Its
    private [FindingSink] and [CFIContaining] are the same code as
    [src/fde-checker.cc]'s, so the definitions of [RowCheck] and [FdeChecker]
    are used for both.  Pointer equality of FDEs is equality of [fde_addr],
    which identifies an FDE of the section. *)

From stdpp Require Import gmap strings.
From S2P Require Import Prelude CfiTable AbsState Zydis InsnSemantics ElfImage RowCheck FdeChecker.

Definition light_CFASatisfiedBy (target : CFARule) (v : AbsVal) : bool :=
  bool_decide (cfa_kind target = CFA_RegOffset) && CFASatisfiedBy target v.

(** The findings of [CheckCFA], and whether to give up on the FDE. *)
Definition light_CheckCFA (target : CFARule) (s : AbsState) (edge_desc : string) :
    list issue * bool :=
  if negb (bool_decide (cfa_kind target = CFA_RegOffset)) then
    (review (edge_desc +:+ "CFA is given by a DWARF expression, or left undeclared, which the light checker does not evaluate; giving up on the rest of this FDE"), true)
  else
    let name := DWARFRegName (cfa_reg target) in
    let v := reg s (cfa_reg target) in
    match v with
    | CFARel _ =>
        (if light_CFASatisfiedBy target v then []
         else mismatch (edge_desc +:+ "declared CFA is " +:+ CFARule_str target
                +:+ ", but the code leaves " +:+ name +:+ " at " +:+ AbsVal_str v), false)
    | _ =>
        (review (edge_desc +:+ "CFA is declared as " +:+ CFARule_str target +:+ ", but " +:+ name
           +:+ " holds " +:+ AbsVal_str v
           +:+ " here, so the rule cannot be verified; giving up on the rest of this FDE"), true)
    end.

Section LightCheck.
Context `{ZydisApi} (opts : FDECheckerOptions) (cfi : CFI).

(** [pop %rbp] or [leave]: where an rbp-based CFA becomes rsp-based. *)
Definition ends_frame (insn : Instruction) : bool :=
  (bool_decide (in_id insn = M_POP) && bool_decide (in_op_count insn = 1%nat)
   && match op_kind (operand insn 0) with OpReg r => bool_decide (r = ZR_RBP) | _ => false end)
  || bool_decide (in_id insn = M_LEAVE).

(** The comparison with the next row. *)
Definition check_next (insn : Instruction) (row next_row : CFIRow) (s : AbsState) :
    list issue * bool :=
  if bool_decide (row_cfa row = CFARule_RegOffset kDWARFRbp 16)
     && bool_decide (row_cfa next_row = CFARule_RegOffset kDWARFRsp 8) then
    if ends_frame insn then ([], false)
    else (review "transition to rsp-based CFA is not on pop %rbp or leave instruction", true)
  else if bool_decide (in_id insn = M_NOP) then ([], false)
  else light_CheckCFA (row_cfa next_row) s "".

(** The comparison with the row at a direct target. *)
Definition check_target (target : Z) (s : AbsState) : list issue * bool :=
  match CFIContaining (o_all_cfis opts) target with
  | None => ([], false)
  | Some target_cfi =>
      match row_at target_cfi target with
      | None => ([], false)
      | Some target_row =>
          light_CheckCFA (row_cfa target_row) s
            (if fde_addr target_cfi =? fde_addr cfi then ""
             else "jump to 0x" +:+ fmt_x target +:+ " (FDE at 0x" +:+ fmt_x (fde_addr target_cfi)
                  +:+ "): ")
      end
  end.

(** One instruction: findings, and whether the loop goes on.  A missing row
    at the next address is the program's [CHECK] failure. *)
Definition light_step (pc : Z) (row : CFIRow) (insn : Instruction) : res (list issue * bool) :=
  let '(out, s) := Transfer insn (SeedFromRow row false) in
  let next_pc := u64 (pc + in_size insn) in
  '(issues1, stop1) ←
    (if falls_through out && negb (is_call out) && (next_pc <? pc_end cfi) then
       match row_at cfi next_pc with
       | None => fail "Check failed: next_row != nullptr"
       | Some next_row => mret (check_next insn row next_row s)
       end
     else mret ([], false));
  if (stop1 : bool) then mret (issues1, true)
  else match direct_target out with
  | Some target =>
      let '(issues2, stop2) := check_target target s in mret (issues1 ++ issues2, stop2)
  | None => mret (issues1, false)
  end.

(** The sink and the number of instructions checked. *)
Fixpoint light_loop (fuel : nat) (pc : Z) (sk : FindingSink) (checked : Z) :
    res (FindingSink * Z) :=
  if pc <? pc_end cfi then
    match fuel with
    | O => Throw OutOfFuel
    | S fuel =>
        match row_at cfi pc with
        | None => mret (sk, checked)
        | Some row =>
            let bytes := BytesAt (o_image opts) pc (Z.min 16 (u64 (pc_end cfi - pc))) in
            match Decode bytes pc with
            | None =>
                mret (Add kMismatchSev pc
                        ("could not decode instruction at " +:+ fmt_x pc +:+ " (buffer size: "
                         +:+ fmt_d (Z.of_nat (length bytes)) +:+ ")") sk, checked)
            | Some insn =>
                '(issues, stop) ← light_step pc row insn;
                let sk := add_issues pc issues sk in
                if (stop : bool) then mret (sk, checked + 1)
                else light_loop fuel (u64 (pc + in_size insn)) sk (checked + 1)
            end
        end
    end
  else mret (sk, checked).

(** The two loops over the findings: any mismatch, else any review. *)
Definition light_verdict (fs : list Finding) : Verdict :=
  if existsb (fun f => bool_decide (f_severity f = kMismatchSev)) fs then kMismatch
  else if existsb (fun f => bool_decide (f_severity f = kReviewSev)) fs then kReview
  else kBlessed.

Definition undefined_ra_start : bool :=
  match row_at cfi (pc_begin cfi) with
  | Some first_row => bool_decide (row_reg first_row kDWARFRip = RR_Undefined)
  | None => false
  end.

Definition LightCheck : res FDEResult :=
  if undefined_ra_start then mret (result_with cfi kBlessed [] 0 None [])
  else
    '(sk, checked) ← light_loop (Z.to_nat (pc_end cfi - pc_begin cfi)) (pc_begin cfi)
                                (new_sink (o_max_findings_per_fde opts)) 0;
    mret (result_with cfi (light_verdict (Take sk)) (Take sk) checked None []).
End LightCheck.
