(* ===== verification/LightFacts.v ===== *)
(** * Theorems about the light checker

    The sweep always produces a verdict, and what BLESSED means for it: at
    every instruction of the sweep the state derived from the instruction's
    own row satisfies the CFA rule in force wherever control goes next. *)

From stdpp Require Import gmap strings.
From S2P Require Import Prelude CfiTable AbsState Zydis InsnSemantics ElfImage RowCheck FdeChecker.
From S2P Require Import SinkFacts RowFacts CheckerFacts LightChecker.

Lemma light_CheckCFA_spec target s edge :
  let '(issues, stop) := light_CheckCFA target s edge in
  (issues = [] → stop = false ∧ cfa_holds target s) ∧ (cfa_holds target s → issues = []).
Proof.
  unfold light_CheckCFA, light_CFASatisfiedBy, cfa_holds, CFASatisfiedBy, review, mismatch.
  destruct (decide (cfa_kind target = CFA_RegOffset)) as [Ek|Ek];
    [rewrite (bool_decide_eq_true_2 _ Ek)|rewrite (bool_decide_eq_false_2 _ Ek)]; cbn [negb andb].
  2: { split; [done|]. by intros []. }
  destruct (reg s (cfa_reg target)) as [| |d|q|] eqn:E; cbn.
  3: { destruct (s64 (d + cfa_offset target) =? 0) eqn:E0.
       - split; [|done]. intros _. split; [done|]. split; [done|]. exists d. split; [done|lia].
       - split; [done|]. intros (_ & d' & [= <-] & H). lia. }
  all: split; [done|]; intros (_ & d' & H & _); done.
Qed.

Section Light.
Context `{ZydisLaws} (opts : FDECheckerOptions) (cfi : CFI) (Hend : is_u64 (pc_end cfi)).

(** The transition from an rbp-based to an rsp-based CFA is only looked at
    as an instruction, and a [nop] not at all. *)
Definition exempt (insn : Instruction) (row next_row : CFIRow) : Prop :=
  (row_cfa row = CFARule_RegOffset kDWARFRbp 16 ∧ row_cfa next_row = CFARule_RegOffset kDWARFRsp 8 ∧
   ends_frame insn = true) ∨ in_id insn = M_NOP.

(** Where control goes from [insn], the CFA rule holds. *)
Definition step_holds (pc : Z) (row : CFIRow) (insn : Instruction) : Prop :=
  let '(out, s) := Transfer insn (SeedFromRow row false) in
  let next_pc := u64 (pc + in_size insn) in
  (falls_through out = true → is_call out = false → next_pc < pc_end cfi →
    ∃ next_row, row_at cfi next_pc = Some next_row ∧
      (exempt insn row next_row ∨ cfa_holds (row_cfa next_row) s)) ∧
  (∀ target tc target_row, direct_target out = Some target →
    CFIContaining (o_all_cfis opts) target = Some tc → row_at tc target = Some target_row →
    cfa_holds (row_cfa target_row) s).

Lemma check_next_spec insn row next_row s :
  let '(issues, stop) := check_next insn row next_row s in
  issues = [] → stop = false ∧ (exempt insn row next_row ∨ cfa_holds (row_cfa next_row) s).
Proof.
  unfold check_next, exempt.
  pose proof (light_CheckCFA_spec (row_cfa next_row) s "") as Hc.
  destruct (light_CheckCFA _ _ _) as [issues stop]. destruct Hc as [Hc _].
  assert (let '(i, st) := if bool_decide (in_id insn = M_NOP) then ([], false) else (issues, stop) in
    i = [] → st = false ∧ (in_id insn = M_NOP ∨ cfa_holds (row_cfa next_row) s)) as Hnop.
  { case_bool_decide; [auto|]. intros Hi. destruct (Hc Hi). auto. }
  destruct (bool_decide (row_cfa row = _)) eqn:E1; cbn [andb].
  - destruct (bool_decide (row_cfa next_row = _)) eqn:E2.
    + apply bool_decide_eq_true in E1, E2. destruct (ends_frame insn) eqn:E3; [|done].
      intros _. split; [done|]. left. by left.
    + destruct (if bool_decide _ then _ else _). naive_solver.
  - destruct (if bool_decide _ then _ else _). naive_solver.
Qed.

Lemma check_target_spec target s :
  let '(issues, stop) := check_target opts cfi target s in
  issues = [] → stop = false ∧ ∀ tc target_row, CFIContaining (o_all_cfis opts) target = Some tc →
    row_at tc target = Some target_row → cfa_holds (row_cfa target_row) s.
Proof.
  unfold check_target. destruct (CFIContaining _ _) as [tc|] eqn:E1; [|done].
  destruct (row_at tc target) as [row|] eqn:E2; [|naive_solver].
  set (edge := if _ =? _ then _ else _). pose proof (light_CheckCFA_spec (row_cfa row) s edge) as Hc.
  destruct (light_CheckCFA _ _ _) as [issues stop]. destruct Hc as [Hc _]. intros Hi. destruct (Hc Hi) as [Hs Hh].
  split; [done|]. intros tc' row' [= <-] E. congruence.
Qed.

Lemma light_step_spec pc row insn :
  (u64 (pc + in_size insn) < pc_end cfi → is_Some (row_at cfi (u64 (pc + in_size insn)))) →
  ∃ issues stop, light_step opts cfi pc row insn = Ok (issues, stop) ∧
    (issues = [] → stop = false ∧ step_holds pc row insn).
Proof.
  intros Hrow. unfold light_step, step_holds. destruct (Transfer insn (SeedFromRow row false)) as [out s].
  cbv zeta. set (next := u64 (pc + in_size insn)) in *.
  assert (∃ issues stop, (if falls_through out && negb (is_call out) && (next <? pc_end cfi) then
      match row_at cfi next with
      | None => fail "Check failed: next_row != nullptr"
      | Some next_row => mret (check_next insn row next_row s)
      end else mret ([], false)) = Ok (issues, stop) ∧
    (issues = [] → stop = false ∧ (falls_through out = true → is_call out = false → next < pc_end cfi →
       ∃ next_row, row_at cfi next = Some next_row ∧
         (exempt insn row next_row ∨ cfa_holds (row_cfa next_row) s)))) as (i1 & st1 & -> & H1).
  { destruct (falls_through out && negb (is_call out) && (next <? pc_end cfi)) eqn:E.
    - apply andb_true_iff in E as [_ E]. destruct Hrow as [next_row Er]; [lia|]. rewrite Er.
      pose proof (check_next_spec insn row next_row s) as Hn. destruct (check_next _ _ _ _) as [i st].
      exists i, st. split; [done|]. intros Hi. destruct (Hn Hi) as [? ?]. split; [done|]. eauto.
    - exists [], false. split; [done|]. intros _. split; [done|]. intros H1 H2 H3.
      rewrite H1, H2 in E. cbn in E. lia. }
  cbn. destruct st1; [exists i1, true; split; [done|]; intros Hi; by destruct (H1 Hi)|].
  destruct (direct_target out) as [t|].
  - pose proof (check_target_spec t s) as Ht. destruct (check_target _ _ _ _) as [i2 st2].
    exists (i1 ++ i2), st2. split; [done|]. intros [Hi1 Hi2]%app_eq_nil. destruct (Ht Hi2) as [? Ht'].
    split; [done|]. split; [apply (H1 Hi1)|]. intros target tc tr [= <-]. apply Ht'.
  - exists i1, false. split; [done|]. intros Hi. split; [done|]. split; [apply (H1 Hi)|done].
Qed.

(** The addresses the sweep visits, from [p]. *)
Inductive swept (p : Z) : Z → Prop :=
  | swept_here : swept p p
  | swept_next insn q : p < pc_end cfi → decode_at opts cfi p = Some insn →
      swept (u64 (p + in_size insn)) q → swept p q.

Definition sweep_holds (p : Z) : Prop :=
  ∀ pc, swept p pc → pc < pc_end cfi →
    ∃ row insn, row_at cfi pc = Some row ∧ decode_at opts cfi pc = Some insn ∧ step_holds pc row insn.

Lemma sweep_holds_step pc row insn :
  row_at cfi pc = Some row → decode_at opts cfi pc = Some insn → step_holds pc row insn →
  sweep_holds (u64 (pc + in_size insn)) → sweep_holds pc.
Proof.
  intros Er Ed Hs Hn q Hq Hlt. inversion Hq as [|insn' q' Hp Ed' Hq']; subst; [by exists row, insn|].
  assert (insn' = insn) as -> by congruence. by apply Hn.
Qed.

Lemma light_loop_spec fuel pc sk n :
  (∀ p, pc_begin cfi <= p < pc_end cfi → is_Some (row_at cfi p)) →
  0 <= pc_begin cfi <= pc → (Z.to_nat (pc_end cfi - pc) ≤ fuel)%nat → sink_wf sk →
  ∃ sk' n', light_loop opts cfi fuel pc sk n = Ok (sk', n') ∧
    (Take sk' = [] → Take sk = [] ∧ sweep_holds pc).
Proof.
  intros Hrows. revert pc sk n. induction fuel as [|fuel IH]; intros pc sk n Hpc Hf Hsk; cbn [light_loop].
  all: destruct (pc <? pc_end cfi) eqn:E;
    [|exists sk, n; split; [done|]; intros Ht; split; [done|]; intros q Hq Hlt; inversion Hq; subst; lia].
  { lia. }
  destruct (Hrows pc) as [row Er]; [lia|]. rewrite Er. cbv zeta.
  change (Decode _ pc) with (decode_at opts cfi pc).
  destruct (decode_at opts cfi pc) as [insn|] eqn:Ed.
  2: { eexists _, n. split; [done|]. intros Hd. by apply Add_dirty in Hd. }
  destruct (decode_at_inside opts cfi pc insn Hend ltac:(lia) Ed) as (H1 & H2 & E3).
  destruct (light_step_spec pc row insn) as (issues & stop & -> & Hi).
  { intros. apply Hrows. lia. }
  cbn. pose proof (add_issues_wf pc issues sk Hsk) as Hsk'.
  destruct stop.
  - eexists _, _. split; [done|]. intros [Hn _]%add_issues_clean; [|done]. by destruct (Hi Hn).
  - destruct (IH (u64 (pc + in_size insn)) (add_issues pc issues sk) (n + 1)) as (sk' & n' & -> & Hc); [lia|lia|done|].
    exists sk', n'. split; [done|]. intros Ht. destruct (Hc Ht) as [[Hn Hs]%add_issues_clean Hsw]; [|done].
    destruct (Hi Hn) as [_ Hstep]. split; [done|]. by eapply sweep_holds_step.
Qed.
End Light.

Lemma light_verdict_blessed fs : light_verdict fs = kBlessed → fs = [].
Proof.
  unfold light_verdict. destruct fs as [|f fs]; [done|]. cbn. destruct f as [[] ? ? ?]; cbn; [|done].
  by destruct (existsb _ fs).
Qed.

Lemma light_check_sound `{ZydisLaws} opts cfi :
  is_u64 (pc_end cfi) → 0 <= pc_begin cfi →
  (∀ p, pc_begin cfi <= p < pc_end cfi → is_Some (row_at cfi p)) →
  ∃ r, LightCheck opts cfi = Ok r ∧
    (r_verdict r = kBlessed → undefined_ra_start cfi = false → sweep_holds opts cfi (pc_begin cfi)).
Proof.
  intros He Hb Hrows. unfold LightCheck. destruct (undefined_ra_start cfi); [by eexists|].
  destruct (light_loop_spec opts cfi He (Z.to_nat (pc_end cfi - pc_begin cfi)) (pc_begin cfi)
    (new_sink (o_max_findings_per_fde opts)) 0 Hrows ltac:(lia) ltac:(lia) (new_sink_wf _)) as (sk & n & -> & Hc).
  eexists. split; [done|]. cbn [r_verdict result_with]. intros Hv%light_verdict_blessed _. by apply Hc.
Qed.

(** C18: the light checker always reaches a verdict, and BLESSED means what it
    says: on an FDE whose rows cover its range, its sweep ends (no row is
    missing where the program would abort), and if the verdict is BLESSED
    then, unless the FDE marks the end of the stack, every instruction of
    the sweep up to [pc_end] decodes, and the state derived from its own row
    satisfies the CFA rule in force at its successor (calls, [nop]s and the
    frame-ending transition apart) and at its branch target. *)
Theorem LightCheck_blessed `{ZydisLaws} opts cfi :
  is_u64 (pc_end cfi) → 0 <= pc_begin cfi →
  (∀ p, pc_begin cfi <= p < pc_end cfi → is_Some (row_at cfi p)) →
  ∃ r, LightCheck opts cfi = Ok r ∧
    (r_verdict r = kBlessed → undefined_ra_start cfi = false → sweep_holds opts cfi (pc_begin cfi)).
Proof. apply light_check_sound. Qed.

(** ** Concrete instances *)

From S2P Require Import ZydisSample Sample.

Example sample_light : r_verdict <$> (match LightCheck sample_opts sample_fde with Ok r => Some r | _ => None end) = Some kBlessed.
Proof. vm_compute. reflexivity. Qed.

Lemma sample_rows_cover p : 0x1000 <= p < 0x1006 → is_Some (row_at sample_fde p).
Proof.
  intros Hp. assert (Forall (fun p => is_Some (row_at sample_fde p)) (seqZ 0x1000 6)) as Hf.
  { repeat (constructor; [vm_compute; by eexists|]). constructor. }
  rewrite Forall_forall in Hf. apply Hf, elem_of_seqZ. lia.
Qed.

Lemma LightCheck_blessed_witness :
  ∃ r, LightCheck sample_opts sample_fde = Ok r ∧
    (r_verdict r = kBlessed → undefined_ra_start sample_fde = false →
     sweep_holds sample_opts sample_fde (pc_begin sample_fde)).
Proof.
  apply (LightCheck_blessed sample_opts sample_fde).
  - cbn. unfold is_u64. lia.
  - cbn. lia.
  - exact sample_rows_cover.
Defined.
