(* ===== verification/Coverage.v ===== *)
(** * Symbols without an FDE

    Models [src/coverage-check.h] and [src/coverage-check.cc]: merging the
    FDE ranges, counting the bytes of a symbol none of them covers, and
    [CheckUncoveredSymbols]. *)

From stdpp Require Import gmap sorting.
From S2P Require Import Prelude CfiTable ElfImage RowCheck FdeChecker.

(** [std::pair]'s order. *)
Definition range_le (a b : Z * Z) : Prop := a.1 < b.1 ∨ (a.1 = b.1 ∧ a.2 <= b.2).
#[export] Instance range_le_dec : RelDecision range_le.
Proof. intros a b. unfold range_le. apply _. Defined.

(** The merged ranges so far, the one being extended first. *)
Definition merge_step (merged : list (Z * Z)) (r : Z * Z) : list (Z * Z) :=
  match merged with
  | (s, e) :: rest => if r.1 <=? e then (s, Z.max e r.2) :: rest else r :: merged
  | [] => [r]
  end.

Definition MergeRanges (ranges : list (Z * Z)) : list (Z * Z) :=
  rev (foldl merge_step [] (merge_sort range_le ranges)).

(** [c_lower_bound]'s comparator, negated: the first range not wholly before
    [start]. *)
Definition not_before (start : Z) (iv : Z * Z) : bool := start <? iv.2.

Fixpoint uncovered_loop (end_ cursor uncovered : Z) (ivs : list (Z * Z)) : Z * Z :=
  match ivs with
  | (s, e) :: ivs =>
      if (s <? end_) && (cursor <? end_) then
        uncovered_loop end_ (Z.max cursor (Z.min e end_))
          (if cursor <? s then uncovered + (Z.min s end_ - cursor) else uncovered) ivs
      else (cursor, uncovered)
  | [] => (cursor, uncovered)
  end.

Definition UncoveredBytes (start end_ : Z) (coverage : list (Z * Z)) : Z :=
  let '(cursor, uncovered) :=
    uncovered_loop end_ start 0 (drop (partition_point (not_before start) coverage) coverage) in
  if cursor <? end_ then uncovered + (end_ - cursor) else uncovered.

Definition uncovered_message (uncovered size : Z) : string :=
  if uncovered =? size then "no FDE covers this symbol at all"
  else "no FDE covers " +:+ fmt_d uncovered +:+ " of its " +:+ fmt_d size +:+ " bytes".

Definition uncovered_result (sym : FuncSymbol) (uncovered : Z) : FDEResult :=
  mkResult 0 (sym_vaddr sym) (u64 (sym_vaddr sym + sym_size sym)) false kReview
    [mkFinding kReviewSev (sym_vaddr sym) (uncovered_message uncovered (sym_size sym)) 0] 0 None [].

(** One turn of the loop over the symbols: the addresses flagged so far and
    the results. *)
Definition symbol_step (im : ELFImage) (coverage : list (Z * Z))
    (acc : gset Z * list FDEResult) (sym : FuncSymbol) : gset Z * list FDEResult :=
  let '(flagged, results) := acc in
  if (sym_size sym =? 0) || bool_decide (sym_vaddr sym ∈ flagged) then acc
  else
    let flagged := {[ sym_vaddr sym ]} ∪ flagged in
    if negb (IsExecutable im (sym_vaddr sym) (sym_size sym))
       || InPLT im (sym_vaddr sym) (sym_size sym) then (flagged, results)
    else
      let uncovered :=
        UncoveredBytes (sym_vaddr sym) (u64 (sym_vaddr sym + sym_size sym)) coverage in
      if uncovered =? 0 then (flagged, results)
      else (flagged, results ++ [uncovered_result sym uncovered]).

Definition CheckUncoveredSymbols (im : ELFImage) (fde_ranges : list (Z * Z)) : list FDEResult :=
  (foldl (symbol_step im (MergeRanges fde_ranges)) (∅, []) (im_symbols im)).2.
