(* ===== verification/CoverageFacts.v ===== *)
(** * Theorems about symbol coverage

    [MergeRanges] keeps the union of its ranges and separates them, and
    [UncoveredBytes] counts the addresses no range covers. *)

From stdpp Require Import gmap sorting.
From S2P Require Import Prelude CfiTable ElfImage RowCheck FdeChecker Coverage.

(** ** Counting addresses *)

Definition countZ (P : Z → bool) (lo hi : Z) : Z :=
  Z.of_nat (length (filter (fun a => P a = true) (seqZ lo (hi - lo)))).

Lemma countZ_split P lo mid hi : lo <= mid <= hi → countZ P lo hi = countZ P lo mid + countZ P mid hi.
Proof.
  intros H. unfold countZ. replace (hi - lo) with ((mid - lo) + (hi - mid)) by lia.
  rewrite seqZ_app by lia. replace (lo + (mid - lo)) with mid by lia.
  rewrite filter_app, length_app. lia.
Qed.

Lemma countZ_empty P lo hi : hi <= lo → countZ P lo hi = 0.
Proof. intros H. unfold countZ, seqZ. by rewrite Z2Nat.nonpos by lia. Qed.

Lemma filter_length_all {A} (P : A → Prop) `{∀ x, Decision (P x)} l :
  (∀ x, x ∈ l → P x) → length (filter P l) = length l.
Proof.
  induction l as [|x l IH]; intros Hx; [done|]. rewrite filter_cons, decide_True by (apply Hx; by left).
  cbn. f_equal. apply IH. intros y Hy. apply Hx. by right.
Qed.

Lemma countZ_all P lo hi : lo <= hi → (∀ a, lo <= a < hi → P a = true) → countZ P lo hi = hi - lo.
Proof.
  intros H HP. unfold countZ. rewrite filter_length_all; [rewrite length_seqZ; lia|].
  intros a Ha%elem_of_seqZ. apply HP. lia.
Qed.

Lemma countZ_ext P Q lo hi : (∀ a, lo <= a < hi → P a = Q a) → countZ P lo hi = countZ Q lo hi.
Proof.
  intros H. unfold countZ. assert (∀ l : list Z, (∀ a, a ∈ l → P a = Q a) →
    filter (fun a => P a = true) l = filter (fun a => Q a = true) l) as Hl.
  { induction l as [|a l IH]; intros Hl; [done|]. rewrite !filter_cons, IH by (intros; apply Hl; by right).
    rewrite (Hl a) by by left. done. }
  rewrite Hl; [done|]. intros a Ha%elem_of_seqZ. apply H. lia.
Qed.

Lemma countZ_none P lo hi : (∀ a, lo <= a < hi → P a = false) → countZ P lo hi = 0.
Proof.
  intros H. rewrite (countZ_ext P (fun _ => false)) by done. unfold countZ.
  generalize (seqZ lo (hi - lo)). induction l; done.
Qed.

(** ** Ranges *)

Definition covers (a : Z) (r : Z * Z) : bool := (r.1 <=? a) && (a <? r.2).
Definition covered (l : list (Z * Z)) (a : Z) : bool := existsb (covers a) l.
Lemma covered_cons r l a : covered (r :: l) a = covers a r || covered l a.
Proof. done. Qed.
Definition bare (l : list (Z * Z)) (a : Z) : bool := negb (covered l a).

(** In order, and each range ends before the next starts. *)
Inductive separated : list (Z * Z) → Prop :=
  | separated_nil : separated []
  | separated_one s e : s < e → separated [(s, e)]
  | separated_cons s e s' e' l :
      s < e → e < s' → separated ((s', e') :: l) → separated ((s, e) :: (s', e') :: l).

Lemma separated_tail r l : separated (r :: l) → separated l.
Proof. inversion 1; [constructor|done]. Qed.

Lemma separated_after s e l a : separated ((s, e) :: l) → a <= e → covered l a = false.
Proof.
  revert s e. induction l as [|[s' e'] l IH]; intros s e Hs Ha; [done|].
  inversion Hs as [| |? ? ? ? ? Hse Hes Hs']; simplify_eq. rewrite covered_cons.
  assert (s' < e') by (by inversion Hs'). rewrite (IH s' e'); [|done|lia].
  unfold covers. cbn. lia.
Qed.

Lemma separated_before s e l a : separated ((s, e) :: l) → a < s → covered ((s, e) :: l) a = false.
Proof.
  intros Hs Ha. rewrite covered_cons. assert (s < e) by (by inversion Hs).
  rewrite (separated_after s e l a Hs) by lia. unfold covers. cbn. lia.
Qed.

(** ** [UncoveredBytes] *)

Lemma uncovered_loop_spec end_ ivs cursor unc :
  separated ivs →
  let '(c, u) := uncovered_loop end_ cursor unc ivs in
  u + Z.max 0 (end_ - c) = unc + countZ (bare ivs) cursor end_.
Proof.
  revert cursor unc. induction ivs as [|[s e] ivs IH]; intros cursor unc Hs; cbn [uncovered_loop].
  { destruct (decide (cursor <= end_)).
    - rewrite countZ_all by done. lia.
    - rewrite countZ_empty by lia. lia. }
  assert (s < e) as Hse by (by inversion Hs).
  destruct (s <? end_) eqn:E1; cbn [andb].
  2: { destruct (decide (cursor <= end_)).
    - rewrite countZ_all; [lia|done|]. intros a Ha. unfold bare.
      rewrite (separated_before s e ivs a Hs) by lia. done.
    - rewrite countZ_empty by lia. lia. }
  destruct (cursor <? end_) eqn:E2; [|rewrite countZ_empty by lia; lia].
  specialize (IH (Z.max cursor (Z.min e end_))
    (if cursor <? s then unc + (Z.min s end_ - cursor) else unc) (separated_tail _ _ Hs)).
  destruct (uncovered_loop _ _ _ ivs) as [c u]. rewrite IH.
  set (cursor' := Z.max cursor (Z.min e end_)).
  assert (countZ (bare ((s, e) :: ivs)) cursor' end_ = countZ (bare ivs) cursor' end_) as Eafter.
  { apply countZ_ext. intros a Ha. unfold bare. rewrite covered_cons. unfold covers. cbn.
    assert ((s <=? a) && (a <? e) = false) as ->; [|done]. lia. }
  rewrite (countZ_split _ cursor cursor' end_) by lia. rewrite Eafter.
  destruct (cursor <? s) eqn:E3.
  - rewrite (countZ_split _ cursor s cursor') by lia.
    rewrite (countZ_all (bare ((s, e) :: ivs)) cursor s);
      [|lia|intros a Ha; unfold bare; by rewrite (separated_before s e ivs a Hs) by lia].
    rewrite (countZ_none (bare ((s, e) :: ivs)) s cursor'); [lia|].
    intros a Ha. unfold bare. rewrite covered_cons. unfold covers. cbn.
    assert ((s <=? a) && (a <? e) = true) as ->; [|done]. lia.
  - rewrite (countZ_none (bare ((s, e) :: ivs)) cursor cursor'); [lia|].
    intros a Ha. unfold bare. rewrite covered_cons. unfold covers. cbn.
    assert ((s <=? a) && (a <? e) = true) as ->; [|done]. lia.
Qed.

Lemma separated_drop n l : separated l → separated (drop n l).
Proof.
  revert l. induction n as [|n IH]; intros [|r l] Hs; cbn; try done. eapply IH, separated_tail, Hs.
Qed.

Lemma separated_ends l i j a b :
  separated l → (i ≤ j)%nat → l !! i = Some a → l !! j = Some b → a.2 <= b.2.
Proof.
  intros Hs. revert i j a b. induction Hs as [|s e|s e s' e' l Hse Hes Hs IH]; intros i j a b Hij Ha Hb.
  - done.
  - destruct i, j; cbn in *; simplify_eq; done || lia.
  - destruct i as [|i], j as [|j]; cbn in *; simplify_eq; [done| |lia|].
    + specialize (IH 0%nat j (s', e') b ltac:(lia) eq_refl Hb).
      assert (s' < e') by (by inversion Hs). cbn in *. lia.
    + apply (IH i j); [lia|done|done].
Qed.

Lemma drop_bare start l a :
  separated l → start <= a → bare (drop (partition_point (not_before start) l) l) a = bare l a.
Proof.
  intros Hs Ha. unfold bare. f_equal. set (k := partition_point (not_before start) l).
  rewrite <-(take_drop k l) at 2. unfold covered. rewrite existsb_app.
  assert (existsb (covers a) (take k l) = false) as ->; [|done].
  destruct (existsb (covers a) (take k l)) eqn:E; [|done]. exfalso.
  apply existsb_exists in E as (r & Hr & Hc). apply list_elem_of_In, list_elem_of_lookup in Hr as [i Hi].
  apply lookup_take_Some in Hi as [Hi Hik].
  pose proof (partition_point_spec (not_before start) l) as Hpp.
  assert (not_before start r = bool_decide (k ≤ i)%nat) as En.
  { apply Hpp; [|done]. intros i1 j1 x y Hij Hx Hy Hp%Is_true_true. apply Is_true_true.
    pose proof (separated_ends l i1 j1 x y Hs Hij Hx Hy). unfold not_before in *. lia. }
  rewrite bool_decide_eq_false_2 in En by lia. unfold not_before, covers in *. lia.
Qed.

Lemma UncoveredBytes_separated start end_ l :
  separated l → UncoveredBytes start end_ l = countZ (bare l) start end_.
Proof.
  intros Hs. unfold UncoveredBytes.
  pose proof (uncovered_loop_spec end_ (drop (partition_point (not_before start) l) l) start 0
    (separated_drop _ _ Hs)) as H.
  destruct (uncovered_loop _ _ _ _) as [c u].
  rewrite (countZ_ext (bare l) (bare (drop (partition_point (not_before start) l) l))).
  - destruct (c <? end_) eqn:E; lia.
  - intros a Ha. symmetry. apply drop_bare; [done|lia].
Qed.

(** ** [MergeRanges] *)

#[export] Instance range_le_total : Total range_le.
Proof. intros a b. unfold range_le. lia. Qed.
#[export] Instance range_le_trans : Transitive range_le.
Proof. intros a b c. unfold range_le. lia. Qed.

Lemma separated_snoc l s e s' e' :
  separated (l ++ [(s, e)]) → e < s' → s' < e' → separated ((l ++ [(s, e)]) ++ [(s', e')]).
Proof.
  induction l as [|[a b] l IH]; intros Hs He Hs'; cbn in *.
  - constructor; [by inversion Hs|done|by constructor].
  - destruct l as [|[c d] l]; cbn in *; inversion Hs; simplify_eq; constructor; auto.
Qed.

Lemma separated_extend l s e e' : separated (l ++ [(s, e)]) → e <= e' → separated (l ++ [(s, e')]).
Proof.
  induction l as [|[a b] l IH]; intros Hs He; cbn in *.
  - constructor. inversion Hs. lia.
  - destruct l as [|[c d] l]; cbn in *; inversion Hs; simplify_eq; constructor; auto.
Qed.

Lemma covered_app l1 l2 a : covered (l1 ++ l2) a = covered l1 a || covered l2 a.
Proof. apply existsb_app. Qed.

Lemma covered_rev l a : covered (rev l) a = covered l a.
Proof.
  induction l as [|r l IH]; [done|]. cbn [rev]. rewrite covered_app, IH. cbn.
  rewrite orb_false_r. apply orb_comm.
Qed.

(** The accumulator: separated once reversed, its head starting no later
    than what is still to come. *)
Definition merging (acc : list (Z * Z)) (next : Z) : Prop :=
  match acc with
  | [] => True
  | (s, e) :: rest => separated (rev rest ++ [(s, e)]) ∧ s <= next
  end.

Lemma merge_step_spec acc r :
  merging acc r.1 → r.1 < r.2 →
  merging (merge_step acc r) r.1 ∧ ∀ a, covered (merge_step acc r) a = covered acc a || covers a r.
Proof.
  destruct r as [rs re]. cbn [fst snd]. intros Hm Hr. destruct acc as [|[s e] rest]; cbn [merge_step fst snd].
  - split; [split; [by constructor|done]|]. intros a. cbn. by rewrite orb_false_r.
  - destruct Hm as [Hs Hle]. destruct (rs <=? e) eqn:E.
    + split; [split; [|done]|].
      * apply (separated_extend _ s e); [done|lia].
      * intros a. rewrite !covered_cons. unfold covers. cbn [fst snd]. destruct (covered rest a); lia.
    + split; [split; [|lia]|].
      * cbn [rev]. apply separated_snoc; [done|lia|done].
      * intros a. rewrite !covered_cons. apply orb_comm.
Qed.

Lemma merge_fold_spec l acc :
  StronglySorted range_le l → Forall (fun r => r.1 < r.2) l →
  (∀ r, r ∈ l → merging acc r.1) → separated (rev acc) →
  separated (rev (foldl merge_step acc l)) ∧
  ∀ a, covered (foldl merge_step acc l) a = covered acc a || covered l a.
Proof.
  intros Hs. revert acc. induction Hs as [|r l Hs IH Hr]; intros acc Hne Hm Hsep; cbn [foldl].
  { split; [done|]. intros a. by rewrite orb_false_r. }
  apply Forall_cons in Hne as [Hlt Hne].
  destruct (merge_step_spec acc r) as [Hm' Hc]; [by apply Hm; left|done|].
  destruct (IH (merge_step acc r)) as [H1 H2]; [done| | |].
  - intros r' Hr'. rewrite Forall_forall in Hr. specialize (Hr r' Hr'). unfold range_le in Hr.
    destruct (merge_step acc r) as [|[s e] rest]; [done|]. destruct Hm' as [? ?]. split; [done|lia].
  - destruct (merge_step acc r) as [|[s e] rest]; [constructor|]. by destruct Hm'.
  - split; [done|]. intros a. rewrite H2, Hc, covered_cons. by rewrite orb_assoc.
Qed.

Lemma MergeRanges_spec ranges :
  Forall (fun r => r.1 < r.2) ranges →
  separated (MergeRanges ranges) ∧ ∀ a, covered (MergeRanges ranges) a = covered ranges a.
Proof.
  intros Hne. unfold MergeRanges. destruct (merge_fold_spec (merge_sort range_le ranges) []) as [H1 H2].
  - apply (StronglySorted_merge_sort range_le); apply _.
  - by rewrite (merge_sort_Permutation range_le ranges).
  - done.
  - constructor.
  - split; [done|]. intros a. rewrite covered_rev, H2. cbn [orb covered existsb].
    apply eq_true_iff_eq. unfold covered. rewrite !existsb_exists.
    split; intros (r & Hr & Hc); exists r; (split; [|done]); apply list_elem_of_In;
      apply list_elem_of_In in Hr; [by rewrite <-(merge_sort_Permutation range_le ranges)|
        by rewrite (merge_sort_Permutation range_le ranges)].
Qed.

(** C31: the coverage count is exact: over the merged (sorted and pairwise
    separated) FDE ranges, [UncoveredBytes] is the number of addresses of
    the symbol that lie in no FDE, whatever order the FDEs come in and
    however they overlap. *)
Theorem UncoveredBytes_exact ranges start end_ :
  Forall (fun r => r.1 < r.2) ranges →
  separated (MergeRanges ranges) ∧
  UncoveredBytes start end_ (MergeRanges ranges) = countZ (bare ranges) start end_.
Proof.
  intros Hne. destruct (MergeRanges_spec ranges Hne) as [Hs Hc]. split; [done|].
  rewrite UncoveredBytes_separated by done. apply countZ_ext. intros a _. unfold bare. by rewrite Hc.
Qed.

Lemma UncoveredBytes_exact_witness :
  separated (MergeRanges [(20, 30); (0, 10); (5, 12)]) ∧
  UncoveredBytes 8 25 (MergeRanges [(20, 30); (0, 10); (5, 12)])
    = countZ (bare [(20, 30); (0, 10); (5, 12)]) 8 25.
Proof. apply UncoveredBytes_exact. repeat constructor. Defined.

Example uncovered_eight : UncoveredBytes 8 25 (MergeRanges [(20, 30); (0, 10); (5, 12)]) = 8.
Proof. vm_compute. reflexivity. Qed.
