(* ===== verification/Driver.v ===== *)
(** * The run over one binary

    Models [src/unwind-check.cc] ([ReadAllFDEs], [RunStructuralChecks], the
    checking path of [Run] and its exit code) and the decisions of
    [src/report.cc] ([ShouldList], [Summarize], the order of the listing).
    [Main] composes them with the flags, the symbolizer and the report. *)

From stdpp Require Import gmap strings sorting.
From S2P Require Import Prelude CfiTable EhFrame TableBuilder AbsState Zydis ElfImage RowCheck FdeChecker LightChecker Coverage.

Definition kExitBlessed : Z := 0.
Definition kExitMismatch : Z := 1.
Definition kExitReview : Z := 2.
Definition kExitFailure : Z := 3.

Record RawFDE := mkRaw { raw_vaddr : Z; raw_cfi : option CFI; raw_error : string }.

Definition MakeStructuralResult (fde_vaddr b e : Z) (sev : Severity) (msg : string) : FDEResult :=
  mkResult fde_vaddr b e false (match sev with kMismatchSev => kMismatch | kReviewSev => kReview end)
           [mkFinding sev b msg 0] 0 None [].

(** ** Names *)

Definition ends_with (suffix l : list Z) : bool :=
  bool_decide (drop (length l - length suffix) l = suffix).
Fixpoint contains (sub l : list Z) : bool :=
  bool_decide (take (length sub) l = sub) ||
  match l with [] => false | _ :: l => contains sub l end.

Definition IsEntryPointName (name : list Z) : bool :=
  negb (ends_with (str_bytes ".cold") name) && negb (contains (str_bytes ".cold.") name).

(** ** Reading *)

Definition read_raw (im : ELFImage) (addr : Z) : RawFDE :=
  match ReadFDE (im_mem im) addr (im_eh_frame_start im) (im_eh_frame_end im) (im_bias im) with
  | Ok c => mkRaw addr (Some c) ""
  | Throw e => mkRaw addr None (error_what e)
  end.

(** The FDEs and the error that stopped the walk, if one did. *)
Definition ReadAllFDEs (im : ELFImage) : list RawFDE * option string :=
  let '(addrs, err) :=
    EnumerateFDEs (im_mem im) (u64 (im_eh_frame_start im + im_bias im))
                  (u64 (im_eh_frame_end im + im_bias im)) in
  ((fun a => read_raw im (ToVaddr im a)) <$> addrs, error_what <$> err).

(** ** Structural checks *)

Definition range_str (c : CFI) : string :=
  "[0x" +:+ fmt_x (pc_begin c) +:+ ", 0x" +:+ fmt_x (pc_end c) +:+ ")".

(** What one FDE contributes: a result of its own, or itself as checkable. *)
Definition classify (im : ELFImage) (raw : RawFDE) : FDEResult + (Z * CFI) :=
  match raw_cfi raw with
  | None =>
      inl (MakeStructuralResult (raw_vaddr raw) 0 0 kReviewSev
             ("cannot decode this FDE: " +:+ raw_error raw))
  | Some c =>
      let bad sev msg :=
        inl (MakeStructuralResult (raw_vaddr raw) (pc_begin c) (pc_end c) sev msg) in
      let size := u64 (pc_end c - pc_begin c) in
      if pc_end c =? pc_begin c then
        bad kMismatchSev "FDE covers an empty PC range (pc_begin == pc_end); noted and skipped"
      else if pc_end c <? pc_begin c then bad kMismatchSev "FDE covers a backwards PC range"
      else if negb (IsExecutable im (pc_begin c) size) then
        bad kMismatchSev ("FDE covers " +:+ range_str c
                          +:+ ", which is not inside one executable PT_LOAD")
      else if InPLT im (pc_begin c) size then
        inl (mkResult (raw_vaddr raw) (pc_begin c) (pc_end c) false kBlessed [] 0 None [])
      else inr (raw_vaddr raw, c)
  end.

Definition left_of {A B} (x : A + B) : option A := match x with inl a => Some a | inr _ => None end.
Definition right_of {A B} (x : A + B) : option B := match x with inl _ => None | inr b => Some b end.

Definition begin_le (a b : Z * CFI) : Prop := pc_begin a.2 <= pc_begin b.2.
#[export] Instance begin_le_dec : RelDecision begin_le.
Proof. intros a b. apply Z.le_dec. Defined.

(** The loop over neighbours of the sorted list. *)
Fixpoint overlaps (sorted : list (Z * CFI)) : list FDEResult :=
  match sorted with
  | (_, prev) :: ((addr, cur) :: _) as rest =>
      (if pc_begin cur <? pc_end prev then
         [MakeStructuralResult addr (pc_begin cur) (pc_end cur) kMismatchSev
            ("FDE range " +:+ range_str cur +:+ " overlaps the preceding FDE's " +:+ range_str prev)]
       else []) ++ overlaps rest
  | _ => []
  end.

(** The results, and the FDEs left to check in section order. *)
Definition RunStructuralChecks (im : ELFImage) (fdes : list RawFDE) : list FDEResult * list CFI :=
  let classified := classify im <$> fdes in
  let sorted := merge_sort begin_le (omap right_of classified) in
  (omap left_of classified ++ overlaps sorted, (omap right_of classified).*2).

(** ** The report's decisions *)

Record ReportOptions := mkReport {
  show_blessed : bool;
  summary_only : bool;
  only_mismatch : bool;
  only_review : bool
}.

Definition ShouldList (v : Verdict) (o : ReportOptions) : bool :=
  match v with
  | kBlessed => show_blessed o
  | _ =>
      if negb (only_mismatch o) && negb (only_review o) then true
      else (only_mismatch o && bool_decide (v = kMismatch))
           || (only_review o && (bool_decide (v = kReview) || bool_decide (v = kReviewLight)))
  end.

Definition verdict_rank (v : Verdict) : Z :=
  match v with kBlessed => 0 | kReviewLight => 1 | kReview => 2 | kMismatch => 3 end.

Definition worse_first (a b : FDEResult) : Prop :=
  verdict_rank (r_verdict b) <= verdict_rank (r_verdict a).
#[export] Instance worse_first_dec : RelDecision worse_first.
Proof. intros a b. apply Z.le_dec. Defined.

(** What [PrintReport] lists, in order ([c_stable_sort]). *)
Definition listed (o : ReportOptions) (results : list FDEResult) : list FDEResult :=
  if summary_only o then []
  else stable_sort worse_first (filter (fun r => ShouldList (r_verdict r) o = true) results).

Record Summary := mkSummary { blessed : Z; review_light : Z; sm_review : Z; sm_mismatch : Z }.

Definition count_verdict (s : Summary) (r : FDEResult) : Summary :=
  match r_verdict r with
  | kBlessed => mkSummary (blessed s + 1) (review_light s) (sm_review s) (sm_mismatch s)
  | kReviewLight => mkSummary (blessed s) (review_light s + 1) (sm_review s) (sm_mismatch s)
  | kReview => mkSummary (blessed s) (review_light s) (sm_review s + 1) (sm_mismatch s)
  | kMismatch => mkSummary (blessed s) (review_light s) (sm_review s) (sm_mismatch s + 1)
  end.
Definition Summarize (results : list FDEResult) : Summary :=
  foldl count_verdict (mkSummary 0 0 0 0) results.
Definition total (s : Summary) : Z := blessed s + review_light s + sm_review s + sm_mismatch s.

Definition exit_code (s : Summary) : Z :=
  if 0 <? sm_mismatch s then kExitMismatch
  else if (0 <? sm_review s) || (0 <? review_light s) then kExitReview
  else kExitBlessed.

(** ** [Run] *)

Record Flags := mkRunFlags {
  fl_full : bool;
  fl_max_findings : Z;
  fl_check_unmentioned_callee_saved : bool;
  fl_report_coverage_gaps : bool;
  fl_report_uncovered_symbols : bool;
  fl_pc : option Z;
  fl_name_matches : Z → bool   (* --function, against the symbol at an address *)
}.

Definition kMaxIterations : nat := Z.to_nat 200000.

Definition index_le (a b : Z * Z * CFI) : Prop := range_le a.1 b.1.
#[export] Instance index_le_dec : RelDecision index_le.
Proof. intros a b. apply range_le_dec. Defined.

Definition make_index (checkable : list CFI) : list (Z * Z * CFI) :=
  merge_sort index_le ((fun c => (pc_begin c, pc_end c, c)) <$> checkable).

Definition function_starts (im : ELFImage) : gset Z :=
  list_to_set (sym_vaddr <$> filter (fun s => IsEntryPointName (sym_name s) = true) (im_symbols im)).

Definition selected (fl : Flags) (c : CFI) : bool :=
  match fl_pc fl with
  | Some pc => (pc_begin c <=? pc) && (pc <? pc_end c)
  | None => true
  end && fl_name_matches fl (pc_begin c).

Section Run.
Context `{ZydisApi} (fl : Flags) (max_iterations : nat).

Definition checker_options (im : ELFImage) (checkable : list CFI) : FDECheckerOptions :=
  mkOptions im (fl_check_unmentioned_callee_saved fl) (fl_report_coverage_gaps fl)
    (Z.to_nat (Z.max 1 (fl_max_findings fl))) max_iterations (make_index checkable).

Definition check_one (im : ELFImage) (checkable : list CFI) (c : CFI) : res FDEResult :=
  let opts := checker_options im checkable in
  if fl_full fl then
    mret (CheckWithGuessing opts c (bool_decide (pc_begin c ∈ function_starts im)))
  else LightCheck opts c.

(** The results of the loop over the checkable FDEs; a [CHECK] failure of
    the light checker ends the program. *)
Definition check_all (im : ELFImage) (checkable : list CFI) : res (list FDEResult) :=
  mapM (M := res) (check_one im checkable) (filter (fun c => selected fl c = true) checkable).

Definition fde_ranges (fdes : list RawFDE) : list (Z * Z) :=
  omap (fun raw => c ← raw_cfi raw;
                   if pc_begin c <? pc_end c then Some (pc_begin c, pc_end c) else None) fdes.

Definition structural_results (im : ELFImage) (fdes : list RawFDE) : list FDEResult :=
  (RunStructuralChecks im fdes).1 ++
  (if fl_report_uncovered_symbols fl then CheckUncoveredSymbols im (fde_ranges fdes) else []).

(** The results of a run and its exit code. *)
Definition run_image (im : ELFImage) : res (list FDEResult * Z) :=
  if negb (has_eh_frame im) then mret ([], kExitFailure)
  else
    let '(fdes, enumerate_error) := ReadAllFDEs im in
    if bool_decide (fdes = []) && bool_decide (is_Some enumerate_error) then mret ([], kExitFailure)
    else
      checked ← check_all im (RunStructuralChecks im fdes).2;
      let results := structural_results im fdes ++ checked in
      mret (results, exit_code (Summarize results)).
End Run.
