(* ===== verification/DriverFacts.v ===== *)
(** * Theorems about the driver

    The overlap check, the summary and the exit code. *)

From stdpp Require Import gmap strings sorting.
From S2P Require Import Prelude CfiTable EhFrame TableBuilder AbsState Zydis ElfImage RowCheck FdeChecker.
From S2P Require Import LightChecker Coverage Driver.

(** ** Overlaps *)

#[export] Instance begin_le_total : Total begin_le.
Proof. intros a b. unfold begin_le. lia. Qed.
#[export] Instance begin_le_trans : Transitive begin_le.
Proof. intros a b c. unfold begin_le. lia. Qed.

(** Two FDEs whose PC ranges share an address. *)
Definition overlapping (a b : CFI) : Prop := pc_begin a < pc_end b ∧ pc_begin b < pc_end a.

Lemma overlaps_nil_cons x y l :
  overlaps (x :: y :: l) = [] ↔ pc_end x.2 <= pc_begin y.2 ∧ overlaps (y :: l) = [].
Proof.
  destruct x as [ax x], y as [ay y]. cbn [overlaps snd].
  destruct (pc_begin y <? pc_end x) eqn:E; cbn; [split; [done|lia]|]. split; [intros; split; [lia|done]|by intros []].
Qed.

Lemma overlaps_nil_sorted l :
  Forall (fun x => pc_begin x.2 < pc_end x.2) l →
  overlaps l = [] ↔ StronglySorted (fun a b => pc_end a.2 <= pc_begin b.2) l.
Proof.
  induction l as [|x l IH]; intros Hne; [split; [intros _; apply SSorted_nil|done]|].
  apply Forall_cons in Hne as [Hx Hne]. specialize (IH Hne). destruct l as [|y l].
  - split; [|by destruct x]. intros _. apply SSorted_cons; [apply SSorted_nil|apply Forall_nil_2].
  - rewrite overlaps_nil_cons, IH. split.
    + intros [H1 H2]. constructor; [done|]. inversion H2; simplify_eq. constructor; [done|].
      apply Forall_cons in Hne as [Hy _]. eapply Forall_impl; [done|]. cbn. intros; lia.
    + inversion 1; simplify_eq. by match goal with H : Forall _ (_ :: _) |- _ => apply Forall_cons in H as [? _] end.
Qed.

(** *** Which results the overlap loop adds *)

Lemma pairwise_disjoint (l : list (Z * CFI)) :
  Forall (fun x => pc_begin x.2 < pc_end x.2) l → StronglySorted begin_le l →
  StronglySorted (fun a b => pc_end a.2 <= pc_begin b.2) l ↔
  ∀ i j a b, (i < j)%nat → l !! i = Some a → l !! j = Some b → ¬ overlapping a.2 b.2.
Proof.
  intros Hne Hs. split.
  - intros Hd. induction Hd as [|x l Hd IH Hx]; intros i j a b Hij Ha Hb; [by rewrite lookup_nil in Ha|].
    apply Forall_cons in Hne as [_ Hne]. inversion Hs; simplify_eq.
    destruct j as [|j]; [lia|]. cbn in Hb. destruct i as [|i]; cbn in Ha.
    + simplify_eq. rewrite Forall_forall in Hx. specialize (Hx b (list_elem_of_lookup_2 _ _ _ Hb)).
      unfold overlapping. lia.
    + eapply (IH ltac:(done) ltac:(done) i j); eauto. lia.
  - induction Hs as [|x l Hs IH Hx]; intros Hall; [apply SSorted_nil|].
    apply Forall_cons in Hne as [Hxn Hne]. apply SSorted_cons.
    + apply IH; [done|]. intros i j a b Hij Ha Hb. apply (Hall (S i) (S j)); [lia|done|done].
    + apply Forall_forall. intros b Hb. pose proof Hb as [j Hj]%list_elem_of_lookup.
      specialize (Hall 0%nat (S j) x b ltac:(lia) eq_refl Hj).
      rewrite Forall_forall in Hx, Hne. specialize (Hx b Hb). specialize (Hne b Hb).
      unfold overlapping, begin_le in *. lia.
Qed.

Lemma classify_right im raw addr c :
  classify im raw = inr (addr, c) →
  raw_cfi raw = Some c ∧ pc_begin c < pc_end c ∧
  IsExecutable im (pc_begin c) (u64 (pc_end c - pc_begin c)) = true.
Proof.
  unfold classify. destruct (raw_cfi raw) as [c'|]; [|done].
  destruct (pc_end c' =? pc_begin c') eqn:E1; [done|]. destruct (pc_end c' <? pc_begin c') eqn:E2; [done|].
  destruct (IsExecutable _ _ _) eqn:E3; cbn; [|done]. destruct (InPLT _ _ _); [done|].
  intros [= <- <-]. split; [done|]. split; [lia|done].
Qed.

Lemma checkable_nonempty im fdes :
  Forall (fun x : Z * CFI => pc_begin x.2 < pc_end x.2) (omap right_of (classify im <$> fdes)).
Proof.
  apply Forall_forall. intros [addr c] Hin. apply list_elem_of_omap in Hin as (r & Hr & Er).
  apply list_elem_of_fmap in Hr as (raw & -> & _). destruct (classify im raw) as [|[a' c']] eqn:E; [done|].
  cbn in Er. simplify_eq. by apply classify_right in E as (_ & ? & _).
Qed.


(** ** The summary and the exit code *)

Definition count_of (v : Verdict) (results : list FDEResult) : Z :=
  Z.of_nat (length (filter (fun r => r_verdict r = v) results)).

Lemma count_of_cons v r l :
  count_of v (r :: l) = (if bool_decide (r_verdict r = v) then 1 else 0) + count_of v l.
Proof. unfold count_of. rewrite filter_cons. case_decide; case_bool_decide; try done; cbn; lia. Qed.

Lemma Summarize_from results s :
  let s' := foldl count_verdict s results in
  blessed s' = blessed s + count_of kBlessed results ∧
  review_light s' = review_light s + count_of kReviewLight results ∧
  sm_review s' = sm_review s + count_of kReview results ∧
  sm_mismatch s' = sm_mismatch s + count_of kMismatch results.
Proof.
  revert s. induction results as [|r l IH]; intros s.
  { unfold count_of. cbn. lia. }
  cbn [foldl]. destruct (IH (count_verdict s r)) as (-> & -> & -> & ->). rewrite !count_of_cons.
  unfold count_verdict. destruct (r_verdict r); repeat case_bool_decide; try done;
    cbn [blessed review_light sm_review sm_mismatch]; lia.
Qed.

Lemma count_of_zero v results : count_of v results = 0 ↔ ∀ r, r ∈ results → r_verdict r ≠ v.
Proof.
  induction results as [|r l IH].
  - split; [by intros _ r ?%elem_of_nil|done].
  - rewrite count_of_cons. assert (0 <= count_of v l) by (unfold count_of; lia).
    case_bool_decide as E.
    + split; [lia|]. intros Hall. exfalso. apply (Hall r); [by left|done].
    + rewrite Z.add_0_l, IH. split.
      * intros Hall r' [->|Hr]%elem_of_cons; auto.
      * intros Hall r' Hr. apply Hall. by right.
Qed.

(** The exit code is the worst verdict: a mismatch anywhere gives 1,
    otherwise a review of either kind 2, and 0 means every result is
    blessed; the summary counts every result once, under its verdict. *)
Lemma exit_code_worst results :
  let s := Summarize results in
  total s = Z.of_nat (length results) ∧
  blessed s = count_of kBlessed results ∧ review_light s = count_of kReviewLight results ∧
  sm_review s = count_of kReview results ∧ sm_mismatch s = count_of kMismatch results ∧
  (exit_code s = kExitMismatch ↔ ∃ r, r ∈ results ∧ r_verdict r = kMismatch) ∧
  (exit_code s = kExitBlessed ↔ ∀ r, r ∈ results → r_verdict r = kBlessed) ∧
  (exit_code s = kExitMismatch ∨ exit_code s = kExitReview ∨ exit_code s = kExitBlessed).
Proof.
  intros s. destruct (Summarize_from results (mkSummary 0 0 0 0)) as (E1 & E2 & E3 & E4).
  change (foldl count_verdict _ results) with s in *. cbn [blessed review_light sm_review sm_mismatch] in *.
  rewrite Z.add_0_l in *. split.
  { unfold total. rewrite E1, E2, E3, E4. clear. induction results as [|r l IH]; [done|].
    rewrite !count_of_cons. cbn [length]. destruct (r_verdict r); repeat case_bool_decide; try done; lia. }
  split_and!; auto.
  - unfold exit_code. rewrite E4. pose proof (count_of_zero kMismatch results) as Hz. split.
    + intros H. destruct (decide (Exists (fun r => r_verdict r = kMismatch) results)) as [He|Hn].
      { apply Exists_exists in He as (r & ? & ?). eauto. }
      exfalso. assert (count_of kMismatch results = 0) as E0.
      { apply Hz. intros r Hr Hv. apply Hn, Exists_exists. eauto. }
      rewrite E0 in H. cbn in H. by repeat case_match.
    + intros (r & Hr & Hv). assert (count_of kMismatch results ≠ 0) by (intros E0; by apply (proj1 Hz E0 r)).
      assert (0 <= count_of kMismatch results) by (unfold count_of; lia).
      assert ((0 <? count_of kMismatch results) = true) as -> by lia. done.
  - unfold exit_code. rewrite E2, E3, E4.
    assert (0 <= count_of kMismatch results ∧ 0 <= count_of kReview results ∧ 0 <= count_of kReviewLight results)
      as (G1 & G2 & G3) by (unfold count_of; lia).
    assert ((if 0 <? count_of kMismatch results then kExitMismatch
      else if (0 <? count_of kReview results) || (0 <? count_of kReviewLight results) then kExitReview
      else kExitBlessed) = kExitBlessed ↔
      count_of kMismatch results = 0 ∧ count_of kReview results = 0 ∧ count_of kReviewLight results = 0) as ->.
    { destruct (0 <? count_of kMismatch results) eqn:T1; [split; [done|lia]|].
      destruct (0 <? count_of kReview results) eqn:T2; cbn [orb]; [split; [done|lia]|].
      destruct (0 <? count_of kReviewLight results) eqn:T3; [split; [done|lia]|]. split; [lia|done]. }
    rewrite !count_of_zero. split.
    + intros (H1 & H2 & H3) r Hr. destruct (r_verdict r) eqn:E; [done| | |]; exfalso; naive_solver.
    + intros Hall. split_and!; intros r Hr; rewrite (Hall r Hr); done.
  - unfold exit_code. repeat case_match; auto.
Qed.
