(* ===== verification/Report.v ===== *)
(** * The report

    Models [src/report.cc] ([PrintOne], [PrintReport]; [ShouldList], the
    order and [Summarize] are in [Driver]) and [DumpCFI] of
    [src/unwind-check.cc]: the lines printed, in order.  The symbolizer,
    which asks a child process, is two functions from addresses to names and
    source locations. *)

From stdpp Require Import gmap strings sorting.
From S2P Require Import Prelude CfiTable AbsState Zydis InsnSemantics ElfImage RowCheck FdeChecker.
From S2P Require Import LightChecker Driver Diagnostics Subprocess Symbolizer.

Section Report.
Context `{ZydisApi} (im : ELFImage) (Name SourceLine : Z → string) (disabled_reason : string).
(** [cfi_by_pc_begin]; [None] when no context is given. *)
Context (by_pc_begin : option (Z → option CFI)).

Definition Location (pc : Z) : string :=
  if bool_decide (SourceLine pc = "") then "0x" +:+ fmt_x pc
  else "0x" +:+ fmt_x pc +:+ " (" +:+ SourceLine pc +:+ ")".

Definition header_line (r : FDEResult) : string :=
  let name := if bool_decide (Name (r_pc_begin r) = "") then "<no symbol>" else Name (r_pc_begin r) in
  pad_right 8 (Verdict_str (r_verdict r)) +:+ " " +:+ name +:+ "  [0x" +:+ fmt_x (r_pc_begin r)
    +:+ " - 0x" +:+ fmt_x (r_pc_end r) +:+ ")" +:+ (if r_signal_frame r then "  (signal frame)" else "").

(** The listing the findings are shown in: none for an empty range. *)
Definition result_listing (r : FDEResult) : list ListedInsn :=
  match by_pc_begin with
  | Some find =>
      if negb (r_pc_begin r =? r_pc_end r) then
        match find (r_pc_begin r) with Some cfi => ListInstructions im cfi | None => [] end
      else []
  | None => []
  end.

Definition finding_lines (listing : list ListedInsn) (f : Finding) : list string :=
  if f_pc f =? 0 then ["  " +:+ f_message f]
  else
    let repeats := if 0 <? f_repeats f
                   then " [and at " +:+ fmt_d (f_repeats f) +:+ " more addresses]" else "" in
    ("  " +:+ Location (f_pc f) +:+ ": " +:+ f_message f +:+ repeats)
      :: (if bool_decide (listing = []) then []
          else default [] (AppendFindingContext listing (f_pc f) DiagnosticsOptions_default)).

Definition guess_lines (g : GuessedJumpTable) : list string :=
  ("  " +:+ Location (gj_pc g) +:+ ": guessed " +:+ fmt_d (Z.of_nat (length (gj_targets g)))
     +:+ " switch-table entries (table at 0x" +:+ fmt_x (gj_table_addr g) +:+ "), targets:")
    :: ((fun target => "      -> " +:+ Location target) <$> gj_targets g).

Definition PrintOne (r : FDEResult) : list string :=
  header_line r :: (r_findings r ≫= finding_lines (result_listing r))
    ++ (r_guessed_jump_tables r ≫= guess_lines).

Definition summary_line (s : Summary) : string :=
  fmt_d (total s) +:+ " FDEs: " +:+ fmt_d (blessed s) +:+ " blessed, " +:+ fmt_d (review_light s)
    +:+ " review-light, " +:+ fmt_d (sm_review s) +:+ " review, " +:+ fmt_d (sm_mismatch s) +:+ " mismatch".

(** The addresses handed to the symbolizer in one batch. *)
Definition interesting (o : ReportOptions) (results : list FDEResult) : list Z :=
  if summary_only o then []
  else filter (fun r => ShouldList (r_verdict r) o = true) results ≫= fun r =>
    r_pc_begin r :: (f_pc <$> r_findings r)
      ++ (r_guessed_jump_tables r ≫= fun g => gj_pc g :: gj_targets g).

Definition PrintReport (o : ReportOptions) (results : list FDEResult) : list string :=
  let ordered := listed o results in
  (ordered ≫= PrintOne)
    ++ (if bool_decide (ordered = []) then [] else [""])
    ++ [summary_line (Summarize results)]
    ++ (if bool_decide (disabled_reason = "") then []
        else ["(source lines unavailable: " +:+ disabled_reason +:+ ")"]).

(** ** [--dump_cfi] *)

Definition dump_row (row : CFIRow) : string :=
  foldl (fun line r => match row_reg row r with
                       | RR_Unset => line
                       | rule => line +:+ "  " +:+ DWARFRegName r +:+ "=" +:+ RegRule_str rule
                       end)
    ("  0x" +:+ pad_right 14 (fmt_x (pc_start row)) +:+ " cfa=" +:+ CFARule_str (row_cfa row))
    (range0 kNumDWARFRegs).

Definition DumpCFI (c : CFI) : list string :=
  ("FDE 0x" +:+ fmt_x (fde_addr c) +:+ " pc=0x" +:+ fmt_x (pc_begin c) +:+ "..0x" +:+ fmt_x (pc_end c)
     +:+ (if bool_decide (Name (pc_begin c) = "") then "" else "  ") +:+ Name (pc_begin c))
    :: (dump_row <$> rows c).
End Report.

(** ** [--addr2line] and [--inspect] in [Run] *)

Definition ParseAddr2LineMode (value : string) : Addr2LineMode :=
  if bool_decide (value = "off") then kOff
  else if bool_decide (value = "auto") || bool_decide (value = "") then kAuto
  else kExplicit value.

(** The first checkable FDE that covers the address. *)
Definition inspect_target (checkable : list CFI) (pc : Z) : option CFI :=
  head (filter (fun c => (pc_begin c <=? pc) && (pc <? pc_end c) = true) checkable).
