(* ===== verification/ReportFacts.v ===== *)
(** * What the report shows

    [PrintReport_shows]: which results [PrintReport] prints, in which order,
    and what its summary counts. *)

From stdpp Require Import list sorting strings.
From S2P Require Import Prelude Zydis ElfImage RowCheck FdeChecker Driver DriverFacts Report.

#[export] Instance worse_first_total : Total worse_first.
Proof. intros a b. unfold worse_first. lia. Qed.
#[export] Instance worse_first_trans : Transitive worse_first.
Proof. intros a b c. unfold worse_first. lia. Qed.

Definition should_list (o : ReportOptions) (r : FDEResult) : Prop := ShouldList (r_verdict r) o = true.
#[export] Instance should_list_dec o r : Decision (should_list o r).
Proof. unfold should_list. apply _. Defined.

(** C35: [PrintReport] prints, unless [--summary_only], every result the
    options select, each once, the worst verdict first and the results of
    one verdict in the order they came in; without [--only_mismatch] and
    [--only_review] that includes every result that is not BLESSED.  The
    last line counts every result, under its verdict. *)
Theorem PrintReport_shows `{ZydisApi} im name line reason find o results :
  ∃ shown,
    PrintReport im name line reason find o results
    = (shown ≫= PrintOne im name line find) ++ (if bool_decide (shown = []) then [] else [""])
      ++ [summary_line (Summarize results)]
      ++ (if bool_decide (reason = "") then [] else ["(source lines unavailable: " +:+ reason +:+ ")"])
    ∧ (if summary_only o then shown = []
       else shown ≡ₚ filter (should_list o) results ∧ StronglySorted worse_first shown
            ∧ (∀ v, filter (fun r => r_verdict r = v) shown
                    = filter (fun r => r_verdict r = v) (filter (should_list o) results))
            ∧ (only_mismatch o = false → only_review o = false →
               ∀ r, r ∈ results → r_verdict r ≠ kBlessed → r ∈ shown))
    ∧ total (Summarize results) = Z.of_nat (length results)
    ∧ blessed (Summarize results) = count_of kBlessed results
    ∧ review_light (Summarize results) = count_of kReviewLight results
    ∧ sm_review (Summarize results) = count_of kReview results
    ∧ sm_mismatch (Summarize results) = count_of kMismatch results.
Proof.
  exists (listed o results). split; [done|]. split.
  - unfold listed. destruct (summary_only o); [done|].
    change (filter _ results) with (filter (should_list o) results).
    split; [apply stable_sort_Permutation|]. split; [apply stable_sort_sorted; apply _|]. split.
    + intros v. apply stable_sort_stable. intros x y Hx Hy. unfold worse_first. rewrite Hx, Hy. lia.
    + intros Hm Hr r Hin Hv. rewrite (stable_sort_Permutation worse_first). apply list_elem_of_filter.
      split; [|done]. unfold should_list, ShouldList. rewrite Hm, Hr. by destruct (r_verdict r).
  - destruct (exit_code_worst results) as (H1 & H2 & H3 & H4 & H5 & _). done.
Qed.
