(* ===== verification/Fixtures.v ===== *)
(** * The setup of the fixture tests

    The decoder and the set-up the test programs over [libfixtures.so]
    share: [fixture_zydis] is an instance of [ZydisApi] that decodes the
    encodings of [src/testdata/fixtures.S], and [all_cfis] and
    [checked_by_name] are what the [SetUpTestSuite] of
    [src/fixtures-test.cc] and [src/light-checker-test.cc] build from an
    opened image.  The tests are functions of the image and the Zydis
    library; [libfixtures] and [fixture_zydis] are their concrete inputs. *)

From stdpp Require Import gmap strings.
From S2P Require Import Prelude CfiTable EhFrame TableBuilder AbsState Zydis ZydisSample Subprocess ElfImage ElfImageFacts FixtureImage RowCheck FdeChecker Symbolizer LightChecker Driver.

(** ** The decoder *)

Definition edi : ZydisRegister := ZR_other 5.
Definition dil : ZydisRegister := ZR_other 37.
Definition imm8 (imm : list Z) : ZydisOperand := op_imm (s8 (le_value imm)) 8.
Definition imm32 (imm : list Z) : ZydisOperand := op_imm (s32 (le_value imm)) 32.
Definition rip_rel (imm : list Z) : ZydisOperand := op_mem ZR_RIP ZR_NONE 0 (s32 (le_value imm)) 64 false.
Definition at_rsp (imm : list Z) (w : bool) : ZydisOperand := op_mem ZR_RSP ZR_NONE 0 (s8 (le_value imm)) 64 w.

Definition plain_imm (opcode : list Z) (n : nat) (id : ZydisMnemonic) (ops : list Z → list ZydisOperand) : encoding :=
  mkEnc opcode n id ops (C_other 0) no_flags.
Definition arith_imm (opcode : list Z) (n : nat) (id : ZydisMnemonic) (ops : list Z → list ZydisOperand) : encoding :=
  mkEnc opcode n id ops (C_other 0) some_flags.
Definition jcc8 (opcode : Z) (id : ZydisMnemonic) : encoding := mkEnc [opcode] 1 id rel8 C_COND_BR no_flags.
Definition jump (opcode : list Z) (n : nat) (ops : list Z → list ZydisOperand) : encoding :=
  mkEnc opcode n M_JMP ops C_UNCOND_BR no_flags.

(** The first byte or bytes, how many immediate bytes, and the operands, the
    destination first; [M_other] are [test] and [je]. *)
Definition fixture_encodings : list encoding :=
  [plain_enc [0xc3] M_RET [];
   plain_enc [0xc9] M_LEAVE [];
   plain_enc [0x53] M_PUSH [op_reg ZR_RBX false];
   plain_enc [0x55] M_PUSH [op_reg ZR_RBP false];
   plain_enc [0x41; 0x54] M_PUSH [op_reg ZR_R12 false];
   plain_enc [0x5b] M_POP [op_reg ZR_RBX true];
   plain_enc [0x5d] M_POP [op_reg ZR_RBP true];
   plain_enc [0x41; 0x5c] M_POP [op_reg ZR_R12 true];
   plain_enc [0x89; 0xf8] M_MOV [op_reg eax true; op_reg edi false];
   plain_enc [0x48; 0x89; 0xe5] M_MOV [op_reg ZR_RBP true; op_reg ZR_RSP false];
   plain_enc [0x49; 0x89; 0xf4] M_MOV [op_reg ZR_R12 true; op_reg ZR_RSI false];
   plain_enc [0x40; 0x0f; 0xb6; 0xc7] M_MOVZX [op_reg eax true; op_reg dil false];
   plain_enc [0x48; 0x63; 0x14; 0x81] M_MOVSXD [op_reg ZR_RDX true; op_mem ZR_RCX ZR_RAX 4 0 32 false];
   plain_imm [0xb8] 4 M_MOV (fun i => [op_reg eax true; imm32 i]);
   plain_imm [0x48; 0xc7; 0xc3] 4 M_MOV (fun i => [op_reg ZR_RBX true; imm32 i]);
   plain_imm [0x48; 0x89; 0x5c; 0x24] 1 M_MOV (fun i => [at_rsp i true; op_reg ZR_RBX false]);
   plain_imm [0x48; 0x8b; 0x5c; 0x24] 1 M_MOV (fun i => [op_reg ZR_RBX true; at_rsp i false]);
   plain_imm [0x48; 0x8d; 0x0d] 4 M_LEA (fun i => [op_reg ZR_RCX true; rip_rel i]);
   plain_imm [0x48; 0x8d; 0x1d] 4 M_LEA (fun i => [op_reg ZR_RBX true; rip_rel i]);
   arith_imm [0x48; 0x83; 0xec] 1 M_SUB (fun i => [op_reg ZR_RSP true; imm8 i]);
   arith_imm [0x48; 0x83; 0xc4] 1 M_ADD (fun i => [op_reg ZR_RSP true; imm8 i]);
   arith_imm [0x48; 0x01; 0xca] 0 M_ADD (fun _ => [op_reg ZR_RDX true; op_reg ZR_RCX false]);
   arith_imm [0x83; 0xf8] 1 M_CMP (fun i => [op_reg eax false; imm8 i]);
   arith_imm [0x40; 0x80; 0xff] 1 M_CMP (fun i => [op_reg dil false; imm8 i]);
   arith_imm [0x85; 0xff] 0 (M_other 1) (fun _ => [op_reg edi false; op_reg edi false]);
   jcc8 0x72 M_JB; jcc8 0x74 (M_other 2); jcc8 0x76 M_JBE; jcc8 0x77 M_JNBE;
   jump [0xeb] 1 rel8;
   jump [0xe9] 4 rel32;
   jump [0xff; 0xe2] 0 (fun _ => [op_reg ZR_RDX false]);
   jump [0x3e; 0xff; 0xe2] 0 (fun _ => [op_reg ZR_RDX false]);
   jump [0xff; 0xe6] 0 (fun _ => [op_reg ZR_RSI false]);
   plain_imm [0xe8] 4 M_CALL rel32].

#[local] Instance fixture_zydis : ZydisApi := {
  GetLargestEnclosing := sample_enclosing;
  GetWidth := sample_width;
  DecodeFull := table_decode fixture_encodings;
  CalcAbsoluteAddress := rip_address;
  FormatInstruction := fun _ => None
}.
#[local] Instance fixture_laws : ZydisLaws.
Proof. sample_register_laws. Qed.

(** [ELFImage::Open] of the fixture, every system call succeeding. *)
Definition open_fixture (file : list Z) : res ELFImage :=
  Open "testdata/libfixtures.so" file (fun _ => None) reserve_low.

(** ** The set-up *)

Section SetUp.
Context `{ZydisApi} (cxa_demangle : string → option string).

(** [EnumerateFDEs] with the [ReadFDE] callback; an exception of either fails
    the set-up. *)
Definition all_cfis (im : ELFImage) : res (list CFI) :=
  let '(addrs, err) :=
    EnumerateFDEs (im_mem im) (u64 (im_eh_frame_start im + im_bias im)) (u64 (im_eh_frame_end im + im_bias im)) in
  cfis ← mapM (M := res)
           (fun a => ReadFDE (im_mem im) (ToVaddr im a) (im_eh_frame_start im) (im_eh_frame_end im) (im_bias im))
           addrs;
  match err with Some e => Throw e | None => mret cfis end.

(** [symbolizer_->Name] of a symbolizer that runs no tool. *)
Definition fixture_name (im : ELFImage) (vaddr : Z) : string :=
  Name im cxa_demangle (make_symbolizer im (fun _ => false) None kOff) vaddr.

Definition fixture_options (im : ELFImage) (cfis : list CFI) : FDECheckerOptions :=
  mkOptions im false true 8 kMaxIterations (make_index cfis).

(** [by_name_] as the list of its entries: [emplace] keeps the first. *)
Definition emplace_result (m : list (string * FDEResult)) (name : string) (r : FDEResult) :=
  if existsb (fun e => bool_decide (e.1 = name)) m then m else m ++ [(name, r)].

Definition checked_by_name (check : FDECheckerOptions → CFI → bool → res FDEResult) (im : ELFImage) :
    res (list (string * FDEResult)) :=
  let starts : gset Z := list_to_set (sym_vaddr <$> im_symbols im) in
  cfis ← all_cfis im;
  let options := fixture_options im cfis in
  foldl (fun acc cfi =>
    m ← acc;
    let name := fixture_name im (pc_begin cfi) in
    if bool_decide (name = "") then mret m
    else r ← check options cfi (bool_decide (pc_begin cfi ∈ starts)); mret (emplace_result m name r))
    (mret []) cfis.
End SetUp.

(** ** Matchers *)

Definition HasSubstr (sub s : string) : bool := bool_decide (is_Some (String.index 0 sub s)).
Definition messages (r : FDEResult) : list string := f_message <$> r_findings r.
Definition some_message (sub : string) (r : FDEResult) : bool := existsb (HasSubstr sub) (messages r).
Definition Get (m : list (string * FDEResult)) (name : string) : option FDEResult :=
  snd <$> head (filter (fun e => e.1 = name) m).
(** An expectation on [Get(name)]; no FDE of that name is a failure. *)
Definition expect (m : list (string * FDEResult)) (name : string) (p : FDEResult → bool) : bool :=
  match Get m name with Some r => p r | None => false end.
