(* ===== verification/FixtureTests.v ===== *)
(** * The fixture tests

    Models [src/fixtures-test.cc]: every [TEST_F] is a boolean of the opened
    image and of [by_name], the results of the checker on the FDEs of the
    fixture, and [fixture_tests_pass] runs them all on [libfixtures]. *)

From stdpp Require Import strings.
From S2P Require Import Prelude CfiTable EhFrame AbsState Zydis ZydisSample ElfImage FixtureImage RowCheck FdeChecker Driver Fixtures.

Section Tests.
Context `{ZydisApi} (cxa_demangle : string → option string) (image : ELFImage).

Definition SetUpTestSuite : res (list (string * FDEResult)) :=
  checked_by_name cxa_demangle (fun options cfi at_entry => mret (Check options cfi at_entry false)) image.

Context (by_name : list (string * FDEResult)).

(** Address of the n-th instruction after [pc]. *)
Fixpoint skip_instructions (index : nat) (pc : Z) : option Z :=
  match index with
  | O => Some pc
  | S index => insn ← Decode (BytesAt image pc 16) pc; skip_instructions index (u64 (pc + in_size insn))
  end.
Definition InstructionAt (name : string) (index : nat) : option Z :=
  r ← Get by_name name; skip_instructions index (r_pc_begin r).

(** The first finding is a mismatch at [pc] that says all of [subs]. *)
Definition first_finding (name : string) (pc : option Z) (subs : list string) : bool :=
  expect by_name name (fun r =>
    match r_findings r with
    | f :: _ => bool_decide (f_severity f = kMismatchSev) && bool_decide (pc = Some (f_pc f))
                && forallb (fun sub => HasSubstr sub (f_message f)) subs
    | [] => false
    end).
Definition says (name sub : string) : bool := expect by_name name (some_message sub).
Definition is_blessed (r : FDEResult) : bool := bool_decide (r_verdict r = kBlessed).
Definition blessed_after (name : string) (n : Z) : bool :=
  expect by_name name (fun r => is_blessed r && (n <=? r_instructions_checked r)).
Definition blessed_silently (name : string) : bool :=
  expect by_name name (fun r => is_blessed r && bool_decide (messages r = [])).

Definition t_EveryFixtureIsPresent : bool :=
  forallb (fun name => bool_decide (is_Some (Get by_name name)))
    ["good_leaf"; "good_frame_pointer"; "good_callee_saved"; "good_leave"; "good_shared_epilogue";
     "good_mov_spill"; "good_call"; "good_tail_call"; "good_indirect_tail_call"; "bad_hoisted_add";
     "bad_late_push_cfi"; "review_unusual_entry_row"; "bad_wrong_register_saved";
     "bad_ret_stack_not_restored"; "bad_ret_wrong_reg_restored"; "bad_tail_call_wrong_reg_restored";
     "review_ret_callee_saved_untracked"; "review_indirect_jump"; "review_cfa_expression";
     "bad_lea_into_callee_saved"; "good_switch_table"; "good_switch_table_jbe"; "good_switch_table_jb";
     "bad_switch_table_case"; "review_switch_table_unguarded"; "good_jump_to_cold_fragment";
     "bad_jump_to_cold_fragment"; "review_tail_call_no_target_fde"; "good_switch_table_into_cold";
     "bad_switch_table_into_cold"].

Definition t_NamesMatchVerdicts : bool :=
  forallb (fun '(name, r) =>
    if String.prefix "good_" name then bool_decide (r_verdict r = kBlessed)
    else if String.prefix "bad_" name then bool_decide (r_verdict r = kMismatch)
    else String.prefix "review_" name && bool_decide (r_verdict r = kReview)) by_name.

Definition t_HoistedStackAdjustmentIsCaughtAtTheRightInstruction : bool :=
  first_finding "bad_hoisted_add" (InstructionAt "bad_hoisted_add" 3)
    ["declared CFA is rsp+24"; "rsp is CFA-16"].

Definition t_LatePushCFIIsCaughtAtTheInstructionInBetween : bool :=
  first_finding "bad_late_push_cfi" (InstructionAt "bad_late_push_cfi" 1) ["declared CFA is rsp+8"].

Definition t_UnusualEntryRowIsFlaggedButNotCalledABug : bool :=
  says "review_unusual_entry_row" "a function symbol starts here and we expect canonical entry CFI but we got".

Definition t_SlotHoldingTheWrongRegisterIsCaught : bool :=
  says "bad_wrong_register_saved" "CFI says rbx is saved at [CFA-16], but that slot holds entry rbp".

Definition t_ReturnWithUnrestoredStackIsCaught : bool :=
  says "bad_ret_stack_not_restored" "return with rsp at CFA-16 (should be CFA-8)".

Definition t_ReturnWithWrongCalleeSavedRegisterIsCaught : bool :=
  says "bad_ret_wrong_reg_restored" "return with callee-saved register rbx holding entry r12".

Definition t_TailCallWithWrongCalleeSavedRegisterIsCaught : bool :=
  says "bad_tail_call_wrong_reg_restored" "CFI says rbx still holds its entry value, but it holds entry r12".

Definition t_ReturnWithUntrackedCalleeSavedIsReview : bool :=
  says "review_ret_callee_saved_untracked" "return with untracked callee-saved register rbx".

Definition t_IndirectJumpIsFlaggedNotGuessed : bool := says "review_indirect_jump" "unresolved indirect jump".

Definition t_ClobberingACalleeSavedRegisterWithAKnownValueIsAMismatchNotAReview : bool :=
  expect by_name "bad_lea_into_callee_saved" (fun r =>
    bool_decide (r_verdict r = kMismatch) && some_message "rbx" r).

Definition t_SwitchTableCasesGetWalked : bool := blessed_after "good_switch_table" 8.

Definition t_SwitchTableGuardedByJbeOnASubRegisterResolves : bool := blessed_after "good_switch_table_jbe" 8.

Definition t_SwitchTableGuardedByJbResolvesWithTheStrictBound : bool := blessed_after "good_switch_table_jb" 8.

Definition t_StaleCFIInASwitchCaseBodyIsCaught : bool := says "bad_switch_table_case" "declared CFA is".

Definition t_UnguardedIndirectJumpStaysReviewRatherThanBeingResolvedOnAGuess : bool :=
  says "review_switch_table_unguarded" "unresolved indirect jump".

Definition t_JumpIntoColdFragmentIsCheckedAgainstItsOwnDeclaredRow : bool :=
  blessed_silently "good_jump_to_cold_fragment".

Definition t_JumpIntoColdFragmentWithWrongStateIsAMismatch : bool :=
  first_finding "bad_jump_to_cold_fragment" (InstructionAt "bad_jump_to_cold_fragment" 1)
    ["jump to"; "declared CFA is rsp+16"].

Definition t_TailCallToAnAddressWithNoFDEStillUsesTheABIFallback : bool :=
  says "review_tail_call_no_target_fde" "no covering FDE".

Definition t_SwitchTableCaseInAnotherFDEIsCheckedAgainstItsDeclaredRow : bool :=
  blessed_silently "good_switch_table_into_cold".

Definition t_SwitchTableCaseInAnotherFDEWithWrongStateIsAMismatch : bool :=
  says "bad_switch_table_into_cold" "declared CFA is rsp+16".

Definition t_CFAExpressionIsFlaggedNotEvaluated : bool :=
  says "review_cfa_expression" "CFA is given by a DWARF expression".

Definition t_BlessedFunctionsActuallyGotWalked : bool :=
  forallb (fun '(_, r) => negb (is_blessed r) || (2 <=? r_instructions_checked r)) by_name.
End Tests.

(** ** The run *)

#[local] Existing Instance fixture_zydis.

Definition fixture_tests `{ZydisApi} (image : ELFImage) (by_name : list (string * FDEResult)) : list bool :=
  [t_EveryFixtureIsPresent by_name;
   t_NamesMatchVerdicts by_name;
   t_HoistedStackAdjustmentIsCaughtAtTheRightInstruction image by_name;
   t_LatePushCFIIsCaughtAtTheInstructionInBetween image by_name;
   t_UnusualEntryRowIsFlaggedButNotCalledABug by_name;
   t_SlotHoldingTheWrongRegisterIsCaught by_name;
   t_ReturnWithUnrestoredStackIsCaught by_name;
   t_ReturnWithWrongCalleeSavedRegisterIsCaught by_name;
   t_TailCallWithWrongCalleeSavedRegisterIsCaught by_name;
   t_ReturnWithUntrackedCalleeSavedIsReview by_name;
   t_IndirectJumpIsFlaggedNotGuessed by_name;
   t_ClobberingACalleeSavedRegisterWithAKnownValueIsAMismatchNotAReview by_name;
   t_SwitchTableCasesGetWalked by_name;
   t_SwitchTableGuardedByJbeOnASubRegisterResolves by_name;
   t_SwitchTableGuardedByJbResolvesWithTheStrictBound by_name;
   t_StaleCFIInASwitchCaseBodyIsCaught by_name;
   t_UnguardedIndirectJumpStaysReviewRatherThanBeingResolvedOnAGuess by_name;
   t_JumpIntoColdFragmentIsCheckedAgainstItsOwnDeclaredRow by_name;
   t_JumpIntoColdFragmentWithWrongStateIsAMismatch image by_name;
   t_TailCallToAnAddressWithNoFDEStillUsesTheABIFallback by_name;
   t_SwitchTableCaseInAnotherFDEIsCheckedAgainstItsDeclaredRow by_name;
   t_SwitchTableCaseInAnotherFDEWithWrongStateIsAMismatch by_name;
   t_CFAExpressionIsFlaggedNotEvaluated by_name;
   t_BlessedFunctionsActuallyGotWalked by_name].

Example fixture_tests_pass :
  (image ← open_fixture libfixtures;
   by_name ← SetUpTestSuite (fun _ => None) image;
   mret (forallb id (fixture_tests image by_name))) = Ok true.
Proof. vm_compute. reflexivity. Qed.
