(* ===== verification/LightCheckerTests.v ===== *)
(** * The light checker's tests

    Models [src/light-checker-test.cc]: every [TEST_F] is a boolean of
    [by_name], the results of [LightCheck] on the FDEs of the fixture, and
    [light_checker_tests_pass] runs them all on [libfixtures]. *)

From stdpp Require Import strings.
From S2P Require Import Prelude CfiTable EhFrame AbsState Zydis ZydisSample ElfImage FixtureImage RowCheck FdeChecker LightChecker Driver Fixtures.

(** [LightCheck] does not use [at_function_entry]. *)
Definition SetUpTestSuite `{ZydisApi} (cxa_demangle : string → option string) (image : ELFImage) :
    res (list (string * FDEResult)) :=
  checked_by_name cxa_demangle (fun options cfi _ => LightCheck options cfi) image.

Section Tests.
Context (by_name : list (string * FDEResult)).

Definition is_verdict (v : Verdict) (name : string) : bool :=
  expect by_name name (fun r => bool_decide (r_verdict r = v)).
Definition comes_out (v : Verdict) (name sub : string) : bool :=
  is_verdict v name && expect by_name name (some_message sub).

Definition t_StraightforwardGoodFunctionsAreBlessed : bool :=
  forallb (fun name => is_verdict kBlessed name && expect by_name name (fun r => bool_decide (messages r = [])))
    ["good_leaf"; "good_callee_saved"; "good_call"; "good_shared_epilogue"].

Definition t_FramePointerSwitchIsBlessedWithASilentGap : bool := is_verdict kBlessed "good_frame_pointer".

Definition t_LeaveIsFullyVerified : bool := is_verdict kBlessed "good_leave".

Definition t_MovSpillPositionIsVerified : bool := is_verdict kBlessed "good_mov_spill".

Definition t_HoistedStackAdjustmentIsCaught : bool := comes_out kMismatch "bad_hoisted_add" "declared CFA is".

Definition t_LatePushCFIIsCaught : bool := comes_out kMismatch "bad_late_push_cfi" "declared CFA is".

Definition t_JumpIntoColdFragmentIsCheckedAgainstItsOwnDeclaredRow : bool :=
  is_verdict kBlessed "good_jump_to_cold_fragment".

Definition t_JumpIntoColdFragmentWithWrongStateIsAMismatch : bool :=
  comes_out kMismatch "bad_jump_to_cold_fragment" "jump to".

Definition t_CFAExpressionIsReviewNotSilentlySkipped : bool :=
  comes_out kReview "review_cfa_expression" "CFA is given by a DWARF expression".

Definition t_SwitchTableCaseBodiesAreStillWalkedWithoutResolvingTheDispatch : bool :=
  is_verdict kBlessed "good_switch_table"
  && expect by_name "good_switch_table" (fun r => 8 <=? r_instructions_checked r).

Definition t_StaleCFIInASwitchCaseBodyIsStillCaught : bool :=
  comes_out kMismatch "bad_switch_table_case" "declared CFA is".

Definition t_NeverPopulatesGuessingFields : bool :=
  forallb (fun '(_, r) =>
    bool_decide (r_guessable_jump_pc r = None) && bool_decide (length (r_guessed_jump_tables r) = 0%nat)
    && negb (bool_decide (r_verdict r = kReviewLight))) by_name.

Definition t_BlessedFunctionsActuallyGotWalked : bool :=
  forallb (fun '(_, r) =>
    negb (bool_decide (r_verdict r = kBlessed)) || (2 <=? r_instructions_checked r)) by_name.
End Tests.

(** ** The run *)

#[local] Existing Instance fixture_zydis.

Definition light_checker_tests (by_name : list (string * FDEResult)) : list bool :=
  [t_StraightforwardGoodFunctionsAreBlessed by_name;
   t_FramePointerSwitchIsBlessedWithASilentGap by_name;
   t_LeaveIsFullyVerified by_name;
   t_MovSpillPositionIsVerified by_name;
   t_HoistedStackAdjustmentIsCaught by_name;
   t_LatePushCFIIsCaught by_name;
   t_JumpIntoColdFragmentIsCheckedAgainstItsOwnDeclaredRow by_name;
   t_JumpIntoColdFragmentWithWrongStateIsAMismatch by_name;
   t_CFAExpressionIsReviewNotSilentlySkipped by_name;
   t_SwitchTableCaseBodiesAreStillWalkedWithoutResolvingTheDispatch by_name;
   t_StaleCFIInASwitchCaseBodyIsStillCaught by_name;
   t_NeverPopulatesGuessingFields by_name;
   t_BlessedFunctionsActuallyGotWalked by_name].

Example light_checker_tests_pass :
  (image ← open_fixture libfixtures;
   by_name ← SetUpTestSuite (fun _ => None) image;
   mret (forallb id (light_checker_tests by_name))) = Ok true.
Proof. vm_compute. reflexivity. Qed.
