(* ===== verification/CfiTableTests.v ===== *)
(** * The CFI table's tests

    Models [src/cfi-table-test.cc].  The tests of the decoded tables are
    booleans of the opened fixture and its decoded FDEs;
    [cfi_table_fixture_tests_pass] runs them on [libfixtures].  The tests of
    how rules and register names print need no fixture. *)

From stdpp Require Import gmap strings.
From S2P Require Import Prelude CfiTable EhFrame TableBuilder ElfImage FixtureImage Symbolizer Fixtures.

#[local] Notation "x == y" := (bool_decide (x = y)) (at level 70).

Definition t_CFARuleStringify : bool :=
  (CFARule_str (mkCFA CFA_Undefined 0 0) == "<no CFA rule>")
  && (CFARule_str (mkCFA CFA_RegOffset kDWARFRsp 8) == "rsp+8")
  && (CFARule_str (mkCFA CFA_Expression 0 0) == "<DWARF expression>").

Definition t_RegRuleStringify : bool :=
  (RegRule_str RR_Unset == "<no rule>")
  && (RegRule_str RR_Undefined == "undefined")
  && (RegRule_str RR_SameValue == "same_value")
  && (RegRule_str (RR_AtCFAOffset (-8)) == "[CFA-8]")
  && (RegRule_str (RR_ValOffset 16) == "CFA+16")
  && (RegRule_str (RR_InRegister kDWARFRbp) == "in rbp")
  && (RegRule_str RR_Expression == "<DWARF expression>")
  && (RegRule_str RR_ValExpression == "<DWARF val expression>").

Definition t_DWARFRegName : bool :=
  (DWARFRegName 7 == "rsp") && (DWARFRegName (-1) == "r{-1}").

Example cfi_table_tests_pass : t_CFARuleStringify && t_RegRuleStringify && t_DWARFRegName = true.
Proof. vm_compute. reflexivity. Qed.

(** ** The tests of the decoded tables *)

Section Tests.
Context (image : ELFImage) (cfis : list CFI).

(** The maps [symbols_] and [fdes_] of the fixture; a later entry replaces an
    earlier one. *)
Definition symbols : gmap string Z :=
  foldl (fun m s => <[string_of_bytes (sym_name s) := sym_vaddr s]> m) ∅ (im_symbols image).
Definition fdes : gmap Z CFI := foldl (fun m c => <[pc_begin c := c]> m) ∅ cfis.
Definition FDEFor (name : string) : option CFI := vaddr ← symbols !! name; fdes !! vaddr.
Definition expect_fde (name : string) (p : CFI → bool) : bool :=
  match FDEFor name with Some c => p c | None => false end.

Definition is_fixture (name : string) : bool :=
  String.prefix "good_" name || String.prefix "bad_" name || String.prefix "review_" name.

Definition t_FDERangesMatchTheSymbolTable : bool :=
  forallb (fun '(name, vaddr) =>
    negb (is_fixture name)
    || match fdes !! vaddr with
       | Some c => (pc_begin c == vaddr) && (pc_begin c <? pc_end c)
       | None => false
       end) (map_to_list symbols).

Definition t_EveryFDEStartsWithTheCIEsReturnAddressRule : bool :=
  forallb (fun '(_, c) =>
    (return_reg c == kDWARFRip)
    && match rows c with [] => false | row :: _ => pc_start row == pc_begin c end) (map_to_list fdes).

(** The row's rule for a register. *)
Definition has_rule (row : CFIRow) (reg : Z) (rule : RegRule) : bool := row_reg row reg == rule.

Definition t_DecodesTheHandWrittenRowsOfGoodCalleeSaved : bool :=
  expect_fde "good_callee_saved" (fun c =>
    forallb (fun row => (cfa_kind (row_cfa row) == CFA_RegOffset) && (cfa_reg (row_cfa row) == kDWARFRsp)) (rows c)
    && ((cfa_offset ∘ row_cfa <$> rows c) == [8; 16; 24; 32; 24; 16; 8])
    && match row_at c (default 0 (pc_start <$> rows c !! 3%nat)) with
       | Some mid =>
           has_rule mid kDWARFRbx (RR_AtCFAOffset (-16)) && has_rule mid 12 (RR_AtCFAOffset (-24))
           && has_rule mid kDWARFRip (RR_AtCFAOffset (-8))
       | None => false
       end).

Definition t_TracksTheFramePointerBecomingTheCFARegister : bool :=
  let at_rbp row := (cfa_reg (row_cfa row) == kDWARFRbp) && (cfa_kind (row_cfa row) == CFA_RegOffset) in
  expect_fde "good_frame_pointer" (fun c =>
    match head (rows c), last (rows c) with
    | Some front, Some back =>
        bool_decide (3 ≤ length (rows c))%nat && (cfa_reg (row_cfa front) == kDWARFRsp)
        && forallb (fun row => negb (at_rbp row) || (cfa_offset (row_cfa row) == 16)) (rows c)
        && existsb at_rbp (rows c)
        && (cfa_reg (row_cfa back) == kDWARFRsp) && (cfa_offset (row_cfa back) == 8)
    | _, _ => false
    end).

Definition t_RecordsDWARFExpressionsWithoutEvaluatingThem : bool :=
  expect_fde "review_cfa_expression" (fun c =>
    bool_decide (2 ≤ length (rows c))%nat
    && match last (rows c) with Some back => cfa_kind (row_cfa back) == CFA_Expression | None => false end).

Definition t_RowLookupIsBoundedByTheFDERange : bool :=
  let found c pc := bool_decide (is_Some (row_at c pc)) in
  expect_fde "good_leaf" (fun c =>
    found c (pc_begin c) && found c (pc_end c - 1) && negb (found c (pc_end c)) && negb (found c (pc_begin c - 1))).

Definition t_MalformedFDEAddressThrowsRatherThanCrashing : bool :=
  match ReadFDE (im_mem image) (u64 (im_eh_frame_end image + 0x1000)) (im_eh_frame_start image)
          (im_eh_frame_end image) (im_bias image) with
  | Throw (EHFrameError _) => true
  | _ => false
  end.
End Tests.

Definition cfi_table_fixture_tests (image : ELFImage) (cfis : list CFI) : list bool :=
  [t_FDERangesMatchTheSymbolTable image cfis;
   t_EveryFDEStartsWithTheCIEsReturnAddressRule cfis;
   t_DecodesTheHandWrittenRowsOfGoodCalleeSaved image cfis;
   t_TracksTheFramePointerBecomingTheCFARegister image cfis;
   t_RecordsDWARFExpressionsWithoutEvaluatingThem image cfis;
   t_RowLookupIsBoundedByTheFDERange image cfis;
   t_MalformedFDEAddressThrowsRatherThanCrashing image].

Example cfi_table_fixture_tests_pass :
  (image ← open_fixture libfixtures;
   cfis ← all_cfis image;
   mret (forallb id (cfi_table_fixture_tests image cfis))) = Ok true.
Proof. vm_compute. reflexivity. Qed.
