(* ===== verification/ElfImageTests.v ===== *)
(** * The image loader's tests

    Models [src/elf-image-test.cc] on [libfixtures].  The half of
    [RejectsThingsThatAreNotX8664ELF] that opens a path that does not exist
    is not here: [Open] is given a file's bytes. *)

From stdpp Require Import sorting strings.
From S2P Require Import Prelude EhFrame ElfImage ElfImageFacts FixtureImage Symbolizer Fixtures.

Section Tests.
Context (image : ELFImage).

(** An expectation on [func_symbols().front()]. *)
Definition expect_front (p : FuncSymbol → bool) : bool :=
  match im_symbols image with s :: _ => p s | [] => false end.

Definition t_FindsEHFrame : bool :=
  has_eh_frame image && (im_eh_frame_start image <? im_eh_frame_end image)
  && negb (im_eh_frame_hdr image =? 0).

Definition t_BiasRoundTrips : bool :=
  let vaddr := im_eh_frame_start image in ToVaddr image (ToImage image vaddr) =? vaddr.

Definition t_PreservesVaddrDistancesAcrossSections : bool :=
  expect_front (fun s =>
    let code := sym_vaddr s in
    let eh_frame := im_eh_frame_start image in
    s64 (s64 eh_frame - s64 code) =? s64 (s64 (ToImage image eh_frame) - s64 (ToImage image code))).

Definition t_MapsCodeBytesThatMatchTheFile : bool :=
  expect_front (fun s =>
    let bytes := BytesAt image (sym_vaddr s) 8 in
    bool_decide (length bytes = 8%nat) && negb (bool_decide (length (filter (fun b => b = 0) bytes) = 8%nat))).

Definition t_KnowsWhichAddressesAreExecutable : bool :=
  expect_front (fun s =>
    IsExecutable image (sym_vaddr s) 1 && negb (IsExecutable image (im_eh_frame_start image) 1)
    && negb (IsExecutable image 0 1)).

(** [std::is_sorted]: no neighbours out of order. *)
Fixpoint is_sorted (syms : list FuncSymbol) : bool :=
  match syms with
  | a :: (b :: _) as syms => negb (sym_vaddr b <? sym_vaddr a) && is_sorted syms
  | _ => true
  end.
Definition t_ReadsFunctionSymbolsSortedByAddress : bool :=
  let named name := existsb (fun s => bool_decide (string_of_bytes (sym_name s) = name)) (im_symbols image) in
  negb (bool_decide (length (im_symbols image) = 0%nat)) && is_sorted (im_symbols image)
  && named "good_leaf" && named "bad_hoisted_add".
End Tests.

Definition t_RejectsThingsThatAreNotX8664ELF (text : list Z) : bool :=
  match Open "testdata/fixtures.S" text (fun _ => None) reserve_low with Ok _ => false | Throw _ => true end.

(** The first lines of [fixtures.S]. *)
Definition fixtures_text : list Z :=
  str_bytes "/* -*- Mode: asm -*- */" ++ [10] ++ str_bytes "/*" ++ [10]
  ++ str_bytes " * Hand-written CFI fixtures for unwind-check." ++ [10].

Definition elf_image_tests (image : ELFImage) : list bool :=
  [t_FindsEHFrame image;
   t_BiasRoundTrips image;
   t_PreservesVaddrDistancesAcrossSections image;
   t_MapsCodeBytesThatMatchTheFile image;
   t_KnowsWhichAddressesAreExecutable image;
   t_ReadsFunctionSymbolsSortedByAddress image;
   t_RejectsThingsThatAreNotX8664ELF fixtures_text].

Example elf_image_tests_pass :
  (image ← open_fixture libfixtures; mret (forallb id (elf_image_tests image))) = Ok true.
Proof. vm_compute. reflexivity. Qed.
