(* ===== verification/CoverageTests.v ===== *)
(** * The coverage checker's tests

    Models [src/coverage-check-test.cc] on [libfixtures]. *)

From stdpp Require Import strings.
From S2P Require Import Prelude CfiTable EhFrame TableBuilder ElfImage FixtureImage RowCheck FdeChecker Coverage Fixtures.

(** [results_] of the fixture: [fde_ranges] are the non-empty ranges. *)
Definition SetUpTestSuite (image : ELFImage) : res (list FDEResult) :=
  cfis ← all_cfis image;
  let fde_ranges :=
    omap (fun cfi => if pc_begin cfi <? pc_end cfi then Some (pc_begin cfi, pc_end cfi) else None) cfis in
  mret (CheckUncoveredSymbols image fde_ranges).

Section Tests.
Context (cxa_demangle : string → option string) (image : ELFImage) (results : list FDEResult).

Definition result_name (r : FDEResult) : string := fixture_name cxa_demangle image (r_pc_begin r).
Definition FindByName (name : string) : option FDEResult :=
  head (filter (fun r => result_name r = name) results).

Definition t_SymbolWithNoFDEIsFlaggedReview : bool :=
  match FindByName "uncovered_no_cfi" with
  | Some found =>
      bool_decide (r_verdict found = kReview)
      && match r_findings found with
         | f :: _ => bool_decide (f_severity f = kReviewSev)
                     && HasSubstr "no FDE covers this symbol at all" (f_message f)
         | [] => false
         end
  | None => false
  end.

Definition t_FixturesWithCFIAreNotFlagged : bool :=
  forallb (fun r =>
    let name := result_name r in
    negb (String.prefix "good_" name || String.prefix "bad_" name || String.prefix "review_" name)) results.
End Tests.

Example coverage_tests_pass :
  (image ← open_fixture libfixtures;
   results ← SetUpTestSuite image;
   mret (t_SymbolWithNoFDEIsFlaggedReview (fun _ => None) image results
         && t_FixturesWithCFIAreNotFlagged (fun _ => None) image results)) = Ok true.
Proof. vm_compute. reflexivity. Qed.
