(* ===== verification/FixtureRun.v ===== *)
(** * The fixtures, checked and executed

    What the soundness theorems say of [fixtures.S]: [fixtures_unwind], every
    FDE of the fixture binary the strict full checker blesses unwinds
    correctly along every execution, and [fixtures_strictly_blessed], which
    functions those are. *)

From stdpp Require Import gmap strings.
From S2P Require Import Prelude CfiTable EhFrame TableBuilder TableFacts AbsState Zydis ZydisSample InsnSemantics.
From S2P Require Import BoundFacts ElfImage FixtureImage RowCheck FdeChecker Machine TransferFacts RunFacts Driver Fixtures.

#[local] Existing Instance fixture_zydis.
#[local] Existing Instance fixture_laws.

Lemma fixture_code_documented code address insn :
  Decode code address = Some insn → documented insn ∧ mem_documented insn.
Proof.
  apply (table_documented fixture_encodings); [|done].
  repeat (constructor; [intros imm; single_dest_tac|]). constructor.
Qed.

Lemma mapM_inv {A B} (f : A → res B) l k y : mapM (M := res) f l = Ok k → y ∈ k → ∃ x, x ∈ l ∧ f x = Ok y.
Proof.
  revert k. induction l as [|x l IH]; intros k; cbn; [intros [= <-] Hy; by apply elem_of_nil in Hy|].
  intros (z & Ez & E)%bind_ok. apply bind_ok in E as (k' & Ek & E). injection E as <-.
  intros [->|Hy]%elem_of_cons; [exists x; split; [by left|done]|].
  destruct (IH _ Ek Hy) as (x' & ? & ?). exists x'. split; [by right|done].
Qed.

(** The options of a strict run. *)
Definition strict_options (im : ELFImage) (cfis : list CFI) : FDECheckerOptions :=
  mkOptions im true true 8 kMaxIterations (make_index cfis).
Definition strictly_blessed (im : ELFImage) (cfis : list CFI) (c : CFI) : Prop :=
  r_verdict (Check (strict_options im cfis) c true false) = kBlessed.

Lemma fixtures_unwind im cfis c :
  all_cfis im = Ok cfis → c ∈ cfis → pc_begin c < pc_end c → strictly_blessed im cfis c →
  ∃ first_row, row_at c (pc_begin c) = Some first_row ∧
    (row_reg first_row kDWARFRip = RR_Undefined ∨ unwinds_along (strict_options im cfis) c false first_row).
Proof.
  intros Hall Hc Hlt Hb. unfold all_cfis in Hall. destruct (EnumerateFDEs _ _ _) as [addrs err].
  apply bind_ok in Hall as (cfis' & Hm & Hall). destruct err; [done|]. injection Hall as ->.
  destruct (mapM_inv _ _ _ _ Hm Hc) as (a & _ & Ha).
  destruct (decoded_row_at _ _ _ _ _ _ (pc_begin c) Ha) as (row & Hrow & _ & Hshape); [lia|].
  exists row. split; [done|]. destruct (decide (row_reg row kDWARFRip = RR_Undefined)) as [Hu|Hu]; [by left|right].
  eapply blessed_unwinds_along; [done|done|done|done| |exact Hb].
  intros pc insn. unfold decode_at. apply fixture_code_documented.
Qed.

(** The blessed functions by name: all the [good_] ones. *)
Definition strict_names (file : list Z) : res (list string) :=
  im ← open_fixture file;
  cfis ← all_cfis im;
  mret (filter (fun n => n ≠ "")
          (fixture_name (fun _ => None) im ∘ pc_begin <$>
             filter (fun c => r_verdict (Check (strict_options im cfis) c true false) = kBlessed) cfis)).
Example fixtures_strictly_blessed :
  strict_names libfixtures
  = Ok ["good_leaf"; "good_frame_pointer"; "good_callee_saved"; "good_leave"; "good_shared_epilogue";
        "good_mov_spill"; "good_call"; "good_tail_call"; "good_indirect_tail_call"; "good_switch_table";
        "good_switch_table_jbe"; "good_switch_table_jb"; "good_jump_to_cold_fragment";
        "good_switch_table_into_cold"].
Proof. vm_compute. reflexivity. Qed.
