(* ===== verification/Main.v ===== *)
(** * The program

    Models [Run] of [src/unwind-check.cc] from the image to the exit code,
    composed of the reader, the checkers, the symbolizer and the report.
    Parameters stand for what is outside: the C++ regular expressions, the
    hex parser of abseil, the creation of the disassembler, and the JSON text
    of the annotations of [--inspect].  [Run_blessed] is what exit code 0 means;
    [sample_runs] checks a small binary end to end. *)

From stdpp Require Import gmap strings sorting.
From S2P Require Import Prelude CfiTable AbsState Zydis InsnSemantics ElfImage RowCheck FdeChecker.
From S2P Require Import LightChecker Coverage Driver DriverFacts Diagnostics Inspect Subprocess Symbolizer Report.

(** The command line, as [main] parsed it. *)
Record CommandLine := mkCommandLine {
  cl_path : string;
  cl_function : string;
  cl_pc : string;
  cl_addr2line : string;
  cl_max_findings : Z;
  cl_check_unmentioned_callee_saved : bool;
  cl_full : bool;
  cl_report_coverage_gaps : bool;
  cl_report_uncovered_symbols : bool;
  cl_dump_cfi : bool;
  cl_inspect : bool;
  cl_inspect_deep : bool;
  cl_report : ReportOptions
}.

(** What a run leaves behind: its lines and its exit code. *)
Record RunOutput := mkRunOutput { out_lines : list string; err_lines : list string; out_code : Z }.

Definition stop (message : string) : RunOutput :=
  mkRunOutput [] ["unwind-check: " +:+ message] kExitFailure.

Section Main.
Context `{ZydisApi} `{Spawner} `{Writer}.
Context (executable : string → bool) (PATH : option string) (cxa_demangle : string → option string).
Context (child_output : list string → string).
(** [std::regex(pattern)] and [regex_search]; the message of a bad pattern. *)
Context (regex : string → string + (string → bool)).
Context (SimpleHexAtoi : string → option Z).
Context (disassembler_error : option string).
(** [--inspect]: the JSON text of its annotations, the path of the script,
    whether to colour ([--color] or a terminal), and how often a call to the
    helper may be interrupted. *)
Context (dump : list Annotation → string) (ruby_script_path : string) (color : bool) (patience : nat).
Context (max_iterations : nat) (cl : CommandLine).

Definition name_filter : string + (string → bool) :=
  if bool_decide (cl_function cl = "") then inr (fun _ => true)
  else match regex (cl_function cl) with
  | inl what => inl ("bad --function regex: " +:+ what)
  | inr search => inr search
  end.
Definition pc_filter : string + option Z :=
  if bool_decide (cl_pc cl = "") then inr None
  else match SimpleHexAtoi (cl_pc cl) with
  | None => inl ("cannot parse --pc value '" +:+ cl_pc cl +:+ "' as hex")
  | Some v => inr (Some v)
  end.

Definition run_flags (pc : option Z) (matches : Z → bool) : Flags :=
  mkRunFlags (cl_full cl) (cl_max_findings cl) (cl_check_unmentioned_callee_saved cl)
             (cl_report_coverage_gaps cl) (cl_report_uncovered_symbols cl) pc matches.

(** What is printed before the helper runs. *)
Definition inspect_header (target : CFI) (n : string) : string :=
  "FDE 0x" +:+ fmt_x (fde_addr target) +:+ "  [0x" +:+ fmt_x (pc_begin target) +:+ ", 0x"
    +:+ fmt_x (pc_end target) +:+ ")" +:+ (if bool_decide (n = "") then "" else "  ") +:+ n
    +:+ (if signal_frame target then "  (signal frame)" else "").

(** What is made of the helper's run: the findings without an address, which
    are not in its listing, and the exit code. *)
Definition inspect_output (header : string) (inspected : string + FDEResult) : RunOutput :=
  let warning := if cl_full cl then [] else
    ["unwind-check: --inspect always uses the full checker, regardless of --full"] in
  match inspected with
  | inl msg => mkRunOutput [header] (warning ++ ["unwind-check: " +:+ msg]) kExitFailure
  | inr r =>
      mkRunOutput (header :: ((fun f => "  " +:+ f_message f) <$> filter (fun f => f_pc f = 0) (r_findings r)))
        warning (exit_code (Summarize [r]))
  end.

(** [--inspect]; the listing itself is written by the helper process. *)
Definition inspect_run (im : ELFImage) (fl : Flags) (name : Z → string) (checkable : list CFI) (p : Proc) :
    res (RunOutput * Proc) :=
  match fl_pc fl with
  | None => mret (stop "--inspect requires --pc", p)
  | Some pc =>
      match inspect_target checkable pc with
      | None => mret (stop ("no checkable FDE covers 0x" +:+ fmt_x pc), p)
      | Some target =>
          let opts := checker_options fl max_iterations im checkable in
          match RunInspectPipeline dump patience opts target (bool_decide (pc_begin target ∈ function_starts im))
                  (cl_inspect_deep cl) color (cl_path cl) ruby_script_path p with
          | None => Throw OutOfFuel
          | Some run => mret (inspect_output (inspect_header target (name (pc_begin target))) (ins_result run),
                              ins_proc run)
          end
      end
  end.

(** [cfi_by_pc_begin]: [emplace] keeps the first FDE of an address. *)
Definition cfi_by_pc_begin (checkable : list CFI) (pc : Z) : option CFI :=
  head (filter (fun c => pc_begin c = pc) checkable).

(** [PrintReport], which has the symbolizer look the addresses up first. *)
Definition report_run (im : ELFImage) (checkable : list CFI) (results : list FDEResult)
    (st : Symbolizer) (p : Proc) : list string * Proc :=
  let '(st, p) := if summary_only (cl_report cl) then (st, p)
                  else Prepare im child_output (interesting (cl_report cl) results) st p in
  (PrintReport im (Name im cxa_demangle st) (SourceLine st) (disabled_reason st)
               (Some (cfi_by_pc_begin checkable)) (cl_report cl) results, p).

(** [--dump_cfi]. *)
Definition dump_run (fl : Flags) (name : Z → string) (checkable : list CFI) : RunOutput :=
  mkRunOutput (filter (fun c => selected fl c = true) checkable ≫= DumpCFI name) [] kExitBlessed.

(** The checking path. *)
Definition check_run (im : ELFImage) (fdes : list RawFDE) (enumerate_error : option string) (fl : Flags)
    (st : Symbolizer) (p : Proc) : res (RunOutput * Proc) :=
  let checkable := (RunStructuralChecks im fdes).2 in
  checked ← check_all fl max_iterations im checkable;
  let results := structural_results fl im fdes ++ checked in
  let '(lines, p) := report_run im checkable results st p in
  mret (mkRunOutput lines
          (match enumerate_error with
           | Some msg => ["unwind-check: .eh_frame walk stopped early: " +:+ msg]
           | None => []
           end) (exit_code (Summarize results)), p).

(** From the flags on. *)
Definition run_with_fdes (im : ELFImage) (fdes : list RawFDE) (enumerate_error : option string) (p : Proc) :
    res (RunOutput * Proc) :=
  let st := make_symbolizer im executable PATH (ParseAddr2LineMode (cl_addr2line cl)) in
  let name := Name im cxa_demangle st in
  match name_filter, pc_filter with
  | inl msg, _ => mret (stop msg, p)
  | _, inl msg => mret (stop msg, p)
  | inr search, inr pc =>
      let fl := run_flags pc (fun a => search (name a)) in
      if cl_inspect cl then inspect_run im fl name (RunStructuralChecks im fdes).2 p
      else if cl_dump_cfi cl then mret (dump_run fl name (RunStructuralChecks im fdes).2, p)
      else check_run im fdes enumerate_error fl st p
  end.

(** [Run], given what [ELFImage::Open] returned for the path. *)
Definition RunProgram (maybe_image : res ELFImage) (p : Proc) : res (RunOutput * Proc) :=
  match maybe_image with
  | Throw e => mret (stop (error_what e), p)
  | Ok im =>
      if negb (has_eh_frame im) then
        mret (stop (cl_path cl +:+ " has no .eh_frame section; there is nothing to check"), p)
      else match disassembler_error with
      | Some msg => mret (stop msg, p)
      | None =>
          let '(fdes, enumerate_error) := ReadAllFDEs im in
          match fdes, enumerate_error with
          | [], Some msg => mret (stop ("cannot read .eh_frame of " +:+ cl_path cl +:+ ": " +:+ msg), p)
          | _, _ => run_with_fdes im fdes enumerate_error p
          end
      end
  end.
End Main.

(** ** Exit code 0 *)

Lemma exit_code_blessed results :
  exit_code (Summarize results) = kExitBlessed → Forall (fun r => r_verdict r = kBlessed) results.
Proof.
  destruct (Summarize_from results (mkSummary 0 0 0 0)) as (_ & E2 & E3 & E4).
  change (foldl count_verdict _ results) with (Summarize results) in *. cbn [review_light sm_review sm_mismatch] in *.
  rewrite Z.add_0_l in *. unfold exit_code. rewrite E2, E3, E4. intros Hc. apply Forall_forall. intros r Hr.
  assert (∀ v, 0 <= count_of v results) as Hpos by (intros v; unfold count_of; lia).
  pose proof (Hpos kMismatch). pose proof (Hpos kReview). pose proof (Hpos kReviewLight).
  destruct (0 <? count_of kMismatch results) eqn:T1; [done|].
  destruct (0 <? count_of kReview results) eqn:T2; [done|].
  destruct (0 <? count_of kReviewLight results) eqn:T3; [done|].
  destruct (r_verdict r) eqn:Hv; [done|exfalso..].
  - apply (proj1 (count_of_zero kReviewLight results) ltac:(lia) r Hr Hv).
  - apply (proj1 (count_of_zero kReview results) ltac:(lia) r Hr Hv).
  - apply (proj1 (count_of_zero kMismatch results) ltac:(lia) r Hr Hv).
Qed.

Lemma mapM_res_elem {A B} (f : A → res B) l k :
  mapM f l = Ok k → ∀ x, x ∈ l → ∃ y, y ∈ k ∧ f x = Ok y.
Proof.
  revert k. induction l as [|x l IH]; intros k Hm y Hy; [by apply elem_of_nil in Hy|].
  cbn in Hm. apply bind_ok in Hm as (z & Hz & Hm). apply bind_ok in Hm as (k' & Hk & [= <-]).
  apply elem_of_cons in Hy as [->|Hy]; [exists z; split; [by left|done]|].
  destruct (IH k' Hk y Hy) as (w & ? & ?). exists w. split; [by right|done].
Qed.

Lemma symbol_step_results im coverage acc sym :
  ∃ more, (symbol_step im coverage acc sym).2 = acc.2 ++ more
          ∧ Forall (fun r => r_verdict r = kReview) more.
Proof.
  destruct acc as [flagged results]. unfold symbol_step.
  repeat case_match; cbn;
    first [ by exists []; rewrite app_nil_r
          | eexists [_]; split; [reflexivity|]; by constructor ].
Qed.

(** An uncovered symbol is always a review. *)
Lemma uncovered_review im ranges : Forall (fun r => r_verdict r = kReview) (CheckUncoveredSymbols im ranges).
Proof.
  unfold CheckUncoveredSymbols. generalize (im_symbols im). intros l.
  induction l as [|s l IH] using rev_ind; [constructor|]. rewrite foldl_app. cbn.
  destruct (symbol_step_results im (MergeRanges ranges) (foldl (symbol_step im (MergeRanges ranges)) (∅, []) l) s)
    as (more & -> & Hm). by apply Forall_app.
Qed.

Lemma overlaps_mismatch l : Forall (fun r => r_verdict r = kMismatch) (overlaps l).
Proof.
  induction l as [|[a x] l IH]; [constructor|]. destruct l as [|[b y] l]; [constructor|].
  change (overlaps ((a, x) :: (b, y) :: l)) with
    ((if pc_begin y <? pc_end x then
        [MakeStructuralResult b (pc_begin y) (pc_end y) kMismatchSev
           ("FDE range " +:+ range_str y +:+ " overlaps the preceding FDE's " +:+ range_str x)]
      else []) ++ overlaps ((b, y) :: l)).
  apply Forall_app. split; [|done]. case_match; repeat constructor.
Qed.

Lemma all_of_two_verdicts v (l : list FDEResult) :
  v ≠ kBlessed → Forall (fun r => r_verdict r = v) l → Forall (fun r => r_verdict r = kBlessed) l → l = [].
Proof. intros Hv H1 H2. destruct H1; [done|]. apply Forall_cons in H2 as [? _]. congruence. Qed.

(** An FDE whose structural result is blessed is one the PLT owns. *)
Lemma classify_blessed im raw r :
  classify im raw = inl r → r_verdict r = kBlessed →
  ∃ c, raw_cfi raw = Some c ∧ pc_begin c < pc_end c
       ∧ IsExecutable im (pc_begin c) (u64 (pc_end c - pc_begin c)) = true
       ∧ InPLT im (pc_begin c) (u64 (pc_end c - pc_begin c)) = true.
Proof.
  unfold classify. destruct (raw_cfi raw) as [c|]; [|by intros [= <-]].
  destruct (pc_end c =? pc_begin c) eqn:E1; [by intros [= <-]|].
  destruct (pc_end c <? pc_begin c) eqn:E2; [by intros [= <-]|].
  destruct (IsExecutable _ _ _) eqn:E3; cbn; [|by intros [= <-]].
  destruct (InPLT _ _ _) eqn:E4; [|done]. intros _ _. exists c. split_and!; done || lia.
Qed.

(** A run that checks everything: no mode and no filter. *)
Definition plain_run (cl : CommandLine) : Prop :=
  cl_inspect cl = false ∧ cl_dump_cfi cl = false ∧ cl_function cl = "" ∧ cl_pc cl = "".

Section Blessed.
Context `{ZydisApi} `{Spawner} `{Writer}.
Context (executable : string → bool) (PATH : option string) (cxa_demangle : string → option string).
Context (child_output : list string → string) (regex : string → string + (string → bool)).
Context (SimpleHexAtoi : string → option Z) (disassembler_error : option string).
Context (dump : list Annotation → string) (ruby_script_path : string) (color : bool) (patience : nat).
Context (max_iterations : nat) (cl : CommandLine).

#[local] Notation run := (RunProgram executable PATH cxa_demangle child_output regex SimpleHexAtoi disassembler_error
                            dump ruby_script_path color patience max_iterations cl).

(** The checker chosen by [--full] blesses the FDE, in the context of the
    other checkable ones. *)
Definition checked_blessed (im : ELFImage) (checkable : list CFI) (c : CFI) : Prop :=
  ∃ r, check_one (run_flags cl None (fun _ => true)) max_iterations im checkable c = Ok r
       ∧ r_verdict r = kBlessed.

(** What exit code 0 says of one FDE of the section. *)
Definition fde_accounted (im : ELFImage) (checkable : list CFI) (raw : RawFDE) : Prop :=
  ∃ c, raw_cfi raw = Some c ∧ pc_begin c < pc_end c
       ∧ IsExecutable im (pc_begin c) (u64 (pc_end c - pc_begin c)) = true
       ∧ (InPLT im (pc_begin c) (u64 (pc_end c - pc_begin c)) = true ∨ checked_blessed im checkable c).

Lemma check_run_blessed im fdes e st p o p' :
  check_run cxa_demangle child_output max_iterations cl im fdes e (run_flags cl None (fun _ => true)) st p = Ok (o, p') →
  out_code o = kExitBlessed →
  (∀ raw, raw ∈ fdes → fde_accounted im (RunStructuralChecks im fdes).2 raw)
  ∧ overlaps (merge_sort begin_le (omap right_of (classify im <$> fdes))) = []
  ∧ (cl_report_uncovered_symbols cl = true → CheckUncoveredSymbols im (fde_ranges fdes) = []).
Proof.
  unfold check_run. intros Hr Hcode. apply bind_ok in Hr as (checked & Hchecked & Hr).
  destruct (report_run _ _ _ _ _ _ _) as [lines p1]. injection Hr as <- <-. cbn in Hcode.
  apply exit_code_blessed in Hcode. unfold structural_results in Hcode. cbn [fl_report_uncovered_symbols run_flags] in Hcode.
  rewrite !Forall_app in Hcode. destruct Hcode as [[[Hleft Hover] Hu] Hc].
  split_and!.
  - intros raw Hraw. destruct (classify im raw) as [r|[addr c]] eqn:E.
    + apply classify_blessed in E as (c & ? & ? & ? & ?); [by exists c; auto 6|].
      rewrite Forall_forall in Hleft. apply Hleft. apply list_elem_of_omap.
      exists (inl r). split; [|done]. apply list_elem_of_fmap. eauto.
    + pose proof E as E'. apply classify_right in E' as (? & ? & ?). exists c. split_and!; [done..|]. right.
      apply mapM_res_elem with (x := c) in Hchecked as (r & Hin & Hr).
      * exists r. split; [done|]. rewrite Forall_forall in Hc. by apply Hc.
      * apply list_elem_of_filter. split; [done|]. cbn [RunStructuralChecks snd].
        apply list_elem_of_fmap. exists (addr, c). split; [done|]. apply list_elem_of_omap.
        exists (inr (addr, c)). split; [|done]. apply list_elem_of_fmap. eauto.
  - eapply all_of_two_verdicts; [|apply overlaps_mismatch|exact Hover]. done.
  - intros Hrep. rewrite Hrep in Hu. eapply all_of_two_verdicts; [|apply uncovered_review|exact Hu]. done.
Qed.

Lemma plain_run_blessed im p o p' :
  plain_run cl → run (Ok im) p = Ok (o, p') → out_code o = kExitBlessed →
  let fdes := (ReadAllFDEs im).1 in
  (∀ raw, raw ∈ fdes → fde_accounted im (RunStructuralChecks im fdes).2 raw)
  ∧ overlaps (merge_sort begin_le (omap right_of (classify im <$> fdes))) = []
  ∧ (cl_report_uncovered_symbols cl = true → CheckUncoveredSymbols im (fde_ranges fdes) = []).
Proof.
  intros (Hi & Hd & Hf & Hp) Hrun Hcode. cbv zeta. unfold RunProgram in Hrun.
  destruct (negb (has_eh_frame im)); [injection Hrun as <- <-; done|].
  destruct disassembler_error; [injection Hrun as <- <-; done|].
  destruct (ReadAllFDEs im) as [fdes e]. cbn [fst].
  assert (run_with_fdes executable PATH cxa_demangle child_output regex SimpleHexAtoi dump ruby_script_path
            color patience max_iterations cl im fdes e p = Ok (o, p')) as Hw.
  { destruct fdes as [|f fdes]; [|done]. destruct e; [|done]. injection Hrun as <- <-. done. }
  unfold run_with_fdes, name_filter, pc_filter in Hw. rewrite Hf, Hp, Hi, Hd in Hw. cbn in Hw.
  by apply check_run_blessed in Hw.
Qed.

(** C4: exit code 0 of a run without modes and filters: every FDE the walk
    over [.eh_frame] found was decoded, covers a non-empty executable range
    and belongs to the PLT or was blessed by the chosen checker; no two
    checkable FDEs overlap; and, unless that was switched off, no function
    symbol has uncovered bytes to report. *)
Theorem Run_blessed im p o p' :
  plain_run cl → run (Ok im) p = Ok (o, p') → out_code o = kExitBlessed →
  let fdes := (ReadAllFDEs im).1 in
  let checkable := (RunStructuralChecks im fdes).2 in
  (∀ raw, raw ∈ fdes → fde_accounted im checkable raw)
  ∧ (∀ i j a b, (i < j)%nat →
       merge_sort begin_le (omap right_of (classify im <$> fdes)) !! i = Some a →
       merge_sort begin_le (omap right_of (classify im <$> fdes)) !! j = Some b → ¬ overlapping a.2 b.2)
  ∧ (cl_report_uncovered_symbols cl = true → CheckUncoveredSymbols im (fde_ranges fdes) = []).
Proof.
  intros Hplain Hrun Hcode. cbv zeta.
  destruct (plain_run_blessed im p o p' Hplain Hrun Hcode) as (H1' & H2' & H3'). split_and!; [done| |done].
  assert (Forall (fun x : Z * CFI => pc_begin x.2 < pc_end x.2)
            (merge_sort begin_le (omap right_of (classify im <$> (ReadAllFDEs im).1)))) as Hne
    by (rewrite (merge_sort_Permutation begin_le); apply checkable_nonempty).
  apply pairwise_disjoint; [done| |by apply overlaps_nil_sorted].
  apply (StronglySorted_merge_sort begin_le).
Qed.
End Blessed.

(** ** A program checked end to end *)

From S2P Require Import ZydisSample Sample.

(** [sample_code] with the CIE, the FDE and the terminator a compiler emits
    for it: [def_cfa rsp+8], [offset rip]; after the push [def_cfa_offset 16],
    [offset rbp]; after the move [def_cfa_register rbp]; after the pop
    [def_cfa rsp+8], [restore rbp]. *)
Definition sample_eh_frame : list Z :=
  [0x14; 0; 0; 0; 0; 0; 0; 0; 1; 0x7A; 0x52; 0; 1; 0x78; 0x10; 1; 0x1B; 0x0C; 7; 8; 0x90; 1; 0; 0;
   0x1C; 0; 0; 0; 0x1C; 0; 0; 0; 0xE0; 0xEF; 0xFF; 0xFF; 6; 0; 0; 0; 0;
   0x41; 0x0E; 0x10; 0x86; 2; 0x43; 0x0D; 6; 0x41; 0x0C; 7; 8; 0xC6; 0; 0;
   0; 0; 0; 0].
(** The push one byte late: the compiler bug the program was written for. *)
Definition late_eh_frame : list Z := <[41%nat := 0x44]> (<[46%nat := 0x40]> sample_eh_frame).

Definition program_image (eh : list Z) : ELFImage :=
  mkImage "sample" 0 [mkSeg 0x1000 6 6 0 5; mkSeg 0x2000 60 60 0x1000 4] [mkSym 0x1000 6 (str_bytes "f")]
    0x2000 0x203C 0 [] false false
    (fun a => default 0 (if a <? 0x2000 then sample_code !! Z.to_nat (a - 0x1000)
                         else eh !! Z.to_nat (a - 0x2000))).
Definition sample_command_line (full : bool) : CommandLine :=
  mkCommandLine "sample" "" "" "auto" 8 false full true true false false false (mkReport true false false false).
#[local] Notation run_on im full :=
  (RunProgram (fun _ => true) (Some "/bin") (fun _ => None) (fun _ => "") (fun _ => inl "error")
    (fun _ => None) None sample_dump "inspect.rb" false 1 1000 (sample_command_line full) (Ok im) sample_proc).
#[local] Notation sample_run eh full := (run_on (program_image eh) full).
Definition lines_and_code (r : res (RunOutput * Proc)) : option (list string * Z) :=
  match r with Ok (o, _) => Some (out_lines o, out_code o) | Throw _ => None end.

Example sample_runs :
  forallb (fun full => bool_decide (lines_and_code (sample_run sample_eh_frame full) =
    Some (["BLESSED  f  [0x1000 - 0x1006)"; "";
           "1 FDEs: 1 blessed, 0 review-light, 0 review, 0 mismatch"], 0))) [false; true] = true.
Proof. vm_compute. reflexivity. Qed.
Example late_runs :
  forallb (fun full => bool_decide (snd <$> lines_and_code (sample_run late_eh_frame full) = Some kExitMismatch))
    [false; true] = true.
Proof. vm_compute. reflexivity. Qed.

Definition sample_result : RunOutput * Proc :=
  match sample_run sample_eh_frame true with Ok r => r | Throw _ => (stop "", sample_proc) end.
Lemma sample_run_ok : sample_run sample_eh_frame true = Ok (sample_result.1, sample_result.2).
Proof. vm_compute. reflexivity. Qed.

Lemma sample_code_0 : out_code sample_result.1 = kExitBlessed.
Proof. vm_compute. reflexivity. Qed.
Lemma sample_plain : plain_run (sample_command_line true).
Proof. done. Qed.

Lemma Run_blessed_witness :
  length (ReadAllFDEs (program_image sample_eh_frame)).1 = 1%nat ∧
  ∀ raw, raw ∈ (ReadAllFDEs (program_image sample_eh_frame)).1 →
    fde_accounted 1000 (sample_command_line true) (program_image sample_eh_frame)
      (RunStructuralChecks (program_image sample_eh_frame)
         (ReadAllFDEs (program_image sample_eh_frame)).1).2 raw.
Proof.
  split; [vm_compute; reflexivity|].
  exact (proj1 (Run_blessed _ _ _ _ _ _ _ _ _ _ _ _ _ _ _ _ _ sample_plain sample_run_ok sample_code_0)).
Defined.

(** A walk stopped by a corrupt record only warns: the FDEs before it are
    checked, and the exit code does not tell. *)
Definition corrupt_eh_frame : list Z := <[56%nat := 0xF0]> sample_eh_frame.
Example stopped_walk_exits_0 :
  match run_on (with_eh_frame (0x2000, 0x2040) (program_image corrupt_eh_frame)) true with
  | Ok (o, _) => negb (bool_decide (err_lines o = [])) && (out_code o =? kExitBlessed)
  | Throw _ => false
  end = true.
Proof. vm_compute. reflexivity. Qed.
