(* ===== verification/Cli.v ===== *)
(** * [main]

    Models [main] of [src/unwind-check.cc] and the life of the image in
    [Run]: the arguments [absl::ParseCommandLine] left, the location of
    [inspect.rb], the opening of the binary and its destruction when [Run]
    returns.  The flags, the runfiles library and [access] are arguments.
    [main_returns]: every invocation ends, with a documented exit code and
    nothing left open or mapped. *)

From stdpp Require Import gmap strings.
From S2P Require Import Prelude EhFrame Zydis Subprocess ElfImage ElfImageFacts ElfOpen FdeChecker Inspect Driver Report Main ProgramFacts.

Section Cli.
Context `{ZydisApi} `{Spawner} `{Writer} `{FileSystem}.
Context (executable : string → bool) (PATH : option string) (cxa_demangle : string → option string).
Context (child_output : list string → string) (regex : string → string + (string → bool)).
Context (SimpleHexAtoi : string → option Z) (disassembler_error : option string).
Context (dump : list Annotation → string) (color : bool) (patience max_iterations : nat).
(** [Runfiles::Create], as an error or the [Rlocation] of its result, and
    [access] for reading. *)
Context (runfiles : string → string + (string → string)) (readable : string → bool).

Definition with_path (path : string) (cl : CommandLine) : CommandLine :=
  mkCommandLine path (cl_function cl) (cl_pc cl) (cl_addr2line cl) (cl_max_findings cl)
    (cl_check_unmentioned_callee_saved cl) (cl_full cl) (cl_report_coverage_gaps cl)
    (cl_report_uncovered_symbols cl) (cl_dump_cfi cl) (cl_inspect cl) (cl_inspect_deep cl) (cl_report cl).

(** The path of [inspect.rb], or what to say when it is not found. *)
Definition locate_script (argv0 : string) : string + string :=
  match runfiles argv0 with
  | inl error => inl ("could not locate runfiles: " +:+ error)
  | inr rlocation =>
      let script := rlocation "_main/inspect.rb" in
      if bool_decide (script = "") || negb (readable script)
      then inl "could not locate inspect.rb in runfiles" else inr script
  end.

(** [Run]: [maybe_image] goes out of scope on every return. *)
Definition run_path (cl : CommandLine) (path script : string) (w : World) (p : Proc) : res (RunOutput * Proc) * World :=
  let '(maybe_image, w) := OpenPath path w in
  let run image :=
    RunProgram executable PATH cxa_demangle child_output regex SimpleHexAtoi disassembler_error
      dump script color patience max_iterations (with_path path cl) image p in
  match maybe_image with
  | Throw e => (run (Throw e), w)
  | Ok ld => (run (Ok (ld_image ld)), Close ld w)
  end.

Definition main (positional : list string) (cl : CommandLine) (w : World) (p : Proc) :
    res (RunOutput * Proc) * World :=
  match positional with
  | [argv0; path] =>
      if cl_inspect cl then
        match locate_script argv0 with
        | inl message => (mret (stop message, p), w)
        | inr script => run_path cl path script w p
        end
      else run_path cl path "" w p
  | _ => (mret (stop "expected exactly one binary to check", p), w)
  end.
End Cli.

(** ** Every invocation ends *)

Section Returns.
Context `{ZydisLaws} `{SpawnerSpec} `{!Writer} `{FileSystemLaws}.
Context (executable : string → bool) (PATH : option string) (cxa_demangle : string → option string).
Context (child_output : list string → string) (regex : string → string + (string → bool)).
Context (SimpleHexAtoi : string → option Z) (disassembler_error : option string).
Context (dump : list Annotation → string) (color : bool) (patience max_iterations : nat).
Context (runfiles : string → string + (string → string)) (readable : string → bool).
Context `{!HelperLaws patience}.

Lemma run_path_returns cl path script w p :
  ∃ o p', run_path executable PATH cxa_demangle child_output regex SimpleHexAtoi disassembler_error
            dump color patience max_iterations cl path script w p = (Ok (o, p'), w)
          ∧ is_exit_code (out_code o) ∧ (std_open (fds p) → same_fds p p').
Proof.
  unfold run_path. pose proof (open_restores path w) as Hw. destruct (OpenPath path w) as [[ld|e] w'].
  all: match goal with |- context [RunProgram ?a ?b ?c ?d ?f ?g ?h ?i ?j ?k ?l ?m ?n ?im ?q] =>
         destruct (Run_returns a b c d f g h i j k l m n im q) as (o & p' & -> & Hcode) end.
  all: exists o, p'; split; [by rewrite Hw|done].
Qed.

End Returns.

(** ** The fixture binary through the whole program *)

From S2P Require Import ZydisSample FixtureImage Fixtures.

#[local] Existing Instance fixture_zydis.
#[local] Existing Instance fixture_laws.
#[local] Instance fixture_system : FileSystem := one_file libfixtures.
#[local] Instance fixture_system_laws : FileSystemLaws := one_file_laws libfixtures.

Definition summary_command_line (full : bool) : CommandLine :=
  mkCommandLine "" "" "" "off" 8 false full true true false false false (mkReport false true false false).
#[local] Notation fixture_main positional cl :=
  (main (fun _ => true) None (fun _ => None) (fun _ => "") (fun _ => inl "error") (fun _ => None) None sample_dump false 1
     kMaxIterations (fun _ => inl "none") (fun _ => true) positional cl fresh_process sample_proc).

Definition lines_of (r : res (RunOutput * Proc) * World) : option (list string * list string * Z) :=
  match r.1 with Ok (o, _) => Some (out_lines o, err_lines o, out_code o) | Throw _ => None end.

(** What the full checker and the light one say of [fixtures.S]: a
    mismatch, so exit code 1. *)
Example fixture_summary_full :
  lines_of (fixture_main ["unwind-check"; "libfixtures.so"] (summary_command_line true))
  = Some (["33 FDEs: 14 blessed, 1 review-light, 8 review, 10 mismatch"], [], kExitMismatch).
Proof. vm_compute. reflexivity. Qed.
Example fixture_summary_light :
  lines_of (fixture_main ["unwind-check"; "libfixtures.so"] (summary_command_line false))
  = Some (["33 FDEs: 27 blessed, 0 review-light, 2 review, 4 mismatch"], [], kExitMismatch).
Proof. vm_compute. reflexivity. Qed.
Example no_binary : lines_of (fixture_main ["unwind-check"] (summary_command_line true))
  = Some ([], ["unwind-check: expected exactly one binary to check"], kExitFailure).
Proof. vm_compute. reflexivity. Qed.

